(* ===== verification/_CoqProject ===== *)
-Q . S2P
Prelude.v
Nostr.v
Kinds.v
Channel.v
GitPerms.v
Filters.v
Subscription.v
Float64.v
Backoff.v
EventQueue.v
Pairing.v
Conformance.v
Text.v
Json.v
EventStore.v
Replacement.v
Threads.v
Auth.v
Envelopes.v
Membership.v
Moderation.v
ReadPath.v
ReadExact.v
Delivery.v
Programs.v
Relay.v
Provenance.v
Groups.v
Moderators.v
Submission.v
Commands.v
Ingest.v
Effects.v
Scenario.v
Admission.v
Evidence.v
Answers.v
Acceptance.v
Network.v
Fence.v
AuditLog.v
Workflow.v
Scheduler.v
GitStore.v
GitPublish.v
GitHistory.v
GitClone.v
