(* ===== verification/Prelude.v ===== *)
(** * A verification of the core of Buzz

    Buzz is a relay for teams of people and agents, built on the nostr protocol: a
    multi-tenant WebSocket relay ([crates/buzz-relay]) over Postgres ([crates/buzz-db]), a
    workflow engine ([crates/buzz-workflow]), a tamper-evident audit log
    ([crates/buzz-audit]), a checker for its multi-tenant isolation
    ([crates/buzz-conformance]), a harness that feeds relay events to agents
    ([crates/buzz-acp]) and the protocol core they share ([crates/buzz-core]).  This library
    models the parts of those crates that decide something, definition by definition, and
    proves what each of them promises.

    ** How the parts interact

    A client's event enters the relay through the ingest pipeline ([Ingest]), which checks who
    submits it, under which scopes and bans, and whether they may write to its channel; commands,
    reports and moderation go to handlers of their own ([Commands], [Moderators]).  The event is
    classified by its kind ([Kinds]), placed in its thread ([Threads]), stored or put in the place of its predecessor ([EventStore],
    [Replacement]), recorded in the audit log ([AuditLog]), and fanned out: the subscription registry
    ([Subscription]) proposes candidates by index, filter matching ([Filters]) confirms
    them, and the gates of live delivery ([Delivery]: channel access, author-only and
    addressed kinds, the shared tag of [Kinds]) decide which connections receive it.  Group
    events then change channels and their members ([Groups]).  The handlers of many requests on
    many pods share one world of tables, caches and sockets and interleave at every query,
    statement and cache access ([Programs], [Relay]); what they keep true together is proved in
    [Admission] and [Evidence].
    Who may read and govern a channel is what the membership tables say ([Membership]); a
    connection carries the scopes and channels it authenticated with ([Auth]); its REQ and
    COUNT read the store through both ([ReadPath]).
    What the relay did is recorded as a trace that the conformance checker ([Conformance])
    replays.  Reads may be routed to a replica when the freshness fence proves that it is
    recent enough ([Fence]).  Events also trigger workflows ([Scheduler]), whose runs
    ([Workflow]) act on the relay and on the outside world after an address check
    ([Network]).  A git push is judged against a repository's protection tags ([GitPerms]) and
    published by swapping a manifest pointer in an object store ([GitStore], [GitPublish]).  The agent
    harness queues the events it receives per channel and retries ([EventQueue],
    [Backoff]).  A new device receives its identity by the NIP-AB pairing protocol
    ([Pairing]).

    ** The files

    - [Prelude]: outcomes ([result]) and state-and-error methods ([method]) with their
      notations, lemmas on lists and maps.
    - [Nostr]: the data of the third-party [nostr] crate and the class of its functions.
    - [Kinds]: [buzz-core/src/kind.rs]; the registry's constants and predicates, the
      storage classes as a partition, the shared-tag gate.
    - [Channel]: [buzz-core/src/channel.rs]; enumerations, parsers, the order of roles.
    - [GitPerms]: [buzz-core/src/git_perms.rs]; ref patterns, protection rules,
      [evaluate_push] against its specification.
    - [Filters]: [buzz-core/src/filter.rs, event.rs]; NIP-01 matching against its
      specification.
    - [Subscription]: [buzz-relay/src/subscription.rs]; the registry is a [Record] of the
      authoritative map and five indexes, each method a function on it.  Fan-out is exact
      and isolated by community; the indexes are proved to mirror the map in every
      reachable registry.
    - [Float64], [Backoff], [EventQueue]: [buzz-acp/src/queue.rs]; the retry delay in
      double precision, the queue as a [Record] with one function per method.  No event is
      lost except by the documented drops, a channel is flushed to one agent at a time, a
      failing batch is dead-lettered after the configured attempts, a channel with work is
      eventually flushed.
    - [Pairing]: [buzz-core/src/pairing/]; both roles as one session state machine of
      methods.  The states move forward only, terminal states absorb, an honest run ends
      with the payload at the target, every message is authenticated.
    - [Conformance]: [buzz-conformance/src/]; the checker accepts exactly the traces that
      its transition rules allow, and resuming a replay changes nothing.
    - [Text], [Json]: Rust's string functions on UTF-8, [serde_json] values.
    - [EventStore]: [buzz-db/src/event.rs], the replacement and mention functions of
      [buzz-db/src/lib.rs], the thread counters and the triggers of migrations 0009, 0011 and
      0019; tables are finite maps, statements functions on them.  [Replacement]: replacement
      converges whatever the order of arrival, and a deleted read state never comes back.
      [Threads]: the NIP-10 ancestry of [ingest.rs]; the counters of a thread are exact as long
      as roots are live when replies to replies are resolved.
    - [Membership]: [buzz-db/src/channel.rs, dm.rs, user.rs]; channels, members, direct
      messages.  A channel always has an owner, and accounts without an elevated role never
      obtain one by themselves.
    - [Auth]: [buzz-auth/src/scope.rs] and the context of a connection.
    - [ReadPath]: [buzz-relay/src/handlers/req.rs, count.rs]; the handlers as methods on what
      a request changes, over the states its reads see.  What is sent is confined to what
      the reader may see.  [ReadExact]: against one state of the database it is exactly what
      the reader is owed, where the columns of the tables find it: an event stored without a
      channel, as the relay's membership notices are, is not found by the channel of its h tag.
    - [Delivery]: [buzz-relay/src/handlers/event.rs], caches and echo marks of [state.rs]; fan-out
      to live connections.  On each of the three paths frames go to those who may see the event,
      and to owners only where the path has that gate; an event published here is not delivered
      twice.
    - [Envelopes]: what [buzz-relay/src/handlers/ingest.rs] checks of an event alone (scopes,
      placement, the envelopes of the kinds), against independent specifications.
    - [Moderation]: [buzz-db/src/relay_members.rs, moderation.rs] and the policy and parsers of
      the moderation handlers; the transfer of a community's ownership on every branch.
    - [Programs]: request handlers as trees of operations on a shared world, the system of
      tasks that interleave them, and three program logics: what a handler may ask for
      ([asks]), what it knows at its end when every operation of every task keeps a guarantee
      ([holds]), and what it achieves when nothing fails ([delivers]).
    - [Relay]: that world for the relay - the tables of channels, events, reactions and
      moderation, each pod's caches, sockets and subscriptions, the open transactions of
      commands, the moments that were seen - one operation per query, statement or cache
      access, and the faults each may meet: it fails, or it takes effect and its reply, or the
      acknowledgement of its commit, is lost ([env_acked]); reactions and the membership
      roster.  [Provenance]: what one operation can add to the store.
    - [Groups]: [buzz-relay/src/handlers/side_effects.rs]; validation and effects of NIP-29
      events and deletions, the relay's announcements.  [Moderators]: [moderation_commands.rs,
      moderation_notices.rs, moderation_authz.rs, relay_admin.rs, report.rs].  [Submission],
      [Commands]: who submits, and the direct-message commands of [command_executor.rs] with
      their transaction.  [Ingest]: [ingest_event] of [ingest.rs], every gate in its order, and
      the conformance trace with its guard.
    - [Effects]: which operations a submission may ask for, proved through every handler.
      [Scenario]: concrete people, events and a quiet environment.  [Admission]: no event
      changes who owns a community; a created channel keeps an owner; outsiders stay outside
      (a creator who lost the role is no outsider: finding channel.rs:409).
      [Evidence]: every stored row was submitted by a request of the run with the identity and
      token of that request, and every frame was sent by an operation of its pod in the past, on
      what the registry, the connections and the tables of moments up to it said; the banned and
      strangers store nothing.
      [Answers]: what a submitter is told is what this request did with the event, and which
      lost replies leave it open.
      [Acceptance]: under conditions that are listed, a member's message is accepted, stored
      and published.
    - [Network]: [buzz-core/src/network.rs]; the private-address test against the ranges.
    - [Fence]: [buzz-db/src/replica_fence.rs], [route_read] and its callers,
      [thread.rs] pages and the commit-time floor of migration 0021.  Transactions, probes
      of several pods, re-seeds and restarts are one step relation; the theorems hold for
      every interleaving.  The rows of a page are complete; the columns that updates change are
      those of the session that read it, under any history of them.
    - [AuditLog]: [buzz-audit/src/]; the hash input is injective, two verified histories with
      one hash agree down to the first pair of rows whose inputs collide, concurrent appenders of several processes leave chains that verify.
    - [Workflow]: [buzz-workflow/src/schema.rs, executor.rs, lib.rs] and the approval
      handler of the relay; validated definitions, templates, and the step loop in a world
      that is an argument.  Its effects are those the definition allows, its requests go to
      addresses outside the ranges of [Network], and a run resumed
      after an approval is equivalent to one never interrupted.
    - [Scheduler]: triggers, cron and interval firing, durable claims in the database
      shared by several pods.  A scheduled instant runs at most once; an interval workflow
      keeps running.
    - [GitStore], [GitPublish], [GitHistory], [GitClone]:
      [buzz-relay/src/api/git/{manifest,store,cas_publish,hydrate,pack_cache,transport}.rs].
      A request handler is a tree of calls on an object store that other workers change in
      between ([Programs]); the store and the manifest; the compare-and-swap of concurrent
      push workers, whose accepted pushes form one linear history, each with the refs that git
      left in its workspace and after the state that workspace was hydrated from; a reader
      clones exactly the published repository.

    ** How code corresponds to definitions

    A definition carries the source's name where Rocq allows it.  Structs are [Record]s,
    enums are [Inductive] types with the source's constructors, [HashMap]s are [gmap]s (or
    association lists where order shows), fallible functions return [result] or [option],
    methods with [&mut self] are functions from state to outcome and state.  What is
    concurrent (pods, workers, transactions) is a step relation over the shared state, and
    its theorems quantify over every sequence of steps.  The clock, random numbers, the
    iteration order of hash maps and the replies of the outside world are inputs.
    Third-party crates and services are the fields of type classes ([NostrApi],
    [PairingApi], [SerdeJson], [AuditDeps], [WorkflowWorld], [EventDb], [GitCrates], ...);
    what is relied on is stated in a second class of laws, and a [Reference] instance that
    satisfies the laws evaluates the witnesses, one per property with hypotheses.

    ** Bounds and fuel

    Machine integers are [Z] with the source's wrapping, saturating or checked
    operations written out.  Recursion that is not structural takes fuel, and a theorem
    shows that the fuel given is enough: the template scanner gets the template's length
    ([tokens_closed] in [Workflow]), the trimming loop of the queue its number of pending
    events, suffix stripping and field counting the length of their input.  Long-running
    loops (the scheduler's ticks, the pods, the workers) are not given fuel: they are runs
    of a step relation of any length.

    ** What the properties show

    Functional correctness against an independent specification (filters, push policy,
    kinds, patterns, checker, address ranges), safety over all interleavings (isolation of
    communities, admission of everything stored, evidence for every frame sent, confined reads, at-most-once runs, fenced reads, tamper evidence, exclusive flushes,
    published manifests), invariants of reachable states, refinement (replica pages miss no
    row, history is what is owed), equivalence (resumed runs, replay), termination and liveness (queues drain,
    interval workflows run), bounds (retry delay), error behaviour, and round trips.

    ** Not modelled

    Sockets, HTTP routing, process management, SQL other than the statements named above,
    cryptographic primitives and third-party parsers; user interfaces; the relay's HTTP bridge,
    audio rooms, the inter-relay mesh, signature checks and rate limits of authentication, the
    push gateway's authority, persona packs, and pairing QR codes.  The last group is decision
    logic of its own that no modelled part depends on.  What the ingest pipeline calls outside
    the modelled files is a field of [OtherHandlers], [OtherEffects] or [WorkflowCommands] with
    the laws of [OtherLaws] ([Effects]): the workflow commands of [command_executor.rs], product
    feedback, identity archiving, push leases, EVM attestations and rotations, media checks,
    profiles and git announcements.  They may read, and write what the laws list; the laws hold
    of handlers that do nothing ([Scenario.nothing_else]). *)
From Stdlib Require Export ZArith Lia Ascii String.
From stdpp Require Export base tactics gmap strings sorting option list.

(** * Results and the state-and-error monad *)

(** Rust's [Result<A, E>]. *)
Inductive result (A E : Type) : Type :=
| Ok (a : A)
| Err (e : E).
Arguments Ok {A E} a.
Arguments Err {A E} e.

Declare Scope buzz_scope.
Delimit Scope buzz_scope with buzz.

Definition res_bind {A B E : Type} (r : result A E) (k : A -> result B E)
  : result B E :=
  match r with
  | Ok a => k a
  | Err e => Err e
  end.

(** [let? x := r in k] is Rust's [let x = r?; k]. *)
Notation "'let?' x := r 'in' k" := (res_bind r (fun x => k))
  (at level 10, x pattern, r at level 100, k at level 200) : buzz_scope.

Definition is_ok {A E : Type} (r : result A E) : bool :=
  match r with Ok _ => true | Err _ => false end.

Definition res_err {A E : Type} (r : result A E) : option E :=
  match r with Ok _ => None | Err e => Some e end.

Definition map_err {A E F : Type} (f : E -> F) (r : result A E) : result A F :=
  match r with Ok a => Ok a | Err e => Err (f e) end.

#[export] Instance result_eq_dec {A E : Type} `{EqDecision A, EqDecision E} :
  EqDecision (result A E).
Proof. solve_decision. Defined.

(** A [&mut self] method that returns a [Result]: the new state is kept on both
    outcomes, because a Rust method may write its fields and then fail. *)
Definition method (S E A : Type) : Type := S -> S * result A E.

Definition m_ret {S E A : Type} (a : A) : method S E A := fun s => (s, Ok a).
Definition m_fail {S E A : Type} (e : E) : method S E A := fun s => (s, Err e).
Definition m_bind {S E A B : Type} (m : method S E A) (k : A -> method S E B)
  : method S E B :=
  fun s =>
    match m s with
    | (s', Ok a) => k a s'
    | (s', Err e) => (s', Err e)
    end.
Definition m_get {S E : Type} : method S E S := fun s => (s, Ok s).
Definition m_modify {S E : Type} (f : S -> S) : method S E unit :=
  fun s => (f s, Ok tt).
(** A [&self] method used from a [&mut self] one: reads the state only. *)
Definition m_read {S E A : Type} (f : S -> result A E) : method S E A :=
  fun s => (s, f s).

Notation "'do?' x <- m ;; k" := (m_bind m (fun x => k))
  (at level 10, x pattern, m at level 99, k at level 200) : buzz_scope.
Notation "m ;;? k" := (m_bind m (fun _ => k))
  (at level 199, k at level 200, right associativity) : buzz_scope.

(** A method on one half of a pair. *)
Definition m_fst {S T E A : Type} (m : method S E A) : method (S * T) E A :=
  fun s => let '(s', r) := m s.1 in ((s', s.2), r).
Definition m_snd {S T E A : Type} (m : method T E A) : method (S * T) E A :=
  fun s => let '(t', r) := m s.2 in ((s.1, t'), r).

(** [m] keeps [I], only appends entries that satisfy [P] to the log, and its result satisfies
    [Q]. *)
Section appends.
Context {St E M : Type} (log : St -> list M) (I : St -> Prop) (P : M -> Prop).
Definition appends {B : Type} (Q : B -> Prop) (m : method St E B) : Prop :=
  forall s, I s -> I (fst (m s)) /\ (exists l, log (fst (m s)) = log s ++ l /\ Forall P l) /\
            match snd (m s) with Ok b => Q b | Err _ => True end.

Lemma appends_pure {B : Type} (Q : B -> Prop) (m : method St E B) :
  (forall s, I s -> I (fst (m s)) /\ log (fst (m s)) = log s /\
             match snd (m s) with Ok b => Q b | Err _ => True end) -> appends Q m.
Proof.
  intros Hm s Hs. destruct (Hm s Hs) as (HI & Hl & HQ). split_and!; [done| |done].
  exists []. by rewrite app_nil_r.
Qed.
Lemma appends_ret {B : Type} (Q : B -> Prop) b : Q b -> appends Q (m_ret b).
Proof. intros HQ. by apply appends_pure. Qed.
Lemma appends_fail {B : Type} (Q : B -> Prop) e : appends Q (m_fail e).
Proof. by apply appends_pure. Qed.
Lemma appends_get (Q : St -> Prop) : (forall s, I s -> Q s) -> appends Q m_get.
Proof. intros HQ. apply appends_pure. intros s Hs. split_and!; [done..|by apply HQ]. Qed.
Lemma appends_modify (Q : unit -> Prop) f :
  Q tt -> (forall s, I s -> I (f s) /\ log (f s) = log s) -> appends Q (m_modify f).
Proof. intros HQ Hf. apply appends_pure. intros s Hs. destruct (Hf s Hs). by split_and!. Qed.
Lemma appends_bind {B C : Type} (Q : B -> Prop) (R : C -> Prop) (m : method St E B)
    (k : B -> method St E C) :
  appends Q m -> (forall b, Q b -> appends R (k b)) -> appends R (m_bind m k).
Proof.
  intros Hm Hk s Hs. destruct (Hm s Hs) as (HI & (l & Hl & HP) & HQ). unfold m_bind.
  destruct (m s) as [s1 [b|e]]; simpl in *; [|split_and!; eauto].
  destruct (Hk b HQ s1 HI) as (HI' & (l' & Hl' & HP') & HR). split_and!; [done| |done].
  exists (l ++ l'). rewrite Hl', Hl, app_assoc. by rewrite Forall_app.
Qed.
Lemma appends_weaken {B : Type} (Q Q' : B -> Prop) (m : method St E B) :
  (forall b, Q b -> Q' b) -> appends Q m -> appends Q' m.
Proof.
  intros HQ Hm s Hs. destruct (Hm s Hs) as (? & ? & Hr). split_and!; [done..|].
  destruct (snd _); auto.
Qed.
End appends.

Lemma res_bind_Ok {A B E : Type} (r : result A E) (k : A -> result B E) (b : B) :
  res_bind r k = Ok b <-> exists a, r = Ok a /\ k a = Ok b.
Proof. destruct r; naive_solver. Qed.

Lemma res_bind_Err {A B E : Type} (r : result A E) (k : A -> result B E) (e : E) :
  res_bind r k = Err e <-> r = Err e \/ exists a, r = Ok a /\ k a = Err e.
Proof. destruct r; naive_solver. Qed.

Lemma m_bind_Ok {S E A B : Type} (m : method S E A) (k : A -> method S E B) s s' b :
  m_bind m k s = (s', Ok b) <-> exists s1 a, m s = (s1, Ok a) /\ k a s1 = (s', Ok b).
Proof. unfold m_bind. destruct (m s) as [s1 [a|e]]; naive_solver. Qed.

Lemma m_bind_Err {S E A B : Type} (m : method S E A) (k : A -> method S E B) s s' e :
  m_bind m k s = (s', Err e) <->
  m s = (s', Err e) \/ exists s1 a, m s = (s1, Ok a) /\ k a s1 = (s', Err e).
Proof. unfold m_bind. destruct (m s) as [s1 [a|e1]]; naive_solver. Qed.

Lemma m_bind_run {S E A B : Type} (m : method S E A) (k : A -> method S E B) s s' a :
  m s = (s', Ok a) -> m_bind m k s = k a s'.
Proof. unfold m_bind. by intros ->. Qed.

(** * Strings as Rust sees them

    A Rust [&str] is its UTF-8 bytes; a Rocq [string] is a list of 8-bit
    characters.  [len], [split(char)], [starts_with] and [strip_prefix] with ASCII
    arguments act on the bytes alone. *)

Definition str_is_empty (s : string) : bool :=
  match s with EmptyString => true | _ => false end.

(** [s.split(sep)] collected: always at least one part. *)
Fixpoint str_split (sep : ascii) (s : string) : list string :=
  match s with
  | EmptyString => [EmptyString]
  | String c s' =>
      if Ascii.eqb c sep then EmptyString :: str_split sep s'
      else match str_split sep s' with
           | h :: t => String c h :: t
           | [] => [String c EmptyString]
           end
  end.

Fixpoint str_join (sep : ascii) (l : list string) : string :=
  match l with
  | [] => EmptyString
  | [s] => s
  | s :: l' => String.append s (String sep (str_join sep l'))
  end.

(** [s.strip_prefix(p)]. *)
Fixpoint strip_prefix (p s : string) : option string :=
  match p, s with
  | EmptyString, _ => Some s
  | String a p', String b s' => if Ascii.eqb a b then strip_prefix p' s' else None
  | String _ _, EmptyString => None
  end.

Definition starts_with (p s : string) : bool :=
  match strip_prefix p s with Some _ => true | None => false end.

(** [s.chars().all(f)] and [s.contains(c)] for predicates on ASCII. *)
Fixpoint str_all (f : ascii -> bool) (s : string) : bool :=
  match s with
  | EmptyString => true
  | String c s' => f c && str_all f s'
  end.

Definition str_contains_char (c : ascii) (s : string) : bool :=
  negb (str_all (fun c' => negb (Ascii.eqb c c')) s).

Definition between (lo c hi : ascii) : bool :=
  (N_of_ascii lo <=? N_of_ascii c)%N && (N_of_ascii c <=? N_of_ascii hi)%N.

Definition is_ascii_digit (c : ascii) : bool := between "0" c "9".
Definition is_ascii_alphabetic (c : ascii) : bool :=
  between "a" c "z" || between "A" c "Z".
Definition is_ascii_alphanumeric (c : ascii) : bool :=
  is_ascii_alphabetic c || is_ascii_digit c.

Lemma str_split_not_nil sep s : str_split sep s <> [].
Proof.
  destruct s as [|c s]; simpl; [done|].
  destruct (Ascii.eqb c sep); [done|]. by destruct (str_split sep s).
Qed.

Lemma str_join_split sep s : str_join sep (str_split sep s) = s.
Proof.
  induction s as [|c s IH]; [done|]. simpl.
  pose proof (str_split_not_nil sep s) as Hne.
  destruct (Ascii.eqb_spec c sep) as [->|Hc]; destruct (str_split sep s) as [|h t];
    try done; simpl in *.
  - by rewrite <-IH.
  - destruct t; simpl in *; rewrite <-IH; done.
Qed.

(** A string without the separator. *)
Definition no_sep (sep : ascii) (s : string) : Prop :=
  str_all (fun c => negb (Ascii.eqb c sep)) s = true.

Lemma str_split_no_sep sep s : no_sep sep s -> str_split sep s = [s].
Proof.
  unfold no_sep. induction s as [|c s IH]; [done|]. simpl.
  rewrite andb_true_iff, negb_true_iff. intros [-> Hs]. by rewrite IH.
Qed.

Lemma str_split_app sep s t :
  no_sep sep s -> str_split sep (String.append s (String sep t)) = s :: str_split sep t.
Proof.
  unfold no_sep. induction s as [|c s IH].
  - intros _. change (String.append EmptyString (String sep t)) with (String sep t).
    simpl. by rewrite Ascii.eqb_refl.
  - change (String.append (String c s) (String sep t)) with
      (String c (String.append s (String sep t))).
    simpl. rewrite andb_true_iff, negb_true_iff. intros [-> Hs]. by rewrite IH.
Qed.

Lemma str_split_join sep l :
  l <> [] -> Forall (no_sep sep) l -> str_split sep (str_join sep l) = l.
Proof.
  induction l as [|s l IH]; [done|]. intros _ [Hs Hl]%Forall_cons. simpl.
  destruct l as [|s' l]; [by apply str_split_no_sep|].
  rewrite str_split_app by done. by rewrite IH.
Qed.

Lemma str_split_no_seps sep s : Forall (no_sep sep) (str_split sep s).
Proof.
  induction s as [|c s IH]; simpl; [by constructor|].
  destruct (Ascii.eqb c sep) eqn:Hc; [by constructor|].
  destruct (str_split sep s) as [|h t]; [constructor; [|done]|].
  - unfold no_sep; simpl. by rewrite Hc.
  - apply Forall_cons in IH as [Hh Ht]. constructor; [|done].
    unfold no_sep in *; simpl. by rewrite Hc.
Qed.

Lemma str_all_impl (f g : ascii -> bool) s :
  (forall c, f c = true -> g c = true) -> str_all f s = true -> str_all g s = true.
Proof.
  intros Hfg. induction s as [|c s IH]; simpl; [done|].
  rewrite !andb_true_iff. intros [Hc Hs]. split; [by apply Hfg|by apply IH].
Qed.

Lemma strip_prefix_Some p s r :
  strip_prefix p s = Some r <-> s = String.append p r.
Proof.
  revert s. induction p as [|a p IH]; intros s; simpl.
  - unfold String.append. naive_solver.
  - destruct s as [|b s]; [done|].
    destruct (Ascii.eqb_spec a b) as [->|Hab].
    + rewrite IH. change (String.append (String b p) r) with (String b (String.append p r)).
      naive_solver.
    + change (String.append (String a p) r) with (String a (String.append p r)).
      naive_solver.
Qed.

Lemma starts_with_true p s :
  starts_with p s = true <-> exists r, s = String.append p r.
Proof.
  unfold starts_with. setoid_rewrite <-strip_prefix_Some.
  destruct (strip_prefix p s); naive_solver.
Qed.

(** * Maps whose values are lists: [entry(k).or_default()] *)

Section entries.
Context {K A : Type} `{Countable K}.
Implicit Types (m : gmap K (list A)).

(** The list stored under [k], or the empty one. *)
Definition entries (k : K) m : list A := default [] (m !! k).

(** [m.entry(k).or_default().push(x)] *)
Definition entry_push (k : K) (x : A) m : gmap K (list A) :=
  <[k := entries k m ++ [x]]> m.

(** [if let Some(v) = m.get_mut(k) { v.retain(p); if v.is_empty() { m.remove(k) } }] *)
Definition entry_retain (p : A -> bool) (k : K) m : gmap K (list A) :=
  match m !! k with
  | None => m
  | Some l =>
      let l' := filter (fun x => p x = true) l in
      match l' with [] => delete k m | _ => <[k := l']> m end
  end.

Lemma entries_push k x m k' :
  entries k' (entry_push k x m) =
  if decide (k = k') then entries k m ++ [x] else entries k' m.
Proof. unfold entries, entry_push. rewrite lookup_insert. by case_decide. Qed.

Lemma entries_retain p k m k' :
  entries k' (entry_retain p k m) =
  if decide (k = k') then filter (fun x => p x = true) (entries k m) else entries k' m.
Proof.
  unfold entries, entry_retain. destruct (m !! k) as [l|] eqn:Hk; case_decide; subst.
  - simpl. destruct (filter _ l) eqn:Hf;
      [by rewrite lookup_delete_eq | by rewrite lookup_insert_eq].
  - destruct (filter _ l); [by rewrite lookup_delete_ne | by rewrite lookup_insert_ne].
  - by rewrite Hk.
  - done.
Qed.
End entries.

(** * Iteration over hash maps

    [HashMap], [HashSet] and [DashMap] iterate in an unspecified order.  The order is
    a parameter of every definition that iterates over one: each entry is visited
    exactly once.  [map_to_list] is one such order. *)
Class HashIter := {
  hash_iter : forall {K V : Type} `{Countable K}, gmap K V -> list (K * V);
  hash_iter_perm : forall {K V : Type} `{Countable K} (m : gmap K V),
    hash_iter m ≡ₚ map_to_list m
}.

Definition map_to_list_iter : HashIter := {|
  hash_iter := fun K V _ _ m => map_to_list m;
  hash_iter_perm := fun K V _ _ m => Permutation_refl _
|}.

Lemma elem_of_hash_iter `{HashIter} {K V : Type} `{Countable K} (m : gmap K V) k v :
  (k, v) ∈ hash_iter m <-> m !! k = Some v.
Proof. rewrite hash_iter_perm. apply elem_of_map_to_list. Qed.

Lemma NoDup_hash_iter `{HashIter} {K V : Type} `{Countable K} (m : gmap K V) :
  NoDup (hash_iter m).*1.
Proof. rewrite hash_iter_perm. apply NoDup_fst_map_to_list. Qed.

(** * Tactics and hints *)

Create HintDb buzz.
#[export] Hint Rewrite @entries_push @entries_retain : buzz.
#[export] Hint Resolve str_split_not_nil : buzz.

(** Splits every [match]/[if] on a value in the goal or a hypothesis. *)
Ltac split_matches :=
  repeat (case_match; simplify_eq/=; try done).

(** Inverts a [let?] chain or a method chain that returned. *)
Ltac inv_bind :=
  repeat match goal with
  | H : res_bind _ _ = Ok _ |- _ => apply res_bind_Ok in H as (? & ? & ?)
  | H : m_bind _ _ _ = (_, Ok _) |- _ => apply m_bind_Ok in H as (? & ? & ? & ?)
  | H : m_ret _ _ = _ |- _ => unfold m_ret in H
  | H : m_fail _ _ = _ |- _ => unfold m_fail in H
  | H : m_get _ = _ |- _ => unfold m_get in H
  | H : m_modify _ _ = _ |- _ => unfold m_modify in H
  | H : m_read _ _ = _ |- _ => unfold m_read in H
  | _ => progress simplify_eq/=
  end.
