(* ===== verification/Nostr.v ===== *)
(** The interface to the [nostr] crate.

    The relay, the agent harness and the core crate share the event, tag and
    filter types of the third-party [nostr] crate.  Its data is given here as the
    program reads it (an event's fields, a tag as the string slice of
    [Tag::as_slice], a filter's optional constraints); its functions are the
    fields of the class [NostrApi], and what the program relies on is stated in
    [NostrLaws].  [reference_api] is an implementation of the interface, used by
    the witnesses. *)
From S2P Require Import Prelude.
From Stdlib Require Import Strings.Byte.
Local Open Scope Z_scope.

(** Identifiers the program only compares: UUIDs as 128-bit numbers. *)
Abbreviation Uuid := N (only parsing).
(** 32-byte arrays: event ids and x-only public keys. *)
Abbreviation Bytes := (list Byte.byte) (only parsing).
(** [Tag::as_slice]: the JSON array of strings. *)
Abbreviation Tag := (list string) (only parsing).

#[export] Instance byte_eq_dec : EqDecision Byte.byte := Byte.byte_eq_dec.
#[export] Instance byte_countable : Countable Byte.byte.
Proof.
  refine (inj_countable Byte.to_N Byte.of_N _).
  intros b. apply Byte.of_to_N.
Defined.

(** [nostr::Event]; [kind] is the 16-bit number of [Kind::as_u16]. *)
Record Event := mkEvent {
  ev_id : Bytes;
  ev_pubkey : Bytes;
  ev_created_at : Z;
  ev_kind : Z;
  ev_tags : list Tag;
  ev_content : string
}.

(** [nostr::SingleLetterTag]: a letter and whether it is upper case. *)
Definition SingleLetterTag : Type := ascii * bool.
#[export] Instance slt_eq_dec : EqDecision SingleLetterTag := prod_eq_dec.
#[export] Instance ascii_countable' : Countable ascii.
Proof.
  refine (inj_countable N_of_ascii (fun n => Some (ascii_of_N n)) _).
  intros c. by rewrite ascii_N_embedding.
Defined.
#[export] Instance slt_countable : Countable SingleLetterTag := prod_countable.

(** [nostr::Filter].  The sets of the crate are listed in their iteration order;
    [None] is an absent constraint. *)
Record Filter := mkFilter {
  f_ids : option (list Bytes);
  f_authors : option (list Bytes);
  f_kinds : option (list Z);
  f_since : option Z;
  f_until : option Z;
  f_generic_tags : gmap SingleLetterTag (list string);
  f_search : option string;
  f_limit : option Z
}.

#[export] Instance Event_eq_dec : EqDecision Event.
Proof. solve_decision. Defined.
#[export] Instance Filter_eq_dec : EqDecision Filter.
Proof. solve_decision. Defined.

(** The functions of the crate (and of [hex], [uuid]) the program calls. *)
Class NostrApi := {
  (** [EventId::to_hex], [PublicKey::to_hex], [hex::encode] *)
  to_hex : Bytes -> string;
  (** [hex::decode(s).ok()] *)
  hex_decode : string -> option Bytes;
  (** [Tag::kind().to_string()] *)
  tag_kind : Tag -> string;
  (** [Tag::content()] *)
  tag_content : Tag -> option string;
  (** [SingleLetterTag::to_string] *)
  slt_to_string : SingleLetterTag -> string;
  (** [SingleLetterTag::lowercase(Alphabet::..)] *)
  slt_lowercase : ascii -> SingleLetterTag;
  (** [Uuid::to_string] *)
  uuid_to_string : Uuid -> string
}.

Class NostrLaws (A : NostrApi) := {
  to_hex_inj : Inj (=) (=) to_hex;
  to_hex_length b : String.length (to_hex b) = (2 * length b)%nat;
  hex_decode_to_hex b : hex_decode (to_hex b) = Some b;
  slt_lowercase_to_string c : slt_to_string (slt_lowercase c) = String c EmptyString;
  uuid_to_string_inj : Inj (=) (=) uuid_to_string
}.

(** [str::parse::<Uuid>().ok()] ([uuid]): accepts what [Uuid::to_string] prints, and more. *)
Class UuidParse := parse_uuid : string -> option Uuid.
Class UuidLaws `{A : NostrApi} (U : UuidParse) := {
  parse_uuid_to_string u : parse_uuid (uuid_to_string u) = Some u
}.

(** A concrete instance: lower-case hexadecimal, a tag's first two strings, and
    UUIDs printed in decimal. *)
Module Reference.
Definition hex_digit (n : N) : ascii :=
  if (n <? 10)%N then ascii_of_N (48 + n) else ascii_of_N (87 + n).
Definition hex_value (c : ascii) : option N :=
  let n := N_of_ascii c in
  if (48 <=? n)%N && (n <=? 57)%N then Some (n - 48)%N
  else if (97 <=? n)%N && (n <=? 102)%N then Some (n - 87)%N
  else if (65 <=? n)%N && (n <=? 70)%N then Some (n - 55)%N
  else None.
Fixpoint hex (b : Bytes) : string :=
  match b with
  | [] => EmptyString
  | x :: b' =>
      String (hex_digit (Byte.to_N x / 16)) (String (hex_digit (Byte.to_N x mod 16)) (hex b'))
  end.
Fixpoint unhex (s : string) : option Bytes :=
  match s with
  | EmptyString => Some []
  | String c1 (String c2 s') =>
      h ← hex_value c1; l ← hex_value c2; b ← Byte.of_N (16 * h + l); r ← unhex s';
      Some (b :: r)
  | String _ EmptyString => None
  end.

#[export] Instance api : NostrApi := {|
  to_hex := hex;
  hex_decode := unhex;
  tag_kind t := default EmptyString (head t);
  tag_content t := t !! 1%nat;
  slt_to_string t := String t.1 EmptyString;
  slt_lowercase c := (c, false);
  uuid_to_string n := pretty.pretty n
|}.

Lemma unhex_hex b : unhex (hex b) = Some b.
Proof.
  induction b as [|x b IH]; [done|].
  change (unhex (hex (x :: b))) with
    (h ← hex_value (hex_digit (Byte.to_N x / 16));
     l ← hex_value (hex_digit (Byte.to_N x mod 16));
     y ← Byte.of_N (16 * h + l); r ← unhex (hex b); Some (y :: r)).
  rewrite IH. by destruct x.
Qed.

#[export] Instance laws : NostrLaws api.
Proof.
  split.
  - intros a b Heq. change (hex a = hex b) in Heq.
    apply (f_equal unhex) in Heq. rewrite !unhex_hex in Heq. by simplify_eq.
  - intros b. change (String.length (hex b) = (2 * length b)%nat).
    induction b as [|x b IH]; simpl in *; lia.
  - apply unhex_hex.
  - done.
  - intros a b Heq. change (pretty.pretty a = pretty.pretty b) in Heq. by simplify_eq.
Qed.
End Reference.
