(* ===== verification/Kinds.v ===== *)
(** The kind registry of [crates/buzz-core/src/kind.rs]: every kind constant, the
    gated sets, the storage-class and dispatch predicates, and the shared-tag gate
    that decides whether a foreign reader may receive a persona or team-catalog
    event. *)
From S2P Require Import Prelude Nostr.
Local Open Scope string_scope.
Local Open Scope list_scope.
Local Open Scope Z_scope.

(** * Constants ([pub const X: u32]) *)

Definition KIND_PROFILE : Z := 0.
Definition KIND_TEXT_NOTE : Z := 1.
Definition KIND_CONTACT_LIST : Z := 3.
Definition KIND_MUTE_LIST : Z := 10000.
Definition KIND_PIN_LIST : Z := 10001.
Definition KIND_NIP65_RELAY_LIST_METADATA : Z := 10002.
Definition KIND_BOOKMARK_LIST : Z := 10003.
Definition KIND_EMOJI_LIST : Z := 10030.
Definition KIND_FOLLOW_SET : Z := 30000.
Definition KIND_BOOKMARK_SET : Z := 30003.
Definition KIND_EMOJI_SET : Z := 30030.
Definition KIND_CHANNEL_METADATA : Z := 41.
Definition KIND_DELETION : Z := 5.
Definition KIND_REACTION : Z := 7.
Definition KIND_GIFT_WRAP : Z := 1059.
Definition KIND_FILE_METADATA : Z := 1063.
Definition KIND_LONG_FORM : Z := 30023.
Definition KIND_USER_STATUS : Z := 30315.
Definition KIND_READ_STATE : Z := 30078.
Definition KIND_AUTH : Z := 22242.
Definition KIND_BLOSSOM_AUTH : Z := 24242.
Definition KIND_NOSTR_IDENTITY_BINDING : Z := 24243.
Definition KIND_HTTP_AUTH : Z := 27235.
Definition KIND_AGENT_PROFILE : Z := 10100.
Definition KIND_AGENT_ENGRAM : Z := 30174.
Definition KIND_EVENT_REMINDER : Z := 30300.
Definition KIND_PUSH_LEASE : Z := 30350.
Definition KIND_EVM_ROTATION : Z := 30200.
Definition KIND_PERSONA : Z := 30175.
Definition KIND_TEAM : Z := 30176.
Definition KIND_MANAGED_AGENT : Z := 30177.
Definition KIND_TEAM_CATALOG : Z := 30178.
Definition KIND_REPORT : Z := 1984.
Definition KIND_PRODUCT_FEEDBACK : Z := 42000.
Definition KIND_NIP29_PUT_USER : Z := 9000.
Definition KIND_NIP29_REMOVE_USER : Z := 9001.
Definition KIND_NIP29_EDIT_METADATA : Z := 9002.
Definition KIND_NIP29_DELETE_EVENT : Z := 9005.
Definition KIND_NIP29_CREATE_GROUP : Z := 9007.
Definition KIND_NIP29_DELETE_GROUP : Z := 9008.
Definition KIND_NIP29_CREATE_INVITE : Z := 9009.
Definition KIND_NIP29_JOIN_REQUEST : Z := 9021.
Definition KIND_NIP29_LEAVE_REQUEST : Z := 9022.
Definition KIND_MODERATION_BAN : Z := 9040.
Definition KIND_MODERATION_UNBAN : Z := 9041.
Definition KIND_MODERATION_TIMEOUT : Z := 9042.
Definition KIND_MODERATION_UNTIMEOUT : Z := 9043.
Definition KIND_MODERATION_RESOLVE_REPORT : Z := 9044.
Definition RELAY_ADMIN_ADD_MEMBER : Z := 9030.
Definition RELAY_ADMIN_REMOVE_MEMBER : Z := 9031.
Definition RELAY_ADMIN_CHANGE_ROLE : Z := 9032.
Definition RELAY_ADMIN_SET_WORKSPACE_PROFILE : Z := 9033.
Definition KIND_NIP43_MEMBERSHIP_LIST : Z := 13534.
Definition KIND_NIP43_MEMBER_ADDED : Z := 8000.
Definition KIND_NIP43_MEMBER_REMOVED : Z := 8001.
Definition KIND_NIP43_LEAVE_REQUEST : Z := 28936.
Definition KIND_IA_ARCHIVE_REQUEST : Z := 9035.
Definition KIND_IA_UNARCHIVE_REQUEST : Z := 9036.
Definition KIND_IA_ARCHIVED : Z := 8002.
Definition KIND_IA_UNARCHIVED : Z := 8003.
Definition KIND_IA_ARCHIVED_LIST : Z := 13535.
Definition KIND_NIP29_GROUP_METADATA : Z := 39000.
Definition KIND_NIP29_GROUP_ADMINS : Z := 39001.
Definition KIND_NIP29_GROUP_MEMBERS : Z := 39002.
Definition KIND_NIP29_GROUP_ROLES : Z := 39003.
Definition KIND_THREAD_SUMMARY : Z := 39005.
Definition KIND_WINDOW_BOUNDS : Z := 39006.
Definition KIND_WORKFLOW_DEF : Z := 30620.
Definition KIND_DM_VISIBILITY : Z := 30622.
Definition PARAM_REPLACEABLE_KIND_MIN : Z := 30000.
Definition PARAM_REPLACEABLE_KIND_MAX : Z := 39999.
Definition EPHEMERAL_KIND_MIN : Z := 20000.
Definition EPHEMERAL_KIND_MAX : Z := 29999.
Definition KIND_PRESENCE_UPDATE : Z := 20001.
Definition KIND_PAIRING : Z := 24134.
Definition KIND_TYPING_INDICATOR : Z := 20002.
Definition KIND_AGENT_OBSERVER_FRAME : Z := 24200.
Definition KIND_HUDDLE_REACTION : Z := 24810.
Definition KIND_STREAM_MESSAGE : Z := 9.
Definition KIND_STREAM_MESSAGE_V2 : Z := 40002.
Definition KIND_STREAM_MESSAGE_EDIT : Z := 40003.
Definition KIND_STREAM_MESSAGE_PINNED : Z := 40004.
Definition KIND_STREAM_MESSAGE_BOOKMARKED : Z := 40005.
Definition KIND_STREAM_MESSAGE_SCHEDULED : Z := 40006.
Definition KIND_STREAM_REMINDER : Z := 40007.
Definition KIND_STREAM_MESSAGE_DIFF : Z := 40008.
Definition KIND_CANVAS : Z := 40100.
Definition KIND_SYSTEM_MESSAGE : Z := 40099.
Definition KIND_CHANNEL_SUMMARY : Z := 40901.
Definition KIND_PRESENCE_SNAPSHOT : Z := 40902.
Definition KIND_DM_OPEN : Z := 41010.
Definition KIND_DM_ADD_MEMBER : Z := 41011.
Definition KIND_DM_HIDE : Z := 41012.
Definition KIND_DM_CREATED : Z := 41001.
Definition KIND_JOB_REQUEST : Z := 43001.
Definition KIND_JOB_ACCEPTED : Z := 43002.
Definition KIND_JOB_PROGRESS : Z := 43003.
Definition KIND_JOB_RESULT : Z := 43004.
Definition KIND_JOB_CANCEL : Z := 43005.
Definition KIND_JOB_ERROR : Z := 43006.
Definition KIND_MEMBER_ADDED_NOTIFICATION : Z := 44100.
Definition KIND_MEMBER_REMOVED_NOTIFICATION : Z := 44101.
Definition KIND_AGENT_TURN_METRIC : Z := 44200.
Definition KIND_FORUM_POST : Z := 45001.
Definition KIND_FORUM_VOTE : Z := 45002.
Definition KIND_FORUM_COMMENT : Z := 45003.
Definition KIND_WORKFLOW_TRIGGER : Z := 46020.
Definition KIND_APPROVAL_GRANT : Z := 46030.
Definition KIND_APPROVAL_DENY : Z := 46031.
Definition KIND_WORKFLOW_TRIGGERED : Z := 46001.
Definition KIND_WORKFLOW_STEP_STARTED : Z := 46002.
Definition KIND_WORKFLOW_STEP_COMPLETED : Z := 46003.
Definition KIND_WORKFLOW_STEP_FAILED : Z := 46004.
Definition KIND_WORKFLOW_COMPLETED : Z := 46005.
Definition KIND_WORKFLOW_FAILED : Z := 46006.
Definition KIND_WORKFLOW_CANCELLED : Z := 46007.
Definition KIND_WORKFLOW_APPROVAL_REQUESTED : Z := 46010.
Definition KIND_WORKFLOW_APPROVAL_GRANTED : Z := 46011.
Definition KIND_WORKFLOW_APPROVAL_DENIED : Z := 46012.
Definition KIND_AUDIT_ENTRY : Z := 48001.
Definition KIND_HUDDLE_STARTED : Z := 48100.
Definition KIND_HUDDLE_PARTICIPANT_JOINED : Z := 48101.
Definition KIND_HUDDLE_PARTICIPANT_LEFT : Z := 48102.
Definition KIND_HUDDLE_ENDED : Z := 48103.
Definition KIND_HUDDLE_GUIDELINES : Z := 48106.
Definition KIND_MEDIA_UPLOAD : Z := 49001.
Definition KIND_GIT_REPO_ANNOUNCEMENT : Z := 30617.
Definition KIND_GIT_REPO_STATE : Z := 30618.
Definition KIND_GIT_PATCH : Z := 1617.
Definition KIND_GIT_PULL_REQUEST : Z := 1618.
Definition KIND_GIT_PR_UPDATE : Z := 1619.
Definition KIND_GIT_ISSUE : Z := 1621.
Definition KIND_GIT_STATUS_OPEN : Z := 1630.
Definition KIND_GIT_STATUS_MERGED : Z := 1631.
Definition KIND_GIT_STATUS_CLOSED : Z := 1632.
Definition KIND_GIT_STATUS_DRAFT : Z := 1633.
Definition KIND_PROJECT : Z := 30621.

(** * Gated sets *)

Definition AUTHOR_ONLY_KINDS : list Z := [KIND_EVENT_REMINDER; KIND_PUSH_LEASE].
Definition RESULT_GATED_KINDS : list Z := [KIND_DM_VISIBILITY; KIND_AGENT_TURN_METRIC].
Definition P_GATED_KINDS : list Z := [
  KIND_AGENT_OBSERVER_FRAME; KIND_MEMBER_ADDED_NOTIFICATION;
  KIND_MEMBER_REMOVED_NOTIFICATION; KIND_GIFT_WRAP; KIND_DM_VISIBILITY;
  KIND_AGENT_TURN_METRIC].
Definition SHARED_GATED_KINDS : list Z := [KIND_PERSONA; KIND_TEAM_CATALOG].


Definition ALL_KINDS : list Z := [
  KIND_PROFILE; KIND_TEXT_NOTE; KIND_CONTACT_LIST; KIND_MUTE_LIST; KIND_PIN_LIST;
  KIND_NIP65_RELAY_LIST_METADATA; KIND_BOOKMARK_LIST; KIND_EMOJI_LIST; KIND_FOLLOW_SET;
  KIND_BOOKMARK_SET; KIND_EMOJI_SET; KIND_CHANNEL_METADATA; KIND_DELETION;
  KIND_REACTION; KIND_GIFT_WRAP; KIND_FILE_METADATA; KIND_AGENT_PROFILE;
  KIND_AGENT_ENGRAM; KIND_EVENT_REMINDER; KIND_PERSONA; KIND_TEAM; KIND_MANAGED_AGENT;
  KIND_TEAM_CATALOG; KIND_REPORT; KIND_PRODUCT_FEEDBACK; KIND_NIP29_PUT_USER;
  KIND_NIP29_REMOVE_USER; KIND_NIP29_EDIT_METADATA; KIND_NIP29_DELETE_EVENT;
  KIND_NIP29_CREATE_GROUP; KIND_NIP29_DELETE_GROUP; KIND_NIP29_CREATE_INVITE;
  KIND_NIP29_JOIN_REQUEST; KIND_NIP29_LEAVE_REQUEST; KIND_MODERATION_BAN;
  KIND_MODERATION_UNBAN; KIND_MODERATION_TIMEOUT; KIND_MODERATION_UNTIMEOUT;
  KIND_MODERATION_RESOLVE_REPORT; RELAY_ADMIN_ADD_MEMBER; RELAY_ADMIN_REMOVE_MEMBER;
  RELAY_ADMIN_CHANGE_ROLE; RELAY_ADMIN_SET_WORKSPACE_PROFILE;
  KIND_NIP43_MEMBERSHIP_LIST; KIND_NIP43_MEMBER_ADDED; KIND_NIP43_MEMBER_REMOVED;
  KIND_NIP43_LEAVE_REQUEST; KIND_IA_ARCHIVE_REQUEST; KIND_IA_UNARCHIVE_REQUEST;
  KIND_IA_ARCHIVED; KIND_IA_UNARCHIVED; KIND_IA_ARCHIVED_LIST;
  KIND_NIP29_GROUP_METADATA; KIND_NIP29_GROUP_ADMINS; KIND_NIP29_GROUP_MEMBERS;
  KIND_NIP29_GROUP_ROLES; KIND_THREAD_SUMMARY; KIND_WINDOW_BOUNDS; KIND_PRESENCE_UPDATE;
  KIND_TYPING_INDICATOR; KIND_HUDDLE_REACTION; KIND_BLOSSOM_AUTH; KIND_PAIRING;
  KIND_AGENT_OBSERVER_FRAME; KIND_HTTP_AUTH; KIND_STREAM_MESSAGE;
  KIND_STREAM_MESSAGE_V2; KIND_STREAM_MESSAGE_EDIT; KIND_STREAM_MESSAGE_PINNED;
  KIND_STREAM_MESSAGE_BOOKMARKED; KIND_STREAM_MESSAGE_SCHEDULED; KIND_STREAM_REMINDER;
  KIND_STREAM_MESSAGE_DIFF; KIND_CANVAS; KIND_SYSTEM_MESSAGE; KIND_CHANNEL_SUMMARY;
  KIND_PRESENCE_SNAPSHOT; KIND_DM_VISIBILITY; KIND_DM_OPEN; KIND_DM_ADD_MEMBER;
  KIND_DM_HIDE; KIND_DM_CREATED; KIND_JOB_REQUEST; KIND_JOB_ACCEPTED; KIND_JOB_PROGRESS;
  KIND_JOB_RESULT; KIND_JOB_CANCEL; KIND_JOB_ERROR; KIND_MEMBER_ADDED_NOTIFICATION;
  KIND_MEMBER_REMOVED_NOTIFICATION; KIND_AGENT_TURN_METRIC; KIND_WORKFLOW_DEF;
  KIND_LONG_FORM; KIND_USER_STATUS; KIND_READ_STATE; KIND_FORUM_POST; KIND_FORUM_VOTE;
  KIND_FORUM_COMMENT; KIND_WORKFLOW_TRIGGER; KIND_APPROVAL_GRANT; KIND_APPROVAL_DENY;
  KIND_WORKFLOW_TRIGGERED; KIND_WORKFLOW_STEP_STARTED; KIND_WORKFLOW_STEP_COMPLETED;
  KIND_WORKFLOW_STEP_FAILED; KIND_WORKFLOW_COMPLETED; KIND_WORKFLOW_FAILED;
  KIND_WORKFLOW_CANCELLED; KIND_WORKFLOW_APPROVAL_REQUESTED;
  KIND_WORKFLOW_APPROVAL_GRANTED; KIND_WORKFLOW_APPROVAL_DENIED; KIND_AUDIT_ENTRY;
  KIND_HUDDLE_STARTED; KIND_HUDDLE_PARTICIPANT_JOINED; KIND_HUDDLE_PARTICIPANT_LEFT;
  KIND_HUDDLE_ENDED; KIND_HUDDLE_GUIDELINES; KIND_MEDIA_UPLOAD;
  KIND_GIT_REPO_ANNOUNCEMENT; KIND_GIT_REPO_STATE; KIND_GIT_PATCH;
  KIND_GIT_PULL_REQUEST; KIND_GIT_PR_UPDATE; KIND_GIT_ISSUE; KIND_GIT_STATUS_OPEN;
  KIND_GIT_STATUS_MERGED; KIND_GIT_STATUS_CLOSED; KIND_GIT_STATUS_DRAFT; KIND_PROJECT].

(** Unfolds every constant. *)
Ltac unfold_kinds :=
  cbv delta [
    KIND_PROFILE KIND_TEXT_NOTE KIND_CONTACT_LIST KIND_MUTE_LIST
    KIND_PIN_LIST KIND_NIP65_RELAY_LIST_METADATA KIND_BOOKMARK_LIST KIND_EMOJI_LIST
    KIND_FOLLOW_SET KIND_BOOKMARK_SET KIND_EMOJI_SET KIND_CHANNEL_METADATA
    KIND_DELETION KIND_REACTION KIND_GIFT_WRAP KIND_FILE_METADATA
    KIND_LONG_FORM KIND_USER_STATUS KIND_READ_STATE KIND_AUTH
    KIND_BLOSSOM_AUTH KIND_NOSTR_IDENTITY_BINDING KIND_HTTP_AUTH KIND_AGENT_PROFILE
    KIND_AGENT_ENGRAM KIND_EVENT_REMINDER KIND_PUSH_LEASE KIND_EVM_ROTATION
    KIND_PERSONA KIND_TEAM KIND_MANAGED_AGENT KIND_TEAM_CATALOG
    KIND_REPORT KIND_PRODUCT_FEEDBACK KIND_NIP29_PUT_USER KIND_NIP29_REMOVE_USER
    KIND_NIP29_EDIT_METADATA KIND_NIP29_DELETE_EVENT KIND_NIP29_CREATE_GROUP KIND_NIP29_DELETE_GROUP
    KIND_NIP29_CREATE_INVITE KIND_NIP29_JOIN_REQUEST KIND_NIP29_LEAVE_REQUEST KIND_MODERATION_BAN
    KIND_MODERATION_UNBAN KIND_MODERATION_TIMEOUT KIND_MODERATION_UNTIMEOUT KIND_MODERATION_RESOLVE_REPORT
    RELAY_ADMIN_ADD_MEMBER RELAY_ADMIN_REMOVE_MEMBER RELAY_ADMIN_CHANGE_ROLE RELAY_ADMIN_SET_WORKSPACE_PROFILE
    KIND_NIP43_MEMBERSHIP_LIST KIND_NIP43_MEMBER_ADDED KIND_NIP43_MEMBER_REMOVED KIND_NIP43_LEAVE_REQUEST
    KIND_IA_ARCHIVE_REQUEST KIND_IA_UNARCHIVE_REQUEST KIND_IA_ARCHIVED KIND_IA_UNARCHIVED
    KIND_IA_ARCHIVED_LIST KIND_NIP29_GROUP_METADATA KIND_NIP29_GROUP_ADMINS KIND_NIP29_GROUP_MEMBERS
    KIND_NIP29_GROUP_ROLES KIND_THREAD_SUMMARY KIND_WINDOW_BOUNDS KIND_WORKFLOW_DEF
    KIND_DM_VISIBILITY PARAM_REPLACEABLE_KIND_MIN PARAM_REPLACEABLE_KIND_MAX EPHEMERAL_KIND_MIN
    EPHEMERAL_KIND_MAX KIND_PRESENCE_UPDATE KIND_PAIRING KIND_TYPING_INDICATOR
    KIND_AGENT_OBSERVER_FRAME KIND_HUDDLE_REACTION KIND_STREAM_MESSAGE KIND_STREAM_MESSAGE_V2
    KIND_STREAM_MESSAGE_EDIT KIND_STREAM_MESSAGE_PINNED KIND_STREAM_MESSAGE_BOOKMARKED KIND_STREAM_MESSAGE_SCHEDULED
    KIND_STREAM_REMINDER KIND_STREAM_MESSAGE_DIFF KIND_CANVAS KIND_SYSTEM_MESSAGE
    KIND_CHANNEL_SUMMARY KIND_PRESENCE_SNAPSHOT KIND_DM_OPEN KIND_DM_ADD_MEMBER
    KIND_DM_HIDE KIND_DM_CREATED KIND_JOB_REQUEST KIND_JOB_ACCEPTED
    KIND_JOB_PROGRESS KIND_JOB_RESULT KIND_JOB_CANCEL KIND_JOB_ERROR
    KIND_MEMBER_ADDED_NOTIFICATION KIND_MEMBER_REMOVED_NOTIFICATION KIND_AGENT_TURN_METRIC KIND_FORUM_POST
    KIND_FORUM_VOTE KIND_FORUM_COMMENT KIND_WORKFLOW_TRIGGER KIND_APPROVAL_GRANT
    KIND_APPROVAL_DENY KIND_WORKFLOW_TRIGGERED KIND_WORKFLOW_STEP_STARTED KIND_WORKFLOW_STEP_COMPLETED
    KIND_WORKFLOW_STEP_FAILED KIND_WORKFLOW_COMPLETED KIND_WORKFLOW_FAILED KIND_WORKFLOW_CANCELLED
    KIND_WORKFLOW_APPROVAL_REQUESTED KIND_WORKFLOW_APPROVAL_GRANTED KIND_WORKFLOW_APPROVAL_DENIED KIND_AUDIT_ENTRY
    KIND_HUDDLE_STARTED KIND_HUDDLE_PARTICIPANT_JOINED KIND_HUDDLE_PARTICIPANT_LEFT KIND_HUDDLE_ENDED
    KIND_HUDDLE_GUIDELINES KIND_MEDIA_UPLOAD KIND_GIT_REPO_ANNOUNCEMENT KIND_GIT_REPO_STATE
    KIND_GIT_PATCH KIND_GIT_PULL_REQUEST KIND_GIT_PR_UPDATE KIND_GIT_ISSUE
    KIND_GIT_STATUS_OPEN KIND_GIT_STATUS_MERGED KIND_GIT_STATUS_CLOSED KIND_GIT_STATUS_DRAFT
    KIND_PROJECT] in *.

(** * Predicates on kinds *)

Definition mem_kind (k : Z) (l : list Z) : bool := bool_decide (k ∈ l).

Definition is_shared_gated_kind (kind : Z) : bool := mem_kind kind SHARED_GATED_KINDS.
Definition is_moderation_command_kind (kind : Z) : bool :=
  mem_kind kind [KIND_MODERATION_BAN; KIND_MODERATION_UNBAN; KIND_MODERATION_TIMEOUT;
                 KIND_MODERATION_UNTIMEOUT; KIND_MODERATION_RESOLVE_REPORT].
Definition is_ephemeral (kind : Z) : bool :=
  (EPHEMERAL_KIND_MIN <=? kind) && (kind <=? EPHEMERAL_KIND_MAX).
Definition is_replaceable (kind : Z) : bool :=
  (kind =? 0) || (kind =? 3) || (kind =? KIND_CHANNEL_METADATA)
  || ((10000 <=? kind) && (kind <=? 19999)).
Definition is_parameterized_replaceable (kind : Z) : bool :=
  (PARAM_REPLACEABLE_KIND_MIN <=? kind) && (kind <=? PARAM_REPLACEABLE_KIND_MAX).
Definition is_workflow_execution_kind (kind : Z) : bool :=
  (KIND_WORKFLOW_TRIGGERED <=? kind) && (kind <=? KIND_WORKFLOW_APPROVAL_DENIED).
Definition is_relay_admin_kind (kind : Z) : bool :=
  mem_kind kind [RELAY_ADMIN_ADD_MEMBER; RELAY_ADMIN_REMOVE_MEMBER;
                 RELAY_ADMIN_CHANGE_ROLE; RELAY_ADMIN_SET_WORKSPACE_PROFILE].
Definition is_identity_archive_request_kind (kind : Z) : bool :=
  mem_kind kind [KIND_IA_ARCHIVE_REQUEST; KIND_IA_UNARCHIVE_REQUEST].
Definition is_command_kind (kind : Z) : bool :=
  mem_kind kind [KIND_WORKFLOW_DEF; KIND_DM_OPEN; KIND_DM_ADD_MEMBER; KIND_DM_HIDE;
                 KIND_WORKFLOW_TRIGGER; KIND_APPROVAL_GRANT; KIND_APPROVAL_DENY].
Definition is_relay_only_kind (kind : Z) : bool :=
  mem_kind kind [KIND_NIP43_MEMBERSHIP_LIST; KIND_CHANNEL_SUMMARY;
                 KIND_PRESENCE_SNAPSHOT; KIND_DM_VISIBILITY; KIND_THREAD_SUMMARY;
                 KIND_WINDOW_BOUNDS].

(** [event.kind.as_u16() as u32] and [as i32]: widening casts of a 16-bit number. *)
Definition event_kind_u32 (event : Event) : Z := ev_kind event.
Definition event_kind_i32 (event : Event) : Z := ev_kind event.

(** * The shared tag *)

(** The loop of [event_is_shared]: an exact [["shared","true"]] counts, any other
    tag named [shared] returns [false] at once. *)
Fixpoint event_is_shared_loop (tags : list Tag) (count : nat) : bool :=
  match tags with
  | [] => Nat.eqb count 1
  | parts :: rest =>
      match parts with
      | [name; value] =>
          if String.eqb name "shared" then
            if negb (String.eqb value "true") then false
            else event_is_shared_loop rest (S count)
          else event_is_shared_loop rest count
      | name :: _ =>
          if String.eqb name "shared" then false else event_is_shared_loop rest count
      | [] => event_is_shared_loop rest count
      end
  end.

Definition event_is_shared (event : Event) : bool :=
  event_is_shared_loop (ev_tags event) 0.

Definition is_unshared_gated_event (event : Event) (requester_pubkey_bytes : Bytes) : bool :=
  let kind := event_kind_u32 event in
  if negb (is_shared_gated_kind kind) then false
  else if bool_decide (ev_pubkey event = requester_pubkey_bytes) then false
  else negb (event_is_shared event).

(** * Registry theorems *)

Lemma mem_kind_true k l : mem_kind k l = true <-> k ∈ l.
Proof. unfold mem_kind. by rewrite bool_decide_eq_true. Qed.

Lemma mem_kind_bounds k l lo hi :
  forallb (fun x => (lo <=? x) && (x <=? hi)) l = true -> mem_kind k l = true -> lo <= k <= hi.
Proof.
  rewrite mem_kind_true, forallb_forall. intros Hall Hk.
  apply list_elem_of_In, Hall in Hk. lia.
Qed.

(** Every registered kind fits the 16 bits of [nostr::Kind]. *)
Definition fits_u16 (k : Z) : bool := (0 <=? k) && (k <=? 65535).

(** The registry has no duplicate value, every registered kind survives the 16-bit
    representation of an event's kind, and the kind constants for authentication,
    identity binding, push leases and EVM rotation are not in the registry. *)
Theorem ALL_KINDS_registry :
  NoDup ALL_KINDS /\ forallb fits_u16 ALL_KINDS = true /\
  Forall (fun k => k ∉ ALL_KINDS)
    [KIND_AUTH; KIND_NOSTR_IDENTITY_BINDING; KIND_PUSH_LEASE; KIND_EVM_ROTATION].
Proof.
  split; [apply (bool_decide_unpack _); by vm_compute|].
  split; [by vm_compute|]. apply (bool_decide_unpack _); by vm_compute.
Qed.

(** The three replacement classes of an event are mutually exclusive, for every
    kind number: an ephemeral kind is never stored under a replacement key, and a
    kind is replaced either by [(pubkey, kind)] or by [(pubkey, kind, d)], not both. *)
Theorem storage_classes_disjoint (k : Z) :
  is_ephemeral k && is_replaceable k = false /\
  is_ephemeral k && is_parameterized_replaceable k = false /\
  is_replaceable k && is_parameterized_replaceable k = false.
Proof.
  unfold is_ephemeral, is_replaceable, is_parameterized_replaceable,
    EPHEMERAL_KIND_MIN, EPHEMERAL_KIND_MAX, PARAM_REPLACEABLE_KIND_MIN,
    PARAM_REPLACEABLE_KIND_MAX, KIND_CHANNEL_METADATA.
  repeat split; apply not_true_iff_false; rewrite andb_true_iff, ?orb_true_iff,
    ?andb_true_iff; lia.
Qed.

(** The relay dispatches on six predicates; no kind satisfies two of them, so the
    order in which the ingest path tests them cannot matter. *)
Definition dispatch_classes (k : Z) : list bool :=
  [is_command_kind k; is_relay_admin_kind k; is_identity_archive_request_kind k;
   is_moderation_command_kind k; is_relay_only_kind k; is_workflow_execution_kind k].

(** The six dispatch classes are pairwise disjoint, for every kind number. *)
Theorem dispatch_classes_disjoint (k : Z) (i j : nat) :
  i <> j -> dispatch_classes k !! i = Some true -> dispatch_classes k !! j <> Some true.
Proof.
  intros Hij Hi Hj.
  assert (Hk : forall l, mem_kind k l = true -> k ∈ l) by (intros l; apply mem_kind_true).
  assert (Hw : is_workflow_execution_kind k = true -> 46001 <= k <= 46012).
  { unfold is_workflow_execution_kind, KIND_WORKFLOW_TRIGGERED,
      KIND_WORKFLOW_APPROVAL_DENIED. lia. }
  unfold dispatch_classes, is_command_kind, is_relay_admin_kind,
    is_identity_archive_request_kind, is_moderation_command_kind,
    is_relay_only_kind in *.
  destruct i as [|[|[|[|[|[|i]]]]]], j as [|[|[|[|[|[|j]]]]]]; try done;
    injection Hi as Hi; injection Hj as Hj;
    repeat match goal with
    | H : is_workflow_execution_kind k = true |- _ => apply Hw in H
    | H : mem_kind k _ = true |- _ => apply Hk in H; set_unfold in H
    end; unfold_kinds; lia.
Qed.

Lemma dispatch_classes_disjoint_witness :
  dispatch_classes KIND_MODERATION_BAN !! 3%nat = Some true /\
  dispatch_classes KIND_MODERATION_BAN !! 0%nat <> Some true.
Proof.
  split; [reflexivity|].
  apply (dispatch_classes_disjoint KIND_MODERATION_BAN 3 0); [discriminate|reflexivity].
Defined.

(** * The shared-tag gate *)

Definition named_shared (t : Tag) : bool :=
  match t with name :: _ => String.eqb name "shared" | [] => false end.

(** The tags named [shared], whatever their shape. *)
Definition shared_tags (tags : list Tag) : list Tag :=
  filter (fun t => named_shared t = true) tags.

Lemma event_is_shared_loop_spec tags n :
  event_is_shared_loop tags n = true <->
  exists m, shared_tags tags = replicate m ["shared"; "true"] /\ (n + m = 1)%nat.
Proof.
  revert n. induction tags as [|t tags IH]; intros n; simpl.
  - rewrite Nat.eqb_eq. split; [intros ->; by exists 0%nat|].
    intros (m & Hm & Hn). destruct m; simpl in *; [lia|done].
  - unfold shared_tags in *. rewrite filter_cons.
    destruct t as [|name [|value [|z t]]]; cbn [named_shared].
    + rewrite decide_False by done. apply IH.
    + destruct (String.eqb_spec name "shared") as [->|Hn].
      * rewrite decide_True by done. split; [done|]. intros ([|m] & Hm & _); done.
      * rewrite decide_False by done. apply IH.
    + destruct (String.eqb_spec name "shared") as [->|Hn]; cycle 1.
      { rewrite decide_False by done. apply IH. }
      rewrite decide_True by done.
      destruct (String.eqb_spec value "true") as [->|Hv]; cbn [negb].
      * rewrite IH. split.
        -- intros (m & -> & Hm). exists (S m). split; [done|lia].
        -- intros ([|m] & Hm & Hn); [done|]. injection Hm as Hm. exists m. split; [done|lia].
      * split; [done|]. intros ([|m] & Hm & _); simplify_eq/=.
    + destruct (String.eqb_spec name "shared") as [->|Hn].
      * rewrite decide_True by done. split; [done|]. intros ([|m] & Hm & _); done.
      * rewrite decide_False by done. apply IH.
Qed.

(** [event_is_shared] answers yes exactly when the event has one tag named [shared]
    and that tag is [["shared", "true"]]: duplicates, other values and longer or
    shorter shapes all fail closed, wherever they stand in the tag list. *)
Theorem event_is_shared_spec (ev : Event) :
  event_is_shared ev = true <-> shared_tags (ev_tags ev) = [["shared"; "true"]].
Proof.
  unfold event_is_shared. rewrite event_is_shared_loop_spec. split.
  - intros (m & -> & Hm). by replace m with 1%nat by lia.
  - intros ->. by exists 1%nat.
Qed.

(** A reader other than the author receives an event of a shared-gated kind only if
    its author opted in with exactly one [["shared", "true"]] tag; every other event
    passes this gate. *)
Theorem unshared_gate_spec (ev : Event) (reader : Bytes) :
  is_unshared_gated_event ev reader = false <->
  (event_kind_u32 ev ∉ [KIND_PERSONA; KIND_TEAM_CATALOG]
   \/ reader = ev_pubkey ev
   \/ shared_tags (ev_tags ev) = [["shared"; "true"]]).
Proof.
  rewrite <-event_is_shared_spec. unfold is_unshared_gated_event.
  pose proof (mem_kind_true (event_kind_u32 ev) SHARED_GATED_KINDS) as Hg.
  unfold is_shared_gated_kind. destruct (mem_kind _ _); simpl.
  - assert (Hin : event_kind_u32 ev ∈ SHARED_GATED_KINDS) by (by apply Hg).
    case_bool_decide as Hp; [naive_solver|].
    rewrite negb_false_iff. naive_solver.
  - split; [|done]. intros _. left. intros Hin. apply Hg in Hin. done.
Qed.
