(* ===== verification/Channel.v ===== *)
(** Channel and membership enums ([crates/buzz-core/src/channel.rs]): canonical
    names, their parsers, and the permission order of member roles. *)
From S2P Require Import Prelude.
Local Open Scope string_scope.
Local Open Scope list_scope.
Local Open Scope Z_scope.

(** What [FromStr] reports: the text it did not know (the message around it is not
    modelled). *)
Inductive UnknownName := Unknown (other : string).
#[export] Instance UnknownName_eq_dec : EqDecision UnknownName.
Proof. solve_decision. Defined.

Module ChannelVisibility.
Inductive t := Open | Private.
#[export] Instance t_eq_dec : EqDecision t.
Proof. solve_decision. Defined.

Definition as_str (v : t) : string :=
  match v with Open => "open" | Private => "private" end.
Definition from_str (s : string) : result t UnknownName :=
  if String.eqb s "open" then Ok Open
  else if String.eqb s "private" then Ok Private
  else Err (Unknown s).
End ChannelVisibility.

Module ChannelType.
Inductive t := Stream | Forum | Dm | Workflow.
#[export] Instance t_eq_dec : EqDecision t.
Proof. solve_decision. Defined.

Definition as_str (c : t) : string :=
  match c with
  | Stream => "stream" | Forum => "forum" | Dm => "dm" | Workflow => "workflow"
  end.
Definition from_str (s : string) : result t UnknownName :=
  if String.eqb s "stream" then Ok Stream
  else if String.eqb s "forum" then Ok Forum
  else if String.eqb s "dm" then Ok Dm
  else if String.eqb s "workflow" then Ok Workflow
  else Err (Unknown s).
End ChannelType.

(** A member's role.  [Bot] is outside the hierarchy: its level is 0. *)
Inductive MemberRole := Owner | Admin | Member | Guest | Bot.
#[export] Instance MemberRole_eq_dec : EqDecision MemberRole.
Proof. solve_decision. Defined.

Module Role.
Definition as_str (r : MemberRole) : string :=
  match r with
  | Owner => "owner" | Admin => "admin" | Member => "member"
  | Guest => "guest" | Bot => "bot"
  end.
Definition is_elevated (r : MemberRole) : bool :=
  match r with Owner | Admin => true | _ => false end.
Definition permission_level (r : MemberRole) : Z :=
  match r with Owner => 4 | Admin => 3 | Member => 2 | Guest => 1 | Bot => 0 end.
Definition has_at_least (self required : MemberRole) : bool :=
  permission_level required <=? permission_level self.
Definition from_str (s : string) : result MemberRole UnknownName :=
  if String.eqb s "owner" then Ok Owner
  else if String.eqb s "admin" then Ok Admin
  else if String.eqb s "member" then Ok Member
  else if String.eqb s "guest" then Ok Guest
  else if String.eqb s "bot" then Ok Bot
  else Err (Unknown s).

Lemma permission_level_inj : Inj (=) (=) permission_level.
Proof. intros [] []; done. Qed.

Lemma has_at_least_refl r : has_at_least r r = true.
Proof. destruct r; done. Qed.

Lemma has_at_least_trans a b c :
  has_at_least a b = true -> has_at_least b c = true -> has_at_least a c = true.
Proof. unfold has_at_least. lia. Qed.
End Role.

(** Parsing inverts printing for the three enums, and every string that is not a
    canonical name is rejected with that string. *)
Theorem enum_names_roundtrip :
  (forall v, ChannelVisibility.from_str (ChannelVisibility.as_str v) = Ok v) /\
  (forall c, ChannelType.from_str (ChannelType.as_str c) = Ok c) /\
  (forall r, Role.from_str (Role.as_str r) = Ok r) /\
  (forall s, (forall v, s <> ChannelVisibility.as_str v) <->
             ChannelVisibility.from_str s = Err (Unknown s)) /\
  (forall s, (forall c, s <> ChannelType.as_str c) <->
             ChannelType.from_str s = Err (Unknown s)) /\
  (forall s, (forall r, s <> Role.as_str r) <-> Role.from_str s = Err (Unknown s)).
Proof.
  split_and!; try (by intros []); intros s.
  - unfold ChannelVisibility.from_str. split.
    + intros Hs. pose proof (Hs ChannelVisibility.Open). pose proof (Hs ChannelVisibility.Private).
      repeat case_match; rewrite ?String.eqb_eq in *; naive_solver.
    + intros Hs [] ->; done.
  - unfold ChannelType.from_str. split.
    + intros Hs. pose proof (Hs ChannelType.Stream). pose proof (Hs ChannelType.Forum).
      pose proof (Hs ChannelType.Dm). pose proof (Hs ChannelType.Workflow).
      repeat case_match; rewrite ?String.eqb_eq in *; naive_solver.
    + intros Hs [] ->; done.
  - unfold Role.from_str. split.
    + intros Hs. pose proof (Hs Owner). pose proof (Hs Admin). pose proof (Hs Member).
      pose proof (Hs Guest). pose proof (Hs Bot).
      repeat case_match; rewrite ?String.eqb_eq in *; naive_solver.
    + intros Hs [] ->; done.
Qed.
