(* ===== verification/GitPerms.v ===== *)
(** Git push permissions ([crates/buzz-core/src/git_perms.rs]): ref patterns,
    protection tags, the union of the rules that match a ref, and the evaluation of
    a push.

    [unreachable!()] is the value [None] of an option: [matches_total] and the
    theorems after it show that no pattern made by [RefPattern.parse] reaches it. *)
From S2P Require Import Prelude Channel.
Local Open Scope string_scope.
Local Open Scope list_scope.
Local Open Scope Z_scope.
Local Open Scope buzz_scope.

Definition MAX_PROTECTION_RULES : nat := 50.
Definition MAX_PATTERN_LENGTH : nat := 256.
Definition MAX_WILDCARDS_PER_PATTERN : nat := 3.
#[global] Arguments MAX_PROTECTION_RULES : simpl never.
#[global] Arguments MAX_PATTERN_LENGTH : simpl never.
#[global] Arguments MAX_WILDCARDS_PER_PATTERN : simpl never.

(** * Ref patterns *)

Inductive PatternSegment :=
| Literal (lit : string)
| Wildcard
| RecursiveWildcard.

Inductive PatternError :=
| PEmpty
| PTooLong
| PMissingRefsPrefix
| PInvalidSegment (s : string)
| PTooManyWildcards.

#[export] Instance PatternSegment_eq_dec : EqDecision PatternSegment.
Proof. solve_decision. Defined.
#[export] Instance PatternError_eq_dec : EqDecision PatternError.
Proof. solve_decision. Defined.

Module RefPattern.
Record t := mk { raw : string; segments : list PatternSegment }.
#[export] Instance t_eq_dec : EqDecision t.
Proof. solve_decision. Defined.

(** [c.is_ascii_alphanumeric() || c == '.' || c == '_' || c == '-'] *)
Definition literal_char (c : ascii) : bool :=
  is_ascii_alphanumeric c || Ascii.eqb c "." || Ascii.eqb c "_" || Ascii.eqb c "-".

(** The body of the loop over the parts, after [wildcard_count] wildcards.  A part
    is the last one ([i == parts.len() - 1]) when no part follows it. *)
Fixpoint parse_parts (parts : list string) (wildcard_count : nat)
  : result (list PatternSegment) PatternError :=
  match parts with
  | [] => Ok []
  | part :: rest =>
      if String.eqb part "**" then
        if negb (bool_decide (rest = [])) then
          Err (PInvalidSegment "** must be the last segment")
        else
          let wildcard_count := S wildcard_count in
          if (MAX_WILDCARDS_PER_PATTERN <? wildcard_count)%nat then Err PTooManyWildcards
          else let? segs := parse_parts rest wildcard_count in
               Ok (RecursiveWildcard :: segs)
      else if String.eqb part "*" then
        let wildcard_count := S wildcard_count in
        if (MAX_WILDCARDS_PER_PATTERN <? wildcard_count)%nat then Err PTooManyWildcards
        else let? segs := parse_parts rest wildcard_count in Ok (Wildcard :: segs)
      else if str_is_empty part then Err (PInvalidSegment EmptyString)
      else if str_contains_char "*" part || str_contains_char "?" part
              || str_contains_char "[" part || str_contains_char "]" part then
        Err (PInvalidSegment part)
      else if negb (str_all literal_char part) then Err (PInvalidSegment part)
      else let? segs := parse_parts rest wildcard_count in Ok (Literal part :: segs)
  end.

Definition parse (pattern : string) : result t PatternError :=
  if str_is_empty pattern then Err PEmpty
  else if (MAX_PATTERN_LENGTH <? String.length pattern)%nat then Err PTooLong
  else if negb (starts_with "refs/" pattern) then Err PMissingRefsPrefix
  else let? segs := parse_parts (str_split "/" pattern) 0 in
       Ok (mk pattern segs).

(** The closure both [all] calls use; [None] is [unreachable!()]. *)
Definition segment_matches (pat : PatternSegment) (seg : string) : option bool :=
  match pat with
  | Wildcard => Some true
  | Literal lit => Some (String.eqb lit seg)
  | RecursiveWildcard => None
  end.

(** [pats.iter().zip(segs).all(..)], which stops at the first [false]. *)
Fixpoint all_match (pats : list PatternSegment) (segs : list string) : option bool :=
  match pats, segs with
  | pat :: pats', seg :: segs' =>
      match segment_matches pat seg with
      | Some true => all_match pats' segs'
      | r => r
      end
  | _, _ => Some true
  end.

Definition matches (self : t) (ref_name : string) : option bool :=
  let ref_segments := str_split "/" ref_name in
  match last (segments self) with
  | Some RecursiveWildcard =>
      let prefix_len := (length (segments self) - 1)%nat in
      if (length ref_segments <=? prefix_len)%nat then Some false
      else all_match (take prefix_len (segments self)) (take prefix_len ref_segments)
  | _ =>
      if negb (length ref_segments =? length (segments self))%nat then Some false
      else all_match (segments self) ref_segments
  end.
End RefPattern.

(** * Ref updates *)

Inductive UpdateKind := Create | FastForward | NonFastForward | Delete.
#[export] Instance UpdateKind_eq_dec : EqDecision UpdateKind.
Proof. solve_decision. Defined.

Definition ZERO_OID : string := "0000000000000000000000000000000000000000".

Definition classify (old_oid new_oid : string) (is_ancestor : bool) : UpdateKind :=
  if String.eqb old_oid ZERO_OID then Create
  else if String.eqb new_oid ZERO_OID then Delete
  else if is_ancestor then FastForward
  else NonFastForward.

Record RefUpdate := mkRefUpdate {
  ru_ref_name : string;
  ru_kind : UpdateKind;
  ru_old_oid : string;
  ru_new_oid : string
}.

(** * Protection rules *)

Record ProtectionRule := mkProtectionRule {
  pr_pattern : RefPattern.t;
  pr_push_role : option MemberRole;
  pr_no_force_push : bool;
  pr_no_delete : bool;
  pr_require_patch : bool
}.

Inductive RuleParseError :=
| TooFewValues
| TooManyRules
| InvalidPattern (e : PatternError)
| UnknownRule (r : string)
| InvalidRole (r : string).

(** [Some(match acc { None => role, Some(existing) => stricter of the two })] *)
Definition stricter (acc : option MemberRole) (role : MemberRole) : option MemberRole :=
  Some match acc with
       | None => role
       | Some existing =>
           if Role.permission_level existing <? Role.permission_level role then role
           else existing
       end.

(** The variables the loop over the rule strings of one tag updates. *)
Record TagAcc := mkTagAcc {
  ta_push_role : option MemberRole;
  ta_no_force_push : bool;
  ta_no_delete : bool;
  ta_require_patch : bool;
  ta_unknown : list string
}.

Definition tag_step (acc : TagAcc) (rule_str : string) : result TagAcc RuleParseError :=
  match strip_prefix "push:" rule_str with
  | Some role_str =>
      let? role := map_err (fun _ => InvalidRole role_str) (Role.from_str role_str) in
      match role with
      | Bot | Guest => Err (InvalidRole role_str)
      | _ =>
          Ok (mkTagAcc (stricter (ta_push_role acc) role) (ta_no_force_push acc)
                (ta_no_delete acc) (ta_require_patch acc) (ta_unknown acc))
      end
  | None =>
      if String.eqb rule_str "no-force-push" then
        Ok (mkTagAcc (ta_push_role acc) true (ta_no_delete acc) (ta_require_patch acc)
              (ta_unknown acc))
      else if String.eqb rule_str "no-delete" then
        Ok (mkTagAcc (ta_push_role acc) (ta_no_force_push acc) true (ta_require_patch acc)
              (ta_unknown acc))
      else if String.eqb rule_str "require-patch" then
        Ok (mkTagAcc (ta_push_role acc) (ta_no_force_push acc) (ta_no_delete acc) true
              (ta_unknown acc))
      else
        Ok (mkTagAcc (ta_push_role acc) (ta_no_force_push acc) (ta_no_delete acc)
              (ta_require_patch acc) (ta_unknown acc ++ [rule_str]))
  end.

Fixpoint tag_loop (acc : TagAcc) (rule_strs : list string) : result TagAcc RuleParseError :=
  match rule_strs with
  | [] => Ok acc
  | r :: rest => let? acc := tag_step acc r in tag_loop acc rest
  end.

Definition parse_protection_tag_with_warnings (values : list string)
  : result (ProtectionRule * list string) RuleParseError :=
  match values with
  | v0 :: (_ :: _) as rules =>
      let? pattern := map_err InvalidPattern (RefPattern.parse v0) in
      let? acc := tag_loop (mkTagAcc None false false false []) (tail values) in
      Ok (mkProtectionRule pattern (ta_push_role acc) (ta_no_force_push acc)
            (ta_no_delete acc) (ta_require_patch acc), ta_unknown acc)
  | _ => Err TooFewValues
  end.

Definition parse_protection_tag (values : list string)
  : result ProtectionRule RuleParseError :=
  let? (rule, _) := parse_protection_tag_with_warnings values in Ok rule.

Record ParsedProtection := mkParsed {
  pp_rules : list ProtectionRule;
  pp_unknown_rules : list string
}.

(** The tag's first string is [buzz-protect]. *)
Definition is_protect_tag (tag : list string) : bool :=
  bool_decide (head tag = Some "buzz-protect").

Fixpoint parse_tags_loop (tags : list (list string)) (acc : ParsedProtection)
  : result ParsedProtection RuleParseError :=
  match tags with
  | [] => Ok acc
  | tag :: rest =>
      if negb (is_protect_tag tag) then parse_tags_loop rest acc
      else if (MAX_PROTECTION_RULES <=? length (pp_rules acc))%nat then Err TooManyRules
      else
        let? (rule, unknowns) := parse_protection_tag_with_warnings (tail tag) in
        parse_tags_loop rest
          (mkParsed (pp_rules acc ++ [rule]) (pp_unknown_rules acc ++ unknowns))
  end.

Definition parse_protection_tags (tags : list (list string))
  : result ParsedProtection RuleParseError :=
  parse_tags_loop tags (mkParsed [] []).

(** * Policy evaluation *)

Definition default_min_role (ref_name : string) (kind : UpdateKind) : MemberRole :=
  let is_branch := starts_with "refs/heads/" ref_name in
  let is_tag := starts_with "refs/tags/" ref_name in
  match kind with
  | Create => if is_branch || is_tag then Member else Admin
  | FastForward => if is_branch then Member else if is_tag then Admin else Admin
  | NonFastForward => Admin
  | Delete => Admin
  end.

Record EffectiveRules := mkEffective {
  ef_push_role : option MemberRole;
  ef_no_force_push : bool;
  ef_no_delete : bool;
  ef_require_patch : bool;
  ef_has_explicit_match : bool
}.

(** One iteration of the loop of [EffectiveRules::for_ref]. *)
Definition effective_step (acc : EffectiveRules) (rule : ProtectionRule) : EffectiveRules :=
  mkEffective
    (match pr_push_role rule with
     | Some role => stricter (ef_push_role acc) role
     | None => ef_push_role acc
     end)
    (ef_no_force_push acc || pr_no_force_push rule)
    (ef_no_delete acc || pr_no_delete rule)
    (ef_require_patch acc || pr_require_patch rule)
    true.

Fixpoint for_ref_loop (ref_name : string) (rules : list ProtectionRule)
    (acc : EffectiveRules) : option EffectiveRules :=
  match rules with
  | [] => Some acc
  | rule :: rest =>
      b ← RefPattern.matches (pr_pattern rule) ref_name;
      if b : bool then for_ref_loop ref_name rest (effective_step acc rule)
      else for_ref_loop ref_name rest acc
  end.

Definition for_ref (ref_name : string) (rules : list ProtectionRule)
  : option EffectiveRules :=
  for_ref_loop ref_name rules (mkEffective None false false false false).

Record Denial := mkDenial { dn_ref_name : string; dn_reason : string }.
#[export] Instance Denial_eq_dec : EqDecision Denial.
Proof. solve_decision. Defined.

(** The minimum role under explicit rules: the stricter of explicit and default. *)
Definition explicit_min_role (push_role : option MemberRole) (default_role : MemberRole)
  : MemberRole :=
  match push_role with
  | Some explicit =>
      if Role.permission_level default_role <=? Role.permission_level explicit
      then explicit else default_role
  | None => default_role
  end.

Definition evaluate_ref_update (update : RefUpdate) (role : MemberRole)
    (rules : list ProtectionRule) : option (result unit Denial) :=
  effective ← for_ref (ru_ref_name update) rules;
  Some
    (if negb (ef_has_explicit_match effective) then
       let min_role := default_min_role (ru_ref_name update) (ru_kind update) in
       if negb (Role.has_at_least role min_role) then
         Err (mkDenial (ru_ref_name update)
                ("requires " +:+ Role.as_str min_role +:+ " role (you have "
                 +:+ Role.as_str role +:+ "), using built-in defaults"))
       else Ok tt
     else if ef_require_patch effective then
       Err (mkDenial (ru_ref_name update)
              "direct push denied: require-patch is set, submit a NIP-34 patch")
     else
       let default_role := default_min_role (ru_ref_name update) (ru_kind update) in
       let min_role := explicit_min_role (ef_push_role effective) default_role in
       if negb (Role.has_at_least role min_role) then
         Err (mkDenial (ru_ref_name update)
                ("requires " +:+ Role.as_str min_role +:+ " role (you have "
                 +:+ Role.as_str role +:+ ")"))
       else if ef_no_force_push effective && bool_decide (ru_kind update = NonFastForward) then
         Err (mkDenial (ru_ref_name update)
                "non-fast-forward update denied: no-force-push is set")
       else if ef_no_delete effective && bool_decide (ru_kind update = Delete) then
         Err (mkDenial (ru_ref_name update) "ref deletion denied: no-delete is set")
       else Ok tt).

(** [updates.iter().filter_map(|u| evaluate_ref_update(..).err()).collect()] *)
Fixpoint push_denials (updates : list RefUpdate) (role : MemberRole)
    (rules : list ProtectionRule) : option (list Denial) :=
  match updates with
  | [] => Some []
  | update :: rest =>
      r ← evaluate_ref_update update role rules;
      ds ← push_denials rest role rules;
      Some match res_err r with Some d => d :: ds | None => ds end
  end.

Definition evaluate_push (updates : list RefUpdate) (role : MemberRole)
    (rules : list ProtectionRule) : option (result unit (list Denial)) :=
  denials ← push_denials updates role rules;
  Some (if bool_decide (denials = []) then Ok tt else Err denials).

(** * The grammar of ref patterns *)

(** Segments of a pattern, the recursive wildcard only in last position. *)
Fixpoint wf_segments (segs : list PatternSegment) : Prop :=
  match segs with
  | [] => True
  | RecursiveWildcard :: rest => rest = []
  | _ :: rest => wf_segments rest
  end.

Definition segment_string (seg : PatternSegment) : string :=
  match seg with Literal lit => lit | Wildcard => "*" | RecursiveWildcard => "**" end.

(** A literal is not empty and uses the characters [a-zA-Z0-9._-]. *)
Definition segment_ok (seg : PatternSegment) : Prop :=
  match seg with
  | Literal lit => lit <> EmptyString /\ str_all RefPattern.literal_char lit = true
  | _ => True
  end.

Definition is_wildcard (seg : PatternSegment) : bool :=
  match seg with Literal _ => false | _ => true end.

Definition wildcards (segs : list PatternSegment) : nat :=
  length (filter (fun s => is_wildcard s = true) segs).

Lemma literal_char_not c c' :
  RefPattern.literal_char c = true -> RefPattern.literal_char c' = false -> c <> c'.
Proof. congruence. Qed.

Lemma literal_no_char c s :
  RefPattern.literal_char c = false -> str_all RefPattern.literal_char s = true ->
  str_contains_char c s = false.
Proof.
  intros Hc Hs. unfold str_contains_char. rewrite negb_false_iff.
  eapply str_all_impl; [|exact Hs]. intros c' Hc'. simpl.
  destruct (Ascii.eqb_spec c c') as [->|]; [congruence|done].
Qed.

Lemma segment_ok_no_slash seg : segment_ok seg -> no_sep "/" (segment_string seg).
Proof.
  destruct seg; simpl; try done. intros [_ Hs].
  eapply str_all_impl; [|exact Hs]. intros c Hc. simpl.
  destruct (Ascii.eqb_spec c "/") as [->|]; done.
Qed.

Lemma literal_not_wild lit :
  str_all RefPattern.literal_char lit = true ->
  String.eqb lit "**" = false /\ String.eqb lit "*" = false.
Proof.
  intros Hs. split; apply String.eqb_neq; intros ->; done.
Qed.

Lemma parse_parts_sound parts wc segs :
  (wc <= MAX_WILDCARDS_PER_PATTERN)%nat ->
  RefPattern.parse_parts parts wc = Ok segs ->
  parts = map segment_string segs /\ Forall segment_ok segs /\ wf_segments segs /\
  (wc + wildcards segs <= MAX_WILDCARDS_PER_PATTERN)%nat.
Proof.
  revert wc segs. induction parts as [|part rest IH]; intros wc segs Hwc; simpl.
  { intros [= <-]. unfold wildcards; simpl. split_and!; [done|by constructor|done|lia]. }
  destruct (String.eqb_spec part "**") as [->|H2].
  { case_bool_decide as Hr; simpl; [|done]. subst rest.
    destruct (Nat.ltb_spec MAX_WILDCARDS_PER_PATTERN (S wc)); [done|].
    intros [= <-]. unfold wildcards; simpl. split_and!; [done| |done|lia].
    by repeat constructor. }
  destruct (String.eqb_spec part "*") as [->|H1].
  { destruct (Nat.ltb_spec MAX_WILDCARDS_PER_PATTERN (S wc)); [done|].
    rewrite res_bind_Ok. intros (segs' & Hp & [= <-]).
    apply IH in Hp as (-> & Hok & Hwf & Hc); [|lia].
    unfold wildcards in *; simpl. split_and!; [done|by constructor|done|lia]. }
  destruct (str_is_empty part) eqn:He; [done|].
  destruct (_ || _); [done|]. destruct (str_all _ part) eqn:Ha; [|done]. simpl.
  rewrite res_bind_Ok. intros (segs' & Hp & [= <-]).
  apply IH in Hp as (-> & Hok & Hwf & Hc); [|lia].
  split_and!; [done| |done|done]. constructor; [|done].
  split; [|done]. by intros ->.
Qed.

Lemma parse_parts_complete segs wc :
  Forall segment_ok segs -> wf_segments segs ->
  (wc + wildcards segs <= MAX_WILDCARDS_PER_PATTERN)%nat ->
  RefPattern.parse_parts (map segment_string segs) wc = Ok segs.
Proof.
  revert wc. induction segs as [|seg segs IH]; [done|].
  intros wc [Hok Hoks]%Forall_cons Hwf Hc. unfold wildcards in *. simpl map.
  cbn [RefPattern.parse_parts]. destruct seg as [lit| |]; simpl in Hok, Hwf, Hc |- *.
  - destruct Hok as [Hne Hall]. destruct (literal_not_wild _ Hall) as [-> ->].
    replace (str_is_empty lit) with false by (by destruct lit).
    rewrite !literal_no_char by done. simpl. rewrite Hall. simpl. by rewrite IH.
  - destruct (Nat.ltb_spec MAX_WILDCARDS_PER_PATTERN (S wc)); [lia|].
    rewrite IH by (done || lia). done.
  - subst segs. simpl.
    destruct (Nat.ltb_spec MAX_WILDCARDS_PER_PATTERN (S wc)); simpl in *; [lia|done].
Qed.

(** A parsed pattern satisfies the grammar and prints as the text it came from, and
    every text that prints a well-formed list of segments parses to it: literals are
    non-empty words over [a-zA-Z0-9._-], [*] stands for one segment, [**] only comes
    last, at most three wildcards, a [refs/] prefix and at most 256 bytes. *)
Theorem ref_pattern_parse_spec (s : string) (p : RefPattern.t) :
  RefPattern.parse s = Ok p <->
  RefPattern.raw p = s /\
  s = str_join "/" (map segment_string (RefPattern.segments p)) /\
  Forall segment_ok (RefPattern.segments p) /\ wf_segments (RefPattern.segments p) /\
  (wildcards (RefPattern.segments p) <= MAX_WILDCARDS_PER_PATTERN)%nat /\
  starts_with "refs/" s = true /\ (String.length s <= MAX_PATTERN_LENGTH)%nat.
Proof.
  unfold RefPattern.parse. split.
  - destruct (str_is_empty s) eqn:He; [done|].
    destruct (Nat.ltb_spec MAX_PATTERN_LENGTH (String.length s)); [done|].
    destruct (starts_with "refs/" s) eqn:Hp; simpl; [|done].
    rewrite res_bind_Ok. intros (segs & Hs & [= <-]). simpl.
    apply parse_parts_sound in Hs as (Hs & Hok & Hwf & Hc); [|lia].
    rewrite <-Hs, str_join_split. split_and!; done || lia.
  - destruct p as [raw segs]; simpl. intros (-> & Hs & Hok & Hwf & Hc & Hp & Hl).
    replace (str_is_empty s) with false by (by destruct s).
    destruct (Nat.ltb_spec MAX_PATTERN_LENGTH (String.length s)); [lia|].
    rewrite Hp. simpl. rewrite Hs at 1. rewrite str_split_join.
    + rewrite parse_parts_complete by done. done.
    + destruct segs; [|done]. simpl in Hs. by subst s.
    + apply Forall_map. eapply Forall_impl; [exact Hok|]. apply segment_ok_no_slash.
Qed.

(** * Matching *)

(** What a pattern means: [*] one segment, [**] one or more remaining segments. *)
Inductive glob_matches : list PatternSegment -> list string -> Prop :=
| glob_nil : glob_matches [] []
| glob_literal lit pats segs :
    glob_matches pats segs -> glob_matches (Literal lit :: pats) (lit :: segs)
| glob_wildcard seg pats segs :
    glob_matches pats segs -> glob_matches (Wildcard :: pats) (seg :: segs)
| glob_recursive seg segs : glob_matches [RecursiveWildcard] (seg :: segs).

Lemma all_match_glob pats segs :
  Forall (fun p => p <> RecursiveWildcard) pats -> length pats = length segs ->
  exists b, RefPattern.all_match pats segs = Some b /\ (b = true <-> glob_matches pats segs).
Proof.
  revert segs. induction pats as [|pat pats IH]; intros [|seg segs] Hp Hl; try done.
  { exists true. split; [done|]. split; [by constructor|done]. }
  apply Forall_cons in Hp as [Hpat Hp]. injection Hl as Hl.
  destruct (IH segs Hp Hl) as (b & Hb & Hiff).
  destruct pat as [lit| |]; simpl; [|exists b|done].
  - destruct (String.eqb_spec lit seg) as [->|Hne].
    + exists b. split; [done|]. rewrite Hiff. split; [by constructor|by inversion 1].
    + exists false. split; [done|]. split; [done|by inversion 1].
  - split; [done|]. rewrite Hiff. split; [by constructor|by inversion 1].
Qed.

Lemma glob_snoc_recursive pre segs :
  Forall (fun p => p <> RecursiveWildcard) pre ->
  glob_matches (pre ++ [RecursiveWildcard]) segs <->
  (length pre < length segs)%nat /\ glob_matches pre (take (length pre) segs).
Proof.
  revert segs. induction pre as [|pat pre IH]; intros segs Hp.
  - simpl. rewrite take_0. split.
    + inversion 1; subst. split; [simpl; lia|constructor].
    + intros [Hl _]. destruct segs; simpl in *; [lia|]. constructor.
  - apply Forall_cons in Hp as [Hpat Hp]. destruct segs as [|seg segs]; simpl.
    + split; [by inversion 1|lia].
    + specialize (IH segs Hp). rewrite <-Nat.succ_lt_mono. split.
      * intros Hg. inversion Hg as [|lit p' s' Hg'|seg' p' s' Hg'|]; subst; try done;
          apply IH in Hg' as [? ?]; (split; [done|by constructor]).
      * intros [Hl Hg]. inversion Hg; subst; try done;
          constructor; apply IH; done.
Qed.

Lemma wf_segments_cases segs :
  wf_segments segs ->
  Forall (fun p => p <> RecursiveWildcard) segs \/
  exists pre, segs = pre ++ [RecursiveWildcard] /\
              Forall (fun p => p <> RecursiveWildcard) pre.
Proof.
  induction segs as [|seg segs IH]; simpl; [by left; constructor|].
  destruct seg as [lit| |]; [| |intros ->; right; by exists []].
  all: intros [Hf|(pre & -> & Hf)]%IH; [left; by constructor|].
  - right. exists (Literal lit :: pre). split; [done|by constructor].
  - right. exists (Wildcard :: pre). split; [done|by constructor].
Qed.

Lemma last_not_recursive segs :
  Forall (fun p => p <> RecursiveWildcard) segs -> last segs <> Some RecursiveWildcard.
Proof.
  intros Hf Hl. apply last_Some in Hl as [l ->].
  apply Forall_app in Hf as [_ [Hf _]%Forall_cons]. done.
Qed.

Lemma glob_length pats segs :
  Forall (fun p => p <> RecursiveWildcard) pats -> glob_matches pats segs ->
  length segs = length pats.
Proof.
  intros Hp. induction 1; simpl; try apply Forall_cons in Hp as [? Hp];
    try (rewrite IHglob_matches by done); done.
Qed.

Lemma matches_wf p ref_name :
  wf_segments (RefPattern.segments p) ->
  exists b, RefPattern.matches p ref_name = Some b /\
            (b = true <-> glob_matches (RefPattern.segments p) (str_split "/" ref_name)).
Proof.
  intros [Hf|(pre & Hs & Hf)]%wf_segments_cases; unfold RefPattern.matches.
  - pose proof (last_not_recursive _ Hf) as Hl.
    replace (match last (RefPattern.segments p) with Some RecursiveWildcard => _ | _ => _ end)
      with (if negb (length (str_split "/" ref_name) =? length (RefPattern.segments p))%nat
            then Some false
            else RefPattern.all_match (RefPattern.segments p) (str_split "/" ref_name))
      by (destruct (last _) as [[]|]; done).
    destruct (Nat.eqb_spec (length (str_split "/" ref_name)) (length (RefPattern.segments p)))
      as [Heq|Hne]; simpl.
    + by apply all_match_glob.
    + exists false. split; [done|]. split; [done|]. intros Hg%glob_length; done.
  - rewrite Hs, last_snoc, length_app. simpl.
    replace (length pre + 1 - 1)%nat with (length pre) by lia.
    rewrite (take_app_length pre [RecursiveWildcard]).
    destruct (Nat.leb_spec (length (str_split "/" ref_name)) (length pre)).
    + exists false. split; [done|]. rewrite glob_snoc_recursive by done. split; [done|lia].
    + destruct (all_match_glob pre (take (length pre) (str_split "/" ref_name)))
        as (b & -> & Hiff); [done|rewrite length_take; lia|].
      exists b. split; [done|]. rewrite glob_snoc_recursive by done. naive_solver.
Qed.

Lemma parse_wf s p : RefPattern.parse s = Ok p -> wf_segments (RefPattern.segments p).
Proof.
  unfold RefPattern.parse. repeat (case_match; [done|]).
  rewrite res_bind_Ok. intros (segs & Hs & [= <-]).
  apply parse_parts_sound in Hs as (_ & _ & Hwf & _); [done|lia].
Qed.

(** Matching a parsed pattern never reaches [unreachable!()] and decides the glob
    relation between its segments and the path segments of the ref. *)
Theorem ref_pattern_matches_spec (s : string) (p : RefPattern.t) (ref_name : string) :
  RefPattern.parse s = Ok p ->
  exists b, RefPattern.matches p ref_name = Some b /\
            (b = true <-> glob_matches (RefPattern.segments p) (str_split "/" ref_name)).
Proof. intros Hp. by apply matches_wf, (parse_wf s). Qed.

Lemma ref_pattern_matches_spec_witness :
  exists p, RefPattern.parse "refs/heads/**" = Ok p /\
  exists b, RefPattern.matches p "refs/heads/eva/fix" = Some b /\
            (b = true <-> glob_matches (RefPattern.segments p)
                            (str_split "/" "refs/heads/eva/fix")).
Proof.
  eexists. split; [vm_compute; reflexivity|].
  apply (ref_pattern_matches_spec "refs/heads/**"). vm_compute. reflexivity.
Defined.

(** * Levels and unions *)

(** The level an optional push role asks for; no role asks for nothing. *)
Definition role_level (r : option MemberRole) : Z :=
  match r with Some r => Role.permission_level r | None => 0 end.

Lemma permission_level_bounds r : 0 <= Role.permission_level r <= 4.
Proof. destruct r; simpl; lia. Qed.

Lemma stricter_level acc role :
  role_level (stricter acc role) = Z.max (role_level acc) (Role.permission_level role).
Proof.
  unfold stricter. destruct acc as [e|]; simpl.
  - destruct (Z.ltb_spec (Role.permission_level e) (Role.permission_level role)); lia.
  - pose proof (permission_level_bounds role). lia.
Qed.

Lemma explicit_min_role_level pr d :
  Role.permission_level (explicit_min_role pr d)
  = Z.max (role_level pr) (Role.permission_level d).
Proof.
  unfold explicit_min_role. destruct pr as [e|]; simpl.
  - destruct (Z.leb_spec (Role.permission_level d) (Role.permission_level e)); lia.
  - pose proof (permission_level_bounds d). lia.
Qed.

(** A rule made by the parser. *)
Definition wf_rule (rule : ProtectionRule) : Prop :=
  wf_segments (RefPattern.segments (pr_pattern rule)).

Definition applies (ref_name : string) (rule : ProtectionRule) : Prop :=
  glob_matches (RefPattern.segments (pr_pattern rule)) (str_split "/" ref_name).

(** [P] holds of every rule that applies to the ref. *)
Definition for_applicable (ref_name : string) (rules : list ProtectionRule)
    (P : ProtectionRule -> Prop) : Prop :=
  Forall (fun rule => applies ref_name rule -> P rule) rules.

(** What one accumulated [EffectiveRules] forbids, as a predicate on role and kind. *)
Definition effective_permits (ef : EffectiveRules) (lvl : Z) (kind : UpdateKind) : Prop :=
  role_level (ef_push_role ef) <= lvl /\
  ef_require_patch ef = false /\
  (ef_no_force_push ef = true -> kind <> NonFastForward) /\
  (ef_no_delete ef = true -> kind <> Delete).

Definition rule_permits (rule : ProtectionRule) (lvl : Z) (kind : UpdateKind) : Prop :=
  role_level (pr_push_role rule) <= lvl /\
  pr_require_patch rule = false /\
  (pr_no_force_push rule = true -> kind <> NonFastForward) /\
  (pr_no_delete rule = true -> kind <> Delete).

Lemma effective_step_permits ef rule lvl kind :
  0 <= lvl ->
  effective_permits (effective_step ef rule) lvl kind <->
  effective_permits ef lvl kind /\ rule_permits rule lvl kind.
Proof.
  intros Hl. unfold effective_permits, rule_permits, effective_step; simpl.
  replace (role_level match pr_push_role rule with
           | Some role => stricter (ef_push_role ef) role
           | None => ef_push_role ef end)
    with (Z.max (role_level (ef_push_role ef)) (role_level (pr_push_role rule))).
  - rewrite Z.max_lub_iff, !orb_true_iff, orb_false_iff. tauto.
  - destruct (pr_push_role rule); [by rewrite stricter_level|].
    destruct (ef_push_role ef) as [r|]; simpl; [|lia].
    pose proof (permission_level_bounds r). lia.
Qed.

Lemma for_ref_loop_spec ref_name rules acc :
  Forall wf_rule rules ->
  exists ef, for_ref_loop ref_name rules acc = Some ef /\
    (forall lvl kind, 0 <= lvl ->
       effective_permits ef lvl kind <->
       effective_permits acc lvl kind /\
       for_applicable ref_name rules (fun rule => rule_permits rule lvl kind)) /\
    (ef_has_explicit_match ef = false <->
     ef_has_explicit_match acc = false /\ for_applicable ref_name rules (fun _ => False)).
Proof.
  unfold for_applicable. revert acc. induction rules as [|rule rules IH]; intros acc Hwf; simpl.
  { exists acc. split; [done|]. setoid_rewrite Forall_nil. tauto. }
  apply Forall_cons in Hwf as [Hr Hwf].
  destruct (matches_wf _ ref_name Hr) as (b & -> & Hb). simpl.
  fold (applies ref_name rule) in Hb.
  destruct b.
  - destruct (IH (effective_step acc rule) Hwf) as (ef & -> & Hp & Hm).
    exists ef. split; [done|]. split.
    + intros lvl kind Hl. rewrite (Hp _ _ Hl), effective_step_permits, Forall_cons by done.
      naive_solver.
    + rewrite Hm, Forall_cons. simpl. naive_solver.
  - destruct (IH acc Hwf) as (ef & -> & Hp & Hm).
    exists ef. split; [done|]. split.
    + intros lvl kind Hl. rewrite (Hp _ _ Hl), Forall_cons. naive_solver.
    + rewrite Hm, Forall_cons. naive_solver.
Qed.

(** * The policy *)

(** The declarative policy for one update: the built-in default role is a floor, and
    every rule whose pattern applies must permit the update. *)
Definition permitted (role : MemberRole) (rules : list ProtectionRule) (u : RefUpdate)
  : Prop :=
  Role.permission_level (default_min_role (ru_ref_name u) (ru_kind u))
    <= Role.permission_level role /\
  for_applicable (ru_ref_name u) rules
    (fun rule => rule_permits rule (Role.permission_level role) (ru_kind u)).

Lemma evaluate_ref_update_wf u role rules :
  Forall wf_rule rules ->
  exists r, evaluate_ref_update u role rules = Some r /\
            (r = Ok tt <-> permitted role rules u).
Proof.
  intros Hwf. unfold evaluate_ref_update, for_ref.
  destruct (for_ref_loop_spec (ru_ref_name u) rules
              (mkEffective None false false false false) Hwf) as (ef & -> & Hp & Hm).
  simpl. eexists. split; [done|]. unfold permitted.
  pose proof (permission_level_bounds role) as Hl.
  specialize (Hp (Role.permission_level role) (ru_kind u) ltac:(lia)).
  assert (Hinit : effective_permits (mkEffective None false false false false)
                    (Role.permission_level role) (ru_kind u)).
  { split_and!; simpl; done || lia. }
  assert (Hp' : effective_permits ef (Role.permission_level role) (ru_kind u) <->
                for_applicable (ru_ref_name u) rules
                  (fun rule => rule_permits rule (Role.permission_level role) (ru_kind u)))
    by tauto.
  assert (Hnone : ef_has_explicit_match ef = false ->
                  effective_permits ef (Role.permission_level role) (ru_kind u)).
  { intros He. apply Hp'. apply Hm in He as [_ He]. eapply Forall_impl; [exact He|].
    intros rule Hr Ha. by destruct (Hr Ha). }
  rewrite <-Hp'. clear Hp Hp' Hinit Hm.
  unfold Role.has_at_least. set (d := Role.permission_level (default_min_role _ _)).
  destruct (ef_has_explicit_match ef) eqn:He; simpl.
  - clear Hnone. unfold effective_permits. rewrite explicit_min_role_level. fold d.
    destruct (ef_require_patch ef); [naive_solver|].
    destruct (Z.leb_spec (Z.max (role_level (ef_push_role ef)) d)
                (Role.permission_level role)); simpl; [|split; [done|lia]].
    repeat case_bool_decide; destruct (ef_no_force_push ef), (ef_no_delete ef);
      simpl; split; try done; try (intros; split_and!; done || lia); naive_solver.
  - specialize (Hnone eq_refl).
    destruct (Z.leb_spec d (Role.permission_level role)); simpl; [done|].
    split; [done|]. lia.
Qed.

Lemma push_denials_wf updates role rules :
  Forall wf_rule rules ->
  exists ds, push_denials updates role rules = Some ds /\
             (ds = [] <-> Forall (permitted role rules) updates).
Proof.
  intros Hwf. induction updates as [|u updates (ds & Hds & IH)]; simpl.
  { exists []. split; [done|]. split; [by constructor|done]. }
  destruct (evaluate_ref_update_wf u role rules Hwf) as (r & -> & Hr). simpl.
  rewrite Hds. simpl. eexists. split; [done|]. rewrite Forall_cons, <-IH, <-Hr.
  destruct r as [[]|d]; simpl; naive_solver.
Qed.

Lemma evaluate_push_wf updates role rules :
  Forall wf_rule rules ->
  exists r, evaluate_push updates role rules = Some r /\
            (r = Ok tt <-> Forall (permitted role rules) updates).
Proof.
  intros Hwf. unfold evaluate_push.
  destruct (push_denials_wf updates role rules Hwf) as (ds & -> & Hiff). simpl.
  eexists. split; [done|]. rewrite <-Hiff. case_bool_decide; naive_solver.
Qed.

(** * Parsing the protection tags *)

Definition pushable (r : option MemberRole) : Prop :=
  match r with Some (Bot | Guest) => False | _ => True end.

Lemma tag_step_pushable acc s acc' :
  pushable (ta_push_role acc) -> tag_step acc s = Ok acc' -> pushable (ta_push_role acc').
Proof.
  intros Hp. unfold tag_step. destruct (strip_prefix "push:" s) as [rs|].
  - rewrite res_bind_Ok. intros (role & _ & Hr).
    destruct role; simplify_eq/=; try done;
      destruct (ta_push_role acc) as [[]|]; done.
  - repeat case_match; intros; simplify_eq/=; done.
Qed.

Lemma tag_loop_pushable acc l acc' :
  pushable (ta_push_role acc) -> tag_loop acc l = Ok acc' -> pushable (ta_push_role acc').
Proof.
  revert acc. induction l as [|s l IH]; intros acc Hp; simpl; [by intros [= <-]|].
  rewrite res_bind_Ok. intros (acc1 & H1 & H2).
  eapply IH; [|exact H2]. by eapply tag_step_pushable.
Qed.

Lemma parse_tag_wf values rule unk :
  parse_protection_tag_with_warnings values = Ok (rule, unk) ->
  wf_rule rule /\ pushable (pr_push_role rule).
Proof.
  unfold parse_protection_tag_with_warnings.
  destruct values as [|v0 [|v1 vs]]; try done.
  rewrite res_bind_Ok. intros (p & Hp & Ha). apply res_bind_Ok in Ha as (acc & Ha & [= <- <-]).
  split.
  - unfold wf_rule; simpl. destruct (RefPattern.parse v0) eqn:Hv; simplify_eq/=.
    by eapply parse_wf.
  - simpl. by eapply tag_loop_pushable; [|exact Ha].
Qed.

Lemma parse_tags_loop_wf tags acc pp :
  Forall wf_rule (pp_rules acc) ->
  (length (pp_rules acc) <= MAX_PROTECTION_RULES)%nat ->
  parse_tags_loop tags acc = Ok pp ->
  Forall wf_rule (pp_rules pp) /\
  length (pp_rules pp)
    = (length (pp_rules acc) + length (filter (fun t => is_protect_tag t = true) tags))%nat /\
  (length (pp_rules pp) <= MAX_PROTECTION_RULES)%nat.
Proof.
  revert acc. induction tags as [|tag tags IH]; intros acc Hwf Hlen;
    cbn [parse_tags_loop].
  { intros [= <-]. rewrite Nat.add_0_r. done. }
  rewrite filter_cons. destruct (is_protect_tag tag); cbn [negb].
  - destruct (Nat.leb_spec MAX_PROTECTION_RULES (length (pp_rules acc))); [done|].
    rewrite res_bind_Ok. intros ([rule unk] & Hr & Hrest).
    apply IH in Hrest as (Hw & Hl & Hm).
    + rewrite decide_True by done. split; [done|]. split; [|done].
      rewrite Hl. simpl. rewrite length_app. simpl. lia.
    + simpl. apply Forall_app. split; [done|]. constructor; [|done].
      by eapply parse_tag_wf.
    + simpl. rewrite length_app. simpl. lia.
  - intros Hrest. rewrite decide_False by done. by apply IH.
Qed.

Lemma parse_tags_wf tags pp :
  parse_protection_tags tags = Ok pp -> Forall wf_rule (pp_rules pp).
Proof.
  intros Hp. apply parse_tags_loop_wf in Hp; [tauto|by constructor|cbv; lia].
Qed.

(** A successfully parsed announcement has one rule per [buzz-protect] tag, and at
    most [MAX_PROTECTION_RULES] of them: the 51st tag is an error, never a rule that
    is silently dropped. *)
Theorem parse_protection_tags_count (tags : list (list string)) (pp : ParsedProtection) :
  parse_protection_tags tags = Ok pp ->
  length (pp_rules pp) = length (filter (fun t => is_protect_tag t = true) tags) /\
  (length (pp_rules pp) <= MAX_PROTECTION_RULES)%nat.
Proof.
  intros Hp. apply parse_tags_loop_wf in Hp; [|by constructor|cbv; lia].
  simpl in Hp. tauto.
Qed.

Lemma parse_protection_tags_count_witness :
  exists pp, parse_protection_tags
      [["buzz-protect"; "refs/heads/main"; "push:admin"; "no-delete"]; ["d"; "repo"]] = Ok pp /\
    length (pp_rules pp) = 1%nat.
Proof.
  eexists. split; [vm_compute; reflexivity|].
  refine (proj1 (parse_protection_tags_count
    [["buzz-protect"; "refs/heads/main"; "push:admin"; "no-delete"]; ["d"; "repo"]] _ _)).
  vm_compute. reflexivity.
Defined.

(** C8: With the rules parsed from an announcement, a push evaluates (no panic) and is
    accepted exactly when every ref update satisfies the policy: the built-in default
    role is a floor no tag can lower, and every rule whose glob applies must allow the
    pusher's level and the update kind, with [require-patch] forbidding all of them.
    One refused update refuses the push. *)
Theorem evaluate_push_spec (tags : list (list string)) (pp : ParsedProtection)
    (updates : list RefUpdate) (role : MemberRole) :
  parse_protection_tags tags = Ok pp ->
  exists r, evaluate_push updates role (pp_rules pp) = Some r /\
            (r = Ok tt <-> Forall (permitted role (pp_rules pp)) updates).
Proof. intros Hp. by apply evaluate_push_wf, (parse_tags_wf tags). Qed.

Lemma evaluate_push_spec_witness :
  exists pp, parse_protection_tags [["buzz-protect"; "refs/heads/*"; "no-force-push"]] = Ok pp /\
  exists r, evaluate_push
              [mkRefUpdate "refs/heads/main" NonFastForward "a" "b"] Admin (pp_rules pp) = Some r /\
            (r = Ok tt <-> Forall (permitted Admin (pp_rules pp))
                             [mkRefUpdate "refs/heads/main" NonFastForward "a" "b"]).
Proof.
  eexists. split; [vm_compute; reflexivity|].
  apply (evaluate_push_spec [["buzz-protect"; "refs/heads/*"; "no-force-push"]]).
  vm_compute. reflexivity.
Defined.

(** Publishing more protection tags can only restrict: a push that is accepted under
    the longer announcement was accepted under the shorter one, for the same pusher. *)
Theorem protection_tags_only_restrict (tags extra : list (list string))
    (pp pp' : ParsedProtection) (updates : list RefUpdate) (role : MemberRole) :
  parse_protection_tags tags = Ok pp ->
  parse_protection_tags (tags ++ extra) = Ok pp' ->
  evaluate_push updates role (pp_rules pp') = Some (Ok tt) ->
  evaluate_push updates role (pp_rules pp) = Some (Ok tt).
Proof.
  intros Hp Hp' He.
  assert (Hsub : exists more, pp_rules pp' = pp_rules pp ++ more).
  { clear He. unfold parse_protection_tags in *. revert Hp Hp'.
    generalize (mkParsed [] []). induction tags as [|t tags IH]; intros acc; simpl.
    - intros [= <-]. revert acc. induction extra as [|t extra IHe]; intros acc; simpl.
      + intros [= <-]. exists []. by rewrite app_nil_r.
      + case_match; [apply IHe|]. case_match; [done|].
        rewrite res_bind_Ok. intros ([rule unk] & _ & Hr).
        apply IHe in Hr as [more ->]. simpl. eexists. by rewrite <-(assoc_L (++)).
    - case_match; [apply IH|]. case_match; [done|].
      rewrite !res_bind_Ok. intros ([rule unk] & Hr & H1) ([rule' unk'] & Hr' & H2).
      rewrite Hr in Hr'. injection Hr' as <- <-. by eapply IH. }
  destruct Hsub as [more Hsub].
  destruct (evaluate_push_wf updates role (pp_rules pp') (parse_tags_wf _ _ Hp'))
    as (r' & Hr' & Hiff').
  destruct (evaluate_push_wf updates role (pp_rules pp) (parse_tags_wf _ _ Hp))
    as (r & Hr & Hiff).
  simplify_eq. rewrite Hr. f_equal. apply Hiff. destruct Hiff' as [Hiff' _].
  eapply Forall_impl; [exact (Hiff' eq_refl)|]. intros u [Hd Ha]. split; [done|].
  unfold for_applicable in *. rewrite Hsub, Forall_app in Ha. tauto.
Qed.

Lemma protection_tags_only_restrict_witness :
  exists pp pp',
    parse_protection_tags [["buzz-protect"; "refs/heads/*"; "no-delete"]] = Ok pp /\
    parse_protection_tags ([["buzz-protect"; "refs/heads/*"; "no-delete"]] ++
                           [["buzz-protect"; "refs/heads/main"; "push:admin"]]) = Ok pp' /\
    evaluate_push [mkRefUpdate "refs/heads/main" FastForward "a" "b"] Admin (pp_rules pp)
    = Some (Ok tt).
Proof.
  eexists. eexists. split; [vm_compute; reflexivity|]. split; [vm_compute; reflexivity|].
  eapply (protection_tags_only_restrict
           [["buzz-protect"; "refs/heads/*"; "no-delete"]]
           [["buzz-protect"; "refs/heads/main"; "push:admin"]]);
    vm_compute; reflexivity.
Defined.

(** Guests and bots never push: whatever the announcement says, a push of at least
    one ref by either is denied (bots are promoted by the caller, not here). *)
Theorem weak_roles_never_push (tags : list (list string)) (pp : ParsedProtection)
    (updates : list RefUpdate) (role : MemberRole) :
  parse_protection_tags tags = Ok pp ->
  (role = Guest \/ role = Bot) -> updates <> [] ->
  exists ds, evaluate_push updates role (pp_rules pp) = Some (Err ds) /\ ds <> [].
Proof.
  intros Hp Hrole Hne.
  pose proof (push_denials_wf updates role (pp_rules pp) (parse_tags_wf _ _ Hp))
    as (ds & Hds & Hiff).
  unfold evaluate_push. rewrite Hds. simpl.
  assert (Hds' : ds <> []).
  { intros Hnil. apply Hiff in Hnil. destruct updates as [|u us]; [done|].
    apply Forall_cons in Hnil as [[Hd _] _].
    assert (2 <= Role.permission_level (default_min_role (ru_ref_name u) (ru_kind u))).
    { unfold default_min_role. repeat case_match; simpl; lia. }
    destruct Hrole; subst role; simpl in *; lia. }
  exists ds. by rewrite bool_decide_false by done.
Qed.

Lemma weak_roles_never_push_witness :
  exists pp, parse_protection_tags [] = Ok pp /\
  exists ds, evaluate_push [mkRefUpdate "refs/heads/main" Create ZERO_OID "b"] Guest (pp_rules pp)
             = Some (Err ds) /\ ds <> [].
Proof.
  eexists. split; [vm_compute; reflexivity|].
  apply (weak_roles_never_push []); [vm_compute; reflexivity|left; reflexivity|discriminate].
Defined.
