(* ===== verification/Filters.v ===== *)
(** NIP-01 filter matching ([crates/buzz-core/src/filter.rs]) and the relay's event
    wrapper ([crates/buzz-core/src/event.rs]). *)
From S2P Require Import Prelude Nostr Kinds.
Local Open Scope string_scope.
Local Open Scope list_scope.
Local Open Scope Z_scope.

(** [StoredEvent]: an event with the relay's metadata. *)
Record StoredEvent := mkStored {
  se_event : Event;
  se_received_at : Z;
  se_channel_id : option Uuid;
  se_verified : bool
}.

(** [StoredEvent::new(event, channel_id)]; [now] is [Utc::now()]. *)
Definition StoredEvent_new (now : Z) (event : Event) (channel_id : option Uuid)
  : StoredEvent := mkStored event now channel_id false.

Definition with_received_at (event : Event) (received_at : Z) (channel_id : option Uuid)
    (verified : bool) : StoredEvent := mkStored event received_at channel_id verified.

Definition is_verified (e : StoredEvent) : bool := se_verified e.

Section filters.
Context `{A : NostrApi}.

(** The event carries a tag of this name with this content. *)
Definition event_has_tag_value (ev : Event) (tag_key_str filter_val : string) : bool :=
  existsb (fun t => String.eqb (tag_kind t) tag_key_str
                    && bool_decide (tag_content t = Some filter_val)) (ev_tags ev).

(** One iteration of the loop over [f.generic_tags]; [false] is [return false]. *)
Definition generic_tag_ok (ev : StoredEvent) (tag_key : SingleLetterTag)
    (tag_values : list string) : bool :=
  let tag_key_str := slt_to_string tag_key in
  let has_match := existsb (event_has_tag_value (se_event ev) tag_key_str) tag_values in
  if negb has_match && String.eqb tag_key_str "h" then
    let event_has_h_tags :=
      existsb (fun t => String.eqb (tag_kind t) "h") (ev_tags (se_event ev)) in
    if negb event_has_h_tags then
      match se_channel_id ev with
      | Some ch_id => existsb (fun v => String.eqb v (uuid_to_string ch_id)) tag_values
      | None => false
      end
    else false
  else has_match.

Definition filter_match_one (f : Filter) (ev : StoredEvent) : bool :=
  match f_kinds f with
  | Some kinds => bool_decide (ev_kind (se_event ev) ∈ kinds)
  | None => true
  end &&
  match f_authors f with
  | Some authors => bool_decide (ev_pubkey (se_event ev) ∈ authors)
  | None => true
  end &&
  match f_since f with
  | Some since => negb (ev_created_at (se_event ev) <? since)
  | None => true
  end &&
  match f_until f with
  | Some until => negb (until <? ev_created_at (se_event ev))
  | None => true
  end &&
  match f_ids f with
  | Some ids =>
      let event_id_hex := to_hex (ev_id (se_event ev)) in
      existsb (fun id => starts_with (to_hex id) event_id_hex) ids
  | None => true
  end &&
  forallb (fun '(k, vs) => generic_tag_ok ev k vs) (map_to_list (f_generic_tags f)).

Definition filters_match (filters : list Filter) (event : StoredEvent) : bool :=
  existsb (fun f => filter_match_one f event) filters.

Definition reader_authorized_for_event (event : Event) (reader_pubkey_hex : string) : bool :=
  let kind := event_kind_u32 event in
  if negb (kind =? KIND_DM_VISIBILITY) && negb (kind =? KIND_AGENT_TURN_METRIC) then true
  else existsb (fun t => String.eqb (tag_kind t) (slt_to_string (slt_lowercase "p"))
                         && bool_decide (tag_content t = Some reader_pubkey_hex))
         (ev_tags event).

(** * What a filter means *)

(** The event carries a tag [k] with content [v]. *)
Definition tagged (ev : Event) (k v : string) : Prop :=
  exists t, t ∈ ev_tags ev /\ tag_kind t = k /\ tag_content t = Some v.

(** The values a tag constraint may be satisfied by: a tag of the event, or, for [h]
    only and only when the event has no [h] tag at all, its stored channel. *)
Definition tag_satisfied (ev : StoredEvent) (k : string) (v : string) : Prop :=
  tagged (se_event ev) k v \/
  (k = "h" /\ (forall t, t ∈ ev_tags (se_event ev) -> tag_kind t <> "h") /\
   exists ch, se_channel_id ev = Some ch /\ v = uuid_to_string ch).

Definition filter_spec (f : Filter) (ev : StoredEvent) : Prop :=
  (forall ks, f_kinds f = Some ks -> ev_kind (se_event ev) ∈ ks) /\
  (forall ps, f_authors f = Some ps -> ev_pubkey (se_event ev) ∈ ps) /\
  (forall t, f_since f = Some t -> t <= ev_created_at (se_event ev)) /\
  (forall t, f_until f = Some t -> ev_created_at (se_event ev) <= t) /\
  (forall ids, f_ids f = Some ids -> ev_id (se_event ev) ∈ ids) /\
  (forall k vs, f_generic_tags f !! k = Some vs ->
     exists v, v ∈ vs /\ tag_satisfied ev (slt_to_string k) v).

Lemma existsb_elem_of {B : Type} (f : B -> bool) l :
  existsb f l = true <-> exists x, x ∈ l /\ f x = true.
Proof. rewrite existsb_exists. by setoid_rewrite list_elem_of_In. Qed.

Lemma forallb_elem_of {B : Type} (f : B -> bool) l :
  forallb f l = true <-> forall x, x ∈ l -> f x = true.
Proof. rewrite forallb_forall. by setoid_rewrite list_elem_of_In. Qed.

Lemma event_has_tag_value_true ev k v :
  event_has_tag_value ev k v = true <-> tagged ev k v.
Proof.
  unfold event_has_tag_value, tagged. rewrite existsb_elem_of.
  setoid_rewrite andb_true_iff. setoid_rewrite String.eqb_eq.
  by setoid_rewrite bool_decide_eq_true.
Qed.

Lemma generic_tag_ok_true ev k vs :
  generic_tag_ok ev k vs = true <->
  exists v, v ∈ vs /\ tag_satisfied ev (slt_to_string k) v.
Proof.
  unfold generic_tag_ok, tag_satisfied.
  destruct (existsb (event_has_tag_value _ _) vs) eqn:Hm; simpl.
  { split; [|done]. intros _. apply existsb_elem_of in Hm as (v & Hv & Ht).
    exists v. split; [done|]. left. by apply event_has_tag_value_true. }
  assert (Hno : forall v, v ∈ vs -> ~ tagged (se_event ev) (slt_to_string k) v).
  { intros v Hv Ht. apply not_true_iff_false in Hm. apply Hm.
    apply existsb_elem_of. exists v. split; [done|]. by apply event_has_tag_value_true. }
  destruct (String.eqb_spec (slt_to_string k) "h") as [Hk|Hk]; [rewrite Hk in Hno |- *|];
    cycle 1.
  { split; [done|]. intros (v & Hv & [Ht|[? _]]); [by destruct (Hno v Hv)|done]. }
  destruct (existsb _ (ev_tags _)) eqn:Hh; simpl.
  - apply existsb_elem_of in Hh as (t & Ht & Hth). apply String.eqb_eq in Hth.
    split; [done|]. intros (v & Hv & [Hv'|(_ & Hnh & _)]); [by destruct (Hno v Hv)|].
    by destruct (Hnh t Ht).
  - assert (Hnh : forall t, t ∈ ev_tags (se_event ev) -> tag_kind t <> "h").
    { intros t Ht Hth. apply not_true_iff_false in Hh. apply Hh.
      apply existsb_elem_of. exists t. split; [done|]. by apply String.eqb_eq. }
    destruct (se_channel_id ev) as [ch|]; [rewrite existsb_elem_of|].
    + setoid_rewrite String.eqb_eq. split.
      * intros (v & Hv & ->). exists (uuid_to_string ch). split; [done|]. right. eauto.
      * intros (v & Hv & [Hv'|(_ & _ & ch' & [= <-] & ->)]); [by destruct (Hno v Hv)|].
        by eexists.
    + split; [done|]. intros (v & Hv & [Hv'|(_ & _ & ch' & ? & _)]); [|done].
      by destruct (Hno v Hv).
Qed.

(** Event ids are 32 bytes ([EventId] is a fixed-size array). *)
Definition id_wf (id : Bytes) : Prop := length id = 32%nat.

Lemma starts_with_same_length p s :
  String.length p = String.length s -> starts_with p s = true <-> p = s.
Proof.
  unfold starts_with. revert s.
  induction p as [|a p IH]; intros [|b s] Hl; simpl in *; try done.
  injection Hl as Hl. destruct (Ascii.eqb_spec a b) as [->|Hab].
  - rewrite (IH s Hl). split; [by intros ->|by intros [= ->]].
  - split; [done|by intros [= ->]].
Qed.

Lemma id_prefix_eq `{L : !NostrLaws A} a b :
  id_wf a -> id_wf b -> starts_with (to_hex a) (to_hex b) = true <-> b = a.
Proof.
  intros Ha Hb. rewrite starts_with_same_length by (by rewrite !to_hex_length, Ha, Hb).
  pose proof to_hex_inj. split; [intros Heq%(inj to_hex); by subst|by intros ->].
Qed.

Lemma opt_match_true {B : Type} (o : option B) (f : B -> bool) :
  match o with Some x => f x | None => true end = true <->
  forall x, o = Some x -> f x = true.
Proof. destruct o; naive_solver. Qed.

Lemma filter_match_one_true `{L : !NostrLaws A} f ev :
  id_wf (ev_id (se_event ev)) -> (forall ids, f_ids f = Some ids -> Forall id_wf ids) ->
  filter_match_one f ev = true <-> filter_spec f ev.
Proof.
  intros Hev Hids. unfold filter_match_one, filter_spec.
  rewrite !andb_true_iff, !opt_match_true, forallb_elem_of.
  setoid_rewrite bool_decide_eq_true. setoid_rewrite negb_true_iff.
  setoid_rewrite Z.ltb_ge.
  assert (Htags : (forall x, x ∈ map_to_list (f_generic_tags f) ->
                    (let '(k, vs) := x in generic_tag_ok ev k vs) = true) <->
                  forall k vs, f_generic_tags f !! k = Some vs ->
                    exists v, v ∈ vs /\ tag_satisfied ev (slt_to_string k) v).
  { setoid_rewrite <-generic_tag_ok_true. setoid_rewrite <-elem_of_map_to_list.
    split; [intros Hx k vs Hk; by apply (Hx (k, vs))|intros Hx [k vs]; apply Hx]. }
  rewrite Htags.
  assert (Hid : (forall ids, f_ids f = Some ids ->
                   existsb (fun id => starts_with (to_hex id) (to_hex (ev_id (se_event ev)))) ids
                   = true) <->
                forall ids, f_ids f = Some ids -> ev_id (se_event ev) ∈ ids).
  { split; intros H ids Hsome; specialize (H ids Hsome); specialize (Hids ids Hsome);
      rewrite Forall_forall in Hids.
    - apply existsb_elem_of in H as (id & Hin & Hp).
      apply id_prefix_eq in Hp; [by subst|by apply Hids|done].
    - apply existsb_elem_of. eexists. split; [exact H|]. apply id_prefix_eq; auto. }
  rewrite Hid. tauto.
Qed.

(** C38: A subscription's filters match an event exactly when some filter's constraints
    all hold: kinds, authors, the closed time window, exact ids (the "prefix" test is
    equality because both sides are 32-byte ids), and every tag constraint, where an
    [h] constraint may fall back to the stored channel only if the event carries no
    [h] tag at all. *)
Theorem filters_match_spec `{L : !NostrLaws A} (filters : list Filter) (ev : StoredEvent) :
  id_wf (ev_id (se_event ev)) ->
  Forall (fun f => forall ids, f_ids f = Some ids -> Forall id_wf ids) filters ->
  filters_match filters ev = true <-> Exists (fun f => filter_spec f ev) filters.
Proof.
  intros Hev Hids. unfold filters_match. rewrite existsb_elem_of, Exists_exists.
  rewrite Forall_forall in Hids.
  split; intros (f & Hf & Hm); exists f; (split; [done|]);
    eapply (filter_match_one_true f ev); eauto.
Qed.

(** Owner-private events (DM visibility snapshots, agent turn metrics) are readable
    only by a pubkey named in one of their [p] tags; all other kinds pass. *)
Theorem reader_authorized_spec `{L : !NostrLaws A} (event : Event) (reader : string) :
  reader_authorized_for_event event reader = true <->
  ev_kind event ∉ RESULT_GATED_KINDS \/ tagged event "p" reader.
Proof.
  unfold reader_authorized_for_event, event_kind_u32, RESULT_GATED_KINDS.
  rewrite slt_lowercase_to_string.
  fold (event_has_tag_value event "p" reader).
  rewrite <-event_has_tag_value_true, not_elem_of_cons, not_elem_of_cons.
  destruct (Z.eqb_spec (ev_kind event) KIND_DM_VISIBILITY),
    (Z.eqb_spec (ev_kind event) KIND_AGENT_TURN_METRIC); simpl; try tauto.
  split; [|done]. intros _. left. split_and!; [done|done|apply not_elem_of_nil].
Qed.

End filters.

(** A concrete event and filter for the witnesses. *)
Module FilterExample.
Definition example_id : Bytes := replicate 32 Byte.x01.
Definition example_event : Event :=
  mkEvent example_id (replicate 32 Byte.x02) 100 7 [["p"; "aa"]] "hi".
Definition example_stored : StoredEvent := mkStored example_event 0 (Some 5%N) true.
Definition example_filter : Filter :=
  mkFilter (Some [example_id]) None (Some [7]) (Some 50) None
    {[ ("h"%char, false) := ["5"] ]} None None.
End FilterExample.

Lemma filters_match_spec_witness :
  filters_match (A := Reference.api) [FilterExample.example_filter] FilterExample.example_stored
    = true <->
  Exists (fun f => filter_spec (A := Reference.api) f FilterExample.example_stored)
    [FilterExample.example_filter].
Proof.
  apply (filters_match_spec (A := Reference.api) (L := Reference.laws)).
  - reflexivity.
  - constructor; [|constructor]. intros ids [= <-]. constructor; [reflexivity|constructor].
Defined.

Example example_filter_matches :
  filters_match (A := Reference.api) [FilterExample.example_filter] FilterExample.example_stored
  = true.
Proof. vm_compute. reflexivity. Qed.

Lemma reader_authorized_spec_witness :
  reader_authorized_for_event (A := Reference.api)
    (mkEvent [] [] 0 KIND_DM_VISIBILITY [["p"; "aa"]] "") "bb" = true <->
  KIND_DM_VISIBILITY ∉ RESULT_GATED_KINDS \/
  tagged (A := Reference.api) (mkEvent [] [] 0 KIND_DM_VISIBILITY [["p"; "aa"]] "") "p" "bb".
Proof.
  apply (reader_authorized_spec (A := Reference.api) (L := Reference.laws)
           (mkEvent [] [] 0 KIND_DM_VISIBILITY [["p"; "aa"]] "")).
Defined.
