(* ===== verification/Subscription.v ===== *)
(** The subscription registry ([crates/buzz-relay/src/subscription.rs]): the
    authoritative map of subscriptions, its five fan-out indexes, registration,
    removal, and targeted fan-out.

    Each method is one atomic step.  The soundness half of fan-out holds for every
    content of the indexes, so it also covers candidate lists read before a
    concurrent replacement; completeness and the absence of stale entries hold for
    the registries the methods reach. *)
From S2P Require Import Prelude Nostr Kinds Filters.
Local Open Scope string_scope.
Local Open Scope list_scope.
Local Open Scope Z_scope.

Abbreviation ConnId := N (only parsing).
Abbreviation SubId := string (only parsing).
Abbreviation CommunityId := N (only parsing).
Abbreviation Candidate := (N * string)%type (only parsing).
(** [IndexKey { channel_id, kind }] *)
Abbreviation IndexKey := (N * Z)%type (only parsing).
(** [GlobalPKindIndexKey { community_id, kind, p }] *)
Abbreviation GlobalPKindIndexKey := (N * Z * string)%type (only parsing).

(** [SubEntry]: the filters and the server-resolved scope of a subscription. *)
Record SubEntry := mkEntry {
  en_filters : list Filter;
  en_community : CommunityId;
  en_channel : option Uuid
}.

Record RemovedSubscription := mkRemoved {
  rm_community_id : CommunityId;
  rm_channel_id : option Uuid
}.

Record SubscriptionRegistry := mkRegistry {
  subs : gmap ConnId (gmap SubId SubEntry);
  channel_kind_index : gmap (CommunityId * IndexKey) (list Candidate);
  channel_wildcard_index : gmap (CommunityId * Uuid) (list Candidate);
  global_kind_index : gmap (CommunityId * Z) (list Candidate);
  global_p_kind_index : gmap GlobalPKindIndexKey (list Candidate);
  global_wildcard_index : gmap CommunityId (list Candidate);
  (** the [buzz_subscriptions_active] gauge *)
  subscriptions_active : Z
}.

Definition registry_new : SubscriptionRegistry := mkRegistry ∅ ∅ ∅ ∅ ∅ ∅ 0.

Definition set_subs f r := mkRegistry (f (subs r)) (channel_kind_index r)
  (channel_wildcard_index r) (global_kind_index r) (global_p_kind_index r)
  (global_wildcard_index r) (subscriptions_active r).
Definition set_channel_kind f r := mkRegistry (subs r) (f (channel_kind_index r))
  (channel_wildcard_index r) (global_kind_index r) (global_p_kind_index r)
  (global_wildcard_index r) (subscriptions_active r).
Definition set_channel_wildcard f r := mkRegistry (subs r) (channel_kind_index r)
  (f (channel_wildcard_index r)) (global_kind_index r) (global_p_kind_index r)
  (global_wildcard_index r) (subscriptions_active r).
Definition set_global_kind f r := mkRegistry (subs r) (channel_kind_index r)
  (channel_wildcard_index r) (f (global_kind_index r)) (global_p_kind_index r)
  (global_wildcard_index r) (subscriptions_active r).
Definition set_global_p_kind f r := mkRegistry (subs r) (channel_kind_index r)
  (channel_wildcard_index r) (global_kind_index r) (f (global_p_kind_index r))
  (global_wildcard_index r) (subscriptions_active r).
Definition set_global_wildcard f r := mkRegistry (subs r) (channel_kind_index r)
  (channel_wildcard_index r) (global_kind_index r) (global_p_kind_index r)
  (f (global_wildcard_index r)) (subscriptions_active r).
Definition add_gauge d r := mkRegistry (subs r) (channel_kind_index r)
  (channel_wildcard_index r) (global_kind_index r) (global_p_kind_index r)
  (global_wildcard_index r) (subscriptions_active r + d).

(** * Keys of a subscription *)

(** [for x in xs { if seen.insert(x) { out.push(x) } }]; [seen] holds exactly the
    elements pushed so far. *)
Definition push_new {B : Type} `{EqDecision B} (out : list B) (x : B) : list B :=
  if decide (x ∈ out) then out else out ++ [x].

Fixpoint extract_kinds_loop (filters : list Filter) (kinds : list Z) : option (list Z) :=
  match filters with
  | [] => Some kinds
  | f :: rest =>
      match f_kinds f with
      | Some filter_kinds => extract_kinds_loop rest (foldl push_new kinds filter_kinds)
      | None => None
      end
  end.

Definition extract_kinds_from_filters (filters : list Filter) : option (list Z) :=
  extract_kinds_loop filters [].

Section registry.
Context `{A : NostrApi} `{HI : HashIter}.

Definition p_tag : SingleLetterTag := slt_lowercase "p".

Fixpoint extract_p_loop (community_id : CommunityId) (filters : list Filter)
    (keys : list GlobalPKindIndexKey) : option (list GlobalPKindIndexKey) :=
  match filters with
  | [] => Some keys
  | filter :: rest =>
      match f_kinds filter with
      | None => None
      | Some [] => extract_p_loop community_id rest keys
      | Some kinds =>
          match f_generic_tags filter !! p_tag with
          | None => None
          | Some [] => None
          | Some p_values =>
              extract_p_loop community_id rest
                (foldl push_new keys
                   (kind ← kinds; p ← p_values; [(community_id, kind, p)]))
          end
      end
  end.

Definition extract_global_p_kind_index_keys (community_id : CommunityId)
    (filters : list Filter) : option (list GlobalPKindIndexKey) :=
  extract_p_loop community_id filters [].

Fixpoint event_p_loop (tags : list Tag) (values : list string) : list string :=
  match tags with
  | [] => values
  | tag :: rest =>
      if negb (String.eqb (tag_kind tag) "p") then event_p_loop rest values
      else match tag_content tag with
           | Some value => event_p_loop rest (push_new values value)
           | None => event_p_loop rest values
           end
  end.

Definition event_p_tag_values (event : StoredEvent) : list string :=
  event_p_loop (ev_tags (se_event event)) [].

(** * Indexing *)

(** The index updates of [register_scoped], after the insertion into [subs]. *)
Definition index_subscription (community_id : CommunityId) (conn_id : ConnId)
    (sub_id : SubId) (filters : list Filter) (channel_id : option Uuid)
    (r : SubscriptionRegistry) : SubscriptionRegistry :=
  match channel_id with
  | Some ch_id =>
      match extract_kinds_from_filters filters with
      | None =>
          set_channel_wildcard (entry_push (community_id, ch_id) (conn_id, sub_id)) r
      | Some [] => r
      | Some kinds =>
          foldl (fun r kind =>
                   set_channel_kind
                     (entry_push (community_id, (ch_id, kind)) (conn_id, sub_id)) r)
            r kinds
      end
  | None =>
      match extract_global_p_kind_index_keys community_id filters with
      | Some keys =>
          foldl (fun r key => set_global_p_kind (entry_push key (conn_id, sub_id)) r) r keys
      | None =>
          match extract_kinds_from_filters filters with
          | None => set_global_wildcard (entry_push community_id (conn_id, sub_id)) r
          | Some [] => r
          | Some kinds =>
              foldl (fun r kind =>
                       set_global_kind (entry_push (community_id, kind) (conn_id, sub_id)) r)
                r kinds
          end
      end
  end.

(** [entries.retain(|(cid, sid)| !(cid == conn_id && sid == sub_id))] and the removal
    of a list that becomes empty. *)
Definition drop_candidate {K : Type} `{Countable K} (conn_id : ConnId) (sub_id : SubId)
    (k : K) (m : gmap K (list Candidate)) : gmap K (list Candidate) :=
  entry_retain (fun c => negb ((fst c =? conn_id)%N && String.eqb (snd c) sub_id)) k m.

Definition remove_from_index (conn_id : ConnId) (sub_id : SubId) (filters : list Filter)
    (community_id : CommunityId) (channel_id : option Uuid) (r : SubscriptionRegistry)
  : SubscriptionRegistry :=
  match channel_id with
  | Some ch_id =>
      match extract_kinds_from_filters filters with
      | None => set_channel_wildcard (drop_candidate conn_id sub_id (community_id, ch_id)) r
      | Some [] => r
      | Some kinds =>
          foldl (fun r kind =>
                   set_channel_kind
                     (drop_candidate conn_id sub_id (community_id, (ch_id, kind))) r)
            r kinds
      end
  | None =>
      match extract_global_p_kind_index_keys community_id filters with
      | Some keys =>
          foldl (fun r key => set_global_p_kind (drop_candidate conn_id sub_id key) r) r keys
      | None =>
          match extract_kinds_from_filters filters with
          | None => set_global_wildcard (drop_candidate conn_id sub_id community_id) r
          | Some [] => r
          | Some kinds =>
              foldl (fun r kind =>
                       set_global_kind (drop_candidate conn_id sub_id (community_id, kind)) r)
                r kinds
          end
      end
  end.

(** * Methods *)

(** The entry of one subscription, if any. *)
Definition get_entry (conn_id : ConnId) (sub_id : SubId) (r : SubscriptionRegistry)
  : option SubEntry :=
  conn_subs ← subs r !! conn_id; conn_subs !! sub_id.

(** [remove_subscription_inner] with a hook that does nothing.  The connection's map
    stays in [subs] when its last subscription goes. *)
Definition remove_subscription (conn_id : ConnId) (sub_id : SubId)
    (r : SubscriptionRegistry) : SubscriptionRegistry * option RemovedSubscription :=
  match subs r !! conn_id with
  | None => (r, None)
  | Some conn_subs =>
      match conn_subs !! sub_id with
      | None => (r, None)
      | Some e =>
          let r := set_subs (insert conn_id (delete sub_id conn_subs)) r in
          let r := remove_from_index conn_id sub_id (en_filters e) (en_community e)
                     (en_channel e) r in
          (add_gauge (-1) r, Some (mkRemoved (en_community e) (en_channel e)))
      end
  end.

Definition register_scoped (community_id : CommunityId) (conn_id : ConnId)
    (sub_id : SubId) (filters : list Filter) (channel_id : option Uuid)
    (r : SubscriptionRegistry) : SubscriptionRegistry * option RemovedSubscription :=
  let (r, removed) := remove_subscription conn_id sub_id r in
  let r := set_subs (fun s => <[conn_id :=
             <[sub_id := mkEntry filters community_id channel_id]>
               (default ∅ (s !! conn_id))]> s) r in
  let r := add_gauge 1 r in
  (index_subscription community_id conn_id sub_id filters channel_id r, removed).

Definition remove_connection (conn_id : ConnId) (r : SubscriptionRegistry)
  : SubscriptionRegistry * list RemovedSubscription :=
  match subs r !! conn_id with
  | None => (r, [])
  | Some conn_subs =>
      let r := set_subs (delete conn_id) r in
      let step := fun '(r, removed) '(sub_id, e) =>
        (remove_from_index conn_id sub_id (en_filters e) (en_community e) (en_channel e) r,
         removed ++ [mkRemoved (en_community e) (en_channel e)]) in
      let (r, removed) := foldl step (r, []) (hash_iter conn_subs) in
      (add_gauge (- Z.of_nat (size conn_subs)) r, removed)
  end.

Definition remove_channel_subscriptions_scoped (community_id : CommunityId)
    (conn_id : ConnId) (channel_id : Uuid) (r : SubscriptionRegistry)
  : SubscriptionRegistry * list (SubId * RemovedSubscription) :=
  let sub_ids :=
    match subs r !! conn_id with
    | None => []
    | Some conn_subs =>
        omap (fun '(sub_id, e) =>
                if bool_decide (en_community e = community_id)
                   && bool_decide (en_channel e = Some channel_id)
                then Some sub_id else None)
          (hash_iter conn_subs)
    end in
  foldl (fun '(r, out) sub_id =>
           let (r, removed) := remove_subscription conn_id sub_id r in
           (r, match removed with Some x => out ++ [(sub_id, x)] | None => out end))
    (r, []) sub_ids.

Definition channel_subscriber_conns_scoped (community_id : CommunityId) (channel_id : Uuid)
    (r : SubscriptionRegistry) : gset ConnId :=
  list_to_set
    (flat_map (fun '((c, (ch, _)), l) =>
                 if bool_decide (c = community_id) && bool_decide (ch = channel_id)
                 then l.*1 else [])
       (hash_iter (channel_kind_index r)))
  ∪ list_to_set (entries (community_id, channel_id) (channel_wildcard_index r)).*1.

(** [results] and [seen], threaded through [push_match]; [seen] holds the elements of
    [results]. *)
Definition push_match (r : SubscriptionRegistry) (community_id : CommunityId)
    (event : StoredEvent) (results : list Candidate) (c : Candidate) : list Candidate :=
  let (conn_id, sub_id) := c in
  match subs r !! conn_id with
  | None => results
  | Some conn_subs =>
      match conn_subs !! sub_id with
      | None => results
      | Some e =>
          if bool_decide (en_community e = community_id)
             && bool_decide (en_channel e = se_channel_id event)
             && filters_match (en_filters e) event
          then push_new results (conn_id, sub_id)
          else results
      end
  end.

Definition fan_out_scoped (community_id : CommunityId) (event : StoredEvent)
    (r : SubscriptionRegistry) : list Candidate :=
  let push := foldl (push_match r community_id event) in
  let kind := ev_kind (se_event event) in
  match se_channel_id event with
  | Some channel_id =>
      let results :=
        push [] (entries (community_id, (channel_id, kind)) (channel_kind_index r)) in
      push results (entries (community_id, channel_id) (channel_wildcard_index r))
  | None =>
      let results :=
        foldl (fun results p =>
                 push results (entries (community_id, kind, p) (global_p_kind_index r)))
          [] (event_p_tag_values event) in
      let results := push results (entries (community_id, kind) (global_kind_index r)) in
      push results (entries community_id (global_wildcard_index r))
  end.

Definition get_filters (conn_id : ConnId) (sub_id : SubId) (r : SubscriptionRegistry)
  : option (list Filter) :=
  conn_subs ← subs r !! conn_id; en_filters <$> conn_subs !! sub_id.

Definition total_subscriptions (r : SubscriptionRegistry) : nat :=
  sum_list (map (fun '(_, conn_subs) => size conn_subs) (hash_iter (subs r))).

Definition total_connections (r : SubscriptionRegistry) : nat := size (subs r).

Definition per_community_subscriptions (r : SubscriptionRegistry) : gmap CommunityId nat :=
  foldl (fun counts '(_, conn_subs) =>
           foldl (fun counts '(_, e) =>
                    <[en_community e := S (default 0%nat (counts !! en_community e))]> counts)
             counts (hash_iter conn_subs))
    ∅ (hash_iter (subs r)).

(** * Slots: one name for the positions of the five indexes *)

Inductive Slot :=
| SChannelKind (c : CommunityId) (ch : Uuid) (k : Z)
| SChannelWildcard (c : CommunityId) (ch : Uuid)
| SGlobalKind (c : CommunityId) (k : Z)
| SGlobalP (key : GlobalPKindIndexKey)
| SGlobalWildcard (c : CommunityId).

#[export] Instance Slot_eq_dec : EqDecision Slot.
Proof. solve_decision. Defined.

Definition slot_list (r : SubscriptionRegistry) (s : Slot) : list Candidate :=
  match s with
  | SChannelKind c ch k => entries (c, (ch, k)) (channel_kind_index r)
  | SChannelWildcard c ch => entries (c, ch) (channel_wildcard_index r)
  | SGlobalKind c k => entries (c, k) (global_kind_index r)
  | SGlobalP key => entries key (global_p_kind_index r)
  | SGlobalWildcard c => entries c (global_wildcard_index r)
  end.

Definition slot_push (x : Candidate) (r : SubscriptionRegistry) (s : Slot)
  : SubscriptionRegistry :=
  match s with
  | SChannelKind c ch k => set_channel_kind (entry_push (c, (ch, k)) x) r
  | SChannelWildcard c ch => set_channel_wildcard (entry_push (c, ch) x) r
  | SGlobalKind c k => set_global_kind (entry_push (c, k) x) r
  | SGlobalP key => set_global_p_kind (entry_push key x) r
  | SGlobalWildcard c => set_global_wildcard (entry_push c x) r
  end.

Definition slot_drop (x : Candidate) (r : SubscriptionRegistry) (s : Slot)
  : SubscriptionRegistry :=
  match s with
  | SChannelKind c ch k => set_channel_kind (drop_candidate x.1 x.2 (c, (ch, k))) r
  | SChannelWildcard c ch => set_channel_wildcard (drop_candidate x.1 x.2 (c, ch)) r
  | SGlobalKind c k => set_global_kind (drop_candidate x.1 x.2 (c, k)) r
  | SGlobalP key => set_global_p_kind (drop_candidate x.1 x.2 key) r
  | SGlobalWildcard c => set_global_wildcard (drop_candidate x.1 x.2 c) r
  end.

(** The slots a subscription is indexed under. *)
Definition entry_slots (e : SubEntry) : list Slot :=
  match en_channel e with
  | Some ch =>
      match extract_kinds_from_filters (en_filters e) with
      | None => [SChannelWildcard (en_community e) ch]
      | Some kinds => SChannelKind (en_community e) ch <$> kinds
      end
  | None =>
      match extract_global_p_kind_index_keys (en_community e) (en_filters e) with
      | Some keys => SGlobalP <$> keys
      | None =>
          match extract_kinds_from_filters (en_filters e) with
          | None => [SGlobalWildcard (en_community e)]
          | Some kinds => SGlobalKind (en_community e) <$> kinds
          end
      end
  end.

(** The slots fan-out reads for an event, in order. *)
Definition event_slots (community_id : CommunityId) (event : StoredEvent) : list Slot :=
  let kind := ev_kind (se_event event) in
  match se_channel_id event with
  | Some ch => [SChannelKind community_id ch kind; SChannelWildcard community_id ch]
  | None =>
      ((fun p => SGlobalP (community_id, kind, p)) <$> event_p_tag_values event)
      ++ [SGlobalKind community_id kind; SGlobalWildcard community_id]
  end.

Lemma foldl_fmap {X Y Z : Type} (f : X -> Y -> X) (g : Z -> Y) (l : list Z) (x : X) :
  foldl f x (g <$> l) = foldl (fun x z => f x (g z)) x l.
Proof. revert x. by induction l; simpl. Qed.

Lemma index_subscription_slots comm conn sub filters ch r :
  index_subscription comm conn sub filters ch r =
  foldl (slot_push (conn, sub)) r (entry_slots (mkEntry filters comm ch)).
Proof.
  unfold index_subscription, entry_slots; simpl.
  destruct ch as [ch|].
  - destruct (extract_kinds_from_filters filters) as [[|k ks]|]; [done| |done].
    by rewrite foldl_fmap.
  - destruct (extract_global_p_kind_index_keys comm filters) as [keys|].
    + by rewrite foldl_fmap.
    + destruct (extract_kinds_from_filters filters) as [[|k ks]|]; [done| |done].
      by rewrite foldl_fmap.
Qed.

Lemma remove_from_index_slots conn sub e r :
  remove_from_index conn sub (en_filters e) (en_community e) (en_channel e) r =
  foldl (slot_drop (conn, sub)) r (entry_slots e).
Proof.
  unfold remove_from_index, entry_slots; simpl.
  destruct (en_channel e) as [ch|].
  - destruct (extract_kinds_from_filters (en_filters e)) as [[|k ks]|]; [done| |done].
    by rewrite foldl_fmap.
  - destruct (extract_global_p_kind_index_keys _ _) as [keys|].
    + by rewrite foldl_fmap.
    + destruct (extract_kinds_from_filters (en_filters e)) as [[|k ks]|]; [done| |done].
      by rewrite foldl_fmap.
Qed.

Lemma slot_list_push x r s s' :
  slot_list (slot_push x r s) s' =
  if decide (s = s') then slot_list r s ++ [x] else slot_list r s'.
Proof.
  destruct s, s'; cbn [slot_list slot_push set_channel_kind set_channel_wildcard
    set_global_kind set_global_p_kind set_global_wildcard channel_kind_index
    channel_wildcard_index global_kind_index global_p_kind_index global_wildcard_index];
    try (by rewrite decide_False);
    rewrite entries_push; repeat case_decide; naive_solver.
Qed.

Lemma drop_filter {K : Type} `{Countable K} (x : Candidate) (k : K) m k' :
  entries k' (drop_candidate x.1 x.2 k m) =
  if decide (k = k') then filter (fun y => y <> x) (entries k m) else entries k' m.
Proof.
  unfold drop_candidate. rewrite entries_retain. case_decide; [|done].
  apply list_filter_iff. intros [c sb]. destruct x as [c' sb']; simpl.
  rewrite negb_true_iff, andb_false_iff, N.eqb_neq, String.eqb_neq.
  destruct (decide (c = c')), (decide (sb = sb')); naive_solver.
Qed.

Lemma slot_list_drop x r s s' :
  slot_list (slot_drop x r s) s' =
  if decide (s = s') then filter (fun y => y <> x) (slot_list r s) else slot_list r s'.
Proof.
  destruct s, s'; cbn [slot_list slot_drop set_channel_kind set_channel_wildcard
    set_global_kind set_global_p_kind set_global_wildcard channel_kind_index
    channel_wildcard_index global_kind_index global_p_kind_index global_wildcard_index];
    try (by rewrite decide_False);
    rewrite drop_filter; repeat case_decide; naive_solver.
Qed.

Lemma subs_push_all x r ss : subs (foldl (slot_push x) r ss) = subs r.
Proof. revert r. induction ss as [|s ss IH]; [done|]. intros r; simpl. rewrite IH. by destruct s. Qed.

Lemma subs_drop_all x r ss : subs (foldl (slot_drop x) r ss) = subs r.
Proof. revert r. induction ss as [|s ss IH]; [done|]. intros r; simpl. rewrite IH. by destruct s. Qed.

Lemma gauge_push_all x r ss :
  subscriptions_active (foldl (slot_push x) r ss) = subscriptions_active r.
Proof. revert r. induction ss as [|s ss IH]; [done|]. intros r; simpl. rewrite IH. by destruct s. Qed.

Lemma gauge_drop_all x r ss :
  subscriptions_active (foldl (slot_drop x) r ss) = subscriptions_active r.
Proof. revert r. induction ss as [|s ss IH]; [done|]. intros r; simpl. rewrite IH. by destruct s. Qed.

Lemma slot_list_push_all x ss r s' :
  NoDup ss ->
  slot_list (foldl (slot_push x) r ss) s' =
  if decide (s' ∈ ss) then slot_list r s' ++ [x] else slot_list r s'.
Proof.
  revert r. induction ss as [|s ss IH]; intros r Hnd; simpl.
  { done. }
  apply NoDup_cons in Hnd as [Hs Hnd]. rewrite IH by done. rewrite slot_list_push.
  destruct (decide (s = s')) as [->|Hne].
  - rewrite decide_False by done. by rewrite decide_True by (by left).
  - destruct (decide (s' ∈ ss)); [rewrite decide_True by (by right)|rewrite decide_False]; set_solver.
Qed.

Lemma elem_of_drop_all x ss r s' y :
  y ∈ slot_list (foldl (slot_drop x) r ss) s' <->
  y ∈ slot_list r s' /\ (y = x -> s' ∉ ss).
Proof.
  revert r. induction ss as [|s ss IH]; intros r; simpl; [set_solver|].
  rewrite IH, slot_list_drop. case_decide; [subst; rewrite list_elem_of_filter|]; set_solver.
Qed.

Lemma NoDup_drop_all x ss r s' :
  NoDup (slot_list r s') -> NoDup (slot_list (foldl (slot_drop x) r ss) s').
Proof.
  revert r. induction ss as [|s ss IH]; intros r Hnd; simpl; [done|].
  apply IH. rewrite slot_list_drop. case_decide; [subst; by apply NoDup_filter|done].
Qed.

(** * The extracted keys *)

Lemma NoDup_push_new {B : Type} `{EqDecision B} (l : list B) x :
  NoDup l -> NoDup (push_new l x).
Proof.
  intros Hl. unfold push_new. case_decide; [done|].
  apply NoDup_app. split_and!; [done|set_solver|apply NoDup_singleton].
Qed.

Lemma elem_of_push_new {B : Type} `{EqDecision B} (l : list B) x y :
  y ∈ push_new l x <-> y ∈ l \/ y = x.
Proof. unfold push_new. case_decide; set_solver. Qed.

Lemma NoDup_push_all {B : Type} `{EqDecision B} (xs l : list B) :
  NoDup l -> NoDup (foldl push_new l xs).
Proof. revert l. induction xs as [|x xs IH]; simpl; auto using NoDup_push_new. Qed.

Lemma elem_of_push_all {B : Type} `{EqDecision B} (xs l : list B) y :
  y ∈ foldl push_new l xs <-> y ∈ l \/ y ∈ xs.
Proof.
  revert l. induction xs as [|x xs IH]; intros l; simpl; [set_solver|].
  rewrite IH, elem_of_push_new. set_solver.
Qed.

Lemma extract_kinds_loop_spec filters kinds out :
  extract_kinds_loop filters kinds = Some out ->
  (NoDup kinds -> NoDup out) /\
  forall k, k ∈ out <-> k ∈ kinds \/ exists f ks, f ∈ filters /\ f_kinds f = Some ks /\ k ∈ ks.
Proof.
  revert kinds. induction filters as [|f filters IH]; intros kinds; simpl.
  { intros [= <-]. split; [done|]. intros k. split; [by left|].
    intros [?|(f & ks & Hf & _)]; [done|]. by apply not_elem_of_nil in Hf. }
  destruct (f_kinds f) as [ks|] eqn:Hk; [|done].
  intros [Hnd Hin]%IH. split; [eauto using NoDup_push_all|].
  intros k. rewrite Hin, elem_of_push_all. split.
  - intros [[?|?]|(f' & ks' & ? & ? & ?)]; [by left| |]; right.
    + exists f, ks. set_solver.
    + exists f', ks'. set_solver.
  - intros [?|(f' & ks' & Hf' & Hks & Hin')]; [by left; left|].
    apply elem_of_cons in Hf' as [->|Hf']; [left; right; congruence|].
    right. eauto.
Qed.


(** A filter the [#p] index can serve: it admits a kind only together with a [p]. *)
Definition p_served (comm : CommunityId) (f : Filter) (keys : list GlobalPKindIndexKey) :=
  exists ks, f_kinds f = Some ks /\
    (ks = [] \/ exists ps, f_generic_tags f !! p_tag = Some ps /\
       forall k v, k ∈ ks -> v ∈ ps -> (comm, k, v) ∈ keys).

Lemma extract_p_loop_spec comm filters keys out :
  extract_p_loop comm filters keys = Some out ->
  (NoDup keys -> NoDup out) /\ (forall key, key ∈ keys -> key ∈ out) /\
  forall f, f ∈ filters -> p_served comm f out.
Proof.
  revert keys. induction filters as [|f filters IH]; intros keys; cbn [extract_p_loop].
  { intros [= <-]. split_and!; [done|done|]. intros f Hf. by apply not_elem_of_nil in Hf. }
  destruct (f_kinds f) as [[|k ks]|] eqn:Hk; [| |done].
  - intros (Hnd & Hin & Hf)%IH. split_and!; [done|done|].
    intros f' [->|Hf']%elem_of_cons; [|by apply Hf]. exists []. auto.
  - destruct (f_generic_tags f !! p_tag) as [[|p ps]|] eqn:Hp; [done| |done].
    intros (Hnd & Hin & Hf)%IH.
    split_and!; [eauto using NoDup_push_all|intros key ?; apply Hin, elem_of_push_all; by left|].
    intros f' [->|Hf']%elem_of_cons; [|by apply Hf].
    exists (k :: ks). split; [done|]. right. exists (p :: ps). split; [done|].
    intros k' v Hk' Hv. apply Hin, elem_of_push_all. right.
    apply list_elem_of_bind. exists k'. split; [|done].
    apply list_elem_of_bind. exists v. split; [by apply list_elem_of_singleton|done].
Qed.

Lemma event_p_loop_elem tags values v :
  v ∈ event_p_loop tags values <->
  v ∈ values \/ exists t, t ∈ tags /\ tag_kind t = "p" /\ tag_content t = Some v.
Proof.
  revert values. induction tags as [|t tags IH]; intros values; cbn [event_p_loop].
  { set_solver. }
  destruct (String.eqb_spec (tag_kind t) "p") as [Ht|Ht]; cbn [negb].
  - destruct (tag_content t) as [c|] eqn:Hc; rewrite IH, ?elem_of_push_new;
      setoid_rewrite elem_of_cons; naive_solver.
  - rewrite IH. setoid_rewrite elem_of_cons. naive_solver.
Qed.

Lemma elem_of_event_p_tag_values ev v :
  v ∈ event_p_tag_values ev <-> tagged (se_event ev) "p" v.
Proof.
  unfold event_p_tag_values. rewrite event_p_loop_elem. unfold tagged.
  rewrite elem_of_nil. naive_solver.
Qed.

Lemma NoDup_entry_slots e : NoDup (entry_slots e).
Proof.
  unfold entry_slots. destruct (en_channel e) as [ch|].
  - destruct (extract_kinds_from_filters _) as [ks|] eqn:Hks; [|apply NoDup_singleton].
    apply extract_kinds_loop_spec in Hks as [Hnd _].
    apply NoDup_fmap_2; [intros ? ? [=]; done|]. by apply Hnd, NoDup_nil.
  - destruct (extract_global_p_kind_index_keys _ _) as [ks|] eqn:Hp.
    { apply extract_p_loop_spec in Hp as [Hnd _].
      apply NoDup_fmap_2; [intros ? ? [=]; done|]. by apply Hnd, NoDup_nil. }
    destruct (extract_kinds_from_filters _) as [ks|] eqn:Hks; [|apply NoDup_singleton].
    apply extract_kinds_loop_spec in Hks as [Hnd _].
    apply NoDup_fmap_2; [intros ? ? [=]; done|]. by apply Hnd, NoDup_nil.
Qed.

(** * Fan-out as one pass over the slots of the event *)

(** A subscription that must receive the event. *)
Definition receives (r : SubscriptionRegistry) (comm : CommunityId) (ev : StoredEvent)
    (c : Candidate) : Prop :=
  exists e, get_entry c.1 c.2 r = Some e /\ en_community e = comm /\
    en_channel e = se_channel_id ev /\ filters_match (en_filters e) ev = true.

Lemma fan_out_slots comm ev r :
  fan_out_scoped comm ev r =
  foldl (push_match r comm ev) [] (event_slots comm ev ≫= slot_list r).
Proof.
  unfold fan_out_scoped, event_slots. destruct (se_channel_id ev) as [ch|].
  - change ([SChannelKind comm ch (ev_kind (se_event ev)); SChannelWildcard comm ch]
      ≫= slot_list r) with
      (entries (comm, (ch, ev_kind (se_event ev))) (channel_kind_index r)
       ++ entries (comm, ch) (channel_wildcard_index r) ++ []).
    by rewrite app_nil_r, foldl_app.
  - rewrite bind_app, foldl_app.
    change ([SGlobalKind comm (ev_kind (se_event ev)); SGlobalWildcard comm]
      ≫= slot_list r) with
      (entries (comm, ev_kind (se_event ev)) (global_kind_index r)
       ++ entries comm (global_wildcard_index r) ++ []).
    rewrite app_nil_r, foldl_app. do 2 f_equal.
    generalize (@nil Candidate). induction (event_p_tag_values ev) as [|p ps IH]; intros l; [done|].
    rewrite fmap_cons, bind_cons, foldl_app. cbn [foldl]. apply IH.
Qed.

Lemma push_match_elem r comm ev results c y :
  y ∈ push_match r comm ev results c <-> y ∈ results \/ (y = c /\ receives r comm ev c).
Proof.
  destruct c as [conn sub]. unfold push_match, receives, get_entry; cbn [fst snd].
  destruct (subs r !! conn) as [cs|]; [|set_solver].
  cbn [mbind option_bind]. destruct (cs !! sub) as [e|]; [|set_solver].
  destruct (bool_decide _ && bool_decide _ && _) eqn:Hb.
  - rewrite elem_of_push_new.
    rewrite !andb_true_iff, !bool_decide_eq_true in Hb. naive_solver.
  - split; [by left|]. intros [?|(-> & e' & [= <-] & Hc & Hch & Hm)]; [done|].
    rewrite Hm, !bool_decide_true in Hb by done. done.
Qed.

Lemma push_match_all_elem r comm ev cs results y :
  y ∈ foldl (push_match r comm ev) results cs <->
  y ∈ results \/ (y ∈ cs /\ receives r comm ev y).
Proof.
  revert results. induction cs as [|c cs IH]; intros results; cbn [foldl]; [set_solver|].
  rewrite IH, push_match_elem, elem_of_cons. naive_solver.
Qed.

Lemma NoDup_push_match_all r comm ev cs results :
  NoDup results -> NoDup (foldl (push_match r comm ev) results cs).
Proof.
  revert results. induction cs as [|[conn sub] cs IH]; intros results Hnd; cbn [foldl]; [done|].
  apply IH. unfold push_match. repeat case_match; auto using NoDup_push_new.
Qed.

(** A subscription that must receive an event is indexed under one of the slots
    fan-out reads for it. *)
Lemma slots_cover `{L : !NostrLaws A} e ev :
  en_channel e = se_channel_id ev -> filters_match (en_filters e) ev = true ->
  exists s, s ∈ entry_slots e /\ s ∈ event_slots (en_community e) ev.
Proof.
  intros Hch Hm. apply existsb_elem_of in Hm as (f & Hf & Hm).
  unfold filter_match_one in Hm. rewrite !andb_true_iff in Hm.
  destruct Hm as [[[[[Hkind _] _] _] _] Htags].
  assert (Hks : forall ks, extract_kinds_from_filters (en_filters e) = Some ks ->
                  ev_kind (se_event ev) ∈ ks).
  { intros ks Hks. destruct (f_kinds f) as [fks|] eqn:Hfk.
    - apply extract_kinds_loop_spec in Hks as [_ Hin]. apply Hin. right.
      exists f, fks. by apply bool_decide_eq_true in Hkind.
    - exfalso. clear -Hks Hf Hfk. unfold extract_kinds_from_filters in Hks.
      revert Hks. generalize (@nil Z). induction (en_filters e) as [|g fs IH];
        [by apply not_elem_of_nil in Hf|].
      intros l. cbn [extract_kinds_loop]. apply elem_of_cons in Hf as [->|Hf]; [by rewrite Hfk|].
      destruct (f_kinds g); [by apply IH|done]. }
  unfold entry_slots, event_slots. rewrite <-Hch. destruct (en_channel e) as [ch|].
  - destruct (extract_kinds_from_filters _) as [ks|]; [|set_solver].
    exists (SChannelKind (en_community e) ch (ev_kind (se_event ev))).
    split; [|set_solver]. apply list_elem_of_fmap. eauto.
  - destruct (extract_global_p_kind_index_keys _ _) as [keys|] eqn:Hp.
    + apply extract_p_loop_spec in Hp as (_ & _ & Hserved).
      destruct (Hserved f Hf) as (ks & Hfk & Hps). rewrite Hfk in Hkind.
      apply bool_decide_eq_true in Hkind.
      destruct Hps as [->|(ps & Hps & Hkeys)]; [by apply not_elem_of_nil in Hkind|].
      rewrite forallb_elem_of in Htags.
      specialize (Htags (p_tag, ps)). rewrite elem_of_map_to_list in Htags.
      specialize (Htags Hps). apply generic_tag_ok_true in Htags as (v & Hv & Hsat).
      unfold p_tag in Hsat. rewrite slt_lowercase_to_string in Hsat.
      destruct Hsat as [Htag|[? _]]; [|done].
      exists (SGlobalP (en_community e, ev_kind (se_event ev), v)). split.
      * apply list_elem_of_fmap. eauto.
      * apply elem_of_app. left. apply list_elem_of_fmap. exists v.
        split; [done|]. by apply elem_of_event_p_tag_values.
    + destruct (extract_kinds_from_filters _) as [ks|]; [|set_solver].
      exists (SGlobalKind (en_community e) (ev_kind (se_event ev))).
      split; [|set_solver]. apply list_elem_of_fmap. eauto.
Qed.

(** * The invariant of the reachable registries *)

(** The raw value stored for a slot. *)
Definition slot_stored (r : SubscriptionRegistry) (s : Slot) : option (list Candidate) :=
  match s with
  | SChannelKind c ch k => channel_kind_index r !! (c, (ch, k))
  | SChannelWildcard c ch => channel_wildcard_index r !! (c, ch)
  | SGlobalKind c k => global_kind_index r !! (c, k)
  | SGlobalP key => global_p_kind_index r !! key
  | SGlobalWildcard c => global_wildcard_index r !! c
  end.

Record registry_wf (r : SubscriptionRegistry) : Prop := {
  wf_index : forall s c, c ∈ slot_list r s <->
    exists e, get_entry c.1 c.2 r = Some e /\ s ∈ entry_slots e;
  wf_nodup : forall s, NoDup (slot_list r s);
  wf_stored : forall s, slot_stored r s <> Some [];
  wf_gauge : subscriptions_active r = Z.of_nat (total_subscriptions r)
}.

Lemma entry_push_stored {K : Type} `{Countable K} (k : K) (x : Candidate) m k' :
  m !! k' <> Some [] -> entry_push k x m !! k' <> Some [].
Proof.
  intros Hm. unfold entry_push. rewrite lookup_insert. case_decide; [|done].
  by destruct (entries k m).
Qed.

Lemma entry_retain_stored {K : Type} `{Countable K} p k (m : gmap K (list Candidate)) k' :
  m !! k' <> Some [] -> entry_retain p k m !! k' <> Some [].
Proof.
  intros Hm. unfold entry_retain. destruct (m !! k) as [l|]; [|done].
  destruct (filter _ l).
  - rewrite lookup_delete. by case_decide.
  - rewrite lookup_insert. by case_decide.
Qed.

Lemma push_all_stored x ss r s :
  slot_stored r s <> Some [] -> slot_stored (foldl (slot_push x) r ss) s <> Some [].
Proof.
  revert r. induction ss as [|s' ss IH]; intros r Hr; cbn [foldl]; [done|]. apply IH.
  destruct s, s'; try exact Hr; by apply entry_push_stored.
Qed.

Lemma drop_all_stored x ss r s :
  slot_stored r s <> Some [] -> slot_stored (foldl (slot_drop x) r ss) s <> Some [].
Proof.
  revert r. induction ss as [|s' ss IH]; intros r Hr; cbn [foldl]; [done|]. apply IH.
  destruct s, s'; try exact Hr; by apply entry_retain_stored.
Qed.

(** Totals over [subs]. *)
Definition subs_total (m : gmap ConnId (gmap SubId SubEntry)) : nat :=
  sum_list (map (fun '(_, cs) => size cs) (hash_iter m)).

Lemma sum_list_perm (l l' : list nat) : l ≡ₚ l' -> sum_list l = sum_list l'.
Proof. induction 1; simpl; lia. Qed.

Lemma subs_total_alt m :
  subs_total m = sum_list (map (fun '(_, cs) => size cs) (map_to_list m)).
Proof. apply sum_list_perm, Permutation_map, hash_iter_perm. Qed.

Lemma subs_total_delete m conn cs :
  m !! conn = Some cs -> subs_total m = (size cs + subs_total (delete conn m))%nat.
Proof.
  intros Hc. rewrite !subs_total_alt.
  by rewrite (sum_list_perm _ _ (Permutation_map _ (symmetry (map_to_list_delete m conn cs Hc)))).
Qed.

Lemma subs_total_insert m conn cs :
  subs_total (<[conn := cs]> m) = (size cs + subs_total (delete conn m))%nat.
Proof.
  rewrite (subs_total_delete _ conn cs) by apply lookup_insert_eq.
  by rewrite delete_insert_eq.
Qed.

Lemma get_entry_insert conn cs r c sub :
  get_entry c sub (set_subs (insert conn cs) r) =
  if decide (c = conn) then cs !! sub else get_entry c sub r.
Proof.
  unfold get_entry; cbn [set_subs subs]. rewrite lookup_insert.
  repeat case_decide; by subst.
Qed.

Lemma get_entry_subs r r' c sub : subs r' = subs r -> get_entry c sub r' = get_entry c sub r.
Proof. unfold get_entry. by intros ->. Qed.

Lemma get_entry_drop_all c sub d x ss r :
  get_entry c sub (add_gauge d (foldl (slot_drop x) r ss)) = get_entry c sub r.
Proof. apply get_entry_subs, subs_drop_all. Qed.

Lemma get_entry_push_all c sub x ss r :
  get_entry c sub (foldl (slot_push x) r ss) = get_entry c sub r.
Proof. apply get_entry_subs, subs_push_all. Qed.

(** ** One removal *)

Lemma remove_subscription_removed conn sub r :
  (remove_subscription conn sub r).2 =
  (fun e => mkRemoved (en_community e) (en_channel e)) <$> get_entry conn sub r.
Proof.
  unfold remove_subscription, get_entry. destruct (subs r !! conn) as [cs|]; [|done].
  cbn. by destruct (cs !! sub).
Qed.

Lemma remove_subscription_entry conn sub r c s :
  get_entry c s (remove_subscription conn sub r).1 =
  if decide ((c, s) = (conn, sub)) then None else get_entry c s r.
Proof.
  unfold remove_subscription. destruct (subs r !! conn) as [cs|] eqn:Hcs.
  - destruct (cs !! sub) as [e|] eqn:He; cbn [fst].
    + rewrite remove_from_index_slots.
      rewrite get_entry_drop_all.
      rewrite get_entry_insert. destruct (decide (c = conn)) as [->|Hne].
      * rewrite lookup_delete. unfold get_entry. rewrite Hcs. cbn.
        repeat case_decide; naive_solver.
      * rewrite decide_False by congruence. done.
    + case_decide as Hd; [|done]. injection Hd as -> ->.
      unfold get_entry; cbn [fst]. rewrite Hcs. cbn. by rewrite He.
  - case_decide as Hd; [|done]. injection Hd as -> ->.
    unfold get_entry; cbn [fst]. by rewrite Hcs.
Qed.

Lemma remove_subscription_wf conn sub r :
  registry_wf r -> registry_wf (remove_subscription conn sub r).1.
Proof.
  intros [Hidx Hnd Hst Hg]. unfold remove_subscription.
  destruct (subs r !! conn) as [cs|] eqn:Hcs; [|by constructor].
  destruct (cs !! sub) as [e|] eqn:He; cbn [fst]; [|by constructor].
  assert (Hget : get_entry conn sub r = Some e) by (unfold get_entry; by rewrite Hcs).
  rewrite remove_from_index_slots. set (r0 := set_subs _ r). constructor.
  - intros s c. change (slot_list (add_gauge _ ?r') s) with (slot_list r' s).
    rewrite elem_of_drop_all. change (slot_list r0 s) with (slot_list r s).
    rewrite Hidx.
    setoid_rewrite get_entry_drop_all. unfold r0.
    setoid_rewrite get_entry_insert. destruct c as [c sb]; cbn [fst snd].
    case_decide as Hc; [subst c; rewrite lookup_delete|].
    + unfold get_entry in *. rewrite Hcs in *. cbn in *. case_decide; naive_solver.
    + naive_solver.
  - intros s. apply NoDup_drop_all, Hnd.
  - intros s. change (slot_stored (add_gauge _ ?r') s) with (slot_stored r' s).
    apply drop_all_stored, Hst.
  - cbn [add_gauge subscriptions_active]. rewrite gauge_drop_all. cbn.
    unfold total_subscriptions. cbn [add_gauge subs]. rewrite subs_drop_all.
    rewrite Hg. cbn [r0 set_subs subs].
    change (Z.of_nat (subs_total (subs r)) + -1
            = Z.of_nat (subs_total (<[conn := delete sub cs]> (subs r)))).
    rewrite subs_total_insert, (subs_total_delete _ _ _ Hcs), (map_size_delete_Some sub cs) by eauto.
    assert (size cs <> 0%nat) by (apply map_size_non_empty_iff; intros ->; done). lia.
Qed.

(** ** Registration *)

Lemma register_scoped_eq comm conn sub fs ch r :
  register_scoped comm conn sub fs ch r =
  let r1 := (remove_subscription conn sub r).1 in
  let e := mkEntry fs comm ch in
  let cs := <[sub := e]> (default ∅ (subs r1 !! conn)) in
  (foldl (slot_push (conn, sub)) (add_gauge 1 (set_subs (insert conn cs) r1)) (entry_slots e),
   (remove_subscription conn sub r).2).
Proof.
  unfold register_scoped. destruct (remove_subscription conn sub r) as [r1 rm]; cbn [fst snd].
  by rewrite index_subscription_slots.
Qed.

Lemma register_scoped_entry comm conn sub fs ch r c s :
  get_entry c s (register_scoped comm conn sub fs ch r).1 =
  if decide ((c, s) = (conn, sub)) then Some (mkEntry fs comm ch) else get_entry c s r.
Proof.
  rewrite register_scoped_eq. cbn [fst]. rewrite get_entry_push_all.
  change (get_entry c s (add_gauge 1 ?r')) with (get_entry c s r').
  rewrite get_entry_insert.
  pose proof (remove_subscription_entry conn sub r c s) as Hrm.
  revert Hrm. generalize ((remove_subscription conn sub r).1). intros r1 Hrm.
  destruct (decide (c = conn)) as [->|Hne].
  - rewrite lookup_insert. repeat case_decide; simplify_eq; try done.
    unfold get_entry at 1 in Hrm. destruct (subs r1 !! conn); cbn in *; [done|].
    by rewrite lookup_empty.
  - rewrite decide_False in * by congruence. done.
Qed.

Lemma register_scoped_wf comm conn sub fs ch r :
  registry_wf r -> registry_wf (register_scoped comm conn sub fs ch r).1.
Proof.
  intros Hwf. pose proof (register_scoped_entry comm conn sub fs ch r) as Hent.
  pose proof (remove_subscription_wf conn sub r Hwf) as [Hidx Hnd Hst Hg].
  pose proof (remove_subscription_entry conn sub r) as Hrm.
  revert Hent. rewrite register_scoped_eq. cbn [fst].
  revert Hidx Hnd Hst Hg Hrm. generalize ((remove_subscription conn sub r).1).
  intros r1 Hidx Hnd Hst Hg Hrm.
  set (e := mkEntry fs comm ch). set (cs := <[sub := e]> _). intros Hent.
  assert (Hfree : forall s, (conn, sub) ∉ slot_list r1 s).
  { intros s (e' & He' & _)%Hidx. cbn [fst snd] in He'.
    by rewrite Hrm, decide_True in He'. }
  set (r2 := add_gauge 1 _) in *.
  assert (Hsl : forall s, slot_list r2 s = slot_list r1 s) by (by intros []).
  constructor.
  - intros s c. rewrite slot_list_push_all by apply NoDup_entry_slots. rewrite Hent.
    rewrite !Hsl. specialize (Hidx s c). specialize (Hrm c.1 c.2).
    destruct c as [c sb]; cbn [fst snd] in *.
    rewrite Hrm in Hidx.
    destruct (decide ((c, sb) = (conn, sub))) as [[= -> ->]|Hne].
    + case_decide; [rewrite elem_of_app, list_elem_of_singleton|]; naive_solver.
    + case_decide; [rewrite elem_of_app, list_elem_of_singleton|]; naive_solver.
  - intros s. rewrite slot_list_push_all by apply NoDup_entry_slots. rewrite !Hsl.
    case_decide; [|done]. apply NoDup_app. split_and!; [done| |apply NoDup_singleton].
    intros x Hx ->%list_elem_of_singleton. by apply (Hfree s).
  - intros s. apply push_all_stored. specialize (Hst s). by destruct s.
  - rewrite gauge_push_all. cbn [r2 add_gauge subscriptions_active set_subs].
    rewrite Hg. unfold total_subscriptions. rewrite subs_push_all.
    cbn [r2 add_gauge subs set_subs].
    change (Z.of_nat (subs_total (subs r1)) + 1
            = Z.of_nat (subs_total (<[conn := cs]> (subs r1)))).
    specialize (Hrm conn sub). rewrite decide_True in Hrm by done. unfold get_entry in Hrm.
    rewrite subs_total_insert. unfold cs.
    destruct (subs r1 !! conn) as [cs1|] eqn:Hcs1; cbn in *.
    + rewrite (subs_total_delete _ _ _ Hcs1). rewrite map_size_insert_None by done. lia.
    + rewrite map_size_insert_None by done.
      rewrite delete_id by done. rewrite map_size_empty. lia.
Qed.

(** ** Removal of a connection *)

Definition connection_step (conn_id : ConnId)
    '((r, removed) : SubscriptionRegistry * list RemovedSubscription)
    '((sub_id, e) : SubId * SubEntry) :=
  (remove_from_index conn_id sub_id (en_filters e) (en_community e) (en_channel e) r,
   removed ++ [mkRemoved (en_community e) (en_channel e)]).

Lemma connection_fold conn l r out :
  let res := foldl (connection_step conn) (r, out) l in
  subs res.1 = subs r /\ subscriptions_active res.1 = subscriptions_active r /\
  res.2 = out ++ ((fun '(_, e) => mkRemoved (en_community e) (en_channel e)) <$> l) /\
  (forall s y, y ∈ slot_list res.1 s <->
     y ∈ slot_list r s /\ forall sub e, (sub, e) ∈ l -> y = (conn, sub) -> s ∉ entry_slots e) /\
  (forall s, NoDup (slot_list r s) -> NoDup (slot_list res.1 s)) /\
  (forall s, slot_stored r s <> Some [] -> slot_stored res.1 s <> Some []).
Proof.
  revert r out. induction l as [|[sub e] l IH]; intros r out.
  { cbn. rewrite app_nil_r. split_and!; try done. intros s y.
    split; [intros ?; split; [done|]|naive_solver]. intros ? ? Hin. by apply not_elem_of_nil in Hin. }
  cbn [foldl connection_step]. rewrite remove_from_index_slots.
  specialize (IH (foldl (slot_drop (conn, sub)) r (entry_slots e))
                (out ++ [mkRemoved (en_community e) (en_channel e)])).
  destruct IH as (Hs & Hg & Hout & Hin & Hnd & Hst). split_and!.
  - rewrite Hs. apply subs_drop_all.
  - rewrite Hg. apply gauge_drop_all.
  - rewrite Hout. by rewrite fmap_cons, <-app_assoc.
  - intros s y. rewrite Hin, elem_of_drop_all. setoid_rewrite elem_of_cons. naive_solver.
  - intros s Hs'. by apply Hnd, NoDup_drop_all.
  - intros s Hs'. by apply Hst, drop_all_stored.
Qed.

Lemma remove_connection_eq conn r cs :
  subs r !! conn = Some cs ->
  remove_connection conn r =
  let res := foldl (connection_step conn) (set_subs (delete conn) r, []) (hash_iter cs) in
  (add_gauge (- Z.of_nat (size cs)) res.1, res.2).
Proof.
  intros Hcs. unfold remove_connection. rewrite Hcs.
  change (fun '(r0, removed) '(sub_id, e) => (remove_from_index conn sub_id (en_filters e)
    (en_community e) (en_channel e) r0, removed ++ [mkRemoved (en_community e) (en_channel e)]))
    with (connection_step conn).
  by destruct (foldl _ _ _).
Qed.

Lemma remove_connection_entry conn r c s :
  get_entry c s (remove_connection conn r).1 =
  if decide (c = conn) then None else get_entry c s r.
Proof.
  destruct (subs r !! conn) as [cs|] eqn:Hcs.
  - rewrite (remove_connection_eq _ _ _ Hcs). cbn [fst].
    pose proof (connection_fold conn (hash_iter cs) (set_subs (delete conn) r) [])
      as (Hs & _).
    rewrite (get_entry_subs (set_subs (delete conn) r)) by apply Hs.
    unfold get_entry; cbn [set_subs subs]. rewrite lookup_delete.
    repeat case_decide; naive_solver.
  - unfold remove_connection. rewrite Hcs. cbn [fst]. case_decide; [|done].
    subst. unfold get_entry. by rewrite Hcs.
Qed.

Lemma remove_connection_wf conn r :
  registry_wf r -> registry_wf (remove_connection conn r).1.
Proof.
  intros Hwf. destruct (subs r !! conn) as [cs|] eqn:Hcs; cycle 1.
  { unfold remove_connection. by rewrite Hcs. }
  pose proof (remove_connection_entry conn r) as Hent. destruct Hwf as [Hidx Hnd Hst Hg].
  revert Hent. rewrite (remove_connection_eq _ _ _ Hcs). cbn [fst].
  pose proof (connection_fold conn (hash_iter cs) (set_subs (delete conn) r) [])
    as (Hs & Hg' & _ & Hin & Hnd' & Hst').
  revert Hs Hg' Hin Hnd' Hst'. generalize (foldl (connection_step conn)
    (set_subs (delete conn) r, []) (hash_iter cs)).
  intros [r1 out] Hs Hg' Hin Hnd' Hst' Hent. cbn [fst] in *. constructor.
  - intros s [c sb]. change (slot_list (add_gauge _ ?r') s) with (slot_list r' s).
    rewrite Hin. change (slot_list (set_subs _ r) s) with (slot_list r s).
    rewrite Hidx, Hent. cbn [fst snd]. setoid_rewrite elem_of_hash_iter.
    unfold get_entry. case_decide as Hc; [subst c; rewrite Hcs; cbn|naive_solver].
    split; [|naive_solver]. intros [(e & He & Hse) Hno]. by destruct (Hno sb e He eq_refl).
  - intros s. apply Hnd', Hnd.
  - intros s. apply Hst', Hst.
  - cbn [add_gauge subscriptions_active]. rewrite Hg'. cbn. rewrite Hg.
    unfold total_subscriptions. cbn [add_gauge subs]. rewrite Hs. cbn [set_subs subs].
    change (Z.of_nat (subs_total (subs r)) + - Z.of_nat (size cs)
            = Z.of_nat (subs_total (delete conn (subs r)))).
    rewrite (subs_total_delete _ _ _ Hcs). lia.
Qed.

(** ** Removal of a connection's channel subscriptions *)

Definition channel_step (conn_id : ConnId)
    '((r, out) : SubscriptionRegistry * list (SubId * RemovedSubscription)) (sub_id : SubId) :=
  let (r, removed) := remove_subscription conn_id sub_id r in
  (r, match removed with Some x => out ++ [(sub_id, x)] | None => out end).

(** The ids [remove_channel_subscriptions_scoped] collects before it removes. *)
Definition channel_sub_ids (comm : CommunityId) (conn : ConnId) (ch : Uuid)
    (r : SubscriptionRegistry) : list SubId :=
  match subs r !! conn with
  | None => []
  | Some cs =>
      omap (fun '(sub_id, e) =>
              if bool_decide (en_community e = comm) && bool_decide (en_channel e = Some ch)
              then Some sub_id else None) (hash_iter cs)
  end.

Lemma remove_channel_eq comm conn ch r :
  remove_channel_subscriptions_scoped comm conn ch r =
  foldl (channel_step conn) (r, []) (channel_sub_ids comm conn ch r).
Proof. done. Qed.

Lemma elem_of_channel_sub_ids comm conn ch r sub :
  sub ∈ channel_sub_ids comm conn ch r <->
  exists e, get_entry conn sub r = Some e /\ en_community e = comm /\ en_channel e = Some ch.
Proof.
  unfold channel_sub_ids, get_entry. destruct (subs r !! conn) as [cs|]; cbn; [|set_solver].
  rewrite list_elem_of_omap. split.
  - intros ([s e] & Hin%elem_of_hash_iter & Hs).
    destruct (bool_decide _ && bool_decide _) eqn:Hb; [|done]. injection Hs as <-.
    rewrite andb_true_iff, !bool_decide_eq_true in Hb. naive_solver.
  - intros (e & He & Hc & Hch). exists (sub, e). rewrite elem_of_hash_iter.
    split; [done|]. by rewrite !bool_decide_true by done.
Qed.

Lemma channel_fold conn l r out :
  let res := foldl (channel_step conn) (r, out) l in
  (registry_wf r -> registry_wf res.1) /\
  (forall c s, get_entry c s res.1 =
     if decide (c = conn /\ s ∈ l) then None else get_entry c s r) /\
  (forall s x, (s, x) ∈ res.2 <-> (s, x) ∈ out \/
     s ∈ l /\ exists e, get_entry conn s r = Some e /\
       x = mkRemoved (en_community e) (en_channel e)).
Proof.
  revert r out. induction l as [|sub l IH]; intros r out.
  { cbn. split_and!; [done| |set_solver]. intros c s.
    rewrite decide_False; [done|]. intros [_ Hin]. by apply not_elem_of_nil in Hin. }
  cbn [foldl]. unfold channel_step at 2. unfold channel_step at 3. unfold channel_step at 4.
  pose proof (remove_subscription_entry conn sub r) as Hent.
  pose proof (remove_subscription_removed conn sub r) as Hrm.
  pose proof (remove_subscription_wf conn sub r) as Hwf.
  destruct (remove_subscription conn sub r) as [r1 rm]; cbn [fst snd] in *.
  set (out1 := match rm with Some x => _ | None => _ end).
  destruct (IH r1 out1) as (Hwf' & Hent' & Hout). split_and!; [auto| |].
  - intros c s. rewrite Hent', Hent. repeat case_decide; set_solver.
  - intros s x. rewrite Hout, Hent. unfold out1. rewrite Hrm.
    destruct (get_entry conn sub r) as [e|] eqn:He; cbn [fmap option_fmap option_map];
      rewrite ?elem_of_app, ?list_elem_of_singleton, elem_of_cons;
      case_decide; naive_solver.
Qed.

(** * Reachable registries *)

Inductive registry_step : SubscriptionRegistry -> SubscriptionRegistry -> Prop :=
| step_register comm conn sub fs ch r :
    registry_step r (register_scoped comm conn sub fs ch r).1
| step_remove conn sub r : registry_step r (remove_subscription conn sub r).1
| step_remove_connection conn r : registry_step r (remove_connection conn r).1
| step_remove_channel comm conn ch r :
    registry_step r (remove_channel_subscriptions_scoped comm conn ch r).1.

Definition reachable (r : SubscriptionRegistry) : Prop := rtc registry_step registry_new r.

Lemma registry_new_wf : registry_wf registry_new.
Proof.
  constructor.
  - intros s c. assert (slot_list registry_new s = []) as -> by (by destruct s).
    split; [intros Hin; by apply not_elem_of_nil in Hin|].
    by intros (e & He & _).
  - intros s. assert (slot_list registry_new s = []) as -> by (by destruct s). apply NoDup_nil_2.
  - by intros [].
  - cbn. change (0 = Z.of_nat (subs_total ∅)). by rewrite subs_total_alt.
Qed.

Lemma registry_step_wf r r' : registry_step r r' -> registry_wf r -> registry_wf r'.
Proof.
  intros [] Hwf; [by apply register_scoped_wf|by apply remove_subscription_wf
    |by apply remove_connection_wf|].
  rewrite remove_channel_eq. by apply (channel_fold conn).
Qed.

Lemma reachable_wf r : reachable r -> registry_wf r.
Proof.
  intros Hr. assert (Hgen : forall r0, rtc registry_step r0 r -> registry_wf r0 -> registry_wf r).
  { intros r0 H. induction H; eauto using registry_step_wf. }
  eauto using registry_new_wf.
Qed.

Lemma fan_out_complete `{L : !NostrLaws A} (comm : CommunityId) (ev : StoredEvent)
    (r : SubscriptionRegistry) :
  reachable r ->
  NoDup (fan_out_scoped comm ev r) /\ forall c, c ∈ fan_out_scoped comm ev r <-> receives r comm ev c.
Proof.
  intros Hwf%reachable_wf. rewrite fan_out_slots. split.
  { apply NoDup_push_match_all, NoDup_nil_2. }
  intros c. rewrite push_match_all_elem, elem_of_nil. split; [tauto|].
  intros Hc. right. split; [|done]. destruct Hc as (e & He & Hcomm & Hch & Hm).
  destruct (slots_cover e ev Hch Hm) as (s & Hs & Hev). subst comm.
  apply list_elem_of_bind. exists s. split; [|done]. apply (wf_index _ Hwf). eauto.
Qed.

Lemma fan_out_receives (comm : CommunityId) (ev : StoredEvent) (r : SubscriptionRegistry)
    (c : Candidate) : c ∈ fan_out_scoped comm ev r -> receives r comm ev c.
Proof. rewrite fan_out_slots, push_match_all_elem, elem_of_nil. tauto. Qed.

(** C7: Fan-out delivers an event to exactly the subscriptions it must reach, each once:
    those of the event's community, with the same channel scope (or both global), with a
    filter that matches.  In particular neither the choice of index at registration nor
    the [#p] narrowing ever loses a matching subscription. *)
Theorem fan_out_exact `{L : !NostrLaws A} (comm : CommunityId) (ev : StoredEvent)
    (r : SubscriptionRegistry) :
  reachable r ->
  NoDup (fan_out_scoped comm ev r) /\
  forall c, c ∈ fan_out_scoped comm ev r <-> receives r comm ev c.
Proof. apply fan_out_complete. Qed.

(** Isolation does not rest on the indexes: whatever stale or foreign candidates they
    hold (a snapshot taken before a concurrent replacement), fan-out only delivers to
    subscriptions whose current, authoritative entry has the event's community and
    channel scope and matches it. *)
Theorem fan_out_isolation (comm : CommunityId) (ev : StoredEvent) (r : SubscriptionRegistry)
    (c : Candidate) :
  c ∈ fan_out_scoped comm ev r -> receives r comm ev c.
Proof. apply fan_out_receives. Qed.

(** The five indexes hold exactly the live subscriptions: each position lists, without
    duplicates, the subscriptions indexed there; no position keeps an empty list after
    its last subscription goes; and the active gauge is the number of subscriptions. *)
Theorem index_exact (r : SubscriptionRegistry) :
  reachable r ->
  (forall s c, c ∈ slot_list r s <->
     exists e, get_entry c.1 c.2 r = Some e /\ s ∈ entry_slots e) /\
  (forall s, NoDup (slot_list r s)) /\
  (forall s, slot_stored r s <> Some []) /\
  subscriptions_active r = Z.of_nat (total_subscriptions r).
Proof. intros [? ? ? ?]%reachable_wf. done. Qed.

(** Registering stores the subscription under its id, replacing one with the same id on
    the same connection and returning the replaced scope, and touches no other one. *)
Theorem register_scoped_spec (comm : CommunityId) (conn : ConnId) (sub : SubId)
    (fs : list Filter) (ch : option Uuid) (r : SubscriptionRegistry) :
  let (r', removed) := register_scoped comm conn sub fs ch r in
  get_entry conn sub r' = Some (mkEntry fs comm ch) /\
  get_filters conn sub r' = Some fs /\
  (forall c s, (c, s) <> (conn, sub) -> get_entry c s r' = get_entry c s r) /\
  removed = (fun e => mkRemoved (en_community e) (en_channel e)) <$> get_entry conn sub r.
Proof.
  pose proof (register_scoped_entry comm conn sub fs ch r) as Hent.
  assert (Hrm : (register_scoped comm conn sub fs ch r).2 = (remove_subscription conn sub r).2)
    by (by rewrite register_scoped_eq).
  rewrite remove_subscription_removed in Hrm.
  destruct (register_scoped comm conn sub fs ch r) as [r' removed]. cbn [fst snd] in *.
  assert (Hself : get_entry conn sub r' = Some (mkEntry fs comm ch))
    by (by rewrite Hent, decide_True).
  split_and!; [done| | |done].
  - unfold get_filters, get_entry in *. destruct (subs r' !! conn); cbn in *; [|done].
    by rewrite Hself.
  - intros c s Hne. by rewrite Hent, decide_False.
Qed.

(** Closing a connection removes all of its subscriptions and no other, and reports
    exactly their scopes, one per subscription. *)
Theorem remove_connection_spec (conn : ConnId) (r : SubscriptionRegistry) :
  let (r', removed) := remove_connection conn r in
  (forall c s, get_entry c s r' = if decide (c = conn) then None else get_entry c s r) /\
  removed ≡ₚ (fun '(_, e) => mkRemoved (en_community e) (en_channel e))
               <$> map_to_list (default ∅ (subs r !! conn)).
Proof.
  pose proof (remove_connection_entry conn r) as Hent.
  destruct (remove_connection conn r) as [r' removed] eqn:Heq. cbn [fst] in Hent.
  split; [done|]. destruct (subs r !! conn) as [cs|] eqn:Hcs.
  - rewrite (remove_connection_eq _ _ _ Hcs) in Heq. injection Heq as <- <-.
    destruct (connection_fold conn (hash_iter cs) (set_subs (delete conn) r) [])
      as (_ & _ & -> & _). cbn. apply fmap_Permutation, hash_iter_perm.
  - unfold remove_connection in Heq. rewrite Hcs in Heq. by injection Heq as <- <-.
Qed.

(** Leaving a channel removes the connection's subscriptions scoped to that channel in
    that community and no other, and returns exactly their ids with their scopes. *)
Theorem remove_channel_subscriptions_spec (comm : CommunityId) (conn : ConnId) (ch : Uuid)
    (r : SubscriptionRegistry) :
  let (r', out) := remove_channel_subscriptions_scoped comm conn ch r in
  let hit s := exists e, get_entry conn s r = Some e /\ en_community e = comm /\
                 en_channel e = Some ch in
  (forall s, hit s -> get_entry conn s r' = None) /\
  (forall c s, c <> conn \/ ~ hit s -> get_entry c s r' = get_entry c s r) /\
  (forall s x, (s, x) ∈ out <-> hit s /\ x = mkRemoved comm (Some ch)).
Proof.
  rewrite remove_channel_eq.
  destruct (channel_fold conn (channel_sub_ids comm conn ch r) r []) as (_ & Hent & Hout).
  destruct (foldl _ _ _) as [r' out]. cbn [fst snd] in *. split_and!.
  - intros s Hs%elem_of_channel_sub_ids. rewrite Hent. by rewrite decide_True.
  - intros c s Hcs. rewrite Hent, decide_False; [done|].
    rewrite elem_of_channel_sub_ids. tauto.
  - intros s x. rewrite Hout, elem_of_channel_sub_ids, elem_of_nil. split.
    + intros [[]|((e & He & <- & Hch) & e' & He' & ->)]. rewrite He in He'.
      injection He' as <-. rewrite Hch. eauto.
    + intros ((e & He & <- & Hch) & ->). right. rewrite <-Hch. split; exists e; split_and!; done.
Qed.

Lemma elem_of_channel_conns comm ch r conn :
  conn ∈ channel_subscriber_conns_scoped comm ch r <->
  exists s sub, (conn, sub) ∈ slot_list r s /\
    (s = SChannelWildcard comm ch \/ exists k, s = SChannelKind comm ch k).
Proof.
  unfold channel_subscriber_conns_scoped.
  rewrite elem_of_union, !elem_of_list_to_set, list_elem_of_In, in_flat_map.
  setoid_rewrite <-list_elem_of_In. split.
  - intros [([[c [ch' k]] l] & Hin%elem_of_hash_iter & Hc)|Hc].
    + destruct (bool_decide _ && bool_decide _) eqn:Hb; [|set_solver].
      rewrite andb_true_iff, !bool_decide_eq_true in Hb. destruct Hb as [-> ->].
      apply list_elem_of_fmap in Hc as ([c' sub] & -> & Hc).
      exists (SChannelKind comm ch k), sub. cbn. unfold entries. rewrite Hin. eauto.
    + apply list_elem_of_fmap in Hc as ([c' sub] & -> & Hc).
      exists (SChannelWildcard comm ch), sub. eauto.
  - intros (s & sub & Hin & [->|[k ->]]); cbn in Hin.
    + right. apply list_elem_of_fmap. exists (conn, sub). eauto.
    + left. unfold entries in Hin.
      destruct (channel_kind_index r !! (comm, (ch, k))) as [l|] eqn:Hl;
        [|by apply not_elem_of_nil in Hin].
      exists ((comm, (ch, k)), l). rewrite elem_of_hash_iter. split; [done|].
      rewrite !bool_decide_true by done. apply list_elem_of_fmap. exists (conn, sub). eauto.
Qed.

(** The connections to evict from a channel are those that hold a subscription scoped to
    it that admits some kind; a subscription whose filters admit no kind at all
    ([kinds: []]) is in no index and is not reported. *)
Theorem channel_subscriber_conns_spec (comm : CommunityId) (ch : Uuid)
    (r : SubscriptionRegistry) (conn : ConnId) :
  reachable r ->
  conn ∈ channel_subscriber_conns_scoped comm ch r <->
  exists sub e, get_entry conn sub r = Some e /\ en_community e = comm /\
    en_channel e = Some ch /\ extract_kinds_from_filters (en_filters e) <> Some [].
Proof.
  intros Hwf%reachable_wf. rewrite elem_of_channel_conns. setoid_rewrite (wf_index _ Hwf).
  cbn [fst snd]. unfold entry_slots. split.
  - intros (s & sub & (e & He & Hs) & Hk). exists sub, e. split; [done|].
    destruct (en_channel e) as [ch'|].
    + destruct (extract_kinds_from_filters _) as [ks|].
      * apply list_elem_of_fmap in Hs as (k' & -> & Hk').
        destruct Hk as [|[k [= -> ->]]]; [done|]. split_and!; [done|done|].
        intros [= ->]. by apply not_elem_of_nil in Hk'.
      * apply list_elem_of_singleton in Hs as ->. naive_solver.
    + destruct (extract_global_p_kind_index_keys _ _), (extract_kinds_from_filters _);
        rewrite ?list_elem_of_fmap, ?list_elem_of_singleton in Hs; naive_solver.
  - intros (sub & e & He & <- & Hch & Hks).
    destruct (extract_kinds_from_filters (en_filters e)) as [[|k ks]|] eqn:Hx; [done| |].
    + exists (SChannelKind (en_community e) ch k), sub. split; [|eauto].
      exists e. rewrite Hch, Hx. set_solver.
    + exists (SChannelWildcard (en_community e) ch), sub. split; [|eauto].
      exists e. rewrite Hch, Hx. set_solver.
Qed.

End registry.

(** Two subscriptions, one scoped to channel 5 and one global with a [#p] filter. *)
Module SubscriptionExample.
#[local] Existing Instance Reference.api.
#[local] Existing Instance map_to_list_iter.
Definition r1 : SubscriptionRegistry :=
  (register_scoped 1%N 10%N "s" [FilterExample.example_filter] (Some 5%N) registry_new).1.
Definition p_filter : Filter :=
  mkFilter None None (Some [7]) None None {[ ("p"%char, false) := ["aa"] ]} None None.
Definition r2 : SubscriptionRegistry :=
  (register_scoped 1%N 11%N "g" [p_filter] None r1).1.
Definition global_event : StoredEvent := mkStored FilterExample.example_event 0 None true.

Lemma r2_reachable : reachable r2.
Proof.
  apply (rtc_l _ _ r1); [apply step_register|].
  apply (rtc_l _ _ r2); [apply step_register|]. apply rtc_refl.
Defined.

Example channel_delivery :
  fan_out_scoped 1%N FilterExample.example_stored r2 = [(10%N, "s")].
Proof. vm_compute. reflexivity. Qed.

Example global_delivery : fan_out_scoped 1%N global_event r2 = [(11%N, "g")].
Proof. vm_compute. reflexivity. Qed.

Example other_community : fan_out_scoped 2%N global_event r2 = [].
Proof. vm_compute. reflexivity. Qed.
End SubscriptionExample.

Lemma fan_out_exact_witness :
  let fan := fan_out_scoped (A := Reference.api) 1%N SubscriptionExample.global_event
               SubscriptionExample.r2 in
  NoDup fan /\
  forall c, c ∈ fan <->
    receives (A := Reference.api) SubscriptionExample.r2 1%N SubscriptionExample.global_event c.
Proof.
  apply (fan_out_exact (A := Reference.api) (HI := map_to_list_iter) (L := Reference.laws)).
  apply SubscriptionExample.r2_reachable.
Defined.

Lemma fan_out_isolation_witness :
  receives (A := Reference.api) SubscriptionExample.r2 1%N FilterExample.example_stored
    (10%N, "s").
Proof.
  apply (fan_out_isolation (A := Reference.api)).
  assert (fan_out_scoped (A := Reference.api) 1%N FilterExample.example_stored
            SubscriptionExample.r2 = [(10%N, "s")]) as -> by (vm_compute; reflexivity).
  by left.
Defined.

Lemma index_exact_witness :
  subscriptions_active SubscriptionExample.r2 = 2 /\
  (forall s, NoDup (slot_list SubscriptionExample.r2 s)).
Proof.
  split; [vm_compute; reflexivity|].
  apply (index_exact (A := Reference.api) (HI := map_to_list_iter) SubscriptionExample.r2
           SubscriptionExample.r2_reachable).
Defined.

Lemma channel_subscriber_conns_spec_witness :
  exists sub e, get_entry 10%N sub SubscriptionExample.r2 = Some e /\ en_community e = 1%N /\
    en_channel e = Some 5%N /\ extract_kinds_from_filters (en_filters e) <> Some [].
Proof.
  apply (channel_subscriber_conns_spec (A := Reference.api) (HI := map_to_list_iter)
           1%N 5%N SubscriptionExample.r2 10%N SubscriptionExample.r2_reachable).
  apply (bool_decide_unpack _). vm_compute. exact I.
Defined.
