(* ===== verification/Float64.v ===== *)
(** Double-precision arithmetic as Rust's [f64] does it, for non-negative values.

    A value is a fraction whose denominator is a power of two; each operation is the
    exact one rounded to 53 bits, ties to even.  Subnormals, overflow and negative
    numbers are not modelled: the code that uses this file computes with values that are
    [0] or in [2^-33, 2^9], where the format has its full precision. *)
From Stdlib Require Import QArith Lqa.
From S2P Require Import Prelude.
Local Open Scope Z_scope.

Abbreviation frac := (Z * Z)%type (only parsing).

(** The integer nearest to [p / q], ties to even. *)
Definition rne_div (p q : Z) : Z :=
  let d := p / q in
  let r := p mod q in
  if 2 * r <? q then d else if q <? 2 * r then d + 1 else if Z.even d then d else d + 1.

(** [p / (q * 2^e)] as a fraction. *)
Definition scale_down (e : Z) '((p, q) : frac) : frac :=
  if e <? 0 then (p * 2 ^ (- e), q) else (p, q * 2 ^ e).

Definition f64_round (x : frac) : frac :=
  if fst x =? 0 then (0, 1) else
  let e := Z.log2 (fst x) - Z.log2 (snd x) - 53 in
  let '(p, q) := scale_down e x in
  let e := if 2 ^ 53 * q <=? p then e + 1 else e in
  let '(p, q) := scale_down e x in
  let m := rne_div p q in
  if e <? 0 then (m, 2 ^ (- e)) else (m * 2 ^ e, 1).

Definition f64_of_Z (n : Z) : frac := f64_round (n, 1).
Definition f64_div '((p, q) : frac) '((p', q') : frac) : frac := f64_round (p * q', q * p').
Definition f64_mul '((p, q) : frac) '((p', q') : frac) : frac := f64_round (p * p', q * q').
Definition f64_add '((p, q) : frac) '((p', q') : frac) : frac :=
  f64_round (p * q' + p' * q, q * q').
(** A decimal literal [n / 10^k]. *)
Definition f64_lit (n k : Z) : frac := f64_round (n, 10 ^ k).

(** [Duration::from_secs_f64], which rounds to the nearest nanosecond. *)
Definition from_secs_f64 '((p, q) : frac) : Z := rne_div (p * 1000000000) q.


(** * Rounding errors *)

Lemma rne_div_err p q : 0 < q -> 2 * Z.abs (rne_div p q * q - p) <= q.
Proof.
  intros Hq. unfold rne_div. pose proof (Z.div_mod p q ltac:(lia)) as Hdm.
  pose proof (Z.mod_pos_bound p q Hq) as Hr.
  destruct (Z.ltb_spec (2 * (p mod q)) q); [nia|].
  destruct (Z.ltb_spec q (2 * (p mod q))); [nia|].
  destruct (Z.even (p / q)); nia.
Qed.

Lemma scale_down_neg e p q : e < 0 -> scale_down e (p, q) = (p * 2 ^ (- e), q).
Proof. intros He. unfold scale_down. by rewrite (proj2 (Z.ltb_lt _ _) He). Qed.

Lemma scale_down_nonneg e p q : 0 <= e -> scale_down e (p, q) = (p, q * 2 ^ e).
Proof. intros He. unfold scale_down. by rewrite (proj2 (Z.ltb_ge _ _) He). Qed.

(** Scaling by one bit more halves the quotient. *)
Lemma scale_down_succ e p q p0 q0 p1 q1 :
  scale_down e (p, q) = (p0, q0) -> scale_down (e + 1) (p, q) = (p1, q1) ->
  2 * p1 * q0 = p0 * q1.
Proof.
  destruct (Z.ltb_spec e (-1)) as [H|H]; [|destruct (Z.eq_dec e (-1)) as [->|H1]].
  - rewrite !scale_down_neg by lia. intros [= <- <-] [= <- <-].
    replace (- e) with (Z.succ (- (e + 1))) by lia. rewrite Z.pow_succ_r by lia. ring.
  - rewrite scale_down_neg, scale_down_nonneg by lia. intros [= <- <-] [= <- <-].
    change (2 ^ (- -1)) with 2. change (2 ^ (-1 + 1)) with 1. ring.
  - rewrite !scale_down_nonneg by lia. intros [= <- <-] [= <- <-].
    replace (e + 1) with (Z.succ e) by lia. rewrite Z.pow_succ_r by lia. ring.
Qed.

Lemma scale_down_pos e p q p0 q0 :
  0 < p -> 0 < q -> scale_down e (p, q) = (p0, q0) -> 0 < p0 /\ 0 < q0.
Proof.
  intros Hp Hq. destruct (Z.ltb_spec e 0).
  - rewrite scale_down_neg by lia. intros [= <- <-].
    pose proof (Z.pow_pos_nonneg 2 (- e) ltac:(lia) ltac:(lia)). nia.
  - rewrite scale_down_nonneg by lia. intros [= <- <-].
    pose proof (Z.pow_pos_nonneg 2 e ltac:(lia) ltac:(lia)). nia.
Qed.

(** The chosen scale leaves at least 53 significant bits. *)
Lemma scale_down_log p q p0 q0 :
  0 < p -> 0 < q ->
  scale_down (Z.log2 p - Z.log2 q - 53) (p, q) = (p0, q0) -> 2 ^ 52 * q0 <= p0.
Proof.
  intros Hp Hq. pose proof (Z.log2_spec p Hp) as [Hp1 _].
  pose proof (Z.log2_spec q Hq) as [_ Hq2].
  pose proof (Z.log2_nonneg p) as Hlp. pose proof (Z.log2_nonneg q) as Hlq.
  set (lp := Z.log2 p) in *. set (lq := Z.log2 q) in *.
  rewrite Z.pow_succ_r in Hq2 by lia.
  destruct (Z.ltb_spec (lp - lq - 53) 0).
  - rewrite scale_down_neg by lia. intros [= <- <-].
    transitivity (2 ^ lp * 2 ^ (- (lp - lq - 53))).
    + rewrite <-Z.pow_add_r by lia.
      replace (lp + - (lp - lq - 53)) with (52 + (1 + lq)) by lia.
      rewrite !Z.pow_add_r by lia. nia.
    + apply Z.mul_le_mono_nonneg_r; [lia|done].
  - rewrite scale_down_nonneg by lia. intros [= <- <-].
    transitivity (2 ^ lp); [|done].
    replace lp with (52 + ((1 + lq) + (lp - lq - 53))) at 2 by lia.
    rewrite !Z.pow_add_r by lia.
    pose proof (Z.pow_pos_nonneg 2 (lp - lq - 53) ltac:(lia) ltac:(lia)). nia.
Qed.

(** Rounding is within one part in [2^53]. *)
Lemma f64_round_err p q m d :
  0 <= p -> 0 < q -> f64_round (p, q) = (m, d) ->
  0 <= m /\ 0 < d /\ 2 ^ 53 * Z.abs (m * q - p * d) <= p * d.
Proof.
  intros Hp Hq. unfold f64_round. cbn [fst snd].
  destruct (Z.eqb_spec p 0) as [->|Hp0]; [intros [= <- <-]; lia|].
  destruct (scale_down (Z.log2 p - Z.log2 q - 53) (p, q)) as [p0 q0] eqn:H0.
  pose proof (scale_down_log p q p0 q0 ltac:(lia) Hq H0) as Hlow.
  set (e0 := Z.log2 p - Z.log2 q - 53) in *.
  set (e := if _ <=? _ then _ else _).
  destruct (scale_down e (p, q)) as [p1 q1] eqn:H1.
  pose proof (scale_down_pos e0 p q p0 q0 ltac:(lia) Hq H0) as [Hp0' Hq0].
  pose proof (scale_down_pos e p q p1 q1 ltac:(lia) Hq H1) as [Hp1 Hq1].
  assert (Hlow1 : 2 ^ 52 * q1 <= p1).
  { subst e. destruct (Z.leb_spec (2 ^ 53 * q0) p0) as [Hle|Hlt].
    - pose proof (scale_down_succ e0 p q p0 q0 p1 q1 H0 H1).
      change (2 ^ 53) with (2 * 2 ^ 52) in Hle. nia.
    - rewrite H1 in H0. injection H0 as -> ->. done. }
  clearbody e. clear H0 Hlow Hp0' Hq0. pose proof (rne_div_err p1 q1 Hq1) as Herr.
  set (r := rne_div p1 q1) in *. clearbody r.
  assert (Hr : 0 <= r) by nia.
  assert (Hrel : 2 ^ 53 * Z.abs (r * q1 - p1) <= p1)
    by (change (2 ^ 53) with (2 ^ 52 * 2); nia).
  destruct (Z.ltb_spec e 0).
  - rewrite scale_down_neg in H1 by lia. injection H1 as <- <-. intros [= <- <-].
    pose proof (Z.pow_pos_nonneg 2 (- e) ltac:(lia) ltac:(lia)). done.
  - rewrite scale_down_nonneg in H1 by lia. injection H1 as <- <-. intros [= <- <-].
    pose proof (Z.pow_pos_nonneg 2 e ltac:(lia) ltac:(lia)).
    split_and!; [nia|lia|]. replace (r * 2 ^ e * q - p * 1) with (r * (q * 2 ^ e) - p) by ring.
    lia.
Qed.

(** * Values *)

Definition frac_wf (x : frac) : Prop := 0 <= fst x /\ 0 < snd x.
Definition val (x : frac) : Q := (inject_Z (fst x) / inject_Z (snd x))%Q.

(** [2^-53] *)
Definition ulp : Q := 1 # 9007199254740992.

Lemma inject_pos n : 0 < n -> (0 < inject_Z n)%Q.
Proof. intros Hn. change (inject_Z 0 < inject_Z n)%Q. by rewrite <-Zlt_Qlt. Qed.

Lemma f64_round_val x :
  frac_wf x -> frac_wf (f64_round x) /\
  (val x * (1 - ulp) <= val (f64_round x))%Q /\ (val (f64_round x) <= val x * (1 + ulp))%Q.
Proof.
  destruct x as [p q]. intros [Hp Hq]. cbn [fst snd] in *.
  destruct (f64_round (p, q)) as [m d] eqn:Hr.
  destruct (f64_round_err p q m d Hp Hq Hr) as (Hm & Hd & Herr).
  split; [done|]. unfold val; cbn [fst snd].
  pose proof (inject_pos q Hq) as Hq'. pose proof (inject_pos d Hd) as Hd'.
  assert (Hlo : (inject_Z p * inject_Z d * (1 - ulp) <= inject_Z m * inject_Z q)%Q).
  { unfold ulp. assert (H : 9007199254740991 * (p * d) <= 9007199254740992 * (m * q)) by lia.
    rewrite Zle_Qle, !inject_Z_mult in H. unfold inject_Z at 1 4 in H. lra. }
  assert (Hhi : (inject_Z m * inject_Z q <= inject_Z p * inject_Z d * (1 + ulp))%Q).
  { unfold ulp. assert (H : 9007199254740992 * (m * q) <= 9007199254740993 * (p * d)) by lia.
    rewrite Zle_Qle, !inject_Z_mult in H. unfold inject_Z at 1 4 in H. lra. }
  split.
  - apply Qle_shift_div_l; [done|].
    assert ((inject_Z p / inject_Z q * (1 - ulp) * inject_Z d ==
      inject_Z p * inject_Z d * (1 - ulp) / inject_Z q)%Q) as -> by (field; lra).
    apply Qle_shift_div_r; done.
  - apply Qle_shift_div_r; [done|].
    assert ((inject_Z p / inject_Z q * (1 + ulp) * inject_Z d ==
      inject_Z p * inject_Z d * (1 + ulp) / inject_Z q)%Q) as -> by (field; lra).
    apply Qle_shift_div_l; done.
Qed.

(** [y] is [x] rounded. *)
Definition rounds (x : Q) (y : frac) : Prop :=
  frac_wf y /\ (x * (1 - ulp) <= val y)%Q /\ (val y <= x * (1 + ulp))%Q.

Lemma val_nonneg x : frac_wf x -> (0 <= val x)%Q.
Proof.
  intros [H1 H2]. apply Qle_shift_div_l; [by apply inject_pos|].
  rewrite Qmult_0_l. change (inject_Z 0 <= inject_Z x.1)%Q. by rewrite <-Zle_Qle.
Qed.

Lemma rounds_proper x x' y : (x == x')%Q -> rounds x y -> rounds x' y.
Proof. unfold rounds. intros Hx. by rewrite Hx. Qed.

Lemma f64_round_rounds x : frac_wf x -> rounds (val x) (f64_round x).
Proof. apply f64_round_val. Qed.

Lemma f64_of_Z_rounds n : 0 <= n -> rounds (inject_Z n) (f64_of_Z n).
Proof.
  intros Hn. apply (rounds_proper (val (n, 1))); [|by apply f64_round_rounds; split].
  unfold val; cbn [fst snd]. field.
Qed.

Lemma f64_mul_rounds x y : frac_wf x -> frac_wf y -> rounds (val x * val y) (f64_mul x y).
Proof.
  destruct x as [p q], y as [p' q']. intros [H1 H2] [H3 H4]. cbn [fst snd] in *.
  pose proof (inject_pos q H2). pose proof (inject_pos q' H4).
  apply (rounds_proper (val (p * p', q * q'))); [|apply f64_round_rounds; split; cbn; nia].
  unfold val; cbn [fst snd]. rewrite !inject_Z_mult. field. split; lra.
Qed.

Lemma f64_add_rounds x y : frac_wf x -> frac_wf y -> rounds (val x + val y) (f64_add x y).
Proof.
  destruct x as [p q], y as [p' q']. intros [H1 H2] [H3 H4]. cbn [fst snd] in *.
  pose proof (inject_pos q H2). pose proof (inject_pos q' H4).
  apply (rounds_proper (val (p * q' + p' * q, q * q'))); [|apply f64_round_rounds; split; cbn; nia].
  unfold val; cbn [fst snd]. rewrite inject_Z_plus, !inject_Z_mult. field. split; lra.
Qed.

Lemma f64_div_rounds x y :
  frac_wf x -> frac_wf y -> 0 < fst y -> rounds (val x / val y) (f64_div x y).
Proof.
  destruct x as [p q], y as [p' q']. intros [H1 H2] [H3 H4] H5. cbn [fst snd] in *.
  pose proof (inject_pos q H2). pose proof (inject_pos q' H4). pose proof (inject_pos p' H5).
  apply (rounds_proper (val (p * q', q * p'))); [|apply f64_round_rounds; split; cbn; nia].
  unfold val; cbn [fst snd]. rewrite !inject_Z_mult. field. repeat split; lra.
Qed.

Lemma from_secs_f64_val x :
  frac_wf x ->
  (val x * 1000000000 - (1 # 2) <= inject_Z (from_secs_f64 x) <= val x * 1000000000 + (1 # 2))%Q.
Proof.
  destruct x as [p q]. intros [H1 H2]. cbn [fst snd] in *. unfold from_secs_f64.
  pose proof (rne_div_err (p * 1000000000) q H2) as Herr.
  set (r := rne_div _ _) in *. clearbody r. pose proof (inject_pos q H2) as Hq.
  unfold val; cbn [fst snd].
  assert (Hval : (inject_Z p / inject_Z q * 1000000000 ==
                  inject_Z p * 1000000000 / inject_Z q)%Q) by (field; lra).
  rewrite Hval. split.
  - assert (H : 2000000000 * p <= (2 * r + 1) * q) by lia.
    rewrite Zle_Qle, !inject_Z_mult, inject_Z_plus, inject_Z_mult in H. unfold inject_Z at 1 3 5 in H.
    assert (Hle : (inject_Z p * 1000000000 / inject_Z q <= inject_Z r + (1 # 2))%Q)
      by (apply Qle_shift_div_r; [done|]; lra). lra.
  - assert (H : (2 * r - 1) * q <= 2000000000 * p) by lia.
    replace (2 * r - 1) with (2 * r + -1) in H by lia.
    rewrite Zle_Qle, !inject_Z_mult, inject_Z_plus, inject_Z_mult in H. unfold inject_Z at 1 3 5 in H.
    assert (Hle : (inject_Z r - (1 # 2) <= inject_Z p * 1000000000 / inject_Z q)%Q)
      by (apply Qle_shift_div_l; [done|]; lra). lra.
Qed.
