(* ===== verification/Backoff.v ===== *)
(** The retry delay of the event queue ([EventQueue::requeue] in
    [crates/buzz-acp/src/queue.rs]): exponential backoff, capped, with a jitter computed
    in floating point. *)
From Stdlib Require Import QArith Lqa.
From S2P Require Import Prelude Float64.
Local Open Scope Z_scope.

Definition BASE_RETRY_DELAY_SECS : Z := 5.
Definition MAX_RETRY_DELAY_SECS : Z := 300.
Definition U32_MAX : Z := 4294967295.

(** [nanos] is [subsec_nanos()] of the wall clock. *)
Definition jitter (nanos : Z) : frac :=
  f64_add (f64_lit 8 1)
    (f64_mul (f64_div (f64_of_Z nanos) (f64_of_Z U32_MAX)) (f64_lit 4 1)).

Definition capped_secs (attempt : Z) : Z :=
  let base_secs :=
    Z.min (BASE_RETRY_DELAY_SECS * Z.shiftl 1 (Z.min (attempt - 1) 6)) (2 ^ 64 - 1) in
  Z.min base_secs MAX_RETRY_DELAY_SECS.

Definition backoff_delay (attempt nanos : Z) : Z :=
  from_secs_f64 (f64_mul (f64_of_Z (capped_secs attempt)) (jitter nanos)).


(** The capped delay takes seven values, and stays at the cap. *)
Lemma capped_secs_values attempt :
  1 <= attempt ->
  capped_secs attempt =
  match attempt with 1 => 5 | 2 => 10 | 3 => 20 | 4 => 40 | 5 => 80 | 6 => 160 | _ => 300 end.
Proof.
  intros Ha. destruct (Z.ltb_spec attempt 7) as [Hlt|Hge].
  - assert (H : attempt = 1 \/ attempt = 2 \/ attempt = 3 \/ attempt = 4 \/ attempt = 5
               \/ attempt = 6) by lia.
    by repeat destruct H as [->|H]; subst.
  - unfold capped_secs. rewrite (Z.min_r (attempt - 1) 6) by lia. cbn.
    destruct attempt as [|[[[]|[]|]|[[]|[]|]|]|]; try lia; reflexivity.
Qed.

Lemma capped_secs_cases attempt :
  1 <= attempt ->
  capped_secs attempt ∈ [5; 10; 20; 40; 80; 160; 300].
Proof.
  intros Ha. rewrite capped_secs_values by done.
  destruct attempt as [|[[[]|[]|]|[[]|[]|]|]|]; try lia; set_solver.
Qed.

(** The jitter is between 0.8 and 0.8932, up to rounding. *)
Lemma jitter_bounds nanos :
  0 <= nanos < 1000000000 ->
  frac_wf (jitter nanos) /\
  ((8 # 10) - (1 # 1000000000000000) <= val (jitter nanos) <= (89314 # 100000))%Q.
Proof.
  intros Hn. unfold jitter.
  destruct (f64_of_Z_rounds nanos ltac:(lia)) as (Ha & Ha1 & Ha2).
  assert (Hu : frac_wf (f64_of_Z U32_MAX) /\ 0 < fst (f64_of_Z U32_MAX)) by done.
  assert (Huv : (val (f64_of_Z U32_MAX) == 4294967295)%Q) by reflexivity.
  destruct Hu as [Hu Hu0].
  destruct (f64_div_rounds _ _ Ha Hu Hu0) as (Hd & Hd1 & Hd2).
  assert (H4 : frac_wf (f64_lit 4 1)) by done.
  assert (H4v : (val (f64_lit 4 1) == 7205759403792794 # 18014398509481984)%Q) by reflexivity.
  destruct (f64_mul_rounds _ _ Hd H4) as (Hm & Hm1 & Hm2).
  assert (H8 : frac_wf (f64_lit 8 1)) by done.
  assert (H8v : (val (f64_lit 8 1) == 7205759403792794 # 9007199254740992)%Q) by reflexivity.
  destruct (f64_add_rounds _ _ H8 Hm) as (Hs & Hs1 & Hs2).
  split; [done|]. rewrite Huv in Hd1, Hd2. rewrite H4v in Hm1, Hm2. rewrite H8v in Hs1, Hs2.
  set (va := val (f64_of_Z nanos)) in *. set (vd := val (f64_div _ _)) in *.
  set (vm := val (f64_mul _ _)) in *. set (vs := val (f64_add _ _)) in *.
  assert (Hn0 : (0 <= inject_Z nanos <= 999999999)%Q).
  { split; [change 0%Q with (inject_Z 0)|change 999999999%Q with (inject_Z 999999999)];
      rewrite <-Zle_Qle; lia. }
  clearbody va vd vm vs. unfold ulp in *. unfold Qdiv in *.
  change (/ 4294967295)%Q with (1 # 4294967295) in *.
  lra.
Qed.

Lemma backoff_delay_range attempt nanos :
  1 <= attempt -> 0 <= nanos < 1000000000 ->
  capped_secs attempt * 800000000 <= backoff_delay attempt nanos
    <= capped_secs attempt * 893200000.
Proof.
  intros Ha Hn. destruct (jitter_bounds nanos Hn) as (Hj & Hj1 & Hj2).
  pose proof (capped_secs_cases attempt Ha) as Hc. unfold backoff_delay.
  set (c := capped_secs attempt) in *. clearbody c.
  assert (Hc0 : 0 <= c) by (set_unfold in Hc; lia).
  destruct (f64_of_Z_rounds c Hc0) as (Hcf & Hc1 & Hc2).
  destruct (f64_mul_rounds _ _ Hcf Hj) as (Hm & Hm1 & Hm2).
  destruct (from_secs_f64_val _ Hm) as [Hs1 Hs2].
  set (ns := from_secs_f64 _) in *. set (vm := val (f64_mul _ _)) in *.
  assert (Hvc : (val (f64_of_Z c) == inject_Z c)%Q)
    by (set_unfold in Hc; repeat destruct Hc as [->|Hc]; try done; by subst).
  rewrite Hvc in Hm1, Hm2. set (vj := val (jitter nanos)) in *.
  clearbody ns vm vj. clear Hm Hj Hvc Hc1 Hc2 Hcf.
  assert (Hq : (inject_Z c * 800000000 - 1 < inject_Z ns)%Q /\
               (inject_Z ns < inject_Z c * 893200000 + 1)%Q).
  { unfold ulp in *. set_unfold in Hc.
    repeat destruct Hc as [->|Hc]; try done; subst;
      repeat match goal with
      | _ : context [inject_Z (Zpos ?n)] |- _ =>
          change (inject_Z (Zpos n)) with (Zpos n # 1)%Q in *
      | |- context [inject_Z (Zpos ?n)] => change (inject_Z (Zpos n)) with (Zpos n # 1)%Q
      end; split; lra. }
  destruct Hq as [Hq1 Hq2].
  change 800000000%Q with (inject_Z 800000000) in Hq1. change 1%Q with (inject_Z 1) in Hq1, Hq2.
  change 893200000%Q with (inject_Z 893200000) in Hq2.
  rewrite <-inject_Z_mult in Hq1, Hq2. unfold Qminus in Hq1.
  rewrite <-inject_Z_opp, <-inject_Z_plus, <-Zlt_Qlt in Hq1.
  rewrite <-inject_Z_plus, <-Zlt_Qlt in Hq2. lia.
Qed.

(** C40: The delay before a retry grows with the attempts up to its cap, and the jitter only
    shortens it: it lies between 80% and 89.32% of the nominal delay, never above it. *)
Theorem backoff_delay_bounds (attempt nanos : Z) :
  1 <= attempt -> 0 <= nanos < 1000000000 ->
  capped_secs attempt * 800000000 <= backoff_delay attempt nanos
    <= capped_secs attempt * 893200000 /\
  capped_secs attempt = Z.min (5 * 2 ^ (attempt - 1)) 300.
Proof.
  intros Ha Hn. split.
  - by apply backoff_delay_range.
  - rewrite capped_secs_values by done. destruct (Z.ltb_spec attempt 7) as [Hlt|Hge].
    + assert (H : attempt = 1 \/ attempt = 2 \/ attempt = 3 \/ attempt = 4 \/ attempt = 5
               \/ attempt = 6) by lia.
      by repeat destruct H as [->|H]; subst.
    + assert (2 ^ 6 <= 2 ^ (attempt - 1)) by (apply Z.pow_le_mono_r; lia).
      rewrite Z.min_r by lia.
      destruct attempt as [|[[[]|[]|]|[[]|[]|]|]|]; try lia; reflexivity.
Qed.

Lemma backoff_delay_bounds_witness :
  capped_secs 3 * 800000000 <= backoff_delay 3 250000000 <= capped_secs 3 * 893200000 /\
  capped_secs 3 = Z.min (5 * 2 ^ (3 - 1)) 300.
Proof. apply (backoff_delay_bounds 3 250000000); lia. Defined.

Example backoff_delay_example : backoff_delay 1 999999999 = 4465661287.
Proof. vm_compute. reflexivity. Qed.
