(* ===== verification/EventQueue.v ===== *)
(** The per-channel event queue of the agent harness
    ([crates/buzz-acp/src/queue.rs]): queueing with a depth cap, batch flushing,
    in-flight tracking with deadlines, retries with exponential backoff and
    dead-lettering, cancelled batches, and the side table of natively steered events.

    Instants and durations are nanoseconds in [Z] (addition to [Instant] is unbounded:
    its overflow panic, some centuries away, is not modelled).  The clock is an input:
    every operation that reads [Instant::now()] takes [now], and nothing assumes that
    successive readings grow unless a theorem says so.  [HashMap] iteration order is
    the parameter [HashIter]. *)
From S2P Require Import Prelude Nostr Backoff.
Local Open Scope string_scope.
Local Open Scope list_scope.
Local Open Scope Z_scope.

Definition MAX_PENDING_PER_CHANNEL : nat := 500.
Definition MAX_BATCH_EVENTS : nat := 50.
Definition MAX_RETRIES : Z := 10.
Definition IN_FLIGHT_DEADLINE_BUFFER_SECS : Z := 100.
Definition DEFAULT_IN_FLIGHT_DEADLINE_SECS : Z := 7300.
#[global] Arguments MAX_PENDING_PER_CHANNEL : simpl never.
#[global] Arguments MAX_BATCH_EVENTS : simpl never.
#[global] Arguments MAX_RETRIES : simpl never.

(** [Duration::from_secs] *)
Definition from_secs (s : Z) : Z := s * 1000000000.

Record QueuedEvent := mkQueued {
  qe_channel_id : Uuid;
  qe_event : Event;
  qe_received_at : Z;
  qe_prompt_tag : string
}.

Record BatchEvent := mkBatchEvent {
  be_event : Event;
  be_prompt_tag : string;
  be_received_at : Z
}.

Inductive CancelReason := Interrupt | Steer.

Record FlushBatch := mkBatch {
  fb_channel_id : Uuid;
  fb_events : list BatchEvent;
  fb_cancelled_events : list BatchEvent;
  fb_cancel_reason : option CancelReason
}.

(** [crate::config::DedupMode] *)
Inductive DedupMode := Drop | Queue.

Record EventQueue := mkQueue {
  queues : gmap Uuid (list QueuedEvent);
  in_flight_channels : gset Uuid;
  in_flight_deadlines : gmap Uuid Z;
  in_flight_batch_sizes : gmap Uuid nat;
  retry_after : gmap Uuid Z;
  retry_counts : gmap Uuid Z;
  dedup_mode : DedupMode;
  cancelled_batches : gmap Uuid (list BatchEvent);
  cancel_reasons : gmap Uuid CancelReason;
  withheld_native_steer : gmap Uuid (list QueuedEvent);
  in_flight_deadline : Z
}.

Definition upd_queues f q := mkQueue (f (queues q)) (in_flight_channels q) (in_flight_deadlines q) (in_flight_batch_sizes q)
  (retry_after q) (retry_counts q) (dedup_mode q) (cancelled_batches q)
  (cancel_reasons q) (withheld_native_steer q) (in_flight_deadline q).
Definition upd_in_flight_channels f q := mkQueue (queues q) (f (in_flight_channels q)) (in_flight_deadlines q) (in_flight_batch_sizes q)
  (retry_after q) (retry_counts q) (dedup_mode q) (cancelled_batches q)
  (cancel_reasons q) (withheld_native_steer q) (in_flight_deadline q).
Definition upd_in_flight_deadlines f q := mkQueue (queues q) (in_flight_channels q) (f (in_flight_deadlines q)) (in_flight_batch_sizes q)
  (retry_after q) (retry_counts q) (dedup_mode q) (cancelled_batches q)
  (cancel_reasons q) (withheld_native_steer q) (in_flight_deadline q).
Definition upd_in_flight_batch_sizes f q := mkQueue (queues q) (in_flight_channels q) (in_flight_deadlines q) (f (in_flight_batch_sizes q))
  (retry_after q) (retry_counts q) (dedup_mode q) (cancelled_batches q)
  (cancel_reasons q) (withheld_native_steer q) (in_flight_deadline q).
Definition upd_retry_after f q := mkQueue (queues q) (in_flight_channels q) (in_flight_deadlines q) (in_flight_batch_sizes q)
  (f (retry_after q)) (retry_counts q) (dedup_mode q) (cancelled_batches q)
  (cancel_reasons q) (withheld_native_steer q) (in_flight_deadline q).
Definition upd_retry_counts f q := mkQueue (queues q) (in_flight_channels q) (in_flight_deadlines q) (in_flight_batch_sizes q)
  (retry_after q) (f (retry_counts q)) (dedup_mode q) (cancelled_batches q)
  (cancel_reasons q) (withheld_native_steer q) (in_flight_deadline q).
Definition upd_cancelled_batches f q := mkQueue (queues q) (in_flight_channels q) (in_flight_deadlines q) (in_flight_batch_sizes q)
  (retry_after q) (retry_counts q) (dedup_mode q) (f (cancelled_batches q))
  (cancel_reasons q) (withheld_native_steer q) (in_flight_deadline q).
Definition upd_cancel_reasons f q := mkQueue (queues q) (in_flight_channels q) (in_flight_deadlines q) (in_flight_batch_sizes q)
  (retry_after q) (retry_counts q) (dedup_mode q) (cancelled_batches q)
  (f (cancel_reasons q)) (withheld_native_steer q) (in_flight_deadline q).
Definition upd_withheld_native_steer f q := mkQueue (queues q) (in_flight_channels q) (in_flight_deadlines q) (in_flight_batch_sizes q)
  (retry_after q) (retry_counts q) (dedup_mode q) (cancelled_batches q)
  (cancel_reasons q) (f (withheld_native_steer q)) (in_flight_deadline q).
Definition upd_in_flight_deadline f q := mkQueue (queues q) (in_flight_channels q) (in_flight_deadlines q) (in_flight_batch_sizes q)
  (retry_after q) (retry_counts q) (dedup_mode q) (cancelled_batches q)
  (cancel_reasons q) (withheld_native_steer q) (f (in_flight_deadline q)).

(** [EventQueue::new] *)
Definition queue_new (mode : DedupMode) : EventQueue :=
  mkQueue ∅ ∅ ∅ ∅ ∅ ∅ mode ∅ ∅ ∅ (from_secs DEFAULT_IN_FLIGHT_DEADLINE_SECS).

Definition with_in_flight_deadline (max_turn_duration_secs : Z) (q : EventQueue)
  : EventQueue :=
  upd_in_flight_deadline
    (fun _ => from_secs (max_turn_duration_secs + IN_FLIGHT_DEADLINE_BUFFER_SECS)) q.

Definition extend_in_flight_deadline (now : Z) (channel_id : Uuid) (max_turn_secs : Z)
    (q : EventQueue) : EventQueue :=
  match in_flight_deadlines q !! channel_id with
  | Some current =>
      let extended := now + from_secs (max_turn_secs + IN_FLIGHT_DEADLINE_BUFFER_SECS) in
      if current <? extended
      then upd_in_flight_deadlines (insert channel_id extended) q
      else q
  | None => q
  end.

(** [self.queues.entry(channel_id).or_default()] *)
Definition chan (channel_id : Uuid) (q : EventQueue) : list QueuedEvent :=
  entries channel_id (queues q).

Definition push (event : QueuedEvent) (q : EventQueue) : EventQueue * bool :=
  let ch := qe_channel_id event in
  if match dedup_mode q with Drop => true | Queue => false end
     && bool_decide (ch ∈ in_flight_channels q)
  then (q, false)
  else
    let queue := chan ch q in
    let queue := if (MAX_PENDING_PER_CHANNEL <=? length queue)%nat then tl queue else queue in
    (upd_queues (insert ch (queue ++ [event])) q, true).

(** [while queue.len() > MAX_PENDING_PER_CHANNEL { queue.pop_back(); }]: each round
    removes one event, so [length queue] rounds are enough. *)
Fixpoint trim_loop (fuel : nat) (queue : list QueuedEvent) : list QueuedEvent :=
  match fuel with
  | O => queue
  | S fuel =>
      if (MAX_PENDING_PER_CHANNEL <? length queue)%nat
      then trim_loop fuel (removelast queue)
      else queue
  end.

Definition trim (queue : list QueuedEvent) : list QueuedEvent :=
  trim_loop (length queue) queue.

(** [for x in xs.into_iter().rev() { queue.push_front(x) }] *)
Definition push_front_rev (xs queue : list QueuedEvent) : list QueuedEvent :=
  foldl (fun queue x => x :: queue) queue (rev xs).

Definition recover_withheld_for_expired_channel (channel_id : Uuid) (q : EventQueue)
  : EventQueue :=
  match withheld_native_steer q !! channel_id with
  | None => q
  | Some es =>
      let q := upd_withheld_native_steer (delete channel_id) q in
      let queue := push_front_rev es (chan channel_id q) in
      upd_queues (insert channel_id (trim queue)) q
  end.

Definition expire_one (q : EventQueue) (id : Uuid) : EventQueue :=
  let q := upd_in_flight_batch_sizes (delete id) q in
  let q := upd_in_flight_channels (fun s => s ∖ {[id]}) q in
  let q := upd_in_flight_deadlines (delete id) q in
  recover_withheld_for_expired_channel id q.

(** [Iterator::min_by_key]: the first of the minimal elements. *)
Fixpoint min_by_key {B : Type} (key : B -> Z) (l : list B) : option B :=
  match l with
  | [] => None
  | x :: l =>
      match min_by_key key l with
      | None => Some x
      | Some y => if key x <=? key y then Some x else Some y
      end
  end.

(** [slice::sort_by_key], which is stable: an element goes before the equal ones that
    follow it. *)
Fixpoint insert_by_key {B : Type} (key : B -> Z) (x : B) (l : list B) : list B :=
  match l with
  | [] => [x]
  | y :: l' => if key x <=? key y then x :: l else y :: insert_by_key key x l'
  end.

Definition sort_by_key {B : Type} (key : B -> Z) (l : list B) : list B :=
  foldr (insert_by_key key) [] l.

Definition to_batch (qe : QueuedEvent) : BatchEvent :=
  mkBatchEvent (qe_event qe) (qe_prompt_tag qe) (qe_received_at qe).

Definition to_queued (channel_id : Uuid) (be : BatchEvent) : QueuedEvent :=
  mkQueued channel_id (be_event be) (be_received_at be) (be_prompt_tag be).

(** [self.retry_after.get(id).is_none_or(|&t| t <= now)] *)
Definition not_throttled (now : Z) (id : Uuid) (q : EventQueue) : bool :=
  match retry_after q !! id with Some t => t <=? now | None => true end.

(** The condition on the channels that may be flushed. *)
Definition flushable (now : Z) (q : EventQueue) '((id, queue) : Uuid * list QueuedEvent) : bool :=
  negb (match queue with [] => true | _ => false end)
  && negb (bool_decide (id ∈ in_flight_channels q))
  && not_throttled now id q.

(** [q.front().unwrap().received_at]; the filter leaves only non-empty queues. *)
Definition head_received_at '((_, queue) : Uuid * list QueuedEvent) : Z :=
  match queue with [] => 0 | qe :: _ => qe_received_at qe end.

(** [self.in_flight_channels.insert(id)] with its deadline and batch size. *)
Definition start_flight (now : Z) (id : Uuid) (size : nat) (q : EventQueue) : EventQueue :=
  let q := upd_in_flight_channels (fun s => {[id]} ∪ s) q in
  let q := upd_in_flight_deadlines (insert id (now + in_flight_deadline q)) q in
  upd_in_flight_batch_sizes (insert id size) q.

(** * Thread tags *)

Record ThreadTags := mkThread {
  root_event_id : option string;
  parent_event_id : option string;
  mentioned_pubkeys : list string
}.

(** One iteration of the loop over the tags. *)
Definition thread_step '((root, reply, mentions) : option string * option string * list string)
    (parts : Tag) : option string * option string * list string :=
  match parts with
  | name :: value :: rest =>
      if String.eqb name "e" then
        match rest with
        | _ :: marker :: _ =>
            if String.eqb marker "root" then (Some value, reply, mentions)
            else if String.eqb marker "reply" then (root, Some value, mentions)
            else (root, reply, mentions)
        | _ => (root, reply, mentions)
        end
      else if String.eqb name "p" then (root, reply, mentions ++ [value])
      else (root, reply, mentions)
  | _ => (root, reply, mentions)
  end.

Definition parse_thread_tags (event : Event) : ThreadTags :=
  let '(root, reply, mentions) := foldl thread_step (None, None, []) (ev_tags event) in
  match root, reply with
  | Some r, Some p => mkThread (Some r) (Some p) mentions
  | Some r, None => mkThread (Some r) (Some r) mentions
  | None, Some p => mkThread (Some p) (Some p) mentions
  | None, None => mkThread None None mentions
  end.

Section queue.
Context `{A : NostrApi} `{HI : HashIter}.

(** The expiry block shared by [flush_next] and [has_flushable_work]. *)
Definition expire (now : Z) (q : EventQueue) : EventQueue :=
  foldl expire_one q
    (filter (fun '(_, deadline) => deadline <= now) (hash_iter (in_flight_deadlines q))).*1.

Definition pick_channel (now : Z) (q : EventQueue) : option Uuid :=
  fst <$> min_by_key head_received_at
            (filter (fun p => flushable now q p = true) (hash_iter (queues q))).

Definition pick_cancelled (q : EventQueue) : option Uuid :=
  head (filter (fun id => id ∉ in_flight_channels q) (hash_iter (cancelled_batches q)).*1).

(** The fallback of [flush_next]: a cancelled batch alone, dispatched unchanged. *)
Definition take_cancelled (now : Z) (id : Uuid) (q : EventQueue) : EventQueue * FlushBatch :=
  let cancelled := entries id (cancelled_batches q) in
  let q := upd_cancelled_batches (delete id) q in
  let cancel_reason := cancel_reasons q !! id in
  let q := upd_cancel_reasons (delete id) q in
  let q := start_flight now id (length cancelled) q in
  (q, mkBatch id cancelled [] cancel_reason).

(** The rest of [flush_next], once a channel is picked. *)
Definition drain_batch (now : Z) (channel_id : Uuid) (q : EventQueue)
  : EventQueue * FlushBatch :=
  let queue := chan channel_id q in
  let drain_count := Nat.min MAX_BATCH_EVENTS (length queue) in
  let events := to_batch <$> take drain_count queue in
  let q := upd_queues (insert channel_id (drop drain_count queue)) q in
  let events := sort_by_key (fun be => ev_created_at (be_event be)) events in
  let q := match chan channel_id q with
           | [] => upd_queues (delete channel_id) q
           | _ => q
           end in
  let q := start_flight now channel_id (length events) q in
  let cancelled_events := entries channel_id (cancelled_batches q) in
  let q := upd_cancelled_batches (delete channel_id) q in
  let cancel_reason :=
    match cancelled_events with
    | [] => None
    | _ => cancel_reasons q !! channel_id
    end in
  let q := upd_cancel_reasons (delete channel_id) q in
  (q, mkBatch channel_id events cancelled_events cancel_reason).

(** [flush_next] after the expiry block. *)
Definition flush_ready (now : Z) (q : EventQueue) : EventQueue * option FlushBatch :=
  match pick_channel now q with
  | None =>
      match pick_cancelled q with
      | Some id => let (q, batch) := take_cancelled now id q in (q, Some batch)
      | None => (q, None)
      end
  | Some channel_id => let (q, batch) := drain_batch now channel_id q in (q, Some batch)
  end.

Definition flush_next (now : Z) (q : EventQueue) : EventQueue * option FlushBatch :=
  flush_ready now (expire now q).

Definition mark_complete (now : Z) (channel_id : Uuid) (q : EventQueue) : EventQueue :=
  let q := upd_in_flight_channels (fun s => s ∖ {[channel_id]}) q in
  let q := upd_in_flight_deadlines (delete channel_id) q in
  let q := upd_in_flight_batch_sizes (delete channel_id) q in
  match retry_after q !! channel_id with
  | Some deadline =>
      if now <? deadline then q
      else
        let q := upd_retry_after (delete channel_id) q in
        upd_retry_counts (delete channel_id) q
  | None => upd_retry_counts (delete channel_id) q
  end.

(** [requeue]: [None] when the batch went back to the queue, the batch itself when it
    is dead-lettered.  [nanos] feeds the jitter; [now] is read after the queue update. *)
Definition requeue (now nanos : Z) (batch : FlushBatch) (q : EventQueue)
  : EventQueue * option FlushBatch :=
  let channel_id := fb_channel_id batch in
  let attempt := default 0 (retry_counts q !! channel_id) + 1 in
  let q := upd_retry_counts (insert channel_id attempt) q in
  if MAX_RETRIES <? attempt then
    let q := upd_retry_counts (delete channel_id) q in
    let q := upd_retry_after (delete channel_id) q in
    (q, Some batch)
  else
    let delay := backoff_delay attempt nanos in
    let queue := push_front_rev (to_queued channel_id <$> fb_events batch)
                   (chan channel_id q) in
    let q := upd_queues (insert channel_id (trim queue)) q in
    (upd_retry_after (insert channel_id (now + delay)) q, None).

Definition requeue_preserve_timestamps (batch : FlushBatch) (q : EventQueue) : EventQueue :=
  let channel_id := fb_channel_id batch in
  let queue := push_front_rev (to_queued channel_id <$> fb_events batch)
                 (chan channel_id q) in
  upd_queues (insert channel_id (trim queue)) q.

Definition requeue_as_cancelled (batch : FlushBatch) (reason : CancelReason)
    (q : EventQueue) : EventQueue :=
  let entry := entries (fb_channel_id batch) (cancelled_batches q) in
  let entry := entry ++ fb_cancelled_events batch in
  let entry := entry ++ fb_events batch in
  let q := upd_cancelled_batches (insert (fb_channel_id batch) entry) q in
  upd_cancel_reasons (insert (fb_channel_id batch) reason) q.

Definition has_flushable_work (now : Z) (q : EventQueue) : EventQueue * bool :=
  let q := expire now q in
  (q, existsb (flushable now q) (hash_iter (queues q))
      || existsb (fun id => negb (bool_decide (id ∈ in_flight_channels q)))
           (hash_iter (cancelled_batches q)).*1).

Definition pending_channels (q : EventQueue) : nat := size (queues q).

Definition drain_channel (channel_id : Uuid) (q : EventQueue) : EventQueue * list string :=
  let ids := (fun e => to_hex (ev_id (qe_event e))) <$> chan channel_id q in
  let q := upd_queues (delete channel_id) q in
  let q := upd_retry_after (delete channel_id) q in
  let q := upd_retry_counts (delete channel_id) q in
  let q := upd_cancelled_batches (delete channel_id) q in
  let q := upd_cancel_reasons (delete channel_id) q in
  let q := upd_withheld_native_steer (delete channel_id) q in
  (q, ids).

Definition is_channel_in_flight (channel_id : Uuid) (q : EventQueue) : bool :=
  bool_decide (channel_id ∈ in_flight_channels q).

Definition has_in_flight (q : EventQueue) : bool :=
  negb (bool_decide (in_flight_channels q = ∅)).

(** [qe.event.id.to_hex() == event_id] *)
Definition has_id (event_id : string) (qe : QueuedEvent) : bool :=
  String.eqb (to_hex (ev_id (qe_event qe))) event_id.

(** [position] of the first such event, then [remove(pos)]: the event and the rest. *)
Fixpoint take_first (event_id : string) (l : list QueuedEvent)
  : option (QueuedEvent * list QueuedEvent) :=
  match l with
  | [] => None
  | qe :: l =>
      if has_id event_id qe then Some (qe, l)
      else match take_first event_id l with
           | Some (x, rest) => Some (x, qe :: rest)
           | None => None
           end
  end.

(** The list stored for a channel, or its removal when it became empty. *)
Definition store_nonempty {B : Type} (channel_id : Uuid) (l : list B)
    (m : gmap Uuid (list B)) : gmap Uuid (list B) :=
  match l with [] => delete channel_id m | _ => <[channel_id := l]> m end.

Definition mark_native_steer_pending (channel_id : Uuid) (event_id : string)
    (q : EventQueue) : EventQueue * bool :=
  match queues q !! channel_id with
  | None => (q, false)
  | Some l =>
      match take_first event_id l with
      | None => (q, false)
      | Some (qe, rest) =>
          let q := upd_queues (store_nonempty channel_id rest) q in
          (upd_withheld_native_steer (entry_push channel_id qe) q, true)
      end
  end.

Definition release_native_steer (channel_id : Uuid) (event_id : string) (q : EventQueue)
  : EventQueue :=
  match withheld_native_steer q !! channel_id with
  | None => q
  | Some es =>
      match take_first event_id es with
      | None => q
      | Some (qe, rest) =>
          let q := upd_withheld_native_steer (store_nonempty channel_id rest) q in
          let queue := qe :: chan channel_id q in
          upd_queues (insert channel_id (trim queue)) q
      end
  end.

Definition remove_event (channel_id : Uuid) (event_id : string) (q : EventQueue)
  : EventQueue :=
  let q := upd_withheld_native_steer
             (entry_retain (fun qe => negb (has_id event_id qe)) channel_id) q in
  upd_queues (entry_retain (fun qe => negb (has_id event_id qe)) channel_id) q.

Definition compact_expired_state (now : Z) (q : EventQueue) : EventQueue :=
  let q := upd_retry_after (filter (fun '(_, deadline) => now < deadline)) q in
  upd_retry_counts
    (filter (fun '(ch, _) =>
       is_Some (retry_after q !! ch) \/ chan ch q <> [] \/ ch ∈ in_flight_channels q)) q.

(** * Operations as a labelled step *)

Inductive Op :=
| OWithDeadline (max_turn_secs : Z)
| OExtend (now : Z) (ch : Uuid) (max_turn_secs : Z)
| OPush (e : QueuedEvent)
| OFlush (now : Z)
| OComplete (now : Z) (ch : Uuid)
| ORequeue (now nanos : Z) (b : FlushBatch)
| ORequeuePreserve (b : FlushBatch)
| ORequeueCancelled (b : FlushBatch) (r : CancelReason)
| OHasWork (now : Z)
| ODrain (ch : Uuid)
| OMarkSteer (ch : Uuid) (id : string)
| OReleaseSteer (ch : Uuid) (id : string)
| ORemoveEvent (ch : Uuid) (id : string)
| OCompact (now : Z).

(** One operation: the new state and the batch it hands out, if it is a flush. *)
Definition exec (op : Op) (q : EventQueue) : EventQueue * option FlushBatch :=
  match op with
  | OWithDeadline s => (with_in_flight_deadline s q, None)
  | OExtend now ch s => (extend_in_flight_deadline now ch s q, None)
  | OPush e => ((push e q).1, None)
  | OFlush now => flush_next now q
  | OComplete now ch => (mark_complete now ch q, None)
  | ORequeue now nanos b => ((requeue now nanos b q).1, None)
  | ORequeuePreserve b => (requeue_preserve_timestamps b q, None)
  | ORequeueCancelled b r => (requeue_as_cancelled b r q, None)
  | OHasWork now => ((has_flushable_work now q).1, None)
  | ODrain ch => ((drain_channel ch q).1, None)
  | OMarkSteer ch id => ((mark_native_steer_pending ch id q).1, None)
  | OReleaseSteer ch id => (release_native_steer ch id q, None)
  | ORemoveEvent ch id => (remove_event ch id q, None)
  | OCompact now => (compact_expired_state now q, None)
  end.

(** The batches a sequence of operations hands out, and its final state. *)
Fixpoint run (ops : list Op) (q : EventQueue) : EventQueue * list FlushBatch :=
  match ops with
  | [] => (q, [])
  | op :: ops =>
      let (q, out) := exec op q in
      let (q, outs) := run ops q in
      (q, match out with Some b => b :: outs | None => outs end)
  end.

(** * Lists *)

Lemma trim_loop_take fuel l :
  (length l <= fuel + MAX_PENDING_PER_CHANNEL)%nat ->
  trim_loop fuel l = take MAX_PENDING_PER_CHANNEL l.
Proof.
  revert l. induction fuel as [|fuel IH]; intros l Hl; cbn [trim_loop].
  { by rewrite take_ge. }
  destruct (Nat.ltb_spec MAX_PENDING_PER_CHANNEL (length l)) as [Hlt|Hge];
    [|by rewrite take_ge].
  destruct l as [|x l] using rev_ind; [cbn in Hlt; lia|].
  rewrite length_app in *; cbn in *. rewrite removelast_last.
  rewrite IH by lia. by rewrite take_app_le by lia.
Qed.

Lemma trim_take l : trim l = take MAX_PENDING_PER_CHANNEL l.
Proof. apply trim_loop_take. lia. Qed.

Lemma push_front_rev_app xs l : push_front_rev xs l = xs ++ l.
Proof.
  unfold push_front_rev. rewrite <-(rev_involutive xs) at 2.
  generalize (rev xs). intros ys. revert l.
  induction ys as [|y ys IH]; intros l; [done|]. cbn [foldl rev].
  by rewrite IH, <-app_assoc.
Qed.

Section sorting.
Context {B : Type} (key : B -> Z).

Lemma insert_by_key_perm x l : insert_by_key key x l ≡ₚ x :: l.
Proof.
  induction l as [|y l IH]; [done|]. cbn. destruct (key x <=? key y); [done|].
  rewrite IH. apply Permutation_swap.
Qed.

Lemma sort_by_key_perm l : sort_by_key key l ≡ₚ l.
Proof. induction l as [|x l IH]; [done|]. cbn. by rewrite insert_by_key_perm, IH. Qed.

Lemma insert_by_key_sorted x l :
  StronglySorted (fun a b => key a <= key b) l ->
  StronglySorted (fun a b => key a <= key b) (insert_by_key key x l).
Proof.
  induction 1 as [|y l Hs IH Hy]; cbn; [repeat constructor|].
  destruct (Z.leb_spec (key x) (key y)) as [Hle|Hlt].
  - constructor; [by constructor|]. constructor; [done|].
    eapply Forall_impl; [exact Hy|]. cbn. lia.
  - constructor; [done|]. rewrite insert_by_key_perm. constructor; [lia|done].
Qed.

Lemma sort_by_key_sorted l : StronglySorted (fun a b => key a <= key b) (sort_by_key key l).
Proof. induction l; cbn; [constructor|]. by apply insert_by_key_sorted. Qed.

(** Stability: elements with the same key keep their order. *)
Lemma insert_by_key_stable x l k :
  filter (fun y => key y = k) (insert_by_key key x l) = filter (fun y => key y = k) (x :: l).
Proof.
  induction l as [|y l IH]; [done|]. cbn [insert_by_key].
  destruct (Z.leb_spec (key x) (key y)) as [Hle|Hlt]; [done|].
  rewrite !filter_cons in *. rewrite IH. repeat case_decide; naive_solver lia.
Qed.

Lemma sort_by_key_stable l k :
  filter (fun y => key y = k) (sort_by_key key l) = filter (fun y => key y = k) l.
Proof.
  induction l as [|x l IH]; [done|]. cbn [sort_by_key foldr].
  rewrite insert_by_key_stable, !filter_cons. fold (sort_by_key key l). by rewrite IH.
Qed.

Lemma min_by_key_None l : min_by_key key l = None <-> l = [].
Proof. destruct l as [|x l]; cbn; [done|]. repeat case_match; naive_solver. Qed.

Lemma min_by_key_Some l x :
  min_by_key key l = Some x -> x ∈ l /\ forall y, y ∈ l -> key x <= key y.
Proof.
  revert x. induction l as [|z l IH]; intros x; cbn; [done|].
  destruct (min_by_key key l) as [y|] eqn:Hm.
  - destruct (IH y eq_refl) as [Hin Hle].
    destruct (Z.leb_spec (key z) (key y)); intros [= <-]; (split; [set_solver|]);
      intros w [->|Hw]%elem_of_cons; try lia; specialize (Hle w Hw); lia.
  - apply min_by_key_None in Hm as ->. intros [= <-]. split; [by left|].
    intros y ->%list_elem_of_singleton. lia.
Qed.
End sorting.

(** * Expiry *)

(** The channels whose in-flight deadline has passed. *)
Definition overdue (now : Z) (c : Uuid) (q : EventQueue) : bool :=
  match in_flight_deadlines q !! c with Some d => d <=? now | None => false end.

(** What recovery leaves in the queue of a channel. *)
Definition recovered (c : Uuid) (q : EventQueue) : list QueuedEvent :=
  match withheld_native_steer q !! c with
  | Some es => take MAX_PENDING_PER_CHANNEL (es ++ chan c q)
  | None => chan c q
  end.

Lemma chan_insert c l c' q :
  chan c' (upd_queues (insert c l) q) = if decide (c = c') then l else chan c' q.
Proof. unfold chan, entries; cbn. rewrite lookup_insert. by case_decide. Qed.

Lemma chan_delete c c' q :
  chan c' (upd_queues (delete c) q) = if decide (c = c') then [] else chan c' q.
Proof. unfold chan, entries; cbn. rewrite lookup_delete. by case_decide. Qed.

Lemma recover_queues id q c :
  queues (recover_withheld_for_expired_channel id q) !! c =
  if decide (c = id /\ is_Some (withheld_native_steer q !! id))
  then Some (recovered id q) else queues q !! c.
Proof.
  unfold recover_withheld_for_expired_channel, recovered.
  destruct (withheld_native_steer q !! id) as [es|].
  - cbn. rewrite trim_take, push_front_rev_app, lookup_insert. unfold chan; cbn.
    repeat case_decide; naive_solver.
  - rewrite decide_False; [done|]. intros [_ [? [=]]].
Qed.

Lemma expire_one_fields q id :
  let q' := expire_one q id in
  in_flight_channels q' = in_flight_channels q ∖ {[id]} /\
  in_flight_deadlines q' = delete id (in_flight_deadlines q) /\
  in_flight_batch_sizes q' = delete id (in_flight_batch_sizes q) /\
  withheld_native_steer q' = delete id (withheld_native_steer q) /\
  retry_after q' = retry_after q /\ retry_counts q' = retry_counts q /\
  cancelled_batches q' = cancelled_batches q /\ cancel_reasons q' = cancel_reasons q /\
  dedup_mode q' = dedup_mode q /\ in_flight_deadline q' = in_flight_deadline q /\
  (forall c, queues q' !! c =
     if decide (c = id /\ is_Some (withheld_native_steer q !! id))
     then Some (recovered id q) else queues q !! c).
Proof.
  unfold expire_one. cbn zeta.
  assert (Hq : forall c, queues (recover_withheld_for_expired_channel id
     (upd_in_flight_deadlines (delete id) (upd_in_flight_channels (fun s => s ∖ {[id]})
        (upd_in_flight_batch_sizes (delete id) q)))) !! c =
     if decide (c = id /\ is_Some (withheld_native_steer q !! id))
     then Some (recovered id q) else queues q !! c) by (intros c; rewrite recover_queues; done).
  split_and!; try exact Hq; unfold recover_withheld_for_expired_channel; cbn;
    destruct (withheld_native_steer q !! id) eqn:Hw; try done.
  by rewrite delete_id.
Qed.

Lemma expire_all_fields ids q :
  NoDup ids ->
  let q' := foldl expire_one q ids in
  (forall c, c ∈ in_flight_channels q' <-> c ∈ in_flight_channels q /\ c ∉ ids) /\
  (forall c, in_flight_deadlines q' !! c =
     if decide (c ∈ ids) then None else in_flight_deadlines q !! c) /\
  (forall c, in_flight_batch_sizes q' !! c =
     if decide (c ∈ ids) then None else in_flight_batch_sizes q !! c) /\
  (forall c, withheld_native_steer q' !! c =
     if decide (c ∈ ids) then None else withheld_native_steer q !! c) /\
  (retry_after q' = retry_after q /\ retry_counts q' = retry_counts q /\
   cancelled_batches q' = cancelled_batches q /\ cancel_reasons q' = cancel_reasons q /\
   dedup_mode q' = dedup_mode q /\ in_flight_deadline q' = in_flight_deadline q) /\
  (forall c, queues q' !! c =
     if decide (c ∈ ids /\ is_Some (withheld_native_steer q !! c))
     then Some (recovered c q) else queues q !! c).
Proof.
  revert q. induction ids as [|id ids IH]; intros q Hnd; cbn [foldl].
  { split_and!; try done; intros c; try set_solver.
    all: rewrite decide_False; [done|set_solver]. }
  apply NoDup_cons in Hnd as [Hid Hnd].
  destruct (expire_one_fields q id) as (H1 & H2 & H3 & H4 & H5 & H6 & H7 & H8 & H9 & H10 & H11).
  destruct (IH (expire_one q id) Hnd) as (G1 & G2 & G3 & G4 & (G5 & G6 & G7 & G8 & G9 & G10) & G11).
  cbn zeta in *. split_and!; try congruence; intros c.
  - rewrite G1, H1. clear. set_solver.
  - rewrite G2, H2, lookup_delete. clear. pose proof (elem_of_cons ids c id).
    repeat case_decide; naive_solver.
  - rewrite G3, H3, lookup_delete. clear. pose proof (elem_of_cons ids c id).
    repeat case_decide; naive_solver.
  - rewrite G4, H4, lookup_delete. clear. pose proof (elem_of_cons ids c id).
    repeat case_decide; naive_solver.
  - rewrite G11, H11, H4, lookup_delete.
    assert (Hrec : c <> id -> recovered c (expire_one q id) = recovered c q).
    { intros Hne. unfold recovered. rewrite H4, lookup_delete_ne by done.
      unfold chan, entries. rewrite H11, decide_False by naive_solver. done. }
    destruct (decide (c = id)) as [->|Hne].
    + rewrite (decide_True (P := id = id)) by done.
      rewrite (decide_False (P := id ∈ ids /\ _)) by naive_solver.
      clear. pose proof (elem_of_cons ids id id).
      case_decide; case_decide; naive_solver.
    + rewrite (decide_False (P := id = c)) by done. rewrite Hrec by done.
      rewrite (decide_False (P := c = id /\ _)) by naive_solver.
      clear -Hne. pose proof (elem_of_cons ids c id).
      case_decide; case_decide; naive_solver.
Qed.

Definition overdue_ids (now : Z) (q : EventQueue) : list Uuid :=
  (filter (fun '(_, deadline) => deadline <= now) (hash_iter (in_flight_deadlines q))).*1.

Lemma NoDup_overdue_ids now q : NoDup (overdue_ids now q).
Proof.
  unfold overdue_ids. pose proof (NoDup_hash_iter (in_flight_deadlines q)) as Hnd.
  revert Hnd. generalize (hash_iter (in_flight_deadlines q)). intros l.
  induction l as [|[k v] l IH]; cbn; [done|]. intros [Hk Hnd]%NoDup_cons.
  case_decide; [|by apply IH]. constructor; [|by apply IH].
  intros ([k' v'] & Heq & Hin)%list_elem_of_fmap. apply list_elem_of_filter in Hin as [_ Hin].
  cbn in Heq; subst k'.
  apply Hk. apply list_elem_of_fmap. exists (k, v'). done.
Qed.

Lemma elem_of_overdue_ids now q c : c ∈ overdue_ids now q <-> overdue now c q = true.
Proof.
  unfold overdue_ids, overdue. rewrite list_elem_of_fmap. split.
  - intros ([k d] & -> & Hin). apply list_elem_of_filter in Hin as [Hd Hin%elem_of_hash_iter].
    cbn. rewrite Hin. by apply Z.leb_le.
  - destruct (in_flight_deadlines q !! c) as [d|] eqn:Hd; [|done]. intros Hle%Z.leb_le.
    exists (c, d). split; [done|]. apply list_elem_of_filter.
    by rewrite elem_of_hash_iter.
Qed.

Lemma expire_fields now q :
  let q' := expire now q in
  (forall c, c ∈ in_flight_channels q' <-> c ∈ in_flight_channels q /\ overdue now c q = false) /\
  (forall c, in_flight_deadlines q' !! c =
     if overdue now c q then None else in_flight_deadlines q !! c) /\
  (forall c, in_flight_batch_sizes q' !! c =
     if overdue now c q then None else in_flight_batch_sizes q !! c) /\
  (forall c, withheld_native_steer q' !! c =
     if overdue now c q then None else withheld_native_steer q !! c) /\
  (retry_after q' = retry_after q /\ retry_counts q' = retry_counts q /\
   cancelled_batches q' = cancelled_batches q /\ cancel_reasons q' = cancel_reasons q /\
   dedup_mode q' = dedup_mode q /\ in_flight_deadline q' = in_flight_deadline q) /\
  (forall c, chan c q' = if overdue now c q then recovered c q else chan c q).
Proof.
  destruct (expire_all_fields (overdue_ids now q) q (NoDup_overdue_ids now q))
    as (G1 & G2 & G3 & G4 & G5 & G6).
  unfold expire. fold (overdue_ids now q). cbn zeta in *.
  assert (Hd : forall c, c ∈ overdue_ids now q <-> overdue now c q = true)
    by (intros c; apply elem_of_overdue_ids).
  split_and!; try (by apply G5); intros c; specialize (Hd c).
  - rewrite G1, Hd. destruct (overdue now c q); naive_solver.
  - rewrite G2. case_decide; destruct (overdue now c q); naive_solver.
  - rewrite G3. case_decide; destruct (overdue now c q); naive_solver.
  - rewrite G4. case_decide; destruct (overdue now c q); naive_solver.
  - unfold chan at 1, entries. rewrite G6. unfold recovered.
    destruct (overdue now c q), (withheld_native_steer q !! c);
      case_decide as Hx; try done; exfalso; naive_solver.
Qed.

(** * Choosing and draining a channel *)

(** A channel whose queue may be flushed. *)
Definition ready (now : Z) (c : Uuid) (q : EventQueue) : Prop :=
  chan c q <> [] /\ c ∉ in_flight_channels q /\
  (forall t, retry_after q !! c = Some t -> t <= now).

Lemma flushable_true now q c l :
  queues q !! c = Some l -> flushable now q (c, l) = true <-> ready now c q.
Proof.
  intros Hl. unfold flushable, ready, not_throttled, chan, entries. rewrite Hl. cbn.
  rewrite !andb_true_iff, !negb_true_iff, bool_decide_eq_false.
  destruct l, (retry_after q !! c) as [t|]; rewrite ?Z.leb_le; naive_solver.
Qed.

Lemma chan_not_nil c q : chan c q <> [] -> exists l, queues q !! c = Some l /\ chan c q = l.
Proof. unfold chan, entries. destruct (queues q !! c); naive_solver. Qed.

Lemma pick_channel_Some now q c :
  pick_channel now q = Some c ->
  ready now c q /\
  forall c' x l x' l', ready now c' q -> chan c q = x :: l -> chan c' q = x' :: l' ->
    qe_received_at x <= qe_received_at x'.
Proof.
  unfold pick_channel. intros ([c0 l0] & Hmin & ->)%fmap_Some.
  apply min_by_key_Some in Hmin as [Hin Hle].
  apply list_elem_of_filter in Hin as [Hf Hin%elem_of_hash_iter].
  cbn [fst]. split; [by eapply flushable_true|].
  intros c' x l x' l' Hr Hc Hc'.
  destruct (chan_not_nil c' q) as (l1 & Hl1 & Heq); [by rewrite Hc'|].
  specialize (Hle (c', l1)). rewrite list_elem_of_filter, elem_of_hash_iter in Hle.
  specialize (Hle (conj (proj2 (flushable_true now q c' l1 Hl1) Hr) Hl1)).
  assert (chan c0 q = l0) as H0 by (unfold chan, entries; by rewrite Hin).
  rewrite Hc in H0. rewrite Hc' in Heq. subst l0 l1. done.
Qed.

Lemma pick_channel_None now q :
  pick_channel now q = None <-> forall c, ~ ready now c q.
Proof.
  unfold pick_channel. rewrite fmap_None. split.
  - intros Hnil%min_by_key_None c Hr. destruct (chan_not_nil c q) as (l & Hl & _); [by apply Hr|].
    assert (Hin : (c, l) ∈ filter (fun p => flushable now q p = true) (hash_iter (queues q))).
    { apply list_elem_of_filter. rewrite elem_of_hash_iter. split; [|done].
      by apply flushable_true. }
    rewrite Hnil in Hin. by apply not_elem_of_nil in Hin.
  - intros Hno. apply min_by_key_None, elem_of_nil_inv. intros [c l] Hin.
    apply list_elem_of_filter in Hin as [Hf Hin%elem_of_hash_iter].
    apply (Hno c). by apply (flushable_true now q c l).
Qed.

Lemma pick_cancelled_Some q c :
  pick_cancelled q = Some c -> is_Some (cancelled_batches q !! c) /\ c ∉ in_flight_channels q.
Proof.
  unfold pick_cancelled. intros Hh. apply head_Some_elem_of in Hh.
  apply list_elem_of_filter in Hh as [Hnf ([c' l] & -> & Hin)%list_elem_of_fmap].
  apply elem_of_hash_iter in Hin. eauto.
Qed.

Lemma pick_cancelled_None q c :
  pick_cancelled q = None -> is_Some (cancelled_batches q !! c) -> c ∈ in_flight_channels q.
Proof.
  unfold pick_cancelled. intros Hn [l Hl].
  destruct (decide (c ∈ in_flight_channels q)); [done|].
  assert (Hin : c ∈ filter (fun id => id ∉ in_flight_channels q)
                      (hash_iter (cancelled_batches q)).*1).
  { apply list_elem_of_filter. split; [done|]. apply list_elem_of_fmap.
    exists (c, l). by rewrite elem_of_hash_iter. }
  destruct (filter _ _); [by apply not_elem_of_nil in Hin|done].
Qed.

(** The queue map after a drain. *)
Lemma drain_batch_eq now c q :
  drain_batch now c q =
  (upd_cancel_reasons (delete c)
     (upd_cancelled_batches (delete c)
        (start_flight now c (Nat.min MAX_BATCH_EVENTS (length (chan c q)))
           (upd_queues (store_nonempty c (drop MAX_BATCH_EVENTS (chan c q))) q))),
   mkBatch c
     (sort_by_key (fun be => ev_created_at (be_event be))
        (to_batch <$> take MAX_BATCH_EVENTS (chan c q)))
     (entries c (cancelled_batches q))
     (match entries c (cancelled_batches q) with [] => None | _ => cancel_reasons q !! c end)).
Proof.
  unfold drain_batch. cbn zeta.
  assert (Ht : take (Nat.min MAX_BATCH_EVENTS (length (chan c q))) (chan c q)
               = take MAX_BATCH_EVENTS (chan c q)).
  { destruct (Nat.min_spec MAX_BATCH_EVENTS (length (chan c q))) as [[? ->]|[? ->]]; [done|].
    by rewrite !take_ge by lia. }
  assert (Hd : drop (Nat.min MAX_BATCH_EVENTS (length (chan c q))) (chan c q)
               = drop MAX_BATCH_EVENTS (chan c q)).
  { destruct (Nat.min_spec MAX_BATCH_EVENTS (length (chan c q))) as [[? ->]|[? ->]]; [done|].
    by rewrite !drop_ge by lia. }
  rewrite Ht, Hd, chan_insert, decide_True by done.
  rewrite (Permutation_length (sort_by_key_perm _ _)), length_fmap, length_take.
  unfold store_nonempty. destruct (drop MAX_BATCH_EVENTS (chan c q)) as [|x l].
  - cbn. unfold upd_queues; cbn. by rewrite delete_insert_eq.
  - reflexivity.
Qed.

Lemma chan_store_nonempty c l c' q :
  chan c' (upd_queues (store_nonempty c l) q) = if decide (c = c') then l else chan c' q.
Proof.
  destruct l; cbn [store_nonempty]; [apply chan_delete|apply chan_insert].
Qed.

(** * The invariant *)

Record queue_wf (q : EventQueue) : Prop := {
  wf_deadline : forall c, is_Some (in_flight_deadlines q !! c) <-> c ∈ in_flight_channels q;
  wf_size : forall c, is_Some (in_flight_batch_sizes q !! c) <-> c ∈ in_flight_channels q;
  wf_cap : forall c, (length (chan c q) <= MAX_PENDING_PER_CHANNEL)%nat;
  wf_channel : forall c,
    Forall (fun qe => qe_channel_id qe = c) (chan c q ++ entries c (withheld_native_steer q));
  wf_withheld : forall c, withheld_native_steer q !! c <> Some [];
  wf_counts : forall c n, retry_counts q !! c = Some n -> 1 <= n <= MAX_RETRIES;
  wf_throttle : forall c, is_Some (retry_after q !! c) -> is_Some (retry_counts q !! c);
  wf_cancel : forall c, is_Some (cancelled_batches q !! c) <-> is_Some (cancel_reasons q !! c)
}.

Lemma recovered_eq q c :
  queue_wf q ->
  recovered c q =
  take MAX_PENDING_PER_CHANNEL (entries c (withheld_native_steer q) ++ chan c q).
Proof.
  intros Hwf. unfold recovered, entries at 1. destruct (withheld_native_steer q !! c); [done|].
  cbn. by rewrite take_ge by apply (wf_cap q Hwf).
Qed.

Lemma queue_new_wf mode : queue_wf (queue_new mode).
Proof.
  constructor; intros c; unfold chan, entries; cbn; rewrite ?lookup_empty; cbn; try done.
  all: first [lia | by constructor | by intros [] | split; [by intros []|set_solver]].
Qed.

Lemma expire_wf now q : queue_wf q -> queue_wf (expire now q).
Proof.
  intros Hwf. destruct (expire_fields now q)
    as (E1 & E2 & E3 & E4 & (E5 & E6 & E7 & E8 & _ & _) & E9).
  cbn zeta in *. constructor; intros c.
  - rewrite E1, E2. pose proof (wf_deadline q Hwf c) as H.
    destruct (overdue now c q); [split; [by intros []|naive_solver]|naive_solver].
  - rewrite E1, E3. pose proof (wf_size q Hwf c) as H.
    destruct (overdue now c q); [split; [by intros []|naive_solver]|naive_solver].
  - rewrite E9. pose proof (wf_cap q Hwf c). destruct (overdue now c q); [|done].
    rewrite recovered_eq by done. rewrite length_take. lia.
  - rewrite E9. unfold entries. rewrite E4. pose proof (wf_channel q Hwf c) as H.
    destruct (overdue now c q); [|done]. rewrite recovered_eq by done. cbn.
    rewrite app_nil_r. apply Forall_take. by rewrite Permutation_app_comm.
  - rewrite E4. destruct (overdue now c q); [done|]. apply (wf_withheld q Hwf).
  - rewrite E6. apply (wf_counts q Hwf).
  - rewrite E5, E6. apply (wf_throttle q Hwf).
  - rewrite E7, E8. apply (wf_cancel q Hwf).
Qed.

(** Looks up maps and sets after an update, by cases on the key. *)
Ltac queue_cases :=
  repeat first
    [ rewrite lookup_insert | rewrite lookup_delete | rewrite elem_of_union
    | rewrite elem_of_difference | rewrite elem_of_singleton
    | rewrite chan_insert | rewrite chan_delete | rewrite chan_store_nonempty ];
  repeat case_decide; subst.

Lemma start_flight_wf now c n q :
  queue_wf q -> queue_wf (start_flight now c n q).
Proof.
  intros []. constructor; try done; intros c'; cbn; queue_cases; naive_solver.
Qed.

Lemma drop_cancelled_wf c q :
  queue_wf q -> queue_wf (upd_cancel_reasons (delete c) (upd_cancelled_batches (delete c) q)).
Proof.
  intros []. constructor; try done. intros c'; cbn; queue_cases; [by split; intros []|done].
Qed.

Lemma set_chan_wf c l f q :
  (forall c', chan c' (upd_queues f q) = if decide (c = c') then l else chan c' q) ->
  (length l <= MAX_PENDING_PER_CHANNEL)%nat -> Forall (fun qe => qe_channel_id qe = c) l ->
  queue_wf q -> queue_wf (upd_queues f q).
Proof.
  intros Hch Hlen Hl Hwf. destruct Hwf as [? ? ? Hc]. constructor; try done; intros c'; rewrite Hch.
  - by case_decide.
  - specialize (Hc c'). case_decide; [|done]. subst.
    apply Forall_app in Hc as [_ Hw]. apply Forall_app. by split.
Qed.

Lemma chan_channel q c : queue_wf q -> Forall (fun qe => qe_channel_id qe = c) (chan c q).
Proof. intros Hwf. pose proof (wf_channel q Hwf c) as H. by apply Forall_app in H as [? _]. Qed.

Lemma drain_batch_wf now c q : queue_wf q -> queue_wf (drain_batch now c q).1.
Proof.
  intros Hwf. rewrite drain_batch_eq. cbn [fst].
  apply drop_cancelled_wf, start_flight_wf.
  eapply set_chan_wf; [intros c'; apply chan_store_nonempty| | |done].
  - rewrite length_drop. pose proof (wf_cap q Hwf c). lia.
  - by apply Forall_drop, chan_channel.
Qed.

Lemma flush_next_wf now q : queue_wf q -> queue_wf (flush_next now q).1.
Proof.
  intros Hwf%(expire_wf now). unfold flush_next, flush_ready.
  destruct (pick_channel now (expire now q)) as [c|].
  - pose proof (drain_batch_wf now c _ Hwf). by destruct (drain_batch _ _ _).
  - destruct (pick_cancelled _) as [c|]; [|done]. cbn.
    apply start_flight_wf. by apply drop_cancelled_wf.
Qed.

(** Events put back in front of a channel, within the cap. *)
Lemma put_back_wf c (es : list QueuedEvent) q :
  Forall (fun qe => qe_channel_id qe = c) es -> queue_wf q ->
  queue_wf (upd_queues (insert c (trim (push_front_rev es (chan c q)))) q).
Proof.
  intros Hes Hwf. eapply set_chan_wf; [intros c'; apply chan_insert| | |done];
    rewrite trim_take, push_front_rev_app.
  - rewrite length_take. lia.
  - apply Forall_take, Forall_app. split; [done|]. by apply chan_channel.
Qed.

Lemma Forall_to_queued c l :
  Forall (fun qe => qe_channel_id qe = c) (to_queued c <$> l).
Proof. induction l; constructor; done. Qed.

Lemma push_wf e q : queue_wf q -> queue_wf (push e q).1.
Proof.
  intros Hwf. unfold push. destruct (_ && _); [done|]. cbn [fst].
  eapply set_chan_wf; [intros c'; apply chan_insert| | |done].
  - pose proof (wf_cap q Hwf (qe_channel_id e)) as Hcap. rewrite length_app. cbn.
    destruct (Nat.leb_spec MAX_PENDING_PER_CHANNEL (length (chan (qe_channel_id e) q))); [|lia].
    destruct (chan (qe_channel_id e) q); cbn in *; [unfold MAX_PENDING_PER_CHANNEL in *; lia|lia].
  - pose proof (chan_channel q (qe_channel_id e) Hwf) as Hc.
    apply Forall_app. split; [|by constructor].
    destruct (_ <=? _)%nat; [|done]. destruct (chan _ q); [done|]. by inversion Hc.
Qed.

Lemma mark_complete_wf now c q : queue_wf q -> queue_wf (mark_complete now c q).
Proof.
  intros []. unfold mark_complete.
  set (q1 := upd_in_flight_batch_sizes _ _).
  assert (H1 : queue_wf q1).
  { constructor; try done; intros c'; cbn; queue_cases; try naive_solver.
    all: split; [by intros []|set_solver]. }
  clearbody q1. destruct H1 as [F1 F2 F3 F4 F5 F6 F7 F8].
  destruct (retry_after q1 !! c) as [d|] eqn:Hd.
  - destruct (now <? d); [by constructor|].
    constructor; try done; intros c'; cbn; queue_cases; try done;
      first [by intros []|apply F6|apply F7].
  - constructor; try done; intros c'; cbn; queue_cases; try done;
      first [apply F6|apply F7|rewrite Hd; by intros []].
Qed.

Lemma requeue_wf now nanos b q : queue_wf q -> queue_wf (requeue now nanos b q).1.
Proof.
  intros Hwf. unfold requeue.
  set (c := fb_channel_id b). set (n := default 0 (retry_counts q !! c) + 1).
  destruct (Z.ltb_spec MAX_RETRIES n) as [Hn|Hn]; cbn [fst].
  - constructor; [apply (wf_deadline _ Hwf)|apply (wf_size _ Hwf)|apply (wf_cap _ Hwf)
      |apply (wf_channel _ Hwf)|apply (wf_withheld _ Hwf)| | |apply (wf_cancel _ Hwf)];
      intros c'; cbn; queue_cases; try done;
      first [apply (wf_counts _ Hwf)|apply (wf_throttle _ Hwf)|by intros []].
  - assert (Hpos : 1 <= n).
    { unfold n. destruct (retry_counts q !! c) as [m|] eqn:Hm; cbn; [|lia].
      pose proof (wf_counts q Hwf c m Hm). lia. }
    apply (put_back_wf c (to_queued c <$> fb_events b)) in Hwf; [|apply Forall_to_queued].
    constructor; [apply (wf_deadline _ Hwf)|apply (wf_size _ Hwf)|apply (wf_cap _ Hwf)
      |apply (wf_channel _ Hwf)|apply (wf_withheld _ Hwf)| | |apply (wf_cancel _ Hwf)];
      intros c'; cbn; queue_cases; try done.
    all: first [by intros m [= <-]|apply (wf_counts _ Hwf)|apply (wf_throttle _ Hwf)].
Qed.

Lemma requeue_as_cancelled_wf b r q : queue_wf q -> queue_wf (requeue_as_cancelled b r q).
Proof.
  intros []. constructor; try done. intros c'; cbn. queue_cases; [by split; eauto|done].
Qed.

Lemma drain_channel_wf c q : queue_wf q -> queue_wf (drain_channel c q).1.
Proof.
  intros Hwf. unfold drain_channel; cbn [fst].
  constructor; intros c'; unfold chan, entries; cbn; queue_cases; cbn;
    first [ apply (wf_deadline _ Hwf) | apply (wf_size _ Hwf) | apply (wf_cap _ Hwf)
          | apply (wf_channel _ Hwf) | apply (wf_withheld _ Hwf) | apply (wf_counts _ Hwf)
          | apply (wf_throttle _ Hwf) | apply (wf_cancel _ Hwf)
          | lia | by constructor | by intros [] | by split; intros [] | done ].
Qed.

Lemma take_first_Some id l x rest :
  take_first id l = Some (x, rest) -> has_id id x = true /\ l ≡ₚ x :: rest.
Proof.
  revert x rest. induction l as [|y l IH]; intros x rest; cbn; [done|].
  destruct (has_id id y) eqn:Hy; [intros [= -> ->]; done|].
  destruct (take_first id l) as [[x' rest']|]; [|done].
  intros [= -> <-]. destruct (IH x rest' eq_refl) as [Hx Hl].
  split; [done|]. rewrite Hl. apply Permutation_swap.
Qed.

Lemma take_first_None id l :
  take_first id l = None <-> Forall (fun x => has_id id x = false) l.
Proof.
  induction l as [|y l IH]; cbn; [done|]. rewrite Forall_cons.
  destruct (has_id id y); [naive_solver|]. destruct (take_first id l) as [[]|]; naive_solver.
Qed.

(** Changing the queue and the side table of one channel. *)
Lemma move_wf c (fq fw : gmap Uuid (list QueuedEvent) -> gmap Uuid (list QueuedEvent)) lq lw q :
  (forall c', entries c' (fq (queues q)) = if decide (c = c') then lq else chan c' q) ->
  (forall c', entries c' (fw (withheld_native_steer q)) =
     if decide (c = c') then lw else entries c' (withheld_native_steer q)) ->
  (forall c', withheld_native_steer q !! c' <> Some [] ->
     fw (withheld_native_steer q) !! c' <> Some []) ->
  (length lq <= MAX_PENDING_PER_CHANNEL)%nat ->
  Forall (fun qe => qe_channel_id qe = c) (lq ++ lw) ->
  queue_wf q ->
  queue_wf (upd_queues fq (upd_withheld_native_steer fw q)).
Proof.
  intros Hq Hw Hne Hlen Hc Hwf. constructor; try apply Hwf; intros c';
    unfold chan; cbn [queues withheld_native_steer upd_queues upd_withheld_native_steer].
  - rewrite Hq. case_decide; [done|]. apply (wf_cap q Hwf).
  - rewrite Hq, Hw. case_decide; [by subst|]. apply (wf_channel q Hwf).
  - apply Hne, (wf_withheld q Hwf).
Qed.

Lemma entries_store_nonempty {B : Type} c (l : list B) m c' :
  entries c' (store_nonempty c l m) = if decide (c = c') then l else entries c' m.
Proof.
  unfold entries. destruct l; cbn [store_nonempty].
  - rewrite lookup_delete. by case_decide.
  - rewrite lookup_insert. by case_decide.
Qed.

Lemma chan_entries c q : chan c q = entries c (queues q).
Proof. done. Qed.

Lemma mark_native_steer_wf c id q :
  queue_wf q -> queue_wf (mark_native_steer_pending c id q).1.
Proof.
  intros Hwf. unfold mark_native_steer_pending.
  destruct (queues q !! c) as [l|] eqn:Hl; [|done].
  destruct (take_first id l) as [[x rest]|] eqn:Ht; [|done]. cbn [fst].
  apply take_first_Some in Ht as [_ Hp].
  assert (Hch : chan c q = l) by (unfold chan, entries; by rewrite Hl).
  pose proof (wf_cap q Hwf c) as Hcap. pose proof (wf_channel q Hwf c) as Hc.
  rewrite Hch in Hcap, Hc. rewrite Hp in Hc.
  rewrite (Permutation_length Hp) in Hcap. cbn in Hcap.
  change (queue_wf (upd_queues (store_nonempty c rest)
    (upd_withheld_native_steer (entry_push c x) q))).
  eapply (move_wf c _ _ rest (entries c (withheld_native_steer q) ++ [x])); [| | | | |done].
  - intros c'. apply entries_store_nonempty.
  - intros c'. apply entries_push.
  - intros c' Hne. unfold entry_push. rewrite lookup_insert. case_decide; [|done].
    by destruct (entries c _).
  - lia.
  - rewrite app_assoc. by rewrite Permutation_app_comm.
Qed.

Lemma release_native_steer_wf c id q :
  queue_wf q -> queue_wf (release_native_steer c id q).
Proof.
  intros Hwf. unfold release_native_steer.
  destruct (withheld_native_steer q !! c) as [l|] eqn:Hl; [|done].
  destruct (take_first id l) as [[x rest]|] eqn:Ht; [|done].
  apply take_first_Some in Ht as [_ Hp].
  pose proof (wf_channel q Hwf c) as Hc. unfold entries in Hc at 1. rewrite Hl in Hc.
  cbn [default] in Hc. rewrite Hp in Hc. apply Forall_app in Hc as [Hc1 Hc2].
  apply Forall_cons in Hc2 as [Hx Hrest].
  eapply (move_wf c _ _ (trim (x :: chan c q)) rest); [| | | | |done].
  - intros c'. unfold entries at 1. rewrite lookup_insert. by case_decide.
  - intros c'. apply entries_store_nonempty.
  - intros c' Hne. destruct rest; cbn [store_nonempty].
    + rewrite lookup_delete. by case_decide.
    + rewrite lookup_insert. by case_decide.
  - rewrite trim_take, length_take. lia.
  - apply Forall_app. split; [|done]. rewrite trim_take. apply Forall_take. by constructor.
Qed.

Lemma remove_event_wf c id q : queue_wf q -> queue_wf (remove_event c id q).
Proof.
  intros Hwf. unfold remove_event. pose proof (wf_channel q Hwf c) as Hc.
  apply Forall_app in Hc as [Hc1 Hc2].
  eapply (move_wf c); [| | | | |done].
  - intros c'. apply entries_retain.
  - intros c'. apply entries_retain.
  - intros c' Hne. unfold entry_retain. destruct (withheld_native_steer q !! c) as [l|]; [|done].
    destruct (filter _ l) eqn:Hf.
    + rewrite lookup_delete. by case_decide.
    + rewrite lookup_insert. by case_decide.
  - etrans; [apply length_filter|]. apply (wf_cap q Hwf).
  - apply Forall_app. split; apply Forall_forall; intros y [_ Hy]%list_elem_of_filter.
    + by eapply Forall_forall in Hc1.
    + by eapply Forall_forall in Hc2.
Qed.

Lemma compact_wf now q : queue_wf q -> queue_wf (compact_expired_state now q).
Proof.
  intros Hwf. unfold compact_expired_state.
  constructor; [apply (wf_deadline _ Hwf)|apply (wf_size _ Hwf)|apply (wf_cap _ Hwf)
    |apply (wf_channel _ Hwf)|apply (wf_withheld _ Hwf)| | |apply (wf_cancel _ Hwf)];
    intros c; cbn [retry_counts retry_after upd_retry_counts upd_retry_after].
  - intros n [Hn _]%map_lookup_filter_Some. by apply (wf_counts q Hwf c).
  - intros [t Ht]. assert (is_Some (retry_counts q !! c)) as [n Hn].
    { apply map_lookup_filter_Some in Ht as [Ht _]. apply (wf_throttle q Hwf). eauto. }
    exists n. apply map_lookup_filter_Some. split; [done|]. left. eauto.
Qed.

Lemma extend_wf now c s q : queue_wf q -> queue_wf (extend_in_flight_deadline now c s q).
Proof.
  intros Hwf. unfold extend_in_flight_deadline.
  destruct (in_flight_deadlines q !! c) as [d|] eqn:Hd; [|done].
  destruct (d <? _); [|done]. constructor; try apply Hwf.
  intros c'; cbn. pose proof (wf_deadline q Hwf c') as H. rewrite lookup_insert.
  case_decide; [subst|done]. rewrite <-H, Hd. by split; eauto.
Qed.

Lemma exec_wf op q : queue_wf q -> queue_wf (exec op q).1.
Proof.
  intros Hwf. destruct op; cbn [exec fst].
  - by destruct Hwf.
  - by apply extend_wf.
  - by apply push_wf.
  - by apply flush_next_wf.
  - by apply mark_complete_wf.
  - by apply requeue_wf.
  - apply put_back_wf; [apply Forall_to_queued|done].
  - by apply requeue_as_cancelled_wf.
  - by apply expire_wf.
  - by apply drain_channel_wf.
  - by apply mark_native_steer_wf.
  - by apply release_native_steer_wf.
  - by apply remove_event_wf.
  - by apply compact_wf.
Qed.

Lemma run_wf ops q : queue_wf q -> queue_wf (run ops q).1.
Proof.
  revert q. induction ops as [|op ops IH]; intros q Hwf; [done|]. cbn [run].
  pose proof (exec_wf op q Hwf) as H1. destruct (exec op q) as [q1 out]. cbn [fst] in H1.
  specialize (IH q1 H1). by destruct (run ops q1).
Qed.

(** After any sequence of operations with any clock readings: every channel in flight
    has a deadline and a batch size (so none is blocked forever), no queue exceeds its
    cap, events are stored under their own channel, the side table keeps no empty list,
    retry counters stay within 1..=MAX_RETRIES, a throttled channel has a counter, and a
    cancelled batch always has its reason. *)
Theorem queue_invariant (ops : list Op) (mode : DedupMode) :
  queue_wf (run ops (queue_new mode)).1.
Proof. apply run_wf, queue_new_wf. Qed.

(** * Flushing *)

Lemma drain_chan now c q c' :
  chan c' (drain_batch now c q).1 =
  if decide (c = c') then drop MAX_BATCH_EVENTS (chan c q) else chan c' q.
Proof. rewrite drain_batch_eq. apply chan_store_nonempty. Qed.

Lemma flush_next_eq now q :
  let q1 := expire now q in
  flush_next now q =
  match pick_channel now q1 with
  | Some c => ((drain_batch now c q1).1, Some (drain_batch now c q1).2)
  | None =>
      match pick_cancelled q1 with
      | Some c => ((take_cancelled now c q1).1, Some (take_cancelled now c q1).2)
      | None => (q1, None)
      end
  end.
Proof.
  cbn zeta. unfold flush_next, flush_ready. destruct (pick_channel _ _).
  - by destruct (drain_batch _ _ _).
  - destruct (pick_cancelled _); [|done]. by destruct (take_cancelled _ _ _).
Qed.

(** What a batch taken from a channel's queue holds. *)
Definition drained_batch (c : Uuid) (q : EventQueue) (b : FlushBatch) : Prop :=
  fb_events b ≡ₚ to_batch <$> take MAX_BATCH_EVENTS (chan c q) /\
  StronglySorted (fun x y => ev_created_at (be_event x) <= ev_created_at (be_event y))
    (fb_events b) /\
  (forall k, filter (fun x => ev_created_at (be_event x) = k) (fb_events b) =
     filter (fun x => ev_created_at (be_event x) = k)
       (to_batch <$> take MAX_BATCH_EVENTS (chan c q))) /\
  fb_cancelled_events b = entries c (cancelled_batches q).

(** A flush hands out a batch for a channel that is neither in flight nor throttled, and
    whose head is the oldest among such channels: at most MAX_BATCH_EVENTS events from
    the front of its queue, oldest creation time first and stably, with the channel's
    cancelled events; the rest stays queued.  Only when no channel is ready does it
    re-dispatch a cancelled batch, and only when there is none does it return nothing.
    The channel is then in flight with a fresh deadline. *)
Theorem flush_next_spec (now : Z) (q : EventQueue) :
  let q1 := expire now q in
  match flush_next now q with
  | (q', Some b) =>
      let c := fb_channel_id b in
      c ∉ in_flight_channels q1 /\ c ∈ in_flight_channels q' /\
      in_flight_deadlines q' !! c = Some (now + in_flight_deadline q) /\
      cancelled_batches q' !! c = None /\
      (forall c', c' <> c -> chan c' q' = chan c' q1) /\
      ((ready now c q1 /\
        (forall c' x l x' l', ready now c' q1 -> chan c q1 = x :: l ->
           chan c' q1 = x' :: l' -> qe_received_at x <= qe_received_at x') /\
        drained_batch c q1 b /\ chan c q' = drop MAX_BATCH_EVENTS (chan c q1)) \/
       ((forall c', ~ ready now c' q1) /\ fb_events b = entries c (cancelled_batches q1) /\
        is_Some (cancelled_batches q1 !! c) /\
        fb_cancelled_events b = [] /\ fb_cancel_reason b = cancel_reasons q1 !! c /\
        chan c q' = chan c q1))
  | (q', None) =>
      q' = q1 /\ (forall c, ~ ready now c q1) /\
      (forall c, is_Some (cancelled_batches q1 !! c) -> c ∈ in_flight_channels q1)
  end.
Proof.
  cbn zeta. rewrite flush_next_eq. cbn zeta.
  destruct (expire_fields now q) as (_ & _ & _ & _ & (_ & _ & _ & _ & _ & Hdl) & _).
  cbn zeta in Hdl. rewrite <-Hdl. clear Hdl. generalize (expire now q). intros q1.
  destruct (pick_channel now q1) as [c|] eqn:Hp.
  - apply pick_channel_Some in Hp as [Hr Hmin].
    pose proof (drain_chan now c q1) as Hch.
    rewrite drain_batch_eq in Hch |- *. cbn [fst snd fb_channel_id] in *.
    split_and!; [apply Hr|cbn; set_solver|cbn; by rewrite lookup_insert_eq
      |cbn; by rewrite lookup_delete_eq|intros c' Hne; rewrite Hch; by rewrite decide_False|].
    left. split_and!; [done|done| |by rewrite Hch, decide_True].
    unfold drained_batch; cbn [fb_events fb_cancelled_events].
    split_and!; [apply sort_by_key_perm|apply sort_by_key_sorted
      |intros k; apply (sort_by_key_stable (fun x => ev_created_at (be_event x)))|done].
  - rewrite pick_channel_None in Hp. destruct (pick_cancelled q1) as [c|] eqn:Hc.
    + apply pick_cancelled_Some in Hc as [Hc Hnf].
      split_and!; [done|cbn; set_solver|cbn; by rewrite lookup_insert_eq
        |cbn; by rewrite lookup_delete_eq|done|].
      right. by split_and!.
    + split_and!; [done|done|]. intros c. by apply pick_cancelled_None.
Qed.

(** [has_flushable_work] is exactly "the next flush at this instant returns a batch",
    and both leave the same expiry behind. *)
Theorem has_flushable_work_spec (now : Z) (q : EventQueue) :
  let (q1, b) := has_flushable_work now q in
  q1 = expire now q /\ (b = true <-> is_Some (flush_next now q).2).
Proof.
  cbn. split; [done|]. rewrite flush_next_eq. cbn zeta.
  generalize (expire now q). intros q1. rewrite orb_true_iff.
  assert (H1 : existsb (flushable now q1) (hash_iter (queues q1)) = true <->
               pick_channel now q1 <> None).
  { rewrite pick_channel_None, existsb_exists. setoid_rewrite <-list_elem_of_In. split.
    - intros ([c l] & Hin%elem_of_hash_iter & Hf) Hno. apply (Hno c).
      by apply (flushable_true now q1 c l).
    - intros Hne. destruct (pick_channel now q1) as [c|] eqn:Hp.
      + apply pick_channel_Some in Hp as [Hr _].
        destruct (chan_not_nil c q1) as (l & Hl & _); [apply Hr|].
        exists (c, l). rewrite elem_of_hash_iter. split; [done|].
        by apply (flushable_true now q1 c l).
      + destruct Hne. by apply pick_channel_None. }
  assert (H2 : existsb (fun id => negb (bool_decide (id ∈ in_flight_channels q1)))
                 (hash_iter (cancelled_batches q1)).*1 = true <-> pick_cancelled q1 <> None).
  { rewrite existsb_exists. setoid_rewrite <-list_elem_of_In. split.
    - intros (c & ([c' l] & -> & Hin%elem_of_hash_iter)%list_elem_of_fmap & Hf) Hn.
      cbn in *. apply negb_true_iff, bool_decide_eq_false in Hf.
      apply Hf, (pick_cancelled_None q1 c' Hn). eauto.
    - intros Hne. destruct (pick_cancelled q1) as [c|] eqn:Hc; [|done].
      apply pick_cancelled_Some in Hc as [[l Hl] Hnf]. exists c. split.
      + apply list_elem_of_fmap. exists (c, l). by rewrite elem_of_hash_iter.
      + by rewrite negb_true_iff, bool_decide_eq_false. }
  rewrite H1, H2. destruct (pick_channel now q1) as [c|]; cbn.
  { split; [eauto|by left]. }
  destruct (pick_cancelled q1) as [c|]; cbn; [split; [eauto|by right]|].
  split; [tauto|by intros []].
Qed.

(** Everything that waits for a channel: cancelled, queued and withheld events. *)
Definition pending (c : Uuid) (q : EventQueue) : list BatchEvent :=
  entries c (cancelled_batches q) ++
  (to_batch <$> chan c q ++ entries c (withheld_native_steer q)).

Lemma expire_pending now q c :
  queue_wf q ->
  (length (entries c (withheld_native_steer q) ++ chan c q) <= MAX_PENDING_PER_CHANNEL)%nat ->
  pending c (expire now q) ≡ₚ pending c q.
Proof.
  intros Hwf Hlen. destruct (expire_fields now q)
    as (_ & _ & _ & E4 & (_ & _ & E7 & _ & _ & _) & E9).
  unfold pending. unfold entries at 1 2. rewrite E7, E4, E9.
  destruct (overdue now c q); [|done]. rewrite recovered_eq by done.
  rewrite take_ge by done. cbn. rewrite app_nil_r.
  by rewrite (Permutation_app_comm (entries c _) (chan c q)).
Qed.

(** What a flush hands out for [c], its cancelled events first. *)
Definition handed_out (c : Uuid) (out : option FlushBatch) : list BatchEvent :=
  match out with
  | Some b => if decide (fb_channel_id b = c) then fb_cancelled_events b ++ fb_events b else []
  | None => []
  end.

Lemma flush_pending now q c :
  pending c (expire now q) ≡ₚ
  handed_out c (flush_next now q).2 ++ pending c (flush_next now q).1.
Proof.
  rewrite flush_next_eq. unfold handed_out.
  cbn zeta. generalize (expire now q). clear. intros q1.
  destruct (pick_channel now q1) as [c'|]; [|destruct (pick_cancelled q1) as [c'|]; [|done]].
  - pose proof (drain_chan now c' q1 c) as Hch. rewrite drain_batch_eq in Hch |- *.
    unfold pending at 2.
    cbn [fst snd fb_channel_id fb_cancelled_events fb_events] in *. rewrite Hch.
    cbn [cancelled_batches withheld_native_steer start_flight upd_cancel_reasons
      upd_cancelled_batches upd_queues upd_in_flight_batch_sizes upd_in_flight_deadlines
      upd_in_flight_channels].
    case_decide as Hc; [subst c'|].
    + unfold entries at 2. rewrite lookup_delete_eq. cbn [default app]. unfold pending.
      rewrite sort_by_key_perm, <-app_assoc, <-fmap_app.
      by rewrite (app_assoc (take _ _)), take_drop.
    + unfold entries at 1. rewrite lookup_delete_ne by done. done.
  - cbn. unfold pending at 2. case_decide as Hc; [subst c'|]; cbn.
    + unfold entries at 2. rewrite lookup_delete_eq. done.
    + unfold entries at 1. rewrite lookup_delete_ne by done. done.
Qed.

(** C31: No event is lost or duplicated by a flush: for every channel whose withheld and
    queued events fit the cap, what waited before is, as a multiset, the batch handed
    out (if it is the batch's channel) and what waits after. *)
Theorem flush_next_conserves (now : Z) (q : EventQueue) (c : Uuid) :
  queue_wf q ->
  (length (entries c (withheld_native_steer q) ++ chan c q) <= MAX_PENDING_PER_CHANNEL)%nat ->
  pending c q ≡ₚ
  handed_out c (flush_next now q).2 ++ pending c (flush_next now q).1.
Proof.
  intros Hwf Hlen. rewrite <-(expire_pending now q c) by done. apply flush_pending.
Qed.

(** * Properties of sequences of operations *)

(** An invariant of the operations a sequence uses, and what it gives on every batch. *)
Lemma run_invariant (okop : Op -> Prop) (P : EventQueue -> Prop) (Q : FlushBatch -> Prop) :
  (forall op q, okop op -> P q ->
     P (exec op q).1 /\ forall b, (exec op q).2 = Some b -> Q b) ->
  forall ops q, Forall okop ops -> P q -> P (run ops q).1 /\ Forall Q (run ops q).2.
Proof.
  intros Hstep ops. induction ops as [|op ops IH]; intros q Hops HP; cbn [run].
  { by split; [|constructor]. }
  apply Forall_cons in Hops as [Hop Hops]. destruct (Hstep op q Hop HP) as [HP1 HQ].
  destruct (exec op q) as [q1 out]. cbn [fst snd] in *.
  destruct (IH q1 Hops HP1) as [HP2 HQ2]. destruct (run ops q1) as [q2 outs]. cbn [fst snd] in *.
  split; [done|]. destruct out as [b|]; [|done]. constructor; [by apply HQ|done].
Qed.

(** The clock an operation compares deadlines with, if it does. *)
Definition expiry_clock (op : Op) : option Z :=
  match op with OFlush now | OHasWork now => Some now | _ => None end.

(** [c] is in flight until [d] at least. *)
Definition busy_until (c : Uuid) (d : Z) (q : EventQueue) : Prop :=
  c ∈ in_flight_channels q /\ exists d', in_flight_deadlines q !! c = Some d' /\ d <= d'.

Lemma busy_expire now c d q :
  now < d -> busy_until c d q -> busy_until c d (expire now q).
Proof.
  intros Hnow [Hc (d' & Hd' & Hle)]. destruct (expire_fields now q) as (E1 & E2 & _).
  assert (Hov : overdue now c q = false) by (unfold overdue; rewrite Hd'; apply Z.leb_gt; lia).
  cbn zeta in *. unfold busy_until. rewrite E1, E2, Hov. eauto.
Qed.

Lemma busy_other c d c' now n q :
  busy_until c d q -> c' <> c -> busy_until c d (start_flight now c' n q).
Proof.
  intros [Hc (d' & Hd' & Hle)] Hne. split; [cbn; set_solver|]. exists d'. split; [|done].
  cbn. by rewrite lookup_insert_ne.
Qed.

Lemma flush_next_busy now c d q :
  now < d -> busy_until c d q ->
  busy_until c d (flush_next now q).1 /\
  forall b, (flush_next now q).2 = Some b -> fb_channel_id b <> c.
Proof.
  intros Hnow Hb%(busy_expire now); [|done]. rewrite flush_next_eq. cbn zeta.
  revert Hb. generalize (expire now q). intros q1 Hb. pose proof Hb as [Hc _].
  destruct (pick_channel now q1) as [c'|] eqn:Hp.
  - apply pick_channel_Some in Hp as [(_ & Hnf & _) _].
    assert (c' <> c) by (by intros ->). rewrite drain_batch_eq. split; [|by intros b [= <-]].
    change (busy_until c d (start_flight now c' (Nat.min MAX_BATCH_EVENTS (length (chan c' q1)))
      (upd_queues (store_nonempty c' (drop MAX_BATCH_EVENTS (chan c' q1))) q1))).
    by apply busy_other.
  - destruct (pick_cancelled q1) as [c'|] eqn:Hpc; [|done].
    apply pick_cancelled_Some in Hpc as [_ Hnf].
    assert (c' <> c) by (by intros ->). split; [|by intros b [= <-]].
    cbn [fst take_cancelled]. by apply busy_other.
Qed.

Definition keeps_busy (c : Uuid) (d : Z) (op : Op) : Prop :=
  (forall now, expiry_clock op = Some now -> now < d) /\ (forall now, op <> OComplete now c).

Lemma exec_busy c d op q :
  keeps_busy c d op -> busy_until c d q ->
  busy_until c d (exec op q).1 /\ forall b, (exec op q).2 = Some b -> fb_channel_id b <> c.
Proof.
  intros [Hclk Hdone] Hb. destruct op; cbn [exec fst snd expiry_clock] in *;
    try (split; [|by intros]); try done.
  - unfold extend_in_flight_deadline.
    destruct (in_flight_deadlines q !! ch) as [d1|] eqn:Hd1; [|done].
    destruct (Z.ltb_spec d1 (now + from_secs (max_turn_secs + IN_FLIGHT_DEADLINE_BUFFER_SECS)));
      [|done].
    destruct Hb as [Hc (d' & Hd' & Hle)]. split; [done|]. cbn. rewrite lookup_insert.
    case_decide; [|eauto]. subst. exists (now + from_secs (max_turn_secs + IN_FLIGHT_DEADLINE_BUFFER_SECS)).
    split; [done|]. rewrite Hd' in Hd1. injection Hd1 as ->. lia.
  - unfold push. by destruct (_ && _).
  - by apply flush_next_busy; [apply Hclk|].
  - assert (ch <> c) by (intros ->; by apply (Hdone now)).
    destruct Hb as [Hc (d' & Hd' & Hle)].
    assert (Hb1 : forall q', in_flight_channels q' = in_flight_channels q ∖ {[ch]} ->
      in_flight_deadlines q' = delete ch (in_flight_deadlines q) -> busy_until c d q').
    { intros q' H1 H2. split; [rewrite H1; set_solver|]. exists d'.
      by rewrite H2, lookup_delete_ne by done. }
    unfold mark_complete. cbn [retry_after upd_in_flight_batch_sizes upd_in_flight_deadlines
      upd_in_flight_channels].
    destruct (retry_after q !! ch); [destruct (now <? _)|]; by apply Hb1.
  - unfold requeue. by destruct (_ <? _).
  - by apply busy_expire; [apply Hclk|].
  - unfold mark_native_steer_pending. destruct (queues q !! ch); [|done].
    by destruct (take_first id _) as [[]|].
  - unfold release_native_steer. destruct (withheld_native_steer q !! ch); [|done].
    by destruct (take_first id _) as [[]|].
Qed.

(** C12: One prompt at a time per channel: after a flush handed out a batch for a channel,
    no sequence of operations hands out another one for it before the channel is marked
    complete or the deadline it was given at the flush passes; extensions of that deadline
    never move it backwards. *)
Theorem in_flight_exclusive (now : Z) (q q1 : EventQueue) (b : FlushBatch) (ops : list Op) :
  flush_next now q = (q1, Some b) ->
  Forall (keeps_busy (fb_channel_id b) (now + in_flight_deadline q)) ops ->
  busy_until (fb_channel_id b) (now + in_flight_deadline q) (run ops q1).1 /\
  Forall (fun b' => fb_channel_id b' <> fb_channel_id b) (run ops q1).2.
Proof.
  intros Hf Hops. set (c := fb_channel_id b) in *. set (d := now + in_flight_deadline q) in *.
  assert (Hb : busy_until c d q1).
  { revert Hf. rewrite flush_next_eq. cbn zeta.
    destruct (expire_fields now q) as (_ & _ & _ & _ & (_ & _ & _ & _ & _ & Hdl) & _).
    cbn zeta in Hdl. unfold d. rewrite <-Hdl. generalize (expire now q). intros q0.
    assert (Hst : forall n q', in_flight_deadline q' = in_flight_deadline q0 ->
      busy_until c (now + in_flight_deadline q0) (start_flight now c n q')).
    { intros n q' Hq'. split; [cbn; set_solver|]. eexists. cbn. rewrite lookup_insert_eq.
      split; [done|]. rewrite Hq'. lia. }
    destruct (pick_channel now q0) as [c'|].
    - rewrite drain_batch_eq. intros [= <- <-].
      by apply (Hst (Nat.min MAX_BATCH_EVENTS (length (chan c q0))) (upd_queues (store_nonempty c (drop MAX_BATCH_EVENTS (chan c q0))) q0)).
    - destruct (pick_cancelled q0) as [c'|]; [|done]. intros [= <- <-]. by apply Hst. }
  apply (run_invariant (keeps_busy c d) (busy_until c d) (fun b' => fb_channel_id b' <> c));
    [|done|done].
  intros op q' Hop Hq'. by apply exec_busy.
Qed.

(** ** Natively steered events *)

(** The events that a flush of [c] may hand out now, and those withheld from it. *)
Definition deliverable (c : Uuid) (q : EventQueue) : list Event :=
  (qe_event <$> chan c q) ++ (be_event <$> entries c (cancelled_batches q)).
Definition withheld (c : Uuid) (q : EventQueue) : list Event :=
  qe_event <$> entries c (withheld_native_steer q).

Definition lacks (id : string) (es : list Event) : Prop :=
  Forall (fun e => to_hex (ev_id e) <> id) es.

(** The events an operation brings into channel [c] from outside. *)
Definition op_events (c : Uuid) (op : Op) : list Event :=
  match op with
  | OPush e => if decide (qe_channel_id e = c) then [qe_event e] else []
  | ORequeue _ _ b | ORequeuePreserve b =>
      if decide (fb_channel_id b = c) then be_event <$> fb_events b else []
  | ORequeueCancelled b _ =>
      if decide (fb_channel_id b = c)
      then be_event <$> fb_cancelled_events b ++ fb_events b else []
  | _ => []
  end.

Lemma lacks_app id l1 l2 : lacks id (l1 ++ l2) <-> lacks id l1 /\ lacks id l2.
Proof. apply Forall_app. Qed.

Lemma lacks_take id n l : lacks id l -> lacks id (take n l).
Proof. apply Forall_take. Qed.

Lemma lacks_queued id l :
  lacks id (qe_event <$> l) <-> Forall (fun x => has_id id x = false) l.
Proof.
  unfold lacks. rewrite Forall_fmap. apply Forall_iff. intros x. cbn.
  unfold has_id. by rewrite String.eqb_neq.
Qed.

Lemma lacks_batch id l : lacks id (be_event <$> (to_batch <$> l)) <-> lacks id (qe_event <$> l).
Proof. unfold lacks. rewrite !Forall_fmap. done. Qed.

Lemma lacks_perm id l1 l2 : l1 ≡ₚ l2 -> lacks id l1 -> lacks id l2.
Proof. intros Hp. unfold lacks. by rewrite Hp. Qed.

Lemma lacks_put_back id c c' (es : list QueuedEvent) q :
  lacks id (if decide (c = c') then qe_event <$> es else []) -> lacks id (deliverable c' q) ->
  lacks id (deliverable c' (upd_queues (insert c (trim (push_front_rev es (chan c q)))) q)).
Proof.
  unfold deliverable. rewrite chan_insert, trim_take, push_front_rev_app.
  rewrite !lacks_app. cbn [cancelled_batches upd_queues]. case_decide; [subst|done].
  intros Hes [Hq Hc]. split; [|done]. rewrite fmap_take, fmap_app.
  apply lacks_take, lacks_app. done.
Qed.

(** Expiry only makes an event deliverable if it was withheld in an overdue channel. *)
Lemma lacks_expire id now c q :
  lacks id (deliverable c q) -> (overdue now c q = true -> lacks id (withheld c q)) ->
  lacks id (deliverable c (expire now q)).
Proof.
  intros Hq Hw. destruct (expire_fields now q) as (_ & _ & _ & _ & (_ & _ & E7 & _) & E9).
  cbn zeta in *. unfold deliverable in *. rewrite E7, E9.
  apply lacks_app in Hq as [Hq Hc]. apply lacks_app. split; [|done].
  destruct (overdue now c q); [|done]. unfold recovered. specialize (Hw eq_refl).
  unfold withheld, entries in Hw. destruct (withheld_native_steer q !! c); [|done].
  rewrite fmap_take, fmap_app. apply lacks_take, lacks_app. done.
Qed.

Lemma lacks_withheld_expire id now c q :
  lacks id (withheld c q) -> lacks id (withheld c (expire now q)).
Proof.
  destruct (expire_fields now q) as (_ & _ & _ & E4 & _). cbn zeta in *.
  unfold withheld, entries. rewrite E4. destruct (overdue now c q); [constructor|done].
Qed.

Lemma flush_next_withheld now q c :
  withheld c (flush_next now q).1 = withheld c (expire now q).
Proof.
  rewrite flush_next_eq. cbn zeta. destruct (pick_channel _ _).
  - by rewrite drain_batch_eq.
  - by destruct (pick_cancelled _).
Qed.

(** A flush after expiry hands out deliverable events only. *)
Lemma flush_next_lacks id now c q :
  lacks id (deliverable c (expire now q)) ->
  lacks id (deliverable c (flush_next now q).1) /\
  forall b, (flush_next now q).2 = Some b -> fb_channel_id b = c ->
    lacks id (be_event <$> fb_cancelled_events b ++ fb_events b).
Proof.
  rewrite flush_next_eq. cbn zeta. generalize (expire now q). intros q1 Hl.
  unfold deliverable in Hl. apply lacks_app in Hl as [Hq Hc].
  destruct (pick_channel now q1) as [c'|]; [|destruct (pick_cancelled q1) as [c'|]; [|split]].
  - split.
    + unfold deliverable. cbn [fst]. rewrite drain_chan. rewrite drain_batch_eq. cbn [fst].
      apply lacks_app. split.
      * case_decide; [subst|done]. rewrite fmap_drop. by apply Forall_drop.
      * cbn. unfold entries. rewrite lookup_delete. case_decide; [constructor|done].
    + rewrite drain_batch_eq. cbn [snd]. intros b [= <-]. cbn. intros ->.
      rewrite fmap_app. apply lacks_app. split; [done|].
      eapply lacks_perm; [symmetry; apply fmap_Permutation, sort_by_key_perm|].
      apply lacks_batch. rewrite fmap_take. by apply lacks_take.
  - split.
    + unfold deliverable. apply lacks_app. split; [done|]. cbn.
      unfold entries. rewrite lookup_delete. case_decide; [constructor|done].
    + intros b [= <-]. cbn. intros ->. done.
  - by apply lacks_app.
  - done.
Qed.

(** Operations that keep an event of [c] away from delivery when it is withheld. *)
Definition op_keeps_hidden (c : Uuid) (id : string) (op : Op) : Prop :=
  lacks id (op_events c op) /\ op <> OReleaseSteer c id.

Lemma exec_hidden c id op q :
  op_keeps_hidden c id op -> lacks id (deliverable c q) ->
  (forall now, expiry_clock op = Some now -> overdue now c q = true -> lacks id (withheld c q)) ->
  lacks id (deliverable c (exec op q).1) /\
  forall b, (exec op q).2 = Some b -> fb_channel_id b = c ->
    lacks id (be_event <$> fb_cancelled_events b ++ fb_events b).
Proof.
  intros [Hin Hrel] Hq Hexp.
  destruct op as [s|now c' s|e|now|now c'|now nanos b|b|b r|now|c'|c' i|c' i|c' i|now];
    cbn [exec fst snd op_events expiry_clock] in *; try (split; [|by intros]); try done.
  - unfold extend_in_flight_deadline. destruct (in_flight_deadlines q !! c'); [|done].
    by destruct (_ <? _).
  - unfold push. destruct (_ && _); [done|]. cbn [fst]. revert Hq. unfold deliverable.
    rewrite chan_insert, !lacks_app. cbn [cancelled_batches upd_queues].
    case_decide; [subst|done]. intros [Hq Hc]. split; [|done].
    rewrite fmap_app. apply lacks_app. split; [|done].
    destruct (_ <=? _)%nat; [|done]. destruct (chan _ q); [done|].
    by apply Forall_cons in Hq as [_ ?].
  - apply flush_next_lacks, lacks_expire; [done|]. by apply Hexp.
  - unfold mark_complete. cbn [retry_after upd_in_flight_batch_sizes upd_in_flight_deadlines
      upd_in_flight_channels]. destruct (retry_after q !! c'); [by destruct (_ <? _)|done].
  - unfold requeue. destruct (_ <? _); [done|]. cbn [fst].
    apply (lacks_put_back id (fb_channel_id b) c); [|done].
    case_decide; [|done]. unfold lacks in *. rewrite !Forall_fmap in *. done.
  - apply (lacks_put_back id (fb_channel_id b) c); [|done].
    case_decide; [|done]. unfold lacks in *. rewrite !Forall_fmap in *. done.
  - revert Hq. unfold requeue_as_cancelled, deliverable. cbn. rewrite !lacks_app.
    intros [? ?]. split; [done|]. unfold entries at 1. rewrite lookup_insert.
    case_decide; [subst|done]. cbn. rewrite <-app_assoc, fmap_app. by apply lacks_app.
  - by apply lacks_expire, (Hexp now).
  - revert Hq. unfold drain_channel, deliverable. cbn [fst].
    unfold chan, entries; cbn. rewrite !lookup_delete, !lacks_app. by case_decide.
  - unfold mark_native_steer_pending. destruct (queues q !! c') as [l|] eqn:Hl; [|done].
    destruct (take_first i l) as [[x rest]|] eqn:Ht; [|done]. cbn [fst].
    apply take_first_Some in Ht as [_ Hp]. revert Hq. unfold deliverable.
    change (chan c (upd_withheld_native_steer _ ?q')) with (chan c q').
    rewrite chan_store_nonempty, !lacks_app. cbn. intros [Hq Hc]. split; [|done].
    case_decide; [subst|done]. revert Hq. unfold chan, entries. rewrite Hl. cbn.
    intros Hq. eapply lacks_perm in Hq; [|apply fmap_Permutation, Hp]. by apply Forall_cons in Hq as [_ ?].
  - unfold release_native_steer. destruct (withheld_native_steer q !! c') as [l|] eqn:Hl; [|done].
    destruct (take_first i l) as [[x rest]|] eqn:Ht; [|done].
    apply take_first_Some in Ht as [Hx _].
    apply (lacks_put_back id c' c [x]); [|done]. case_decide; [subst|done].
    constructor; [|done]. apply String.eqb_eq in Hx. cbn. rewrite Hx. intros ->. by apply Hrel.
  - revert Hq. unfold remove_event, deliverable. rewrite !chan_entries.
    cbn [queues cancelled_batches upd_queues upd_withheld_native_steer].
    rewrite entries_retain, !lacks_app. intros [Hq Hc]. split; [|done].
    case_decide; [subst|done]. rewrite lacks_queued in *.
    apply Forall_forall. intros y [_ Hy]%list_elem_of_filter. by eapply Forall_forall in Hq.
Qed.

(** The operations allowed while an acknowledgement is awaited: clock readings within
    [[t0, t0 + budget)], no release of the event, no second copy of it. *)
Definition awaiting (c : Uuid) (id : string) (t0 budget : Z) (op : Op) : Prop :=
  op_keeps_hidden c id op /\ (forall now, expiry_clock op = Some now -> t0 <= now < t0 + budget) /\
  (forall s, op <> OWithDeadline s).

Definition hidden_until (c : Uuid) (id : string) (t0 budget : Z) (q : EventQueue) : Prop :=
  lacks id (deliverable c q) /\ in_flight_deadline q = budget /\
  forall d, in_flight_deadlines q !! c = Some d -> t0 + budget <= d.

Lemma exec_deadlines c t0 budget op q :
  (forall now, expiry_clock op = Some now -> t0 <= now) -> (forall s, op <> OWithDeadline s) ->
  in_flight_deadline q = budget ->
  (forall d, in_flight_deadlines q !! c = Some d -> t0 + budget <= d) ->
  in_flight_deadline (exec op q).1 = budget /\
  (forall d, in_flight_deadlines (exec op q).1 !! c = Some d -> t0 + budget <= d).
Proof.
  intros Hclk Hno Hb Hd.
  assert (Hexp : forall now, in_flight_deadline (expire now q) = budget /\
            forall d, in_flight_deadlines (expire now q) !! c = Some d -> t0 + budget <= d).
  { intros now. destruct (expire_fields now q) as (_ & E2 & _ & _ & (_ & _ & _ & _ & _ & E10) & _).
    cbn zeta in *. rewrite E10, E2. split; [done|]. by destruct (overdue now c q). }
  destruct op as [s|now c' s|e|now|now c'|now nanos b|b|b r|now|c'|c' i|c' i|c' i|now];
    cbn [exec fst snd expiry_clock] in *; try done.
  - by destruct (Hno s).
  - unfold extend_in_flight_deadline. destruct (in_flight_deadlines q !! c') as [d1|] eqn:Hd1; [|done].
    destruct (Z.ltb_spec d1 (now + from_secs (s + IN_FLIGHT_DEADLINE_BUFFER_SECS))); [|done].
    split; [done|]. cbn. intros d. rewrite lookup_insert. case_decide; [|apply Hd].
    intros [= <-]. subst. specialize (Hd d1 Hd1). lia.
  - unfold push. by destruct (_ && _).
  - specialize (Hclk now eq_refl). specialize (Hexp now). revert Hexp. rewrite flush_next_eq.
    cbn zeta. generalize (expire now q). intros q1 [Hb1 Hd1].
    destruct (pick_channel now q1) as [c'|]; [|destruct (pick_cancelled q1) as [c'|]; [|done]].
    + rewrite drain_batch_eq. split; [done|]. cbn. intros d. rewrite lookup_insert.
      case_decide; [|apply Hd1]. intros [= <-]. lia.
    + split; [done|]. cbn. intros d. rewrite lookup_insert.
      case_decide; [|apply Hd1]. intros [= <-]. lia.
  - assert (Hdel : forall d, delete c' (in_flight_deadlines q) !! c = Some d -> t0 + budget <= d)
      by (intros d; rewrite lookup_delete; case_decide; [done|apply Hd]).
    unfold mark_complete. cbn [retry_after upd_in_flight_batch_sizes upd_in_flight_deadlines
      upd_in_flight_channels]. destruct (retry_after q !! c'); [by destruct (_ <? _)|done].
  - unfold requeue. by destruct (_ <? _).
  - apply Hexp.
  - unfold mark_native_steer_pending. destruct (queues q !! c'); [|done].
    by destruct (take_first i _) as [[]|].
  - unfold release_native_steer. destruct (withheld_native_steer q !! c'); [|done].
    by destruct (take_first i _) as [[]|].
Qed.

Lemma mark_native_steer_withheld c id q q1 :
  mark_native_steer_pending c id q = (q1, true) ->
  in_flight_deadline q1 = in_flight_deadline q /\
  in_flight_deadlines q1 = in_flight_deadlines q /\
  exists qe, chan c q ≡ₚ qe :: chan c q1 /\ to_hex (ev_id (qe_event qe)) = id /\
    qe_event qe ∈ withheld c q1.
Proof.
  unfold mark_native_steer_pending. destruct (queues q !! c) as [l|] eqn:Hl; [|done].
  destruct (take_first id l) as [[x rest]|] eqn:Ht; [|done]. intros [= <-].
  apply take_first_Some in Ht as [Hx Hp]. split_and!; [done|done|]. exists x. split_and!.
  - change (chan c (upd_withheld_native_steer _ ?q')) with (chan c q').
    rewrite chan_store_nonempty, decide_True by done. unfold chan, entries. by rewrite Hl.
  - by apply String.eqb_eq.
  - unfold withheld. cbn. rewrite entries_push, decide_True by done.
    apply list_elem_of_fmap. exists x. set_solver.
Qed.

(** While a native steer is unacknowledged the steered event is not delivered a second
    time: once withheld (it was queued once), no flush hands it out for its channel, even
    across the completion of the running turn and later flushes of the same channel, until
    the event is released or a full in-flight budget has passed. *)
Theorem steered_event_withheld (t0 : Z) (c : Uuid) (id : string) (q q1 : EventQueue)
    (ops : list Op) :
  mark_native_steer_pending c id q = (q1, true) ->
  lacks id (deliverable c q1) ->
  (forall d, in_flight_deadlines q !! c = Some d -> t0 + in_flight_deadline q <= d) ->
  Forall (awaiting c id t0 (in_flight_deadline q)) ops ->
  (exists e, e ∈ withheld c q1 /\ to_hex (ev_id e) = id) /\
  Forall (fun b => fb_channel_id b = c ->
            lacks id (be_event <$> fb_cancelled_events b ++ fb_events b)) (run ops q1).2.
Proof.
  intros (Hdl & Hds & qe & _ & Hid & Hin)%mark_native_steer_withheld Hl Hd Hops.
  split; [eauto|]. set (budget := in_flight_deadline q) in *.
  apply (run_invariant (awaiting c id t0 budget) (hidden_until c id t0 budget)); [|done|].
  - intros op q' (Hop & Hclk & Hno) (Hl' & Hb & Hd').
    destruct (exec_hidden c id op q' Hop Hl') as [H1 H2].
    { intros now Hnow Hov. unfold overdue in Hov. specialize (Hclk now Hnow).
      destruct (in_flight_deadlines q' !! c) as [d|]; [|done].
      apply Z.leb_le in Hov. specialize (Hd' d eq_refl). lia. }
    destruct (exec_deadlines c t0 budget op q') as [H3 H4];
      [intros now Hnow; by apply Hclk|done|done|done|]. by repeat split.
  - split_and!; [done|congruence|]. rewrite Hds. apply Hd.
Qed.

Lemma exec_withheld c id op q :
  lacks id (deliverable c q) -> lacks id (withheld c q) -> lacks id (withheld c (exec op q).1).
Proof.
  intros Hq Hw.
  destruct op as [s|now c' s|e|now|now c'|now nanos b|b|b r|now|c'|c' i|c' i|c' i|now];
    cbn [exec fst snd] in *; try done.
  - unfold extend_in_flight_deadline. destruct (in_flight_deadlines q !! c'); [|done].
    by destruct (_ <? _).
  - unfold push. by destruct (_ && _).
  - rewrite flush_next_withheld. by apply lacks_withheld_expire.
  - unfold mark_complete. cbn [retry_after upd_in_flight_batch_sizes upd_in_flight_deadlines
      upd_in_flight_channels]. destruct (retry_after q !! c'); [by destruct (_ <? _)|done].
  - unfold requeue. by destruct (_ <? _).
  - by apply lacks_withheld_expire.
  - unfold withheld, entries. cbn. rewrite lookup_delete. case_decide; [constructor|done].
  - unfold mark_native_steer_pending. destruct (queues q !! c') as [l|] eqn:Hl; [|done].
    destruct (take_first i l) as [[x rest]|] eqn:Ht; [|done].
    apply take_first_Some in Ht as [_ Hp]. unfold withheld. cbn. rewrite entries_push.
    case_decide; [subst|done]. rewrite fmap_app. apply lacks_app. split; [done|].
    apply lacks_app in Hq as [Hq _]. revert Hq. unfold chan, entries. rewrite Hl. cbn.
    intros Hq. eapply lacks_perm in Hq; [|apply fmap_Permutation, Hp].
    apply Forall_cons in Hq as [? _]. by constructor.
  - unfold release_native_steer. destruct (withheld_native_steer q !! c') as [l|] eqn:Hl; [|done].
    destruct (take_first i l) as [[x rest]|] eqn:Ht; [|done].
    apply take_first_Some in Ht as [_ Hp]. unfold withheld. cbn.
    rewrite entries_store_nonempty. case_decide; [subst|done].
    unfold withheld, entries in Hw. rewrite Hl in Hw. cbn in Hw.
    eapply lacks_perm in Hw; [|apply fmap_Permutation, Hp]. by apply Forall_cons in Hw as [_ ?].
  - unfold remove_event, withheld. cbn. rewrite entries_retain. case_decide; [subst|done].
    unfold withheld in Hw. rewrite lacks_queued in *.
    apply Forall_forall. intros y [_ Hy]%list_elem_of_filter. by eapply Forall_forall in Hw.
Qed.

(** A steered event whose delivery was acknowledged is consumed for good: after
    [remove_event] no sequence of operations ever hands it out for its channel again,
    unless it is pushed or requeued anew (and provided it was not part of a cancelled
    batch, which [remove_event] does not touch). *)
Theorem consumed_event_not_redelivered (c : Uuid) (id : string) (q : EventQueue)
    (ops : list Op) :
  lacks id (be_event <$> entries c (cancelled_batches q)) ->
  Forall (fun op => lacks id (op_events c op)) ops ->
  Forall (fun b => fb_channel_id b = c ->
            lacks id (be_event <$> fb_cancelled_events b ++ fb_events b))
    (run ops (remove_event c id q)).2.
Proof.
  intros Hc Hops.
  assert (Hret : forall l, lacks id (qe_event <$>
            filter (fun qe => negb (has_id id qe) = true) l)).
  { intros l. rewrite lacks_queued. apply Forall_forall.
    intros y [Hy _]%list_elem_of_filter. by apply negb_true_iff. }
  apply (run_invariant (fun op => lacks id (op_events c op))
           (fun q => lacks id (deliverable c q) /\ lacks id (withheld c q))); [|done|].
  - intros op q' Hop [Hd Hw].
    assert (Hdec : op = OReleaseSteer c id \/ op <> OReleaseSteer c id).
    { destruct op; try (by right). destruct (decide (ch = c /\ id0 = id)); naive_solver. }
    destruct Hdec as [->|Hne].
    + cbn [exec fst snd]. split; [|done]. unfold release_native_steer.
      destruct (withheld_native_steer q' !! c) as [l|] eqn:Hl; [|done].
      assert (take_first id l = None) as ->; [|done].
      apply take_first_None. unfold withheld, entries in Hw. rewrite Hl in Hw.
      by rewrite lacks_queued in Hw.
    + destruct (exec_hidden c id op q') as [H1 H2]; [done|done|done|].
      split; [|done]. split; [done|]. by apply exec_withheld.
  - unfold remove_event, deliverable, withheld. rewrite !chan_entries.
    cbn [queues cancelled_batches withheld_native_steer upd_queues upd_withheld_native_steer].
    rewrite !entries_retain, !decide_True by done. rewrite lacks_app. auto.
Qed.

(** * Retries *)

Lemma requeue_eq now nanos b q :
  let c := fb_channel_id b in
  let n := default 0 (retry_counts q !! c) + 1 in
  requeue now nanos b q =
  if MAX_RETRIES <? n
  then (upd_retry_after (delete c)
          (upd_retry_counts (delete c) (upd_retry_counts (insert c n) q)), Some b)
  else (upd_retry_after (insert c (now + backoff_delay n nanos))
          (upd_queues (insert c (take MAX_PENDING_PER_CHANNEL
                                   ((to_queued c <$> fb_events b) ++ chan c q)))
             (upd_retry_counts (insert c n) q)), None).
Proof.
  cbn zeta. unfold requeue. destruct (_ <? _); [done|].
  by rewrite trim_take, push_front_rev_app.
Qed.

(** A failed batch goes back to the front of its queue in its order, the newest queued
    events being dropped beyond the cap, with the channel throttled until the backoff has
    passed; after MAX_RETRIES attempts it is returned instead, and the channel's retry
    state is cleared so that fresh traffic is not throttled. *)
Theorem requeue_spec (now nanos : Z) (b : FlushBatch) (q : EventQueue) :
  let c := fb_channel_id b in
  let n := default 0 (retry_counts q !! c) in
  let (q', out) := requeue now nanos b q in
  in_flight_channels q' = in_flight_channels q /\
  (forall c', c' <> c -> chan c' q' = chan c' q /\ retry_after q' !! c' = retry_after q !! c') /\
  ((n < MAX_RETRIES /\ out = None /\
    chan c q' = take MAX_PENDING_PER_CHANNEL ((to_queued c <$> fb_events b) ++ chan c q) /\
    retry_counts q' !! c = Some (n + 1) /\
    retry_after q' !! c = Some (now + backoff_delay (n + 1) nanos)) \/
   (MAX_RETRIES <= n /\ out = Some b /\ chan c q' = chan c q /\
    retry_counts q' !! c = None /\ retry_after q' !! c = None)).
Proof.
  rewrite requeue_eq. cbn zeta. set (c := fb_channel_id b).
  destruct (Z.ltb_spec MAX_RETRIES (default 0 (retry_counts q !! c) + 1)).
  - split_and!; [done| |].
    + intros c' Hne. split; [done|]. cbn. by rewrite lookup_delete_ne.
    + right. cbn. rewrite !lookup_delete_eq. split_and!; try done. lia.
  - split_and!; [done| |].
    + intros c' Hne. split; [|cbn; by rewrite lookup_insert_ne].
      change (chan c' (upd_retry_after _ ?q')) with (chan c' q').
      rewrite chan_insert, decide_False by done. done.
    + left. split_and!; [lia|done| | |].
      * change (chan c (upd_retry_after _ ?q')) with (chan c q').
        by rewrite chan_insert, decide_True.
      * cbn. by rewrite lookup_insert_eq.
      * cbn. by rewrite lookup_insert_eq.
Qed.

(** Operations that leave the retry state alone. *)
Definition quiet (op : Op) : Prop :=
  match op with OPush _ | OFlush _ | OHasWork _ | OExtend _ _ _ => True | _ => False end.

Lemma run_quiet ops q : Forall quiet ops -> retry_counts (run ops q).1 = retry_counts q.
Proof.
  intros Hops. apply (run_invariant quiet (fun q' => retry_counts q' = retry_counts q)
                        (fun _ => True)); [|done|done].
  intros op q' Hop <-. split; [|done]. destruct op; try done; cbn [exec fst].
  - unfold extend_in_flight_deadline. destruct (in_flight_deadlines q' !! ch); [|done].
    by destruct (_ <? _).
  - unfold push. by destruct (_ && _).
  - rewrite flush_next_eq. cbn zeta.
    destruct (expire_fields now q') as (_ & _ & _ & _ & (_ & E6 & _) & _).
    cbn zeta in E6. rewrite <-E6. generalize (expire now q'). intros q1.
    destruct (pick_channel now q1) as [c'|]; [by rewrite drain_batch_eq|].
    by destruct (pick_cancelled q1).
  - by destruct (expire_fields now q') as (_ & _ & _ & _ & (_ & E6 & _) & _).
Qed.

(** One failed attempt: some traffic and flushes, the requeue of the failed batch at
    [rd_now], and the completion of its turn at [rd_done]. *)
Record Round := mkRound {
  rd_ops : list Op; rd_batch : FlushBatch; rd_now : Z; rd_nanos : Z; rd_done : Z
}.

Definition fail_round (rd : Round) (q : EventQueue) : EventQueue * option FlushBatch :=
  let (q, out) := requeue (rd_now rd) (rd_nanos rd) (rd_batch rd) (run (rd_ops rd) q).1 in
  (mark_complete (rd_done rd) (fb_channel_id (rd_batch rd)) q, out).

Fixpoint fail_rounds (rds : list Round) (q : EventQueue) : EventQueue * list (option FlushBatch) :=
  match rds with
  | [] => (q, [])
  | rd :: rds =>
      let (q, out) := fail_round rd q in
      let (q, outs) := fail_rounds rds q in
      (q, out :: outs)
  end.

(** A round on [c] whose turn completes within 4 s (the shortest backoff). *)
Definition round_on (c : Uuid) (rd : Round) : Prop :=
  fb_channel_id (rd_batch rd) = c /\ Forall quiet (rd_ops rd) /\
  0 <= rd_nanos rd < 1000000000 /\ rd_done rd < rd_now rd + from_secs 4.

Lemma fail_round_count c rd q n :
  round_on c rd -> default 0 (retry_counts q !! c) = n -> 0 <= n < MAX_RETRIES ->
  exists q', fail_round rd q = (q', None) /\ retry_counts q' !! c = Some (n + 1).
Proof.
  intros (Hc & Hops & Hnanos & Hdone) Hn Hlt. unfold fail_round. rewrite requeue_eq.
  cbn zeta. rewrite Hc, run_quiet, Hn by done.
  rewrite (proj2 (Z.ltb_ge _ _)) by lia. eexists. split; [done|].
  pose proof (backoff_delay_range (n + 1) (rd_nanos rd) ltac:(lia) Hnanos) as [Hlo _].
  assert (Hcap : 5 <= capped_secs (n + 1)).
  { pose proof (capped_secs_cases (n + 1) ltac:(lia)) as Hin. set_unfold in Hin. lia. }
  unfold mark_complete.
  cbn [retry_after upd_in_flight_batch_sizes upd_in_flight_deadlines upd_in_flight_channels
    upd_retry_after upd_queues upd_retry_counts].
  rewrite lookup_insert_eq. rewrite (proj2 (Z.ltb_lt _ _)).
  - cbn. by rewrite lookup_insert_eq.
  - unfold from_secs in *. lia.
Qed.

Lemma fail_rounds_count c rds q n :
  Forall (round_on c) rds -> default 0 (retry_counts q !! c) = n -> 0 <= n ->
  n + Z.of_nat (length rds) <= MAX_RETRIES ->
  exists q', fail_rounds rds q = (q', replicate (length rds) None) /\
    default 0 (retry_counts q' !! c) = n + Z.of_nat (length rds).
Proof.
  revert q n. induction rds as [|rd rds IH]; intros q n Hall Hn H0 Hlen.
  { exists q. cbn. split; [done|]. lia. }
  apply Forall_cons in Hall as [Hrd Hall]. cbn [length] in *.
  destruct (fail_round_count c rd q n Hrd Hn ltac:(lia)) as (q1 & Hq1 & Hc1).
  destruct (IH q1 (n + 1) Hall) as (q' & Hq' & Hc'); [by rewrite Hc1|lia|lia|].
  exists q'. cbn [fail_rounds replicate]. rewrite Hq1, Hq'. split; [done|]. lia.
Qed.

(** C37: A batch that keeps failing is retried MAX_RETRIES times and then given back to the
    caller, never retried forever: after ten failed attempts on a healthy channel, each
    requeued, the next failure dead-letters the batch and clears the channel's retry
    state, whatever traffic and flushes happen in between. *)
Theorem dead_letter_after_max_retries (c : Uuid) (rds : list Round) (last : Round)
    (q : EventQueue) :
  retry_counts q !! c = None -> Z.of_nat (length rds) = MAX_RETRIES ->
  Forall (round_on c) (rds ++ [last]) ->
  let (q1, outs) := fail_rounds rds q in
  outs = replicate (length rds) None /\
  (fail_round last q1).2 = Some (rd_batch last) /\
  retry_counts (fail_round last q1).1 !! c = None /\
  retry_after (fail_round last q1).1 !! c = None.
Proof.
  intros Hnone Hlen [Hall Hlast]%Forall_app. apply Forall_cons in Hlast as [Hlast _].
  destruct (fail_rounds_count c rds q 0 Hall) as (q1 & -> & Hc1); [by rewrite Hnone|lia|lia|].
  split; [done|]. destruct Hlast as (Hc & Hops & _ & _). unfold fail_round.
  rewrite requeue_eq. cbn zeta. rewrite Hc, run_quiet, Hc1 by done.
  rewrite (proj2 (Z.ltb_lt _ _)) by lia. split; [done|]. unfold mark_complete.
  cbn [retry_after upd_in_flight_batch_sizes upd_in_flight_deadlines upd_in_flight_channels
    upd_retry_after upd_queues upd_retry_counts].
  rewrite lookup_delete_eq. cbn. by rewrite !lookup_delete_eq.
Qed.

(** When no agent can take a flushed batch, [requeue_preserve_timestamps] followed by
    [mark_complete] restores the queued events (within the cap), but not the cancelled
    events that were merged into the batch: they leave the queue for good. *)
Theorem requeue_preserve_drops_cancelled (now done : Z) (q q1 : EventQueue) (b : FlushBatch) :
  let c := fb_channel_id b in
  let q2 := mark_complete done c (requeue_preserve_timestamps b q1) in
  flush_next now q = (q1, Some b) ->
  (length (fb_events b) + length (chan c q1) <= MAX_PENDING_PER_CHANNEL)%nat ->
  pending c (expire now q) ≡ₚ fb_cancelled_events b ++ pending c q2 /\
  c ∉ in_flight_channels q2.
Proof.
  cbn zeta. intros Hf Hlen. set (c := fb_channel_id b) in *.
  pose proof (flush_pending now q c) as Hp. rewrite Hf in Hp. cbn [fst snd handed_out] in Hp.
  rewrite decide_True in Hp by done. rewrite Hp.
  assert (Hm : forall q', pending c (mark_complete done c q') = pending c q' /\
                 c ∉ in_flight_channels (mark_complete done c q')).
  { intros q'. unfold mark_complete. cbn [retry_after upd_in_flight_batch_sizes
      upd_in_flight_deadlines upd_in_flight_channels].
    destruct (retry_after q' !! c); [destruct (_ <? _)|]; (split; [done|cbn; set_solver]). }
  destruct (Hm (requeue_preserve_timestamps b q1)) as [-> Hnf]. split; [|done].
  unfold pending, requeue_preserve_timestamps. fold c. rewrite chan_insert, decide_True by done.
  rewrite trim_take, push_front_rev_app.
  rewrite take_ge by (rewrite length_app, length_fmap; lia).
  cbn [cancelled_batches withheld_native_steer upd_queues].
  assert (Hrt : to_batch <$> (to_queued c <$> fb_events b) = fb_events b).
  { rewrite <-list_fmap_compose. rewrite <-(list_fmap_id (fb_events b)) at 2.
    apply list_fmap_ext. by intros ? [] _. }
  rewrite !fmap_app, Hrt. solve_Permutation.
Qed.

(** Leaving a channel drops everything that waits for it (queued, cancelled and withheld
    events) with its retry state, and leaves its running turn and all other channels
    alone; the ids it returns are those of the queued events only. *)
Theorem drain_channel_spec (c : Uuid) (q : EventQueue) :
  let (q', ids) := drain_channel c q in
  pending c q' = [] /\ retry_after q' !! c = None /\ retry_counts q' !! c = None /\
  (forall c', c' <> c -> pending c' q' = pending c' q) /\
  in_flight_channels q' = in_flight_channels q /\
  in_flight_deadlines q' = in_flight_deadlines q /\
  ids = (fun qe => to_hex (ev_id (qe_event qe))) <$> chan c q.
Proof.
  unfold drain_channel, pending, chan, entries. cbn.
  rewrite !lookup_delete_eq. split_and!; try done.
  intros c' Hne. by rewrite !lookup_delete_ne by done.
Qed.

End queue.

(** * Thread tags, specified *)

(** The id of an [e] tag with this marker. *)
Definition marked (marker : string) (t : Tag) : option string :=
  match t with
  | name :: id :: _ :: m :: _ =>
      if String.eqb name "e" && String.eqb m marker then Some id else None
  | _ => None
  end.

Definition p_value (t : Tag) : option string :=
  match t with
  | name :: v :: _ => if String.eqb name "p" then Some v else None
  | _ => None
  end.

Lemma thread_fold tags root reply mentions :
  foldl thread_step (root, reply, mentions) tags =
  (match last (omap (marked "root") tags) with Some r => Some r | None => root end,
   match last (omap (marked "reply") tags) with Some r => Some r | None => reply end,
   mentions ++ omap p_value tags).
Proof.
  revert root reply mentions. induction tags as [|t tags IH]; intros root reply mentions.
  { cbn. by rewrite app_nil_r. }
  cbn [foldl]. rewrite (surjective_pairing (thread_step _ _)).
  rewrite (surjective_pairing (fst (thread_step _ _))). rewrite IH. clear IH.
  destruct t as [|name [|v rest]]; [done|done|].
  change (omap ?f ((name :: v :: rest) :: tags)) with
    (match f (name :: v :: rest) with Some y => y :: omap f tags | None => omap f tags end).
  cbn [thread_step p_value].
  destruct (String.eqb_spec name "e") as [->|Hne].
  - destruct rest as [|x [|m rest]]; [done|done|]. cbn [marked].
    change ("e" =? "e")%string with true. change ("e" =? "p")%string with false.
    cbn [andb]. destruct (String.eqb_spec m "root") as [->|Hr].
    + change ("root" =? "reply")%string with false. cbn [fst snd].
      rewrite last_cons. by destruct (last (omap (marked "root") tags)).
    + destruct (String.eqb_spec m "reply") as [->|Hp]; cbn [fst snd]; [|done].
      rewrite last_cons. by destruct (last (omap (marked "reply") tags)).
  - assert (Hm : forall k, marked k (name :: v :: rest) = None).
    { intros k. destruct rest as [|x [|m rest]]; [done|done|]. cbn [marked].
      by rewrite (proj2 (String.eqb_neq _ _) Hne). }
    rewrite !Hm. destruct (name =? "p")%string; cbn [fst snd]; [|done].
    by rewrite <-app_assoc.
Qed.

(** Thread tags follow the marked [e] tags: the last [root] and the last [reply] marker
    win, a missing one stands for the other, and the mentions are all [p] values in
    order.  Both ids are present or both are absent. *)
Theorem parse_thread_tags_spec (event : Event) :
  let root := last (omap (marked "root") (ev_tags event)) in
  let reply := last (omap (marked "reply") (ev_tags event)) in
  parse_thread_tags event =
  mkThread (match root with Some r => Some r | None => reply end)
           (match reply with Some p => Some p | None => root end)
           (omap p_value (ev_tags event)).
Proof.
  unfold parse_thread_tags. rewrite thread_fold. cbn [app].
  by destruct (last (omap (marked "root") _)), (last (omap (marked "reply") _)).
Qed.

(** * A run on concrete events *)

Module QueueExample.
#[local] Existing Instance Reference.api.
#[local] Existing Instance map_to_list_iter.
Definition event (n : Byte.byte) (at_ : Z) : Event := mkEvent (replicate 32 n) [] at_ 9 [] "".
Definition qe (n : Byte.byte) (at_ : Z) : QueuedEvent := mkQueued 5%N (event n at_) at_ "m".
Definition id1 : string := to_hex (replicate 32 Byte.x01).
Definition id2 : string := to_hex (replicate 32 Byte.x02).
(** Two events, the first flushed and in flight, the second queued behind it. *)
Definition q1 : EventQueue := (push (qe Byte.x01 10) (queue_new Queue)).1.
Definition q2 : EventQueue := (flush_next 100 q1).1.
Definition q3 : EventQueue := (push (qe Byte.x02 20) q2).1.
Definition q4 : EventQueue := (mark_native_steer_pending 5%N id2 q3).1.
Definition b1 : FlushBatch := mkBatch 5%N [to_batch (qe Byte.x01 10)] [] None.
Definition round1 : Round := mkRound [] b1 0 0 1.

Example first_flush : (flush_next 100 q1).2 = Some b1.
Proof. vm_compute. reflexivity. Qed.
End QueueExample.

Lemma flush_next_conserves_witness :
  pending 5%N QueueExample.q1 ≡ₚ
  handed_out 5%N (flush_next (HI := map_to_list_iter) 100 QueueExample.q1).2 ++
  pending 5%N (flush_next (HI := map_to_list_iter) 100 QueueExample.q1).1.
Proof.
  apply (flush_next_conserves (HI := map_to_list_iter)).
  - apply push_wf, queue_new_wf.
  - apply Nat.leb_le. vm_compute. reflexivity.
Defined.

Lemma in_flight_exclusive_witness :
  busy_until 5%N (100 + from_secs 7300)
    (run (A := Reference.api) (HI := map_to_list_iter)
       [OPush (QueueExample.qe Byte.x02 20); OFlush 200] QueueExample.q2).1.
Proof.
  apply (in_flight_exclusive (A := Reference.api) (HI := map_to_list_iter) 100
           QueueExample.q1 QueueExample.q2 QueueExample.b1).
  - vm_compute. reflexivity.
  - repeat constructor; cbn; try done. intros now [= <-]. vm_compute. reflexivity.
Defined.

Lemma steered_event_withheld_witness :
  Forall (fun b => fb_channel_id b = 5%N ->
            lacks (A := Reference.api) QueueExample.id2
              (be_event <$> fb_cancelled_events b ++ fb_events b))
    (run (A := Reference.api) (HI := map_to_list_iter)
       [OComplete 150 5%N; OPush (QueueExample.qe Byte.x03 30); OFlush 200] QueueExample.q4).2.
Proof.
  apply (steered_event_withheld (A := Reference.api) (HI := map_to_list_iter) 100 5%N
           QueueExample.id2 QueueExample.q3 QueueExample.q4).
  - vm_compute. reflexivity.
  - assert (deliverable 5%N QueueExample.q4 = []) as -> by (vm_compute; reflexivity).
    constructor.
  - assert (in_flight_deadlines QueueExample.q3 !! 5%N = Some (100 + from_secs 7300)) as ->
      by (vm_compute; reflexivity).
    intros d [= <-]. vm_compute. discriminate.
  - assert (in_flight_deadline QueueExample.q3 = from_secs 7300) as -> by (vm_compute; reflexivity).
    constructor; [|constructor; [|constructor; [|constructor]]]; unfold awaiting, op_keeps_hidden.
    + split_and!; [constructor|discriminate|discriminate|discriminate].
    + split_and!; [|discriminate|discriminate|discriminate].
      constructor; [vm_compute; discriminate|constructor].
    + split_and!; [constructor|discriminate| |discriminate].
      intros now Hnow. injection Hnow as <-. unfold from_secs. lia.
Defined.

Lemma consumed_event_not_redelivered_witness :
  Forall (fun b => fb_channel_id b = 5%N ->
            lacks (A := Reference.api) QueueExample.id2
              (be_event <$> fb_cancelled_events b ++ fb_events b))
    (run (A := Reference.api) (HI := map_to_list_iter)
       [OComplete 150 5%N; OReleaseSteer 5%N QueueExample.id2; OFlush 200]
       (remove_event (A := Reference.api) 5%N QueueExample.id2 QueueExample.q4)).2.
Proof.
  apply (consumed_event_not_redelivered (A := Reference.api) (HI := map_to_list_iter)).
  - assert (entries 5%N (cancelled_batches QueueExample.q4) = []) as ->
      by (vm_compute; reflexivity). constructor.
  - repeat constructor.
Defined.

Lemma dead_letter_after_max_retries_witness :
  (fail_round (A := Reference.api) (HI := map_to_list_iter) QueueExample.round1
     (fail_rounds (A := Reference.api) (HI := map_to_list_iter)
        (replicate 10 QueueExample.round1) (queue_new Queue)).1).2 = Some QueueExample.b1.
Proof.
  pose proof (dead_letter_after_max_retries (A := Reference.api) (HI := map_to_list_iter) 5%N
    (replicate 10 QueueExample.round1) QueueExample.round1 (queue_new Queue)) as H.
  destruct (fail_rounds _ _) as [q1 outs]. cbn [fst].
  apply H; [reflexivity|reflexivity|]. repeat constructor; done.
Defined.

Lemma requeue_preserve_drops_cancelled_witness :
  pending 5%N (expire (HI := map_to_list_iter) 100 QueueExample.q1) ≡ₚ
  fb_cancelled_events QueueExample.b1 ++
  pending 5%N (mark_complete 200 5%N
    (requeue_preserve_timestamps QueueExample.b1 QueueExample.q2)).
Proof.
  apply (requeue_preserve_drops_cancelled (HI := map_to_list_iter) 100 200 QueueExample.q1
           QueueExample.q2 QueueExample.b1).
  - vm_compute. reflexivity.
  - apply Nat.leb_le. vm_compute. reflexivity.
Defined.
