(* ===== verification/Pairing.v ===== *)
(** NIP-AB device pairing ([crates/buzz-core/src/pairing/]): the message types, the
    HKDF derivations and the session state machine of both roles.

    Every method of [PairingSession] is a state-and-error method; the clock, the random
    numbers and the nonces are inputs.  The primitives of the [nostr], [serde_json] and
    [bitcoin_hashes] crates (key agreement, HKDF, NIP-44, JSON, signatures) are the
    fields of [PairingApi]; [PairingLaws] states what an honest run relies on.
    Zeroization of secrets is not modelled. *)
From stdpp Require Import pretty.
From S2P Require Import Prelude Nostr Kinds.
Local Open Scope string_scope.
Local Open Scope list_scope.
Local Open Scope Z_scope.
Local Open Scope buzz_scope.

(** * Messages *)

Inductive PayloadType := Nsec | Bunker | Connect | Custom.

Inductive AbortReason := SasMismatch | UserDenied | Timeout | ProtocolError | Unknown.

Inductive PairingMessage :=
| Offer (session_id : string) (version : Z)
| SasConfirm (transcript_hash : string)
| Payload (payload_type : PayloadType) (payload : string)
| Complete (success : bool)
| Abort_ (reason : AbortReason).

(** The variants the session uses; the payloads of [Nip44], [Json] are the rendered
    errors of the crates. *)
Inductive PairingError :=
| InvalidQr (msg : string)
| InvalidSessionId
| SasMismatchError
| TranscriptMismatch
| UnexpectedMessage (expected got : string)
| SessionExpired
| Nip44 (msg : string)
| Json (msg : string)
| InvalidPubkey (msg : string)
| SigningError (msg : string).

Inductive Role := Source | Target.

Inductive SessionState :=
| Waiting | Confirming | AwaitingConfirmation | Transferring | PayloadExchanged
| Completed | Aborted.

#[export] Instance Role_eq_dec : EqDecision Role.
Proof. solve_decision. Defined.
#[export] Instance SessionState_eq_dec : EqDecision SessionState.
Proof. solve_decision. Defined.

(** [{:?}] of the derived [Debug]. *)
Definition role_debug (r : Role) : string :=
  match r with Source => "Source" | Target => "Target" end.
Definition state_debug (s : SessionState) : string :=
  match s with
  | Waiting => "Waiting" | Confirming => "Confirming"
  | AwaitingConfirmation => "AwaitingConfirmation" | Transferring => "Transferring"
  | PayloadExchanged => "PayloadExchanged" | Completed => "Completed" | Aborted => "Aborted"
  end.

(** An event with its signature. *)
Record SignedEvent := mkSigned { sv_event : Event; sv_sig : Bytes }.

(** What a call that encrypts and signs reads from the environment: the NIP-44 nonce,
    the wall clock in seconds, [rand::random::<u64>()], and the signing randomness. *)
Record Env := mkEnv { env_nonce : Bytes; env_now : Z; env_random : Z; env_aux : Bytes }.

Class PairingApi := {
  SecretKey : Type;
  (** [Keys::public_key().to_bytes()] *)
  public_key : SecretKey -> Bytes;
  (** [nostr::util::generate_shared_key] *)
  generate_shared_key : SecretKey -> Bytes -> result Bytes string;
  (** [hkdf::extract(salt, ikm)] and [hkdf::expand(prk, info, len)] *)
  hkdf_extract : Bytes -> Bytes -> Bytes;
  hkdf_expand : Bytes -> Bytes -> nat -> Bytes;
  nip44_encrypt : Bytes -> SecretKey -> Bytes -> string -> result string string;
  nip44_decrypt : SecretKey -> Bytes -> string -> result string string;
  (** [serde_json::to_string] and [from_str] at [PairingMessage] *)
  message_to_json : PairingMessage -> result string string;
  message_of_json : string -> result PairingMessage string;
  (** [EventBuilder::new(kind, content).tags(..).custom_created_at(..).sign_with_keys] *)
  sign_event : Bytes -> SecretKey -> Z -> string -> list Tag -> Z -> result SignedEvent string;
  (** [Event::verify] *)
  event_verify : SignedEvent -> result unit string
}.

Record PairingSession `{PairingApi} := mkSession {
  ps_role : Role;
  ps_state : SessionState;
  ps_keys : SecretKey;
  ps_session_secret : Bytes;
  ps_relay_urls : list string;
  ps_peer_pubkey : option Bytes;
  ps_session_id : Bytes;
  ps_sas_code : option Z;
  ps_sas_input : option Bytes;
  ps_processed_ids : gset Bytes;
  ps_created_at : Z;
  ps_timeout : Z
}.

Record QrPayload := mkQr {
  qr_source_pubkey : Bytes;
  qr_session_secret : Bytes;
  qr_relays : list string;
  qr_version : Z
}.

(** 120 seconds, in nanoseconds. *)
Definition DEFAULT_TIMEOUT : Z := 120 * 1000000000.
#[global] Arguments DEFAULT_TIMEOUT : simpl never.
Definition PAIRING_KIND : Z := KIND_PAIRING.

Section pairing.
Context `{A : NostrApi} `{P : PairingApi}.

(** * Key derivation *)

(** The bytes of a string literal. *)
Definition ascii_bytes (s : string) : Bytes := list_byte_of_string s.

Definition INFO_SESSION_ID : Bytes := ascii_bytes "nostr-pair-session-id".
Definition INFO_SAS : Bytes := ascii_bytes "nostr-pair-sas-v1".
Definition INFO_TRANSCRIPT : Bytes := ascii_bytes "nostr-pair-transcript-v1".

Definition hkdf32 (salt ikm info : Bytes) : Bytes :=
  let prk := hkdf_extract salt ikm in
  take 32 (hkdf_expand prk info 32).

Definition derive_session_id (session_secret : Bytes) : Bytes :=
  hkdf32 [] session_secret INFO_SESSION_ID.

(** [u32::from_be_bytes] of the first four bytes. *)
Definition be_u32 (b : Bytes) : Z :=
  foldl (fun n x => n * 256 + Z.of_N (Byte.to_N x)) 0 (take 4 b).

Definition derive_sas (ecdh_shared session_secret : Bytes) : Z * Bytes :=
  let sas_input := hkdf32 session_secret ecdh_shared INFO_SAS in
  (be_u32 sas_input mod 1000000, sas_input).

Definition derive_transcript_hash
    (session_id source_pubkey target_pubkey sas_input session_secret : Bytes) : Bytes :=
  let transcript := session_id ++ source_pubkey ++ target_pubkey ++ sas_input in
  hkdf32 session_secret transcript INFO_TRANSCRIPT.

Fixpoint zeros (n : nat) : string :=
  match n with O => EmptyString | S n => String "0" (zeros n) end.

(** [format!("{code:06}")] *)
Definition format_sas (code : Z) : string :=
  let s := pretty code in
  String.append (zeros (6 - String.length s)) s.

Definition ct_eq (a b : Bytes) : bool := bool_decide (a = b).

(** [<[u8; 32]>::try_from(b).ok()] *)
Definition try_32 (b : Bytes) : option Bytes :=
  if (length b =? 32)%nat then Some b else None.

(** * Session helpers *)

Abbreviation S := PairingSession (only parsing).
Abbreviation M := (method PairingSession PairingError) (only parsing).

Definition with_state (st : SessionState) (s : S) : S :=
  mkSession _ (ps_role s) st (ps_keys s) (ps_session_secret s) (ps_relay_urls s)
    (ps_peer_pubkey s) (ps_session_id s) (ps_sas_code s) (ps_sas_input s)
    (ps_processed_ids s) (ps_created_at s) (ps_timeout s).
Definition with_peer (peer : Bytes) (s : S) : S :=
  mkSession _ (ps_role s) (ps_state s) (ps_keys s) (ps_session_secret s) (ps_relay_urls s)
    (Some peer) (ps_session_id s) (ps_sas_code s) (ps_sas_input s)
    (ps_processed_ids s) (ps_created_at s) (ps_timeout s).
Definition with_sas (code : Z) (input : Bytes) (s : S) : S :=
  mkSession _ (ps_role s) (ps_state s) (ps_keys s) (ps_session_secret s) (ps_relay_urls s)
    (ps_peer_pubkey s) (ps_session_id s) (Some code) (Some input)
    (ps_processed_ids s) (ps_created_at s) (ps_timeout s).

Definition record_event (event : SignedEvent) (s : S) : S :=
  mkSession _ (ps_role s) (ps_state s) (ps_keys s) (ps_session_secret s) (ps_relay_urls s)
    (ps_peer_pubkey s) (ps_session_id s) (ps_sas_code s) (ps_sas_input s)
    ({[ev_id (sv_event event)]} ∪ ps_processed_ids s) (ps_created_at s) (ps_timeout s).

(** [created_at.elapsed() > timeout]; [elapsed] saturates at zero. *)
Definition is_expired (now : Z) (s : S) : bool :=
  ps_timeout s <? Z.max 0 (now - ps_created_at s).

Definition check_expired (now : Z) : M unit :=
  m_read (fun s => if is_expired now s then Err SessionExpired else Ok tt).

Definition expect_state (expected : SessionState) : M unit :=
  m_read (fun s =>
    if decide (ps_state s = expected) then Ok tt
    else Err (UnexpectedMessage ("state " ++ state_debug expected)%string
                ("state " ++ state_debug (ps_state s))%string)).

Definition expect_role (expected : Role) : M unit :=
  m_read (fun s =>
    if decide (ps_role s = expected) then Ok tt
    else Err (UnexpectedMessage ("role " ++ role_debug expected)%string
                ("role " ++ role_debug (ps_role s))%string)).

(** The event names us in a [p] tag. *)
Definition has_p_tag (our_pk : Bytes) (event : Event) : bool :=
  existsb (fun t => bool_decide (t !! 0%nat = Some "p")
                    && bool_decide (t !! 1%nat = Some (to_hex our_pk))) (ev_tags event).

Definition validate_event_basics (event : SignedEvent) (s : S) : result unit PairingError :=
  match event_verify event with
  | Err e => Err (InvalidPubkey ("event verification failed: " ++ e)%string)
  | Ok _ =>
      if bool_decide (ev_id (sv_event event) ∈ ps_processed_ids s)
      then Err (UnexpectedMessage "new event" "duplicate event id")
      else if negb (ev_kind (sv_event event) =? PAIRING_KIND)
      then Err (UnexpectedMessage ("kind " ++ pretty PAIRING_KIND)%string
                  ("kind " ++ pretty (ev_kind (sv_event event)))%string)
      else if negb (has_p_tag (public_key (ps_keys s)) (sv_event event))
      then Err (InvalidPubkey "event p-tag does not match our ephemeral pubkey")
      else Ok tt
  end.

Definition validate_event_from_peer (event : SignedEvent) (s : S) : result unit PairingError :=
  let? _ := validate_event_basics event s in
  match ps_peer_pubkey s with
  | Some expected =>
      if negb (bool_decide (ev_pubkey (sv_event event) = expected))
      then Err (InvalidPubkey ("event from " ++ to_hex (ev_pubkey (sv_event event)) ++
                               " but expected " ++ to_hex expected)%string)
      else Ok tt
  | None => Ok tt
  end.

Definition decrypt_message (event : SignedEvent) (s : S) : result PairingMessage PairingError :=
  let content := ev_content (sv_event event) in
  let content_len := Z.of_nat (String.length content) in
  if negb ((132 <=? content_len) && (content_len <=? 87472))
  then Err (UnexpectedMessage "NIP-44 content (132–87472 chars)"
              (pretty content_len ++ " chars")%string)
  else
    let? decrypted :=
      map_err Nip44 (nip44_decrypt (ps_keys s) (ev_pubkey (sv_event event)) content) in
    let len := Z.of_nat (String.length decrypted) in
    if 65535 <? len
    then Err (UnexpectedMessage "plaintext ≤ 65535 bytes" (pretty len ++ " bytes")%string)
    else map_err Json (message_of_json decrypted).

(** [now.saturating_sub(jitter)], with a jitter of 0 to 30 seconds. *)
Definition event_timestamp (env : Env) : Z := Z.max 0 (env_now env - env_random env mod 31).

Definition build_event (env : Env) (message : PairingMessage) (s : S)
  : result SignedEvent PairingError :=
  match ps_peer_pubkey s with
  | None => Err (InvalidPubkey "no peer pubkey set")
  | Some peer =>
      let? plaintext := map_err Json (message_to_json message) in
      let? encrypted := map_err Nip44 (nip44_encrypt (env_nonce env) (ps_keys s) peer plaintext) in
      map_err SigningError
        (sign_event (env_aux env) (ps_keys s) PAIRING_KIND encrypted [["p"; to_hex peer]]
           (event_timestamp env))
  end.

Definition unexpected (expected : string) (got : PairingMessage) : PairingError :=
  UnexpectedMessage expected
    (match got with
     | Offer _ _ => "offer" | SasConfirm _ => "sas-confirm" | Payload _ _ => "payload"
     | Complete _ => "complete" | Abort_ _ => "abort"
     end).

(** * Source methods *)

(** [keys] and [session_secret] are generated by the caller's random source. *)
Definition new_source (now : Z) (keys : SecretKey) (session_secret : Bytes)
    (relay_url : string) : S * QrPayload :=
  let session_id := derive_session_id session_secret in
  (mkSession _ Source Waiting keys session_secret [relay_url] None session_id None None ∅
     now DEFAULT_TIMEOUT,
   mkQr (public_key keys) session_secret [relay_url] 1).

Definition handle_offer (now : Z) (event : SignedEvent) : M string :=
  check_expired now ;;?
  expect_state Waiting ;;?
  expect_role Source ;;?
  m_read (validate_event_basics event) ;;?
  do? msg <- m_read (decrypt_message event) ;;
  match msg with
  | Offer session_id_hex version =>
      if negb (version =? 1)
      then m_fail (UnexpectedMessage "version 1" ("version " ++ pretty version)%string)
      else
        do? s <- m_get ;;
        match hex_decode session_id_hex ≫= try_32 with
        | Some id =>
            if ct_eq id (ps_session_id s) then
              let peer := ev_pubkey (sv_event event) in
              m_modify (with_peer peer) ;;?
              do? ecdh <- m_read (fun s => map_err SigningError
                                    (generate_shared_key (ps_keys s) peer)) ;;
              let '(code, sas_input) := derive_sas ecdh (ps_session_secret s) in
              m_modify (with_sas code sas_input) ;;?
              m_modify (with_state Confirming) ;;?
              m_modify (record_event event) ;;?
              m_ret (format_sas code)
            else m_fail InvalidSessionId
        | None => m_fail InvalidSessionId
        end
  | other => m_fail (unexpected "offer" other)
  end.

(** [self.sas_input.ok_or(..)?] and [self.peer_pubkey.ok_or(..)?] *)
Definition sas_and_peer : M (Bytes * Bytes) :=
  m_read (fun s =>
    match ps_sas_input s with
    | None => Err SasMismatchError
    | Some sas_input =>
        match ps_peer_pubkey s with
        | None => Err (InvalidPubkey "no peer")
        | Some peer => Ok (sas_input, peer)
        end
    end).

Definition confirm_sas (now : Z) (env : Env) : M SignedEvent :=
  check_expired now ;;?
  expect_state Confirming ;;?
  expect_role Source ;;?
  do? (sas_input, peer) <- sas_and_peer ;;
  do? s <- m_get ;;
  let transcript_hash :=
    derive_transcript_hash (ps_session_id s) (public_key (ps_keys s)) peer sas_input
      (ps_session_secret s) in
  do? event <- m_read (build_event env (SasConfirm (to_hex transcript_hash))) ;;
  m_modify (with_state Transferring) ;;?
  m_ret event.

Definition send_payload (now : Z) (env : Env) (payload_type : PayloadType) (payload : string)
  : M SignedEvent :=
  check_expired now ;;?
  expect_state Transferring ;;?
  expect_role Source ;;?
  do? event <- m_read (build_event env (Payload payload_type payload)) ;;
  m_modify (with_state PayloadExchanged) ;;?
  m_ret event.

Definition handle_complete (now : Z) (event : SignedEvent) : M unit :=
  check_expired now ;;?
  expect_state PayloadExchanged ;;?
  expect_role Source ;;?
  m_read (validate_event_from_peer event) ;;?
  do? msg <- m_read (decrypt_message event) ;;
  match msg with
  | Complete true =>
      m_modify (with_state Completed) ;;?
      m_modify (record_event event) ;;?
      m_ret tt
  | Complete false =>
      m_modify (with_state Aborted) ;;?
      m_fail (UnexpectedMessage "complete(success=true)" "complete(success=false)")
  | other => m_fail (unexpected "complete" other)
  end.

(** * Target methods *)

Definition new_target (now : Z) (env : Env) (keys : SecretKey) (qr : QrPayload)
  : result (S * SignedEvent) PairingError :=
  let session_id := derive_session_id (qr_session_secret qr) in
  let? ecdh := map_err SigningError (generate_shared_key keys (qr_source_pubkey qr)) in
  let '(code, sas_input) := derive_sas ecdh (qr_session_secret qr) in
  let session :=
    mkSession _ Target Waiting keys (qr_session_secret qr) (qr_relays qr)
      (Some (qr_source_pubkey qr)) session_id (Some code) (Some sas_input) ∅
      now DEFAULT_TIMEOUT in
  let? event := build_event env (Offer (to_hex session_id) 1) session in
  Ok (with_state Confirming session, event).

Definition handle_sas_confirm (now : Z) (event : SignedEvent) : M string :=
  check_expired now ;;?
  expect_state Confirming ;;?
  expect_role Target ;;?
  m_read (validate_event_from_peer event) ;;?
  do? msg <- m_read (decrypt_message event) ;;
  match msg with
  | SasConfirm received_hash =>
      do? (sas_input, peer) <- sas_and_peer ;;
      do? s <- m_get ;;
      let expected_hash :=
        derive_transcript_hash (ps_session_id s) peer (public_key (ps_keys s)) sas_input
          (ps_session_secret s) in
      let matches :=
        match hex_decode received_hash ≫= try_32 with
        | Some rb => ct_eq rb expected_hash
        | None => false
        end in
      if negb matches then
        m_modify (with_state Aborted) ;;?
        m_fail TranscriptMismatch
      else
        m_modify (with_state AwaitingConfirmation) ;;?
        m_modify (record_event event) ;;?
        m_read (fun s => match ps_sas_code s with
                         | Some code => Ok (format_sas code)
                         | None => Err SasMismatchError
                         end)
  | other => m_fail (unexpected "sas-confirm" other)
  end.

Definition confirm_target_sas (now : Z) : M unit :=
  check_expired now ;;?
  expect_state AwaitingConfirmation ;;?
  expect_role Target ;;?
  m_modify (with_state Transferring) ;;?
  m_ret tt.

Definition handle_payload (now : Z) (event : SignedEvent) : M (PayloadType * string) :=
  check_expired now ;;?
  expect_state Transferring ;;?
  expect_role Target ;;?
  m_read (validate_event_from_peer event) ;;?
  do? msg <- m_read (decrypt_message event) ;;
  match msg with
  | Payload payload_type payload =>
      m_modify (with_state PayloadExchanged) ;;?
      m_modify (record_event event) ;;?
      m_ret (payload_type, payload)
  | other => m_fail (unexpected "payload" other)
  end.

Definition send_complete (now : Z) (env : Env) : M SignedEvent :=
  check_expired now ;;?
  expect_state PayloadExchanged ;;?
  expect_role Target ;;?
  do? event <- m_read (build_event env (Complete true)) ;;
  m_modify (with_state Completed) ;;?
  m_ret event.

(** * Both roles *)

(** [matches!(self.state, Completed | Aborted)] *)
Definition terminal (st : SessionState) : bool :=
  match st with Completed | Aborted => true | _ => false end.

Definition expect_not_terminal : M unit :=
  m_read (fun s =>
    if terminal (ps_state s)
    then Err (UnexpectedMessage "non-terminal state"
                ("state " ++ state_debug (ps_state s))%string)
    else Ok tt).

Definition abort (env : Env) (reason : AbortReason) : M (option SignedEvent) :=
  expect_not_terminal ;;?
  do? s <- m_get ;;
  match ps_peer_pubkey s with
  | None => m_modify (with_state Aborted) ;;? m_ret None
  | Some _ =>
      do? event <- m_read (build_event env (Abort_ reason)) ;;
      m_modify (with_state Aborted) ;;?
      m_ret (Some event)
  end.

Definition handle_abort (event : SignedEvent) : M AbortReason :=
  expect_not_terminal ;;?
  do? s <- m_get ;;
  match ps_peer_pubkey s with
  | None => m_fail (InvalidPubkey "cannot accept abort before peer is known")
  | Some _ =>
      m_read (validate_event_from_peer event) ;;?
      do? msg <- m_read (decrypt_message event) ;;
      match msg with
      | Abort_ reason =>
          m_modify (with_state Aborted) ;;?
          m_modify (record_event event) ;;?
          m_ret reason
      | other => m_fail (unexpected "abort" other)
      end
  end.

Definition sas_code (s : S) : option string := format_sas <$> ps_sas_code s.

(** [sign_event] with the session's keys: an arbitrary event of the caller. *)
Definition session_sign_event (aux : Bytes) (kind : Z) (content : string) (tags : list Tag)
    (created_at : Z) (s : S) : result SignedEvent PairingError :=
  map_err SigningError (sign_event aux (ps_keys s) kind content tags created_at).

(** * Calls as actions *)

Inductive Action :=
| AHandleOffer (now : Z) (event : SignedEvent)
| AConfirmSas (now : Z) (env : Env)
| ASendPayload (now : Z) (env : Env) (payload_type : PayloadType) (payload : string)
| AHandleComplete (now : Z) (event : SignedEvent)
| AHandleSasConfirm (now : Z) (event : SignedEvent)
| AConfirmTargetSas (now : Z)
| AHandlePayload (now : Z) (event : SignedEvent)
| ASendComplete (now : Z) (env : Env)
| ACallAbort (env : Env) (reason : AbortReason)
| AHandleAbort (event : SignedEvent).

Inductive Label :=
| LHandleOffer | LConfirmSas | LSendPayload | LHandleComplete
| LHandleSasConfirm | LConfirmTargetSas | LHandlePayload | LSendComplete
| LAbort | LHandleAbort.

#[export] Instance Label_eq_dec : EqDecision Label.
Proof. solve_decision. Defined.

Definition label (a : Action) : Label :=
  match a with
  | AHandleOffer _ _ => LHandleOffer | AConfirmSas _ _ => LConfirmSas
  | ASendPayload _ _ _ _ => LSendPayload | AHandleComplete _ _ => LHandleComplete
  | AHandleSasConfirm _ _ => LHandleSasConfirm | AConfirmTargetSas _ => LConfirmTargetSas
  | AHandlePayload _ _ => LHandlePayload | ASendComplete _ _ => LSendComplete
  | ACallAbort _ _ => LAbort | AHandleAbort _ => LHandleAbort
  end.

(** The session after a call, and whether the call returned [Ok]. *)
Definition act (a : Action) (s : S) : S * bool :=
  match a with
  | AHandleOffer now ev => let (s, r) := handle_offer now ev s in (s, is_ok r)
  | AConfirmSas now env => let (s, r) := confirm_sas now env s in (s, is_ok r)
  | ASendPayload now env t p => let (s, r) := send_payload now env t p s in (s, is_ok r)
  | AHandleComplete now ev => let (s, r) := handle_complete now ev s in (s, is_ok r)
  | AHandleSasConfirm now ev => let (s, r) := handle_sas_confirm now ev s in (s, is_ok r)
  | AConfirmTargetSas now => let (s, r) := confirm_target_sas now s in (s, is_ok r)
  | AHandlePayload now ev => let (s, r) := handle_payload now ev s in (s, is_ok r)
  | ASendComplete now env => let (s, r) := send_complete now env s in (s, is_ok r)
  | ACallAbort env reason => let (s, r) := abort env reason s in (s, is_ok r)
  | AHandleAbort ev => let (s, r) := handle_abort ev s in (s, is_ok r)
  end.

(** The session after a sequence of calls, and the calls that returned [Ok]. *)
Fixpoint run_actions (l : list Action) (s : S) : S * list Action :=
  match l with
  | [] => (s, [])
  | a :: l =>
      let (s, ok) := act a s in
      let (s, done) := run_actions l s in
      (s, if ok then a :: done else done)
  end.

(** The event a call consumes, if it consumes one. *)
Definition action_event (a : Action) : option SignedEvent :=
  match a with
  | AHandleOffer _ ev | AHandleComplete _ ev | AHandleSasConfirm _ ev
  | AHandlePayload _ ev | AHandleAbort ev => Some ev
  | _ => None
  end.

Definition action_now (a : Action) : option Z :=
  match a with
  | AHandleOffer now _ | AConfirmSas now _ | ASendPayload now _ _ _ | AHandleComplete now _
  | AHandleSasConfirm now _ | AConfirmTargetSas now | AHandlePayload now _
  | ASendComplete now _ => Some now
  | ACallAbort _ _ | AHandleAbort _ => None
  end.

(** The protocol step a successful call makes: role, state before, state after. *)
Definition step_of (l : Label) : option (Role * SessionState * SessionState) :=
  match l with
  | LHandleOffer => Some (Source, Waiting, Confirming)
  | LConfirmSas => Some (Source, Confirming, Transferring)
  | LSendPayload => Some (Source, Transferring, PayloadExchanged)
  | LHandleComplete => Some (Source, PayloadExchanged, Completed)
  | LHandleSasConfirm => Some (Target, Confirming, AwaitingConfirmation)
  | LConfirmTargetSas => Some (Target, AwaitingConfirmation, Transferring)
  | LHandlePayload => Some (Target, Transferring, PayloadExchanged)
  | LSendComplete => Some (Target, PayloadExchanged, Completed)
  | LAbort | LHandleAbort => None
  end.

(** What no call changes. *)
Definition same_session (s s' : S) : Prop :=
  ps_role s' = ps_role s /\ ps_keys s' = ps_keys s /\
  ps_session_secret s' = ps_session_secret s /\ ps_session_id s' = ps_session_id s /\
  ps_relay_urls s' = ps_relay_urls s /\
  ps_created_at s' = ps_created_at s /\ ps_timeout s' = ps_timeout s.

(** The message the event decrypts to, once it passed the checks every handler makes. *)
Definition accepts (s : S) (event : SignedEvent) (msg : PairingMessage) : Prop :=
  validate_event_basics event s = Ok tt /\ decrypt_message event s = Ok msg.

(** The message a successful handler must have received, and from whom. *)
Definition accepted (a : Action) (s s' : S) : Prop :=
  match a with
  | AHandleOffer _ ev =>
      exists sid, accepts s ev (Offer sid 1) /\
        hex_decode sid ≫= try_32 = Some (ps_session_id s) /\
        ps_peer_pubkey s' = Some (ev_pubkey (sv_event ev))
  | AHandleComplete _ ev =>
      accepts s ev (Complete true) /\ validate_event_from_peer ev s = Ok tt
  | AHandleSasConfirm _ ev =>
      exists h sas_input peer, accepts s ev (SasConfirm h) /\
        validate_event_from_peer ev s = Ok tt /\
        ps_sas_input s = Some sas_input /\ ps_peer_pubkey s = Some peer /\
        hex_decode h ≫= try_32 =
          Some (derive_transcript_hash (ps_session_id s) peer (public_key (ps_keys s)) sas_input
                  (ps_session_secret s))
  | AHandlePayload _ ev =>
      exists t p, accepts s ev (Payload t p) /\ validate_event_from_peer ev s = Ok tt
  | AHandleAbort ev =>
      exists r, accepts s ev (Abort_ r) /\ validate_event_from_peer ev s = Ok tt /\
        is_Some (ps_peer_pubkey s)
  | _ => True
  end.

Lemma validate_from_peer_basics ev s :
  validate_event_from_peer ev s = Ok tt ->
  validate_event_basics ev s = Ok tt /\
  (forall peer, ps_peer_pubkey s = Some peer -> ev_pubkey (sv_event ev) = peer).
Proof.
  unfold validate_event_from_peer. destruct (validate_event_basics ev s) as [[]|]; [|done].
  cbn. intros H. split; [done|]. intros peer Hp. rewrite Hp in H.
  destruct (bool_decide _) eqn:Hb; [|done]. by apply bool_decide_eq_true in Hb.
Qed.

(** The SAS of the session is the one derived from the key agreement with its peer. *)
Definition bound (s : S) : Prop :=
  exists peer code input ecdh,
    ps_peer_pubkey s = Some peer /\ ps_sas_code s = Some code /\ ps_sas_input s = Some input /\
    generate_shared_key (ps_keys s) peer = Ok ecdh /\
    derive_sas ecdh (ps_session_secret s) = (code, input).

(** One call, by cases on its outcome. *)
Record act_result (a : Action) (s s' : S) (ok : bool) : Prop := {
  ar_same : same_session s s';
  ar_ids : ps_processed_ids s' =
    match action_event a with
    | Some ev => if ok then {[ev_id (sv_event ev)]} ∪ ps_processed_ids s else ps_processed_ids s
    | None => ps_processed_ids s
    end;
  ar_keys :
    (ps_peer_pubkey s' = ps_peer_pubkey s /\ ps_sas_code s' = ps_sas_code s /\
     ps_sas_input s' = ps_sas_input s) \/
    (label a = LHandleOffer /\ ps_role s = Source /\ ps_state s = Waiting /\
     if ok then bound s'
     else ps_sas_code s' = ps_sas_code s /\ ps_sas_input s' = ps_sas_input s);
  ar_ok : ok = true ->
    (forall now, action_now a = Some now -> is_expired now s = false) /\ accepted a s s' /\
    match step_of (label a) with
    | Some (r, from, to) => ps_role s = r /\ ps_state s = from /\ ps_state s' = to
    | None => terminal (ps_state s) = false /\ ps_state s' = Aborted
    end;
  ar_err : ok = false ->
    ps_state s' = ps_state s \/ (terminal (ps_state s) = false /\ ps_state s' = Aborted)
}.

Ltac unfold_methods :=
  unfold check_expired, expect_state, expect_role, expect_not_terminal, sas_and_peer,
    m_bind, m_read, m_modify, m_ret, m_fail, m_get, map_err, res_bind in *.

Ltac close_act :=
  unfold same_session; try done; try (by right); try (by left).

Lemma handle_offer_act now ev s :
  let (s', r) := handle_offer now ev s in act_result (AHandleOffer now ev) s s' (is_ok r).
Proof.
  unfold handle_offer. unfold_methods.
  destruct (is_expired now s) eqn:Hexp; [constructor; close_act|].
  destruct (decide (ps_state s = Waiting)) as [Hst|]; [|constructor; close_act].
  destruct (decide (ps_role s = Source)) as [Hrole|]; [|constructor; close_act].
  destruct (validate_event_basics ev s) as [[]|e] eqn:Hv; [|constructor; close_act].
  destruct (decrypt_message ev s) as [[sid v|h|t p|b|r]|e] eqn:Hd; try (constructor; close_act).
  destruct (Z.eqb_spec v 1) as [->|]; cbn [negb]; [|constructor; close_act].
  destruct (hex_decode sid ≫= try_32) as [id|] eqn:Hid; [|constructor; close_act].
  unfold ct_eq. destruct (bool_decide (id = ps_session_id s)) eqn:Hct; [|constructor; close_act].
  apply bool_decide_eq_true in Hct as ->.
  destruct (generate_shared_key _ _) as [ecdh|e] eqn:He; [|constructor; close_act].
  destruct (derive_sas ecdh _) as [code sas_input] eqn:Hs. constructor; try done.
  { right. split_and!; [done|done|done|]. by exists (ev_pubkey (sv_event ev)), code, sas_input, ecdh. }
  intros _. split_and!; [by intros ? [= <-]| |done].
  exists sid. by split_and!.
Qed.

Lemma build_step_act now env a st role next msg s :
  action_now a = Some now -> action_event a = None ->
  step_of (label a) = Some (role, st, next) ->
  (forall s', accepted a s s') ->
  forall (guard : S -> result unit PairingError),
  let (s', r) :=
    (check_expired now ;;? expect_state st ;;? expect_role role ;;?
     m_read guard ;;?
     do? event <- m_read (fun s => build_event env (msg s) s) ;;
     m_modify (with_state next) ;;? m_ret event) s in
  act_result a s s' (is_ok r).
Proof.
  intros Hnow Hev Hstep Hacc guard. unfold_methods.
  destruct (is_expired now s) eqn:Hexp; [constructor; rewrite ?Hev; close_act|].
  destruct (decide (ps_state s = st)) as [Hst|]; [|constructor; rewrite ?Hev; close_act].
  destruct (decide (ps_role s = role)) as [Hrole|]; [|constructor; rewrite ?Hev; close_act].
  destruct (guard s) as [[]|]; [|constructor; rewrite ?Hev; close_act].
  destruct (build_event env (msg s) s); [|constructor; rewrite ?Hev; close_act].
  constructor; rewrite ?Hev, ?Hstep; try done; [by left|]. intros _.
  split_and!; [intros ?; rewrite Hnow; by intros [= <-]|done|done|done|done].
Qed.

Lemma confirm_sas_act now env s :
  let (s', r) := confirm_sas now env s in act_result (AConfirmSas now env) s s' (is_ok r).
Proof.
  unfold confirm_sas. unfold_methods.
  destruct (is_expired now s) eqn:Hexp; [constructor; close_act|].
  destruct (decide (ps_state s = Confirming)) as [Hst|]; [|constructor; close_act].
  destruct (decide (ps_role s = Source)) as [Hrole|]; [|constructor; close_act].
  destruct (ps_sas_input s) as [input|]; [|constructor; close_act].
  destruct (ps_peer_pubkey s) as [peer|] eqn:Hp; [|constructor; close_act].
  destruct (build_event _ _ s); [|constructor; close_act].
  constructor; try done; [by left|]. intros _. split_and!; [by intros ? [= <-]|done|done].
Qed.

Lemma send_payload_act now env t p s :
  let (s', r) := send_payload now env t p s in act_result (ASendPayload now env t p) s s' (is_ok r).
Proof.
  by apply (build_step_act now env (ASendPayload now env t p) Transferring Source PayloadExchanged
           (fun _ => Payload t p) s eq_refl eq_refl eq_refl (fun _ => I) (fun _ => Ok tt)).
Qed.

Lemma send_complete_act now env s :
  let (s', r) := send_complete now env s in act_result (ASendComplete now env) s s' (is_ok r).
Proof.
  by apply (build_step_act now env (ASendComplete now env) PayloadExchanged Target Completed
           (fun _ => Complete true) s eq_refl eq_refl eq_refl (fun _ => I) (fun _ => Ok tt)).
Qed.

Lemma handle_complete_act now ev s :
  let (s', r) := handle_complete now ev s in act_result (AHandleComplete now ev) s s' (is_ok r).
Proof.
  unfold handle_complete. unfold_methods.
  destruct (is_expired now s) eqn:Hexp; [constructor; close_act|].
  destruct (decide (ps_state s = PayloadExchanged)) as [Hst|]; [|constructor; close_act].
  destruct (decide (ps_role s = Source)) as [Hrole|]; [|constructor; close_act].
  destruct (validate_event_from_peer ev s) as [[]|e] eqn:Hv; [|constructor; close_act].
  destruct (decrypt_message ev s) as [[sid v|h|t p|[]|r]|e] eqn:Hd; try (constructor; close_act).
  - intros _. split_and!; [by intros ? [= <-]| |done].
    split; [|done]. split; [|done]. by apply validate_from_peer_basics.
  - intros _. right. by rewrite Hst.
Qed.

Lemma handle_sas_confirm_act now ev s :
  (ps_role s = Target -> is_Some (ps_sas_code s)) ->
  let (s', r) := handle_sas_confirm now ev s in
  act_result (AHandleSasConfirm now ev) s s' (is_ok r).
Proof.
  intros Hsome. unfold handle_sas_confirm. unfold_methods.
  destruct (is_expired now s) eqn:Hexp; [constructor; close_act|].
  destruct (decide (ps_state s = Confirming)) as [Hst|]; [|constructor; close_act].
  destruct (decide (ps_role s = Target)) as [Hrole|]; [|constructor; close_act].
  destruct (Hsome Hrole) as [code Hcode].
  destruct (validate_event_from_peer ev s) as [[]|e] eqn:Hv; [|constructor; close_act].
  destruct (decrypt_message ev s) as [[sid v|h|t p|b|r]|e] eqn:Hd; try (constructor; close_act).
  destruct (ps_sas_input s) as [input|] eqn:Hi; [|constructor; close_act].
  destruct (ps_peer_pubkey s) as [peer|] eqn:Hp; [|constructor; close_act].
  destruct (hex_decode h ≫= try_32) as [rb|] eqn:Hh; cbn [negb].
  - unfold ct_eq. destruct (bool_decide (rb = _)) eqn:Hct; cbn [negb].
    + apply bool_decide_eq_true in Hct as ->.
      cbn [ps_sas_code record_event with_state]. rewrite Hcode. constructor; try done; [by left|].
      intros _. split_and!; [by intros ? [= <-]| |done].
      exists h, input, peer. split_and!; try done. split; [|done].
      by apply validate_from_peer_basics.
    + constructor; try done; [by left|]. intros _. right. by rewrite Hst.
  - constructor; try done; [by left|]. intros _. right. by rewrite Hst.
Qed.

Lemma confirm_target_sas_act now s :
  let (s', r) := confirm_target_sas now s in act_result (AConfirmTargetSas now) s s' (is_ok r).
Proof.
  unfold confirm_target_sas. unfold_methods.
  destruct (is_expired now s) eqn:Hexp; [constructor; close_act|].
  destruct (decide (ps_state s = AwaitingConfirmation)) as [Hst|]; [|constructor; close_act].
  destruct (decide (ps_role s = Target)) as [Hrole|]; [|constructor; close_act].
  constructor; try done; [by left|]. intros _. split_and!; [by intros ? [= <-]|done|done].
Qed.

Lemma handle_payload_act now ev s :
  let (s', r) := handle_payload now ev s in act_result (AHandlePayload now ev) s s' (is_ok r).
Proof.
  unfold handle_payload. unfold_methods.
  destruct (is_expired now s) eqn:Hexp; [constructor; close_act|].
  destruct (decide (ps_state s = Transferring)) as [Hst|]; [|constructor; close_act].
  destruct (decide (ps_role s = Target)) as [Hrole|]; [|constructor; close_act].
  destruct (validate_event_from_peer ev s) as [[]|e] eqn:Hv; [|constructor; close_act].
  destruct (decrypt_message ev s) as [[sid v|h|t p|b|r]|e] eqn:Hd; try (constructor; close_act).
  intros _. split_and!; [by intros ? [= <-]| |done].
  exists t, p. split; [|done]. split; [|done]. by apply validate_from_peer_basics.
Qed.

Lemma abort_act env reason s :
  let (s', r) := abort env reason s in act_result (ACallAbort env reason) s s' (is_ok r).
Proof.
  unfold abort. unfold_methods.
  destruct (terminal (ps_state s)) eqn:Ht; [constructor; close_act|].
  destruct (ps_peer_pubkey s) as [peer|] eqn:Hp; [|constructor; close_act].
  destruct (build_event _ _ s); constructor; close_act.
Qed.

Lemma handle_abort_act ev s :
  let (s', r) := handle_abort ev s in act_result (AHandleAbort ev) s s' (is_ok r).
Proof.
  unfold handle_abort. unfold_methods.
  destruct (terminal (ps_state s)) eqn:Ht; [constructor; close_act|].
  destruct (ps_peer_pubkey s) as [peer|] eqn:Hp; [|constructor; close_act].
  destruct (validate_event_from_peer ev s) as [[]|e] eqn:Hv; [|constructor; close_act].
  destruct (decrypt_message ev s) as [[sid v|h|t p|b|r]|e] eqn:Hd; try (constructor; close_act).
  intros _. split_and!; [done| |done].
  exists r. split_and!; [|done|eauto]. split; [|done]. by apply validate_from_peer_basics.
Qed.

Lemma act_spec a s :
  (ps_role s = Target -> is_Some (ps_sas_code s)) ->
  let (s', ok) := act a s in act_result a s s' ok.
Proof.
  intros Hsome. destruct a as [now ev|now env|now env t p|now ev|now ev|now|now ev|now env|env r|ev];
    cbn [act].
  - pose proof (handle_offer_act now ev s). by destruct (handle_offer now ev s).
  - pose proof (confirm_sas_act now env s). by destruct (confirm_sas now env s).
  - pose proof (send_payload_act now env t p s). by destruct (send_payload now env t p s).
  - pose proof (handle_complete_act now ev s). by destruct (handle_complete now ev s).
  - pose proof (handle_sas_confirm_act now ev s Hsome). by destruct (handle_sas_confirm now ev s).
  - pose proof (confirm_target_sas_act now s). by destruct (confirm_target_sas now s).
  - pose proof (handle_payload_act now ev s). by destruct (handle_payload now ev s).
  - pose proof (send_complete_act now env s). by destruct (send_complete now env s).
  - pose proof (abort_act env r s). by destruct (abort env r s).
  - pose proof (handle_abort_act ev s). by destruct (handle_abort ev s).
Qed.

(** An invariant of a session and the calls that succeeded so far. *)
Lemma run_actions_inv (I : S -> list Action -> Prop) :
  (forall a s h, I s h -> let (s', ok) := act a s in I s' (if ok then h ++ [a] else h)) ->
  forall acts s h, I s h -> let (s', done) := run_actions acts s in I s' (h ++ done).
Proof.
  intros Hstep acts. induction acts as [|a acts IH]; intros s h HI; cbn [run_actions].
  { by rewrite app_nil_r. }
  specialize (Hstep a s h HI). destruct (act a s) as [s1 ok].
  specialize (IH s1 _ Hstep). destruct (run_actions acts s1) as [s' done].
  destruct ok; [by rewrite <-app_assoc in IH|done].
Qed.

(** * The protocol script *)

Definition script (r : Role) : list Label :=
  match r with
  | Source => [LHandleOffer; LConfirmSas; LSendPayload; LHandleComplete]
  | Target => [LHandleSasConfirm; LConfirmTargetSas; LHandlePayload; LSendComplete]
  end.

Definition script_states (r : Role) : list SessionState :=
  match r with
  | Source => [Waiting; Confirming; Transferring; PayloadExchanged; Completed]
  | Target => [Confirming; AwaitingConfirmation; Transferring; PayloadExchanged; Completed]
  end.

(** The successful calls are a prefix of the script, ended early by an abort at most. *)
Definition on_script (r : Role) (st : SessionState) (labels : list Label) : Prop :=
  exists n,
    (labels = take n (script r) /\ script_states r !! n = Some st) \/
    (st = Aborted /\ (n < 4)%nat /\
     (labels = take n (script r) \/
      labels = take n (script r) ++ [LAbort] \/ labels = take n (script r) ++ [LHandleAbort])).

Definition fresh (s : S) : Prop :=
  (exists now keys secret relay, s = (new_source now keys secret relay).1) \/
  (exists now env keys qr offer, new_target now env keys qr = Ok (s, offer)).

Lemma on_script_step r st labels l from to :
  step_of l = Some (r, from, to) -> on_script r st labels -> st = from ->
  on_script r to (labels ++ [l]).
Proof.
  intros Hl (n & [[-> Hst]|(-> & _)]) Hfrom; [subst from|by destruct l; simplify_eq].
  exists (Datatypes.S n). left.
  destruct r, l; try done; injection Hl as <- <-;
    do 5 (destruct n as [|n]; [try done|]); done.
Qed.

Lemma on_script_abort r st labels :
  terminal st = false -> on_script r st labels ->
  on_script r Aborted labels /\
  forall l, l = LAbort \/ l = LHandleAbort -> on_script r Aborted (labels ++ [l]).
Proof.
  intros Ht (n & [[-> Hst]|(-> & _)]); [|done].
  assert (Hn : (n < 4)%nat) by (destruct r; do 4 (destruct n as [|n]; [lia|]); destruct n;
    cbn in Hst; simplify_eq; done).
  split; [exists n; right; auto|]. intros l [->| ->]; exists n; right; auto.
Qed.

Definition target_ready (s : S) : Prop := ps_role s = Target -> is_Some (ps_sas_code s).

Lemma act_on_script r a s labels :
  target_ready s -> ps_role s = r -> on_script r (ps_state s) labels ->
  let (s', ok) := act a s in
  target_ready s' /\ ps_role s' = r /\
  on_script r (ps_state s') (if ok then labels ++ [label a] else labels).
Proof.
  intros Hready Hr Hon. pose proof (act_spec a s Hready) as Hact.
  destruct (act a s) as [s' ok]. destruct Hact as [(Hrole & _) _ Hkeys Hok Herr].
  split_and!; [|by rewrite Hrole|].
  { intros Ht. rewrite Hrole in Ht. destruct Hkeys as [(_ & -> & _)|(_ & Hs & _)]; [auto|].
    by rewrite Ht in Hs. }
  destruct ok.
  - destruct (Hok eq_refl) as (_ & _ & Hstep).
    destruct (step_of (label a)) as [[[r' from] to]|] eqn:Hl.
    + destruct Hstep as (Hr' & Hfrom & ->). rewrite Hr in Hr'. subst r'.
      by eapply on_script_step.
    + destruct Hstep as [Ht ->]. apply (on_script_abort r (ps_state s)); [done|done|].
      destruct (label a); try done; auto.
  - destruct (Herr eq_refl) as [->|[Ht ->]]; [done|]. by eapply on_script_abort.
Qed.

Lemma fresh_init s :
  fresh s ->
  target_ready s /\ on_script (ps_role s) (ps_state s) [] /\ ps_processed_ids s = ∅ /\
  (ps_sas_code s <> None -> bound s) /\ (ps_role s = Target -> bound s) /\
  ps_session_id s = derive_session_id (ps_session_secret s).
Proof.
  intros [(now & keys & secret & relay & ->)|(now & env & keys & qr & offer & Hnew)].
  - split_and!; try done. by exists 0%nat; left.
  - unfold new_target in Hnew. apply res_bind_Ok in Hnew as (ecdh & He & Hnew).
    destruct (generate_shared_key keys (qr_source_pubkey qr)) as [e'|] eqn:Hk; [|done].
    injection He as ->. destruct (derive_sas ecdh (qr_session_secret qr)) as [code input] eqn:Hd.
    apply res_bind_Ok in Hnew as (ev & _ & [= <- _]).
    assert (Hb : forall st, bound (with_state st (mkSession _ Target Waiting keys
      (qr_session_secret qr) (qr_relays qr) (Some (qr_source_pubkey qr))
      (derive_session_id (qr_session_secret qr)) (Some code) (Some input) ∅ now DEFAULT_TIMEOUT))).
    { intros st. by exists (qr_source_pubkey qr), code, input, ecdh. }
    split_and!; try done.
    all: first [intros _; apply Hb | by intros _; eexists | by exists 0%nat; left].
Qed.

(** C13: Whatever calls are made, with whatever events, nonces and clock readings, the calls
    that succeed on a session are, in order, a prefix of its role's protocol script, ended
    early by at most one abort, and the state tells how far it got.  So the source releases
    the payload at most once and only after it accepted an offer and its user confirmed the
    SAS; the target accepts a payload at most once and only after a matching sas-confirm
    and its user's confirmation; a completed or aborted session never moves again. *)
Theorem protocol_order (acts : list Action) (s : S) :
  fresh s ->
  let (s', done) := run_actions acts s in
  ps_role s' = ps_role s /\ on_script (ps_role s) (ps_state s') (label <$> done).
Proof.
  intros Hf. destruct (fresh_init s Hf) as (Hready & Hon & _).
  pose proof (run_actions_inv (fun s' h => target_ready s' /\ ps_role s' = ps_role s /\
    on_script (ps_role s) (ps_state s') (label <$> h))) as Hinv.
  specialize (Hinv ltac:(intros a s1 h (H1 & H2 & H3);
    pose proof (act_on_script (ps_role s) a s1 _ H1 H2 H3) as H;
    destruct (act a s1) as [s2 []]; [by rewrite fmap_app|done]) acts s [] ltac:(done)).
  destruct (run_actions acts s) as [s' done]. by destruct Hinv as (_ & ? & ?).
Qed.

(** * Accepted events *)

Definition event_ids (h : list Action) : list Bytes :=
  omap (fun a => (fun ev => ev_id (sv_event ev)) <$> action_event a) h.

(** What every accepted event satisfied, in terms of what no call changes. *)
Definition authentic (s0 : S) (ev : SignedEvent) : Prop :=
  event_verify ev = Ok tt /\ ev_kind (sv_event ev) = PAIRING_KIND /\
  has_p_tag (public_key (ps_keys s0)) (sv_event ev) = true.

(** The event decrypts to a sas-confirm whose hash is the session's own transcript. *)
Definition confirms_transcript (s0 : S) (ev : SignedEvent) : Prop :=
  exists h peer input, decrypt_message ev s0 = Ok (SasConfirm h) /\
    ps_peer_pubkey s0 = Some peer /\ ev_pubkey (sv_event ev) = peer /\
    ps_sas_input s0 = Some input /\
    hex_decode h ≫= try_32 =
      Some (derive_transcript_hash (ps_session_id s0) peer (public_key (ps_keys s0)) input
              (ps_session_secret s0)).

Lemma validate_basics_authentic ev s :
  validate_event_basics ev s = Ok tt ->
  authentic s ev /\ ev_id (sv_event ev) ∉ ps_processed_ids s.
Proof.
  unfold validate_event_basics, authentic. destruct (event_verify ev) as [[]|]; [|done].
  destruct (bool_decide _) eqn:Hb; [done|]. apply bool_decide_eq_false in Hb.
  destruct (Z.eqb_spec (ev_kind (sv_event ev)) PAIRING_KIND); [|done]. cbn [negb].
  by destruct (has_p_tag _ _).
Qed.

Lemma accepted_basics a s s' ev :
  accepted a s s' -> action_event a = Some ev -> validate_event_basics ev s = Ok tt.
Proof.
  unfold accepted, accepts. destruct a; try done; intros H [= <-]; naive_solver.
Qed.

(** The pubkey an accepted event comes from is the session's peer afterwards. *)
Lemma accepted_peer a s s' ev :
  accepted a s s' -> action_event a = Some ev -> is_Some (ps_peer_pubkey s) ->
  (label a <> LHandleOffer -> ps_peer_pubkey s' = ps_peer_pubkey s) ->
  ps_peer_pubkey s' = Some (ev_pubkey (sv_event ev)).
Proof.
  intros Hacc Hev [peer Hp] Hsame.
  assert (Hfrom : validate_event_from_peer ev s = Ok tt -> label a <> LHandleOffer ->
            ps_peer_pubkey s' = Some (ev_pubkey (sv_event ev))).
  { intros Hv Hl. apply validate_from_peer_basics in Hv as [_ Hv]. rewrite Hsame, Hp by done.
    f_equal. symmetry. by apply Hv. }
  unfold accepted in Hacc. destruct a; try done; injection Hev as ->; naive_solver.
Qed.

Record history_ok (s0 s : S) (h : list Action) : Prop := {
  ho_same : same_session s0 s;
  ho_ready : target_ready s;
  ho_script : on_script (ps_role s0) (ps_state s) (label <$> h);
  ho_ids : forall id, id ∈ ps_processed_ids s <-> id ∈ event_ids h;
  ho_nodup : NoDup (event_ids h);
  ho_authentic : forall a ev, a ∈ h -> action_event a = Some ev -> authentic s0 ev;
  ho_peer : forall a ev, a ∈ h -> action_event a = Some ev ->
    ps_peer_pubkey s = Some (ev_pubkey (sv_event ev));
  ho_bound : ps_sas_code s <> None -> bound s;
  ho_waiting : ps_role s0 = Source -> ps_state s = Waiting -> ps_sas_code s = None;
  ho_started : ps_role s0 = Source -> ps_state s <> Waiting -> ps_state s <> Aborted ->
    is_Some (ps_peer_pubkey s);
  ho_target : ps_role s0 = Target ->
    is_Some (ps_peer_pubkey s0) /\
    ps_peer_pubkey s = ps_peer_pubkey s0 /\ ps_sas_input s = ps_sas_input s0;
  ho_confirm : forall now ev, AHandleSasConfirm now ev ∈ h -> confirms_transcript s0 ev
}.

Lemma fresh_history s : fresh s -> history_ok s s [].
Proof.
  intros Hf. destruct (fresh_init s Hf) as (H1 & H2 & H3 & H4 & H5 & _). constructor; try done.
  - intros id. rewrite H3. set_solver.
  - constructor.
  - intros a ev Hin. by apply not_elem_of_nil in Hin.
  - intros a ev Hin. by apply not_elem_of_nil in Hin.
  - intros Hr _. destruct Hf as [(now & keys & secret & relay & ->)|(now & env & keys & qr & ev & Hn)];
      [done|]. unfold new_target in Hn. apply res_bind_Ok in Hn as (ecdh & _ & Hn).
    destruct (derive_sas _ _). by apply res_bind_Ok in Hn as (e & _ & [= <- _]).
  - intros Hr Hw Ha. destruct H2 as (n & [[Hl Hst]|(? & _)]); [|done].
    rewrite Hr in *. destruct n; [injection Hst as Hst; congruence|done].
  - intros Ht. destruct (H5 Ht) as (peer & ? & ? & ? & Hp & _). split; [by eexists|done].
  - intros now ev Hin. by apply not_elem_of_nil in Hin.
Qed.

(** With the source still waiting, nothing has succeeded. *)
Lemma waiting_history s0 s h :
  history_ok s0 s h -> ps_role s = Source -> ps_state s = Waiting -> h = [].
Proof.
  intros [Hs _ (n & [[Hl Hst]|(Ha & _)]) _ _ _ _ _ _ _ _ _] Hr Hw; [|congruence].
  assert (Hr0 : ps_role s0 = Source) by (by destruct Hs as [<- _]). rewrite Hr0, Hw in *.
  destruct n as [|n]; [by destruct h|]. do 4 (destruct n as [|n]; [done|]). done.
Qed.

Lemma bound_frame s s' :
  same_session s s' -> ps_peer_pubkey s' = ps_peer_pubkey s ->
  ps_sas_code s' = ps_sas_code s -> ps_sas_input s' = ps_sas_input s ->
  bound s -> bound s'.
Proof.
  intros (_ & Hk & Hsec & _) Hp Hc Hi (peer & code & input & ecdh & H).
  exists peer, code, input, ecdh. by rewrite Hk, Hsec, Hp, Hc, Hi.
Qed.

Lemma same_session_trans s1 s2 s3 :
  same_session s1 s2 -> same_session s2 s3 -> same_session s1 s3.
Proof. unfold same_session. intros H1 H2. decompose [and] H1. decompose [and] H2. split_and!; congruence. Qed.

Lemma event_ids_app h a :
  event_ids (h ++ [a]) =
  event_ids h ++ match action_event a with Some ev => [ev_id (sv_event ev)] | None => [] end.
Proof. unfold event_ids. rewrite omap_app. cbn. by destruct (action_event a). Qed.

Lemma authentic_frame s0 s ev : same_session s0 s -> authentic s ev -> authentic s0 ev.
Proof. intros (_ & Hk & _). unfold authentic. by rewrite Hk. Qed.

Lemma decrypt_frame s0 s ev : same_session s0 s -> decrypt_message ev s = decrypt_message ev s0.
Proof. intros (_ & Hk & _). unfold decrypt_message. by rewrite Hk. Qed.

(** The peer after a successful call: unchanged unless the call is the offer. *)
Lemma act_peer a s s' :
  act_result a s s' true ->
  (label a <> LHandleOffer -> ps_peer_pubkey s' = ps_peer_pubkey s) /\
  (label a = LHandleOffer -> exists ev, action_event a = Some ev /\
     ps_peer_pubkey s' = Some (ev_pubkey (sv_event ev))).
Proof.
  intros [_ _ Hk Hok _]. split.
  - intros Hl. destruct Hk as [(H & _)|(? & _)]; done.
  - intros Hl. destruct (Hok eq_refl) as (_ & Hacc & _).
    destruct a; try done. destruct Hacc as (sid & _ & _ & Hp). by eexists.
Qed.

Lemma act_peer_known s0 s h a s' :
  history_ok s0 s h -> act_result a s s' true -> label a <> LHandleOffer ->
  is_Some (action_event a) -> is_Some (ps_peer_pubkey s).
Proof.
  intros Hh Hact Hl Hev. pose proof (ho_same _ _ _ Hh) as (Hr & _).
  destruct (ps_role s0) eqn:Hr0; cycle 1.
  { destruct (ho_target _ _ _ Hh Hr0) as (? & -> & _). done. }
  destruct (ar_ok _ _ _ _ Hact eq_refl) as (_ & Hacc & Hst).
  destruct a; try (by destruct Hev); cbn in Hst; try done;
    try (destruct Hst as (? & Hst & _); apply (ho_started _ _ _ Hh Hr0); congruence).
  by destruct Hacc as (? & _ & _ & ?).
Qed.

(** The facts of the next state that both outcomes share. *)
Definition next_ok (s0 s' : S) (labels : list Label) : Prop :=
  same_session s0 s' /\ target_ready s' /\ on_script (ps_role s0) (ps_state s') labels /\
  (ps_sas_code s' <> None -> bound s') /\
  (ps_role s0 = Target ->
     is_Some (ps_peer_pubkey s0) /\
     ps_peer_pubkey s' = ps_peer_pubkey s0 /\ ps_sas_input s' = ps_sas_input s0).

Lemma history_step_err a s0 s s' h :
  history_ok s0 s h -> act_result a s s' false -> next_ok s0 s' (label <$> h) ->
  history_ok s0 s' h.
Proof.
  intros Hh Hact (Hsame & Hready & Hon & Hbound & Htarget).
  pose proof (ar_ids _ _ _ _ Hact) as Hids. pose proof (ar_keys _ _ _ _ Hact) as Hkeys.
  pose proof (ho_same _ _ _ Hh) as (Hr & _).
  assert (Hst := ar_err _ _ _ _ Hact eq_refl).
  assert (Hnil : ps_role s = Source -> ps_state s = Waiting -> h = [])
    by (intros; by eapply waiting_history).
  constructor; try done.
  - intros id. rewrite <-(ho_ids _ _ _ Hh). rewrite Hids. by destruct (action_event a).
  - apply Hh.
  - apply Hh.
  - intros a' ev Hin Hev. destruct Hkeys as [(-> & _)|(_ & Hrs & Hw & _)].
    + by apply (ho_peer _ _ _ Hh a').
    + rewrite (Hnil Hrs Hw) in Hin. by apply not_elem_of_nil in Hin.
  - intros Hs Hw. destruct Hst as [Heq|[_ Heq]]; [|congruence]. rewrite Heq in Hw.
    assert (ps_sas_code s' = ps_sas_code s) as -> by (destruct Hkeys as [?|?]; naive_solver).
    by apply (ho_waiting _ _ _ Hh).
  - intros Hs Hw Ha. destruct Hst as [Heq|[_ Heq]]; [|congruence]. rewrite Heq in Hw, Ha.
    destruct Hkeys as [(-> & _)|(_ & _ & ? & _)]; [by apply (ho_started _ _ _ Hh)|done].
  - apply Hh.
Qed.

Lemma history_step_ok a s0 s s' h :
  history_ok s0 s h -> act_result a s s' true -> next_ok s0 s' (label <$> h ++ [a]) ->
  history_ok s0 s' (h ++ [a]).
Proof.
  intros Hh Hact (Hsame & Hready & Hon & Hbound & Htarget).
  pose proof (ar_ids _ _ _ _ Hact) as Hids.
  destruct (ar_ok _ _ _ _ Hact eq_refl) as (_ & Hacc & Hst).
  destruct (act_peer _ _ _ Hact) as [Hpsame Hpoffer].
  pose proof (ho_same _ _ _ Hh) as Hs. pose proof (proj1 Hs) as Hr.
  assert (Hnew : forall ev, action_event a = Some ev ->
            authentic s ev /\ ev_id (sv_event ev) ∉ ps_processed_ids s).
  { intros ev Hev. apply validate_basics_authentic. by eapply accepted_basics. }
  constructor; try done.
  - intros id. rewrite event_ids_app, elem_of_app, <-(ho_ids _ _ _ Hh), Hids.
    destruct (action_event a); set_solver.
  - rewrite event_ids_app. apply NoDup_app. split; [apply Hh|].
    destruct (action_event a) as [ev|]; [|split; [set_solver|constructor]].
    split; [|apply NoDup_singleton]. intros id Hid ->%list_elem_of_singleton.
    apply (ho_ids _ _ _ Hh) in Hid. by destruct (Hnew ev eq_refl) as [_ ?].
  - intros a' ev [Hin| ->%list_elem_of_singleton]%elem_of_app Hev;
      [by apply (ho_authentic _ _ _ Hh a')|].
    eapply authentic_frame; [exact Hs|]. by apply Hnew.
  - intros a' ev Hin Hev. destruct (decide (label a = LHandleOffer)) as [Hl|Hl].
    + assert (Hsrc : ps_role s = Source /\ ps_state s = Waiting)
        by (rewrite Hl in Hst; cbn in Hst; tauto).
      assert (h = []) as -> by (eapply waiting_history; [done|apply Hsrc|apply Hsrc]).
      apply list_elem_of_singleton in Hin as ->.
      destruct (Hpoffer Hl) as (ev' & Hev' & ->). congruence.
    + apply elem_of_app in Hin as [Hin| ->%list_elem_of_singleton].
      * rewrite Hpsame by done. by apply (ho_peer _ _ _ Hh a').
      * eapply accepted_peer; [done|done| |done].
        eapply act_peer_known; [done|done|done|by eexists].
  - intros Hsrc Hw. destruct (step_of (label a)) as [[[r f] t]|] eqn:Hstep.
    + destruct Hst as (_ & _ & Ht). destruct (label a); cbn in Hstep; congruence.
    + destruct Hst as [_ Ht]. congruence.
  - intros Hsrc Hw Ha. destruct (decide (label a = LHandleOffer)) as [Hl|Hl].
    + destruct (Hpoffer Hl) as (ev & _ & ->). by eexists.
    + rewrite Hpsame by done. apply (ho_started _ _ _ Hh Hsrc).
      * intros Hws. destruct (step_of (label a)) as [[[r f] t]|] eqn:Hstep.
        { destruct Hst as (_ & Hf & _). destruct (label a); cbn in Hstep; congruence. }
        { by destruct Hst as [_ ?]. }
      * intros Has. destruct (step_of (label a)) as [[[r f] t]|] eqn:Hstep.
        { destruct Hst as (_ & Hf & _). destruct (label a); cbn in Hstep; congruence. }
        { by destruct Hst as [_ ?]. }
  - intros now ev [Hin|Heq%list_elem_of_singleton]%elem_of_app; [by apply (ho_confirm _ _ _ Hh now)|].
    subst a. destruct Hacc as (hh & input & peer & [_ Hd] & Hv & Hi & Hp & Hhash).
    destruct Hst as (Hrt & _). rewrite Hr in Hrt.
    destruct (ho_target _ _ _ Hh Hrt) as (_ & Hp0 & Hi0).
    apply validate_from_peer_basics in Hv as [_ Hv].
    exists hh, peer, input. rewrite <-(decrypt_frame _ _ _ Hs), <-Hp0, <-Hi0.
    destruct Hs as (_ & Hk & Hsec & Hsid & _). rewrite <-Hk, <-Hsec, <-Hsid.
    split_and!; try done. by apply Hv.
Qed.

Lemma history_step a s0 s h :
  history_ok s0 s h ->
  let (s', ok) := act a s in history_ok s0 s' (if ok then h ++ [a] else h).
Proof.
  intros Hh. pose proof (act_spec a s (ho_ready _ _ _ Hh)) as Hact.
  pose proof (ho_same _ _ _ Hh) as Hsame. pose proof (proj1 Hsame) as Hr.
  pose proof (act_on_script (ps_role s0) a s _ (ho_ready _ _ _ Hh) Hr (ho_script _ _ _ Hh)) as Hon.
  destruct (act a s) as [s' ok]. destruct Hon as (Hready & Hr' & Hon).
  pose proof (same_session_trans _ _ _ Hsame (ar_same _ _ _ _ Hact)) as Hsame'.
  assert (Hbound : ps_sas_code s' <> None -> bound s').
  { intros Hc. destruct (ar_keys _ _ _ _ Hact) as [(Hp & Hcode & Hi)|(_ & Hrs & Hw & Hb)].
    - rewrite Hcode in Hc.
      by apply (bound_frame s); [apply Hact| | | |apply (ho_bound _ _ _ Hh)].
    - destruct ok; [done|]. destruct Hb as [Hcode _]. rewrite Hcode in Hc.
      destruct Hc. apply (ho_waiting _ _ _ Hh); congruence. }
  assert (Htarget : ps_role s0 = Target ->
            is_Some (ps_peer_pubkey s0) /\
            ps_peer_pubkey s' = ps_peer_pubkey s0 /\ ps_sas_input s' = ps_sas_input s0).
  { intros Ht. destruct (ho_target _ _ _ Hh Ht) as (? & Hp & Hi).
    destruct (ar_keys _ _ _ _ Hact) as [(-> & _ & ->)|(_ & Hrs & _)]; [done|congruence]. }
  destruct ok.
  - eapply history_step_ok; [done|done|]. by rewrite fmap_app.
  - by eapply history_step_err.
Qed.

Lemma run_history acts s :
  fresh s -> let (s', done) := run_actions acts s in history_ok s s' done.
Proof.
  intros Hf. apply (run_actions_inv (history_ok s) (fun a s1 h => history_step a s s1 h) acts s []).
  by apply fresh_history.
Qed.

(** No event is accepted twice in a session, and every accepted event has a valid
    signature, is a pairing event addressed to this session's key, and comes from one and
    the same peer: the pubkey of the QR code for the target, the sender of the accepted
    offer for the source. *)
Theorem accepted_events_authentic (acts : list Action) (s : S) :
  fresh s ->
  let (s', done) := run_actions acts s in
  NoDup (event_ids done) /\
  (forall a ev, a ∈ done -> action_event a = Some ev ->
     authentic s ev /\ ps_peer_pubkey s' = Some (ev_pubkey (sv_event ev))) /\
  (ps_role s = Target -> ps_peer_pubkey s' = ps_peer_pubkey s).
Proof.
  intros Hf. pose proof (run_history acts s Hf) as Hh. destruct (run_actions acts s) as [s' done].
  split_and!; [apply Hh| |].
  - intros a ev Hin Hev. split; [by apply (ho_authentic _ _ _ Hh a)|by apply (ho_peer _ _ _ Hh a)].
  - intros Ht. by destruct (ho_target _ _ _ Hh Ht) as (_ & ? & _).
Qed.

(** A target that accepted a payload had before accepted a sas-confirm from the pubkey of
    the QR code whose hash is the transcript of this very session: its session id, both
    pubkeys, and the SAS input derived from the key agreement with that pubkey and the
    secret of the QR code.  The SAS a session shows is always that derived one. *)
Theorem payload_requires_transcript (acts : list Action) (s : S) :
  fresh s ->
  let (s', done) := run_actions acts s in
  (ps_sas_code s' <> None -> bound s') /\
  (LHandlePayload ∈ label <$> done ->
   exists now ev, AHandleSasConfirm now ev ∈ done /\ confirms_transcript s ev).
Proof.
  intros Hf. pose proof (run_history acts s Hf) as Hh. destruct (run_actions acts s) as [s' done].
  split; [apply Hh|]. intros Hin.
  assert (Hc : LHandleSasConfirm ∈ label <$> done).
  { destruct (ho_script _ _ _ Hh) as (n & Hn). revert Hin.
    assert (Hl : forall l, label <$> done = l -> l = take n (script (ps_role s)) \/
      l = take n (script (ps_role s)) ++ [LAbort] \/
      l = take n (script (ps_role s)) ++ [LHandleAbort] ->
      LHandlePayload ∈ l -> LHandleSasConfirm ∈ l).
    { intros l _ [->|[->| ->]]; destruct (ps_role s);
        do 5 (destruct n as [|n]; [cbn; set_solver|]); cbn; set_solver. }
    apply (Hl _ eq_refl). destruct Hn as [[? _]|(_ & _ & ?)]; [by left|done]. }
  apply list_elem_of_fmap in Hc as (a & Hla & Ha). destruct a as [| | | |now ev| | | | |]; try done.
  exists now, ev. split; [done|]. by apply (ho_confirm _ _ _ Hh now).
Qed.

(** Past its timeout a session accepts nothing but an abort: every other call fails with
    [SessionExpired] and leaves the session as it is. *)
Theorem expired_session_rejects (a : Action) (now : Z) (s : S) :
  action_now a = Some now -> ps_timeout s < now - ps_created_at s -> act a s = (s, false).
Proof.
  intros Hnow Hlt.
  assert (He : is_expired now s = true) by (unfold is_expired; apply Z.ltb_lt; lia).
  destruct a; cbn in Hnow; simplify_eq; cbn [act];
    unfold handle_offer, confirm_sas, send_payload, handle_complete, handle_sas_confirm,
      confirm_target_sas, handle_payload, send_complete; unfold_methods; by rewrite He.
Qed.

(** * An honest run *)

(** What an honest run relies on in the crates. *)
Class PairingLaws : Prop := {
  (** HKDF-Expand returns as many bytes as asked for. *)
  hkdf_expand_length prk info n : length (hkdf_expand prk info n) = n;
  (** Diffie-Hellman agreement. *)
  shared_key_agree a b :
    exists k, generate_shared_key a (public_key b) = Ok k /\
              generate_shared_key b (public_key a) = Ok k;
  (** NIP-44 decrypts what it encrypted, within its size limits. *)
  nip44_roundtrip nonce a b m :
    1 <= Z.of_nat (String.length m) <= 65535 ->
    exists c, nip44_encrypt nonce a (public_key b) m = Ok c /\
      132 <= Z.of_nat (String.length c) <= 87472 /\
      nip44_decrypt b (public_key a) c = Ok m;
  (** JSON reads back what it wrote; a version is a [u32]. *)
  json_roundtrip m :
    (forall sid v, m = Offer sid v -> 0 <= v) ->
    exists t, message_to_json m = Ok t /\ message_of_json t = Ok m /\ t <> EmptyString;
  (** A signed event verifies and carries what was signed. *)
  sign_event_ok aux sk kind content tags ts :
    exists e, sign_event aux sk kind content tags ts = Ok e /\ event_verify e = Ok tt /\
      ev_pubkey (sv_event e) = public_key sk /\ ev_kind (sv_event e) = kind /\
      ev_content (sv_event e) = content /\ ev_tags (sv_event e) = tags;
  (** Event ids hash the content. *)
  event_id_content aux aux' sk sk' kind kind' content content' tags tags' ts ts' e e' :
    sign_event aux sk kind content tags ts = Ok e ->
    sign_event aux' sk' kind' content' tags' ts' = Ok e' ->
    ev_id (sv_event e) = ev_id (sv_event e') ->
    ev_content (sv_event e) = ev_content (sv_event e')
}.

(** The serialized message fits the NIP-44 limit. *)
Definition json_fits (m : PairingMessage) : Prop :=
  forall t, message_to_json m = Ok t -> Z.of_nat (String.length t) <= 65535.

Section honest.
Context `{NL : !NostrLaws A} `{PL : !PairingLaws}.

Lemma derive_session_id_length secret : length (derive_session_id secret) = 32%nat.
Proof. unfold derive_session_id, hkdf32. by rewrite length_take, hkdf_expand_length. Qed.

Lemma transcript_length a b c d e : length (derive_transcript_hash a b c d e) = 32%nat.
Proof. unfold derive_transcript_hash, hkdf32. by rewrite length_take, hkdf_expand_length. Qed.

Lemma decode_32 b : length b = 32%nat -> hex_decode (to_hex b) ≫= try_32 = Some b.
Proof. intros Hb. rewrite hex_decode_to_hex. cbn. unfold try_32. by rewrite Hb. Qed.

Lemma has_p_tag_self pk e : ev_tags e = [["p"; to_hex pk]] -> has_p_tag pk e = true.
Proof.
  intros He. unfold has_p_tag. apply existsb_exists. exists ["p"; to_hex pk].
  split; [rewrite He; by left|]. by rewrite !bool_decide_true by done.
Qed.

(** A message sent by [ks] to [kr] arrives. *)
Lemma message_arrives env m s ks kr :
  ps_keys s = ks -> ps_peer_pubkey s = Some (public_key kr) -> json_fits m ->
  (forall sid v, m = Offer sid v -> 0 <= v) ->
  exists ev, build_event env m s = Ok ev /\ ev_pubkey (sv_event ev) = public_key ks /\
    forall r, ps_keys r = kr -> ev_id (sv_event ev) ∉ ps_processed_ids r ->
      validate_event_basics ev r = Ok tt /\ decrypt_message ev r = Ok m /\
      (ps_peer_pubkey r = Some (public_key ks) -> validate_event_from_peer ev r = Ok tt).
Proof.
  intros <- Hp Hfit Hv. destruct (json_roundtrip m Hv) as (t & Ht & Hof & Hne).
  specialize (Hfit t Ht).
  assert (Hlen : 1 <= Z.of_nat (String.length t) <= 65535)
    by (destruct t; [done|cbn [String.length] in *; lia]).
  destruct (nip44_roundtrip (env_nonce env) (ps_keys s) kr t Hlen) as (c & Hc & Hcl & Hdec).
  destruct (sign_event_ok (env_aux env) (ps_keys s) PAIRING_KIND c
              [["p"; to_hex (public_key kr)]] (event_timestamp env))
    as (ev & Hev & Hver & Hpk & Hk & Hcont & Htags).
  exists ev. unfold build_event. rewrite Hp, Ht. cbn. rewrite Hc. cbn. rewrite Hev.
  split_and!; [done|done|]. intros r <- Hid.
  assert (Hb : validate_event_basics ev r = Ok tt).
  { unfold validate_event_basics. rewrite Hver, bool_decide_false, Hk by done.
    rewrite Z.eqb_refl. cbn [negb]. by rewrite has_p_tag_self. }
  split_and!; [done| |].
  - unfold decrypt_message. rewrite Hcont, Hpk.
    rewrite (proj2 (Z.leb_le 132 _)), (proj2 (Z.leb_le _ 87472)) by lia. cbn [andb negb].
    rewrite Hdec. cbn. rewrite (proj2 (Z.ltb_ge 65535 _)) by lia. by rewrite Hof.
  - intros Hpeer. unfold validate_event_from_peer. rewrite Hb. cbn. rewrite Hpeer.
    by rewrite bool_decide_true by (by rewrite Hpk).
Qed.

(** Two messages between the same keys that differ have different event ids. *)
Lemma distinct_ids env env' m m' s s' ev ev' r :
  build_event env m s = Ok ev -> build_event env' m' s' = Ok ev' ->
  ev_pubkey (sv_event ev) = ev_pubkey (sv_event ev') ->
  decrypt_message ev r = Ok m -> decrypt_message ev' r = Ok m' -> m <> m' ->
  ev_id (sv_event ev) <> ev_id (sv_event ev').
Proof.
  assert (Hsign : forall e mm ss vv, build_event e mm ss = Ok vv -> exists c tags,
    sign_event (env_aux e) (ps_keys ss) PAIRING_KIND c tags (event_timestamp e) = Ok vv).
  { intros e mm ss vv. unfold build_event. destruct (ps_peer_pubkey ss); [|done].
    intros (t & _ & (c & _ & Hs)%res_bind_Ok)%res_bind_Ok. eexists _, _.
    by destruct (sign_event _ _ _ _ _ _) eqn:Hsg; [injection Hs as ->; apply Hsg|]. }
  intros (c & tags & H1)%Hsign (c' & tags' & H2)%Hsign Hpk Hd Hd' Hne Hid.
  pose proof (event_id_content _ _ _ _ _ _ _ _ _ _ _ _ _ _ H1 H2 Hid) as Hcont.
  unfold decrypt_message in Hd, Hd'. rewrite Hcont, Hpk in Hd. rewrite Hd in Hd'.
  by injection Hd' as ->.
Qed.

Lemma not_expired now s :
  ps_timeout s = DEFAULT_TIMEOUT -> now - ps_created_at s <= DEFAULT_TIMEOUT ->
  is_expired now s = false.
Proof.
  intros Ht Hn. unfold is_expired. rewrite Ht. apply Z.ltb_ge.
  unfold DEFAULT_TIMEOUT in *. lia.
Qed.

(** The successful branch of each method. *)
Lemma handle_offer_ok now ev s sid ecdh code input :
  is_expired now s = false -> ps_state s = Waiting -> ps_role s = Source ->
  validate_event_basics ev s = Ok tt -> decrypt_message ev s = Ok (Offer sid 1) ->
  hex_decode sid ≫= try_32 = Some (ps_session_id s) ->
  generate_shared_key (ps_keys s) (ev_pubkey (sv_event ev)) = Ok ecdh ->
  derive_sas ecdh (ps_session_secret s) = (code, input) ->
  handle_offer now ev s =
  (record_event ev (with_state Confirming (with_sas code input
     (with_peer (ev_pubkey (sv_event ev)) s))), Ok (format_sas code)).
Proof.
  intros He Hst Hr Hv Hd Hid Hk Hs. unfold handle_offer. unfold_methods.
  rewrite He, Hst, Hr, Hv, Hd. cbn [negb Z.eqb Pos.eqb]. rewrite !decide_True by done.
  rewrite Hid. unfold ct_eq. rewrite bool_decide_true by done.
  cbn [ps_keys with_peer ps_session_secret]. rewrite Hk, Hs. done.
Qed.

Lemma confirm_sas_ok now env s input peer ev :
  is_expired now s = false -> ps_state s = Confirming -> ps_role s = Source ->
  ps_sas_input s = Some input -> ps_peer_pubkey s = Some peer ->
  build_event env (SasConfirm (to_hex (derive_transcript_hash (ps_session_id s)
    (public_key (ps_keys s)) peer input (ps_session_secret s)))) s = Ok ev ->
  confirm_sas now env s = (with_state Transferring s, Ok ev).
Proof.
  intros He Hst Hr Hi Hp Hb. unfold confirm_sas. unfold_methods.
  rewrite He, Hst, Hr, Hi, Hp, !decide_True by done. by rewrite Hb.
Qed.

Lemma send_ok now env s st role m next ev :
  is_expired now s = false -> ps_state s = st -> ps_role s = role ->
  build_event env m s = Ok ev ->
  (check_expired now ;;? expect_state st ;;? expect_role role ;;?
   do? event <- m_read (build_event env m) ;;
   m_modify (with_state next) ;;? m_ret event) s = (with_state next s, Ok ev).
Proof.
  intros He Hst Hr Hb. unfold_methods. by rewrite He, Hst, Hr, !decide_True, Hb by done.
Qed.

Lemma handle_complete_ok now ev s :
  is_expired now s = false -> ps_state s = PayloadExchanged -> ps_role s = Source ->
  validate_event_from_peer ev s = Ok tt -> decrypt_message ev s = Ok (Complete true) ->
  handle_complete now ev s = (record_event ev (with_state Completed s), Ok tt).
Proof.
  intros He Hst Hr Hv Hd. unfold handle_complete. unfold_methods.
  by rewrite He, Hst, Hr, Hv, Hd, !decide_True by done.
Qed.

Lemma handle_sas_confirm_ok now ev s h input peer code :
  is_expired now s = false -> ps_state s = Confirming -> ps_role s = Target ->
  validate_event_from_peer ev s = Ok tt -> decrypt_message ev s = Ok (SasConfirm h) ->
  ps_sas_input s = Some input -> ps_peer_pubkey s = Some peer -> ps_sas_code s = Some code ->
  hex_decode h ≫= try_32 = Some (derive_transcript_hash (ps_session_id s) peer
    (public_key (ps_keys s)) input (ps_session_secret s)) ->
  handle_sas_confirm now ev s =
  (record_event ev (with_state AwaitingConfirmation s), Ok (format_sas code)).
Proof.
  intros He Hst Hr Hv Hd Hi Hp Hc Hh. unfold handle_sas_confirm. unfold_methods.
  rewrite He, Hst, Hr, Hv, Hd, Hi, Hp, !decide_True, Hh by done.
  unfold ct_eq. rewrite bool_decide_true by done. cbn [negb ps_sas_code record_event with_state].
  by rewrite Hc.
Qed.

Lemma confirm_target_sas_ok now s :
  is_expired now s = false -> ps_state s = AwaitingConfirmation -> ps_role s = Target ->
  confirm_target_sas now s = (with_state Transferring s, Ok tt).
Proof.
  intros He Hst Hr. unfold confirm_target_sas. unfold_methods.
  by rewrite He, Hst, Hr, !decide_True by done.
Qed.

Lemma handle_payload_ok now ev s t p :
  is_expired now s = false -> ps_state s = Transferring -> ps_role s = Target ->
  validate_event_from_peer ev s = Ok tt -> decrypt_message ev s = Ok (Payload t p) ->
  handle_payload now ev s = (record_event ev (with_state PayloadExchanged s), Ok (t, p)).
Proof.
  intros He Hst Hr Hv Hd. unfold handle_payload. unfold_methods.
  by rewrite He, Hst, Hr, Hv, Hd, !decide_True by done.
Qed.

(** The whole exchange between honest devices: step [i] happens at [clock i] with the
    environment [envs i]; [None] if some call fails. *)
Definition exchange (clock : nat -> Z) (envs : nat -> Env) (ks kt : SecretKey)
    (secret : Bytes) (relay : string) (ptype : PayloadType) (payload : string)
  : option (string * string * string * (PayloadType * string) * SessionState * SessionState) :=
  let ok {B : Type} (x : S * result B PairingError) :=
    match x with (s, Ok b) => Some (s, b) | _ => None end in
  let (src, qr) := new_source (clock 0%nat) ks secret relay in
  match new_target (clock 1%nat) (envs 1%nat) kt qr with
  | Err _ => None
  | Ok (tgt, offer) =>
      '(src, code_s) ← ok (handle_offer (clock 2%nat) offer src);
      code_t ← sas_code tgt;
      '(src, confirm) ← ok (confirm_sas (clock 3%nat) (envs 3%nat) src);
      '(tgt, code_t2) ← ok (handle_sas_confirm (clock 4%nat) confirm tgt);
      '(tgt, _) ← ok (confirm_target_sas (clock 5%nat) tgt);
      '(src, pay) ← ok (send_payload (clock 6%nat) (envs 6%nat) ptype payload src);
      '(tgt, received) ← ok (handle_payload (clock 7%nat) pay tgt);
      '(tgt, complete) ← ok (send_complete (clock 8%nat) (envs 8%nat) tgt);
      '(src, _) ← ok (handle_complete (clock 9%nat) complete src);
      Some (code_s, code_t, code_t2, received, ps_state src, ps_state tgt)
  end.

(** The messages of an exchange: 32-byte hashes in hex, and the given payload. *)
Definition exchanged (ptype : PayloadType) (payload : string) (m : PairingMessage) : Prop :=
  match m with
  | Offer sid v => String.length sid = 64%nat /\ v = 1
  | SasConfirm h => String.length h = 64%nat
  | Payload t p => t = ptype /\ p = payload
  | Complete _ => True
  | Abort_ _ => False
  end.

(** Two devices that share a QR code, exchange their messages unaltered and in time, and
    whose users confirm, always complete: both display the same SAS, and the target
    receives exactly the payload that was sent. *)
Theorem pairing_completes (clock : nat -> Z) (envs : nat -> Env) (ks kt : SecretKey)
    (secret : Bytes) (relay : string) (ptype : PayloadType) (payload : string) :
  (forall i, clock i - clock 0%nat <= DEFAULT_TIMEOUT /\ clock i - clock 1%nat <= DEFAULT_TIMEOUT) ->
  (forall m, exchanged ptype payload m -> json_fits m) ->
  exists sas,
    exchange clock envs ks kt secret relay ptype payload =
    Some (sas, sas, sas, (ptype, payload), Completed, Completed).
Proof.
  intros Hclk Hfit. destruct (shared_key_agree kt ks) as (ecdh & Hkt & Hks).
  unfold exchange, new_target, new_source.
  cbn [qr_session_secret qr_source_pubkey qr_relays]. rewrite Hkt. cbn [map_err res_bind].
  destruct (derive_sas ecdh secret) as [code input] eqn:Hsas.
  set (sid := derive_session_id secret).
  set (t0 := mkSession _ Target Waiting _ _ _ _ _ _ _ _ _ _).
  set (s0 := mkSession _ Source Waiting _ _ _ _ _ _ _ _ _ _).
  assert (Het : forall i t, ps_timeout t = DEFAULT_TIMEOUT ->
    ps_created_at t = clock 0%nat \/ ps_created_at t = clock 1%nat -> is_expired (clock i) t = false).
  { intros i t Ht Hc. apply not_expired; [done|]. destruct (Hclk i). destruct Hc as [->| ->]; lia. }
  (* the offer *)
  destruct (message_arrives (envs 1%nat) (Offer (to_hex sid) 1) t0 kt ks)
    as (offer & Hoffer & Hopk & Hoarr); [done|done|apply Hfit; split; [|done]|by intros ? ? [= _ <-]|].
  { rewrite to_hex_length. unfold sid. by rewrite derive_session_id_length. }
  rewrite Hoffer. cbn [res_bind].
  destruct (Hoarr s0 eq_refl (not_elem_of_empty _)) as (Hov & Hod & _).
  rewrite (handle_offer_ok (clock 2%nat) offer s0 (to_hex sid) ecdh code input);
    [|by apply Het; auto|done|done|done|done|by apply decode_32, derive_session_id_length
     |by rewrite Hopk|done].
  set (s1 := record_event offer _). cbn [mbind option_bind sas_code ps_sas_code with_state t0 fmap
    option_fmap option_map].
  set (t1 := with_state Confirming t0).
  (* the confirmation of the source *)
  set (hash := derive_transcript_hash sid (public_key ks) (public_key kt) input secret).
  destruct (message_arrives (envs 3%nat) (SasConfirm (to_hex hash)) s1 ks kt)
    as (confirm & Hconfirm & Hcpk & Hcarr); [done|by cbn; rewrite Hopk|apply Hfit|done|].
  { cbn [exchanged]. rewrite to_hex_length. unfold hash. by rewrite transcript_length. }
  rewrite (confirm_sas_ok (clock 3%nat) (envs 3%nat) s1 input (public_key kt) confirm);
    [|by apply Het; auto|done|done|done|by cbn; rewrite Hopk|done].
  cbn [mbind option_bind].
  destruct (Hcarr t1 eq_refl (not_elem_of_empty _)) as (_ & Hcd & Hcv).
  rewrite (handle_sas_confirm_ok (clock 4%nat) confirm t1 (to_hex hash) input (public_key ks) code);
    [|by apply Het; auto|done|done|by apply Hcv|done|done|done|done
     |by apply decode_32, transcript_length].
  cbn [mbind option_bind]. set (t2 := record_event confirm _).
  rewrite (confirm_target_sas_ok (clock 5%nat) t2); [|by apply Het; auto|done|done].
  cbn [mbind option_bind].
  (* the payload *)
  destruct (message_arrives (envs 6%nat) (Payload ptype payload) (with_state Transferring s1) ks kt)
    as (pay & Hpay & Hppk & Hparr); [done|by cbn; rewrite Hopk|by apply Hfit|done|].
  unfold send_payload. rewrite (send_ok (clock 6%nat) (envs 6%nat) (with_state Transferring s1)
    Transferring Source _ PayloadExchanged pay); [|by apply Het; auto|done|done|done].
  cbn [mbind option_bind].
  assert (Hpid : ev_id (sv_event pay) <> ev_id (sv_event confirm)).
  { destruct (Hparr t0 eq_refl (not_elem_of_empty _)) as (_ & Hd & _).
    eapply (distinct_ids _ _ _ _ _ _ _ _ t0 Hpay Hconfirm); [by rewrite Hppk, Hcpk|done|done|done]. }
  destruct (Hparr (with_state Transferring t2) eq_refl) as (_ & Hpd & Hpv);
    [cbn; set_solver|].
  rewrite (handle_payload_ok (clock 7%nat) pay _ ptype payload);
    [|by apply Het; auto|done|done|by apply Hpv|done].
  cbn [mbind option_bind]. set (t4 := record_event pay _).
  (* completion *)
  destruct (message_arrives (envs 8%nat) (Complete true) t4 kt ks)
    as (complete & Hcomplete & Hcopk & Hcoarr); [done|done|by apply Hfit|done|].
  unfold send_complete. rewrite (send_ok (clock 8%nat) (envs 8%nat) t4 PayloadExchanged Target _
    Completed complete); [|by apply Het; auto|done|done|done].
  cbn [mbind option_bind].
  assert (Hcid : ev_id (sv_event complete) <> ev_id (sv_event offer)).
  { destruct (Hcoarr s0 eq_refl (not_elem_of_empty _)) as (_ & Hd & _).
    eapply (distinct_ids _ _ _ _ _ _ _ _ s0 Hcomplete Hoffer);
      [by rewrite Hcopk, Hopk|done|done|done]. }
  destruct (Hcoarr (with_state PayloadExchanged (with_state Transferring s1)) eq_refl)
    as (_ & Hcod & Hcov); [cbn; set_solver|].
  rewrite (handle_complete_ok (clock 9%nat) complete _);
    [|by apply Het; auto|done|done|apply Hcov; by cbn; rewrite Hopk|done].
  cbn. by exists (format_sas code).
Qed.
End honest.

End pairing.

(** * A concrete instance of the interface *)

Module PairingExample.
#[local] Existing Instance Reference.api.

Fixpoint ones (n : nat) (rest : string) : string :=
  match n with O => String "|" rest | S n => String "1" (ones n rest) end.
Fixpoint read_ones (n : Z) (s : string) : option (Z * string) :=
  match s with
  | String "|" rest => Some (n, rest)
  | String "1" rest => read_ones (n + 1) rest
  | _ => None
  end.

Definition type_char (t : PayloadType) : ascii :=
  match t with Nsec => "n" | Bunker => "b" | Connect => "c" | Custom => "u" end.
Definition read_type (c : ascii) : PayloadType :=
  match c with "n"%char => Nsec | "b"%char => Bunker | "c"%char => Connect | _ => Custom end.
Definition reason_char (r : AbortReason) : ascii :=
  match r with
  | SasMismatch => "m" | UserDenied => "d" | Timeout => "t" | ProtocolError => "p"
  | Unknown => "u"
  end.
Definition read_reason (c : ascii) : AbortReason :=
  match c with
  | "m"%char => SasMismatch | "d"%char => UserDenied | "t"%char => Timeout
  | "p"%char => ProtocolError | _ => Unknown
  end.

Definition to_json (m : PairingMessage) : result string string :=
  Ok match m with
     | Offer sid v => String "o" (ones (Z.to_nat v) sid)
     | SasConfirm h => String "s" h
     | Payload t p => String "p" (String (type_char t) p)
     | Complete b => String "c" (if b then "1" else "0")
     | Abort_ r => String "a" (String (reason_char r) EmptyString)
     end.

Definition of_json (s : string) : result PairingMessage string :=
  match s with
  | String "o" s => match read_ones 0 s with Some (v, sid) => Ok (Offer sid v) | None => Err "" end
  | String "s" h => Ok (SasConfirm h)
  | String "p" (String t p) => Ok (Payload (read_type t) p)
  | String "c" s => Ok (Complete (String.eqb s "1"))
  | String "a" (String r _) => Ok (Abort_ (read_reason r))
  | _ => Err ""
  end.

Fixpoint drop_string (n : nat) (s : string) : string :=
  match n, s with S n, String _ s => drop_string n s | _, _ => s end.

(** Keys are single bytes; agreement orders them; ciphertexts are padded plaintexts; an
    event's id is its content. *)
#[export] Instance api : PairingApi := {|
  SecretKey := Byte.byte;
  public_key k := [k];
  generate_shared_key a pk :=
    match pk with
    | [b] => Ok (if (Byte.to_N a <=? Byte.to_N b)%N then [a; b] else [b; a])
    | _ => Err "invalid key"
    end;
  hkdf_extract salt ikm := salt ++ ikm;
  hkdf_expand prk info n := take n (prk ++ info ++ replicate n Byte.x00);
  nip44_encrypt nonce sk pk m := Ok (String.append (zeros 132) m);
  nip44_decrypt sk pk c := Ok (drop_string 132 c);
  message_to_json := to_json;
  message_of_json := of_json;
  sign_event aux sk kind content tags ts :=
    Ok (mkSigned (mkEvent (ascii_bytes content) [sk] ts kind tags content) []);
  event_verify e := Ok tt
|}.

Lemma append_length s t : String.length (String.append s t) = (String.length s + String.length t)%nat.
Proof. induction s as [|c s IH]; [done|]. cbn. by rewrite <-IH. Qed.

Lemma read_ones_ones n k s : read_ones k (ones n s) = Some (k + Z.of_nat n, s).
Proof.
  revert k. induction n as [|n IH]; intros k; [cbn; by rewrite Z.add_0_r|].
  cbn [ones read_ones]. rewrite IH. do 2 f_equal. lia.
Qed.

Lemma ascii_bytes_inj s t : ascii_bytes s = ascii_bytes t -> s = t.
Proof.
  intros H. apply (f_equal string_of_list_byte) in H. unfold ascii_bytes in H.
  by rewrite !string_of_list_byte_of_string in H.
Qed.

#[export] Instance laws : @PairingLaws api.
Proof.
  constructor.
  - intros prk info n. cbn. rewrite length_take, !length_app, length_replicate. lia.
  - intros a b. cbn. destruct (N.leb_spec (Byte.to_N a) (Byte.to_N b)) as [H1|H1],
      (N.leb_spec (Byte.to_N b) (Byte.to_N a)) as [H2|H2]; eexists; (split; [done|]); try done; [|lia].
    assert (Heq : Byte.to_N a = Byte.to_N b) by lia. apply (f_equal Byte.of_N) in Heq.
    rewrite !Byte.of_to_N in Heq. by injection Heq as ->.
  - intros nonce a b m Hm. eexists. split; [reflexivity|].
    change (nip44_decrypt b (public_key a)) with (fun c => @Ok string string (drop_string 132 c)).
    cbv beta. rewrite append_length.
    change (String.length (zeros 132)) with 132%nat. split; [lia|]. reflexivity.
  - intros m Hv. eexists. split; [reflexivity|]. cbn [message_of_json api].
    destruct m as [sid v|h|t p|b|r]; split; try done.
    { cbn [of_json]. rewrite read_ones_ones, Z.add_0_l.
      specialize (Hv sid v eq_refl). by rewrite Z2Nat.id. }
    all: first [by destruct t | by destruct b | by destruct r].
  - intros. eexists. by split_and!.
  - cbn. intros. simplify_eq/=. by apply ascii_bytes_inj.
Qed.

Definition secret : Bytes := replicate 32 Byte.x07.
Definition env : Env := mkEnv [] 1000 5 [].
Definition source : PairingSession := (new_source 0 Byte.x03 secret "wss://r").1.

Lemma source_fresh : fresh (A := Reference.api) source.
Proof. left. by exists 0, Byte.x03, secret, "wss://r". Qed.

(** The events of an honest exchange at time 0. *)
Definition of_ok {B E : Type} (d : B) (r : result B E) : B := match r with Ok b => b | Err _ => d end.
Definition no_event : SignedEvent := mkSigned (mkEvent [] [] 0 0 [] "") [].
Definition joined : PairingSession * SignedEvent :=
  of_ok (source, no_event) (new_target (A := Reference.api) 0 env Byte.x09
                              (new_source 0 Byte.x03 secret "wss://r").2).
Definition source1 : PairingSession := (handle_offer (A := Reference.api) 0 joined.2 source).1.
Definition confirm : SignedEvent := of_ok no_event (confirm_sas (A := Reference.api) 0 env source1).2.
Definition source2 : PairingSession := (confirm_sas (A := Reference.api) 0 env source1).1.
Definition pay : SignedEvent :=
  of_ok no_event (send_payload (A := Reference.api) 0 env Nsec "nsec1" source2).2.
Definition target_run : list Action :=
  [AHandleSasConfirm 0 confirm; AHandleSasConfirm 0 confirm; AConfirmTargetSas 0;
   AHandlePayload 0 pay; ASendComplete 0 env].

Lemma target_fresh : fresh (A := Reference.api) joined.1.
Proof.
  right. exists 0, env, Byte.x09, (new_source (P := api) 0 Byte.x03 secret "wss://r").2, joined.2.
  vm_compute. reflexivity.
Qed.

Example exchange_runs :
  exchange (A := Reference.api) (fun _ => 0) (fun _ => env) Byte.x03 Byte.x09 secret "wss://r"
    Nsec "nsec1" =
  Some ("901063", "901063", "901063", (Nsec, "nsec1"), Completed, Completed).
Proof. vm_compute. reflexivity. Qed.
End PairingExample.

Lemma pairing_completes_witness :
  exists sas,
    exchange (A := Reference.api) (P := PairingExample.api) (fun _ => 0)
      (fun _ => PairingExample.env) Byte.x03 Byte.x09 PairingExample.secret "wss://r" Nsec "nsec1"
    = Some (sas, sas, sas, (Nsec, "nsec1"), Completed, Completed).
Proof.
  apply (pairing_completes (A := Reference.api) (P := PairingExample.api)
           (NL := Reference.laws) (PL := PairingExample.laws)).
  - intros i. vm_compute. split; discriminate.
  - intros [sid v|h|t p|b|r] Hm t' Ht'; cbn in Ht'; injection Ht' as <-.
    + destruct Hm as [Hl ->]. change (Z.to_nat 1) with 1%nat. cbn [String.length PairingExample.ones].
      rewrite Hl. lia.
    + cbn in Hm. cbn [String.length]. rewrite Hm. lia.
    + destruct Hm as [-> ->]. cbn. lia.
    + destruct b; cbn; lia.
    + done.
Defined.

Lemma protocol_order_witness :
  let (s', done) := run_actions (A := Reference.api) PairingExample.target_run
                      PairingExample.joined.1 in
  label <$> done = script Target /\
  ps_role s' = Target /\ on_script Target (ps_state s') (label <$> done).
Proof.
  pose proof (protocol_order (A := Reference.api) PairingExample.target_run
    PairingExample.joined.1 PairingExample.target_fresh) as H.
  assert (Hd : label <$> (run_actions (A := Reference.api) PairingExample.target_run
             PairingExample.joined.1).2 = script Target) by (vm_compute; reflexivity).
  destruct (run_actions _ _) as [s' done]. split; [exact Hd|exact H].
Defined.

Lemma accepted_events_authentic_witness :
  let (s', done) := run_actions (A := Reference.api) PairingExample.target_run
                      PairingExample.joined.1 in
  length (event_ids done) = 2%nat /\ NoDup (event_ids done).
Proof.
  pose proof (accepted_events_authentic (A := Reference.api) PairingExample.target_run
    PairingExample.joined.1 PairingExample.target_fresh) as H.
  assert (Hd : length (event_ids (run_actions (A := Reference.api) PairingExample.target_run
             PairingExample.joined.1).2) = 2%nat) by (vm_compute; reflexivity).
  destruct (run_actions _ _) as [s' done]. split; [exact Hd|exact (proj1 H)].
Defined.

Lemma payload_requires_transcript_witness :
  let (s', done) := run_actions (A := Reference.api) PairingExample.target_run
                      PairingExample.joined.1 in
  exists now ev, AHandleSasConfirm now ev ∈ done /\
    confirms_transcript (A := Reference.api) PairingExample.joined.1 ev.
Proof.
  pose proof (payload_requires_transcript (A := Reference.api) PairingExample.target_run
    PairingExample.joined.1 PairingExample.target_fresh) as H.
  assert (Hd : label <$> (run_actions (A := Reference.api) PairingExample.target_run
             PairingExample.joined.1).2 = script Target) by (vm_compute; reflexivity).
  destruct (run_actions _ _) as [s' done]. apply H. cbn [snd] in Hd. rewrite Hd. cbn. right. right. left.
Defined.

Lemma expired_session_rejects_witness :
  act (A := Reference.api) (AConfirmTargetSas (DEFAULT_TIMEOUT + 1)) PairingExample.source
  = (PairingExample.source, false).
Proof.
  apply (expired_session_rejects (A := Reference.api) _ (DEFAULT_TIMEOUT + 1)); reflexivity.
Defined.
