(* ===== verification/Conformance.v ===== *)
(** The multi-tenant conformance checker ([crates/buzz-conformance/src/]): the trace
    schema, the independent transition check and the replay engine that judges the
    traces a relay records.

    Identifiers the checker only compares (communities, channels) are numbers, the
    opaque labels are strings.  The human-readable [detail] of an error is given as the
    data it is formatted from. *)
From S2P Require Import Prelude Nostr.
Local Open Scope string_scope.
Local Open Scope list_scope.
Local Open Scope Z_scope.
Local Open Scope buzz_scope.

(** * The trace schema *)

Abbreviation CommunityLabel := N (only parsing).
Abbreviation ChannelLabel := N (only parsing).
Abbreviation OpaqueId := string (only parsing).
Abbreviation HostLabel := string (only parsing).
Abbreviation ActorLabel := string (only parsing).

Definition SCHEMA_VERSION : Z := 1.

Inductive Verdict := Allow | Deny.
Inductive SanitizedReason := Restricted | Invalid | ServerError.

Record AbstractState := mkState {
  resolved_community : CommunityLabel;
  bound_host : HostLabel;
  actor : ActorLabel
}.

Inductive TraceAction :=
| WriteInsert (msg_id : OpaqueId) (channel : ChannelLabel)
    (claimed_community : option CommunityLabel)
| WriteInsertGlobal (msg_id : OpaqueId) (claimed_community : option CommunityLabel)
| WriteDuplicate (msg_id : OpaqueId) (channel : ChannelLabel)
    (claimed_community : option CommunityLabel)
| SanitizedError (reason : SanitizedReason)
| AuthCheck (channel : ChannelLabel) (claimed_community : option CommunityLabel)
    (verdict : Verdict)
| ReadMessageRows (channel : option ChannelLabel) (row_communities : list CommunityLabel)
| ReadByIdRows (channel : option ChannelLabel) (row_communities : list CommunityLabel)
| ReadHostFeedRows (row_communities : list CommunityLabel)
| ImplBug (bug_kind : string).

Definition kind (a : TraceAction) : string :=
  match a with
  | WriteInsert _ _ _ => "write_insert"
  | WriteInsertGlobal _ _ => "write_insert_global"
  | WriteDuplicate _ _ _ => "write_duplicate"
  | SanitizedError _ => "sanitized_error"
  | AuthCheck _ _ _ => "auth_check"
  | ReadMessageRows _ _ => "read_message_rows"
  | ReadByIdRows _ _ => "read_by_id_rows"
  | ReadHostFeedRows _ => "read_host_feed_rows"
  | ImplBug _ => "impl_bug"
  end.

Record TraceStep := mkStep {
  schema_version : Z;
  action : TraceAction;
  state_after : AbstractState
}.

Definition TraceStep_new (action : TraceAction) (state_after : AbstractState) : TraceStep :=
  mkStep SCHEMA_VERSION action state_after.

(** * The transition check *)

(** What a [detail] text reports. *)
Inductive Detail :=
| DCommunity (bootstrap step : CommunityLabel)
| DHost (bootstrap step : HostLabel)
| DActor (bootstrap step : ActorLabel)
| DAllowClaim (claimed resolved : CommunityLabel)
| DForeignRow (foreign resolved : CommunityLabel)
| DSchema (trace checker : Z)
| DImplBug (bug_kind : string)
| DEmptyTrace
| DMissing (kinds : list string).

Inductive TransitionError :=
| IllegalTransition (step_index : nat) (detail : Detail)
| StateMismatch (step_index : nat) (detail : Detail)
| NonInterference (step_index : nat) (detail : Detail)
| CoverageBreach (detail : Detail).

Record ModelState := mkModel {
  m_resolved_community : CommunityLabel;
  m_bound_host : HostLabel;
  m_actor : ActorLabel
}.

Definition bootstrap (first : AbstractState) : ModelState :=
  mkModel (resolved_community first) (bound_host first) (actor first).

Definition check_row_labels (step_index : nat) (model : ModelState)
    (row_communities : list CommunityLabel) : result unit TransitionError :=
  match List.find (fun c => negb (c =? m_resolved_community model)%N) row_communities with
  | Some foreign =>
      Err (NonInterference step_index (DForeignRow foreign (m_resolved_community model)))
  | None => Ok tt
  end.

Definition check_step (step_index : nat) (model : ModelState) (step : TraceStep)
  : result unit TransitionError :=
  let after := state_after step in
  if negb (resolved_community after =? m_resolved_community model)%N then
    Err (StateMismatch step_index
           (DCommunity (m_resolved_community model) (resolved_community after)))
  else if negb (String.eqb (bound_host after) (m_bound_host model)) then
    Err (StateMismatch step_index (DHost (m_bound_host model) (bound_host after)))
  else if negb (String.eqb (actor after) (m_actor model)) then
    Err (StateMismatch step_index (DActor (m_actor model) (actor after)))
  else
    match action step with
    | WriteInsert _ _ _ => Ok tt
    | WriteInsertGlobal _ _ => Ok tt
    | WriteDuplicate _ _ _ => Ok tt
    | SanitizedError reason =>
        match reason with Restricted | Invalid | ServerError => Ok tt end
    | AuthCheck _ claimed_community verdict =>
        match verdict, claimed_community with
        | Allow, Some c =>
            if negb (c =? m_resolved_community model)%N
            then Err (IllegalTransition step_index (DAllowClaim c (m_resolved_community model)))
            else Ok tt
        | _, _ => Ok tt
        end
    | ReadMessageRows _ row_communities | ReadByIdRows _ row_communities =>
        check_row_labels step_index model row_communities
    | ReadHostFeedRows row_communities => check_row_labels step_index model row_communities
    | ImplBug bug_kind => Err (CoverageBreach (DImplBug bug_kind))
    end.

Definition action_channel (a : TraceAction) : option ChannelLabel :=
  match a with
  | WriteInsert _ channel _ => Some channel
  | WriteDuplicate _ channel _ => Some channel
  | AuthCheck channel _ _ => Some channel
  | ReadMessageRows channel _ => channel
  | ReadByIdRows channel _ => channel
  | WriteInsertGlobal _ _ | ReadHostFeedRows _ | SanitizedError _ | ImplBug _ => None
  end.

(** * The replay engine *)

Record Scenario := mkScenario {
  trace : list TraceStep;
  required_critical_actions : gset string
}.

Definition unstructured (trace : list TraceStep) : Scenario := mkScenario trace ∅.

Definition require (k : string) (sc : Scenario) : Scenario :=
  mkScenario (trace sc) ({[k]} ∪ required_critical_actions sc).

(** The loop over the steps; [i] is the index of the first one. *)
Fixpoint check_steps (i : nat) (model : ModelState) (steps : list TraceStep)
  : result unit TransitionError :=
  match steps with
  | [] => Ok tt
  | step :: rest =>
      if negb (schema_version step =? SCHEMA_VERSION)
      then Err (IllegalTransition i (DSchema (schema_version step) SCHEMA_VERSION))
      else
        let? _ := check_step i model step in
        check_steps (S i) model rest
  end.

(** [sorted.sort()] on the missing kinds; the set has no duplicates. *)
Definition sort_kinds (l : list string) : list string := merge_sort String.le l.

Definition check_trace (scenario : Scenario) : result unit TransitionError :=
  match trace scenario with
  | [] => Err (CoverageBreach DEmptyTrace)
  | first :: _ =>
      if negb (schema_version first =? SCHEMA_VERSION)
      then Err (IllegalTransition 0 (DSchema (schema_version first) SCHEMA_VERSION))
      else
        let model := bootstrap (state_after first) in
        let? _ := check_steps 0 model (trace scenario) in
        let seen : gset string :=
          list_to_set ((fun step => kind (action step)) <$> trace scenario) in
        let missing :=
          filter (fun k => k ∉ seen) (elements (required_critical_actions scenario)) in
        match missing with
        | [] => Ok tt
        | _ => Err (CoverageBreach (DMissing (sort_kinds missing)))
        end
  end.

(** * What conformance means *)

(** The row labels an action observes. *)
Definition row_labels (a : TraceAction) : list CommunityLabel :=
  match a with
  | ReadMessageRows _ rows | ReadByIdRows _ rows | ReadHostFeedRows rows => rows
  | _ => []
  end.

(** The obligations of one step of a request bound to [st]. *)
Record conforms (st : AbstractState) (step : TraceStep) : Prop := {
  cf_schema : schema_version step = SCHEMA_VERSION;
  cf_state : state_after step = st;
  (** [Inv_NonInterference]: every observed row belongs to the resolved community. *)
  cf_rows : forall c, c ∈ row_labels (action step) -> c = resolved_community st;
  (** An allowed access never rests on a claim of another community. *)
  cf_allow : forall ch c, action step = AuthCheck ch (Some c) Allow -> c = resolved_community st;
  (** The seam reported an action. *)
  cf_bug : forall k, action step <> ImplBug k
}.

Lemma check_row_labels_Ok i m rows :
  check_row_labels i m rows = Ok tt <-> forall c, c ∈ rows -> c = m_resolved_community m.
Proof.
  unfold check_row_labels. destruct (List.find _ rows) as [c|] eqn:Hf.
  - apply List.find_some in Hf as [Hin Hc]. apply list_elem_of_In in Hin.
    apply negb_true_iff, N.eqb_neq in Hc. split; [done|]. intros H. by destruct (Hc (H c Hin)).
  - split; [|done]. intros _ c Hin%list_elem_of_In.
    pose proof (List.find_none _ _ Hf c Hin) as Hc. by apply negb_false_iff, N.eqb_eq in Hc.
Qed.

Lemma check_row_labels_Err i m rows e :
  check_row_labels i m rows = Err e ->
  exists c, c ∈ rows /\ c <> m_resolved_community m /\
    e = NonInterference i (DForeignRow c (m_resolved_community m)).
Proof.
  unfold check_row_labels. destruct (List.find _ rows) as [c|] eqn:Hf; [|done]. intros [= <-].
  apply List.find_some in Hf as [Hin Hc]. apply list_elem_of_In in Hin.
  apply negb_true_iff, N.eqb_neq in Hc. eauto.
Qed.

Lemma check_step_Ok i st step :
  schema_version step = SCHEMA_VERSION ->
  check_step i (bootstrap st) step = Ok tt <-> conforms st step.
Proof.
  intros Hv. unfold check_step. destruct st as [c h a], step as [v act [c' h' a']].
  cbn [bootstrap state_after action resolved_community bound_host actor m_resolved_community
    m_bound_host m_actor] in *.
  destruct (N.eqb_spec c' c) as [->|Hc]; cbn [negb];
    [|split; [done|intros [_ [= ? _ _] _ _ _]; congruence]].
  destruct (String.eqb_spec h' h) as [->|Hh]; cbn [negb];
    [|split; [done|intros [_ [= ? _] _ _ _]; congruence]].
  destruct (String.eqb_spec a' a) as [->|Ha]; cbn [negb];
    [|split; [done|intros [_ [= ?] _ _ _]; congruence]].
  assert (Hother : forall act, row_labels act = [] -> (forall k, act <> ImplBug k) ->
            (forall ch c', act = AuthCheck ch (Some c') Allow -> c' = c) ->
            conforms (mkState c h a) (mkStep v act (mkState c h a))).
  { intros act' Hr Hb Hal. constructor; cbn; try done. intros c'. rewrite Hr. set_solver. }
  destruct act as [m ch cl|m cl|m ch cl|r|ch cl vd|ch rows|ch rows|rows|k].
  1-3: split; [intros _; by apply Hother|done].
  - destruct r; (split; [intros _; by apply Hother|done]).
  - destruct vd, cl as [c'|]; try (split; [intros _; by apply Hother|done]).
    destruct (N.eqb_spec c' c) as [->|Hne]; cbn [negb].
    + split; [intros _; apply Hother; try done|done]. by intros ? ? [= _ <-].
    + split; [done|]. intros [_ _ _ Hal _]. by destruct Hne; apply (Hal ch c').
  - rewrite check_row_labels_Ok. split; [by intros ?|by intros []].
  - rewrite check_row_labels_Ok. split; [by intros ?|by intros []].
  - rewrite check_row_labels_Ok. split; [by intros ?|by intros []].
  - split; [done|]. intros [_ _ _ _ Hb]. by destruct (Hb k).
Qed.

Lemma check_steps_Ok i st steps :
  check_steps i (bootstrap st) steps = Ok tt <-> Forall (conforms st) steps.
Proof.
  revert i. induction steps as [|step steps IH]; intros i; cbn [check_steps]; [done|].
  rewrite Forall_cons. destruct (Z.eqb_spec (schema_version step) SCHEMA_VERSION) as [Hv|Hv];
    cbn [negb]; [|split; [done|by intros [[] _]]].
  rewrite <-(check_step_Ok i st step Hv), <-(IH (S i)).
  destruct (check_step i (bootstrap st) step) as [[]|e]; cbn; naive_solver.
Qed.

(** C39: A trace passes the checker exactly when it is not empty, every step conforms to the
    request state of the first one (same resolved community, host and actor, no row of
    another community, no access allowed on a foreign claim, no missing emission), and
    every required action kind occurs. *)
Theorem check_trace_spec (sc : Scenario) :
  check_trace sc = Ok tt <->
  exists first rest, trace sc = first :: rest /\
    Forall (conforms (state_after first)) (trace sc) /\
    forall k, k ∈ required_critical_actions sc ->
      exists step, step ∈ trace sc /\ kind (action step) = k.
Proof.
  unfold check_trace. destruct (trace sc) as [|first rest].
  { split; [done|]. by intros (? & ? & ? & _). }
  assert (Hmiss : forall k, k ∈ (list_to_set ((fun step => kind (action step)) <$> first :: rest)
            : gset string) <-> exists step, step ∈ first :: rest /\ kind (action step) = k).
  { intros k. rewrite elem_of_list_to_set, list_elem_of_fmap. naive_solver. }
  destruct (Z.eqb_spec (schema_version first) SCHEMA_VERSION) as [Hv|Hv]; cbn [negb]; cycle 1.
  { split; [done|]. intros (f & r & [= <- <-] & Hall & _).
    apply Forall_cons in Hall as [[? _ _ _ _] _]. done. }
  pose proof (check_steps_Ok 0 (state_after first) (first :: rest)) as Hsteps.
  destruct (check_steps 0 _ _) as [[]|e]; cbn [res_bind]; cycle 1.
  { split; [done|]. intros (f & r & [= <- <-] & Hall & _). by apply Hsteps in Hall. }
  set (missing := filter _ _).
  assert (Hnil : missing = [] <-> forall k, k ∈ required_critical_actions sc ->
            exists step, step ∈ first :: rest /\ kind (action step) = k).
  { subst missing. setoid_rewrite <-Hmiss. split.
    - intros Hnil k Hk. destruct (decide (k ∈ (list_to_set ((fun step => kind (action step))
        <$> first :: rest) : gset string))) as [|Hno]; [done|].
      assert (Hin : k ∈ filter (fun k => k ∉ (list_to_set ((fun step => kind (action step))
        <$> first :: rest) : gset string)) (elements (required_critical_actions sc))).
      { apply list_elem_of_filter. by rewrite elem_of_elements. }
      rewrite Hnil in Hin. by apply not_elem_of_nil in Hin.
    - intros Hall. apply elem_of_nil_inv. intros k [Hno Hin]%list_elem_of_filter.
      apply elem_of_elements in Hin. by apply Hno, Hall. }
  split.
  - destruct missing; [|done]. intros _. exists first, rest.
    split_and!; [done|by apply Hsteps|by apply Hnil].
  - intros (f & r & [= <- <-] & _ & Hreq). by rewrite (proj2 Hnil Hreq).
Qed.

(** * The first violation *)

Definition error_index (e : TransitionError) : option nat :=
  match e with
  | IllegalTransition i _ | StateMismatch i _ | NonInterference i _ => Some i
  | CoverageBreach _ => None
  end.

(** What a verdict says of the offending step. *)
Definition error_class (st : AbstractState) (step : TraceStep) (e : TransitionError) : Prop :=
  match e with
  | IllegalTransition _ _ =>
      schema_version step <> SCHEMA_VERSION \/
      exists ch c, action step = AuthCheck ch (Some c) Allow /\ c <> resolved_community st
  | StateMismatch _ _ => state_after step <> st
  | NonInterference _ (DForeignRow c r) =>
      c ∈ row_labels (action step) /\ r = resolved_community st /\ c <> r
  | NonInterference _ _ => False
  | CoverageBreach (DImplBug k) => action step = ImplBug k
  | CoverageBreach _ => False
  end.

Lemma check_step_Err i st step e :
  schema_version step = SCHEMA_VERSION ->
  check_step i (bootstrap st) step = Err e ->
  error_class st step e /\ (forall j, error_index e = Some j -> j = i).
Proof.
  intros _. unfold check_step. destruct st as [c h a], step as [v act [c' h' a']].
  cbn [bootstrap state_after action resolved_community bound_host actor m_resolved_community
    m_bound_host m_actor] in *.
  destruct (N.eqb_spec c' c) as [->|Hc]; cbn [negb];
    [|intros [= <-]; cbn; split; [congruence|by intros ? [= <-]]].
  destruct (String.eqb_spec h' h) as [->|Hh]; cbn [negb];
    [|intros [= <-]; cbn; split; [congruence|by intros ? [= <-]]].
  destruct (String.eqb_spec a' a) as [->|Ha]; cbn [negb];
    [|intros [= <-]; cbn; split; [congruence|by intros ? [= <-]]].
  destruct act as [m ch cl|m cl|m ch cl|r|ch cl vd|ch rows|ch rows|rows|k]; try done.
  - by destruct r.
  - destruct vd, cl as [c'|]; try done. destruct (N.eqb_spec c' c); cbn [negb]; [done|].
    intros [= <-]. cbn. split; [|by intros ? [= <-]]. right. eauto.
  - intros (c' & Hin & Hne & ->)%check_row_labels_Err. cbn. split; [done|by intros ? [= <-]].
  - intros (c' & Hin & Hne & ->)%check_row_labels_Err. cbn. split; [done|by intros ? [= <-]].
  - intros (c' & Hin & Hne & ->)%check_row_labels_Err. cbn. split; [done|by intros ? [= <-]].
  - by intros [= <-].
Qed.

Lemma check_steps_Err i st steps e :
  check_steps i (bootstrap st) steps = Err e ->
  exists n step, steps !! n = Some step /\ Forall (conforms st) (take n steps) /\
    error_class st step e /\ (forall j, error_index e = Some j -> j = (i + n)%nat).
Proof.
  revert i. induction steps as [|step steps IH]; intros i; cbn [check_steps]; [done|].
  destruct (Z.eqb_spec (schema_version step) SCHEMA_VERSION) as [Hv|Hv]; cbn [negb]; cycle 1.
  { intros [= <-]. exists 0%nat, step. split_and!; [done|by constructor|by left|].
    cbn. intros j [= <-]. lia. }
  destruct (check_step i (bootstrap st) step) as [[]|e'] eqn:Hs; cbn [res_bind].
  - intros (n & s & Hn & Hall & Hc & Hi)%IH. exists (S n), s. split_and!; [done| |done|].
    + cbn. constructor; [|done]. by apply (check_step_Ok i).
    + intros j Hj. specialize (Hi j Hj). lia.
  - intros [= <-]. apply check_step_Err in Hs as [Hc Hi]; [|done].
    exists 0%nat, step. split_and!; [done|by constructor|done|].
    intros j Hj. specialize (Hi j Hj). lia.
Qed.

(** The checker stops at the first violation: every step before the one it reports
    conforms, the reported one breaks the obligation its verdict names (a non-interference
    verdict exhibits a row of another community that the step observed), and the remaining
    verdicts say that the trace is empty or that a required kind is missing. *)
Theorem check_trace_first_violation (sc : Scenario) (e : TransitionError) :
  check_trace sc = Err e ->
  (trace sc = [] /\ e = CoverageBreach DEmptyTrace) \/
  exists first rest, trace sc = first :: rest /\
    ((exists n step, trace sc !! n = Some step /\
        Forall (conforms (state_after first)) (take n (trace sc)) /\
        error_class (state_after first) step e /\
        (forall j, error_index e = Some j -> j = n)) \/
     (Forall (conforms (state_after first)) (trace sc) /\
      exists kinds, e = CoverageBreach (DMissing kinds) /\
        forall k, k ∈ kinds <-> k ∈ required_critical_actions sc /\
          forall step, step ∈ trace sc -> kind (action step) <> k)).
Proof.
  unfold check_trace. destruct (trace sc) as [|first rest]; [intros [= <-]; by left|].
  intros He. right. exists first, rest. split; [done|].
  destruct (Z.eqb_spec (schema_version first) SCHEMA_VERSION) as [Hv|Hv]; cbn [negb] in He; cycle 1.
  { injection He as <-. left. exists 0%nat, first.
    split_and!; [done|by constructor|by left|by intros j [= <-]]. }
  destruct (check_steps 0 _ _) as [[]|e'] eqn:Hs; cbn [res_bind] in He; cycle 1.
  { injection He as <-. left. by apply check_steps_Err in Hs. }
  right. split; [by apply check_steps_Ok in Hs|].
  set (missing := filter _ _) in He.
  assert (Hin : forall k, k ∈ missing <-> k ∈ required_critical_actions sc /\
            forall step, step ∈ first :: rest -> kind (action step) <> k).
  { intros k. subst missing. rewrite list_elem_of_filter, elem_of_elements, elem_of_list_to_set,
      list_elem_of_fmap. naive_solver. }
  clearbody missing. destruct missing as [|k ks]; [done|]. injection He as <-.
  eexists. split; [done|]. intros k'. rewrite <-Hin. unfold sort_kinds. by rewrite merge_sort_Permutation.
Qed.

Module ConformanceExample.
Definition st : AbstractState := mkState 1%N "h_local" "a_alice".
Definition leak : Scenario :=
  unstructured [TraceStep_new (AuthCheck 10%N (Some 1%N) Allow) st;
                TraceStep_new (ReadMessageRows (Some 10%N) [1%N; 2%N]) st].

Example leak_detected : check_trace leak = Err (NonInterference 1 (DForeignRow 2%N 1%N)).
Proof. vm_compute. reflexivity. Qed.

Example conforming :
  check_trace (require "auth_check"
    (unstructured [TraceStep_new (AuthCheck 10%N (Some 1%N) Allow) st])) = Ok tt.
Proof. vm_compute. reflexivity. Qed.
End ConformanceExample.

Lemma check_trace_first_violation_witness :
  (trace ConformanceExample.leak = [] /\
   NonInterference 1 (DForeignRow 2%N 1%N) = CoverageBreach DEmptyTrace) \/
  exists first rest, trace ConformanceExample.leak = first :: rest /\
    ((exists n step, trace ConformanceExample.leak !! n = Some step /\
        Forall (conforms (state_after first)) (take n (trace ConformanceExample.leak)) /\
        error_class (state_after first) step (NonInterference 1 (DForeignRow 2%N 1%N)) /\
        (forall j, error_index (NonInterference 1 (DForeignRow 2%N 1%N)) = Some j -> j = n)) \/
     (Forall (conforms (state_after first)) (trace ConformanceExample.leak) /\
      exists kinds, NonInterference 1 (DForeignRow 2%N 1%N) = CoverageBreach (DMissing kinds) /\
        forall k, k ∈ kinds <-> k ∈ required_critical_actions ConformanceExample.leak /\
          forall step, step ∈ trace ConformanceExample.leak -> kind (action step) <> k)).
Proof. apply (check_trace_first_violation ConformanceExample.leak). vm_compute. reflexivity. Defined.
