(* ===== verification/Text.v ===== *)
(** Rust's string functions used by the workflow engine, on UTF-8 bytes: substring
    search, trimming of Unicode white space, suffixes, characters, and the parsers of
    unsigned integers. *)
From S2P Require Import Prelude.
Local Open Scope string_scope.
Local Open Scope list_scope.
Local Open Scope Z_scope.

(** [str::find(pat)] with the two slices around the match: the text before the first
    occurrence of [pat] and the text after it. *)
Fixpoint split_at (pat s : string) : option (string * string) :=
  match strip_prefix pat s with
  | Some rest => Some (EmptyString, rest)
  | None =>
      match s with
      | EmptyString => None
      | String c s' =>
          match split_at pat s' with
          | Some (before, rest) => Some (String c before, rest)
          | None => None
          end
      end
  end.

(** [haystack.contains(needle)] *)
Definition contains (needle haystack : string) : bool :=
  match split_at needle haystack with Some _ => true | None => false end.

Fixpoint str_rev_append (s acc : string) : string :=
  match s with
  | EmptyString => acc
  | String c s' => str_rev_append s' (String c acc)
  end.
Definition str_rev (s : string) : string := str_rev_append s EmptyString.

(** [s.strip_suffix(p)], [s.ends_with(p)] *)
Definition strip_suffix (p s : string) : option string :=
  match strip_prefix (str_rev p) (str_rev s) with
  | Some r => Some (str_rev r)
  | None => None
  end.
Definition ends_with (p s : string) : bool :=
  match strip_suffix p s with Some _ => true | None => false end.

(** The UTF-8 encodings of the characters with the [White_Space] property. *)
Definition byte_string (l : list N) : string :=
  foldr (fun n s => String (ascii_of_N n) s) EmptyString l.
Definition whitespace : list string :=
  map byte_string
    [[9]; [10]; [11]; [12]; [13]; [32]; [0xC2; 0x85]; [0xC2; 0xA0]; [0xE1; 0x9A; 0x80];
     [0xE2; 0x80; 0x80]; [0xE2; 0x80; 0x81]; [0xE2; 0x80; 0x82]; [0xE2; 0x80; 0x83];
     [0xE2; 0x80; 0x84]; [0xE2; 0x80; 0x85]; [0xE2; 0x80; 0x86]; [0xE2; 0x80; 0x87];
     [0xE2; 0x80; 0x88]; [0xE2; 0x80; 0x89]; [0xE2; 0x80; 0x8A]; [0xE2; 0x80; 0xA8];
     [0xE2; 0x80; 0xA9]; [0xE2; 0x80; 0xAF]; [0xE2; 0x81; 0x9F]; [0xE3; 0x80; 0x80]]%N.

(** The first of [ps] that is a prefix of [s], dropped. *)
Fixpoint strip_any (ps : list string) (s : string) : option string :=
  match ps with
  | [] => None
  | p :: ps' =>
      match strip_prefix p s with
      | Some r => Some r
      | None => strip_any ps' s
      end
  end.

(** [fuel] bounds the characters dropped; the length of [s] is enough. *)
Fixpoint strip_while (fuel : nat) (ps : list string) (s : string) : string :=
  match fuel with
  | O => s
  | S fuel' =>
      match strip_any ps s with
      | Some r => strip_while fuel' ps r
      | None => s
      end
  end.

Definition trim_start (s : string) : string := strip_while (String.length s) whitespace s.
Definition trim_end (s : string) : string :=
  str_rev (strip_while (String.length s) (map str_rev whitespace) (str_rev s)).
(** [str::trim] *)
Definition trim (s : string) : string := trim_end (trim_start s).

(** [s.chars().take(n).collect()]: a character ends before the next byte that does not
    continue one. *)
Definition is_continuation (c : ascii) : bool := (N.land (N_of_ascii c) 0xC0 =? 0x80)%N.
Fixpoint take_chars (n : nat) (s : string) : string :=
  match s with
  | EmptyString => EmptyString
  | String c s' =>
      if is_continuation c then String c (take_chars n s')
      else match n with O => EmptyString | S n' => String c (take_chars n' s') end
  end.

(** [s.chars().count()]; [s.chars().any(..)] for a predicate given by the encodings of its
    characters: no encoding occurs inside another one. *)
Fixpoint char_count (s : string) : nat :=
  match s with
  | EmptyString => 0
  | String c s' => if is_continuation c then char_count s' else S (char_count s')
  end.
Definition has_any (chars : list string) (s : string) : bool :=
  existsb (fun p => contains p s) chars.
(** The encodings of the characters with [char::is_control]. *)
Definition control : list string :=
  map byte_string
    (((fun n => [N.of_nat n]) <$> seq 0 32) ++ [[0x7F]] ++ ((fun n => [0xC2; N.of_nat n]) <$> seq 128 32))%N.

(** [s.replace(from, to)]; [fuel] bounds the occurrences, the length of [s] is enough. *)
Fixpoint replace_at (fuel : nat) (from to_ s : string) : string :=
  match fuel with
  | O => s
  | S fuel' =>
      match split_at from s with
      | Some (before, rest) => before +:+ to_ +:+ replace_at fuel' from to_ rest
      | None => s
      end
  end.
Definition str_replace (from to_ s : string) : string := replace_at (String.length s) from to_ s.

(** A text of [format!]: the format string and its arguments, not yet rendered. *)
Inductive Message := Msg (text : string) (args : list FmtArg)
with FmtArg :=
| AText (s : string)
| ANum (n : Z)
| ADebug (l : list string)
| AMsg (m : Message).
Definition msg (text : string) : Message := Msg text [].
Definition fmt (text : string) (args : list FmtArg) : Message := Msg text args.

(** [str::to_ascii_lowercase], [str::eq_ignore_ascii_case]. *)
Definition ascii_lower (c : ascii) : ascii :=
  if between "A" c "Z" then ascii_of_N (N_of_ascii c + 32) else c.
Fixpoint to_ascii_lowercase (s : string) : string :=
  match s with
  | EmptyString => EmptyString
  | String c s' => String (ascii_lower c) (to_ascii_lowercase s')
  end.
Definition eq_ignore_ascii_case (a b : string) : bool :=
  String.eqb (to_ascii_lowercase a) (to_ascii_lowercase b).

(** [s.parse::<u64>().ok()]: an optional [+], then decimal digits whose value fits. *)
Definition U64_MAX : Z := 2 ^ 64 - 1.
Definition digit_value (c : ascii) : Z := Z.of_N (N_of_ascii c) - 48.
Fixpoint parse_digits (s : string) (acc : Z) : option Z :=
  match s with
  | EmptyString => Some acc
  | String c s' =>
      if is_ascii_digit c then
        let acc' := acc * 10 + digit_value c in
        if acc' <=? U64_MAX then parse_digits s' acc' else None
      else None
  end.
Definition parse_u64 (s : string) : option Z :=
  let digits := match s with String "+" s' => s' | _ => s end in
  match digits with EmptyString => None | _ => parse_digits digits 0 end.

(** [s.parse::<i64>().ok()]. *)
Definition parse_i64 (s : string) : option Z :=
  match s with
  | String "-" EmptyString => None
  | String "-" s' =>
      v ← parse_digits s' 0; if v <=? 2 ^ 63 then Some (- v) else None
  | _ => v ← parse_u64 s; if v <? 2 ^ 63 then Some v else None
  end.

(** [s.parse::<u32>().ok()], [s.parse::<i32>().ok()]. *)
Definition parse_u32 (s : string) : option Z :=
  v ← parse_u64 s; if v <? 2 ^ 32 then Some v else None.
Definition parse_i32 (s : string) : option Z :=
  v ← parse_i64 s; if (- 2 ^ 31 <=? v) && (v <? 2 ^ 31) then Some v else None.

(** [s.splitn(2, c)] and [s.splitn(3, c)]. *)
Definition split_once (c : ascii) (s : string) : option (string * string) :=
  split_at (String c EmptyString) s.

(** [std::str::from_utf8(bytes).is_ok()]: no overlong encoding, no surrogate, nothing above
    [U+10FFFF]. *)
Definition in_range (lo hi : N) (c : ascii) : bool :=
  (lo <=? N_of_ascii c)%N && (N_of_ascii c <=? hi)%N.
Fixpoint is_utf8 (s : string) : bool :=
  match s with
  | EmptyString => true
  | String a s1 =>
      if in_range 0 0x7F a then is_utf8 s1
      else match s1 with
      | EmptyString => false
      | String b s2 =>
          if in_range 0xC2 0xDF a then is_continuation b && is_utf8 s2
          else match s2 with
          | EmptyString => false
          | String c s3 =>
              if in_range 0xE0 0xEF a then
                in_range (if in_range 0xE0 0xE0 a then 0xA0 else 0x80)
                         (if in_range 0xED 0xED a then 0x9F else 0xBF) b
                && is_continuation c && is_utf8 s3
              else match s3 with
              | EmptyString => false
              | String d s4 =>
                  in_range 0xF0 0xF4 a
                  && in_range (if in_range 0xF0 0xF0 a then 0x90 else 0x80)
                              (if in_range 0xF4 0xF4 a then 0x8F else 0xBF) b
                  && is_continuation c && is_continuation d && is_utf8 s4
              end
          end
      end
  end.

(** [char::is_ascii_hexdigit], and the lower-case digits [hex::encode] writes. *)
Definition is_ascii_hexdigit (c : ascii) : bool :=
  is_ascii_digit c || between "a" c "f" || between "A" c "F".
Definition is_lower_hex (c : ascii) : bool := is_ascii_digit c || between "a" c "f".

(** [s.lines()]: the parts ended by a line feed, a final carriage return dropped; the text
    after the last line feed counts unless it is empty. *)
Definition drop_cr (s : string) : string :=
  match strip_suffix (String (ascii_of_N 13) EmptyString) s with Some r => r | None => s end.
Fixpoint lines_of (parts : list string) : list string :=
  match parts with
  | [] => []
  | [last] => match last with EmptyString => [] | _ => [last] end
  | p :: ps => drop_cr p :: lines_of ps
  end.
Definition str_lines (s : string) : list string := lines_of (str_split (ascii_of_N 10) s).

(** The bytewise order of Rust's [str]; [Vec::sort] and [Vec::dedup] on strings. *)
Definition string_le (a b : string) : Prop := String.leb a b = true.
#[export] Instance string_le_dec a b : Decision (string_le a b).
Proof. unfold string_le. apply _. Defined.
Definition sort_strings : list string -> list string := merge_sort string_le.
Fixpoint dedup (l : list string) : list string :=
  match l with
  | x :: ((y :: _) as l') => if String.eqb x y then dedup l' else x :: dedup l'
  | _ => l
  end.

(** What [\w] matches in ASCII. *)
Definition word_char (c : ascii) : bool := is_ascii_alphanumeric c || Ascii.eqb c "_".

(** * Lemmas *)

Lemma append_nil_r s : s +:+ "" = s.
Proof. induction s as [|c s IH]; [done|]. exact (f_equal (String c) IH). Qed.

Lemma append_assoc a b c : (a +:+ b) +:+ c = a +:+ b +:+ c.
Proof. induction a as [|x a IH]; [done|]. exact (f_equal (String x) IH). Qed.

Lemma append_inv_head a b c : a +:+ b = a +:+ c -> b = c.
Proof. induction a as [|x a IH]; [done|]. intros H. injection H as H. by apply IH. Qed.

Lemma length_append a b : String.length (a +:+ b) = (String.length a + String.length b)%nat.
Proof. induction a as [|x a IH]; [done|]. exact (f_equal S IH). Qed.

Lemma split_at_Some pat s before rest :
  split_at pat s = Some (before, rest) -> s = before +:+ pat +:+ rest.
Proof.
  revert before. induction s as [|c s IH]; intros before; cbn [split_at].
  - destruct (strip_prefix pat "") as [r|] eqn:Hp; [|done].
    intros [= <- <-]. by apply strip_prefix_Some in Hp.
  - destruct (strip_prefix pat (String c s)) as [r|] eqn:Hp.
    + intros [= <- <-]. by apply strip_prefix_Some in Hp.
    + destruct (split_at pat s) as [[b r]|] eqn:Hs; [|done]. intros [= <- <-].
      exact (f_equal (String c) (IH b eq_refl)).
Qed.

Lemma split_at_None pat s a b : split_at pat s = None -> s <> a +:+ pat +:+ b.
Proof.
  revert a. induction s as [|c s IH]; intros a; cbn [split_at]; intros H Heq.
  - assert (strip_prefix pat "" <> None) as Hp; [|by destruct (strip_prefix pat "")].
    destruct a as [|x a]; [|done].
    change (EmptyString = pat +:+ b) in Heq. symmetry in Heq.
    destruct pat; done.
  - destruct (strip_prefix pat (String c s)) as [r|] eqn:Hp; [done|].
    destruct a as [|x a].
    + assert (strip_prefix pat (String c s) = Some b) by (by apply strip_prefix_Some). congruence.
    + injection Heq as -> Heq. destruct (split_at pat s) as [[? ?]|]; [done|].
      by apply (IH a).
Qed.

Lemma split_at_length pat s before rest :
  pat <> "" -> split_at pat s = Some (before, rest) ->
  (String.length rest < String.length s)%nat.
Proof.
  intros Hp ->%split_at_Some. rewrite !length_append. destruct pat; [done|]. simpl. lia.
Qed.

Lemma strip_prefix_app p s t r : strip_prefix p s = Some r -> strip_prefix p (s +:+ t) = Some (r +:+ t).
Proof. rewrite !strip_prefix_Some. intros ->. by rewrite append_assoc. Qed.

(** The text before the first occurrence has none. *)
Lemma split_at_first pat s before rest :
  pat <> "" -> split_at pat s = Some (before, rest) -> contains pat before = false.
Proof.
  intros Hne Hs.
  assert (split_at pat before = None) as Hb; [|unfold contains; by rewrite Hb].
  revert before Hs. induction s as [|c s IH]; intros before; cbn [split_at].
  - destruct (strip_prefix pat "") as [r|] eqn:Hp; [|done]. apply strip_prefix_Some in Hp.
    by destruct pat.
  - destruct (strip_prefix pat (String c s)) as [r|] eqn:Hp.
    + intros [= <- <-]. simpl. by destruct pat.
    + destruct (split_at pat s) as [[b r]|] eqn:Hs; [|done]. intros [= <- <-]. cbn [split_at].
      rewrite (IH b eq_refl).
      destruct (strip_prefix pat (String c b)) as [q|] eqn:Hq; [|done].
      apply split_at_Some in Hs as ->.
      apply (strip_prefix_app _ _ (pat +:+ r)) in Hq.
      change (String c b +:+ pat +:+ r) with (String c (b +:+ pat +:+ r)) in Hq. congruence.
Qed.

Lemma split_at_contains pat s : split_at pat s = None -> contains pat s = false.
Proof. unfold contains. by intros ->. Qed.

Lemma contains_true needle s :
  contains needle s = true <-> exists a b, s = a +:+ needle +:+ b.
Proof.
  unfold contains. destruct (split_at needle s) as [[a b]|] eqn:Hs.
  - apply split_at_Some in Hs. split; [eauto|done].
  - split; [done|]. intros (a & b & H). by destruct (split_at_None _ _ a b Hs).
Qed.

Lemma str_rev_append_app s acc : str_rev_append s acc = str_rev s +:+ acc.
Proof.
  unfold str_rev. revert acc. induction s as [|c s IH]; intros acc; simpl; [done|].
  rewrite IH, (IH (String c "")), append_assoc. done.
Qed.

Lemma str_rev_app a b : str_rev (a +:+ b) = str_rev b +:+ str_rev a.
Proof.
  induction a as [|c a IH].
  - change (str_rev b = str_rev b +:+ ""). by rewrite append_nil_r.
  - change (str_rev_append (a +:+ b) (String c "") = str_rev b +:+ str_rev_append a (String c "")).
    by rewrite !str_rev_append_app, IH, append_assoc.
Qed.

Lemma str_rev_involutive s : str_rev (str_rev s) = s.
Proof.
  induction s as [|c s IH]; [done|].
  change (str_rev (str_rev_append s (String c "")) = String c s).
  rewrite str_rev_append_app, str_rev_app, IH. done.
Qed.

(** No encoding of white space, forwards or backwards, starts with a word character. *)
Lemma strip_any_word ps c s :
  forallb (fun p => match p with String x _ => negb (word_char x) | EmptyString => false end) ps = true ->
  word_char c = true -> strip_any ps (String c s) = None.
Proof.
  intros Hps Hc. induction ps as [|p ps IH]; [done|]. simpl in Hps.
  apply andb_true_iff in Hps as [Hp Hps]. cbn [strip_any].
  destruct p as [|x p]; [done|]. simpl. destruct (Ascii.eqb_spec x c) as [->|]; [|by apply IH].
  by rewrite Hc in Hp.
Qed.

Lemma str_all_rev f s : str_all f (str_rev s) = str_all f s.
Proof.
  assert (forall a b, str_all f (a +:+ b) = str_all f a && str_all f b) as Happ.
  { intros a b. induction a as [|c a IH]; [done|].
    change (str_all f (String c (a +:+ b)) = f c && str_all f a && str_all f b).
    simpl. by rewrite IH, andb_assoc. }
  induction s as [|c s IH]; [done|].
  change (str_all f (str_rev_append s (String c "")) = f c && str_all f s).
  rewrite str_rev_append_app, Happ, IH. simpl. rewrite andb_true_r. apply andb_comm.
Qed.

Lemma strip_while_word fuel ps s :
  forallb (fun p => match p with String x _ => negb (word_char x) | EmptyString => false end) ps = true ->
  str_all word_char s = true -> s <> "" -> strip_while fuel ps s = s.
Proof.
  intros Hps Hs Hne. destruct fuel as [|fuel]; [done|]. destruct s as [|c s]; [done|].
  simpl in Hs. apply andb_true_iff in Hs as [Hc _]. cbn [strip_while].
  by rewrite strip_any_word.
Qed.

Lemma trim_word s : str_all word_char s = true -> trim s = s.
Proof.
  intros Hs. destruct s as [|c s]; [done|]. unfold trim, trim_start, trim_end.
  rewrite (strip_while_word _ whitespace) by done.
  rewrite (strip_while_word _ (map str_rev whitespace)); [apply str_rev_involutive|done| |].
  - by rewrite str_all_rev.
  - intros H. apply (f_equal str_rev) in H. by rewrite str_rev_involutive in H.
Qed.

Lemma strip_suffix_Some p s r : strip_suffix p s = Some r <-> s = r +:+ p.
Proof.
  unfold strip_suffix. destruct (strip_prefix (str_rev p) (str_rev s)) as [q|] eqn:Hq.
  - apply strip_prefix_Some in Hq. apply (f_equal str_rev) in Hq.
    rewrite str_rev_app, !str_rev_involutive in Hq. subst s. split; [by intros [= <-]|].
    intros H. f_equal. apply (f_equal str_rev) in H. rewrite !str_rev_app in H.
    apply append_inv_head, (f_equal str_rev) in H. rewrite !str_rev_involutive in H. done.
  - split; [done|]. intros ->. rewrite str_rev_app in Hq.
    assert (strip_prefix (str_rev p) (str_rev p +:+ str_rev r) = Some (str_rev r))
      by (by apply strip_prefix_Some). congruence.
Qed.

Lemma parse_digits_bound s acc n :
  0 <= acc -> parse_digits s acc = Some n -> acc <= n /\ (acc <= U64_MAX -> n <= U64_MAX).
Proof.
  revert acc. induction s as [|c s IH]; intros acc Hacc; simpl.
  - intros [= <-]. lia.
  - destruct (is_ascii_digit c) eqn:Hd; [|done]. destruct (_ <=? U64_MAX) eqn:Hle; [|done].
    assert (0 <= digit_value c) as Hdv.
    { unfold is_ascii_digit, between, digit_value in *.
      apply andb_true_iff in Hd as [Hd%N.leb_le _]. change (N_of_ascii "0") with 48%N in Hd. lia. }
    intros Hp. apply IH in Hp as [H1 H2]; [|lia]. apply Z.leb_le in Hle. specialize (H2 Hle). lia.
Qed.

Lemma parse_u64_bound s n : parse_u64 s = Some n -> 0 <= n <= U64_MAX.
Proof.
  unfold parse_u64. intros H. assert (exists t, parse_digits t 0 = Some n) as [t Ht].
  { revert H. repeat case_match; try done; eauto. }
  apply parse_digits_bound in Ht; [|done]. assert (0 <= U64_MAX) by done. lia.
Qed.

Lemma lower_hex_word c : is_lower_hex c = true -> word_char c = true.
Proof.
  unfold is_lower_hex, word_char, is_ascii_alphanumeric, is_ascii_alphabetic, is_ascii_digit,
    between.
  rewrite !orb_true_iff, !andb_true_iff, !N.leb_le.
  change (N_of_ascii "f") with 102%N. change (N_of_ascii "z") with 122%N. intuition lia.
Qed.

Lemma lower_hex_hex c : is_lower_hex c = true -> is_ascii_hexdigit c = true.
Proof. unfold is_lower_hex, is_ascii_hexdigit. by intros ->. Qed.

Lemma utf8_ascii s : str_all (in_range 0 0x7F) s = true -> is_utf8 s = true.
Proof. induction s as [|c s IH]; [done|]. simpl. intros [-> ?]%andb_true_iff. by apply IH. Qed.

Lemma utf8_app a b : is_utf8 a = true -> is_utf8 b = true -> is_utf8 (a +:+ b) = true.
Proof.
  intros Ha Hb. revert Ha.
  induction a as [a IH] using (induction_ltof1 _ String.length); unfold ltof in IH.
  assert (IH' : forall x, (String.length x < String.length a)%nat -> is_utf8 x = true -> is_utf8 (x +:+ b) = true)
    by done. clear IH.
  destruct a as [|c s1]; [done|]. change (String c s1 +:+ b) with (String c (s1 +:+ b)). cbn [is_utf8].
  destruct (in_range 0 0x7F c); [apply IH'; simpl; lia|].
  destruct s1 as [|c2 s2]; [done|]. change (String c2 s2 +:+ b) with (String c2 (s2 +:+ b)). cbn [is_utf8].
  destruct (in_range 0xC2 0xDF c).
  { intros [-> H]%andb_true_iff. apply IH'; [simpl; lia|done]. }
  destruct s2 as [|c3 s3]; [done|]. change (String c3 s3 +:+ b) with (String c3 (s3 +:+ b)).
  destruct (in_range 0xE0 0xEF c).
  { rewrite !andb_true_iff. intros [[-> ->] H]. split; [done|]. apply IH'; [simpl; lia|done]. }
  destruct s3 as [|c4 s4]; [done|]. change (String c4 s4 +:+ b) with (String c4 (s4 +:+ b)).
  rewrite !andb_true_iff. intros [[[[-> ->] ->] ->] H]. split; [done|]. apply IH'; [simpl; lia|done].
Qed.

Lemma lower_hex_ascii c : is_lower_hex c = true -> in_range 0 0x7F c = true.
Proof.
  unfold is_lower_hex, is_ascii_digit, in_range, between.
  rewrite !orb_true_iff, !andb_true_iff, !N.leb_le.
  change (N_of_ascii "9") with 57%N. change (N_of_ascii "f") with 102%N. lia.
Qed.

(** ** Parts *)

Lemma split_once_at c a b : str_all (fun x => negb (Ascii.eqb x c)) a = true ->
  split_once c (a +:+ String c b) = Some (a, b).
Proof.
  unfold split_once. induction a as [|x a IH]; cbn [str_all].
  - intros _. change (EmptyString +:+ String c b) with (String c b). cbn. by rewrite Ascii.eqb_refl.
  - intros [Hx Ha]%andb_true_iff. change (String x a +:+ String c b) with (String x (a +:+ String c b)).
    cbn [split_at strip_prefix]. rewrite Ascii.eqb_sym. destruct (Ascii.eqb x c); [done|].
    by rewrite (IH Ha).
Qed.
Lemma split_once_eq c s a b : split_once c s = Some (a, b) -> s = a +:+ String c b.
Proof. intros H. by apply split_at_Some in H. Qed.

(** The lines of a text made of lines. *)
Lemma str_split_line sep a s : str_all (fun x => negb (Ascii.eqb x sep)) a = true ->
  str_split sep (a +:+ String sep s) = a :: str_split sep s.
Proof.
  induction a as [|x a IH]; cbn [str_all].
  - intros _. change (EmptyString +:+ String sep s) with (String sep s). cbn. by rewrite Ascii.eqb_refl.
  - intros [Hx Ha]%andb_true_iff. change (String x a +:+ String sep s) with (String x (a +:+ String sep s)).
    cbn [str_split]. destruct (Ascii.eqb x sep); [done|]. by rewrite (IH Ha).
Qed.
Lemma lines_of_ended l : lines_of (l ++ [EmptyString]) = drop_cr <$> l.
Proof.
  induction l as [|x l IH]; [done|]. cbn [app lines_of fmap list_fmap]. rewrite <-IH.
  by destruct (l ++ [EmptyString]) eqn:Hl; [destruct l|].
Qed.

(** ** Order *)

Lemma string_compare_refl s : String.compare s s = Eq.
Proof.
  induction s as [|c s IH]; simpl; [done|]. unfold Ascii.compare. by rewrite N.compare_refl.
Qed.

Lemma string_compare_Eq a b : String.compare a b = Eq <-> a = b.
Proof. split; [apply String.compare_eq_iff|intros ->; apply string_compare_refl]. Qed.

Lemma string_compare_trans a b c o :
  String.compare a b = o -> String.compare b c = o -> String.compare a c = o.
Proof.
  revert b c. induction a as [|x a IH]; intros [|y b] [|z c]; simpl; try congruence.
  unfold Ascii.compare.
  destruct (N.compare_spec (N_of_ascii x) (N_of_ascii y)) as [Hxy|Hxy|Hxy];
    destruct (N.compare_spec (N_of_ascii y) (N_of_ascii z)) as [Hyz|Hyz|Hyz];
    destruct (N.compare_spec (N_of_ascii x) (N_of_ascii z)) as [Hxz|Hxz|Hxz];
    try lia; try congruence; eauto.
Qed.

Lemma string_compare_Gt_Lt a b : String.compare a b = Gt <-> String.compare b a = Lt.
Proof. rewrite (String.compare_antisym a b). destruct (String.compare b a); simpl; naive_solver. Qed.

#[export] Instance string_le_trans : Transitive string_le.
Proof.
  intros a b c. unfold string_le, String.leb.
  destruct (String.compare a b) eqn:Hab; [|..|done]; destruct (String.compare b c) eqn:Hbc;
    try done; intros _ _.
  - by rewrite (string_compare_trans a b c Eq).
  - apply string_compare_Eq in Hab as ->. by rewrite Hbc.
  - apply string_compare_Eq in Hbc as <-. by rewrite Hab.
  - by rewrite (string_compare_trans a b c Lt).
Qed.
#[export] Instance string_le_antisymm : AntiSymm (=) string_le.
Proof. intros a b. apply String.leb_antisym. Qed.
#[export] Instance string_le_total : Total string_le.
Proof. intros a b. apply String.leb_total. Qed.

Lemma elem_of_dedup x l : x ∈ dedup l <-> x ∈ l.
Proof.
  induction l as [|a [|b l] IH]; [done..|]. cbn [dedup].
  destruct (String.eqb_spec a b) as [->|Hne].
  - rewrite IH, !elem_of_cons. naive_solver.
  - rewrite (elem_of_cons (dedup (b :: l))), IH. by rewrite <-elem_of_cons.
Qed.

Lemma elem_of_sort_dedup x l : x ∈ dedup (sort_strings l) <-> x ∈ l.
Proof. rewrite elem_of_dedup. unfold sort_strings. by rewrite merge_sort_Permutation. Qed.

Lemma dedup_length l : (length (dedup l) <= length l)%nat.
Proof.
  induction l as [|a [|b l] IH]; [done..|]. cbn [dedup]. destruct (String.eqb a b); simpl in *; lia.
Qed.

Lemma sort_sorted l : StronglySorted string_le l -> sort_strings l = l.
Proof.
  intros Hl. apply (StronglySorted_unique string_le); [|done|apply merge_sort_Permutation].
  apply StronglySorted_merge_sort; apply _.
Qed.

Lemma dedup_sorted l : StronglySorted string_le l -> StronglySorted string_le (dedup l).
Proof.
  induction l as [|a [|b l] IH]; [done..|]. intros Hl. inversion Hl as [|? ? Hl' Ha]; subst.
  cbn [dedup]. destruct (String.eqb a b); [by apply IH|]. constructor; [by apply IH|].
  change (Forall (string_le a) (dedup (b :: l))). rewrite Forall_forall in Ha |- *.
  intros x Hx. apply Ha. by apply (proj1 (elem_of_dedup x (b :: l))).
Qed.

Lemma dedup_idem l : dedup (dedup l) = dedup l.
Proof.
  induction l as [|a [|b l] IH]; [done..|]. cbn [dedup] in IH |- *.
  destruct (String.eqb_spec a b) as [->|Hne]; [done|].
  assert (exists t, dedup (b :: l) = b :: t) as [t Ht].
  { clear -l. revert b. induction l as [|c l IH]; intros b; [by eexists|]. cbn [dedup].
    destruct (String.eqb_spec b c) as [->|]; [apply IH|by eexists]. }
  cbn [dedup] in Ht. rewrite Ht in IH |- *. cbn [dedup] in IH |- *.
  destruct (String.eqb_spec a b); [done|]. by rewrite IH.
Qed.

(** Sorting and removing duplicates again changes nothing. *)
Lemma sort_dedup_idem l : dedup (sort_strings (dedup (sort_strings l))) = dedup (sort_strings l).
Proof.
  rewrite (sort_sorted (dedup _)); [apply dedup_idem|].
  apply dedup_sorted. unfold sort_strings. apply StronglySorted_merge_sort; apply _.
Qed.
