(* ===== verification/Json.v ===== *)
(** JSON values: the data of [serde_json::Value] and the functions of that crate the
    program calls, as the class [SerdeJson].  [Reference] is an instance for the
    witnesses. *)
From S2P Require Import Prelude Text.
Local Open Scope string_scope.
Local Open Scope list_scope.
Local Open Scope Z_scope.

(** [serde_json::Value]; an object is the list of its members, keys distinct. *)
Inductive Value (Number : Type) :=
| Null
| Bool (b : bool)
| Num (n : Number)
| Str (s : string)
| Array (l : list (Value Number))
| Object (m : list (string * Value Number)).
Arguments Null {Number}.
Arguments Bool {Number} b.
Arguments Num {Number} n.
Arguments Str {Number} s.
Arguments Array {Number} l.
Arguments Object {Number} m.

Class SerdeJson := {
  Number : Type;
  (** an [f64] *)
  Float : Type;
  SerdeError : Type;
  (** [serde_json::to_string] on a string and on a value *)
  to_string_str : string -> result string SerdeError;
  to_string_value : Value Number -> result string SerdeError;
  (** [Value]'s and [Number]'s [Display] *)
  value_display : Value Number -> string;
  number_display : Number -> string;
  (** [Number::as_i64], [as_f64], and the number of a [u64] *)
  as_i64 : Number -> option Z;
  as_f64 : Number -> option Float;
  number_of_u64 : Z -> Number
}.

Section values.
Context `{J : SerdeJson}.

(** [Map::get] *)
Fixpoint member (key : string) (m : list (string * Value Number)) : option (Value Number) :=
  match m with
  | [] => None
  | (k, v) :: m' => if String.eqb k key then Some v else member key m'
  end.

(** [Value::get(key)], [Value::as_str] *)
Definition json_get (key : string) (v : Value Number) : option (Value Number) :=
  match v with Object m => member key m | _ => None end.
Definition json_as_str (v : Value Number) : option string :=
  match v with Str s => Some s | _ => None end.
End values.

Module Reference.
(** Decimal digits, at most [fuel] of them. *)
Fixpoint decimal (fuel : nat) (n : N) (acc : string) : string :=
  match fuel with
  | O => acc
  | S fuel' =>
      let acc' := String (ascii_of_N (48 + n mod 10)) acc in
      if (n / 10 =? 0)%N then acc' else decimal fuel' (n / 10) acc'
  end.

Definition quote (s : string) : string :=
  String "034" (s +:+ String "034" EmptyString).

Definition value_text (v : Value Z) : result string unit :=
  match v with
  | Null => Ok "null"
  | Bool b => Ok (if b then "true" else "false")
  | Num n => Ok (decimal 20 (Z.to_N n) "")
  | Str s => Ok (quote s)
  | Array _ | Object _ => Err tt
  end.

(** Integers for numbers; strings are quoted without escapes. *)
#[export] Instance json : SerdeJson := {|
  Number := Z;
  Float := unit;
  SerdeError := unit;
  to_string_str s := Ok (quote s);
  to_string_value := value_text;
  value_display v := match value_text v with Ok s => s | Err _ => "..." end;
  number_display n := decimal 20 (Z.to_N n) "";
  as_i64 n := Some n;
  as_f64 _ := None;
  number_of_u64 n := n
|}.
End Reference.
