(* ===== verification/EventStore.v ===== *)
(** The event store: [crates/buzz-db/src/event.rs], the replacement and mention functions
    of [crates/buzz-db/src/lib.rs], the counters of [crates/buzz-db/src/thread.rs], and the
    triggers of [migrations/0009], [0011] and [0019] that run inside their statements.

    A table is a finite map from its primary key to the other columns.  A SQL statement is a
    function on the map: [WHERE] a boolean predicate, [ORDER BY] a merge sort, [ON CONFLICT
    DO NOTHING] a lookup before the insertion, [BEFORE INSERT] and [AFTER UPDATE] triggers
    part of the statement that fires them.  A transaction restores the database unless it
    commits.  Timestamps are whole seconds, as the program binds them. *)
From S2P Require Import Prelude Nostr Kinds Filters Text.
Local Open Scope string_scope.
Local Open Scope list_scope.
Local Open Scope Z_scope.
Local Open Scope buzz_scope.

(** * Rows *)

(** Primary key of [events] and [thread_metadata]: [(community_id, created_at, id)]. *)
Definition EventKey : Type := Uuid * Z * Bytes.
Definition ek_community (k : EventKey) : Uuid := k.1.1.
Definition ek_created_at (k : EventKey) : Z := k.1.2.
Definition ek_id (k : EventKey) : Bytes := k.2.
#[export] Instance EventKey_eq_dec : EqDecision EventKey := prod_eq_dec.
#[export] Instance EventKey_countable : Countable EventKey := prod_countable.

Record EventRow := mkEventRow {
  er_pubkey : Bytes;
  er_kind : Z;
  er_tags : list Tag;
  er_content : string;
  er_received_at : Z;
  er_channel_id : option Uuid;
  er_deleted_at : option Z;
  er_d_tag : option string;
  er_not_before : option Z;
  er_delivered_at : option Z
}.

(** [thread_metadata]. *)
Record ThreadRow := mkThreadRow {
  tr_channel_id : Uuid;
  tr_parent_event_id : option Bytes;
  tr_parent_event_created_at : option Z;
  tr_root_event_id : option Bytes;
  tr_root_event_created_at : option Z;
  tr_depth : Z;
  tr_broadcast : bool;
  tr_reply_count : Z;
  tr_descendant_count : Z;
  tr_last_reply_at : option Z
}.

(** Primary key of [event_mentions]: [(community_id, pubkey_hex, event_id)]. *)
Definition MentionKey : Type := Uuid * string * Bytes.
#[export] Instance MentionKey_eq_dec : EqDecision MentionKey := prod_eq_dec.
#[export] Instance MentionKey_countable : Countable MentionKey := prod_countable.
Record MentionRow := mkMention {
  mr_event_created_at : Z;
  mr_channel_id : option Uuid;
  mr_event_kind : Z
}.

(** The coordinate of a parameterized event: [(community_id, kind, pubkey, d_tag)], the
    primary key of [parameterized_event_watermarks]. *)
Definition Coord : Type := Uuid * Z * Bytes * string.
#[export] Instance Coord_eq_dec : EqDecision Coord := prod_eq_dec.
#[export] Instance Coord_countable : Countable Coord := prod_countable.

Record Db := mkDb {
  db_events : gmap EventKey EventRow;
  db_mentions : gmap MentionKey MentionRow;
  db_watermarks : gmap Coord (Z * Bytes);
  db_threads : gmap EventKey ThreadRow
}.
Definition empty_db : Db := mkDb ∅ ∅ ∅ ∅.
Definition set_events (m : gmap EventKey EventRow) (db : Db) : Db :=
  mkDb m (db_mentions db) (db_watermarks db) (db_threads db).
Definition set_mentions (m : gmap MentionKey MentionRow) (db : Db) : Db :=
  mkDb (db_events db) m (db_watermarks db) (db_threads db).
Definition set_watermarks (m : gmap Coord (Z * Bytes)) (db : Db) : Db :=
  mkDb (db_events db) (db_mentions db) m (db_threads db).
Definition set_threads (m : gmap EventKey ThreadRow) (db : Db) : Db :=
  mkDb (db_events db) (db_mentions db) (db_watermarks db) m.

(** [DbError]; a driver error and an exception raised by a trigger are both [Sqlx]. *)
Inductive DbError :=
| Sqlx
| AuthEventRejected
| EphemeralEventRejected (kind : Z)
| ChannelNotFound (channel_id : Uuid)
| MemberNotFound (channel_id : Uuid)
| NotFound (msg : string)
| AccessDenied (msg : string)
| InvalidData (msg : string)
| InvalidTimestamp (secs : Z).

(** * Orders *)

(** The order of byte strings, of Rust slices and of [BYTEA]. *)
Fixpoint bytes_le (a b : Bytes) : bool :=
  match a, b with
  | [], _ => true
  | _ :: _, [] => false
  | x :: a', y :: b' =>
      (Byte.to_N x <? Byte.to_N y)%N || ((Byte.to_N x =? Byte.to_N y)%N && bytes_le a' b')
  end.

(** A version of an event: [(created_at, id)]. *)
Definition Stamp : Type := Z * Bytes.
Definition ek_stamp (k : EventKey) : Stamp := (ek_created_at k, ek_id k).

(** [a] comes before or at [b] in [ORDER BY created_at DESC, id ASC]. *)
Definition newer_eq (a b : Stamp) : bool :=
  (b.1 <? a.1) || ((a.1 =? b.1) && bytes_le a.2 b.2).
Definition row_order (a b : EventKey * EventRow) : Prop :=
  newer_eq (ek_stamp a.1) (ek_stamp b.1) = true.
#[export] Instance row_order_dec : RelDecision row_order :=
  fun a b => decide (newer_eq (ek_stamp a.1) (ek_stamp b.1) = true).

(** [SELECT ... WHERE p], [ORDER BY created_at DESC, id ASC]. *)
Definition select (p : EventKey -> EventRow -> bool) (m : gmap EventKey EventRow)
  : list (EventKey * EventRow) :=
  List.filter (fun '(k, r) => p k r) (map_to_list m).
Definition select_ordered (p : EventKey -> EventRow -> bool) (m : gmap EventKey EventRow)
  : list (EventKey * EventRow) :=
  merge_sort row_order (select p m).
Definition any_row (p : EventKey -> EventRow -> bool) (m : gmap EventKey EventRow) : bool :=
  existsb (fun '(k, r) => p k r) (map_to_list m).

Definition live (r : EventRow) : bool := bool_decide (er_deleted_at r = None).
Definition opt_eqb {A : Type} `{EqDecision A} (a b : option A) : bool := bool_decide (a = b).

(** [tags @> '[["k","v"]]']: [JSONB] containment looks for both strings anywhere in one of
    the tags. *)
Definition tags_contain (k v : string) (tags : list Tag) : bool :=
  existsb (fun t => bool_decide (k ∈ t) && bool_decide (v ∈ t)) tags.

(** * What the program takes from its dependencies *)

Class StoreDeps := {
  (** [DateTime::from_timestamp(secs, 0).is_some()] ([chrono]) *)
  timestamp_valid : Z -> bool;
  (** [serde_json::from_value::<nostr::Event>] on an object with these fields *)
  event_from_value : Event -> option Event;
  (** [DbError]'s [Display] ([thiserror]) *)
  db_error_text : DbError -> string
}.

(** What the crates promise: the deserialiser changes no field and reads an unsigned
    [created_at]; a [DateTime] has an [i64] number of seconds. *)
Class StoreLaws (S : StoreDeps) := {
  event_from_value_same e e' : event_from_value e = Some e' -> e' = e;
  event_from_value_created e e' : event_from_value e = Some e' -> 0 <= ev_created_at e;
  timestamp_valid_i64 t : timestamp_valid t = true -> - 2 ^ 63 <= t < 2 ^ 63
}.

(** [u64 as i64] *)
Definition to_i64 (x : Z) : Z := if x <? 2 ^ 63 then x else x - 2 ^ 64.

Section store.
Context `{S : StoreDeps}.

Definition from_timestamp (secs : Z) : option Z :=
  if timestamp_valid secs then Some secs else None.

(** * Columns computed at insertion *)

Definition tag_pair (name : string) (parts : Tag) : option string :=
  match parts with
  | a :: b :: _ => if String.eqb a name then Some b else None
  | _ => None
  end.
Fixpoint find_map {A B : Type} (f : A -> option B) (l : list A) : option B :=
  match l with
  | [] => None
  | x :: l' => match f x with Some y => Some y | None => find_map f l' end
  end.

Definition extract_d_tag (event : Event) : option string :=
  if negb (is_parameterized_replaceable (ev_kind event)) then None
  else Some (default EmptyString (find_map (tag_pair "d") (ev_tags event))).

Definition extract_not_before (event : Event) : option Z :=
  if negb (ev_kind event =? KIND_EVENT_REMINDER) then None
  else find_map (fun parts => tag_pair "not_before" parts ≫= parse_i64) (ev_tags event).

Definition event_key (community : Uuid) (created_at : Z) (event : Event) : EventKey :=
  (community, created_at, ev_id event).
Definition new_row (received_at : Z) (event : Event) (channel_id : option Uuid)
    (d_tag : option string) (not_before : option Z) : EventRow :=
  mkEventRow (ev_pubkey event) (event_kind_i32 event) (ev_tags event) (ev_content event)
    received_at channel_id None d_tag not_before None.

(** * Statements that write [events] *)

Definition count_tags (p : Tag -> bool) (tags : list Tag) : nat := length (List.filter p tags).

(** A lower-case read-state slot: [^read-state:[0-9a-f]{32}$]. *)
Definition read_state_slot (d_tag : string) : bool :=
  match strip_prefix "read-state:" d_tag with
  | Some slot => Nat.eqb (String.length slot) 32 && str_all is_lower_hex slot
  | None => false
  end.

Definition is_nip_rs (kind : Z) (d_tag : string) (tags : list Tag) : bool :=
  (kind =? KIND_READ_STATE)
  && Nat.eqb (count_tags (fun tag => bool_decide (head tag = Some "d")) tags) 1
  && existsb (fun parts => bool_decide (tag_pair "d" parts = Some d_tag)) tags
  && read_state_slot d_tag
  && Nat.eqb (count_tags (fun parts => bool_decide (parts = ["t"; "read-state"])) tags) 1.

Definition is_buzz_mesh_status (kind : Z) (d_tag : string) (tags : list Tag) : bool :=
  (kind =? KIND_BOOKMARK_SET)
  && starts_with "buzz-mesh-member-status:" d_tag
  && existsb (fun parts => bool_decide (parts = ["k"; "buzz-mesh-status"])) tags.

(** The rows the database's own guards recognise (migrations 0011 and 0019). *)
Definition conforming_read_state (r : EventRow) : bool :=
  match er_d_tag r with
  | Some d => is_nip_rs (er_kind r) d (er_tags r)
  | None => false
  end.
Definition mesh_status_row (r : EventRow) : bool :=
  match er_d_tag r with
  | Some d => (er_kind r =? KIND_BOOKMARK_SET)
              && starts_with "buzz-mesh-member-status:" d
              && tags_contain "k" "buzz-mesh-status" (er_tags r)
  | None => false
  end.

Definition row_coord (k : EventKey) (r : EventRow) : option Coord :=
  (fun d => (ek_community k, er_kind r, er_pubkey r, d)) <$> er_d_tag r.

(** [guard_nip_rs_watermark()], [BEFORE INSERT]: [Some true] inserts the row, [Some false]
    skips it, [None] raises. *)
Definition guard_nip_rs_watermark (k : EventKey) (r : EventRow) (db : Db) : Db * option bool :=
  match (if conforming_read_state r then row_coord k r else None) with
  | None => (db, Some true)
  | Some c =>
      let advanced :=
        match db_watermarks db !! c with
        | None => true
        | Some w => negb (newer_eq w (ek_stamp k))
        end in
      if advanced then (set_watermarks (<[c := ek_stamp k]> (db_watermarks db)) db, Some true)
      else if bool_decide (db_watermarks db !! c = Some (ek_stamp k)) then (db, Some false)
      else (db, None)
  end.

(** [INSERT INTO events ... ON CONFLICT DO NOTHING]; the result is [rows_affected() > 0]. *)
Definition insert_row (k : EventKey) (r : EventRow) : method Db DbError bool :=
  fun db =>
    match guard_nip_rs_watermark k r db with
    | (db', Some true) =>
        match db_events db' !! k with
        | Some _ => (db', Ok false)
        | None => (set_events (<[k := r]> (db_events db')) db', Ok true)
        end
    | (db', Some false) => (db', Ok false)
    | (db', None) => (db', Err Sqlx)
    end.

Definition with_deleted_at (d : Z) (r : EventRow) : EventRow :=
  mkEventRow (er_pubkey r) (er_kind r) (er_tags r) (er_content r) (er_received_at r)
    (er_channel_id r) (Some d) (er_d_tag r) (er_not_before r) (er_delivered_at r).

(** [purge_soft_deleted_nip_rs()] and [purge_soft_deleted_buzz_mesh_status()], [AFTER UPDATE
    OF deleted_at]. *)
Definition purged (r : EventRow) : bool := conforming_read_state r || mesh_status_row r.

(** [DELETE FROM event_mentions WHERE community_id = .. AND event_id = ..] *)
Definition delete_mentions (gone : Uuid -> Bytes -> bool) (m : gmap MentionKey MentionRow)
  : gmap MentionKey MentionRow :=
  map_imap (fun (k : MentionKey) r => if gone k.1.1 k.2 then None else Some r) m.

(** [UPDATE events SET deleted_at = NOW() WHERE p AND deleted_at IS NULL]; the result is
    [rows_affected()]. *)
Definition soft_delete_where (now : Z) (p : EventKey -> EventRow -> bool)
  : method Db DbError Z :=
  fun db =>
    let hit k r := p k r && live r in
    let events := map_imap (fun k r =>
        if hit k r then (if purged r then None else Some (with_deleted_at now r)) else Some r)
      (db_events db) in
    let gone c id := any_row (fun k r => hit k r && purged r && bool_decide (ek_community k = c)
                                         && bool_decide (ek_id k = id)) (db_events db) in
    (set_mentions (delete_mentions gone (db_mentions db)) (set_events events db),
     Ok (Z.of_nat (length (select hit (db_events db))))).

(** [DELETE FROM events WHERE p AND deleted_at IS NULL] *)
Definition hard_delete_where (p : EventKey -> EventRow -> bool) : method Db DbError unit :=
  m_modify (fun db => set_events
    (map_imap (fun k r => if p k r && live r then None else Some r) (db_events db)) db).

(** * Transactions *)

(** What one call meets in its surroundings: the clock, whether the commit goes through (the
    deferred guards of migration 0021 and the connection), whether the caller hears that it
    did, and whether the statement after it goes through. *)
Record Env := mkEnv { env_now : Z; env_commits : bool; env_acked : bool; env_mentions : bool }.

Inductive TxEnd (A : Type) := Commit (a : A) | Rollback (a : A).
Arguments Commit {A} a.
Arguments Rollback {A} a.

(** A commit that fails has changed nothing, or it went through and its acknowledgement was
    lost with the connection. *)
Definition transaction {D A : Type} (env : Env) (m : method D DbError (TxEnd A))
  : method D DbError A :=
  fun db =>
    match m db with
    | (db', Ok (Commit a)) =>
        if negb (env_commits env) then (db, Err Sqlx)
        else (db', if env_acked env then Ok a else Err Sqlx)
    | (_, Ok (Rollback a)) => (db, Ok a)
    | (_, Err e) => (db, Err e)
    end.

(** * Mentions *)

Definition valid_pubkey (pk : string) : bool :=
  Nat.eqb (String.length pk) 64 && str_all is_ascii_hexdigit pk.

(** [guard_event_mention_live()], [BEFORE INSERT ON event_mentions]. *)
Definition guard_event_mention_live (k : EventKey) (kind : Z) (db : Db) : bool :=
  if negb (kind =? KIND_READ_STATE) then true
  else match db_events db !! k with Some r => live r | None => false end.

Definition insert_mentions (community : Uuid) (event : Event) (channel_id : option Uuid)
  : method Db DbError unit :=
  let p_tags := omap (tag_pair "p") (ev_tags event) in
  if bool_decide (p_tags = []) then m_ret tt
  else
    let secs := to_i64 (ev_created_at event) in
    match from_timestamp secs with
    | None => m_fail (InvalidTimestamp secs)
    | Some created_at =>
        let valid_pubkeys := to_ascii_lowercase <$> List.filter valid_pubkey p_tags in
        m_modify (fun db =>
          if guard_event_mention_live (event_key community created_at event)
               (event_kind_u32 event) db
          then set_mentions
                 (foldl (fun m pk =>
                    let k := (community, pk, ev_id event) in
                    match m !! k with
                    | Some _ => m
                    | None => <[k := mkMention created_at channel_id (event_kind_u32 event)]> m
                    end) (db_mentions db) valid_pubkeys) db
          else db)
    end.

(** [if let Err(e) = insert_mentions(..).await { warn!(..) }] *)
Definition insert_mentions_logged (env : Env) (community : Uuid) (event : Event)
    (channel_id : option Uuid) : method Db DbError unit :=
  fun db =>
    if env_mentions env then
      match insert_mentions community event channel_id db with
      | (db', Ok _) => (db', Ok tt)
      | (_, Err _) => (db, Ok tt)
      end
    else (db, Ok tt).

(** * [insert_event] *)

Definition storable (event : Event) : result unit DbError :=
  if event_kind_u32 event =? KIND_AUTH then Err AuthEventRejected
  else if is_ephemeral (event_kind_u32 event) then Err (EphemeralEventRejected (ev_kind event))
  else Ok tt.

(** The common part of [insert_event] and [insert_event_with_thread_metadata_tx]. *)
Definition insert_event_row (env : Env) (community : Uuid) (event : Event)
    (channel_id : option Uuid) : method Db DbError (StoredEvent * bool) :=
  do? _ <- m_read (fun _ => storable event) ;;
  let secs := to_i64 (ev_created_at event) in
  match from_timestamp secs with
  | None => m_fail (InvalidTimestamp secs)
  | Some created_at =>
      do? was_inserted <- insert_row (event_key community created_at event)
        (new_row (env_now env) event channel_id (extract_d_tag event) (extract_not_before event)) ;;
      m_ret (with_received_at event (env_now env) channel_id true, was_inserted)
  end.

Definition insert_event_statement (env : Env) (community : Uuid) (event : Event)
    (channel_id : option Uuid) : method Db DbError (StoredEvent * bool) :=
  transaction env (do? out <- insert_event_row env community event channel_id ;;
                   m_ret (Commit out)).

(** [Db::insert_event] *)
Definition insert_event (env : Env) (community : Uuid) (event : Event)
    (channel_id : option Uuid) : method Db DbError (StoredEvent * bool) :=
  do? out <- insert_event_statement env community event channel_id ;;
  do? _ <- (if snd out then insert_mentions_logged env community event channel_id else m_ret tt) ;;
  m_ret out.

(** * Replacement *)

(** [created_at < ts || (created_at == ts && incoming_id >= id)] *)
Definition dominated_by (incoming accepted : Stamp) : bool :=
  (incoming.1 <? accepted.1) || ((incoming.1 =? accepted.1) && bytes_le accepted.2 incoming.2).

(** The rows of one addressable group: [(community, kind, pubkey, channel)]. *)
Definition in_group (community : Uuid) (kind : Z) (pubkey : Bytes) (channel_id : option Uuid)
    (k : EventKey) (r : EventRow) : bool :=
  bool_decide (ek_community k = community) && (er_kind r =? kind)
  && bool_decide (er_pubkey r = pubkey) && opt_eqb (er_channel_id r) channel_id.

(** The rows of one parameterized coordinate. *)
Definition at_coord (c : Coord) (k : EventKey) (r : EventRow) : bool :=
  opt_eqb (row_coord k r) (Some c).

(** [SELECT created_at, id ... AND deleted_at IS NULL ORDER BY .. LIMIT 1] *)
Definition live_head (p : EventKey -> EventRow -> bool) (db : Db) : option EventKey :=
  fst <$> head (select_ordered (fun k r => p k r && live r) (db_events db)).

Definition unverified (env : Env) (event : Event) (channel_id : option Uuid)
  : StoredEvent * bool := (with_received_at event (env_now env) channel_id false, false).
Definition verified (env : Env) (event : Event) (channel_id : option Uuid)
  : StoredEvent * bool := (with_received_at event (env_now env) channel_id true, true).

Definition replace_addressable_tx (env : Env) (community : Uuid) (event : Event)
    (channel_id : option Uuid) (created_at : Z) : method Db DbError (TxEnd (StoredEvent * bool)) :=
  let group := in_group community (event_kind_i32 event) (ev_pubkey event) channel_id in
  do? existing <- m_read (fun db => Ok (live_head group db)) ;;
  if existsb (fun k => dominated_by (created_at, ev_id event) (ek_stamp k)) (option_list existing)
  then m_ret (Rollback (unverified env event channel_id))
  else
    do? _ <- soft_delete_where (env_now env) group ;;
    do? was_inserted <- insert_row (event_key community created_at event)
      (new_row (env_now env) event channel_id (extract_d_tag event) None) ;;
    m_ret (if was_inserted then Commit (verified env event channel_id)
           else Rollback (unverified env event channel_id)).

(** What both replacement functions do around their transaction. *)
Definition replacing (env : Env) (community : Uuid) (event : Event) (channel_id : option Uuid)
    (tx : Z -> method Db DbError (TxEnd (StoredEvent * bool)))
  : method Db DbError (StoredEvent * bool) :=
  let secs := to_i64 (ev_created_at event) in
  match from_timestamp secs with
  | None => m_fail (InvalidTimestamp secs)
  | Some created_at =>
      do? out <- transaction env (tx created_at) ;;
      do? _ <- (if snd out then insert_mentions_logged env community event channel_id
                else m_ret tt) ;;
      m_ret out
  end.

(** [Db::replace_addressable_event] *)
Definition replace_addressable_event (env : Env) (community : Uuid) (event : Event)
    (channel_id : option Uuid) : method Db DbError (StoredEvent * bool) :=
  replacing env community event channel_id (replace_addressable_tx env community event channel_id).

Definition replace_parameterized_tx (env : Env) (community : Uuid) (event : Event)
    (d_tag : string) (channel_id : option Uuid) (created_at : Z)
  : method Db DbError (TxEnd (StoredEvent * bool)) :=
  let kind := event_kind_i32 event in
  let c := (community, kind, ev_pubkey event, d_tag) in
  let nip_rs := is_nip_rs kind d_tag (ev_tags event) in
  let hard_delete_superseded := nip_rs || is_buzz_mesh_status kind d_tag (ev_tags event) in
  do? existing <- m_read (fun db => Ok (live_head (at_coord c) db)) ;;
  do? watermark <- m_read (fun db => Ok (if nip_rs then db_watermarks db !! c else None)) ;;
  if existsb (dominated_by (created_at, ev_id event))
       ((ek_stamp <$> option_list existing) ++ option_list watermark)
  then m_ret (Rollback (unverified env event channel_id))
  else
    do? _ <- match existing with
             | None => m_ret tt
             | Some e =>
                 if hard_delete_superseded then
                   do? _ <- hard_delete_where (at_coord c) ;;
                   m_modify (fun db => set_mentions
                     (delete_mentions (fun c' id => bool_decide (c' = community)
                                                    && bool_decide (id = ek_id e))
                        (db_mentions db)) db)
                 else do? _ <- soft_delete_where (env_now env) (at_coord c) ;; m_ret tt
             end ;;
    do? was_inserted <- insert_row (event_key community created_at event)
      (new_row (env_now env) event channel_id (Some d_tag) (extract_not_before event)) ;;
    if was_inserted then
      do? _ <- (if nip_rs then
                  m_modify (fun db => set_watermarks
                    (<[c := (created_at, ev_id event)]> (db_watermarks db)) db)
                else m_ret tt) ;;
      m_ret (Commit (verified env event channel_id))
    else m_ret (Rollback (unverified env event channel_id)).

(** [Db::replace_parameterized_event] *)
Definition replace_parameterized_event (env : Env) (community : Uuid) (event : Event)
    (d_tag : string) (channel_id : option Uuid) : method Db DbError (StoredEvent * bool) :=
  replacing env community event channel_id
    (replace_parameterized_tx env community event d_tag channel_id).

(** * Deletion *)

Definition with_id (community : Uuid) (event_id : Bytes) (k : EventKey) (_ : EventRow) : bool :=
  bool_decide (ek_community k = community) && bool_decide (ek_id k = event_id).

Definition soft_delete_event (env : Env) (community : Uuid) (event_id : Bytes)
  : method Db DbError bool :=
  transaction env (do? hit <- soft_delete_where (env_now env) (with_id community event_id) ;;
                   m_ret (Commit (0 <? hit))).

Definition soft_delete_by_coordinate (env : Env) (community : Uuid) (kind : Z) (pubkey : Bytes)
    (d_tag : string) (deletion_created_at_secs : Z) : method Db DbError bool :=
  match from_timestamp deletion_created_at_secs with
  | None => m_fail (InvalidTimestamp deletion_created_at_secs)
  | Some deletion_created_at =>
      transaction env
        (do? hit <- soft_delete_where (env_now env) (fun k r =>
             at_coord (community, kind, pubkey, d_tag) k r
             && (ek_created_at k <=? deletion_created_at)) ;;
         m_ret (Commit (0 <? hit)))
  end.

(** [Db::soft_delete_discovery_events] *)
Definition soft_delete_discovery_events (env : Env) (community channel_id : Uuid)
    (relay_pubkey : Bytes) : method Db DbError Z :=
  transaction env
    (do? hit <- soft_delete_where (env_now env) (fun k r =>
         bool_decide (ek_community k = community) && opt_eqb (er_channel_id r) (Some channel_id)
         && bool_decide (er_pubkey r = relay_pubkey)
         && bool_decide (er_kind r ∈ [39000; 39001; 39002])) ;;
     m_ret (Commit hit)).

(** * Thread metadata *)

Record ThreadMetadataParams := mkThreadParams {
  tp_event_id : Bytes;
  tp_event_created_at : Z;
  tp_channel_id : Uuid;
  tp_parent_event_id : option Bytes;
  tp_parent_event_created_at : option Z;
  tp_root_event_id : option Bytes;
  tp_root_event_created_at : option Z;
  tp_depth : Z;
  tp_broadcast : bool
}.

(** [INSERT INTO thread_metadata .. ON CONFLICT DO NOTHING] *)
Definition insert_thread_row (k : EventKey) (t : ThreadRow) : method Db DbError bool :=
  fun db =>
    match db_threads db !! k with
    | Some _ => (db, Ok false)
    | None => (set_threads (<[k := t]> (db_threads db)) db, Ok true)
    end.
(** The row created for a message that had none. *)
Definition thread_stub (channel_id : Uuid) : ThreadRow :=
  mkThreadRow channel_id None None None None 0 false 0 0 None.
(** [UPDATE thread_metadata SET .. WHERE community_id = .. AND event_id = ..] *)
Definition update_thread (community : Uuid) (event_id : Bytes) (f : ThreadRow -> ThreadRow)
  : method Db DbError unit :=
  m_modify (fun db => set_threads
    (map_imap (fun k t =>
       Some (if bool_decide (ek_community k = community) && bool_decide (ek_id k = event_id)
             then f t else t)) (db_threads db)) db).
Definition with_counts (reply descendant : Z -> Z) (last : option Z -> option Z) (t : ThreadRow)
  : ThreadRow :=
  mkThreadRow (tr_channel_id t) (tr_parent_event_id t) (tr_parent_event_created_at t)
    (tr_root_event_id t) (tr_root_event_created_at t) (tr_depth t) (tr_broadcast t)
    (reply (tr_reply_count t)) (descendant (tr_descendant_count t)) (last (tr_last_reply_at t)).

(** What follows a metadata row that was inserted with a parent. *)
Definition count_reply (env : Env) (community : Uuid) (meta : ThreadMetadataParams) (pid : Bytes)
  : method Db DbError unit :=
  let parent_ts := default (tp_event_created_at meta) (tp_parent_event_created_at meta) in
  do? _ <- insert_thread_row (community, parent_ts, pid) (thread_stub (tp_channel_id meta)) ;;
  do? _ <- match tp_root_event_id meta with
           | Some root_id =>
               if negb (bool_decide (root_id = pid)) then
                 let root_ts := default (tp_event_created_at meta) (tp_root_event_created_at meta) in
                 do? _ <- insert_thread_row (community, root_ts, root_id)
                            (thread_stub (tp_channel_id meta)) ;;
                 m_ret tt
               else m_ret tt
           | None => m_ret tt
           end ;;
  do? _ <- update_thread community pid
             (with_counts (fun n => n + 1) (fun n => n) (fun _ => Some (env_now env))) ;;
  match tp_root_event_id meta with
  | Some root_id =>
      update_thread community root_id (with_counts (fun n => n) (fun n => n + 1) (fun l => l))
  | None => m_ret tt
  end.

(** The metadata row of an inserted event, with its counters. *)
Definition insert_thread_metadata (env : Env) (community : Uuid) (meta : ThreadMetadataParams)
  : method Db DbError unit :=
  do? inserted <- insert_thread_row (community, tp_event_created_at meta, tp_event_id meta)
    (mkThreadRow (tp_channel_id meta) (tp_parent_event_id meta) (tp_parent_event_created_at meta)
       (tp_root_event_id meta) (tp_root_event_created_at meta) (tp_depth meta)
       (tp_broadcast meta) 0 0 None) ;;
  match (if inserted : bool then tp_parent_event_id meta else None) with
  | Some pid => count_reply env community meta pid
  | None => m_ret tt
  end.

Definition insert_event_with_thread_metadata_tx (env : Env) (community : Uuid) (event : Event)
    (channel_id : option Uuid) (thread_meta : option ThreadMetadataParams)
  : method Db DbError (StoredEvent * bool) :=
  do? out <- insert_event_row env community event channel_id ;;
  do? _ <- match (if snd out then thread_meta else None) with
           | Some meta => insert_thread_metadata env community meta
           | None => m_ret tt
           end ;;
  m_ret out.

(** [Db::insert_event_with_thread_metadata] *)
Definition insert_event_with_thread_metadata (env : Env) (community : Uuid) (event : Event)
    (channel_id : option Uuid) (thread_meta : option ThreadMetadataParams)
  : method Db DbError (StoredEvent * bool) :=
  do? out <- transaction env
    (do? out <- insert_event_with_thread_metadata_tx env community event channel_id thread_meta ;;
     m_ret (Commit out)) ;;
  do? _ <- (if snd out then insert_mentions_logged env community event channel_id else m_ret tt) ;;
  m_ret out.

Definition soft_delete_event_and_update_thread (env : Env) (community : Uuid) (event_id : Bytes)
    (parent_event_id root_event_id : option Bytes) : method Db DbError bool :=
  transaction env
    (do? hit <- soft_delete_where (env_now env) (with_id community event_id) ;;
     let deleted := 0 <? hit in
     do? _ <- match (if deleted then parent_event_id else None) with
              | Some pid =>
                  do? _ <- update_thread community pid
                             (with_counts (fun n => Z.max (n - 1) 0) (fun n => n) (fun l => l)) ;;
                  match root_event_id with
                  | Some root_id =>
                      update_thread community root_id
                        (with_counts (fun n => n) (fun n => Z.max (n - 1) 0) (fun l => l))
                  | None => m_ret tt
                  end
              | None => m_ret tt
              end ;;
     m_ret (Commit deleted)).

(** [get_thread_metadata_by_event]; [LIMIT 1] without an order takes some row. *)
Definition get_thread_metadata_by_event `{HashIter} (community : Uuid) (event_id : Bytes) (db : Db)
  : option ThreadRow :=
  snd <$> head (List.filter (fun '(k, _) => bool_decide (ek_community k = community)
                                            && bool_decide (ek_id k = event_id))
                  (hash_iter (db_threads db))).

(** * Reading *)

Definition DEFAULT_MAX_PAGE_LIMIT : Z := 1000.

Record EventQuery := mkQuery {
  q_community_id : Uuid;
  q_channel_id : option Uuid;
  q_kinds : option (list Z);
  q_pubkey : option Bytes;
  q_since : option Z;
  q_until : option Z;
  q_limit : option Z;
  q_offset : option Z;
  q_p_tag_hex : option string;
  q_d_tag : option string;
  q_d_tags : option (list string);
  q_before_id : option Bytes;
  q_global_only : bool;
  q_authors : option (list Bytes);
  q_ids : option (list Bytes);
  q_e_tags : option (list string);
  q_channel_ids : option (list Uuid);
  q_max_limit : option Z;
  q_shared_gated_reader : option Bytes
}.

Definition for_community (community_id : Uuid) : EventQuery :=
  mkQuery community_id None None None None None None None None None None None false None None
    None None None None.

(** [is_some_and(|l| l.is_empty())] *)
Definition some_empty {A : Type} (l : option (list A)) : bool :=
  match l with Some [] => true | _ => false end.
(** A [WHERE] conjunct that is pushed only when its field is set. *)
Definition clause {A : Type} (o : option A) (p : A -> bool) : bool :=
  match o with Some x => p x | None => true end.
Definition in_list {A : Type} `{EqDecision A} (x : A) (l : list A) : bool := bool_decide (x ∈ l).

(** "Empty list means match nothing". *)
Definition matches_nothing (q : EventQuery) : bool :=
  some_empty (q_kinds q) || some_empty (q_authors q) || some_empty (q_ids q)
  || some_empty (q_e_tags q).

(** The conjuncts shared by the two query builders; the join with [event_mentions] is a
    lookup because its primary key determines the row. *)
Definition where_common (q : EventQuery) (db : Db) (k : EventKey) (r : EventRow) : bool :=
  bool_decide (ek_community k = q_community_id q) && live r
  && clause (q_p_tag_hex q) (fun p_hex =>
       bool_decide (is_Some (db_mentions db !!
                               (q_community_id q, to_ascii_lowercase p_hex, ek_id k))))
  && (match q_channel_id q with
      | Some ch => opt_eqb (er_channel_id r) (Some ch)
      | None => if q_global_only q then opt_eqb (er_channel_id r) None else true
      end)
  && clause (q_channel_ids q) (fun ch_ids =>
       match er_channel_id r with None => true | Some ch => in_list ch ch_ids end)
  && clause (q_kinds q) (in_list (er_kind r))
  && clause (q_pubkey q) (fun pk => bool_decide (er_pubkey r = pk))
  && clause (q_authors q) (in_list (er_pubkey r))
  && clause (q_ids q) (in_list (ek_id k))
  && clause (q_e_tags q) (existsb (fun hex_id => tags_contain "e" hex_id (er_tags r)))
  && clause (q_since q) (fun s => s <=? ek_created_at k)
  && (match q_d_tag q with
      | Some d => opt_eqb (er_d_tag r) (Some d)
      | None => match q_d_tags q with
                | Some (d :: ds) => match er_d_tag r with
                                    | Some x => in_list x (d :: ds)
                                    | None => false
                                    end
                | _ => true
                end
      end).

Definition shared_visible (reader : Bytes) (r : EventRow) : bool :=
  negb (mem_kind (er_kind r) SHARED_GATED_KINDS) || bool_decide (er_pubkey r = reader)
  || tags_contain "shared" "true" (er_tags r).

(** [WHERE] of [query_events_on]. *)
Definition query_where (q : EventQuery) (db : Db) (k : EventKey) (r : EventRow) : bool :=
  where_common q db k r
  && clause (q_until q) (fun u =>
       match q_before_id q with
       | Some bid => (ek_created_at k <? u)
                     || ((ek_created_at k =? u) && negb (bytes_le (ek_id k) bid))
       | None => ek_created_at k <=? u
       end)
  && clause (q_shared_gated_reader q) (fun reader => shared_visible reader r).

(** [WHERE] of [count_events_on]. *)
Definition count_where (q : EventQuery) (db : Db) (k : EventKey) (r : EventRow) : bool :=
  where_common q db k r && clause (q_until q) (fun u => ek_created_at k <=? u).

Definition row_event (k : EventKey) (r : EventRow) : Event :=
  mkEvent (ek_id k) (er_pubkey r) (ek_created_at k) (er_kind r) (er_tags r) (er_content r).
Definition row_to_stored_event (k : EventKey) (r : EventRow) : result (option StoredEvent) DbError :=
  if negb ((0 <=? er_kind r) && (er_kind r <=? 65535))
  then Err (InvalidData "kind out of u16 range")
  else Ok ((fun event => with_received_at event (er_received_at r) (er_channel_id r) true)
             <$> event_from_value (row_event k r)).

(** The loop over the fetched rows: an error stops it, an unreadable row is skipped. *)
Fixpoint rows_to_events (rows : list (EventKey * EventRow)) : result (list StoredEvent) DbError :=
  match rows with
  | [] => Ok []
  | (k, r) :: rows' =>
      let? ev := row_to_stored_event k r in
      let? out := rows_to_events rows' in
      Ok (option_list ev ++ out)
  end.

Definition limit_val (q : EventQuery) : Z :=
  Z.min (default 100 (q_limit q)) (default DEFAULT_MAX_PAGE_LIMIT (q_max_limit q)).
Definition offset_val (q : EventQuery) : Z := default 0 (q_offset q).

(** [query_events_on]; the server refuses a negative [LIMIT] or [OFFSET]. *)
Definition query_events (q : EventQuery) (db : Db) : result (list StoredEvent) DbError :=
  if bool_decide (is_Some (q_before_id q)) && bool_decide (q_until q = None)
  then Err (InvalidData "before_id requires until to be set")
  else if q_global_only q && bool_decide (is_Some (q_channel_id q))
  then Err (InvalidData "global_only and channel_id are mutually exclusive")
  else if matches_nothing q then Ok []
  else if (limit_val q <? 0) || (offset_val q <? 0) then Err Sqlx
  else rows_to_events
         (take (Z.to_nat (limit_val q))
            (drop (Z.to_nat (offset_val q)) (select_ordered (query_where q db) (db_events db)))).

(** [count_events_on] *)
Definition count_events (q : EventQuery) (db : Db) : result Z DbError :=
  if matches_nothing q then Ok 0
  else Ok (Z.of_nat (length (select (count_where q db) (db_events db)))).

(** The first row of an ordered selection, reconstructed. *)
Definition fetch_first (p : EventKey -> EventRow -> bool) (db : Db)
  : result (option StoredEvent) DbError :=
  match head (select_ordered p (db_events db)) with
  | Some (k, r) => row_to_stored_event k r
  | None => Ok None
  end.

Definition get_event_by_id (community : Uuid) (id_bytes : Bytes) (db : Db) :=
  fetch_first (fun k r => with_id community id_bytes k r && live r) db.
Definition get_event_by_id_including_deleted (community : Uuid) (id_bytes : Bytes) (db : Db) :=
  fetch_first (with_id community id_bytes) db.
Definition get_latest_global_replaceable (community : Uuid) (kind : Z) (pubkey_bytes : Bytes)
    (db : Db) :=
  fetch_first (fun k r => in_group community kind pubkey_bytes None k r && live r) db.

(** [get_events_by_ids]: the rows come in no particular order. *)
Definition get_events_by_ids `{HashIter} (community : Uuid) (ids : list Bytes) (db : Db)
  : result (list StoredEvent) DbError :=
  match ids with
  | [] => Ok []
  | _ => rows_to_events
           (List.filter (fun '(k, r) => bool_decide (ek_community k = community) && live r
                                        && in_list (ek_id k) ids) (hash_iter (db_events db)))
  end.

Definition get_last_message_at (community channel_id : Uuid) (db : Db) : option Z :=
  ek_created_at ∘ fst <$>
  head (select_ordered (fun k r => bool_decide (ek_community k = community)
                                   && opt_eqb (er_channel_id r) (Some channel_id) && live r)
          (db_events db)).

(** [get_last_message_at_bulk]: [GROUP BY channel_id], [MAX(created_at)]. *)
Definition get_last_message_at_bulk (community : Uuid) (channel_ids : list Uuid) (db : Db)
  : gmap Uuid Z :=
  foldr (fun '(k, r) m =>
           match er_channel_id r with
           | Some ch => <[ch := match m !! ch with
                                | Some at_ => Z.max at_ (ek_created_at k)
                                | None => ek_created_at k
                                end]> m
           | None => m
           end) ∅
    (select (fun k r => bool_decide (ek_community k = community) && live r
                        && match er_channel_id r with
                           | Some ch => in_list ch channel_ids
                           | None => false
                           end) (db_events db)).

(** * Reminders *)

Definition with_delivered_at (d : option Z) (r : EventRow) : EventRow :=
  mkEventRow (er_pubkey r) (er_kind r) (er_tags r) (er_content r) (er_received_at r)
    (er_channel_id r) (er_deleted_at r) (er_d_tag r) (er_not_before r) d.
Definition claim_due_reminder_with_stamp (community : Uuid) (event_id : Bytes)
    (event_created_at delivery_stamp : Z) : method Db DbError bool :=
  fun db =>
    let k := (community, event_created_at, event_id) in
    match db_events db !! k with
    | Some r =>
        if bool_decide (er_delivered_at r = None)
        then (set_events (<[k := with_delivered_at (Some delivery_stamp) r]> (db_events db)) db,
              Ok true)
        else (db, Ok false)
    | None => (db, Ok false)
    end.
Definition release_due_reminder (community : Uuid) (event_id : Bytes)
    (event_created_at delivery_stamp : Z) : method Db DbError bool :=
  fun db =>
    let k := (community, event_created_at, event_id) in
    match db_events db !! k with
    | Some r =>
        if bool_decide (er_delivered_at r = Some delivery_stamp)
        then (set_events (<[k := with_delivered_at None r]> (db_events db)) db, Ok true)
        else (db, Ok false)
    | None => (db, Ok false)
    end.
End store.
Arguments Commit {A} a.
Arguments Rollback {A} a.

(** * Lemmas on orders and selections *)

Lemma bytes_le_refl a : bytes_le a a = true.
Proof. induction a; simpl; [done|]. by rewrite N.eqb_refl, IHa, orb_true_r. Qed.

Lemma bytes_le_cons x a y b :
  bytes_le (x :: a) (y :: b) = true <->
  (Byte.to_N x < Byte.to_N y)%N \/ (x = y /\ bytes_le a b = true).
Proof.
  simpl. rewrite orb_true_iff, andb_true_iff, N.ltb_lt, N.eqb_eq.
  split; intros [?|[Heq ?]]; auto; right; split; auto; [|by subst].
  pose proof (Byte.of_to_N x). rewrite Heq, Byte.of_to_N in *. congruence.
Qed.

Lemma bytes_le_total a b : bytes_le a b = true \/ bytes_le b a = true.
Proof.
  revert b. induction a as [|x a IH]; intros [|y b]; try (left; done); try (right; done).
  rewrite !bytes_le_cons. destruct (N.lt_trichotomy (Byte.to_N x) (Byte.to_N y)) as [?|[Heq|?]];
    [auto| |auto].
  assert (x = y) as ->.
  { pose proof (Byte.of_to_N x). rewrite Heq, Byte.of_to_N in *. congruence. }
  destruct (IH b); auto.
Qed.

Lemma bytes_le_antisym a b : bytes_le a b = true -> bytes_le b a = true -> a = b.
Proof.
  revert b. induction a as [|x a IH]; intros [|y b]; try done.
  rewrite !bytes_le_cons. intros [?|[-> ?]] [?|[? ?]]; subst; try lia.
  f_equal. by apply IH.
Qed.

Lemma bytes_le_trans a b c : bytes_le a b = true -> bytes_le b c = true -> bytes_le a c = true.
Proof.
  revert b c. induction a as [|x a IH]; intros [|y b] [|z c]; try done.
  rewrite !bytes_le_cons. intros [?|[-> ?]] [?|[-> ?]]; [left; lia|by left|by left|].
  right. eauto.
Qed.

Lemma newer_eq_spec a b :
  newer_eq a b = true <-> b.1 < a.1 \/ (a.1 = b.1 /\ bytes_le a.2 b.2 = true).
Proof. unfold newer_eq. rewrite orb_true_iff, andb_true_iff, Z.ltb_lt, Z.eqb_eq. done. Qed.

Lemma newer_eq_refl a : newer_eq a a = true.
Proof. apply newer_eq_spec. right. split; [done|]. apply bytes_le_refl. Qed.

Lemma newer_eq_total a b : newer_eq a b = true \/ newer_eq b a = true.
Proof.
  rewrite !newer_eq_spec. destruct (Z.lt_trichotomy a.1 b.1) as [?|[?|?]]; auto.
  destruct (bytes_le_total a.2 b.2); auto.
Qed.

Lemma newer_eq_trans a b c : newer_eq a b = true -> newer_eq b c = true -> newer_eq a c = true.
Proof.
  rewrite !newer_eq_spec. intros [?|[? ?]] [?|[? ?]]; [left; lia..|].
  right. split; [lia|]. eauto using bytes_le_trans.
Qed.

Lemma newer_eq_antisym a b : newer_eq a b = true -> newer_eq b a = true -> a = b.
Proof.
  rewrite !newer_eq_spec. destruct a as [t i], b as [t' i']; simpl.
  intros [?|[? ?]] [?|[? ?]]; try lia. f_equal; auto using bytes_le_antisym.
Qed.

Lemma dominated_newer_eq a b : dominated_by a b = newer_eq b a.
Proof. unfold dominated_by, newer_eq. by rewrite (Z.eqb_sym a.1). Qed.

Lemma newer_eq_false a b : newer_eq a b = false -> newer_eq b a = true /\ a <> b.
Proof.
  intros Hf. destruct (newer_eq_total a b) as [|Ht]; [congruence|].
  split; [done|]. intros ->. by rewrite newer_eq_refl in Hf.
Qed.

#[export] Instance row_order_total : Total row_order.
Proof. intros a b. apply newer_eq_total. Qed.
#[export] Instance row_order_trans : Transitive row_order.
Proof. intros a b c. apply newer_eq_trans. Qed.

Lemma elem_of_select p m k r : (k, r) ∈ select p m <-> m !! k = Some r /\ p k r = true.
Proof.
  unfold select. rewrite <-elem_of_map_to_list, !list_elem_of_In, filter_In. done.
Qed.

Lemma NoDup_select p m : NoDup (select p m).
Proof.
  unfold select. apply NoDup_ListNoDup, List.NoDup_filter, NoDup_ListNoDup, NoDup_map_to_list.
Qed.

Lemma select_ordered_perm p m : select_ordered p m ≡ₚ select p m.
Proof. apply merge_sort_Permutation. Qed.

Lemma select_ordered_sorted p m : StronglySorted row_order (select_ordered p m).
Proof. apply (StronglySorted_merge_sort row_order). Qed.

Lemma elem_of_select_ordered p m k r :
  (k, r) ∈ select_ordered p m <-> m !! k = Some r /\ p k r = true.
Proof. by rewrite select_ordered_perm, elem_of_select. Qed.

Lemma any_row_true p m :
  any_row p m = true <-> exists k r, m !! k = Some r /\ p k r = true.
Proof.
  unfold any_row. rewrite existsb_elem_of. split.
  - intros ([k r] & Hin%elem_of_map_to_list & Hp). eauto.
  - intros (k & r & Hk & Hp). exists (k, r). by rewrite elem_of_map_to_list.
Qed.

Lemma select_nonempty p m : 0 < Z.of_nat (length (select p m)) <-> any_row p m = true.
Proof.
  rewrite any_row_true. split.
  - destruct (select p m) as [|[k r] l] eqn:Hs; simpl; [lia|]. intros _. exists k, r.
    apply elem_of_select. rewrite Hs. left.
  - intros (k & r & Hkr%elem_of_select). destruct (select p m); [by apply elem_of_nil in Hkr|].
    simpl. lia.
Qed.

(** A transaction leaves the database as it was, or commits. *)
Lemma transaction_cases {D A : Type} env (m : method D DbError (TxEnd A)) db :
  fst (transaction env m db) = db \/
  exists db' a, m db = (db', Ok (Commit a)) /\
    transaction env m db = (db', if env_acked env then Ok a else Err Sqlx).
Proof.
  unfold transaction. destruct (m db) as [db' [[a|a]|e]]; [|by left..].
  destruct (env_commits env); [right; by exists db', a|by left].
Qed.

Lemma live_true r : live r = true <-> er_deleted_at r = None.
Proof. unfold live. by rewrite bool_decide_eq_true. Qed.

Lemma opt_eqb_true {A : Type} `{EqDecision A} (a b : option A) : opt_eqb a b = true <-> a = b.
Proof. unfold opt_eqb. by rewrite bool_decide_eq_true. Qed.

(** The newest live row of a selection, when no two are live. *)
Lemma live_head_None p db :
  live_head p db = None <-> forall k r, db_events db !! k = Some r -> p k r = true -> live r = false.
Proof.
  unfold live_head. rewrite fmap_None, head_None. split.
  - intros Hnil k r Hk Hp. apply not_true_iff_false. intros Hl.
    assert (Hin : (k, r) ∈ select_ordered (fun k r => p k r && live r) (db_events db)).
    { apply elem_of_select_ordered. by rewrite Hp, Hl. }
    rewrite Hnil in Hin. by apply elem_of_nil in Hin.
  - intros H. destruct (select_ordered _ _) as [|[k r] l] eqn:Hs; [done|].
    assert (Hin : (k, r) ∈ select_ordered (fun k r => p k r && live r) (db_events db))
      by (rewrite Hs; left).
    apply elem_of_select_ordered in Hin as [Hk [Hp Hl]%andb_true_iff].
    by rewrite (H k r Hk Hp) in Hl.
Qed.

Lemma live_head_Some p db k :
  live_head p db = Some k ->
  exists r, db_events db !! k = Some r /\ p k r = true /\ live r = true.
Proof.
  unfold live_head. intros ([k' r] & Hh & Heq)%fmap_Some. simpl in Heq. subst k.
  exists r. destruct (select_ordered _ _) as [|x l] eqn:Hs; [done|]. injection Hh as ->.
  assert (Hin : (k', r) ∈ select_ordered (fun k r => p k r && live r) (db_events db))
    by (rewrite Hs; left).
  apply elem_of_select_ordered in Hin as [Hk [Hp Hl]%andb_true_iff]. done.
Qed.

(** The mentions of an event touch no other table, and their failure is not reported. *)
Lemma insert_mentions_only `{S : StoreDeps} env community event channel_id db :
  exists m, insert_mentions_logged env community event channel_id db = (set_mentions m db, Ok tt).
Proof.
  assert (Hsame : db = set_mentions (db_mentions db) db) by by destruct db.
  unfold insert_mentions_logged, insert_mentions.
  destruct (env_mentions env); [|by exists (db_mentions db); rewrite <-Hsame].
  case_bool_decide; [by exists (db_mentions db); rewrite <-Hsame|].
  destruct (from_timestamp _); [|by exists (db_mentions db); rewrite <-Hsame].
  unfold m_modify. simpl. destruct (guard_event_mention_live _ _ _).
  - by eexists.
  - by exists (db_mentions db); rewrite <-Hsame.
Qed.

(** A concrete instance: the range of [chrono::DateTime<Utc>], and a deserialiser that
    accepts every object. *)
Module StoreReference.
#[export] Instance deps : StoreDeps := {|
  timestamp_valid t := (-8334601228800 <=? t) && (t <=? 8210266876799);
  event_from_value e := if 0 <=? ev_created_at e then Some e else None;
  db_error_text _ := "error"
|}.
#[export] Instance laws : StoreLaws deps.
Proof.
  split.
  - intros e e'. simpl. case_match; [|done]. by intros [= ->].
  - intros e e'. simpl. case_match; [|done]. lia.
  - intros t [H1 H2]%andb_true_iff. lia.
Qed.
End StoreReference.
