(* ===== verification/Replacement.v ===== *)
(** Replaceable events as a last-writer-wins map, and the read-state watermark.

    [replace_parameterized_event] keeps one live row per coordinate.  The theorems: whatever
    the order in which a set of events reaches the store, every coordinate ends with the same
    live row, the one that is latest by [(created_at, lowest id)]; and a read-state event,
    whose superseded versions are deleted physically, is never accepted after a version at or
    above it, whatever else the store does in between. *)
From S2P Require Import Prelude Nostr Kinds Filters Text EventStore.
Local Open Scope string_scope.
Local Open Scope list_scope.
Local Open Scope Z_scope.
Local Open Scope buzz_scope.

Section replacement.
Context `{S : StoreDeps}.

(** One call of [replace_parameterized_event] by the ingest pipeline. *)
Record Submission := mkSubmission {
  s_env : Env;
  s_community : Uuid;
  s_event : Event;
  s_channel_id : option Uuid
}.
Definition s_d_tag (s : Submission) : string := default EmptyString (extract_d_tag (s_event s)).
Definition coord_of (s : Submission) : Coord :=
  (s_community s, event_kind_i32 (s_event s), ev_pubkey (s_event s), s_d_tag s).
Definition created_of (s : Submission) : Z := to_i64 (ev_created_at (s_event s)).
Definition stamp_of (s : Submission) : Stamp := (created_of s, ev_id (s_event s)).
Definition key_of (s : Submission) : EventKey := event_key (s_community s) (created_of s) (s_event s).

Definition submit (s : Submission) : method Db DbError (StoredEvent * bool) :=
  replace_parameterized_event (s_env s) (s_community s) (s_event s) (s_d_tag s) (s_channel_id s).
Definition submit_all (l : list Submission) (db : Db) : Db := foldl (fun db s => fst (submit s db)) db l.

(** The version a coordinate shows. *)
Definition head_at (db : Db) (c : Coord) : option Stamp := ek_stamp <$> live_head (at_coord c) db.

(** The call reaches its commit. *)
Definition submittable (s : Submission) : Prop :=
  timestamp_valid (created_of s) = true /\ env_commits (s_env s) = true.
(** An event id names one event. *)
Definition ids_agree (l : list Submission) : Prop :=
  forall s s', s ∈ l -> s' ∈ l -> ev_id (s_event s) = ev_id (s_event s') -> s_event s = s_event s'.

Definition ids_checked (l : list Submission) : bool :=
  forallb (fun s => forallb (fun s' =>
    negb (bool_decide (ev_id (s_event s) = ev_id (s_event s')))
    || bool_decide (s_event s = s_event s')) l) l.
Lemma ids_agree_check l : ids_checked l = true -> ids_agree l.
Proof.
  unfold ids_checked. rewrite forallb_elem_of. setoid_rewrite forallb_elem_of.
  intros H s s' Hs Hs' Hid. specialize (H s Hs s' Hs').
  apply orb_true_iff in H as [H|H]; [|by apply bool_decide_eq_true in H].
  by rewrite bool_decide_eq_true_2 in H.
Qed.

(** ** The abstract map *)

Definition latest (o : option Stamp) (st : Stamp) : option Stamp :=
  match o with
  | None => Some st
  | Some b => if newer_eq b st then Some b else Some st
  end.
Definition best (l : list Stamp) : option Stamp := foldl latest None l.
Definition stamps (c : Coord) (l : list Submission) : list Stamp :=
  stamp_of <$> filter (fun s => coord_of s = c) l.

Lemma best_snoc l st : best (l ++ [st]) = latest (best l) st.
Proof. unfold best. by rewrite foldl_app. Qed.

Lemma best_spec l :
  match best l with
  | None => l = []
  | Some b => b ∈ l /\ forall x, x ∈ l -> newer_eq b x = true
  end.
Proof.
  induction l as [|x l IH] using rev_ind; [done|]. rewrite best_snoc.
  destruct (best l) as [b|]; simpl.
  - destruct IH as [Hin Hmax]. destruct (newer_eq b x) eqn:Hb.
    + split; [set_solver|]. intros y [Hy|Hy%list_elem_of_singleton]%elem_of_app; subst; auto.
    + apply newer_eq_false in Hb as [Hxb _]. split; [set_solver|].
      intros y [Hy|Hy%list_elem_of_singleton]%elem_of_app; subst; [|apply newer_eq_refl].
      eauto using newer_eq_trans.
  - subst l. simpl. split; [set_solver|]. intros y Hy%list_elem_of_singleton. subst.
    apply newer_eq_refl.
Qed.

Lemma best_unique l b : b ∈ l -> (forall x, x ∈ l -> newer_eq b x = true) -> best l = Some b.
Proof.
  intros Hin Hmax. pose proof (best_spec l) as Hs. destruct (best l) as [b'|]; [|set_solver].
  destruct Hs as [Hin' Hmax']. f_equal. apply newer_eq_antisym; auto.
Qed.

Lemma best_perm l l' : l ≡ₚ l' -> best l = best l'.
Proof.
  intros Hp. pose proof (best_spec l) as Hs. destruct (best l) as [b|].
  - destruct Hs as [Hin Hmax]. symmetry. apply best_unique; [by rewrite <-Hp|].
    intros x. rewrite <-Hp. apply Hmax.
  - subst l. by apply Permutation_nil in Hp as ->.
Qed.

Lemma elem_of_stamps c l st : st ∈ stamps c l <-> exists s, s ∈ l /\ coord_of s = c /\ stamp_of s = st.
Proof.
  unfold stamps. rewrite list_elem_of_fmap. setoid_rewrite list_elem_of_filter.
  split; intros (s & H); exists s; naive_solver.
Qed.

Lemma stamps_snoc c l s :
  stamps c (l ++ [s]) = if decide (coord_of s = c) then stamps c l ++ [stamp_of s] else stamps c l.
Proof.
  unfold stamps. rewrite filter_app, filter_cons. case_decide; simpl.
  - by rewrite filter_nil, fmap_app.
  - by rewrite filter_nil, app_nil_r.
Qed.

(** ** One replacement *)

(** [db1] is [db] after the live rows of [c] were deleted, softly or not. *)
Record cleared (c : Coord) (db db1 : Db) : Prop := {
  cl_live k r : db_events db1 !! k = Some r -> live r = true ->
    db_events db !! k = Some r /\ row_coord k r <> Some c;
  cl_back k r : db_events db1 !! k = Some r ->
    exists r0, db_events db !! k = Some r0 /\ row_coord k r = row_coord k r0;
  cl_keep k r : db_events db !! k = Some r -> row_coord k r <> Some c ->
    db_events db1 !! k = Some r;
  cl_marks : db_watermarks db1 = db_watermarks db
}.

Lemma at_coord_true c k r : at_coord c k r = true <-> row_coord k r = Some c.
Proof. apply opt_eqb_true. Qed.

Lemma cleared_nothing c db : live_head (at_coord c) db = None -> cleared c db db.
Proof.
  intros Hnone. split; eauto. intros k r Hk Hl. split; [done|]. intros Hc.
  apply at_coord_true in Hc. pose proof (proj1 (live_head_None _ _) Hnone k r Hk Hc). congruence.
Qed.

Lemma cleared_soft c now db :
  cleared c db (fst (soft_delete_where now (at_coord c) db)).
Proof.
  assert (Hlook : forall k, db_events (fst (soft_delete_where now (at_coord c) db)) !! k =
            r ← db_events db !! k;
            if at_coord c k r && live r then if purged r then None else Some (with_deleted_at now r)
            else Some r) by (intros k; apply map_lookup_imap).
  split; [intros k r|intros k r|intros k r Hk Hc|done]; rewrite Hlook.
  - intros (r0 & Hk & Hr)%bind_Some Hl.
    destruct (at_coord c k r0 && live r0) eqn:Hhit.
    { destruct (purged r0); [done|]. injection Hr as <-. by apply live_true in Hl. }
    injection Hr as ->. split; [done|]. intros Hc%at_coord_true. by rewrite Hc, Hl in Hhit.
  - intros (r0 & Hk & Hr)%bind_Some. exists r0. split; [done|].
    destruct (at_coord c k r0 && live r0); [destruct (purged r0); [done|]|]; by injection Hr as <-.
  - rewrite Hk. simpl. destruct (at_coord c k r) eqn:Hat; [|done].
    by apply at_coord_true in Hat.
Qed.

Lemma cleared_hard c gone db :
  cleared c db (set_mentions (delete_mentions gone (db_mentions db))
                  (fst (hard_delete_where (at_coord c) db))).
Proof.
  assert (Hlook : forall k, db_events (fst (hard_delete_where (at_coord c) db)) !! k =
            r ← db_events db !! k; if at_coord c k r && live r then None else Some r)
    by (intros k; apply map_lookup_imap).
  split; [intros k r|intros k r|intros k r Hk Hc|done];
    cbn [db_events set_mentions]; rewrite Hlook.
  - intros (r0 & Hk & Hr)%bind_Some Hl.
    destruct (at_coord c k r0 && live r0) eqn:Hhit; [done|]. injection Hr as ->.
    split; [done|]. intros Hc%at_coord_true. by rewrite Hc, Hl in Hhit.
  - intros (r0 & Hk & Hr)%bind_Some. exists r0.
    destruct (at_coord c k r0 && live r0); [done|]. by injection Hr as <-.
  - rewrite Hk. simpl. destruct (at_coord c k r) eqn:Hat; [|done].
    by apply at_coord_true in Hat.
Qed.

(** What the deletion part of [replace_parameterized_tx] does. *)
Definition clear_superseded (env : Env) (community : Uuid) (c : Coord) (hard : bool)
    (existing : option EventKey) : method Db DbError unit :=
  match existing with
  | None => m_ret tt
  | Some e =>
      if hard then
        do? _ <- hard_delete_where (at_coord c) ;;
        m_modify (fun db => set_mentions
          (delete_mentions (fun c' id => bool_decide (c' = community) && bool_decide (id = ek_id e))
             (db_mentions db)) db)
      else do? _ <- soft_delete_where (env_now env) (at_coord c) ;; m_ret tt
  end.

Lemma clear_superseded_ok env community c hard db :
  exists db1, clear_superseded env community c hard (live_head (at_coord c) db) db = (db1, Ok tt)
              /\ cleared c db db1.
Proof.
  unfold clear_superseded. destruct (live_head (at_coord c) db) as [e|] eqn:He.
  - destruct hard; eexists; (split; [reflexivity|]).
    + exact (cleared_hard c (fun c' id => bool_decide (c' = community)
                                         && bool_decide (id = ek_id e)) db).
    + apply cleared_soft.
  - eexists. split; [reflexivity|]. by apply cleared_nothing.
Qed.

(** The row a submission writes. *)
Definition row_of (s : Submission) : EventRow :=
  new_row (env_now (s_env s)) (s_event s) (s_channel_id s) (Some (s_d_tag s))
    (extract_not_before (s_event s)).
Definition nip_rs_of (s : Submission) : bool :=
  is_nip_rs (event_kind_i32 (s_event s)) (s_d_tag s) (ev_tags (s_event s)).

Lemma row_of_coord s : row_coord (key_of s) (row_of s) = Some (coord_of s).
Proof. done. Qed.
Lemma row_of_conforming s : conforming_read_state (row_of s) = nip_rs_of s.
Proof. done. Qed.

(** The insertion goes through when the watermark does not stand against it and the key is
    free; only the row and the watermark of its coordinate change. *)
Lemma insert_row_ok s db :
  db_events db !! key_of s = None ->
  (nip_rs_of s = true -> forall w, db_watermarks db !! coord_of s = Some w ->
     newer_eq w (stamp_of s) = false) ->
  exists db', insert_row (key_of s) (row_of s) db = (db', Ok true) /\
    db_events db' = <[key_of s := row_of s]> (db_events db) /\
    db_watermarks db' = (if nip_rs_of s then <[coord_of s := stamp_of s]> (db_watermarks db)
                         else db_watermarks db).
Proof.
  intros Hfree Hw. unfold insert_row, guard_nip_rs_watermark.
  rewrite row_of_conforming, row_of_coord. destruct (nip_rs_of s).
  - specialize (Hw eq_refl). destruct (db_watermarks db !! coord_of s) as [w|] eqn:Hm.
    + change (ek_stamp (key_of s)) with (stamp_of s). rewrite (Hw w eq_refl). simpl.
      rewrite Hfree. by eexists.
    + simpl. rewrite Hfree. by eexists.
  - simpl. rewrite Hfree. by eexists.
Qed.

(** The stale-write check of a submission. *)
Definition stale (s : Submission) (db : Db) : bool :=
  existsb (dominated_by (stamp_of s))
    ((ek_stamp <$> option_list (live_head (at_coord (coord_of s)) db))
     ++ option_list (if nip_rs_of s then db_watermarks db !! coord_of s else None)).

Definition tx_of (s : Submission) : method Db DbError (TxEnd (StoredEvent * bool)) :=
  replace_parameterized_tx (s_env s) (s_community s) (s_event s) (s_d_tag s) (s_channel_id s)
    (created_of s).

Lemma tx_stale s db : stale s db = true ->
  tx_of s db = (db, Ok (Rollback (unverified (s_env s) (s_event s) (s_channel_id s)))).
Proof.
  intros Hst. unfold tx_of, replace_parameterized_tx.
  erewrite m_bind_run by reflexivity. erewrite m_bind_run by reflexivity.
  change (existsb _ _) with (stale s db). by rewrite Hst.
Qed.

Lemma tx_fresh s db : stale s db = false ->
  exists db1, cleared (coord_of s) db db1 /\
    (db_events db1 !! key_of s = None ->
     exists db', tx_of s db = (db', Ok (Commit (verified (s_env s) (s_event s) (s_channel_id s)))) /\
       db_events db' = <[key_of s := row_of s]> (db_events db1) /\
       db_watermarks db' = (if nip_rs_of s then <[coord_of s := stamp_of s]> (db_watermarks db)
                            else db_watermarks db)).
Proof.
  intros Hfresh. pose proof (clear_superseded_ok (s_env s) (s_community s) (coord_of s)
    (nip_rs_of s || is_buzz_mesh_status (event_kind_i32 (s_event s)) (s_d_tag s)
                      (ev_tags (s_event s))) db) as (db1 & Hclear & Hdb1).
  exists db1. split; [done|]. intros Hfree.
  assert (Hmark : nip_rs_of s = true -> forall w, db_watermarks db1 !! coord_of s = Some w ->
                    newer_eq w (stamp_of s) = false).
  { intros Hn w. rewrite (cl_marks _ _ _ Hdb1). intros Hw. unfold stale in Hfresh.
    rewrite Hn, Hw, existsb_app in Hfresh. apply orb_false_iff in Hfresh as [_ Hfresh].
    simpl in Hfresh. by rewrite orb_false_r, dominated_newer_eq in Hfresh. }
  destruct (insert_row_ok s db1 Hfree Hmark) as (db2 & Hins & Hev & Hwm).
  rewrite (cl_marks _ _ _ Hdb1) in Hwm.
  exists (if nip_rs_of s then set_watermarks (<[coord_of s := stamp_of s]> (db_watermarks db2)) db2
          else db2).
  split; [|destruct (nip_rs_of s); simpl; [rewrite Hwm, insert_insert_eq|]; done].
  unfold tx_of, replace_parameterized_tx.
  erewrite m_bind_run by reflexivity. erewrite m_bind_run by reflexivity.
  change (existsb _ _) with (stale s db). rewrite Hfresh.
  erewrite m_bind_run by exact Hclear. erewrite m_bind_run by exact Hins.
  change (is_nip_rs _ _ _) with (nip_rs_of s). by destruct (nip_rs_of s).
Qed.

(** A call that reaches its commit either finds something at least as new and changes
    nothing, or deletes the live row and inserts its own. *)
Lemma submit_spec s db : submittable s ->
  (stale s db = true -> fst (submit s db) = db) /\
  (stale s db = false ->
   exists db1, cleared (coord_of s) db db1 /\
     (db_events db1 !! key_of s = None ->
      db_events (fst (submit s db)) = <[key_of s := row_of s]> (db_events db1) /\
      db_watermarks (fst (submit s db)) =
        (if nip_rs_of s then <[coord_of s := stamp_of s]> (db_watermarks db)
         else db_watermarks db))).
Proof.
  intros [Hts Hcommit].
  assert (Hsub : submit s db =
    (do? out <- transaction (s_env s) (tx_of s) ;;
     do? _ <- (if snd out then insert_mentions_logged (s_env s) (s_community s) (s_event s)
                                 (s_channel_id s) else m_ret tt) ;;
     m_ret out) db).
  { unfold submit, replace_parameterized_event, replacing, from_timestamp.
    fold (created_of s). by rewrite Hts. }
  rewrite Hsub. unfold m_bind at 1 3 5, transaction. split; intros Hst.
  - by rewrite (tx_stale s db Hst).
  - destruct (tx_fresh s db Hst) as (db1 & Hclear & Hins). exists db1. split; [done|].
    intros (db' & -> & Hev & Hwm)%Hins. rewrite Hcommit. cbn [negb].
    destruct (env_acked (s_env s)); [|done]. unfold m_bind.
    destruct (insert_mentions_only (s_env s) (s_community s) (s_event s) (s_channel_id s) db')
      as (m & Hm).
    cbn [snd verified]. by rewrite Hm.
Qed.

(** ** Every coordinate shows its latest submission *)

(** After the submissions [l], the rows are theirs and the live row of a coordinate is the
    latest of its submissions. *)
Record converged (l : list Submission) (db : Db) : Prop := {
  cv_rows k r : db_events db !! k = Some r ->
    exists s, s ∈ l /\ k = key_of s /\ row_coord k r = Some (coord_of s);
  cv_live c k r : db_events db !! k = Some r -> row_coord k r = Some c -> live r = true ->
    best (stamps c l) = Some (ek_stamp k);
  cv_head c st : best (stamps c l) = Some st ->
    exists k r, db_events db !! k = Some r /\ row_coord k r = Some c /\ live r = true;
  cv_marks c w : db_watermarks db !! c = Some w -> w ∈ stamps c l
}.

Lemma converged_empty : converged [] empty_db.
Proof. by split. Qed.

Lemma converged_head l db c : converged l db -> head_at db c = best (stamps c l).
Proof.
  intros Hcv. unfold head_at. destruct (live_head (at_coord c) db) as [k|] eqn:Hh; simpl.
  - apply live_head_Some in Hh as (r & Hk & Hc%at_coord_true & Hl). symmetry. by eapply cv_live.
  - destruct (best (stamps c l)) as [st|] eqn:Hb; [|done].
    destruct (cv_head _ _ Hcv c st Hb) as (k & r & Hk & Hc%at_coord_true & Hl).
    by rewrite (proj1 (live_head_None _ _) Hh k r Hk Hc) in Hl.
Qed.

Lemma stale_spec l db s : converged l db ->
  stale s db = match best (stamps (coord_of s) l) with
               | Some b => newer_eq b (stamp_of s)
               | None => false
               end.
Proof.
  intros Hcv. unfold stale. rewrite <-(converged_head l db (coord_of s) Hcv).
  assert (Hmarks : forall w, db_watermarks db !! coord_of s = Some w ->
            newer_eq w (stamp_of s) = true ->
            exists b, head_at db (coord_of s) = Some b /\ newer_eq b (stamp_of s) = true).
  { intros w Hw%(cv_marks _ _ Hcv) Hn. rewrite (converged_head l db _ Hcv).
    pose proof (best_spec (stamps (coord_of s) l)) as Hb.
    destruct (best _) as [b|]; [|by rewrite Hb in Hw; apply elem_of_nil in Hw].
    exists b. split; [done|]. destruct Hb as [_ Hmax]. eapply newer_eq_trans; [by apply Hmax|done]. }
  unfold head_at in *. rewrite existsb_app.
  destruct (nip_rs_of s); [destruct (db_watermarks db !! coord_of s) as [w|]|];
    destruct (live_head _ db) as [k|]; simpl;
    rewrite ?dominated_newer_eq, ?orb_false_r; try done.
  - destruct (newer_eq (ek_stamp k) _) eqn:Hk; [done|]. simpl. apply not_true_iff_false.
    intros Hn. destruct (Hmarks w eq_refl Hn) as (b & [= <-] & Hb). congruence.
  - apply not_true_iff_false. intros Hn. by destruct (Hmarks w eq_refl Hn) as (b & ? & _).
Qed.

Lemma stamps_other c l s : coord_of s <> c -> stamps c (l ++ [s]) = stamps c l.
Proof. intros Hc. rewrite stamps_snoc. by case_decide. Qed.
Lemma stamps_same l s : stamps (coord_of s) (l ++ [s]) = stamps (coord_of s) l ++ [stamp_of s].
Proof. rewrite stamps_snoc. by case_decide. Qed.

(** A submission that is not stale makes its own event the latest of its coordinate. *)
Lemma best_fresh l db s : converged l db -> stale s db = false ->
  best (stamps (coord_of s) (l ++ [s])) = Some (stamp_of s).
Proof.
  intros Hcv. rewrite (stale_spec l db s Hcv), stamps_same, best_snoc.
  destruct (best _) as [b|]; simpl; [|done]. by intros ->.
Qed.
Lemma best_stale l db s c : converged l db -> stale s db = true ->
  best (stamps c (l ++ [s])) = best (stamps c l).
Proof.
  intros Hcv. rewrite (stale_spec l db s Hcv).
  destruct (decide (coord_of s = c)) as [<-|Hc]; [|by rewrite stamps_other].
  rewrite stamps_same, best_snoc. destruct (best _) as [b|]; simpl; [|done]. by intros ->.
Qed.

(** The key of a submission that is not stale is free. *)
Lemma fresh_key_free l db s : converged l db -> stale s db = false -> ids_agree (l ++ [s]) ->
  db_events db !! key_of s = None.
Proof.
  intros Hcv Hst Hids. destruct (db_events db !! key_of s) as [r|] eqn:Hk; [exfalso|done].
  destruct (cv_rows _ _ Hcv _ _ Hk) as (s' & Hs' & Hkey & _).
  injection Hkey as Hcom Hts Hid.
  assert (Hev : s_event s = s_event s') by (apply Hids; set_solver).
  assert (Hin : stamp_of s ∈ stamps (coord_of s) l).
  { apply elem_of_stamps. exists s'. unfold coord_of, stamp_of, s_d_tag, created_of.
    by rewrite Hcom, Hev. }
  rewrite (stale_spec l db s Hcv) in Hst. pose proof (best_spec (stamps (coord_of s) l)) as Hb.
  destruct (best _) as [b|]; [|by rewrite Hb in Hin; apply elem_of_nil in Hin].
  by rewrite (proj2 Hb _ Hin) in Hst.
Qed.

Lemma converged_stale l db s : converged l db -> stale s db = true -> converged (l ++ [s]) db.
Proof.
  intros Hcv Hst. split.
  - intros k r Hk. destruct (cv_rows _ _ Hcv k r Hk) as (s' & Hs' & H). exists s'. set_solver.
  - intros c. rewrite (best_stale l db s c Hcv Hst). apply (cv_live _ _ Hcv).
  - intros c. rewrite (best_stale l db s c Hcv Hst). apply (cv_head _ _ Hcv).
  - intros c w Hw%(cv_marks _ _ Hcv). rewrite elem_of_stamps in *. set_solver.
Qed.

Lemma converged_fresh l db s db1 db' :
  converged l db -> stale s db = false -> db_events db !! key_of s = None ->
  cleared (coord_of s) db db1 ->
  db_events db' = <[key_of s := row_of s]> (db_events db1) ->
  db_watermarks db' = (if nip_rs_of s then <[coord_of s := stamp_of s]> (db_watermarks db)
                       else db_watermarks db) ->
  converged (l ++ [s]) db'.
Proof.
  intros Hcv Hst Hfree Hcl Hev Hwm. split.
  - intros k r. rewrite Hev, lookup_insert_Some. intros [[<- <-]|[_ Hk]].
    { exists s. split; [set_solver|done]. }
    destruct (cl_back _ _ _ Hcl k r Hk) as (r0 & Hk0 & ->).
    destruct (cv_rows _ _ Hcv k r0 Hk0) as (s' & Hs' & H). exists s'. set_solver.
  - intros c k r. rewrite Hev, lookup_insert_Some. intros [[<- <-]|[_ Hk]] Hc Hl.
    { rewrite row_of_coord in Hc. injection Hc as <-. by eapply best_fresh. }
    destruct (cl_live _ _ _ Hcl k r Hk Hl) as [Hk0 Hne].
    rewrite stamps_other by congruence. by eapply cv_live.
  - intros c st Hb. destruct (decide (coord_of s = c)) as [<-|Hne].
    { exists (key_of s), (row_of s). rewrite Hev, lookup_insert_eq. done. }
    rewrite stamps_other in Hb by done.
    destruct (cv_head _ _ Hcv c st Hb) as (k & r & Hk & Hc & Hl). exists k, r.
    split; [|done]. rewrite Hev, lookup_insert_ne; [apply (cl_keep _ _ _ Hcl); congruence|].
    congruence.
  - intros c w. rewrite Hwm. destruct (nip_rs_of s); [rewrite lookup_insert_Some; intros [[<- <-]|[_ Hw]]|intros Hw].
    + apply elem_of_stamps. exists s. set_solver.
    + apply (cv_marks _ _ Hcv) in Hw. rewrite elem_of_stamps in *. set_solver.
    + apply (cv_marks _ _ Hcv) in Hw. rewrite elem_of_stamps in *. set_solver.
Qed.

Lemma converged_submit l db s :
  converged l db -> submittable s -> ids_agree (l ++ [s]) ->
  converged (l ++ [s]) (fst (submit s db)).
Proof.
  intros Hcv Hok Hids. destruct (submit_spec s db Hok) as [Hstale Hfresh].
  destruct (stale s db) eqn:Hst; [rewrite (Hstale eq_refl); by apply converged_stale|].
  destruct (Hfresh eq_refl) as (db1 & Hcl & Hins).
  pose proof (fresh_key_free l db s Hcv Hst Hids) as Hfree.
  assert (Hfree1 : db_events db1 !! key_of s = None).
  { destruct (db_events db1 !! key_of s) as [r|] eqn:Hk; [|done].
    destruct (cl_back _ _ _ Hcl _ _ Hk) as (r0 & Hk0 & _). congruence. }
  destruct (Hins Hfree1) as [Hev Hwm]. by eapply converged_fresh.
Qed.

Lemma converged_all l : Forall submittable l -> ids_agree l ->
  converged l (submit_all l empty_db).
Proof.
  induction l as [|s l IH] using rev_ind; [intros; apply converged_empty|].
  intros [Hl Hs]%Forall_app Hids. unfold submit_all. rewrite foldl_app. simpl.
  apply converged_submit; [|by inversion Hs|done].
  apply IH; [done|]. intros s1 s2 H1 H2. apply Hids; set_solver.
Qed.

(** What a coordinate should show after the submissions [l]: the latest of its events, the
    lowest id among those of the latest second. *)
Definition shows_latest (l : list Submission) (db : Db) (c : Coord) : Prop :=
  match head_at db c with
  | None => forall s, s ∈ l -> coord_of s <> c
  | Some b => (exists s, s ∈ l /\ coord_of s = c /\ stamp_of s = b) /\
              (forall s, s ∈ l -> coord_of s = c -> newer_eq b (stamp_of s) = true)
  end.

(** C18: Whatever the order in which a set of parameterized events reaches the store, every
    coordinate ends with the same version, the latest, and no two rows of a coordinate are
    live: a late, repeated or reordered delivery changes nothing. *)
Theorem replacement_converges (l l' : list Submission) :
  l ≡ₚ l' -> Forall submittable l -> ids_agree l ->
  forall c,
    head_at (submit_all l empty_db) c = head_at (submit_all l' empty_db) c /\
    shows_latest l (submit_all l empty_db) c /\
    (forall k1 r1 k2 r2,
       db_events (submit_all l empty_db) !! k1 = Some r1 ->
       db_events (submit_all l empty_db) !! k2 = Some r2 ->
       row_coord k1 r1 = Some c -> row_coord k2 r2 = Some c ->
       live r1 = true -> live r2 = true -> k1 = k2).
Proof.
  intros Hp Hok Hids c.
  assert (Hok' : Forall submittable l') by by rewrite <-Hp.
  assert (Hids' : ids_agree l') by (intros s1 s2; rewrite <-Hp; apply Hids).
  pose proof (converged_all l Hok Hids) as Hcv. pose proof (converged_all l' Hok' Hids') as Hcv'.
  split; [|split].
  - rewrite (converged_head _ _ c Hcv), (converged_head _ _ c Hcv').
    apply best_perm. unfold stamps. by rewrite Hp.
  - unfold shows_latest. rewrite (converged_head _ _ c Hcv).
    pose proof (best_spec (stamps c l)) as Hb. destruct (best _) as [b|].
    + destruct Hb as [Hin Hmax]. split; [by apply elem_of_stamps|].
      intros s Hs Hc. apply Hmax, elem_of_stamps. eauto.
    + intros s Hs Hc. assert (Hin : stamp_of s ∈ stamps c l) by (apply elem_of_stamps; eauto).
      rewrite Hb in Hin. by apply elem_of_nil in Hin.
  - intros [[c1 t1] i1] r1 [[c2 t2] i2] r2 H1 H2 Hc1 Hc2 Hl1 Hl2.
    pose proof (cv_live _ _ Hcv c _ _ H1 Hc1 Hl1) as Hb1.
    pose proof (cv_live _ _ Hcv c _ _ H2 Hc2 Hl2) as Hb2.
    rewrite Hb1 in Hb2. unfold row_coord in Hc1, Hc2.
    apply fmap_Some in Hc1 as (d1 & _ & Hc1). apply fmap_Some in Hc2 as (d2 & _ & Hc2).
    unfold ek_stamp, ek_created_at, ek_id, ek_community in *. simpl in *. simplify_eq. done.
Qed.

(** ** The read-state watermark *)

(** One call of any function that writes the store. *)
Inductive db_step : Db -> Db -> Prop :=
| step_insert env c e ch db : db_step db (fst (insert_event env c e ch db))
| step_insert_thread env c e ch meta db :
    db_step db (fst (insert_event_with_thread_metadata env c e ch meta db))
| step_addressable env c e ch db : db_step db (fst (replace_addressable_event env c e ch db))
| step_parameterized env c e d ch db :
    db_step db (fst (replace_parameterized_event env c e d ch db))
| step_delete env c i db : db_step db (fst (soft_delete_event env c i db))
| step_delete_coordinate env c kind pk d at_ db :
    db_step db (fst (soft_delete_by_coordinate env c kind pk d at_ db))
| step_delete_discovery env c ch pk db :
    db_step db (fst (soft_delete_discovery_events env c ch pk db))
| step_delete_thread env c i parent root db :
    db_step db (fst (soft_delete_event_and_update_thread env c i parent root db))
| step_claim c i at_ stamp db : db_step db (fst (claim_due_reminder_with_stamp c i at_ stamp db))
| step_release c i at_ stamp db : db_step db (fst (release_due_reminder c i at_ stamp db)).

(** The columns no statement changes. *)
Definition same_version (r r' : EventRow) : Prop :=
  er_pubkey r = er_pubkey r' /\ er_kind r = er_kind r' /\ er_tags r = er_tags r' /\
  er_d_tag r = er_d_tag r'.

(** The store holds this version under key [k]. *)
Definition holds_version (k : EventKey) (r : EventRow) (db : Db) : Prop :=
  exists r0, db_events db !! k = Some r0 /\ same_version r0 r.
(** The version comes into being. *)
Definition appears (k : EventKey) (r : EventRow) (db db' : Db) : Prop :=
  ~ holds_version k r db /\ holds_version k r db'.

(** What every statement does to the watermarks: they only advance, and a read-state row
    that appears was above the watermark before and is at or below it after. *)
Record guarded (db db' : Db) : Prop := {
  gd_marks c w : db_watermarks db !! c = Some w ->
    exists w', db_watermarks db' !! c = Some w' /\ newer_eq w' w = true;
  gd_new k r c : appears k r db db' -> conforming_read_state r = true -> row_coord k r = Some c ->
    (forall w, db_watermarks db !! c = Some w -> newer_eq w (ek_stamp k) = false) /\
    exists w', db_watermarks db' !! c = Some w' /\ newer_eq w' (ek_stamp k) = true
}.

Lemma same_version_conforming r r' :
  same_version r r' -> conforming_read_state r = conforming_read_state r'.
Proof. intros (_ & Hk & Ht & Hd). unfold conforming_read_state. by rewrite Hk, Ht, Hd. Qed.
Lemma same_version_coord k r r' : same_version r r' -> row_coord k r = row_coord k r'.
Proof. intros (Hp & Hk & _ & Hd). unfold row_coord. by rewrite Hp, Hk, Hd. Qed.
#[local] Instance same_version_refl : Reflexive same_version.
Proof. by intros r. Qed.
#[local] Instance same_version_trans : Transitive same_version.
Proof. unfold same_version. intros r1 r2 r3 (-> & -> & -> & ->) (-> & -> & -> & ->). done. Qed.

#[local] Instance guarded_refl : Reflexive guarded.
Proof.
  intros db. split; [|by intros k r c [H1 H2]].
  intros c w Hw. exists w. split; [done|apply newer_eq_refl].
Qed.

Lemma holds_version_dec k r db : holds_version k r db \/ ~ holds_version k r db.
Proof.
  unfold holds_version, same_version. destruct (db_events db !! k) as [r0|]; [|right; naive_solver].
  destruct (decide (er_pubkey r0 = er_pubkey r /\ er_kind r0 = er_kind r /\
                    er_tags r0 = er_tags r /\ er_d_tag r0 = er_d_tag r)); [left|right]; naive_solver.
Qed.

#[local] Instance guarded_trans : Transitive guarded.
Proof.
  intros a b d Hab Hbd. split.
  - intros c w Hw. destruct (gd_marks _ _ Hab c w Hw) as (w1 & Hw1 & Hn1).
    destruct (gd_marks _ _ Hbd c w1 Hw1) as (w2 & Hw2 & Hn2).
    exists w2. split; [done|]. by eapply newer_eq_trans.
  - intros k r c [Hno Hyes] Hconf Hc. destruct (holds_version_dec k r b) as [Hb|Hb].
    + destruct (gd_new _ _ Hab k r c (conj Hno Hb) Hconf Hc) as [Hold (w1 & Hw1 & Hn1)].
      split; [done|]. destruct (gd_marks _ _ Hbd c w1 Hw1) as (w2 & Hw2 & Hn2).
      exists w2. split; [done|]. by eapply newer_eq_trans.
    + destruct (gd_new _ _ Hbd k r c (conj Hb Hyes) Hconf Hc) as [Hold Hnew].
      split; [|done]. intros w Hw. destruct (gd_marks _ _ Hab c w Hw) as (w1 & Hw1 & Hn1).
      apply not_true_iff_false. intros Hn.
      pose proof (Hold w1 Hw1). pose proof (newer_eq_trans _ _ _ Hn1 Hn). congruence.
Qed.

(** The statements and calls that are guarded. *)
Definition keeps_guard {A : Type} (m : method Db DbError A) : Prop := forall db, guarded db (fst (m db)).

Lemma keeps_bind {A B : Type} (m : method Db DbError A) (k : A -> method Db DbError B) :
  keeps_guard m -> (forall a, keeps_guard (k a)) -> keeps_guard (m_bind m k).
Proof.
  intros Hm Hk db. unfold m_bind. specialize (Hm db). destruct (m db) as [db1 [a|e]]; [|done].
  etrans; [exact Hm|]. apply Hk.
Qed.
Lemma keeps_ret {A : Type} (a : A) : keeps_guard (m_ret a).
Proof. by intros db. Qed.
Lemma keeps_fail {A : Type} (e : DbError) : keeps_guard (m_fail (A := A) e).
Proof. by intros db. Qed.
Lemma keeps_read {A : Type} (f : Db -> result A DbError) : keeps_guard (m_read f).
Proof. by intros db. Qed.
Lemma keeps_transaction {A : Type} env (m : method Db DbError (TxEnd A)) :
  keeps_guard m -> keeps_guard (transaction env m).
Proof.
  intros Hm db. unfold transaction. specialize (Hm db). destruct (m db) as [db1 [[a|a]|e]];
    [destruct (env_commits env), (env_acked env)| |]; done.
Qed.

(** A statement that adds no version and leaves the watermarks. *)
Lemma guarded_shrink db db' :
  db_watermarks db' = db_watermarks db ->
  (forall k r, db_events db' !! k = Some r -> holds_version k r db) ->
  guarded db db'.
Proof.
  intros Hwm Hold. split.
  - intros c w Hw. exists w. rewrite Hwm. split; [done|apply newer_eq_refl].
  - intros k r c [Hno (r0 & Hk & Hs)] _ _. destruct Hno.
    destruct (Hold k r0 Hk) as (r1 & Hk1 & Hs1). exists r1. split; [done|]. by transitivity r0.
Qed.
Lemma guarded_events db db' :
  db_watermarks db' = db_watermarks db -> db_events db' = db_events db -> guarded db db'.
Proof. intros Hwm Hev. apply guarded_shrink; [done|]. intros k r. rewrite Hev. by exists r. Qed.

Lemma keeps_soft_delete now p : keeps_guard (soft_delete_where now p).
Proof.
  intros db. apply guarded_shrink; [done|]. intros k r. simpl. rewrite map_lookup_imap.
  intros (r0 & Hk & Hr)%bind_Some. exists r0. split; [done|].
  destruct (p k r0 && live r0); [destruct (purged r0); [done|]|]; by injection Hr as <-.
Qed.
Lemma keeps_hard_delete p : keeps_guard (hard_delete_where p).
Proof.
  intros db. apply guarded_shrink; [done|]. intros k r. simpl. rewrite map_lookup_imap.
  intros (r0 & Hk & Hr)%bind_Some. exists r0. split; [done|].
  destruct (p k r0 && live r0); [done|]. by injection Hr as <-.
Qed.

(** A plain insertion, and one that advances the watermark. *)
Lemma guarded_insert_other k r db :
  db_events db !! k = None -> conforming_read_state r = false ->
  guarded db (set_events (<[k := r]> (db_events db)) db).
Proof.
  intros Hfree Hconf. split.
  - intros c w Hw. exists w. split; [done|apply newer_eq_refl].
  - intros k' r' c [Hno (r1 & Hk1 & Hs)] Hconf' _. exfalso. simpl in Hk1.
    apply lookup_insert_Some in Hk1 as [[<- <-]|[_ Hk1]]; [|by destruct Hno; exists r1].
    apply same_version_conforming in Hs. congruence.
Qed.

Lemma guarded_advance k r c db db' :
  row_coord k r = Some c ->
  (forall w, db_watermarks db !! c = Some w -> newer_eq w (ek_stamp k) = false) ->
  db_watermarks db' = <[c := ek_stamp k]> (db_watermarks db) ->
  (forall k' r', db_events db' !! k' = Some r' ->
     (k' = k /\ r' = r) \/ db_events db !! k' = Some r') ->
  guarded db db'.
Proof.
  intros Hc Hadv Hwm Hev. split.
  - intros c' w Hw. rewrite Hwm. destruct (decide (c = c')) as [<-|Hne].
    + exists (ek_stamp k). rewrite lookup_insert_eq. split; [done|].
      by apply newer_eq_false, Hadv.
    + exists w. rewrite lookup_insert_ne by done. split; [done|apply newer_eq_refl].
  - intros k' r' c' [Hno (r1 & Hk1 & Hs)] Hconf' Hc'. rewrite Hwm.
    destruct (Hev _ _ Hk1) as [[-> ->]|Hk1']; [|by destruct Hno; exists r1].
    rewrite (same_version_coord k _ _ Hs), Hc' in Hc. injection Hc as ->.
    rewrite lookup_insert_eq. split; [done|]. exists (ek_stamp k). split; [done|apply newer_eq_refl].
Qed.

(** The insertion, and the watermark it leaves for a read-state row. *)
Lemma insert_row_guard k r db :
  guarded db (fst (insert_row k r db)) /\
  (snd (insert_row k r db) = Ok true -> conforming_read_state r = true ->
   forall c, row_coord k r = Some c ->
   db_watermarks (fst (insert_row k r db)) !! c = Some (ek_stamp k)).
Proof.
  unfold insert_row, guard_nip_rs_watermark.
  destruct (conforming_read_state r) eqn:Hconf; cycle 1.
  { destruct (db_events db !! k) as [r0|] eqn:Hk; [done|].
    split; [by apply guarded_insert_other|done]. }
  destruct (row_coord k r) as [c|] eqn:Hc; cycle 1.
  { exfalso. unfold conforming_read_state in Hconf. unfold row_coord in Hc.
    by destruct (er_d_tag r). }
  set (advanced := match db_watermarks db !! c with None => true | Some w => _ end).
  destruct advanced eqn:Ha; cycle 1.
  { by case_bool_decide. }
  assert (Hadv : forall w, db_watermarks db !! c = Some w -> newer_eq w (ek_stamp k) = false).
  { intros w Hw. subst advanced. rewrite Hw in Ha. by apply negb_true_iff in Ha. }
  cbn [db_events set_watermarks]. destruct (db_events db !! k) as [r0|] eqn:Hk.
  - split; [|done]. apply (guarded_advance k r c); auto.
  - split; [|intros _ _ c' [= <-]; apply lookup_insert_eq].
    apply (guarded_advance k r c); [done..|]. intros k' r'. simpl.
    rewrite lookup_insert_Some. naive_solver.
Qed.

Lemma keeps_insert_row k r : keeps_guard (insert_row k r).
Proof. intros db. apply insert_row_guard. Qed.
Lemma keeps_mentions env c e ch : keeps_guard (insert_mentions_logged env c e ch).
Proof.
  intros db. destruct (insert_mentions_only env c e ch db) as (m & ->). by apply guarded_events.
Qed.
Lemma keeps_thread_row k t : keeps_guard (insert_thread_row k t).
Proof.
  intros db. unfold insert_thread_row. destruct (db_threads db !! k); [done|].
  by apply guarded_events.
Qed.
Lemma keeps_update_thread c i f : keeps_guard (update_thread c i f).
Proof. intros db. by apply guarded_events. Qed.
Lemma keeps_set_mentions (f : Db -> gmap MentionKey MentionRow) :
  keeps_guard (m_modify (fun db => set_mentions (f db) db)).
Proof. intros db. by apply guarded_events. Qed.
#[local] Hint Resolve keeps_ret keeps_fail keeps_read keeps_transaction keeps_soft_delete
  keeps_hard_delete keeps_insert_row keeps_mentions keeps_thread_row keeps_update_thread
  keeps_set_mentions : guard.

(** Walks through the calls of an operation. *)
Ltac keeps := repeat first
  [ progress auto with guard nocore
  | apply keeps_transaction
  | apply keeps_bind; [|intros ?]
  | match goal with |- keeps_guard (let _ := _ in _) => cbv zeta end
  | match goal with |- keeps_guard (match ?x with _ => _ end) => destruct x end ].

Lemma keeps_insert_event_row env c e ch : keeps_guard (insert_event_row env c e ch).
Proof. unfold insert_event_row. keeps. Qed.
#[local] Hint Resolve keeps_insert_event_row : guard.

(** The row of [replace_parameterized_event] and the watermark written after it: the guard
    has already put the watermark there. *)
Lemma keeps_insert_marked k r c (nip_rs : bool) (a b : TxEnd (StoredEvent * bool)) :
  row_coord k r = Some c -> (nip_rs = true -> conforming_read_state r = true) ->
  keeps_guard
    (do? was_inserted <- insert_row k r ;;
     if was_inserted then
       do? _ <- (if nip_rs then
                   m_modify (fun db => set_watermarks (<[c := ek_stamp k]> (db_watermarks db)) db)
                 else m_ret tt) ;;
       m_ret a
     else m_ret b).
Proof.
  intros Hc Hconf db. destruct (insert_row_guard k r db) as [Hg Hmark].
  unfold m_bind at 1. destruct (insert_row k r db) as [db1 [[]|e]]; [|done..].
  destruct nip_rs; [|done]. etrans; [exact Hg|]. simpl in *.
  specialize (Hmark eq_refl (Hconf eq_refl) c Hc).
  apply guarded_events; [|done]. simpl. by apply insert_id.
Qed.

Lemma keeps_replacing env c e ch tx :
  (forall created_at, keeps_guard (tx created_at)) -> keeps_guard (replacing env c e ch tx).
Proof. intros Htx. unfold replacing. keeps; apply Htx. Qed.

Lemma keeps_parameterized_tx env c e d ch at_ :
  keeps_guard (replace_parameterized_tx env c e d ch at_).
Proof.
  unfold replace_parameterized_tx.
  apply keeps_bind; [apply keeps_read|intros existing].
  apply keeps_bind; [apply keeps_read|intros watermark].
  destruct (existsb _ _); [apply keeps_ret|].
  apply keeps_bind; [destruct existing; keeps|intros _].
  by eapply (keeps_insert_marked (event_key c at_ e)).
Qed.
#[local] Hint Resolve keeps_replacing keeps_parameterized_tx : guard.

Lemma step_guarded db db' : db_step db db' -> guarded db db'.
Proof.
  assert (Hclaim : forall k f, (forall r, same_version r (f r)) -> forall db r,
            db_events db !! k = Some r -> guarded db (set_events (<[k := f r]> (db_events db)) db)).
  { intros k f Hf db0 r Hk. apply guarded_shrink; [done|]. intros k' r'. simpl.
    rewrite lookup_insert_Some. intros [[<- <-]|[_ Hk']]; [by exists r|by exists r']. }
  destruct 1; revert db; match goal with
    | |- forall db, guarded db (fst (?m db)) => change (keeps_guard m)
    | _ => idtac
    end.
  - unfold insert_event, insert_event_statement. keeps.
  - unfold insert_event_with_thread_metadata, insert_event_with_thread_metadata_tx,
      insert_thread_metadata, count_reply. keeps.
  - unfold replace_addressable_event. apply keeps_replacing. intros at_.
    unfold replace_addressable_tx. keeps.
  - unfold replace_parameterized_event. keeps.
  - unfold soft_delete_event. keeps.
  - unfold soft_delete_by_coordinate. keeps.
  - unfold soft_delete_discovery_events. keeps.
  - unfold soft_delete_event_and_update_thread. keeps.
  - intros db. unfold claim_due_reminder_with_stamp.
    destruct (db_events db !! _) as [r|] eqn:Hk; [|done]. case_bool_decide; [|done].
    by apply (Hclaim _ (with_delivered_at (Some stamp))).
  - intros db. unfold release_due_reminder.
    destruct (db_events db !! _) as [r|] eqn:Hk; [|done]. case_bool_decide; [|done].
    by apply (Hclaim _ (with_delivered_at None)).
Qed.

Lemma steps_guarded db db' : rtc db_step db db' -> guarded db db'.
Proof. induction 1 as [|x y z Hxy _ IH]; [done|]. etrans; [by apply step_guarded|done]. Qed.

(** C24: A read-state version that appears is strictly newer than every one that appeared at its
    coordinate before, even when the earlier ones have been superseded, deleted by their
    author and physically removed in between: nothing is resurrected. *)
Theorem read_state_never_resurrected db0 db1 db2 db3 k1 r1 k2 r2 c :
  db_step db0 db1 -> rtc db_step db1 db2 -> db_step db2 db3 ->
  appears k1 r1 db0 db1 -> conforming_read_state r1 = true -> row_coord k1 r1 = Some c ->
  appears k2 r2 db2 db3 -> conforming_read_state r2 = true -> row_coord k2 r2 = Some c ->
  newer_eq (ek_stamp k2) (ek_stamp k1) = true /\ ek_stamp k2 <> ek_stamp k1.
Proof.
  intros H1%step_guarded Hs%steps_guarded H2%step_guarded Ha1 Hconf1 Hc1 Ha2 Hconf2 Hc2.
  destruct (gd_new _ _ H1 k1 r1 c Ha1 Hconf1 Hc1) as [_ (w1 & Hw1 & Hn1)].
  destruct (gd_marks _ _ Hs c w1 Hw1) as (w2 & Hw2 & Hn2).
  destruct (gd_new _ _ H2 k2 r2 c Ha2 Hconf2 Hc2) as [Hold _].
  specialize (Hold w2 Hw2).
  assert (Hlt : newer_eq (ek_stamp k1) (ek_stamp k2) = false).
  { apply not_true_iff_false. intros Hn.
    pose proof (newer_eq_trans _ _ _ (newer_eq_trans _ _ _ Hn2 Hn1) Hn). congruence. }
  apply newer_eq_false in Hlt as [? ?]. split; [done|]. congruence.
Qed.
End replacement.

(** * Witnesses *)

Module ReplacementExample.
Import StoreReference.
Definition env : Env := mkEnv 2000 true true true.
Definition profile (id : Byte.byte) (at_ : Z) : Event :=
  mkEvent [id] [Byte.x0a] at_ KIND_PERSONA [["d"; "persona"]] "".
Definition sub (id : Byte.byte) (at_ : Z) : Submission :=
  mkSubmission env 1%N (profile id at_) None.
(** Two versions of the same second, an older one, and a repetition. *)
Definition arrivals : list Submission :=
  [sub Byte.x02 1000; sub Byte.x01 1000; sub Byte.x00 999; sub Byte.x02 1000].
Definition coord : Coord := (1%N, KIND_PERSONA, [Byte.x0a], "persona").

Definition slot : string := "read-state:0123456789abcdef0123456789abcdef".
Definition read_state (id : Byte.byte) (at_ : Z) : Event :=
  mkEvent [id] [Byte.x0a] at_ KIND_READ_STATE [["d"; slot]; ["t"; "read-state"]] "".
Definition put (id : Byte.byte) (at_ : Z) (db : Db) : Db :=
  fst (replace_parameterized_event env 1%N (read_state id at_) slot None db).
Definition slot_coord : Coord := (1%N, KIND_READ_STATE, [Byte.x0a], slot).
(** A first version, its deletion by coordinate, and a later version. *)
Definition db1 : Db := put Byte.x01 1000 empty_db.
Definition db2 : Db :=
  fst (soft_delete_by_coordinate env 1%N KIND_READ_STATE [Byte.x0a] slot 1500 db1).
Definition db3 : Db := put Byte.x02 1001 db2.
Definition version (id : Byte.byte) (at_ : Z) : EventRow :=
  new_row 2000 (read_state id at_) None (Some slot) None.

Example deleted_version_is_gone : db_events db2 !! (1%N, 1000, [Byte.x01]) = None.
Proof. vm_compute. reflexivity. Qed.
Example replayed_version_is_refused : put Byte.x01 1000 db2 = db2.
Proof. vm_compute. reflexivity. Qed.
Example arrivals_show_lowest_id :
  head_at (submit_all arrivals empty_db) coord = Some (1000, [Byte.x01]).
Proof. vm_compute. reflexivity. Qed.
End ReplacementExample.

Lemma replacement_converges_witness :
  head_at
    (submit_all (S := StoreReference.deps) ReplacementExample.arrivals empty_db)
    ReplacementExample.coord =
  head_at
    (submit_all (S := StoreReference.deps) (reverse ReplacementExample.arrivals) empty_db)
    ReplacementExample.coord.
Proof.
  refine (proj1 (replacement_converges (S := StoreReference.deps) ReplacementExample.arrivals
           (reverse ReplacementExample.arrivals) _ _ _ ReplacementExample.coord)).
  - symmetry. apply reverse_Permutation.
  - repeat constructor.
  - apply ids_agree_check. vm_compute. reflexivity.
Defined.

Lemma read_state_never_resurrected_witness :
  newer_eq (1001, [Byte.x02]) (1000, [Byte.x01]) = true /\
  (1001, [Byte.x02]) <> (1000, [Byte.x01]).
Proof.
  apply (read_state_never_resurrected (S := StoreReference.deps)
           empty_db ReplacementExample.db1 ReplacementExample.db2 ReplacementExample.db3
           (1%N, 1000, [Byte.x01]) (ReplacementExample.version Byte.x01 1000)
           (1%N, 1001, [Byte.x02]) (ReplacementExample.version Byte.x02 1001)
           ReplacementExample.slot_coord).
  - apply step_parameterized.
  - apply rtc_once, step_delete_coordinate.
  - apply step_parameterized.
  - split; [intros (r & Hk & _); discriminate Hk|].
    eexists. split; [vm_compute; reflexivity|done].
  - vm_compute. reflexivity.
  - vm_compute. reflexivity.
  - split; [intros (r & Hk & _); vm_compute in Hk; discriminate Hk|].
    eexists. split; [vm_compute; reflexivity|done].
  - vm_compute. reflexivity.
  - vm_compute. reflexivity.
Defined.
