(* ===== verification/Threads.v ===== *)
(** Threads: [resolve_nip10_thread_meta] of [crates/buzz-relay/src/handlers/ingest.rs] over
    the metadata rows of [EventStore].

    A reply is resolved against its parent before it is stored; the store counts it on its
    parent and on its root, and a deletion takes the count back.  The theorem: every counter
    is the number of live replies, in every state the relay reaches.  The one premise is that
    the root of a reply is live when the reply is resolved; the example shows why. *)
From S2P Require Import Prelude Nostr Kinds Filters Text EventStore.
Local Open Scope string_scope.
Local Open Scope list_scope.
Local Open Scope Z_scope.
Local Open Scope buzz_scope.

Definition requires_h_channel_scope (kind : Z) : bool :=
  mem_kind kind
    [KIND_STREAM_MESSAGE; KIND_STREAM_MESSAGE_V2; KIND_STREAM_MESSAGE_EDIT;
     KIND_STREAM_MESSAGE_PINNED; KIND_STREAM_MESSAGE_BOOKMARKED; KIND_STREAM_MESSAGE_SCHEDULED;
     KIND_STREAM_REMINDER; KIND_STREAM_MESSAGE_DIFF; KIND_CANVAS; KIND_FORUM_POST;
     KIND_FORUM_VOTE; KIND_FORUM_COMMENT; KIND_NIP29_PUT_USER; KIND_NIP29_REMOVE_USER;
     KIND_NIP29_EDIT_METADATA; KIND_NIP29_DELETE_EVENT; KIND_NIP29_DELETE_GROUP;
     KIND_NIP29_LEAVE_REQUEST; KIND_HUDDLE_STARTED; KIND_HUDDLE_PARTICIPANT_JOINED;
     KIND_HUDDLE_PARTICIPANT_LEFT; KIND_HUDDLE_ENDED; KIND_HUDDLE_GUIDELINES].

Record ThreadMetadataOwned := mkOwned {
  tm_event_id : Bytes;
  tm_event_created_at : Z;
  tm_channel_id : Uuid;
  tm_parent_event_id : Bytes;
  tm_parent_event_created_at : Z;
  tm_root_event_id : Bytes;
  tm_root_event_created_at : Z;
  tm_depth : Z;
  tm_broadcast : bool
}.
Definition as_params (m : ThreadMetadataOwned) : ThreadMetadataParams :=
  mkThreadParams (tm_event_id m) (tm_event_created_at m) (tm_channel_id m)
    (Some (tm_parent_event_id m)) (Some (tm_parent_event_created_at m))
    (Some (tm_root_event_id m)) (Some (tm_root_event_created_at m)) (tm_depth m) (tm_broadcast m).

Section threads.
Context `{A : NostrApi} `{S : StoreDeps} `{H : HashIter}.

(** A 64-character hexadecimal value. *)
Definition is_hex_id (v : string) : bool :=
  Nat.eqb (String.length v) 64 && str_all is_ascii_hexdigit v.

(** The loop over the tags: the last [root] and the last [reply] marker win. *)
Definition marked_e (parts : Tag) : option (string * string) :=
  match parts with
  | e :: hex_val :: _ :: marker :: _ =>
      if String.eqb e "e" && is_hex_id hex_val then Some (marker, hex_val) else None
  | _ => None
  end.
Definition nip10_markers (tags : list Tag) : option string * option string :=
  foldl (fun '(root_hex, reply_hex) parts =>
           match marked_e parts with
           | Some (marker, v) =>
               if String.eqb marker "root" then (Some v, reply_hex)
               else if String.eqb marker "reply" then (root_hex, Some v)
               else (root_hex, reply_hex)
           | None => (root_hex, reply_hex)
           end) (None, None) tags.

(** [hex::decode(&parts[1]).ok().filter(|b| b.len() == 32)] of the first tag with the
    marker. *)
Definition ancestor_tag (marker : string) (tags : list Tag) : option Bytes :=
  find_map (fun parts =>
    match parts with
    | e :: v :: _ :: m :: _ =>
        if String.eqb e "e" && String.eqb m marker then
          b ← hex_decode v; if Nat.eqb (length b) 32 then Some b else None
        else None
    | _ => None
    end) tags.

(** The creation time of a root, or the parent's when the root cannot be read. *)
Definition root_time (db : Db) (community : Uuid) (root : Bytes) (parent_created : Z) : Z :=
  match get_event_by_id community root db with
  | Ok (Some root_ev) =>
      default parent_created (from_timestamp (to_i64 (ev_created_at (se_event root_ev))))
  | _ => parent_created
  end.

Definition ok_or {B E : Type} (o : option B) (e : E) : result B E :=
  match o with Some x => Ok x | None => Err e end.

(** Root, creation time of the root and depth of a reply. *)
Definition thread_position (db_root : Db) (community : Uuid) (parent_bytes : Bytes)
    (parent_event : StoredEvent) (parent_meta : option ThreadRow) (parent_created : Z)
    (client_root_bytes : Bytes) : result (Bytes * Z * Z) string :=
  match parent_meta with
  | Some meta =>
      let effective_root := default parent_bytes (tr_root_event_id meta) in
      if negb (bool_decide (client_root_bytes = effective_root))
      then Err "root tag does not match thread ancestry"
      else
        let depth := tr_depth meta + 1 in
        if 100 <? depth then Err "thread depth limit exceeded"
        else Ok (effective_root, root_time db_root community effective_root parent_created, depth)
  | None =>
      let tags := ev_tags (se_event parent_event) in
      let parent_root :=
        match ancestor_tag "root" tags with
        | Some r => r
        | None => default parent_bytes (ancestor_tag "reply" tags)
        end in
      if negb (bool_decide (client_root_bytes = parent_root))
      then Err "root tag does not match thread ancestry"
      else
        let same := bool_decide (parent_root = parent_bytes) in
        Ok (parent_root,
            (if same then parent_created else root_time db_root community parent_root parent_created),
            (if same then 1 else 2))
  end.

(** The lookup of the parent and the check of its channel. *)
Definition reply_parent (db_parent : Db) (community : Uuid) (parent_bytes : Bytes) (channel_id : Uuid)
  : result StoredEvent string :=
  match get_event_by_id community parent_bytes db_parent with
  | Err e => Err ("db error looking up parent: " ++ db_error_text e)%string
  | Ok None => Err "reply parent not found"
  | Ok (Some ev) =>
      match se_channel_id ev with
      | Some parent_ch => if negb (bool_decide (parent_ch = channel_id))
                          then Err "parent event belongs to a different channel"
                          else Ok ev
      | None => Err "parent event has no channel association"
      end
  end.

(** The root and the parent a reply names. *)
Definition reply_targets (event : Event) : option (string * string) :=
  match nip10_markers (ev_tags event) with
  | (Some r, Some p) => Some (r, p)
  | (None, Some p) => Some (p, p)
  | (_, None) => None
  end.

(** [resolve_nip10_thread_meta]; each of its queries may see a state of its own. *)
Definition resolve_nip10_thread_meta (now : Z) (db_parent db_meta db_root : Db) (community : Uuid)
    (event : Event) (channel_id : Uuid) : result (option ThreadMetadataOwned) string :=
  match reply_targets event with
  | None => Ok None
  | Some (root_hex, parent_hex) =>
      let? parent_bytes := ok_or (hex_decode parent_hex) "invalid parent event ID hex" in
      let? parent_event := reply_parent db_parent community parent_bytes channel_id in
      let parent_created :=
        default now (from_timestamp (to_i64 (ev_created_at (se_event parent_event)))) in
      let? client_root_bytes := ok_or (hex_decode root_hex) "invalid root event ID hex" in
      let? (root, root_created, depth) :=
        thread_position db_root community parent_bytes parent_event
          (get_thread_metadata_by_event community parent_bytes db_meta) parent_created
          client_root_bytes in
      let broadcast :=
        existsb (fun parts => bool_decide (tag_pair "broadcast" parts = Some "1")) (ev_tags event) in
      let event_created_at := default now (from_timestamp (to_i64 (ev_created_at event))) in
      Ok (Some (mkOwned (ev_id event) event_created_at channel_id parent_bytes parent_created root
                  root_created depth broadcast))
  end.

(** A deletion reads the metadata row and passes its parent and root on; both columns are
    written once. *)
Definition delete_event (env : Env) (community : Uuid) (event_id : Bytes) : method Db DbError bool :=
  fun db =>
    let meta := get_thread_metadata_by_event community event_id db in
    soft_delete_event_and_update_thread env community event_id
      (meta ≫= tr_parent_event_id) (meta ≫= tr_root_event_id) db.
End threads.

(** * Counting rows *)

Section counting.
Context {V : Type}.

Definition marks (P : EventKey -> V -> bool) (m : gmap EventKey V) : gmap EventKey unit :=
  map_imap (fun k t => if P k t then Some tt else None) m.
Definition tally (P : EventKey -> V -> bool) (m : gmap EventKey V) : Z :=
  Z.of_nat (size (marks P m)).
Definition mark (P : EventKey -> V -> bool) (m : gmap EventKey V) (k : EventKey) : bool :=
  match m !! k with Some t => P k t | None => false end.

Lemma marks_lookup P m k : marks P m !! k = if mark P m k then Some tt else None.
Proof. unfold marks, mark. rewrite map_lookup_imap. by destruct (m !! k). Qed.

Lemma tally_ext P P' m m' : (forall k, mark P m k = mark P' m' k) -> tally P m = tally P' m'.
Proof.
  intros Hk. unfold tally. do 2 f_equal. apply map_eq. intros k. by rewrite !marks_lookup, Hk.
Qed.

Lemma tally_add P P' m m' k0 :
  mark P m k0 = false -> mark P' m' k0 = true ->
  (forall k, k <> k0 -> mark P m k = mark P' m' k) ->
  tally P' m' = tally P m + 1.
Proof.
  intros H0 H1 Hk. unfold tally.
  assert (Heq : marks P' m' = <[k0 := tt]> (marks P m)).
  { apply map_eq. intros k. rewrite marks_lookup. destruct (decide (k = k0)) as [->|Hne].
    - by rewrite H1, lookup_insert_eq.
    - by rewrite lookup_insert_ne, marks_lookup, Hk by done. }
  rewrite Heq, map_size_insert_None by (rewrite marks_lookup; by rewrite H0). lia.
Qed.

Lemma tally_zero P m : (forall k, mark P m k = false) -> tally P m = 0.
Proof.
  intros Hk. unfold tally. assert (marks P m = ∅) as ->; [|done].
  apply map_eq. intros k. by rewrite marks_lookup, Hk.
Qed.

Lemma tally_pos P m k : mark P m k = true -> 1 <= tally P m.
Proof.
  intros Hk. unfold tally. assert (size (marks P m) <> 0%nat); [|lia].
  intros Hz%map_size_empty_inv. pose proof (marks_lookup P m k) as Hl.
  by rewrite Hz, Hk, lookup_empty in Hl.
Qed.
End counting.

(** * The counters *)

Section counters.
Context `{A : NostrApi} `{S : StoreDeps} {L : StoreLaws S} `{H : HashIter}.

(** The stored event of key [k] is live. *)
Definition is_live (db : Db) (k : EventKey) : bool :=
  match db_events db !! k with Some r => live r | None => false end.
(** The row of key [k] is a live reply whose column [f] names the message [x]. *)
Definition counted (f : ThreadRow -> option Bytes) (db : Db) (community : Uuid) (x : Bytes)
    (k : EventKey) (t : ThreadRow) : bool :=
  bool_decide (ek_community k = community) && opt_eqb (f t) (Some x) && is_live db k.
Definition live_replies (db : Db) (community : Uuid) (x : Bytes) : Z :=
  tally (counted tr_parent_event_id db community x) (db_threads db).
Definition live_descendants (db : Db) (community : Uuid) (x : Bytes) : Z :=
  tally (counted tr_root_event_id db community x) (db_threads db).

(** The creation time an event id stands for. *)
Context (created : Uuid -> Bytes -> Z).

(** The root of a resolved reply is its parent, or was live when it was resolved. *)
Definition root_live (db : Db) (community : Uuid) (m : ThreadMetadataOwned) : Prop :=
  tm_root_event_id m = tm_parent_event_id m \/
  exists ev, get_event_by_id community (tm_root_event_id m) db = Ok (Some ev).

(** What the rest of the program may do to the store: it writes no metadata, keeps the
    replies as they are, and stores events under their creation time. *)
Record untouched (db db' : Db) : Prop := {
  un_threads : db_threads db' = db_threads db;
  un_replies k t : db_threads db !! k = Some t -> tr_parent_event_id t <> None ->
    db_events db' !! k = db_events db !! k;
  un_events k r : db_events db' !! k = Some r ->
    timestamp_valid (ek_created_at k) = true /\
    ek_created_at k = created (ek_community k) (ek_id k)
}.

(** The states that messages, replies with live roots, deletions and the rest of the program
    lead to. *)
Inductive reachable : Db -> Prop :=
| reach_empty : reachable empty_db
| reach_message env c e ch db :
    reachable db -> to_i64 (ev_created_at e) = created c (ev_id e) ->
    reachable (fst (insert_event_with_thread_metadata env c e ch None db))
| reach_reply env now c e ch m db_parent db_meta db_root db :
    reachable db_parent -> reachable db_meta -> reachable db_root -> reachable db ->
    to_i64 (ev_created_at e) = created c (ev_id e) ->
    requires_h_channel_scope (event_kind_u32 e) = true ->
    resolve_nip10_thread_meta now db_parent db_meta db_root c e ch = Ok (Some m) ->
    root_live db_root c m ->
    reachable (fst (insert_event_with_thread_metadata env c e (Some ch) (Some (as_params m)) db))
| reach_delete env c i db : reachable db -> reachable (fst (delete_event env c i db))
| reach_other db db' : reachable db -> untouched db db' -> reachable db'.

Record thread_inv (db : Db) : Prop := {
  ti_events k r : db_events db !! k = Some r ->
    timestamp_valid (ek_created_at k) = true /\
    ek_created_at k = created (ek_community k) (ek_id k);
  ti_keys k t : db_threads db !! k = Some t ->
    ek_created_at k = created (ek_community k) (ek_id k);
  ti_reply k t p : db_threads db !! k = Some t -> tr_parent_event_id t = Some p ->
    (exists r, db_events db !! k = Some r /\ purged r = false) /\
    is_Some (db_threads db !! (ek_community k, created (ek_community k) p, p));
  ti_root k t q : db_threads db !! k = Some t -> tr_root_event_id t = Some q ->
    is_Some (tr_parent_event_id t) /\
    is_Some (db_threads db !! (ek_community k, created (ek_community k) q, q));
  ti_counts k t : db_threads db !! k = Some t ->
    tr_reply_count t = live_replies db (ek_community k) (ek_id k) /\
    tr_descendant_count t = live_descendants db (ek_community k) (ek_id k)
}.

Lemma thread_inv_empty : thread_inv empty_db.
Proof. by split. Qed.

Lemma counted_true f db c x k t :
  counted f db c x k t = true <-> ek_community k = c /\ f t = Some x /\ is_live db k = true.
Proof.
  unfold counted. rewrite !andb_true_iff, bool_decide_eq_true, opt_eqb_true. tauto.
Qed.

(** A message without a metadata row has no replies. *)
Lemma no_row_no_replies db c x :
  thread_inv db -> db_threads db !! (c, created c x, x) = None ->
  live_replies db c x = 0 /\ live_descendants db c x = 0.
Proof.
  intros Hi Hnone. split; apply tally_zero; intros k; unfold mark;
    destruct (db_threads db !! k) as [t|] eqn:Hk; try done;
    apply not_true_iff_false; intros (Hc & Hf & _)%counted_true.
  - destruct (ti_reply _ Hi k t x Hk Hf) as [_ [? Hrow]]. rewrite Hc in Hrow. congruence.
  - destruct (ti_root _ Hi k t x Hk Hf) as [_ [? Hrow]]. rewrite Hc in Hrow. congruence.
Qed.

(** Changes of the events that keep the liveness of every reply. *)
Lemma thread_inv_events db db' :
  thread_inv db -> db_threads db' = db_threads db ->
  (forall k r, db_events db' !! k = Some r ->
     timestamp_valid (ek_created_at k) = true /\ ek_created_at k = created (ek_community k) (ek_id k)) ->
  (forall k t, db_threads db !! k = Some t -> tr_parent_event_id t <> None ->
     db_events db' !! k = db_events db !! k) ->
  thread_inv db'.
Proof.
  intros Hi Hth Hev Hsame.
  assert (Hcount : forall f c x, (f = tr_parent_event_id \/ f = tr_root_event_id) ->
            tally (counted f db' c x) (db_threads db') = tally (counted f db c x) (db_threads db)).
  { intros f c x Hf. rewrite Hth. apply tally_ext. intros k. unfold mark.
    destruct (db_threads db !! k) as [t|] eqn:Hk; [|done].
    assert (Hcase : is_live db' k = is_live db k \/ f t = None).
    { destruct (tr_parent_event_id t) as [p|] eqn:Hp.
      - left. unfold is_live. by rewrite (Hsame k t Hk) by congruence.
      - right. destruct Hf as [->| ->]; [done|]. destruct (tr_root_event_id t) as [q|] eqn:Hq; [|done].
        destruct (ti_root _ Hi k t q Hk Hq) as [[? ?] _]. congruence. }
    unfold counted. destruct Hcase as [->| ->]; [done|].
    assert (opt_eqb None (Some x) = false) as -> by done. by rewrite andb_false_r. }
  split; [done|..]; rewrite ?Hth.
  - apply (ti_keys _ Hi).
  - intros k t p Hk Hp. destruct (ti_reply _ Hi k t p Hk Hp) as [Hr Hrow].
    split; [|done]. by rewrite (Hsame k t Hk) by congruence.
  - apply (ti_root _ Hi).
  - intros k t Hk. destruct (ti_counts _ Hi k t Hk) as [-> ->].
    unfold live_replies, live_descendants. by rewrite !Hcount by auto.
Qed.

(** ** Storing *)

Definition stored_key (c : Uuid) (e : Event) : EventKey := (c, to_i64 (ev_created_at e), ev_id e).

(** The outcomes of the insertion of an event row. *)
Lemma insert_event_row_cases env c e ch db :
  match insert_event_row env c e ch db with
  | (_, Err _) => True
  | (db1, Ok (_, false)) => db_events db1 = db_events db /\ db_threads db1 = db_threads db
  | (db1, Ok (_, true)) =>
      timestamp_valid (to_i64 (ev_created_at e)) = true /\
      db_events db !! stored_key c e = None /\ db_threads db1 = db_threads db /\
      exists r, db_events db1 = <[stored_key c e := r]> (db_events db) /\
        live r = true /\ er_kind r = ev_kind e
  end.
Proof.
  unfold insert_event_row, m_bind, m_read. destruct (storable e); [|done].
  unfold from_timestamp. destruct (timestamp_valid _) eqn:Hts; [|done].
  unfold insert_row. fold (stored_key c e).
  set (r := new_row _ _ _ _ _).
  assert (Hg : forall db', fst (guard_nip_rs_watermark (event_key c (to_i64 (ev_created_at e)) e) r db)
                 = db' -> db_events db' = db_events db /\ db_threads db' = db_threads db).
  { intros db' <-. unfold guard_nip_rs_watermark. repeat case_match; done. }
  destruct (guard_nip_rs_watermark _ r db) as [db' [[]|]] eqn:Hguard; [| |done];
    destruct (Hg db' eq_refl) as [Hev Hth]; [|done].
  destruct (db_events db' !! event_key c (to_i64 (ev_created_at e)) e) as [r0|] eqn:Hk; [done|].
  simpl. rewrite Hev in *. split_and!; [done|done|done|]. by exists r.
Qed.

Lemma thread_scope_not_purged e r :
  requires_h_channel_scope (event_kind_u32 e) = true -> er_kind r = ev_kind e -> purged r = false.
Proof.
  intros Hscope Hk. apply not_true_iff_false. unfold purged.
  assert (Hne : ev_kind e <> KIND_READ_STATE /\ ev_kind e <> KIND_BOOKMARK_SET).
  { unfold event_kind_u32 in Hscope. split; intros Heq; rewrite Heq in Hscope; discriminate. }
  unfold conforming_read_state, mesh_status_row, is_nip_rs. rewrite Hk.
  destruct Hne as [H1%Z.eqb_neq H2%Z.eqb_neq]. rewrite H1, H2. by destruct (er_d_tag r).
Qed.

(** Rows with the same ancestry, whatever their counters. *)
Definition same_ancestry (t t' : ThreadRow) : Prop :=
  tr_parent_event_id t' = tr_parent_event_id t /\ tr_root_event_id t' = tr_root_event_id t.
Lemma same_ancestry_refl t : same_ancestry t t.
Proof. done. Qed.
Lemma with_counts_ancestry f g h t : same_ancestry t (with_counts f g h t).
Proof. done. Qed.

(** [ON CONFLICT DO NOTHING] and [UPDATE] on the table alone. *)
Definition add_row (k : EventKey) (t : ThreadRow) (m : gmap EventKey ThreadRow) :=
  match m !! k with Some _ => m | None => <[k := t]> m end.
Definition update_rows (c : Uuid) (x : Bytes) (f : ThreadRow -> ThreadRow)
    (m : gmap EventKey ThreadRow) : gmap EventKey ThreadRow :=
  map_imap (fun k t =>
    Some (if bool_decide (ek_community k = c) && bool_decide (ek_id k = x) then f t else t)) m.

Lemma set_threads_same db : set_threads (db_threads db) db = db.
Proof. by destruct db. Qed.
Lemma insert_thread_row_eq k t db :
  insert_thread_row k t db =
  (set_threads (add_row k t (db_threads db)) db,
   Ok (match db_threads db !! k with Some _ => false | None => true end)).
Proof.
  unfold insert_thread_row, add_row. destruct (db_threads db !! k); [|done].
  by rewrite set_threads_same.
Qed.

Lemma add_row_lookup k t m k' :
  add_row k t m !! k' =
  match m !! k' with Some t' => Some t' | None => if decide (k' = k) then Some t else None end.
Proof.
  unfold add_row. destruct (m !! k) as [t0|] eqn:Hk.
  - case_decide as Heq; [subst; by rewrite Hk|]. by destruct (m !! k').
  - destruct (decide (k' = k)) as [->|Hne].
    + by rewrite lookup_insert_eq, Hk.
    + rewrite lookup_insert_ne by done. by destruct (m !! k').
Qed.
Lemma update_rows_lookup c x f m k :
  update_rows c x f m !! k =
  (fun t => if bool_decide (ek_community k = c) && bool_decide (ek_id k = x) then f t else t)
    <$> m !! k.
Proof. unfold update_rows. rewrite map_lookup_imap. by destruct (m !! k). Qed.

(** The table after a reply with a fresh metadata row. *)
Definition reply_table (env : Env) (c : Uuid) (m : ThreadMetadataOwned)
    (th : gmap EventKey ThreadRow) : gmap EventKey ThreadRow :=
  let p := tm_parent_event_id m in
  let q := tm_root_event_id m in
  let th1 := add_row (c, tm_parent_event_created_at m, p) (thread_stub (tm_channel_id m)) th in
  let th2 := if bool_decide (q = p) then th1
             else add_row (c, tm_root_event_created_at m, q) (thread_stub (tm_channel_id m)) th1 in
  update_rows c q (with_counts (fun n => n) (fun n => n + 1) (fun l => l))
    (update_rows c p (with_counts (fun n => n + 1) (fun n => n) (fun _ => Some (env_now env))) th2).

Lemma count_reply_eq env c m db :
  count_reply env c (as_params m) (tm_parent_event_id m) db =
  (set_threads (reply_table env c m (db_threads db)) db, Ok tt).
Proof.
  unfold count_reply, reply_table. cbn [as_params tp_event_created_at tp_parent_event_created_at
    tp_root_event_id tp_root_event_created_at tp_channel_id default].
  erewrite m_bind_run by apply insert_thread_row_eq.
  case_bool_decide; cbn [negb].
  - by erewrite m_bind_run by reflexivity.
  - erewrite m_bind_run; [|erewrite m_bind_run by apply insert_thread_row_eq; reflexivity].
    done.
Qed.

(** One more for the row of [x]. *)
Definition bump (c : Uuid) (x : Bytes) (k : EventKey) : Z :=
  if bool_decide (ek_community k = c) && bool_decide (ek_id k = x) then 1 else 0.

(** What the metadata insertion of a reply does to the table: rows keep their ancestry; a new
    row is the reply's own or a stub; the counters of parent and root grow by one. *)
Record reply_added (c : Uuid) (k0 : EventKey) (p q : Bytes) (kp kq : EventKey)
    (m m' : gmap EventKey ThreadRow) : Prop := {
  ra_old k t : m !! k = Some t -> exists t', m' !! k = Some t' /\ same_ancestry t t' /\
    tr_reply_count t' = tr_reply_count t + bump c p k /\
    tr_descendant_count t' = tr_descendant_count t + bump c q k;
  ra_new k t' : m' !! k = Some t' -> m !! k = None ->
    (k = k0 \/ k = kp \/ k = kq) /\
    (k = k0 -> tr_parent_event_id t' = Some p /\ tr_root_event_id t' = Some q) /\
    (k <> k0 -> tr_parent_event_id t' = None /\ tr_root_event_id t' = None) /\
    tr_reply_count t' = bump c p k /\ tr_descendant_count t' = bump c q k;
  ra_rows k : k = k0 \/ k = kp \/ k = kq -> is_Some (m' !! k)
}.

Lemma reply_table_added env c m th (k0 : EventKey) t0 :
  th !! k0 = None -> k0 = (c, tm_event_created_at m, tm_event_id m) ->
  tr_parent_event_id t0 = Some (tm_parent_event_id m) ->
  tr_root_event_id t0 = Some (tm_root_event_id m) ->
  tr_reply_count t0 = 0 -> tr_descendant_count t0 = 0 ->
  reply_added c k0 (tm_parent_event_id m) (tm_root_event_id m)
    (c, tm_parent_event_created_at m, tm_parent_event_id m)
    (c, (if bool_decide (tm_root_event_id m = tm_parent_event_id m)
         then tm_parent_event_created_at m else tm_root_event_created_at m), tm_root_event_id m)
    th (reply_table env c m (<[k0 := t0]> th)).
Proof.
  intros Hfree Hk0 Hp Hq Hr Hd.
  set (kp := (c, tm_parent_event_created_at m, tm_parent_event_id m)).
  set (kq := (c, if bool_decide _ then _ else _, tm_root_event_id m)).
  assert (Hlook : forall k, reply_table env c m (<[k0 := t0]> th) !! k =
    with_counts (fun n => n + bump c (tm_parent_event_id m) k)
      (fun n => n + bump c (tm_root_event_id m) k)
      (fun l => if bool_decide (ek_community k = c) && bool_decide (ek_id k = tm_parent_event_id m)
                then Some (env_now env) else l) <$>
    match th !! k with
    | Some t => Some t
    | None => if decide (k = k0) then Some t0
              else if decide (k = kp \/ k = kq) then Some (thread_stub (tm_channel_id m)) else None
    end).
  { intros k. unfold reply_table. rewrite !update_rows_lookup, <-option_fmap_compose.
    match goal with |- _ <$> ?a = _ <$> ?b => assert (Hbase : a = b) end.
    { assert (Hkq : if bool_decide (tm_root_event_id m = tm_parent_event_id m) then kq = kp
                    else kq = (c, tm_root_event_created_at m, tm_root_event_id m)).
      { subst kp kq. case_bool_decide; congruence. }
      destruct (bool_decide (tm_root_event_id m = tm_parent_event_id m));
        rewrite ?add_row_lookup, lookup_insert; fold kp;
        destruct (th !! k) as [t|] eqn:Ht; rewrite ?Ht, ?Hkq;
        repeat case_decide; first [done | exfalso; intuition congruence | congruence]. }
    rewrite Hbase. apply option_fmap_ext. intros t. unfold bump. simpl.
    destruct t, (bool_decide (ek_community k = c)), (bool_decide (ek_id k = tm_parent_event_id m)),
      (bool_decide (ek_id k = tm_root_event_id m)); unfold with_counts; simpl; f_equal; lia. }
  split.
  - intros k t Hk. rewrite Hlook, Hk. by eexists.
  - intros k t' Hk' Hk. rewrite Hlook, Hk in Hk'.
    destruct (decide (k = k0)) as [->|Hne]; [|destruct (decide (k = kp \/ k = kq)) as [Hor|]];
      [| |done]; injection Hk' as <-; simpl.
    + rewrite Hp, Hq, Hr, Hd. split_and!; auto; done.
    + split_and!; try done. by right.
  - intros k Hk. rewrite Hlook. destruct (th !! k); [by eexists|].
    destruct (decide (k = k0)); [by eexists|]. rewrite decide_True by tauto. by eexists.
Qed.

Lemma insert_thread_metadata_reply env c m db (k0 : EventKey) :
  k0 = (c, tm_event_created_at m, tm_event_id m) ->
  exists th, insert_thread_metadata env c (as_params m) db = (set_threads th db, Ok tt) /\
    match db_threads db !! k0 with
    | Some _ => th = db_threads db
    | None =>
        reply_added c k0 (tm_parent_event_id m) (tm_root_event_id m)
          (c, tm_parent_event_created_at m, tm_parent_event_id m)
          (c, (if bool_decide (tm_root_event_id m = tm_parent_event_id m)
               then tm_parent_event_created_at m else tm_root_event_created_at m),
           tm_root_event_id m) (db_threads db) th
    end.
Proof.
  intros Hk0. unfold insert_thread_metadata. erewrite m_bind_run by apply insert_thread_row_eq.
  cbn [as_params tp_event_created_at tp_event_id tp_parent_event_id]. rewrite <-Hk0.
  unfold add_row. destruct (db_threads db !! k0) as [t0|] eqn:Hk.
  - by exists (db_threads db).
  - rewrite count_reply_eq. eexists. split; [reflexivity|]. by apply reply_table_added.
Qed.

(** A key that carries the creation time its id stands for. *)
Definition true_key (c : Uuid) (x : Bytes) : EventKey := (c, created c x, x).

Section reply.
Context (c : Uuid) (k0 : EventKey) (p q : Bytes) (db db' : Db) (r : EventRow).
Context (Hinv : thread_inv db).
Context (Hk0 : k0 = true_key c (ek_id k0)) (Hfree : db_threads db !! k0 = None).
Context (Hvalid : timestamp_valid (ek_created_at k0) = true).
Context (Hadded : reply_added c k0 p q (true_key c p) (true_key c q)
                    (db_threads db) (db_threads db')).
Context (Hevents : db_events db' = <[k0 := r]> (db_events db)).
Context (Hlive : live r = true) (Hkept : purged r = false).

Lemma reply_live k : is_live db' k = if decide (k = k0) then true else is_live db k.
Proof.
  unfold is_live. rewrite Hevents. case_decide as Hk.
  - by rewrite Hk, lookup_insert_eq.
  - by rewrite lookup_insert_ne.
Qed.

(** The new row counts for its parent and for its root; nothing else changes. *)
Lemma reply_tally (f : ThreadRow -> option Bytes) y c' x :
  (f = tr_parent_event_id /\ y = p \/ f = tr_root_event_id /\ y = q) ->
  tally (counted f db' c' x) (db_threads db') =
  tally (counted f db c' x) (db_threads db) + (if bool_decide (c = c') && bool_decide (y = x) then 1 else 0).
Proof.
  intros Hf.
  assert (Hother : forall k, k <> k0 ->
            mark (counted f db c' x) (db_threads db) k = mark (counted f db' c' x) (db_threads db') k).
  { intros k Hne. unfold mark. destruct (db_threads db !! k) as [t|] eqn:Hk.
    - destruct (ra_old _ _ _ _ _ _ _ _ Hadded k t Hk) as (t' & Hk' & [Hp Hq] & _).
      rewrite Hk'. unfold counted. rewrite reply_live, decide_False by done.
      by destruct Hf as [[-> _]|[-> _]]; rewrite ?Hp, ?Hq.
    - destruct (db_threads db' !! k) as [t'|] eqn:Hk'; [|done]. symmetry. apply not_true_iff_false.
      intros (_ & Hft & _)%counted_true.
      destruct (ra_new _ _ _ _ _ _ _ _ Hadded k t' Hk' Hk) as (_ & _ & Hnone & _).
      destruct (Hnone Hne). destruct Hf as [[-> _]|[-> _]]; congruence. }
  destruct (ra_rows _ _ _ _ _ _ _ _ Hadded k0 (or_introl eq_refl)) as [t' Hk'].
  destruct (ra_new _ _ _ _ _ _ _ _ Hadded k0 t' Hk' Hfree) as (_ & Hself & _).
  destruct (Hself eq_refl) as [Hp Hq].
  assert (Hnew : mark (counted f db' c' x) (db_threads db') k0 =
                 bool_decide (c = c') && bool_decide (y = x)).
  { unfold mark. rewrite Hk'. unfold counted. rewrite reply_live, decide_True, andb_true_r by done.
    rewrite Hk0. cbn [ek_community true_key fst snd]. f_equal.
    assert (f t' = Some y) as -> by (destruct Hf as [[-> ->]|[-> ->]]; done).
    apply bool_decide_ext. naive_solver. }
  destruct (bool_decide (c = c') && bool_decide (y = x)).
  - apply (tally_add _ _ _ _ k0); [|done|done]. unfold mark. by rewrite Hfree.
  - rewrite Z.add_0_r. symmetry. apply tally_ext. intros k.
    destruct (decide (k = k0)) as [->|Hne]; [|by apply Hother].
    rewrite Hnew. unfold mark. by rewrite Hfree.
Qed.

Lemma reply_keys k t : db_threads db' !! k = Some t -> ek_created_at k = created (ek_community k) (ek_id k).
Proof.
  intros Hk'. destruct (db_threads db !! k) as [t0|] eqn:Hk; [by eapply ti_keys|].
  destruct (ra_new _ _ _ _ _ _ _ _ Hadded k t Hk' Hk) as ([->|[->| ->]] & _); [|done..].
  by rewrite Hk0.
Qed.

Lemma bump_if y k : bump c y k = if bool_decide (c = ek_community k) && bool_decide (y = ek_id k) then 1 else 0.
Proof. unfold bump. repeat case_bool_decide; congruence. Qed.

Lemma thread_inv_reply : thread_inv db'.
Proof.
  assert (Hback : forall k t', db_threads db' !! k = Some t' -> k <> k0 ->
            tr_parent_event_id t' <> None \/ tr_root_event_id t' <> None ->
            exists t, db_threads db !! k = Some t /\ same_ancestry t t').
  { intros k t' Hk' Hne Hsome. destruct (db_threads db !! k) as [t|] eqn:Hk.
    - destruct (ra_old _ _ _ _ _ _ _ _ Hadded k t Hk) as (t'' & Hk'' & Hs & _).
      exists t. split; [done|]. congruence.
    - destruct (ra_new _ _ _ _ _ _ _ _ Hadded k t' Hk' Hk) as (_ & _ & Hn & _).
      destruct (Hn Hne). by destruct Hsome. }
  assert (Hgrow : forall k, is_Some (db_threads db !! k) -> is_Some (db_threads db' !! k)).
  { intros k [t Hk]. destruct (ra_old _ _ _ _ _ _ _ _ Hadded k t Hk) as (t' & Hk' & _). eauto. }
  assert (Hself : forall t', db_threads db' !! k0 = Some t' ->
            tr_parent_event_id t' = Some p /\ tr_root_event_id t' = Some q).
  { intros t' Hk'. destruct (ra_new _ _ _ _ _ _ _ _ Hadded k0 t' Hk' Hfree) as (_ & Hs & _). auto. }
  assert (Hc0 : ek_community k0 = c) by (by rewrite Hk0).
  split.
  - intros k r'. rewrite Hevents, lookup_insert_Some. intros [[<- <-]|[_ Hk]].
    + split; [done|]. by rewrite Hk0.
    + by eapply ti_events.
  - apply reply_keys.
  - intros k t' y Hk' Hp. destruct (decide (k = k0)) as [->|Hne].
    + destruct (Hself t' Hk') as [Hp0 _]. rewrite Hp in Hp0. injection Hp0 as ->.
      split; [exists r; rewrite Hevents, lookup_insert_eq; done|].
      rewrite Hc0. apply (ra_rows _ _ _ _ _ _ _ _ Hadded). auto.
    + destruct (Hback k t' Hk' Hne) as (t & Hk & Hs & _); [left; congruence|].
      destruct (ti_reply _ Hinv k t y Hk) as [(r0 & Hr0 & Hpur) Hrow]; [congruence|].
      split; [|by apply Hgrow]. exists r0. rewrite Hevents, lookup_insert_ne by done. done.
  - intros k t' y Hk' Hq. destruct (decide (k = k0)) as [->|Hne].
    + destruct (Hself t' Hk') as [Hp0 Hq0]. rewrite Hq in Hq0. injection Hq0 as ->.
      split; [by eexists|]. rewrite Hc0. apply (ra_rows _ _ _ _ _ _ _ _ Hadded). auto.
    + destruct (Hback k t' Hk' Hne) as (t & Hk & Hs & Hs'); [right; congruence|].
      destruct (ti_root _ Hinv k t y Hk) as [[y' Hy'] Hrow]; [congruence|].
      split; [exists y'; congruence|by apply Hgrow].
  - intros k t' Hk'. unfold live_replies, live_descendants.
    rewrite (reply_tally tr_parent_event_id p), (reply_tally tr_root_event_id q) by auto.
    rewrite <-!bump_if. destruct (db_threads db !! k) as [t|] eqn:Hk.
    + destruct (ra_old _ _ _ _ _ _ _ _ Hadded k t Hk) as (t'' & Hk'' & _ & Hr & Hd).
      destruct (ti_counts _ Hinv k t Hk) as [Hcr Hcd].
      unfold live_replies, live_descendants in *. split; congruence.
    + destruct (ra_new _ _ _ _ _ _ _ _ Hadded k t' Hk' Hk) as (_ & _ & _ & Hr & Hd).
      assert (Hkey : k = true_key (ek_community k) (ek_id k)).
      { unfold true_key. rewrite <-(reply_keys k t' Hk'). by destruct k as [[? ?] ?]. }
      destruct (no_row_no_replies db (ek_community k) (ek_id k)) as [H1 H2]; [done| |].
      { fold (true_key (ek_community k) (ek_id k)). by rewrite <-Hkey. }
      unfold live_replies, live_descendants in *. rewrite H1, H2, Hr, Hd. done.
Qed.
End reply.

(** ** Resolving *)

Lemma get_event_by_id_created db c x ev :
  thread_inv db -> get_event_by_id c x db = Ok (Some ev) ->
  from_timestamp (to_i64 (ev_created_at (se_event ev))) = Some (created c x).
Proof.
  intros Hi. unfold get_event_by_id, fetch_first.
  destruct (head _) as [[k r]|] eqn:Hh; [|done].
  assert (Hin : (k, r) ∈ select_ordered (fun k r => with_id c x k r && live r) (db_events db)).
  { destruct (select_ordered _ _); [done|]. injection Hh as ->. left. }
  apply elem_of_select_ordered in Hin as [Hk [Hid _]%andb_true_iff].
  apply andb_true_iff in Hid as [Hc%bool_decide_eq_true Hx%bool_decide_eq_true].
  unfold row_to_stored_event. destruct (negb _); [done|]. intros [= Hev].
  apply fmap_Some in Hev as (e & He & ->). pose proof (event_from_value_created _ _ He) as Hpos.
  apply event_from_value_same in He as ->. simpl in Hpos |- *.
  destruct (ti_events _ Hi k r Hk) as [Hvalid Hcreated].
  pose proof (timestamp_valid_i64 _ Hvalid) as Hrange.
  assert (Heq : to_i64 (ek_created_at k) = ek_created_at k).
  { unfold to_i64. destruct (Z.ltb_spec (ek_created_at k) (2 ^ 63)); lia. }
  unfold from_timestamp. rewrite Heq, Hvalid. by rewrite Hcreated, Hc, Hx.
Qed.

Lemma root_time_live db c q parent_created :
  thread_inv db -> (exists ev, get_event_by_id c q db = Ok (Some ev)) ->
  root_time db c q parent_created = created c q.
Proof.
  intros Hi [ev Hev]. unfold root_time. rewrite Hev.
  by rewrite (get_event_by_id_created db c q ev Hi Hev).
Qed.

Lemma thread_position_root db c p pev meta parent_created client out :
  thread_inv db -> thread_position db c p pev meta parent_created client = Ok out ->
  out.1.1 = p \/ (exists ev, get_event_by_id c out.1.1 db = Ok (Some ev)) ->
  out.1.1 <> p -> out.1.2 = created c out.1.1.
Proof.
  intros Hi Hpos Hlive Hne. assert (Hev : exists ev, get_event_by_id c out.1.1 db = Ok (Some ev)) by tauto.
  unfold thread_position in Hpos. destruct meta as [t|].
  - destruct (negb _); [done|]. destruct (100 <? _); [done|]. injection Hpos as <-.
    by apply root_time_live.
  - destruct (negb _); [done|]. injection Hpos as <-. simpl in *.
    rewrite bool_decide_eq_false_2 by done. by apply root_time_live.
Qed.

Lemma resolve_truthful now dbp dbm dbr c e ch m :
  thread_inv dbp -> thread_inv dbr ->
  resolve_nip10_thread_meta now dbp dbm dbr c e ch = Ok (Some m) -> root_live dbr c m ->
  tm_event_id m = ev_id e /\
  tm_event_created_at m = default now (from_timestamp (to_i64 (ev_created_at e))) /\
  tm_parent_event_created_at m = created c (tm_parent_event_id m) /\
  (tm_root_event_id m <> tm_parent_event_id m ->
   tm_root_event_created_at m = created c (tm_root_event_id m)).
Proof.
  intros Hip Hir. unfold resolve_nip10_thread_meta.
  destruct (reply_targets e) as [[root_hex parent_hex]|]; [|done].
  intros (pb & Hpb & H1)%res_bind_Ok. apply res_bind_Ok in H1 as (pev & Hpev & H1). cbv zeta in H1.
  apply res_bind_Ok in H1 as (client & Hclient & H1).
  apply res_bind_Ok in H1 as ([[root root_created] depth] & Hpos & H1).
  injection H1 as <-. simpl. unfold root_live. simpl. intros Hlive.
  assert (Hparent : get_event_by_id c pb dbp = Ok (Some pev)).
  { unfold reply_parent in Hpev. destruct (get_event_by_id c pb dbp) as [[ev|]|?]; [|done..].
    destruct (se_channel_id ev); [|done]. destruct (negb _); congruence. }
  rewrite (get_event_by_id_created dbp c pb pev Hip Hparent).
  split_and!; [done|done|done|]. intros Hne.
  exact (thread_position_root _ _ _ _ _ _ _ (root, root_created, depth) Hir Hpos Hlive Hne).
Qed.

(** ** The steps keep the invariant *)

Lemma thread_inv_mentions db ms : thread_inv db -> thread_inv (set_mentions ms db).
Proof.
  intros Hi. apply (thread_inv_events db); try done. apply (ti_events _ Hi).
Qed.

(** A message whose event is inserted without a metadata row of its own. *)
Lemma thread_inv_message c e db db' r :
  thread_inv db -> to_i64 (ev_created_at e) = created c (ev_id e) ->
  timestamp_valid (to_i64 (ev_created_at e)) = true ->
  db_events db !! stored_key c e = None ->
  db_threads db' = db_threads db -> db_events db' = <[stored_key c e := r]> (db_events db) ->
  thread_inv db'.
Proof.
  intros Hi Hid Hvalid Hfree Hth Hev. apply (thread_inv_events db); [done|done|..].
  - intros k r'. rewrite Hev, lookup_insert_Some. intros [[<- <-]|[_ Hk]]; [done|by eapply ti_events].
  - intros k t Hk Hp. rewrite Hev, lookup_insert_ne; [done|]. intros <-.
    destruct (tr_parent_event_id t) as [p|] eqn:Hpt; [|done].
    destruct (ti_reply _ Hi _ t p Hk Hpt) as [(r0 & Hr0 & _) _]. congruence.
Qed.

Lemma insert_with_meta_inv env c e ch meta db :
  thread_inv db -> to_i64 (ev_created_at e) = created c (ev_id e) ->
  (forall m, meta = Some (as_params m) ->
     requires_h_channel_scope (event_kind_u32 e) = true /\ tm_event_id m = ev_id e /\
     (timestamp_valid (to_i64 (ev_created_at e)) = true ->
      tm_event_created_at m = to_i64 (ev_created_at e)) /\
     tm_parent_event_created_at m = created c (tm_parent_event_id m) /\
     (tm_root_event_id m <> tm_parent_event_id m ->
      tm_root_event_created_at m = created c (tm_root_event_id m))) ->
  meta = None \/ (exists m, meta = Some (as_params m)) ->
  thread_inv (fst (insert_event_with_thread_metadata env c e ch meta db)).
Proof.
  intros Hi Hid Hmeta Hcase. unfold insert_event_with_thread_metadata. unfold m_bind at 1.
  match goal with |- context [transaction env ?tx db] => set (body := tx) end.
  assert (Hbody : forall db' out, body db = (db', Ok (Commit out)) -> thread_inv db').
  { subst body. unfold insert_event_with_thread_metadata_tx. intros db' out Hrun.
    apply m_bind_Ok in Hrun as (db1 & out' & Hrun & Hret). unfold m_ret in Hret. simplify_eq.
    apply m_bind_Ok in Hrun as (db1 & [ev ins] & Hins & Hrun).
    apply m_bind_Ok in Hrun as (db2 & [] & Hthread & Hret). unfold m_ret in Hret. simplify_eq.
    pose proof (insert_event_row_cases env c e ch db) as Hrow. rewrite Hins in Hrow.
    destruct ins; simpl in Hthread; cycle 1.
    { unfold m_ret in Hthread. simplify_eq. destruct Hrow as [Hev Hth].
      apply (thread_inv_events db); [done|done|rewrite Hev; apply (ti_events _ Hi)|by rewrite Hev]. }
    destruct Hrow as (Hvalid & Hfree & Hth & r & Hev & Hlive & Hkind).
    destruct Hcase as [->|[m ->]].
    { unfold m_ret in Hthread. simplify_eq. by eapply thread_inv_message. }
    destruct (Hmeta m eq_refl) as (Hscope & Hmid & Hmts & Hpts & Hqts). specialize (Hmts Hvalid).
    destruct (insert_thread_metadata_reply env c m db1 (stored_key c e)) as (th & Hrun & Hadded).
    { unfold stored_key. by rewrite Hmid, Hmts. }
    rewrite Hrun in Hthread. injection Hthread as <-. rewrite Hth in Hadded.
    destruct (db_threads db !! stored_key c e) as [t0|] eqn:Hk.
    { subst th. eapply thread_inv_message; try done. }
    apply (thread_inv_reply c (stored_key c e) (tm_parent_event_id m) (tm_root_event_id m) db _ r);
      try done.
    - unfold stored_key, true_key. simpl. by rewrite Hid.
    - unfold true_key. rewrite <-Hpts.
      replace (created c (tm_root_event_id m)) with
        (if bool_decide (tm_root_event_id m = tm_parent_event_id m)
         then tm_parent_event_created_at m else tm_root_event_created_at m); [done|].
      case_bool_decide as Hq; [by rewrite Hpts, Hq|by apply Hqts].
    - by eapply thread_scope_not_purged. }
  assert (Htx : thread_inv (fst (transaction env body db))).
  { destruct (transaction_cases env body db) as [->|(db' & out & Hrun & ->)]; [done|].
    by eapply Hbody. }
  destruct (transaction env body db) as [db1 [[ev ins]|err]]; [|done]. destruct ins; [|done].
  unfold m_bind. destruct (insert_mentions_only env c e ch db1) as (ms & Hms). simpl in *.
  rewrite Hms. by apply thread_inv_mentions.
Qed.

(** ** Deleting *)

Lemma get_thread_metadata_by_event_eq c i db :
  thread_inv db -> get_thread_metadata_by_event c i db = db_threads db !! true_key c i.
Proof.
  intros Hi. unfold get_thread_metadata_by_event.
  set (rows := List.filter _ _).
  assert (Hrows : forall k t, (k, t) ∈ rows <-> k = true_key c i /\ db_threads db !! k = Some t).
  { intros k t. subst rows. rewrite list_elem_of_In, filter_In, <-list_elem_of_In, elem_of_hash_iter.
    rewrite andb_true_iff, !bool_decide_eq_true. split; [intros (Hk & Hc & Hx)|intros [-> Hk]; done].
    split; [|done]. pose proof (ti_keys _ Hi k t Hk) as Hts. destruct k as [[c' ts] x].
    unfold ek_community, ek_created_at, ek_id in *. simpl in *. by subst. }
  destruct rows as [|[k t] rows'] eqn:Heq; simpl.
  - destruct (db_threads db !! true_key c i) as [t|] eqn:Hk; [|done].
    assert (Hin : (true_key c i, t) ∈ @nil (EventKey * ThreadRow)) by by apply Hrows.
    by apply elem_of_nil in Hin.
  - destruct (proj1 (Hrows k t) (list_elem_of_here _ _)) as [-> Hk]. by rewrite Hk.
Qed.

Section deletion.
Context (c : Uuid) (i : Bytes) (db db' : Db).
Context (Hinv : thread_inv db) (Hlive : is_live db (true_key c i) = true).
Context (Hother : forall k, k <> true_key c i -> db_events db' !! k = db_events db !! k).
Context (Hdead : is_live db' (true_key c i) = false).
Context (Hevents : forall k, is_Some (db_events db' !! k) -> is_Some (db_events db !! k)).
Context (Hkept : forall r, db_events db !! true_key c i = Some r -> purged r = false ->
           exists r', db_events db' !! true_key c i = Some r' /\ purged r' = false).

(** The columns of the row of the deleted message, if it has one. *)
Definition meta_of (f : ThreadRow -> option Bytes) : option Bytes :=
  db_threads db !! true_key c i ≫= f.
(** The row of the message that column [f] of the deleted one names. *)
Definition named (f : ThreadRow -> option Bytes) (k : EventKey) : bool :=
  bool_decide (ek_community k = c) && opt_eqb (meta_of f) (Some (ek_id k)).

Context (Hrows : forall k, db_threads db' !! k =
  (fun t => with_counts (fun n => if named tr_parent_event_id k then Z.max (n - 1) 0 else n)
              (fun n => if named tr_root_event_id k then Z.max (n - 1) 0 else n) (fun l => l) t)
    <$> db_threads db !! k).

Lemma deletion_live k : k <> true_key c i -> is_live db' k = is_live db k.
Proof. intros Hk. unfold is_live. by rewrite Hother. Qed.

Lemma deletion_tally f c' x : (f = tr_parent_event_id \/ f = tr_root_event_id) ->
  tally (counted f db c' x) (db_threads db) =
  tally (counted f db' c' x) (db_threads db') +
  (if bool_decide (c' = c) && opt_eqb (meta_of f) (Some x) then 1 else 0).
Proof.
  intros Hf.
  assert (Hsame : forall k t, db_threads db !! k = Some t -> exists t', db_threads db' !! k = Some t' /\ f t' = f t).
  { intros k t Hk. rewrite Hrows, Hk. eexists. split; [reflexivity|]. by destruct Hf as [->| ->]. }
  assert (Hmarks : forall k, k <> true_key c i ->
            mark (counted f db' c' x) (db_threads db') k = mark (counted f db c' x) (db_threads db) k).
  { intros k Hk. unfold mark. destruct (db_threads db !! k) as [t|] eqn:Ht.
    - destruct (Hsame k t Ht) as (t' & -> & Hft). unfold counted. by rewrite Hft, deletion_live.
    - by rewrite Hrows, Ht. }
  assert (Hnew : mark (counted f db' c' x) (db_threads db') (true_key c i) = false).
  { unfold mark. destruct (db_threads db' !! _); [|done]. unfold counted.
    by rewrite Hdead, andb_false_r. }
  assert (Hold : mark (counted f db c' x) (db_threads db) (true_key c i) =
                 bool_decide (c' = c) && opt_eqb (meta_of f) (Some x)).
  { unfold mark, meta_of. destruct (db_threads db !! true_key c i) as [t|]; simpl.
    - unfold counted. rewrite Hlive, andb_true_r. f_equal. apply bool_decide_ext. naive_solver.
    - unfold opt_eqb. by rewrite (bool_decide_eq_false_2 (None = Some x)), andb_false_r. }
  destruct (bool_decide (c' = c) && opt_eqb (meta_of f) (Some x)).
  - by apply (tally_add _ _ _ _ (true_key c i)).
  - rewrite Z.add_0_r. apply tally_ext. intros k.
    destruct (decide (k = true_key c i)) as [->|Hk]; [congruence|]. by rewrite Hmarks.
Qed.

Lemma thread_inv_deletion : thread_inv db'.
Proof.
  assert (Hback : forall k t', db_threads db' !! k = Some t' ->
            exists t, db_threads db !! k = Some t /\ same_ancestry t t').
  { intros k t' Hk'. rewrite Hrows in Hk'. apply fmap_Some in Hk' as (t & Hk & ->). by exists t. }
  assert (Hgrow : forall k, is_Some (db_threads db !! k) -> is_Some (db_threads db' !! k)).
  { intros k [t Hk]. rewrite Hrows, Hk. by eexists. }
  split.
  - intros k r Hk. destruct (Hevents k) as [r0 Hr0]; [by eexists|]. by eapply ti_events.
  - intros k t' (t & Hk & _)%Hback. by eapply ti_keys.
  - intros k t' p (t & Hk & Hp & _)%Hback Hp'.
    destruct (ti_reply _ Hinv k t p Hk) as [(r & Hr & Hpur) Hrow]; [congruence|].
    split; [|by apply Hgrow]. destruct (decide (k = true_key c i)) as [->|Hne]; [by eapply Hkept|].
    rewrite Hother by done. eauto.
  - intros k t' q (t & Hk & Hp & Hq)%Hback Hq'.
    destruct (ti_root _ Hinv k t q Hk) as [[p Hp'] Hrow]; [congruence|].
    split; [exists p; congruence|by apply Hgrow].
  - intros k t' Hk'. pose proof Hk' as Hk0. rewrite Hrows in Hk0.
    apply fmap_Some in Hk0 as (t & Hk & ->). destruct (ti_counts _ Hinv k t Hk) as [Hr Hd].
    unfold live_replies, live_descendants in *. simpl. rewrite Hr, Hd.
    pose proof (deletion_tally tr_parent_event_id (ek_community k) (ek_id k) (or_introl eq_refl)) as H1.
    pose proof (deletion_tally tr_root_event_id (ek_community k) (ek_id k) (or_intror eq_refl)) as H2.
    fold (named tr_parent_event_id k) in H1. fold (named tr_root_event_id k) in H2.
    assert (Hpos : forall f c' x, 0 <= tally (counted f db' c' x) (db_threads db'))
      by (intros; unfold tally; lia).
    pose proof (Hpos tr_parent_event_id (ek_community k) (ek_id k)).
    pose proof (Hpos tr_root_event_id (ek_community k) (ek_id k)).
    destruct (named tr_parent_event_id k), (named tr_root_event_id k); split; lia.
Qed.
End deletion.

Lemma set_threads_events th db k : is_live (set_threads th db) k = is_live db k.
Proof. done. Qed.

(** The rows a deletion by id changes. *)
Lemma soft_delete_with_id now c i db :
  thread_inv db ->
  let db1 := fst (soft_delete_where now (with_id c i) db) in
  (is_live db (true_key c i) = false ->
   db1 = set_mentions (db_mentions db1) db /\
   snd (soft_delete_where now (with_id c i) db) = Ok 0) /\
  (is_live db (true_key c i) = true ->
   (exists n, snd (soft_delete_where now (with_id c i) db) = Ok n /\ 0 < n) /\
   db_threads db1 = db_threads db /\
   (forall k, k <> true_key c i -> db_events db1 !! k = db_events db !! k) /\
   is_live db1 (true_key c i) = false /\
   (forall k, is_Some (db_events db1 !! k) -> is_Some (db_events db !! k)) /\
   (forall r, db_events db !! true_key c i = Some r -> purged r = false ->
      exists r', db_events db1 !! true_key c i = Some r' /\ purged r' = false)).
Proof.
  intros Hi db1.
  assert (Hid : forall k r, db_events db !! k = Some r -> with_id c i k r = bool_decide (k = true_key c i)).
  { intros k r Hk. pose proof (ti_events _ Hi k r Hk) as [_ Hts]. unfold with_id.
    destruct k as [[c' ts] x]. unfold ek_community, ek_created_at, ek_id, true_key in *. simpl in *.
    repeat case_bool_decide; subst; try done; naive_solver. }
  assert (Hlook : forall k, db_events db1 !! k =
            r ← db_events db !! k;
            if with_id c i k r && live r then if purged r then None else Some (with_deleted_at now r)
            else Some r) by (intros k; apply map_lookup_imap).
  split; intros Hlive.
  - assert (Hnone : any_row (fun k r => with_id c i k r && live r) (db_events db) = false).
    { apply not_true_iff_false. intros (k & r & Hk & Hkr)%any_row_true.
      rewrite (Hid k r Hk) in Hkr. apply andb_true_iff in Hkr as [->%bool_decide_eq_true Hl].
      unfold is_live in Hlive. rewrite Hk in Hlive. congruence. }
    split.
    + subst db1. unfold soft_delete_where. cbn [fst db_mentions set_mentions].
      unfold set_mentions, set_events. destruct db as [ev ms wm th]. simpl in *. f_equal.
      apply map_eq. intros k. rewrite map_lookup_imap.
      destruct (ev !! k) as [r|] eqn:Hk; [|done]. simpl.
      destruct (with_id c i k r && live r) eqn:Hhit; [|done]. exfalso.
      apply not_true_iff_false in Hnone. apply Hnone, any_row_true. eauto.
    + simpl. do 2 f_equal.
      assert (length (select (fun k r => with_id c i k r && live r) (db_events db)) = 0%nat)
        as ->; [|done].
      destruct (select _ _) as [|x l] eqn:Hs; [done|]. exfalso.
      apply not_true_iff_false in Hnone. apply Hnone, select_nonempty. rewrite Hs. simpl. lia.
  - assert (Hr : exists r, db_events db !! true_key c i = Some r /\ live r = true).
    { unfold is_live in Hlive. destruct (db_events db !! true_key c i); naive_solver. }
    destruct Hr as (r & Hk & Hl).
    assert (Hhit : with_id c i (true_key c i) r && live r = true).
    { rewrite (Hid _ _ Hk), Hl. by rewrite bool_decide_eq_true_2. }
    split_and!.
    + eexists. split; [reflexivity|]. apply select_nonempty, any_row_true. eauto.
    + done.
    + intros k Hne. rewrite Hlook. destruct (db_events db !! k) as [r'|] eqn:Hk'; [|done]. simpl.
      by rewrite (Hid _ _ Hk'), bool_decide_eq_false_2.
    + unfold is_live. rewrite Hlook, Hk. simpl. rewrite Hhit. by destruct (purged r).
    + intros k [r' Hr']. rewrite Hlook in Hr'. apply bind_Some in Hr' as (r0 & Hr0 & _). by eexists.
    + intros r' Hr' Hpur. rewrite Hk in Hr'. injection Hr' as <-.
      exists (with_deleted_at now r). rewrite Hlook, Hk. simpl. by rewrite Hhit, Hpur.
Qed.

(** The counters after a deletion: one less, not below zero, on the rows the deleted message
    named. *)
Lemma deletion_table c i db db1 db' :
  thread_inv db -> db_threads db1 = db_threads db ->
  (match db_threads db !! true_key c i ≫= tr_parent_event_id with
   | Some pid =>
       do? _ <- update_thread c pid (with_counts (fun n => Z.max (n - 1) 0) (fun n => n) (fun l => l)) ;;
       match db_threads db !! true_key c i ≫= tr_root_event_id with
       | Some root_id =>
           update_thread c root_id (with_counts (fun n => n) (fun n => Z.max (n - 1) 0) (fun l => l))
       | None => m_ret tt
       end
   | None => m_ret tt
   end) db1 = (db', Ok tt) ->
  exists th, db' = set_threads th db1 /\ forall k, th !! k =
    (fun t => with_counts
                (fun n => if named c i db tr_parent_event_id k then Z.max (n - 1) 0 else n)
                (fun n => if named c i db tr_root_event_id k then Z.max (n - 1) 0 else n)
                (fun l => l) t) <$> db_threads db !! k.
Proof.
  intros Hi Hth. unfold named. fold (meta_of c i db tr_parent_event_id) (meta_of c i db tr_root_event_id).
  assert (Hroot : meta_of c i db tr_parent_event_id = None -> meta_of c i db tr_root_event_id = None).
  { unfold meta_of. destruct (db_threads db !! true_key c i) as [t|] eqn:Hk; [|done]. simpl.
    intros Hp. destruct (tr_root_event_id t) as [q|] eqn:Hq; [|done].
    destruct (ti_root _ Hi _ t q Hk Hq) as [[? ?] _]. congruence. }
  destruct (meta_of c i db tr_parent_event_id) as [p|].
  - destruct (meta_of c i db tr_root_event_id) as [q|]; intros Hrun;
      unfold m_bind, update_thread, m_modify, m_ret in Hrun; injection Hrun as <-;
      (eexists; split; [by destruct db1|]); intros k; cbn [db_threads set_threads].
    + fold (update_rows c p (with_counts (fun n => Z.max (n - 1) 0) (fun n => n) (fun l => l))
              (db_threads db1)).
      fold (update_rows c q (with_counts (fun n => n) (fun n => Z.max (n - 1) 0) (fun l => l))
              (update_rows c p (with_counts (fun n => Z.max (n - 1) 0) (fun n => n) (fun l => l))
                 (db_threads db1))).
      rewrite !update_rows_lookup, Hth. destruct (db_threads db !! k) as [t|]; [|done]. simpl. f_equal.
      unfold opt_eqb. destruct (bool_decide (ek_community k = c)); simpl; [|by destruct t].
      repeat case_bool_decide; simplify_eq; by destruct t.
    + fold (update_rows c p (with_counts (fun n => Z.max (n - 1) 0) (fun n => n) (fun l => l))
              (db_threads db1)).
      rewrite update_rows_lookup, Hth. destruct (db_threads db !! k) as [t|]; [|done]. simpl. f_equal.
      unfold opt_eqb. destruct (bool_decide (ek_community k = c)); simpl; [|by destruct t].
      repeat case_bool_decide; simplify_eq; by destruct t.
  - rewrite Hroot by done. intros Hrun. unfold m_ret in Hrun. injection Hrun as <-.
    exists (db_threads db1). split; [by rewrite set_threads_same|]. intros k. rewrite Hth.
    destruct (db_threads db !! k) as [t|]; [|done]. simpl. f_equal. unfold opt_eqb.
    destruct (bool_decide (ek_community k = c)); simpl; by destruct t.
Qed.

Lemma thread_inv_delete env c i db : thread_inv db -> thread_inv (fst (delete_event env c i db)).
Proof.
  intros Hi. unfold delete_event. rewrite get_thread_metadata_by_event_eq by done.
  unfold soft_delete_event_and_update_thread.
  match goal with |- context [transaction env ?body db] =>
    destruct (transaction_cases env body db) as [->|(db' & out & Hrun & ->)]; [done|] end.
  apply m_bind_Ok in Hrun as (db1 & n & Hdel & Hrun).
  apply m_bind_Ok in Hrun as (db2 & [] & Hupd & Hret). unfold m_ret in Hret. simplify_eq.
  destruct (soft_delete_with_id (env_now env) c i db Hi) as [Hno Hyes]. rewrite Hdel in Hno, Hyes.
  destruct (is_live db (true_key c i)) eqn:Hlive; cycle 1.
  { destruct (Hno eq_refl) as [Hdb1 Hn]. simpl in Hdb1, Hn. injection Hn as ->.
    simpl in Hupd. unfold m_ret in Hupd. injection Hupd as <-. rewrite Hdb1.
    by apply thread_inv_mentions. }
  destruct (Hyes eq_refl) as ((n' & Hn & Hpos) & Hth & Hother & Hdead & Hback & Hkept).
  simpl in *. injection Hn as ->. rewrite (proj2 (Z.ltb_lt 0 n') Hpos) in Hupd.
  destruct (deletion_table c i db db1 db' Hi Hth Hupd) as (th & -> & Hrows).
  by apply (thread_inv_deletion c i db).
Qed.

Lemma reachable_inv db : reachable db -> thread_inv db.
Proof.
  induction 1 as [|env c e ch db _ IH Hid
                  |env now c e ch m dbp dbm dbr db _ IHp _ _ _ IHr _ IH Hid Hscope Hres Hroot
                  |env c i db _ IH|db db' _ IH Hun].
  - apply thread_inv_empty.
  - apply insert_with_meta_inv; [done|done|done|by left].
  - apply insert_with_meta_inv; [done|done| |right; by exists m].
    intros m' Hm.
    destruct (resolve_truthful now dbp dbm dbr c e ch m IHp IHr Hres Hroot) as (Hm1 & Hm2 & Hm3 & Hm4).
    assert (m' = m) as -> by (destruct m, m'; unfold as_params in Hm; simpl in Hm; congruence).
    split_and!; [done|done| |done|done]. intros Hvalid. rewrite Hm2. unfold from_timestamp.
    by rewrite Hvalid.
  - by apply thread_inv_delete.
  - apply (thread_inv_events db); [done|apply Hun..].
Qed.

End counters.

(** * Witnesses *)

Module ThreadExample.
Import Reference StoreReference.
#[local] Existing Instance map_to_list_iter.
Definition env : Env := mkEnv 9000 true true true.
Definition root_id : Bytes := replicate 32 Byte.x01.
Definition first_id : Bytes := replicate 32 Byte.x02.
Definition second_id : Bytes := replicate 32 Byte.x03.
Definition message (id : Bytes) (at_ : Z) (tags : list Tag) : Event :=
  mkEvent id [Byte.x0a] at_ KIND_STREAM_MESSAGE tags "".
Definition root : Event := message root_id 10 [].
Definition first : Event := message first_id 20 [["e"; hex root_id; ""; "reply"]].
(** A reply to the first reply. *)
Definition second : Event :=
  message second_id 30 [["e"; hex root_id; ""; "root"]; ["e"; hex first_id; ""; "reply"]].
Definition reply (e : Event) (db : Db) : Db :=
  match resolve_nip10_thread_meta 9000 db db db 1%N e 7%N with
  | Ok (Some m) => fst (insert_event_with_thread_metadata env 1%N e (Some 7%N) (Some (as_params m)) db)
  | _ => db
  end.
Definition with_root : Db := fst (insert_event_with_thread_metadata env 1%N root (Some 7%N) None empty_db).
Definition with_first : Db := reply first with_root.
Definition rows_of_root (db : Db) : list (Z * Z) :=
  (fun x => (ek_created_at x.1, tr_descendant_count x.2)) <$>
  List.filter (fun '(k, _) => bool_decide (ek_id k = root_id)) (map_to_list (db_threads db)).
Definition created (_ : Uuid) (id : Bytes) : Z :=
  if bool_decide (id = root_id) then 10 else if bool_decide (id = first_id) then 20 else 30.
Definition first_meta : ThreadMetadataOwned := mkOwned first_id 20 7%N root_id 10 root_id 10 1 false.

Example replies_counted : rows_of_root (reply second with_first) = [(10, 2)].
Proof. vm_compute. reflexivity. Qed.

(** A reply whose root was deleted in the meantime is counted on a second row, under the
    creation time of its parent: the thread then has two counters that disagree. *)
Example deleted_root_splits_counts :
  rows_of_root (reply second (fst (delete_event env 1%N root_id with_first))) = [(10, 2); (20, 1)].
Proof. vm_compute. reflexivity. Qed.

Lemma with_first_reachable : reachable created with_first.
Proof.
  assert (Hres : resolve_nip10_thread_meta 9000 with_root with_root with_root 1%N first 7%N
                 = Ok (Some first_meta)) by (vm_compute; reflexivity).
  unfold with_first, reply. rewrite Hres.
  assert (Hroot : reachable created with_root).
  { apply reach_message; [constructor|]. vm_compute. reflexivity. }
  refine (reach_reply created env 9000 1%N first 7%N first_meta with_root with_root with_root
            with_root Hroot Hroot Hroot Hroot _ _ Hres (or_introl eq_refl)).
  - vm_compute. reflexivity.
  - vm_compute. reflexivity.
Qed.
End ThreadExample.

