(* ===== verification/Auth.v ===== *)
(** Authentication primitives: the scopes of [crates/buzz-auth/src/scope.rs] and the context
    of an authenticated connection ([crates/buzz-auth/src/lib.rs]). *)
From S2P Require Import Prelude Nostr.
Local Open Scope string_scope.
Local Open Scope list_scope.
Local Open Scope Z_scope.

(** * Scopes *)

Inductive Scope :=
| MessagesRead | MessagesWrite | ChannelsRead | ChannelsWrite | AdminChannels
| UsersRead | UsersWrite | AdminUsers | JobsRead | JobsWrite
| SubscriptionsRead | SubscriptionsWrite | FilesRead | FilesWrite | ReposRead | ReposWrite
| Unknown (s : string).
#[export] Instance Scope_eq_dec : EqDecision Scope.
Proof. solve_decision. Defined.

Definition all_known : list Scope :=
  [MessagesRead; MessagesWrite; ChannelsRead; ChannelsWrite; AdminChannels; UsersRead; UsersWrite;
   AdminUsers; JobsRead; JobsWrite; SubscriptionsRead; SubscriptionsWrite; FilesRead; FilesWrite;
   ReposRead; ReposWrite].
Definition all_non_admin : list Scope :=
  [MessagesRead; MessagesWrite; ChannelsRead; ChannelsWrite; UsersRead; UsersWrite; JobsRead;
   JobsWrite; SubscriptionsRead; SubscriptionsWrite; FilesRead; FilesWrite; ReposRead; ReposWrite].

Definition scope_as_str (s : Scope) : string :=
  match s with
  | MessagesRead => "messages:read"
  | MessagesWrite => "messages:write"
  | ChannelsRead => "channels:read"
  | ChannelsWrite => "channels:write"
  | AdminChannels => "admin:channels"
  | UsersRead => "users:read"
  | UsersWrite => "users:write"
  | AdminUsers => "admin:users"
  | JobsRead => "jobs:read"
  | JobsWrite => "jobs:write"
  | SubscriptionsRead => "subscriptions:read"
  | SubscriptionsWrite => "subscriptions:write"
  | FilesRead => "files:read"
  | FilesWrite => "files:write"
  | ReposRead => "repos:read"
  | ReposWrite => "repos:write"
  | Unknown s => s
  end.
Definition scope_from_str (s : string) : Scope :=
  if String.eqb s "messages:read" then MessagesRead
  else if String.eqb s "messages:write" then MessagesWrite
  else if String.eqb s "channels:read" then ChannelsRead
  else if String.eqb s "channels:write" then ChannelsWrite
  else if String.eqb s "admin:channels" then AdminChannels
  else if String.eqb s "users:read" then UsersRead
  else if String.eqb s "users:write" then UsersWrite
  else if String.eqb s "admin:users" then AdminUsers
  else if String.eqb s "jobs:read" then JobsRead
  else if String.eqb s "jobs:write" then JobsWrite
  else if String.eqb s "subscriptions:read" then SubscriptionsRead
  else if String.eqb s "subscriptions:write" then SubscriptionsWrite
  else if String.eqb s "files:read" then FilesRead
  else if String.eqb s "files:write" then FilesWrite
  else if String.eqb s "repos:read" then ReposRead
  else if String.eqb s "repos:write" then ReposWrite
  else Unknown s.
Definition parse_scopes (raw : list string) : list Scope := scope_from_str <$> raw.

(** [AuthContext]; how the connection was authenticated is not read by the handlers here. *)
Record AuthContext := mkAuthContext {
  ac_pubkey : Bytes;
  ac_scopes : list Scope;
  ac_channel_ids : option (list Uuid)
}.
Definition has_scope (ctx : AuthContext) (scope : Scope) : bool :=
  bool_decide (scope ∈ ac_scopes ctx).

(** [AuthState] of a connection. *)
Inductive AuthState := Pending (challenge : string) | Authenticated (ctx : AuthContext) | Failed.

Lemma scope_from_as_str s : scope_as_str (scope_from_str s) = s.
Proof.
  unfold scope_from_str. repeat (case_match; [symmetry; by apply String.eqb_eq|]). done.
Qed.
