(* ===== verification/Envelopes.v ===== *)
(** The envelope checks of ingest ([crates/buzz-relay/src/handlers/ingest.rs]): which scope a
    kind needs, where it is placed, and the public tag shapes an event must have before it
    is stored or may replace a predecessor.

    Each check is a pure function of the event.  The theorems say what it accepts: a base64
    text that decodes to a version 2 ciphertext, the canonical decimal of an instant, a
    project whose members are distinct repository addresses.  [shared_tag_hidden] shows the
    one event on which the [shared] check and the database disagree. *)
From S2P Require Import Prelude Nostr Kinds Text EventStore Auth Threads.
Local Open Scope string_scope.
Local Open Scope list_scope.
Local Open Scope Z_scope.
Local Open Scope buzz_scope.

(** * Scopes and placement *)

Section placement.
Context `{A : NostrApi} {U : UuidParse}.

Definition has_tag_kind (name : string) (event : Event) : bool :=
  existsb (fun t => String.eqb (tag_kind t) name) (ev_tags event).

Definition UNKNOWN_KIND : string := "restricted: unknown event kind".

(** The arms of the [match], in order; the first list that has the kind decides. *)
Definition scope_table (event : Event) : list (list Z * Scope) :=
  [([KIND_PROFILE], UsersWrite);
   ([KIND_TEXT_NOTE; KIND_LONG_FORM], MessagesWrite);
   ([KIND_CONTACT_LIST; KIND_READ_STATE; KIND_USER_STATUS; KIND_AGENT_ENGRAM; KIND_EVENT_REMINDER;
     KIND_PERSONA; KIND_TEAM; KIND_MANAGED_AGENT; KIND_TEAM_CATALOG; KIND_PUSH_LEASE], UsersWrite);
   ([KIND_AGENT_TURN_METRIC], MessagesWrite);
   ([KIND_REPORT; KIND_PRODUCT_FEEDBACK], MessagesWrite);
   ([KIND_MODERATION_BAN; KIND_MODERATION_UNBAN; KIND_MODERATION_TIMEOUT;
     KIND_MODERATION_UNTIMEOUT; KIND_MODERATION_RESOLVE_REPORT], MessagesWrite);
   ([KIND_MUTE_LIST; KIND_PIN_LIST; KIND_NIP65_RELAY_LIST_METADATA; KIND_BOOKMARK_LIST;
     KIND_FOLLOW_SET; KIND_BOOKMARK_SET; KIND_EMOJI_SET; KIND_EMOJI_LIST; KIND_AGENT_PROFILE;
     KIND_EVM_ROTATION], UsersWrite);
   ([KIND_DELETION; KIND_REACTION; KIND_GIFT_WRAP; KIND_STREAM_MESSAGE; KIND_STREAM_MESSAGE_V2;
     KIND_NIP29_DELETE_EVENT; KIND_STREAM_MESSAGE_EDIT; KIND_STREAM_MESSAGE_PINNED;
     KIND_STREAM_MESSAGE_BOOKMARKED; KIND_STREAM_MESSAGE_SCHEDULED; KIND_STREAM_REMINDER;
     KIND_STREAM_MESSAGE_DIFF; KIND_FORUM_POST; KIND_FORUM_VOTE; KIND_FORUM_COMMENT],
    MessagesWrite);
   ([KIND_NIP29_PUT_USER; KIND_NIP29_REMOVE_USER; KIND_NIP29_DELETE_GROUP], AdminChannels);
   ([RELAY_ADMIN_ADD_MEMBER; RELAY_ADMIN_REMOVE_MEMBER; RELAY_ADMIN_CHANGE_ROLE;
     RELAY_ADMIN_SET_WORKSPACE_PROFILE], AdminUsers);
   ([KIND_IA_ARCHIVE_REQUEST; KIND_IA_UNARCHIVE_REQUEST], UsersWrite);
   ([KIND_NIP29_EDIT_METADATA],
    if has_tag_kind "archived" event then AdminChannels else ChannelsWrite);
   ([KIND_NIP29_CREATE_GROUP; KIND_CANVAS], ChannelsWrite);
   ([KIND_NIP29_JOIN_REQUEST; KIND_NIP29_LEAVE_REQUEST; KIND_NIP43_LEAVE_REQUEST], ChannelsRead);
   ([KIND_HUDDLE_STARTED; KIND_HUDDLE_PARTICIPANT_JOINED; KIND_HUDDLE_PARTICIPANT_LEFT;
     KIND_HUDDLE_ENDED; KIND_HUDDLE_GUIDELINES], ChannelsWrite);
   ([KIND_GIT_REPO_ANNOUNCEMENT; KIND_GIT_REPO_STATE], ReposWrite);
   ([KIND_PROJECT], ReposWrite);
   ([KIND_GIT_PATCH; KIND_GIT_PULL_REQUEST; KIND_GIT_PR_UPDATE; KIND_GIT_ISSUE;
     KIND_GIT_STATUS_OPEN; KIND_GIT_STATUS_MERGED; KIND_GIT_STATUS_CLOSED;
     KIND_GIT_STATUS_DRAFT], MessagesWrite);
   ([KIND_DM_OPEN; KIND_DM_ADD_MEMBER; KIND_DM_HIDE], MessagesWrite);
   ([KIND_WORKFLOW_DEF; KIND_WORKFLOW_TRIGGER], MessagesWrite);
   ([KIND_APPROVAL_GRANT; KIND_APPROVAL_DENY], MessagesWrite)].
Definition required_scope_for_kind (kind : Z) (event : Event) : result Scope string :=
  match find_map (fun '(kinds, scope) => if mem_kind kind kinds then Some scope else None)
          (scope_table event) with
  | Some scope => Ok scope
  | None => Err UNKNOWN_KIND
  end.

Definition is_global_only_kind (kind : Z) : bool :=
  mem_kind kind
    [KIND_PROFILE; KIND_TEXT_NOTE; KIND_CONTACT_LIST; KIND_LONG_FORM; KIND_USER_STATUS;
     KIND_READ_STATE; KIND_MUTE_LIST; KIND_PIN_LIST; KIND_NIP65_RELAY_LIST_METADATA;
     KIND_BOOKMARK_LIST; KIND_FOLLOW_SET; KIND_BOOKMARK_SET; KIND_EMOJI_SET; KIND_EMOJI_LIST;
     KIND_AGENT_ENGRAM; KIND_EVENT_REMINDER; KIND_AGENT_PROFILE; KIND_PERSONA; KIND_TEAM;
     KIND_MANAGED_AGENT; KIND_TEAM_CATALOG; KIND_GIT_REPO_ANNOUNCEMENT; KIND_GIT_REPO_STATE;
     KIND_GIT_PATCH; KIND_GIT_PULL_REQUEST; KIND_GIT_PR_UPDATE; KIND_GIT_ISSUE;
     KIND_GIT_STATUS_OPEN; KIND_GIT_STATUS_MERGED; KIND_GIT_STATUS_CLOSED; KIND_GIT_STATUS_DRAFT;
     KIND_PROJECT; KIND_MODERATION_BAN; KIND_MODERATION_UNBAN; KIND_MODERATION_TIMEOUT;
     KIND_MODERATION_UNTIMEOUT; KIND_MODERATION_RESOLVE_REPORT; RELAY_ADMIN_ADD_MEMBER;
     RELAY_ADMIN_REMOVE_MEMBER; RELAY_ADMIN_CHANGE_ROLE; RELAY_ADMIN_SET_WORKSPACE_PROFILE;
     KIND_NIP43_LEAVE_REQUEST; KIND_IA_ARCHIVE_REQUEST; KIND_IA_UNARCHIVE_REQUEST;
     KIND_AGENT_TURN_METRIC; KIND_PUSH_LEASE].

(** The contents of the tags of one kind, in order. *)
Definition contents_of (name : string) (event : Event) : list string :=
  omap (fun t => if String.eqb (tag_kind t) name then tag_content t else None) (ev_tags event).

Definition extract_channel_id (event : Event) : option Uuid :=
  find_map parse_uuid (contents_of "h" event).

(** [count_e_tags], and the same count of the [a] tags. *)
Definition count_tags_of (name : string) (event : Event) : nat :=
  count_tags (fun t => String.eqb (tag_kind t) name) (ev_tags event).
Definition count_e_tags : Event -> nat := count_tags_of "e".

(** The identifier of an [e] tag: 64 hexadecimal digits. *)
Definition hex_targets (event : Event) : list string :=
  List.filter is_hex_id (contents_of "e" event).

(** [effective_message_author] *)
Definition decode32 (s : string) : option Bytes :=
  b ← hex_decode s; if Nat.eqb (length b) 32 then Some b else None.
Definition effective_message_author (event : Event) (relay_pubkey : Bytes) : Bytes :=
  if bool_decide (ev_pubkey event = relay_pubkey) then
    match head (contents_of "actor" event) ≫= decode32 with
    | Some author => author
    | None => default (ev_pubkey event) (find_map decode32 (contents_of "p" event))
    end
  else ev_pubkey event.
End placement.

(** * Diffs *)

Definition starts_with_any (ps : list string) (s : string) : bool :=
  existsb (fun p => starts_with p s) ps.
Definition short_sha (sha : string) : bool :=
  Nat.ltb (String.length sha) 7 || negb (str_all is_ascii_hexdigit sha).

(** The loop over the tags; the two flags are whether a repository and a commit were seen. *)
Fixpoint diff_tags (tags : list Tag) (has_repo has_commit : bool) : result (bool * bool) Message :=
  match tags with
  | [] => Ok (has_repo, has_commit)
  | (name :: value :: rest) :: tags' =>
      if String.eqb name "repo" then
        if negb (starts_with_any ["http://"; "https://"] value)
        then Err (msg "repo URL must be http or https")
        else diff_tags tags' true has_commit
      else if String.eqb name "commit" then
        if short_sha value then Err (msg "commit SHA must be at least 7 hex characters")
        else diff_tags tags' has_repo true
      else if String.eqb name "parent-commit" then
        if short_sha value then Err (msg "parent-commit SHA must be at least 7 hex characters")
        else diff_tags tags' has_repo has_commit
      else if String.eqb name "branch"
              && (str_is_empty value || match rest with t :: _ => str_is_empty t | [] => true end)
      then Err (msg "branch tag requires both source and target")
      else if String.eqb name "pr"
              && match parse_u32 value with Some n => n =? 0 | None => true end
      then Err (msg "pr number must be a positive integer")
      else diff_tags tags' has_repo has_commit
  | _ :: tags' => diff_tags tags' has_repo has_commit
  end.
Definition validate_diff_event (event : Event) : result unit Message :=
  let len := Z.of_nat (String.length (ev_content event)) in
  if 61440 <? len then Err (fmt "diff content exceeds 60KB limit (got {} bytes)" [ANum len])
  else
    let? (has_repo, has_commit) := diff_tags (ev_tags event) false false in
    if negb has_repo then Err (msg "diff event requires a repo tag")
    else if negb has_commit then Err (msg "diff event requires a commit tag")
    else Ok tt.

(** * Encrypted contents *)

Definition b64_val (c : ascii) : option Z :=
  if between "A" c "Z" then Some (Z.of_N (N_of_ascii c) - 65)
  else if between "a" c "z" then Some (Z.of_N (N_of_ascii c) - 97 + 26)
  else if between "0" c "9" then Some (Z.of_N (N_of_ascii c) - 48 + 52)
  else if Ascii.eqb c "+" then Some 62
  else if Ascii.eqb c "/" then Some 63
  else None.
Definition NOT_BASE64 : string := "agent-engram content is not valid base64".

(** The loop over the bytes: [i] is the index, [pad] the padding seen. *)
Fixpoint b64_scan (len : nat) (s : string) (i pad : nat) : option nat :=
  match s with
  | EmptyString => Some pad
  | String c s' =>
      match b64_val c with
      | Some _ => if Nat.ltb 0 pad then None else b64_scan len s' (S i) pad
      | None =>
          if Ascii.eqb c "=" then
            if Nat.ltb i (len - 2) then None
            else if Nat.ltb 2 (S pad) then None
            else b64_scan len s' (S i) (S pad)
          else None
      end
  end.
Definition first_byte (s : string) : option Z :=
  match s with
  | String a (String b _) =>
      v0 ← b64_val a; v1 ← b64_val b;
      Some (Z.lor (Z.land (Z.shiftl v0 2) 255) (Z.shiftr v1 4))
  | _ => None
  end.
Definition validate_engram_nip44_content (content : string) : result unit string :=
  let len := String.length content in
  if str_is_empty content then Err "agent-engram content must not be empty (NIP-44 ciphertext)"
  else if negb (Nat.eqb (len mod 4) 0) then Err "agent-engram content is not valid base64 (length)"
  else
    match b64_scan len content 0 0 with
    | None => Err NOT_BASE64
    | Some pad_count =>
        let decoded_len := (len / 4 * 3 - pad_count)%nat in
        if Nat.ltb decoded_len 99 then Err "agent-engram content too short for NIP-44 v2"
        else
          match first_byte content with
          | None => Err NOT_BASE64
          | Some b =>
              if negb (b =? 2)
              then Err "agent-engram content is not NIP-44 v2 (expected 0x02 version prefix)"
              else Ok tt
          end
    end.

(** The values of the tags of one name that have a value. *)
Definition pair_values (name : string) (tags : list Tag) : list string := omap (tag_pair name) tags.
(** 64 lower-case hexadecimal digits. *)
Definition lower_hex_64 (s : string) : bool :=
  Nat.eqb (String.length s) 64 && str_all is_lower_hex s.

Definition exactly_one (values : list string) (text : string) : result string Message :=
  match values with
  | [v] => Ok v
  | _ => Err (fmt text [ANum (Z.of_nat (length values))])
  end.

Definition validate_engram_envelope (event : Event) : result unit Message :=
  let d_tags := pair_values "d" (ev_tags event) in
  let p_tags := pair_values "p" (ev_tags event) in
  let? d := exactly_one d_tags "agent-engram event must have exactly one `d` tag (got {})" in
  let? p := exactly_one p_tags "agent-engram event must have exactly one `p` tag (got {})" in
  if negb (lower_hex_64 d) then Err (msg "agent-engram `d` tag must be 64 lowercase hex chars")
  else if negb (lower_hex_64 p)
  then Err (msg "agent-engram `p` tag must be 64 lowercase hex chars (pubkey)")
  else map_err msg (validate_engram_nip44_content (ev_content event)).

Definition validate_agent_turn_metric_envelope `{A : NostrApi} (event : Event) : result unit Message :=
  let p_tags := pair_values "p" (ev_tags event) in
  let agent_tags := pair_values "agent" (ev_tags event) in
  if negb (bool_decide (pair_values "h" (ev_tags event) = [])) then
    Err (msg "agent-turn-metric event must not have an `h` tag (channel identity belongs inside the encrypted payload)")
  else
    let? p := exactly_one p_tags "agent-turn-metric event must have exactly one `p` tag (got {})" in
    if negb (lower_hex_64 p) then Err (msg "agent-turn-metric `p` tag must be 64 lowercase hex chars")
    else
      let? agent := exactly_one agent_tags
        "agent-turn-metric event must have exactly one `agent` tag (got {})" in
      if negb (lower_hex_64 agent)
      then Err (msg "agent-turn-metric `agent` tag must be 64 lowercase hex chars")
      else if negb (String.eqb agent (to_hex (ev_pubkey event)))
      then Err (msg "agent-turn-metric `agent` tag must equal event pubkey")
      else map_err (fun e => msg (str_replace "agent-engram" "agent-turn-metric" e))
             (validate_engram_nip44_content (ev_content event)).

(** * Shared definitions *)

Fixpoint shared_count (tags : list Tag) (label : string) : result nat Message :=
  match tags with
  | [] => Ok 0%nat
  | parts :: tags' =>
      if bool_decide (head parts = Some "shared") then
        if negb (bool_decide (parts = ["shared"; "true"])) then
          Err (fmt "{label} `shared` tag must be exactly [shared,true] (got {:?})"
                 [AText label; ADebug parts])
        else let? n := shared_count tags' label in Ok (S n)
      else shared_count tags' label
  end.
Definition validate_shared_tag (event : Event) (label : string) : result unit Message :=
  let? n := shared_count (ev_tags event) label in
  if Nat.ltb 1 n
  then Err (fmt "{label} must have at most one `shared` tag (got {})" [AText label; ANum (Z.of_nat n)])
  else Ok tt.

(** The second element of a tag of this name, empty when there is none. *)
Definition tag_named (name : string) (parts : Tag) : option string :=
  match parts with
  | n :: rest => if String.eqb n name then Some (default EmptyString (head rest)) else None
  | [] => None
  end.
Definition named_values (name : string) (tags : list Tag) : list string := omap (tag_named name) tags.

Definition single_bounded_d_tag (event : Event) (label : string) : result string Message :=
  let d_tags := named_values "d" (ev_tags event) in
  match d_tags with
  | [d] =>
      if str_is_empty d then Err (fmt "{label} `d` tag must not be empty" [AText label])
      else
        let char_count := Z.of_nat (char_count d) in
        if 64 <? char_count then
          Err (fmt "{label} `d` tag too long ({} chars, max 64)" [AText label; ANum char_count])
        else if has_any (control ++ whitespace) d then
          Err (fmt "{label} `d` tag must not contain control characters or whitespace" [AText label])
        else Ok d
  | _ => Err (fmt "{label} must have exactly one `d` tag (got {})"
                [AText label; ANum (Z.of_nat (length d_tags))])
  end.

Definition slug_start (c : ascii) : bool := between "a" c "z" || is_ascii_digit c.
Definition slug_char (c : ascii) : bool := slug_start c || Ascii.eqb c "_" || Ascii.eqb c "-".
Definition validate_persona_envelope (event : Event) : result unit Message :=
  let LABEL := "persona event" in
  let? _ := validate_shared_tag event LABEL in
  let? d := single_bounded_d_tag event LABEL in
  match d with
  | String c rest =>
      if negb (slug_start c)
      then Err (fmt "{LABEL} `d` tag must start with a lowercase letter or digit" [AText LABEL])
      else if negb (str_all slug_char rest)
      then Err (fmt "{LABEL} `d` tag must match [a-z0-9_-] after the first character" [AText LABEL])
      else Ok tt
  | EmptyString => Ok tt
  end.
Definition validate_team_catalog_envelope (event : Event) : result unit Message :=
  let LABEL := "team-catalog event" in
  let? _ := validate_shared_tag event LABEL in
  let? _ := single_bounded_d_tag event LABEL in
  Ok tt.

(** * Projects *)

Definition PROJECT_MEMBER_CAP : nat := 64.
Definition PROJECT_NAME_MAX_LEN : nat := 256.
Definition PROJECT_DESCRIPTION_MAX_LEN : nat := 2048.
Definition PROJECT_METADATA_TAG_MAX_LEN : nat := 256.
Definition PROJECT_SINGLETON_METADATA_TAGS : list string :=
  ["name"; "description"; "buzz-channel"; "buzz-visibility"].
Definition PROJECT_MEMBER_KIND_SEGMENT : string := "30617".

Record ProjectRejection := mkProjectRejection {
  rule : string;
  message : Message
}.

Definition malformed (coordinate : string) : ProjectRejection :=
  mkProjectRejection "member-coordinate-malformed"
    (fmt "project event member `a` tag must be `30617:<lowercase-64-hex-owner>:<repo-d>` (got {coordinate:?})"
       [ADebug [coordinate]]).
Definition parse_project_member_coordinate (coordinate : string) : result unit ProjectRejection :=
  match split_once ":" coordinate with
  | None => Err (malformed coordinate)
  | Some (kind, rest) =>
      match split_once ":" rest with
      | None => Err (malformed coordinate)
      | Some (owner, repo_d) =>
          if negb (String.eqb kind PROJECT_MEMBER_KIND_SEGMENT) then Err (malformed coordinate)
          else if negb (lower_hex_64 owner) then Err (malformed coordinate)
          else if str_is_empty repo_d then Err (malformed coordinate)
          else Ok tt
      end
  end.

(** The loop over the member coordinates with the set of those seen. *)
Fixpoint project_members (members : list string) (seen : list string) : result unit ProjectRejection :=
  match members with
  | [] => Ok tt
  | m :: members' =>
      let? _ := parse_project_member_coordinate m in
      if bool_decide (m ∈ seen) then
        Err (mkProjectRejection "member-duplicate"
               (fmt "project event has duplicate member coordinate {member:?}" [ADebug [m]]))
      else project_members members' (m :: seen)
  end.

Definition bad_arity (parts : Tag) : bool :=
  bool_decide (head parts = Some "a")
  && negb (Nat.leb 2 (length parts) && Nat.leb (length parts) 3).
Definition over_long (name : string) (max : nat) (tags : list Tag) : option ProjectRejection :=
  v ← last (named_values name tags);
  if Nat.ltb max (String.length v) then
    Some (mkProjectRejection "metadata-length"
            (fmt "project event `{}` tag too long ({} bytes, max {})"
               [AText name; ANum (Z.of_nat (String.length v)); ANum (Z.of_nat max)]))
  else None.
Definition metadata_limits : list (string * nat) :=
  [("name", PROJECT_NAME_MAX_LEN); ("description", PROJECT_DESCRIPTION_MAX_LEN);
   ("buzz-channel", PROJECT_METADATA_TAG_MAX_LEN); ("buzz-visibility", PROJECT_METADATA_TAG_MAX_LEN)].

Definition validate_project_envelope (event : Event) : result unit ProjectRejection :=
  let tags := ev_tags event in
  let d_tags := named_values "d" tags in
  let members := named_values "a" tags in
  if negb (Nat.eqb (length d_tags) 1) then
    Err (mkProjectRejection "d-cardinality"
           (fmt "project event must have exactly one `d` tag (got {})" [ANum (Z.of_nat (length d_tags))]))
  else if existsb str_is_empty d_tags then
    Err (mkProjectRejection "d-empty" (msg "project event `d` tag must not be empty"))
  else if Nat.ltb PROJECT_MEMBER_CAP (length members) then
    Err (mkProjectRejection "member-cap"
           (fmt "project event must have at most 64 member `a` tags (got {})"
              [ANum (Z.of_nat (length members))]))
  else
    match find_map (fun parts => if bad_arity parts then Some parts else None) tags with
    | Some parts =>
        Err (mkProjectRejection "member-tag-arity"
               (fmt "project event member `a` tag must have exactly 2 or 3 elements (got {})"
                  [ANum (Z.of_nat (length parts))]))
    | None =>
        let? _ := project_members members [] in
        match find_map (fun k => let n := length (named_values k tags) in
                                 if Nat.ltb 1 n then Some (k, n) else None)
                PROJECT_SINGLETON_METADATA_TAGS with
        | Some (k, count) =>
            Err (mkProjectRejection "metadata-cardinality"
                   (fmt "project event must have at most one `{}` tag (got {count})"
                      [AText k; ANum (Z.of_nat count)]))
        | None =>
            match find_map (fun '(name, max) => over_long name max tags) metadata_limits with
            | Some rejection => Err rejection
            | None => Ok tt
            end
        end
    end.

(** * Reminders *)

Definition MAX_NOT_BEFORE : Z := 9007199254740991.
Definition MALFORMED_NOT_BEFORE : string := "malformed not_before".
Definition validate_not_before (tag_value : string) : result Z string :=
  if str_is_empty tag_value || negb (str_all is_ascii_digit tag_value) then Err MALFORMED_NOT_BEFORE
  else if Nat.ltb 1 (String.length tag_value) && starts_with "0" tag_value
  then Err MALFORMED_NOT_BEFORE
  else
    match parse_u64 tag_value with
    | None => Err MALFORMED_NOT_BEFORE
    | Some value => if MAX_NOT_BEFORE <? value then Err MALFORMED_NOT_BEFORE else Ok value
    end.

(** The state of the loop over the tags. *)
Record ReminderTags := mkReminder {
  rt_not_before : option Z;
  rt_expiration : option string;
  rt_d_count : Z;
  rt_d_empty : bool
}.
Fixpoint reminder_tags (tags : list Tag) (st : ReminderTags) : result ReminderTags string :=
  match tags with
  | [] => Ok st
  | (name :: value :: _) :: tags' =>
      if String.eqb name "not_before" then
        match rt_not_before st with
        | Some _ => Err MALFORMED_NOT_BEFORE
        | None =>
            let? nb := validate_not_before value in
            reminder_tags tags' (mkReminder (Some nb) (rt_expiration st) (rt_d_count st) (rt_d_empty st))
        end
      else if String.eqb name "expiration" then
        reminder_tags tags' (mkReminder (rt_not_before st) (Some value) (rt_d_count st) (rt_d_empty st))
      else if String.eqb name "d" then
        reminder_tags tags' (mkReminder (rt_not_before st) (rt_expiration st)
          (Z.min 255 (rt_d_count st + 1)) (rt_d_empty st || str_is_empty value))
      else reminder_tags tags' st
  | _ :: tags' => reminder_tags tags' st
  end.

(** [now] is the clock and [max_delta] the environment variable, if it parses. *)
Definition validate_event_reminder (now : Z) (max_delta : option Z) (event : Event)
  : result unit string :=
  let? st := reminder_tags (ev_tags event) (mkReminder None None 0 false) in
  if rt_d_count st =? 0 then Err "missing d tag"
  else if 1 <? rt_d_count st then Err "duplicate d tag"
  else if rt_d_empty st then Err "empty d tag"
  else
    match rt_not_before st with
    | None => Ok tt
    | Some nb =>
        if (now + default 31536000 max_delta) mod 2 ^ 64 <? nb then Err "not_before too far in future"
        else
          match rt_expiration st ≫= parse_u64 with
          | Some exp => if exp <=? nb then Err "expiration before not_before" else Ok tt
          | None => Ok tt
          end
    end.

(** * Encrypted contents: what is accepted *)

(** RFC 4648 decoding, lenient about the unused bits of the last group. *)
Fixpoint b64_decode (s : string) : option (list Z) :=
  match s with
  | EmptyString => Some []
  | String a (String b (String c (String d s'))) =>
      v0 ← b64_val a; v1 ← b64_val b;
      let x0 := v0 * 4 + v1 / 16 in
      if str_is_empty s' && Ascii.eqb d "=" then
        if Ascii.eqb c "=" then Some [x0]
        else v2 ← b64_val c; Some [x0; v1 mod 16 * 16 + v2 / 4]
      else
        v2 ← b64_val c; v3 ← b64_val d; r ← b64_decode s';
        Some (x0 :: v1 mod 16 * 16 + v2 / 4 :: v2 mod 4 * 64 + v3 :: r)
  | _ => None
  end.

Lemma b64_pad : b64_val "=" = None.
Proof. reflexivity. Qed.

Lemma in_alphabet_not_pad c v : b64_val c = Some v -> Ascii.eqb c "=" = false.
Proof. intros H. destruct (Ascii.eqb_spec c "="); [|done]. by subst. Qed.

Lemma b64_scan_val len c s i v : b64_val c = Some v ->
  b64_scan len (String c s) i 0 = b64_scan len s (S i) 0.
Proof. intros H. cbn [b64_scan]. by rewrite H. Qed.

Lemma b64_scan_early len c s i : b64_val c = None -> (i < len - 2)%nat ->
  b64_scan len (String c s) i 0 = None.
Proof.
  intros H Hi. cbn [b64_scan]. rewrite H. destruct (Ascii.eqb c "="); [|done].
  by rewrite (proj2 (Nat.ltb_lt _ _) Hi).
Qed.

(** The last two bytes. *)
Lemma b64_scan_end len i c d : len = (i + 2)%nat ->
  b64_scan len (String c (String d EmptyString)) i 0 =
  if Ascii.eqb d "=" then
    if Ascii.eqb c "=" then Some 2%nat
    else match b64_val c with Some _ => Some 1%nat | None => None end
  else match b64_val c, b64_val d with Some _, Some _ => Some 0%nat | _, _ => None end.
Proof.
  intros ->. cbn [b64_scan].
  replace (Nat.ltb i (i + 2 - 2)) with false by (symmetry; apply Nat.ltb_ge; lia).
  replace (Nat.ltb (S i) (i + 2 - 2)) with false by (symmetry; apply Nat.ltb_ge; lia).
  destruct (b64_val c) eqn:Hc; [rewrite (in_alphabet_not_pad _ _ Hc)|];
    (destruct (b64_val d) eqn:Hd; [rewrite (in_alphabet_not_pad _ _ Hd)|]); cbn;
    destruct (Ascii.eqb c "="), (Ascii.eqb d "="); reflexivity.
Qed.

(** The scan accepts exactly the texts that decode, and counts the padding. *)
Lemma scan_decodes n len s i :
  String.length s = (4 * S n)%nat -> len = (i + String.length s)%nat ->
  match b64_scan len s i 0 with
  | Some pad => exists bytes, b64_decode s = Some bytes /\ (length bytes + pad = 3 * S n)%nat
  | None => b64_decode s = None
  end.
Proof.
  revert len s i. induction n as [|n IH]; intros len s i Hs Hlen;
    destruct s as [|a [|b [|c [|d s]]]]; cbn [String.length] in Hs, Hlen; try lia.
  - destruct s; [|cbn in Hs; lia]. cbn [String.length] in Hlen. cbn [b64_decode str_is_empty].
    destruct (b64_val a) as [v0|] eqn:Ha; [rewrite (b64_scan_val _ _ _ _ _ Ha)|by rewrite b64_scan_early by (done || lia)].
    destruct (b64_val b) as [v1|] eqn:Hb; [rewrite (b64_scan_val _ _ _ _ _ Hb)|by rewrite b64_scan_early by (done || lia)].
    rewrite b64_scan_end by lia. simpl.
    destruct (Ascii.eqb d "=") eqn:Hd; [destruct (Ascii.eqb c "="); [|destruct (b64_val c)]
      |destruct (b64_val c); [destruct (b64_val d)|]]; simpl; eauto.
  - cbn [b64_decode]. replace (str_is_empty s) with false by (destruct s; [cbn in Hs; lia|done]).
    cbn [andb].
    destruct (b64_val a) as [v0|] eqn:Ha; [rewrite (b64_scan_val _ _ _ _ _ Ha)|by rewrite b64_scan_early by (done || lia)].
    destruct (b64_val b) as [v1|] eqn:Hb; [rewrite (b64_scan_val _ _ _ _ _ Hb)|by rewrite b64_scan_early by (done || lia)].
    destruct (b64_val c) as [v2|] eqn:Hc; [rewrite (b64_scan_val _ _ _ _ _ Hc)|by rewrite b64_scan_early by (done || lia)].
    destruct (b64_val d) as [v3|] eqn:Hd; [rewrite (b64_scan_val _ _ _ _ _ Hd)|by rewrite b64_scan_early by (done || lia)].
    simpl. specialize (IH len s (S (S (S (S i)))) ltac:(lia) ltac:(lia)).
    destruct (b64_scan len s _ 0) as [pad|].
    + destruct IH as (bytes & -> & Hb'). simpl. eexists. split; [done|]. cbn [length]. lia.
    + by rewrite IH.
Qed.

Lemma b64_val_range c v : b64_val c = Some v -> 0 <= v < 64.
Proof.
  assert (H : forallb (fun n => match b64_val (ascii_of_nat n) with
                                | Some v => (0 <=? v) && (v <? 64) | None => true end) (seq 0 256) = true)
    by (vm_compute; reflexivity).
  intros Hv. rewrite <-(ascii_nat_embedding c) in Hv. rewrite forallb_forall in H.
  specialize (H (nat_of_ascii c)). rewrite Hv in H. apply andb_true_iff in H as [H1 H2]; [lia|].
  apply in_seq. pose proof (nat_ascii_bounded c). lia.
Qed.

Lemma first_sextets v0 v1 : 0 <= v0 < 64 -> 0 <= v1 < 64 ->
  Z.lor (Z.land (Z.shiftl v0 2) 255) (Z.shiftr v1 4) = v0 * 4 + v1 / 16.
Proof.
  assert (H : forallb (fun a => forallb (fun b =>
    Z.lor (Z.land (Z.shiftl (Z.of_nat a) 2) 255) (Z.shiftr (Z.of_nat b) 4)
      =? Z.of_nat a * 4 + Z.of_nat b / 16) (seq 0 64)) (seq 0 64) = true) by (vm_compute; reflexivity).
  intros H0 H1. rewrite forallb_forall in H. specialize (H (Z.to_nat v0)).
  rewrite forallb_forall in H. specialize (H ltac:(apply in_seq; lia) (Z.to_nat v1) ltac:(apply in_seq; lia)).
  rewrite !Z2Nat.id in H by lia. by apply Z.eqb_eq.
Qed.

Lemma first_byte_head s bytes : b64_decode s = Some bytes -> bytes <> [] -> first_byte s = head bytes.
Proof.
  destruct s as [|a [|b [|c [|d s]]]]; cbn [b64_decode]; try done; [by intros [= <-]|].
  destruct (b64_val a) as [v0|] eqn:Ha; [|done]. destruct (b64_val b) as [v1|] eqn:Hb; [|done].
  intros H _. cbn [first_byte]. rewrite Ha, Hb. simpl.
  rewrite first_sextets by eauto using b64_val_range. revert H. cbn [mbind option_bind].
  destruct (str_is_empty s && Ascii.eqb d "="); [destruct (Ascii.eqb c "=")|].
  - by intros [= <-].
  - destruct (b64_val c); [|done]. by intros [= <-].
  - destruct (b64_val c); [|done]. destruct (b64_val d); [|done]. simpl.
    destruct (b64_decode s); [|done]. by intros [= <-].
Qed.

Lemma b64_decode_more a b c d s : str_is_empty s = false ->
  b64_decode (String a (String b (String c (String d s)))) =
  (v0 ← b64_val a; v1 ← b64_val b; v2 ← b64_val c; v3 ← b64_val d; r ← b64_decode s;
   Some (v0 * 4 + v1 / 16 :: v1 mod 16 * 16 + v2 / 4 :: v2 mod 4 * 64 + v3 :: r)).
Proof. intros Hs. cbn [b64_decode]. by rewrite Hs. Qed.

(** Decoding takes whole groups. *)
Lemma b64_decode_groups n s bytes : (String.length s <= n)%nat ->
  b64_decode s = Some bytes -> (String.length s mod 4 = 0)%nat.
Proof.
  revert s bytes. induction n as [|n IH]; intros s bytes Hn; [by destruct s; [|cbn in Hn; lia]|].
  destruct s as [|a [|b [|c [|d s]]]]; try done. intros H.
  destruct s as [|e s]; [done|]. rewrite b64_decode_more in H by done.
  destruct (b64_val a), (b64_val b), (b64_val c), (b64_val d); try discriminate H.
  cbn [mbind option_bind] in H.
  destruct (b64_decode (String e s)) as [r|] eqn:Hr; [|discriminate H].
  apply IH in Hr; [|cbn [String.length] in Hn |- *; lia].
  replace (String.length (String a (String b (String c (String d (String e s))))))
    with (String.length (String e s) + 1 * 4)%nat by (cbn [String.length]; lia).
  by rewrite Nat.Div0.mod_add.
Qed.

(** C26: Accepted contents decode to a NIP-44 version 2 payload of at least 99 bytes, and every such
    text is accepted. *)
Theorem nip44_content_decodes content :
  validate_engram_nip44_content content = Ok tt <->
  exists bytes, b64_decode content = Some bytes /\ (99 <= length bytes)%nat /\ head bytes = Some 2.
Proof.
  unfold validate_engram_nip44_content. cbn zeta.
  destruct (decide (content = EmptyString)) as [->|Hne].
  { split; [done|]. intros (bytes & [= <-] & H & _). cbn in H. lia. }
  replace (str_is_empty content) with false by (by destruct content).
  destruct (Nat.eqb_spec (String.length content mod 4) 0) as [Hm|Hm]; cbn [negb]; cycle 1.
  { split; [done|]. intros (bytes & H & _). by apply (b64_decode_groups _ _ _ (le_n _)) in H. }
  destruct (String.length content / 4)%nat as [|n] eqn:Hdiv.
  { pose proof (Nat.div_mod_eq (String.length content) 4). destruct content; [done|]. cbn in *. lia. }
  assert (Hlen : String.length content = (4 * S n)%nat)
    by (pose proof (Nat.div_mod_eq (String.length content) 4); lia).
  pose proof (scan_decodes n _ content 0 Hlen eq_refl) as Hscan.
  destruct (b64_scan _ content 0 0) as [pad|]; cycle 1.
  { split; [done|]. intros (bytes & H & _). congruence. }
  destruct Hscan as (bytes & Hd & Hb). rewrite Hd.
  destruct (Nat.ltb_spec (S n * 3 - pad) 99); cycle 1.
  { rewrite (first_byte_head _ _ Hd) by (intros ->; cbn [length] in Hb; lia).
    destruct (head bytes) as [b|] eqn:Hh; [|by destruct bytes; [cbn [length] in Hb; lia|]].
    destruct (Z.eqb_spec b 2) as [->|Hb2]; cbn [negb]; split; try done.
    - intros _. exists bytes. split_and!; [done|lia|done].
    - intros (bytes' & [= <-] & _ & Heq). congruence. }
  split; [done|]. intros (bytes' & [= <-] & Hl & _). lia.
Qed.

(** * Reminders: what is accepted *)

Lemma nip44_digit_char x : 0 <= x < 10 -> digit_value (pretty.pretty_N_char (Z.to_N x)) = x.
Proof.
  intros H. assert (Hx : In x [0;1;2;3;4;5;6;7;8;9]) by (simpl; lia).
  simpl in Hx. intuition subst; reflexivity.
Qed.
Lemma digit_char c : is_ascii_digit c = true ->
  0 <= digit_value c < 10 /\ pretty.pretty_N_char (Z.to_N (digit_value c)) = c.
Proof.
  destruct c as [[] [] [] [] [] [] [] []]; intros H; vm_compute in H; try discriminate H;
    (split; [vm_compute; intuition congruence|reflexivity]).
Qed.

(** One digit more. *)
Lemma pretty_go_snoc a c s : 0 < a -> is_ascii_digit c = true ->
  pretty.pretty_N_go (Z.to_N (a * 10 + digit_value c)) s =
  pretty.pretty_N_go (Z.to_N a) (String c s).
Proof.
  intros Ha Hc. destruct (digit_char c Hc) as [Hr Hch].
  rewrite pretty.pretty_N_go_step by lia.
  assert (Hm : (Z.to_N (a * 10 + digit_value c) `mod` 10 = Z.to_N (digit_value c))%N).
  { rewrite <-(Z2N.inj_mod _ 10) by lia. f_equal. rewrite Z.add_comm, Z.mod_add by lia.
    by apply Z.mod_small. }
  assert (Hd : (Z.to_N (a * 10 + digit_value c) `div` 10 = Z.to_N a)%N).
  { rewrite <-(Z2N.inj_div _ 10) by lia. f_equal. rewrite Z.add_comm, Z.div_add by lia.
    by rewrite Z.div_small. }
  by rewrite Hm, Hd, Hch.
Qed.

Lemma parse_pretty_go s a v : 0 < a -> parse_digits s a = Some v ->
  pretty.pretty_N_go (Z.to_N v) "" = pretty.pretty_N_go (Z.to_N a) s.
Proof.
  revert a. induction s as [|c s IH]; intros a Ha; cbn [parse_digits]; [by intros [= ->]|].
  destruct (is_ascii_digit c) eqn:Hc; [|done]. cbn zeta.
  destruct (_ <=? U64_MAX); [|done]. intros H.
  destruct (digit_char c Hc). rewrite (IH (a * 10 + digit_value c)) by (done || lia).
  by apply pretty_go_snoc.
Qed.

(** The canonical decimal of [v]. *)
Definition decimal (v : Z) : string := pretty.pretty (Z.to_N v).

Lemma parse_digits_all s a v : parse_digits s a = Some v -> str_all is_ascii_digit s = true.
Proof.
  revert a. induction s as [|c s IH]; intros a; cbn [parse_digits str_all]; [done|].
  destruct (is_ascii_digit c); [|done]. cbn zeta. destruct (_ <=? U64_MAX); [|done]. apply IH.
Qed.

(** The digits of [x > 0] parse to [x] and begin with a digit that is not zero. *)
Lemma pretty_go_parses n x s : 0 < x <= U64_MAX -> x < 10 ^ Z.of_nat n ->
  parse_digits (pretty.pretty_N_go (Z.to_N x) s) 0 = parse_digits s x /\
  exists c s', pretty.pretty_N_go (Z.to_N x) s = String c s' /\ is_ascii_digit c = true /\ c <> "0"%char.
Proof.
  revert x s. induction n as [|n IH]; intros x s Hx Hn; [simpl in Hn; lia|].
  rewrite Nat2Z.inj_succ, Z.pow_succ_r in Hn by lia.
  pose proof (Z.mod_pos_bound x 10 ltac:(lia)) as Hm. pose proof (Z.div_mod x 10 ltac:(lia)) as Hdm.
  rewrite pretty.pretty_N_go_step by lia.
  set (c := pretty.pretty_N_char _).
  assert (Hc : is_ascii_digit c = true /\ digit_value c = x mod 10).
  { unfold c. replace (Z.to_N x `mod` 10)%N with (Z.to_N (x mod 10))
      by (rewrite Z2N.inj_mod by lia; reflexivity). split; [|by apply nip44_digit_char].
    assert (Hin : In (x mod 10) [0;1;2;3;4;5;6;7;8;9]) by (simpl; lia).
    simpl in Hin. destruct Hin as [<-|[<-|[<-|[<-|[<-|[<-|[<-|[<-|[<-|[<-|[]]]]]]]]]]]; reflexivity. }
  destruct Hc as [Hc Hv]. replace (Z.to_N x `div` 10)%N with (Z.to_N (x / 10))
    by (rewrite Z2N.inj_div by lia; reflexivity).
  assert (Hstep : forall a, a = x / 10 -> parse_digits (String c s) a = parse_digits s x).
  { intros a ->. cbn [parse_digits]. rewrite Hc, Hv. cbn zeta.
    replace (x / 10 * 10 + x mod 10) with x by lia. by rewrite (proj2 (Z.leb_le _ _)) by lia. }
  destruct (Z.eq_dec (x / 10) 0) as [H0|H0].
  - rewrite H0, pretty.pretty_N_go_0. split; [by apply Hstep|]. exists c, s. split_and!; [done..|].
    intros ->. assert (H00 : digit_value "0" = 0) by reflexivity. lia.
  - destruct (IH (x / 10) (String c s)) as [IH1 IH2]; [lia|lia|]. split; [|exact IH2].
    rewrite IH1. by apply Hstep.
Qed.

Lemma parse_u64_digits c s : is_ascii_digit c = true -> parse_u64 (String c s) = parse_digits (String c s) 0.
Proof. intros Hc. unfold parse_u64. by destruct c as [[] [] [] [] [] [] [] []]. Qed.

Lemma parse_digits_acc s a v : 0 <= a -> parse_digits s a = Some v -> a <= v.
Proof.
  revert a. induction s as [|c s IH]; intros a Ha; cbn [parse_digits]; [by intros [= ->]|].
  destruct (is_ascii_digit c) eqn:Hc; [|done]. cbn zeta. destruct (_ <=? U64_MAX); [|done].
  destruct (digit_char c Hc). intros Hp. apply IH in Hp; lia.
Qed.

(** C27: [not_before] values: exactly the canonical decimals of the instants up to 2^53 - 1 are
    accepted, each as its value. *)
Theorem not_before_canonical s v :
  validate_not_before s = Ok v <-> 0 <= v <= MAX_NOT_BEFORE /\ s = decimal v.
Proof.
  unfold validate_not_before. split.
  - destruct s as [|c s]; [done|]. cbn [str_is_empty orb].
    destruct (str_all is_ascii_digit (String c s)) eqn:Hall; [|done]. cbn [negb].
    destruct (_ && _) eqn:Hlead; [done|]. pose proof Hall as Hc. cbn [str_all] in Hc.
    apply andb_true_iff in Hc as [Hc _]. rewrite parse_u64_digits by done.
    destruct (parse_digits _ 0) as [v'|] eqn:Hp; [|done].
    destruct (Z.ltb_spec MAX_NOT_BEFORE v'); [done|]. intros [= ->].
    cbn [parse_digits] in Hp. rewrite Hc in Hp. cbn zeta in Hp.
    destruct (digit_char c Hc) as [Hr Hch]. destruct (_ <=? U64_MAX); [|done].
    change (parse_digits s (digit_value c) = Some v) in Hp.
    assert (digit_value c <= v) by (apply (parse_digits_acc s); [lia|exact Hp]). split; [lia|].
    destruct (Z.eq_dec (digit_value c) 0) as [Hz|Hz].
    + assert (c = "0"%char) as -> by (rewrite <-Hch, Hz; reflexivity).
      destruct s as [|d s]; [|done]. cbn [parse_digits] in Hp. injection Hp as <-. reflexivity.
    + pose proof (parse_pretty_go s (digit_value c) v ltac:(lia) Hp) as Hgo.
      unfold decimal, pretty.pretty, pretty.pretty_N. destruct (decide _); [lia|].
      rewrite Hgo, pretty.pretty_N_go_step by lia.
      replace (Z.to_N (digit_value c) `div` 10)%N with 0%N by (symmetry; apply N.div_small; lia).
      replace (Z.to_N (digit_value c) `mod` 10)%N with (Z.to_N (digit_value c))
        by (symmetry; apply N.mod_small; lia). by rewrite pretty.pretty_N_go_0, Hch.
  - intros [Hv ->]. destruct (Z.eq_dec v 0) as [->|Hv0]; [reflexivity|].
    assert (Hu : v <= U64_MAX) by (unfold MAX_NOT_BEFORE, U64_MAX in *; lia).
    unfold decimal, pretty.pretty, pretty.pretty_N. destruct (decide _); [lia|].
    destruct (pretty_go_parses 20 v EmptyString) as [Hp (c & s & Hs & Hc & Hc0)];
      [lia|unfold U64_MAX in Hu; lia|]. cbn [parse_digits] in Hp.
    rewrite Hs in *. rewrite (parse_digits_all _ _ _ Hp), parse_u64_digits, Hp by done.
    cbn [str_is_empty negb orb]. unfold starts_with. cbn [strip_prefix].
    replace (Ascii.eqb "0" c) with false by (symmetry; by apply Ascii.eqb_neq, not_eq_sym).
    rewrite andb_false_r. by rewrite (proj2 (Z.ltb_ge _ _)) by lia.
Qed.

(** * Projects: what is accepted *)

(** The address of a repository announcement. *)
Definition canonical_member (m : string) : Prop :=
  exists owner d, m = "30617:" +:+ owner +:+ ":" +:+ d /\ lower_hex_64 owner = true /\ d <> EmptyString.

(** What each rule of the project envelope forbids. *)
Definition project_rules : list (string * (list Tag -> Prop)) :=
  [("d-cardinality", fun tags => length (named_values "d" tags) <> 1%nat);
   ("d-empty", fun tags => EmptyString ∈ named_values "d" tags);
   ("member-cap", fun tags => (PROJECT_MEMBER_CAP < length (named_values "a" tags))%nat);
   ("member-tag-arity", fun tags =>
      exists t, t ∈ tags /\ head t = Some "a" /\ ~ (2 <= length t <= 3)%nat);
   ("member-coordinate-malformed", fun tags =>
      exists m, m ∈ named_values "a" tags /\ ~ canonical_member m);
   ("member-duplicate", fun tags => ~ NoDup (named_values "a" tags));
   ("metadata-cardinality", fun tags =>
      exists k, k ∈ PROJECT_SINGLETON_METADATA_TAGS /\ (1 < length (named_values k tags))%nat);
   ("metadata-length", fun tags =>
      exists k max v, (k, max) ∈ metadata_limits /\ v ∈ named_values k tags /\
                      (max < String.length v)%nat)].
Definition violates (r : string) (tags : list Tag) : Prop :=
  exists bad, (r, bad) ∈ project_rules /\ bad tags.

Lemma lower_hex_no_colon s : lower_hex_64 s = true -> str_all (fun x => negb (Ascii.eqb x ":")) s = true.
Proof.
  unfold lower_hex_64. intros [_ H]%andb_true_iff. revert H. apply str_all_impl.
  intros c. by destruct c as [[] [] [] [] [] [] [] []].
Qed.

Lemma parse_member_spec m :
  match parse_project_member_coordinate m with
  | Ok _ => canonical_member m
  | Err r => rule r = "member-coordinate-malformed" /\ ~ canonical_member m
  end.
Proof.
  assert (Hsplit : canonical_member m -> exists owner d,
            split_once ":" m = Some ("30617", owner +:+ String ":" d) /\
            split_once ":" (owner +:+ String ":" d) = Some (owner, d) /\
            lower_hex_64 owner = true /\ d <> EmptyString).
  { intros (owner & d & -> & Ho & Hd). exists owner, d. split_and!; [|by apply split_once_at, lower_hex_no_colon|done..].
    by apply (split_once_at ":" "30617"). }
  unfold parse_project_member_coordinate.
  destruct (split_once ":" m) as [[kind rest]|] eqn:H1; cycle 1.
  { split; [done|]. intros (o & d & H & _)%Hsplit. congruence. }
  destruct (split_once ":" rest) as [[owner d]|] eqn:H2; cycle 1.
  { split; [done|]. intros (o & d & H & H' & _)%Hsplit. congruence. }
  destruct (String.eqb_spec kind PROJECT_MEMBER_KIND_SEGMENT) as [->|Hk]; cbn [negb]; cycle 1.
  { split; [done|]. intros (o & d' & [= ->] & _)%Hsplit. done. }
  destruct (lower_hex_64 owner) eqn:Ho; cbn [negb]; cycle 1.
  { split; [done|]. intros (o & d' & H & H' & Ho' & _)%Hsplit. congruence. }
  destruct d as [|x d]; cbn [str_is_empty].
  { split; [done|]. intros (o & d' & H & H' & _ & Hd)%Hsplit. congruence. }
  exists owner, (String x d). split_and!; [|done..]. apply split_once_eq in H1, H2. by subst.
Qed.

Lemma project_members_spec members seen :
  match project_members members seen with
  | Ok _ => Forall canonical_member members /\ NoDup members /\ forall m, m ∈ members -> m ∉ seen
  | Err r => (rule r = "member-coordinate-malformed" /\ exists m, m ∈ members /\ ~ canonical_member m) \/
             (rule r = "member-duplicate" /\ (NoDup members -> exists m, m ∈ members /\ m ∈ seen))
  end.
Proof.
  revert seen. induction members as [|m members IH]; intros seen; cbn [project_members].
  { split_and!; [done|constructor|]. intros m Hm. by apply elem_of_nil in Hm. }
  pose proof (parse_member_spec m) as Hm.
  destruct (parse_project_member_coordinate m) as [[]|r]; cbn [res_bind]; cycle 1.
  { left. destruct Hm. split; [done|]. exists m. split; [left|done]. }
  destruct (bool_decide_reflect (m ∈ seen)) as [Hs|Hs].
  { right. split; [done|]. intros _. exists m. split; [left|done]. }
  specialize (IH (m :: seen)). destruct (project_members members (m :: seen)) as [[]|r].
  - destruct IH as (H1 & H2 & H3). split_and!.
    + by constructor.
    + constructor; [|done]. intros Hin. apply (H3 m Hin). left.
    + intros x [->|Hx]%elem_of_cons; [done|]. intros Hx'. apply (H3 x Hx). by right.
  - destruct IH as [(Hr & x & Hx & Hb)|(Hr & Hd)].
    + left. split; [done|]. exists x. split; [by right|done].
    + right. split; [done|]. intros [Hn Hnd]%NoDup_cons.
      destruct (Hd Hnd) as (x & Hx & [->|Hx']%elem_of_cons); [done|]. exists x. split; [by right|done].
Qed.

Lemma find_map_Some {B C : Type} (f : B -> option C) l y :
  find_map f l = Some y -> exists x, x ∈ l /\ f x = Some y.
Proof.
  induction l as [|x l IH]; cbn [find_map]; [done|]. destruct (f x) eqn:Hx.
  - intros [= <-]. exists x. split; [left|done].
  - intros (z & Hz & H)%IH. exists z. split; [by right|done].
Qed.
Lemma find_map_None {B C : Type} (f : B -> option C) l :
  find_map f l = None -> forall x, x ∈ l -> f x = None.
Proof.
  induction l as [|x l IH]; cbn [find_map]; intros H y Hy; [by apply elem_of_nil in Hy|].
  destruct (f x) eqn:Hx; [done|]. apply elem_of_cons in Hy as [->|Hy]; auto.
Qed.

Lemma named_last name tags v : last (named_values name tags) = Some v -> v ∈ named_values name tags.
Proof. apply last_Some_elem_of. Qed.

Lemma over_long_Some name max tags r : over_long name max tags = Some r ->
  rule r = "metadata-length" /\ exists v, v ∈ named_values name tags /\ (max < String.length v)%nat.
Proof.
  unfold over_long. destruct (last _) as [v|] eqn:Hv; [|done]. simpl.
  destruct (Nat.ltb_spec max (String.length v)); [|done]. intros [= <-]. split; [done|].
  exists v. split; [by apply named_last|done].
Qed.
Lemma over_long_None name max tags v : over_long name max tags = None ->
  (length (named_values name tags) <= 1)%nat -> v ∈ named_values name tags ->
  (String.length v <= max)%nat.
Proof.
  unfold over_long. destruct (named_values name tags) as [|w [|? ?]]; simpl; [|intros H _|lia].
  - intros _ _ Hv. by apply elem_of_nil in Hv.
  - destruct (Nat.ltb_spec max (String.length w)); [done|]. by intros ->%list_elem_of_singleton.
Qed.
Lemma singleton_limits k max : (k, max) ∈ metadata_limits -> k ∈ PROJECT_SINGLETON_METADATA_TAGS.
Proof. intros H. apply (list_elem_of_fmap_2 fst) in H. exact H. Qed.

(** The rule at an index of the table is broken. *)
Local Ltac breaks n :=
  eexists; split; [apply (list_elem_of_lookup_2 project_rules n); reflexivity|cbn beta].

(** C28: A project is accepted exactly when it breaks none of the rules, and a rejection names a rule
    that it breaks. *)
Theorem project_envelope_spec event :
  match validate_project_envelope event with
  | Ok _ => forall r, ~ violates r (ev_tags event)
  | Err rejection => violates (rule rejection) (ev_tags event)
  end.
Proof.
  unfold validate_project_envelope. cbn zeta. set (tags := ev_tags event).
  destruct (Nat.eqb_spec (length (named_values "d" tags)) 1) as [Hd|Hd]; cbn [negb]; [|by breaks 0%nat].
  destruct (existsb str_is_empty (named_values "d" tags)) eqn:He.
  { breaks 1%nat. apply existsb_exists in He as (d & Hin & Hd0). apply list_elem_of_In. by destruct d. }
  destruct (Nat.ltb_spec PROJECT_MEMBER_CAP (length (named_values "a" tags))) as [Hcap|Hcap];
    [by breaks 2%nat|].
  destruct (find_map _ tags) as [t|] eqn:Har.
  { breaks 3%nat. apply find_map_Some in Har as (t' & Ht & Hb).
    destruct (bad_arity t') eqn:Hbad; [|done]. exists t'. unfold bad_arity in Hbad.
    apply andb_true_iff in Hbad as [Hh%bool_decide_eq_true Hl]. split_and!; [done..|].
    intros [H1 H2]. by rewrite (proj2 (Nat.leb_le _ _) H1), (proj2 (Nat.leb_le _ _) H2) in Hl. }
  pose proof (project_members_spec (named_values "a" tags) []) as Hm.
  destruct (project_members _ []) as [[]|r]; cbn [res_bind]; cycle 1.
  { destruct Hm as [(-> & Hx)|(-> & Hx)]; [by breaks 4%nat|breaks 5%nat].
    intros (m & _ & Hm)%Hx. by apply elem_of_nil in Hm. }
  destruct Hm as (Hcan & Hnd & _).
  destruct (find_map _ PROJECT_SINGLETON_METADATA_TAGS) as [[k n]|] eqn:Hcard.
  { breaks 6%nat. apply find_map_Some in Hcard as (k' & Hk & H). cbn beta zeta in H.
    destruct (Nat.ltb_spec 1 (length (named_values k' tags))); [|done]. by exists k'. }
  assert (Hone : forall k, k ∈ PROJECT_SINGLETON_METADATA_TAGS -> (length (named_values k tags) <= 1)%nat).
  { intros k Hk. pose proof (find_map_None _ _ Hcard k Hk) as H. cbn beta zeta in H.
    by destruct (Nat.ltb_spec 1 (length (named_values k tags))). }
  destruct (find_map _ metadata_limits) as [r|] eqn:Hlen.
  { apply find_map_Some in Hlen as ([k max] & Hk & (Hr & v & Hv & Hl)%over_long_Some).
    rewrite Hr. breaks 7%nat. by exists k, max, v. }
  intros r (bad & Hin & Hbad). unfold project_rules in Hin.
  repeat (apply elem_of_cons in Hin as [[= -> ->]|Hin]); cbn beta in Hbad; [done|..|by apply elem_of_nil in Hin].
  - assert (existsb str_is_empty (named_values "d" tags) = true); [|congruence].
    apply existsb_exists. exists EmptyString. split; [by apply list_elem_of_In|done].
  - lia.
  - destruct Hbad as (t & Ht & Hh & Hl). pose proof (find_map_None _ _ Har t Ht) as H. cbn beta in H.
    unfold bad_arity in H. rewrite bool_decide_true in H by done.
    destruct (Nat.leb_spec 2 (length t)), (Nat.leb_spec (length t) 3); try done. lia.
  - destruct Hbad as (m & Hm & Hn). rewrite Forall_forall in Hcan. auto.
  - done.
  - destruct Hbad as (k & Hk & Hl). specialize (Hone k Hk). lia.
  - destruct Hbad as (k & max & v & Hk & Hv & Hl).
    pose proof (find_map_None _ _ Hlen _ Hk) as H. cbn beta iota in H.
    apply (over_long_None _ _ _ v) in H; [lia| |done]. by apply Hone, (singleton_limits k max).
Qed.

(** * The [shared] tag *)

(** A persona whose [shared] tag is not at the front passes the check and is private to every
    reader's gate, while the containment clause of the store takes it for shared. *)
Definition hidden_shared : Event :=
  mkEvent (replicate 32 Byte.x01) (replicate 32 Byte.x02) 0 KIND_PERSONA
    [["d"; "helper"]; ["t"; "shared"; "true"]] EmptyString.
Lemma shared_tag_hidden :
  validate_persona_envelope hidden_shared = Ok tt /\
  is_unshared_gated_event hidden_shared (replicate 32 Byte.x03) = true /\
  tags_contain "shared" "true" (ev_tags hidden_shared) = true.
Proof. by vm_compute. Qed.

(** * Placement *)

(** A kind that needs a channel is never forced out of one. *)
Lemma placement_consistent kind :
  requires_h_channel_scope kind = true -> is_global_only_kind kind = false.
Proof.
  unfold requires_h_channel_scope. rewrite mem_kind_true. intros H.
  assert (Hall : forallb (fun k => negb (is_global_only_kind k))
    [KIND_STREAM_MESSAGE; KIND_STREAM_MESSAGE_V2; KIND_STREAM_MESSAGE_EDIT;
     KIND_STREAM_MESSAGE_PINNED; KIND_STREAM_MESSAGE_BOOKMARKED; KIND_STREAM_MESSAGE_SCHEDULED;
     KIND_STREAM_REMINDER; KIND_STREAM_MESSAGE_DIFF; KIND_CANVAS; KIND_FORUM_POST;
     KIND_FORUM_VOTE; KIND_FORUM_COMMENT; KIND_NIP29_PUT_USER; KIND_NIP29_REMOVE_USER;
     KIND_NIP29_EDIT_METADATA; KIND_NIP29_DELETE_EVENT; KIND_NIP29_DELETE_GROUP;
     KIND_NIP29_LEAVE_REQUEST; KIND_HUDDLE_STARTED; KIND_HUDDLE_PARTICIPANT_JOINED;
     KIND_HUDDLE_PARTICIPANT_LEFT; KIND_HUDDLE_ENDED; KIND_HUDDLE_GUIDELINES] = true)
    by (vm_compute; reflexivity).
  rewrite forallb_forall in Hall. apply list_elem_of_In, Hall in H. by apply negb_true_iff.
Qed.
