(* ===== verification/Membership.v ===== *)
(** Channels and their members: [crates/buzz-db/src/channel.rs], the direct messages of
    [crates/buzz-db/src/dm.rs] and the agent ownership of [crates/buzz-db/src/user.rs].

    The three tables are finite maps.  A membership write holds the channel's advisory lock
    from its first statement to its commit, so it is one function on the tables; what it
    reads before or besides the lock (the channel row, the owner of an agent) comes from an
    earlier state, an argument.  The theorems hold for every sequence of calls: a channel
    that was created with an owner always keeps one, and pubkeys without an elevated role
    cannot obtain one or take one away. *)
From S2P Require Import Prelude Nostr Channel Text EventStore.
Local Open Scope string_scope.
Local Open Scope list_scope.
Local Open Scope Z_scope.
Local Open Scope buzz_scope.
#[export] Existing Instances ChannelVisibility.t_eq_dec ChannelType.t_eq_dec.

(** * Rows *)

(** [channels]; a topic and a purpose are written together with who set them and when.  The
    columns no function here writes ([nip29_group_id], [topic_required], [max_members]) are
    left out. *)
Record ChannelRow := mkChannel {
  ch_name : string;
  ch_type : ChannelType.t;
  ch_visibility : ChannelVisibility.t;
  ch_description : option string;
  ch_canvas : option string;
  ch_created_by : Bytes;
  ch_created_at : Z;
  ch_updated_at : Z;
  ch_archived_at : option Z;
  ch_deleted_at : option Z;
  ch_topic : option (string * Bytes * Z);
  ch_purpose : option (string * Bytes * Z);
  ch_participant_hash : option Bytes;
  ch_ttl_seconds : option Z;
  ch_ttl_deadline : option Z
}.

(** [channel_members]; the column [role] has the enumerated type of the roles. *)
Record MemberRow := mkMember {
  mb_role : MemberRole;
  mb_joined_at : Z;
  mb_invited_by : option Bytes;
  mb_removed_at : option Z;
  mb_removed_by : option Bytes;
  mb_hidden_at : option Z
}.

Inductive AddPolicy := Anyone | OwnerOnly | Nobody.
#[export] Instance AddPolicy_eq_dec : EqDecision AddPolicy.
Proof. solve_decision. Defined.

(** The columns of [users] the membership functions read. *)
Record UserRow := mkUser {
  us_agent_owner_pubkey : option Bytes;
  us_channel_add_policy : AddPolicy
}.

Definition ChannelKey : Type := Uuid * Uuid.
#[export] Instance ChannelKey_eq_dec : EqDecision ChannelKey := prod_eq_dec.
#[export] Instance ChannelKey_countable : Countable ChannelKey := prod_countable.
Definition MemberKey : Type := ChannelKey * Bytes.
#[export] Instance MemberKey_eq_dec : EqDecision MemberKey := prod_eq_dec.
#[export] Instance MemberKey_countable : Countable MemberKey := prod_countable.
Definition UserKey : Type := Uuid * Bytes.
#[export] Instance UserKey_eq_dec : EqDecision UserKey := prod_eq_dec.
#[export] Instance UserKey_countable : Countable UserKey := prod_countable.

Record ChanDb := mkChanDb {
  cd_channels : gmap ChannelKey ChannelRow;
  cd_members : gmap MemberKey MemberRow;
  cd_users : gmap UserKey UserRow
}.
Definition empty_chan_db : ChanDb := mkChanDb ∅ ∅ ∅.
Definition set_channels (m : gmap ChannelKey ChannelRow) (db : ChanDb) : ChanDb :=
  mkChanDb m (cd_members db) (cd_users db).
Definition set_members (m : gmap MemberKey MemberRow) (db : ChanDb) : ChanDb :=
  mkChanDb (cd_channels db) m (cd_users db).
Definition set_users (m : gmap UserKey UserRow) (db : ChanDb) : ChanDb :=
  mkChanDb (cd_channels db) (cd_members db) m.

(** * Names *)

(** [name.trim_start_matches(|c| c == '#' || c.is_whitespace()).trim_end()] *)
Definition canonical_channel_name (name : string) : string :=
  trim_end (strip_while (String.length name) ("#" :: whitespace) name).
(** The column is a [VARCHAR(255)]. *)
Definition name_fits (name : string) : bool := String.eqb (take_chars 255 name) name.

(** * Reading *)

(** [WHERE community_id = .. AND id = .. AND deleted_at IS NULL] *)
Definition live_channel (db : ChanDb) (k : ChannelKey) : option ChannelRow :=
  c ← cd_channels db !! k;
  if bool_decide (ch_deleted_at c = None) then Some c else None.

Definition get_channel (community channel_id : Uuid) (db : ChanDb) : result ChannelRow DbError :=
  match live_channel db (community, channel_id) with
  | Some c => Ok c
  | None => Err (ChannelNotFound channel_id)
  end.

Definition get_canvas (community channel_id : Uuid) (db : ChanDb)
  : result (option string) DbError :=
  let? c := get_channel community channel_id db in Ok (ch_canvas c).

Definition active (m : MemberRow) : bool := bool_decide (mb_removed_at m = None).

(** [get_active_role_tx]: the role of an active member, whatever the state of the channel. *)
Definition get_active_role_tx (db : ChanDb) (community channel_id : Uuid) (pubkey : Bytes)
  : option MemberRole :=
  m ← cd_members db !! (((community, channel_id) : ChannelKey, pubkey) : MemberKey);
  if active m then Some (mb_role m) else None.

(** [get_member_role]: the same of a live channel. *)
Definition get_member_role (community channel_id : Uuid) (pubkey : Bytes) (db : ChanDb)
  : option MemberRole :=
  match live_channel db (community, channel_id) with
  | Some _ => get_active_role_tx db community channel_id pubkey
  | None => None
  end.

Definition is_member (community channel_id : Uuid) (pubkey : Bytes) (db : ChanDb) : bool :=
  bool_decide (is_Some (get_member_role community channel_id pubkey db)).

(** The rows of [channel_members] a query selects. *)
Definition members_where (p : MemberKey -> MemberRow -> bool) (m : gmap MemberKey MemberRow)
  : list (MemberKey * MemberRow) :=
  List.filter (fun '(k, r) => p k r) (map_to_list m).
Definition in_channel (community channel_id : Uuid) (k : MemberKey) (m : MemberRow) : bool :=
  bool_decide (k.1 = (community, channel_id)) && active m.

(** [SELECT COUNT(..) .. WHERE role = 'owner' AND removed_at IS NULL] *)
Definition owner_count (db : ChanDb) (community channel_id : Uuid) : Z :=
  Z.of_nat (length (members_where (fun k m =>
    in_channel community channel_id k m && bool_decide (mb_role m = Owner)) (cd_members db))).

Definition get_member_count (community channel_id : Uuid) (db : ChanDb) : Z :=
  Z.of_nat (length (members_where (in_channel community channel_id) (cd_members db))).

(** [GROUP BY channel_id]: channels without a member are absent. *)
Definition get_member_counts_bulk (community : Uuid) (channel_ids : list Uuid) (db : ChanDb)
  : gmap Uuid Z :=
  foldr (fun id m =>
           let n := get_member_count community id db in
           if n =? 0 then m else <[id := n]> m) ∅ channel_ids.

Definition membership_pairs (community : Uuid) (channel_ids : list Uuid) (pubkeys : list Bytes)
    (db : ChanDb) : list (Uuid * Bytes) :=
  (fun x : MemberKey * MemberRow => (x.1.1.2, x.1.2)) <$>
  members_where (fun k m =>
    bool_decide (k.1.1 = community) && bool_decide (k.1.2 ∈ channel_ids)
    && bool_decide (k.2 ∈ pubkeys) && active m
    && bool_decide (is_Some (live_channel db k.1))) (cd_members db).

(** [MemberRecord] *)
Record MemberRecord := mkMemberRecord {
  mr_channel : Uuid;
  mr_pubkey : Bytes;
  mr_row : MemberRow
}.
Definition joined_le (a b : MemberRecord) : Prop := mb_joined_at (mr_row a) <= mb_joined_at (mr_row b).
#[export] Instance joined_le_dec : RelDecision joined_le :=
  fun a b => Z.le_dec (mb_joined_at (mr_row a)) (mb_joined_at (mr_row b)).

(** [ORDER BY joined_at ASC]; ties come in no particular order. *)
Definition members_by_age `{HashIter} (community : Uuid) (channel_ids : list Uuid) (db : ChanDb)
  : list MemberRecord :=
  merge_sort joined_le
    ((fun x : MemberKey * MemberRow => mkMemberRecord x.1.1.2 x.1.2 x.2) <$>
     List.filter (fun x : MemberKey * MemberRow =>
         bool_decide (x.1.1.1 = community) && bool_decide (x.1.1.2 ∈ channel_ids) && active x.2
         && bool_decide (is_Some (live_channel db x.1.1)))
       (hash_iter (cd_members db))).
Definition MEMBERS_LIMIT : nat := 1000.
Definition get_members `{HashIter} (community channel_id : Uuid) (db : ChanDb) : list MemberRecord :=
  take MEMBERS_LIMIT (members_by_age community [channel_id] db).
Definition get_members_bulk `{HashIter} (community : Uuid) (channel_ids : list Uuid) (db : ChanDb)
  : list MemberRecord :=
  match channel_ids with [] => [] | _ => members_by_age community channel_ids db end.

(** [get_accessible_channel_ids]: a [UNION] has no duplicates and no order. *)
Definition accessible (db : ChanDb) (pubkey : Bytes) (k : ChannelKey) (c : ChannelRow) : bool :=
  bool_decide (ch_deleted_at c = None)
  && (bool_decide (ch_visibility c = ChannelVisibility.Open)
      || bool_decide (is_Some (get_active_role_tx db k.1 k.2 pubkey))).
Definition get_accessible_channel_ids `{HashIter} (community : Uuid) (pubkey : Bytes) (db : ChanDb)
  : list Uuid :=
  (fun x : ChannelKey * ChannelRow => x.1.2) <$>
  List.filter (fun x : ChannelKey * ChannelRow =>
      bool_decide (x.1.1 = community) && accessible db pubkey x.1 x.2)
    (hash_iter (cd_channels db)).

(** * Writing channels *)

Definition with_archived (a : option Z) (deadline : option Z) (c : ChannelRow) : ChannelRow :=
  mkChannel (ch_name c) (ch_type c) (ch_visibility c) (ch_description c) (ch_canvas c)
    (ch_created_by c) (ch_created_at c) (ch_updated_at c) a (ch_deleted_at c) (ch_topic c)
    (ch_purpose c) (ch_participant_hash c) (ch_ttl_seconds c) deadline.
Definition with_deleted (d : option Z) (c : ChannelRow) : ChannelRow :=
  mkChannel (ch_name c) (ch_type c) (ch_visibility c) (ch_description c) (ch_canvas c)
    (ch_created_by c) (ch_created_at c) (ch_updated_at c) (ch_archived_at c) d (ch_topic c)
    (ch_purpose c) (ch_participant_hash c) (ch_ttl_seconds c) (ch_ttl_deadline c).
(** The columns members write: canvas, topic and purpose. *)
Definition with_texts (canvas : option string) (topic purpose : option (string * Bytes * Z))
    (c : ChannelRow) : ChannelRow :=
  mkChannel (ch_name c) (ch_type c) (ch_visibility c) (ch_description c) canvas
    (ch_created_by c) (ch_created_at c) (ch_updated_at c) (ch_archived_at c) (ch_deleted_at c)
    topic purpose (ch_participant_hash c) (ch_ttl_seconds c) (ch_ttl_deadline c).

(** [INSERT INTO channels]: [None] is a violated constraint (the length of the name, the
    primary key, the nil id, the unique participant hash). *)
Definition hash_taken (community : Uuid) (h : option Bytes) (db : ChanDb) : bool :=
  match h with
  | None => false
  | Some h => existsb (fun x : ChannelKey * ChannelRow =>
      bool_decide (x.1.1 = community) && opt_eqb (ch_participant_hash x.2) (Some h))
      (map_to_list (cd_channels db))
  end.
Definition insert_channel (k : ChannelKey) (c : ChannelRow) : method ChanDb DbError unit :=
  fun db =>
    if negb (name_fits (ch_name c)) || (k.2 =? 0)%N || hash_taken k.1 (ch_participant_hash c) db
       || bool_decide (is_Some (cd_channels db !! k))
    then (db, Err Sqlx)
    else (set_channels (<[k := c]> (cd_channels db)) db, Ok tt).

(** [INSERT INTO channel_members .. ON CONFLICT .. DO UPDATE SET removed_at = NULL,
    removed_by = NULL, role = EXCLUDED.role] *)
Definition upsert_member (now : Z) (k : MemberKey) (role : MemberRole) (invited_by : option Bytes)
  : method ChanDb DbError unit :=
  m_modify (fun db =>
    let row :=
      match cd_members db !! k with
      | Some m => mkMember role (mb_joined_at m) (mb_invited_by m) None None (mb_hidden_at m)
      | None => mkMember role now invited_by None None None
      end in
    set_members (<[k := row]> (cd_members db)) db).

Definition new_channel (env : Env) (name : string) (type : ChannelType.t)
    (visibility : ChannelVisibility.t) (description : option string) (created_by : Bytes)
    (hash : option Bytes) (ttl_seconds : option Z) : ChannelRow :=
  mkChannel name type visibility description None created_by (env_now env) (env_now env) None None
    None None hash ttl_seconds ((fun s => env_now env + s) <$> ttl_seconds).

(** The checks both creations start with. *)
Definition creatable (channel_id : option Uuid) (name : string) (created_by : Bytes)
  : result string DbError :=
  if negb (Nat.eqb (length created_by) 32) then Err (InvalidData "pubkey must be 32 bytes")
  else if bool_decide (channel_id = Some 0%N) then Err (InvalidData "channel_id must not be nil")
  else
    let name := canonical_channel_name name in
    if str_is_empty (trim name) then Err (InvalidData "channel name is required") else Ok name.

(** [create_channel]; [id] is [Uuid::new_v4()]. *)
Definition create_channel (env : Env) (id : Uuid) (community : Uuid) (name : string)
    (type : ChannelType.t) (visibility : ChannelVisibility.t) (description : option string)
    (created_by : Bytes) (ttl_seconds : option Z) : method ChanDb DbError ChannelRow :=
  do? name <- m_read (fun _ => creatable None name created_by) ;;
  let row := new_channel env name type visibility description created_by None ttl_seconds in
  transaction env
    (do? _ <- insert_channel (community, id) row ;;
     do? _ <- upsert_member (env_now env) ((community, id) : ChannelKey, created_by) Owner (Some created_by) ;;
     m_ret (Commit row)).

Definition create_channel_with_id (env : Env) (community channel_id : Uuid) (name : string)
    (type : ChannelType.t) (visibility : ChannelVisibility.t) (description : option string)
    (created_by : Bytes) (ttl_seconds : option Z) : method ChanDb DbError (ChannelRow * bool) :=
  do? name <- m_read (fun _ => creatable (Some channel_id) name created_by) ;;
  let row := new_channel env name type visibility description created_by None ttl_seconds in
  let k : ChannelKey := (community, channel_id) in
  transaction env
    (do? existing <- m_read (fun db => Ok (cd_channels db !! k)) ;;
     match existing with
     | Some c => if name_fits name then m_ret (Commit (c, false)) else m_fail Sqlx
     | None =>
         do? _ <- insert_channel k row ;;
         do? _ <- upsert_member (env_now env) (k, created_by) Owner (Some created_by) ;;
         m_ret (Commit (row, true))
     end).

(** [UPDATE channels SET .. WHERE .. AND deleted_at IS NULL]; [ChannelNotFound] when no row
    is affected. *)
Definition update_live (community channel_id : Uuid) (f : ChannelRow -> ChannelRow)
  : method ChanDb DbError unit :=
  fun db =>
    match live_channel db (community, channel_id) with
    | Some c => (set_channels (<[((community, channel_id) : ChannelKey) := f c]> (cd_channels db)) db, Ok tt)
    | None => (db, Err (ChannelNotFound channel_id))
    end.

Definition set_canvas (community channel_id : Uuid) (canvas : option string) :=
  update_live community channel_id (fun c => with_texts canvas (ch_topic c) (ch_purpose c) c).
Definition set_topic (env : Env) (community channel_id : Uuid) (topic : string) (set_by : Bytes) :=
  update_live community channel_id (fun c =>
    with_texts (ch_canvas c) (Some (topic, set_by, env_now env)) (ch_purpose c) c).
Definition set_purpose (env : Env) (community channel_id : Uuid) (purpose : string) (set_by : Bytes) :=
  update_live community channel_id (fun c =>
    with_texts (ch_canvas c) (ch_topic c) (Some (purpose, set_by, env_now env)) c).

Record ChannelUpdate := mkUpdate {
  up_name : option string;
  up_description : option string;
  up_visibility : option string;
  up_ttl_seconds : option (option Z)
}.
Definition no_update : ChannelUpdate := mkUpdate None None None None.
(** The [SET] clause; the deadline follows a change of the TTL. *)
Definition apply_update (env : Env) (u : ChannelUpdate) (vis : option ChannelVisibility.t)
    (c : ChannelRow) : ChannelRow :=
  mkChannel (default (ch_name c) (up_name u)) (ch_type c)
    (default (ch_visibility c) vis)
    (match up_description u with Some d => Some d | None => ch_description c end) (ch_canvas c)
    (ch_created_by c) (ch_created_at c) (env_now env) (ch_archived_at c) (ch_deleted_at c)
    (ch_topic c) (ch_purpose c) (ch_participant_hash c)
    (default (ch_ttl_seconds c) (up_ttl_seconds u))
    (match up_ttl_seconds u with
     | Some (Some secs) => Some (env_now env + secs)
     | Some None => None
     | None => ch_ttl_deadline c
     end).
(** The statement and the read of the result. *)
Definition update_channel_row (env : Env) (community channel_id : Uuid) (u : ChannelUpdate)
    (vis : option ChannelVisibility.t) : method ChanDb DbError ChannelRow :=
  do? _ <- transaction env
    (do? c <- m_read (get_channel community channel_id) ;;
     if negb (match up_name u with Some n => name_fits n | None => true end) then m_fail Sqlx
     else
       do? _ <- update_live community channel_id (apply_update env u vis) ;;
       m_ret (Commit tt)) ;;
  m_read (get_channel community channel_id).
(** [update_channel]; a visibility that is not one of the enumeration is a database error. *)
Definition update_channel (env : Env) (community channel_id : Uuid) (u : ChannelUpdate)
  : method ChanDb DbError ChannelRow :=
  match u with
  | mkUpdate None None None None =>
      m_fail (InvalidData "at least one field must be provided for update")
  | _ =>
      let u := mkUpdate (canonical_channel_name <$> up_name u) (up_description u)
                 (up_visibility u) (up_ttl_seconds u) in
      if bool_decide (up_name u = Some EmptyString)
      then m_fail (InvalidData "channel name is required")
      else
        match ChannelVisibility.from_str <$> up_visibility u with
        | Some (Err _) => m_fail Sqlx
        | Some (Ok v) => update_channel_row env community channel_id u (Some v)
        | None => update_channel_row env community channel_id u None
        end
  end.

Definition archive_channel (env : Env) (community channel_id : Uuid) : method ChanDb DbError unit :=
  do? c <- m_read (get_channel community channel_id) ;;
  if bool_decide (is_Some (ch_archived_at c)) then m_fail (AccessDenied "channel is already archived")
  else update_live community channel_id (fun c => with_archived (Some (env_now env)) (ch_ttl_deadline c) c).

Definition unarchive_channel (env : Env) (community channel_id : Uuid) : method ChanDb DbError unit :=
  do? c <- m_read (get_channel community channel_id) ;;
  if bool_decide (ch_archived_at c = None) then m_fail (AccessDenied "channel is not archived")
  else update_live community channel_id (fun c =>
         with_archived None
           (match ch_ttl_seconds c with
            | Some s => Some (env_now env + s)
            | None => ch_ttl_deadline c
            end) c).

Definition soft_delete_channel (env : Env) (community channel_id : Uuid)
  : method ChanDb DbError bool :=
  fun db =>
    match live_channel db (community, channel_id) with
    | Some c => (set_channels (<[((community, channel_id) : ChannelKey) := with_deleted (Some (env_now env)) c]>
                                 (cd_channels db)) db, Ok true)
    | None => (db, Ok false)
    end.

(** [reap_expired_ephemeral_channels]; the table of communities is an argument. *)
Definition expired (now : Z) (community_live : Uuid -> bool) (k : ChannelKey) (c : ChannelRow) : bool :=
  bool_decide (is_Some (ch_ttl_seconds c))
  && match ch_ttl_deadline c with Some d => d <? now | None => false end
  && bool_decide (ch_archived_at c = None) && bool_decide (ch_deleted_at c = None)
  && community_live k.1.
Definition reap_expired_ephemeral_channels `{HashIter} (env : Env) (community_live : Uuid -> bool)
  : method ChanDb DbError (list ChannelKey) :=
  fun db =>
    let hit k c := expired (env_now env) community_live k c in
    (set_channels (map_imap (fun k c =>
         Some (if hit k c then with_archived (Some (env_now env)) (ch_ttl_deadline c) c else c))
       (cd_channels db)) db,
     Ok (fst <$> List.filter (fun x : ChannelKey * ChannelRow => hit x.1 x.2)
                   (hash_iter (cd_channels db)))).

(** * Writing members *)

(** [is_agent_owner] *)
Definition is_agent_owner (community : Uuid) (target actor : Bytes) (db : ChanDb) : bool :=
  match cd_users db !! ((community, target) : UserKey) with
  | Some u => opt_eqb (us_agent_owner_pubkey u) (Some actor)
  | None => false
  end.

(** The role a new membership may have, from the channel read before, [role] and the inviter. *)
Definition authorized_role (db : ChanDb) (channel : ChannelRow) (community channel_id : Uuid)
    (pubkey : Bytes) (role : MemberRole) (invited_by : option Bytes) : result MemberRole DbError :=
  if bool_decide (ch_visibility channel = ChannelVisibility.Private) then
    match invited_by with
    | None => Err (AccessDenied "private channel requires an invite")
    | Some inviter =>
        let is_creator_bootstrap :=
          bool_decide (inviter = pubkey) && bool_decide (inviter = ch_created_by channel) in
        if is_creator_bootstrap then Ok role
        else
          match get_active_role_tx db community channel_id inviter with
          | None => Err (AccessDenied "inviter is not an active member")
          | Some inviter_role =>
              if Role.is_elevated role && negb (Role.is_elevated inviter_role)
              then Err (AccessDenied "only owners/admins may grant elevated roles")
              else Ok role
          end
    end
  else if Role.is_elevated role then
    match invited_by ≫= get_active_role_tx db community channel_id with
    | Some Owner | Some Admin => Ok role
    | _ => Err (AccessDenied "only owners/admins may grant elevated roles")
    end
  else Ok role.

(** The guard on changing the role of an active member. *)
Definition role_change_allowed (db : ChanDb) (community channel_id : Uuid) (pubkey : Bytes)
    (effective_role : MemberRole) (invited_by : option Bytes) : result unit DbError :=
  match get_active_role_tx db community channel_id pubkey with
  | Some current_role =>
      if bool_decide (current_role = effective_role) then Ok tt
      else
        let actor_role := invited_by ≫= get_active_role_tx db community channel_id in
        if negb (match actor_role with Some r => Role.is_elevated r | None => false end)
        then Err (AccessDenied "only owners/admins may change an active member's role")
        else if bool_decide (current_role = Owner) && negb (bool_decide (effective_role = Owner))
                && (owner_count db community channel_id <=? 1)
        then Err (AccessDenied "cannot demote the last owner")
        else Ok tt
  | None => Ok tt
  end.

(** [add_member]; [seen] is the state the channel row was read in. *)
Definition add_member (env : Env) (seen : ChanDb) (community channel_id : Uuid) (pubkey : Bytes)
    (role : MemberRole) (invited_by : option Bytes) : method ChanDb DbError MemberRecord :=
  if negb (Nat.eqb (length pubkey) 32) then m_fail (InvalidData "pubkey must be 32 bytes")
  else
    let k : MemberKey := ((community, channel_id) : ChannelKey, pubkey) in
    transaction env
      (do? channel <- m_read (fun _ => get_channel community channel_id seen) ;;
       do? effective_role <- m_read (fun db =>
         authorized_role db channel community channel_id pubkey role invited_by) ;;
       do? _ <- m_read (fun db =>
         role_change_allowed db community channel_id pubkey effective_role invited_by) ;;
       do? _ <- upsert_member (env_now env) k effective_role invited_by ;;
       do? row <- m_read (fun db =>
         match cd_members db !! k with Some m => Ok m | None => Err Sqlx end) ;;
       m_ret (Commit (mkMemberRecord channel_id pubkey row))).

Definition removal_allowed (db : ChanDb) (community channel_id : Uuid) (pubkey actor : Bytes)
    (actor_is_agent_owner : bool) : result unit DbError :=
  let? _ :=
    if bool_decide (pubkey = actor) then Ok tt
    else
      match get_active_role_tx db community channel_id actor with
      | None => Err (AccessDenied "actor is not an active member")
      | Some actor_role =>
          if negb (Role.is_elevated actor_role) && negb actor_is_agent_owner
          then Err (AccessDenied "only owners/admins or the agent's owner may remove other members")
          else Ok tt
      end in
  if bool_decide (get_active_role_tx db community channel_id pubkey = Some Owner)
     && (owner_count db community channel_id <=? 1)
  then Err (AccessDenied "cannot remove the last owner")
  else Ok tt.

(** [remove_member]; [seen] is the state the agent's owner was read in. *)
Definition remove_member (env : Env) (seen : ChanDb) (community channel_id : Uuid)
    (pubkey actor : Bytes) : method ChanDb DbError unit :=
  let actor_is_agent_owner :=
    negb (bool_decide (pubkey = actor)) && is_agent_owner community pubkey actor seen in
  let k : MemberKey := ((community, channel_id) : ChannelKey, pubkey) in
  transaction env
    (do? _ <- m_read (fun db =>
       removal_allowed db community channel_id pubkey actor actor_is_agent_owner) ;;
     do? row <- m_read (fun db => Ok (cd_members db !! k)) ;;
     match row with
     | Some m =>
         if active m then
           do? _ <- m_modify (fun db => set_members
             (<[k := mkMember (mb_role m) (mb_joined_at m) (mb_invited_by m) (Some (env_now env))
                       (Some actor) (mb_hidden_at m)]> (cd_members db)) db) ;;
           m_ret (Commit tt)
         else m_fail (MemberNotFound channel_id)
     | None => m_fail (MemberNotFound channel_id)
     end).

(** * Agents *)

Definition ensure_user (community : Uuid) (pubkey : Bytes) : method ChanDb DbError bool :=
  fun db =>
    match cd_users db !! ((community, pubkey) : UserKey) with
    | Some _ => (db, Ok false)
    | None => (set_users (<[((community, pubkey) : UserKey) := mkUser None Anyone]> (cd_users db)) db, Ok true)
    end.

(** [set_agent_owner]: the first owner stays. *)
Definition set_agent_owner (community : Uuid) (agent owner : Bytes) : method ChanDb DbError bool :=
  fun db =>
    match cd_users db !! ((community, agent) : UserKey) with
    | None => (db, Err (NotFound "agent pubkey not found in users table"))
    | Some u =>
        match us_agent_owner_pubkey u with
        | Some _ => (db, Ok false)
        | None =>
            (set_users (<[((community, agent) : UserKey) :=
                            mkUser (Some owner) (us_channel_add_policy u)]> (cd_users db)) db, Ok true)
        end
    end.

Definition add_policy_from_str (s : string) : option AddPolicy :=
  if String.eqb s "anyone" then Some Anyone
  else if String.eqb s "owner_only" then Some OwnerOnly
  else if String.eqb s "nobody" then Some Nobody
  else None.
Definition set_channel_add_policy (community : Uuid) (pubkey : Bytes) (policy : string)
  : method ChanDb DbError unit :=
  match add_policy_from_str policy with
  | None => m_fail (InvalidData ("invalid channel_add_policy: " ++ policy)%string)
  | Some p =>
      fun db =>
        match cd_users db !! ((community, pubkey) : UserKey) with
        | None => (db, Err (NotFound "pubkey not found in users table"))
        | Some u =>
            (set_users (<[((community, pubkey) : UserKey) := mkUser (us_agent_owner_pubkey u) p]>
                          (cd_users db)) db, Ok tt)
        end
  end.
Definition get_agent_channel_policy (community : Uuid) (pubkey : Bytes) (db : ChanDb)
  : option (AddPolicy * option Bytes) :=
  (fun u => (us_channel_add_policy u, us_agent_owner_pubkey u))
    <$> cd_users db !! ((community, pubkey) : UserKey).

(** * Direct messages *)

(** [Sha256::digest] ([sha2]). *)
Class Digest := sha256 : Bytes -> Bytes.

Definition bytes_order (a b : Bytes) : Prop := bytes_le a b = true.
#[export] Instance bytes_order_dec : RelDecision bytes_order :=
  fun a b => decide (bytes_le a b = true).
(** [Vec::dedup] *)
Fixpoint dedup_runs {A : Type} `{EqDecision A} (l : list A) : list A :=
  match l with
  | [] => []
  | x :: l' =>
      match l' with
      | y :: _ => if bool_decide (x = y) then dedup_runs l' else x :: dedup_runs l'
      | [] => [x]
      end
  end.

Section dms.
Context `{Digest}.

Definition compute_participant_hash (pubkeys : list Bytes) : Bytes :=
  sha256 (concat (dedup_runs (merge_sort bytes_order pubkeys))).

Definition is_dm (community : Uuid) (hash : Bytes) (k : ChannelKey) (c : ChannelRow) : bool :=
  bool_decide (k.1 = community) && opt_eqb (ch_participant_hash c) (Some hash)
  && bool_decide (ch_type c = ChannelType.Dm) && bool_decide (ch_deleted_at c = None).
(** [LIMIT 1]; the unique index allows one row. *)
Definition find_dm_by_participants (community : Uuid) (hash : Bytes) (db : ChanDb)
  : option (ChannelKey * ChannelRow) :=
  head (List.filter (fun x : ChannelKey * ChannelRow => is_dm community hash x.1 x.2)
          (map_to_list (cd_channels db))).

Definition dm_name (participants : list Bytes) : string :=
  if Nat.eqb (length participants) 2 then "DM"
  else ("Group DM (" ++ pretty.pretty (N.of_nat (length participants)) ++ ")")%string.

(** [create_dm]; [id] is [Uuid::new_v4()]. *)
Definition create_dm (env : Env) (id community : Uuid) (participants : list Bytes)
    (created_by : Bytes) : method ChanDb DbError (ChannelKey * ChannelRow) :=
  if Nat.ltb (length participants) 2 then m_fail (InvalidData "DM requires at least 2 participants")
  else if Nat.ltb 9 (length participants)
  then m_fail (InvalidData "DM supports at most 9 participants")
  else if existsb (fun pk : Bytes => negb (Nat.eqb (length pk) 32)) participants
  then m_fail (InvalidData "pubkey must be 32 bytes")
  else
    let hash := compute_participant_hash participants in
    let k : ChannelKey := (community, id) in
    let row := new_channel env (dm_name participants) ChannelType.Dm ChannelVisibility.Private None
                 created_by (Some hash) None in
    transaction env
      (do? existing <- m_read (fun db => Ok (find_dm_by_participants community hash db)) ;;
       match existing with
       | Some found => m_ret (Commit found)
       | None =>
           do? _ <- insert_channel k row ;;
           do? _ <- foldl (fun m pk =>
                      do? _ <- m ;; upsert_member (env_now env) (k, pk) Member (Some created_by))
                      (m_ret tt) participants ;;
           m_ret (Commit (k, row))
       end).

(** [UPDATE channel_members SET hidden_at = .. WHERE .. AND removed_at IS NULL]; the result is
    whether a row was affected. *)
Definition set_hidden (community channel_id : Uuid) (pubkey : Bytes) (hidden_at : option Z)
  : method ChanDb DbError bool :=
  fun db =>
    let k : MemberKey := ((community, channel_id) : ChannelKey, pubkey) in
    match cd_members db !! k with
    | Some m =>
        if active m then
          (set_members (<[k := mkMember (mb_role m) (mb_joined_at m) (mb_invited_by m)
                                 (mb_removed_at m) (mb_removed_by m) hidden_at]> (cd_members db)) db,
           Ok true)
        else (db, Ok false)
    | None => (db, Ok false)
    end.
Definition hide_dm (env : Env) (community channel_id : Uuid) (pubkey : Bytes)
  : method ChanDb DbError unit :=
  do? hit <- set_hidden community channel_id pubkey (Some (env_now env)) ;;
  if hit : bool then m_ret tt else m_fail (NotFound "no active membership for channel").
Definition unhide_dm (community channel_id : Uuid) (pubkey : Bytes) : method ChanDb DbError unit :=
  do? _ <- set_hidden community channel_id pubkey None ;; m_ret tt.

(** [open_dm]; [seen] is the state of the first lookup. *)
Definition open_dm (env : Env) (seen : ChanDb) (id community : Uuid) (pubkeys : list Bytes)
    (created_by : Bytes) : method ChanDb DbError ((ChannelKey * ChannelRow) * bool) :=
  let all := if bool_decide (created_by ∈ pubkeys) then pubkeys else pubkeys ++ [created_by] in
  if Nat.ltb 9 (length all) then m_fail (InvalidData "DM supports at most 9 participants")
  else
    match find_dm_by_participants community (compute_participant_hash all) seen with
    | Some existing =>
        do? _ <- unhide_dm community existing.1.2 created_by ;;
        m_ret (existing, false)
    | None =>
        do? channel <- create_dm env id community all created_by ;;
        m_ret (channel, true)
    end.

(** [ORDER BY cm.channel_id] *)
Definition list_hidden_dms (community : Uuid) (pubkey : Bytes) (db : ChanDb) : list Uuid :=
  merge_sort N.le
    ((fun x : MemberKey * MemberRow => x.1.1.2) <$>
     members_where (fun k m =>
       bool_decide (k.1.1 = community) && bool_decide (k.2 = pubkey) && active m
       && bool_decide (is_Some (mb_hidden_at m))
       && match live_channel db k.1 with
          | Some c => bool_decide (ch_type c = ChannelType.Dm)
          | None => false
          end) (cd_members db)).
End dms.

(** * Calls *)

(** One call that writes the tables, with its arguments. *)
Inductive ChanOp :=
| OpCreate (id community : Uuid) (name : string) (type : ChannelType.t)
    (visibility : ChannelVisibility.t) (description : option string) (created_by : Bytes)
    (ttl : option Z)
| OpCreateWithId (community channel_id : Uuid) (name : string) (type : ChannelType.t)
    (visibility : ChannelVisibility.t) (description : option string) (created_by : Bytes)
    (ttl : option Z)
| OpAdd (seen : ChanDb) (community channel_id : Uuid) (pubkey : Bytes) (role : MemberRole)
    (invited_by : option Bytes)
| OpRemove (seen : ChanDb) (community channel_id : Uuid) (pubkey actor : Bytes)
| OpOpenDm (seen : ChanDb) (id community : Uuid) (pubkeys : list Bytes) (created_by : Bytes)
| OpHide (community channel_id : Uuid) (pubkey : Bytes)
| OpUnhide (community channel_id : Uuid) (pubkey : Bytes)
| OpUpdate (community channel_id : Uuid) (u : ChannelUpdate)
| OpCanvas (community channel_id : Uuid) (canvas : option string)
| OpTopic (community channel_id : Uuid) (topic : string) (by_ : Bytes)
| OpPurpose (community channel_id : Uuid) (purpose : string) (by_ : Bytes)
| OpArchive (community channel_id : Uuid)
| OpUnarchive (community channel_id : Uuid)
| OpDelete (community channel_id : Uuid)
| OpReap (community_live : Uuid -> bool)
| OpEnsureUser (community : Uuid) (pubkey : Bytes)
| OpAgentOwner (community : Uuid) (agent owner : Bytes)
| OpPolicy (community : Uuid) (pubkey : Bytes) (policy : string).

Section calls.
Context `{Digest} `{HashIter}.

Definition run_op (env : Env) (op : ChanOp) (db : ChanDb) : ChanDb :=
  match op with
  | OpCreate id c n t v d by_ ttl => fst (create_channel env id c n t v d by_ ttl db)
  | OpCreateWithId c ch n t v d by_ ttl => fst (create_channel_with_id env c ch n t v d by_ ttl db)
  | OpAdd seen c ch pk r inv => fst (add_member env seen c ch pk r inv db)
  | OpRemove seen c ch pk a => fst (remove_member env seen c ch pk a db)
  | OpOpenDm seen id c pks by_ => fst (open_dm env seen id c pks by_ db)
  | OpHide c ch pk => fst (hide_dm env c ch pk db)
  | OpUnhide c ch pk => fst (unhide_dm c ch pk db)
  | OpUpdate c ch u => fst (update_channel env c ch u db)
  | OpCanvas c ch t => fst (set_canvas c ch t db)
  | OpTopic c ch t by_ => fst (set_topic env c ch t by_ db)
  | OpPurpose c ch t by_ => fst (set_purpose env c ch t by_ db)
  | OpArchive c ch => fst (archive_channel env c ch db)
  | OpUnarchive c ch => fst (unarchive_channel env c ch db)
  | OpDelete c ch => fst (soft_delete_channel env c ch db)
  | OpReap live => fst (reap_expired_ephemeral_channels env live db)
  | OpEnsureUser c pk => fst (ensure_user c pk db)
  | OpAgentOwner c a o => fst (set_agent_owner c a o db)
  | OpPolicy c pk p => fst (set_channel_add_policy c pk p db)
  end.

(** On whose behalf a call changes the roles of a channel that exists already. *)
Definition op_actor (op : ChanOp) : option Bytes :=
  match op with
  | OpCreate _ _ _ _ _ _ by_ _ | OpCreateWithId _ _ _ _ _ _ by_ _ => Some by_
  | OpAdd _ _ _ _ _ inv => inv
  | OpRemove _ _ _ _ a => Some a
  | _ => None
  end.
(** The state a call read before its lock. *)
Definition op_seen (op : ChanOp) : option ChanDb :=
  match op with
  | OpAdd seen _ _ _ _ _ | OpRemove seen _ _ _ _ | OpOpenDm seen _ _ _ _ => Some seen
  | _ => None
  end.
End calls.

(** * Lemmas on transactions and roles *)

(** The role of an active member. *)
Definition role_at (db : ChanDb) (k : ChannelKey) (pk : Bytes) : option MemberRole :=
  get_active_role_tx db k.1 k.2 pk.

Lemma role_at_eq db k pk :
  role_at db k pk =
  match cd_members db !! ((k, pk) : MemberKey) with
  | Some m => if active m then Some (mb_role m) else None
  | None => None
  end.
Proof. unfold role_at, get_active_role_tx. destruct k as [c ch]. simpl. by destruct (cd_members db !! _). Qed.

Lemma role_at_members db db' k pk :
  cd_members db' !! ((k, pk) : MemberKey) = cd_members db !! ((k, pk) : MemberKey) -> role_at db' k pk = role_at db k pk.
Proof. rewrite !role_at_eq. by intros ->. Qed.

Lemma role_at_insert db k pk m k' pk' channels users :
  role_at (mkChanDb channels (<[((k, pk) : MemberKey) := m]> (cd_members db)) users) k' pk' =
  if bool_decide ((k', pk') = (k, pk)) then if active m then Some (mb_role m) else None
  else role_at db k' pk'.
Proof.
  rewrite !role_at_eq. simpl. case_bool_decide as Heq.
  - injection Heq as -> ->. by rewrite lookup_insert_eq.
  - by rewrite lookup_insert_ne by congruence.
Qed.

Lemma owners_of db k : exists l : list Bytes,
  NoDup l /\ Z.of_nat (length l) = owner_count db k.1 k.2 /\
  forall pk, pk ∈ l <-> role_at db k pk = Some Owner.
Proof.
  destruct k as [c ch]. unfold owner_count, members_where. simpl.
  set (p := fun '(k, r) => in_channel c ch k r && bool_decide (mb_role r = Owner)).
  assert (Hp : forall (k : MemberKey) m, (k, m) ∈ List.filter p (map_to_list (cd_members db)) <->
     cd_members db !! k = Some m /\ k.1 = (c, ch) /\ active m = true /\ mb_role m = Owner).
  { intros k m. rewrite list_elem_of_In, filter_In, <-list_elem_of_In, elem_of_map_to_list.
    unfold p, in_channel. rewrite !andb_true_iff, !bool_decide_eq_true. tauto. }
  exists ((fun x : MemberKey * MemberRow => x.1.2) <$> List.filter p (map_to_list (cd_members db))).
  split_and!; [|by rewrite length_fmap|].
  - apply NoDup_fmap_2_strong.
    + intros [[k1 pk1] m1] [[k2 pk2] m2] H1 H2 Heq. simpl in Heq. subst pk2.
      apply Hp in H1 as (H1 & Hk1 & _). apply Hp in H2 as (H2 & Hk2 & _). simpl in *. subst.
      congruence.
    + apply NoDup_ListNoDup, List.NoDup_filter, NoDup_ListNoDup, NoDup_map_to_list.
  - intros pk. rewrite role_at_eq, list_elem_of_fmap. split.
    + intros ([[k pk'] m] & -> & (Hm & Hk & Ha & Hr)%Hp). simpl in *. subst k.
      by rewrite Hm, Ha, Hr.
    + destruct (cd_members db !! _) as [m|] eqn:Hm; [|done].
      destruct (active m) eqn:Ha; [|done]. intros [= Hr].
      exists (((c, ch), pk) : MemberKey, m). split; [done|]. by apply Hp.
Qed.

Lemma owner_count_pos db k : 0 < owner_count db k.1 k.2 <-> exists pk, role_at db k pk = Some Owner.
Proof.
  destruct (owners_of db k) as (l & _ & <- & Hl). setoid_rewrite <-Hl.
  destruct l as [|x l]; simpl; split.
  - lia.
  - intros [pk Hpk]. by apply elem_of_nil in Hpk.
  - exists x. left.
  - lia.
Qed.

(** With two owners, one is left whichever member changes. *)
Lemma owner_count_two db k pk :
  1 < owner_count db k.1 k.2 -> exists pk', pk' <> pk /\ role_at db k pk' = Some Owner.
Proof.
  destruct (owners_of db k) as (l & Hnd & <- & Hl). setoid_rewrite <-Hl.
  destruct l as [|x [|y l]]; simpl; [lia|lia|]. intros _.
  apply NoDup_cons in Hnd as [Hx _]. destruct (decide (x = pk)) as [->|]; [|exists x; set_solver].
  exists y. set_solver.
Qed.

(** * What a call does *)

(** [db0] is an earlier state of [db]: channels are never dropped, their creator and their
    participants never change, nor does the owner of an agent once it is set. *)
Record earlier (db0 db : ChanDb) : Prop := {
  ea_channel k c : cd_channels db0 !! k = Some c ->
    exists c', cd_channels db !! k = Some c' /\ ch_created_by c' = ch_created_by c /\
               ch_participant_hash c' = ch_participant_hash c;
  ea_owner (k : UserKey) u o : cd_users db0 !! k = Some u -> us_agent_owner_pubkey u = Some o ->
    exists u', cd_users db !! k = Some u' /\ us_agent_owner_pubkey u' = Some o
}.
#[export] Instance earlier_preorder : PreOrder earlier.
Proof.
  split; [split; eauto|]. intros db1 db2 db3 [H1 H1'] [H2 H2']. split.
  - intros k c (c' & Hc' & Hb & Hh)%H1. apply H2 in Hc' as (c'' & Hc'' & Hb' & Hh').
    exists c''. split_and!; [done|congruence..].
  - intros k u o Hu Ho. destruct (H1' k u o Hu Ho) as (u' & Hu' & Ho'). eauto.
Qed.

Lemma earlier_agent_owner seen db c target actor :
  earlier seen db -> is_agent_owner c target actor seen = true ->
  is_agent_owner c target actor db = true.
Proof.
  intros He. unfold is_agent_owner. destruct (cd_users seen !! _) as [u|] eqn:Hu; [|done].
  rewrite opt_eqb_true. intros Ho. destruct (ea_owner _ _ He _ _ _ Hu Ho) as (u' & -> & Ho').
  by apply opt_eqb_true.
Qed.

Definition elevated_at (db : ChanDb) (k : ChannelKey) (pk : Bytes) : Prop :=
  exists r, role_at db k pk = Some r /\ Role.is_elevated r = true.

(** The ways the role of [pk] in a channel may change in one call made for [actor]. *)
Inductive role_change (db : ChanDb) (k : ChannelKey) (actor : option Bytes) (pk : Bytes)
  : option MemberRole -> Prop :=
| change_granted r :
    (Role.is_elevated r = true ->
       (exists a, actor = Some a /\ elevated_at db k a) \/
       (actor = Some pk /\ exists c, cd_channels db !! k = Some c /\ ch_created_by c = pk)) ->
    (forall r0, role_at db k pk = Some r0 -> r0 <> r -> exists a, actor = Some a /\ elevated_at db k a) ->
    (role_at db k pk = Some Owner -> r <> Owner -> 1 < owner_count db k.1 k.2) ->
    role_change db k actor pk (Some r)
| change_removed a :
    actor = Some a ->
    (a = pk \/ elevated_at db k a \/ is_agent_owner k.1 pk a db = true) ->
    (role_at db k pk = Some Owner -> 1 < owner_count db k.1 k.2) ->
    role_change db k actor pk None.

(** At most one member of the channel changes, in one of those ways. *)
Definition roles_step (db db' : ChanDb) (k : ChannelKey) (actor : option Bytes) : Prop :=
  (forall pk, role_at db' k pk = role_at db k pk) \/
  exists pk, role_change db k actor pk (role_at db' k pk) /\
             forall pk', pk' <> pk -> role_at db' k pk' = role_at db k pk'.

(** What one call made for [actor] does to the tables. *)
Record effect (db db' : ChanDb) (actor : option Bytes) : Prop := {
  ef_earlier : earlier db db';
  ef_created k c : cd_channels db' !! k = Some c -> cd_channels db !! k = None ->
    ch_participant_hash c = None -> role_at db' k (ch_created_by c) = Some Owner;
  ef_roles k : is_Some (cd_channels db !! k) -> roles_step db db' k actor
}.

Lemma effect_none db actor : effect db db actor.
Proof. split; [done|by intros ? ? ->|by left]. Qed.

(** A call that writes no membership and drops or re-creates no channel. *)
Lemma effect_channels db actor m : (forall k c, cd_channels db !! k = Some c ->
    exists c', m !! k = Some c' /\ ch_created_by c' = ch_created_by c /\
               ch_participant_hash c' = ch_participant_hash c) ->
  (forall k, cd_channels db !! k = None -> m !! k = None) ->
  effect db (set_channels m db) actor.
Proof.
  intros Hkeep Hnew. split.
  - split; [exact Hkeep|]. simpl. eauto.
  - intros k c Hk Hno. simpl in Hk. rewrite (Hnew k Hno) in Hk. done.
  - intros k _. by left.
Qed.

Lemma effect_update_live c ch f db actor :
  (forall r, ch_created_by (f r) = ch_created_by r /\
             ch_participant_hash (f r) = ch_participant_hash r) ->
  effect db (fst (update_live c ch f db)) actor.
Proof.
  intros Hf. unfold update_live, live_channel.
  destruct (cd_channels db !! ((c, ch) : ChannelKey)) as [r|] eqn:Hr; simpl; [|apply effect_none].
  case_bool_decide; simpl; [|apply effect_none]. apply effect_channels.
  - intros k r0 Hk. destruct (decide (k = ((c, ch) : ChannelKey))) as [->|Hne].
    + rewrite Hk in Hr. injection Hr as ->. exists (f r). rewrite lookup_insert_eq. by destruct (Hf r).
    + exists r0. by rewrite lookup_insert_ne by congruence.
  - intros k Hk. rewrite lookup_insert_ne; [done|]. congruence.
Qed.

Lemma earlier_refl_members db m : earlier db (set_members m db).
Proof. split; simpl; eauto. Qed.

(** A write of one membership row. *)
Lemma effect_member_write db k pk m actor :
  (role_at db k pk = (if active m then Some (mb_role m) else None) \/
   role_change db k actor pk (if active m then Some (mb_role m) else None)) ->
  effect db (set_members (<[((k, pk) : MemberKey) := m]> (cd_members db)) db) actor.
Proof.
  intros Hr. split.
  - apply earlier_refl_members.
  - intros k' c Hk Hno. simpl in Hk. congruence.
  - intros k' _. unfold set_members.
    assert (Hrole : forall pk', role_at (mkChanDb (cd_channels db)
        (<[((k, pk) : MemberKey) := m]> (cd_members db)) (cd_users db)) k' pk' =
      if bool_decide ((k', pk') = (k, pk)) then if active m then Some (mb_role m) else None
      else role_at db k' pk') by (intros pk'; apply role_at_insert).
    destruct (decide (k' = k)) as [->|Hne].
    + destruct Hr as [Hsame|Hch].
      * left. intros pk'. rewrite Hrole. case_bool_decide as Heq; [|done].
        injection Heq as ->. done.
      * right. exists pk. rewrite Hrole, bool_decide_eq_true_2 by done. split; [done|].
        intros pk' Hpk. rewrite Hrole, bool_decide_eq_false_2; [done|]. congruence.
    + left. intros pk'. rewrite Hrole, bool_decide_eq_false_2; [done|]. congruence.
Qed.

Lemma effect_users db actor users :
  (forall (k : UserKey) u o, cd_users db !! k = Some u -> us_agent_owner_pubkey u = Some o ->
     exists u', users !! k = Some u' /\ us_agent_owner_pubkey u' = Some o) ->
  effect db (set_users users db) actor.
Proof.
  intros Hu. split; [split; simpl; eauto|..].
  - intros k c Hk Hno. simpl in Hk. congruence.
  - intros k _. by left.
Qed.

(** A new channel with its first members. *)
Lemma effect_new_channel db k row ms actor :
  cd_channels db !! k = None ->
  (forall k' pk, k' <> k -> ms !! ((k', pk) : MemberKey) = cd_members db !! ((k', pk) : MemberKey)) ->
  (ch_participant_hash row = None ->
   exists m, ms !! ((k, ch_created_by row) : MemberKey) = Some m /\ active m = true /\ mb_role m = Owner) ->
  effect db (mkChanDb (<[k := row]> (cd_channels db)) ms (cd_users db)) actor.
Proof.
  intros Hfree Hms Hown. split.
  - split; simpl; [|by eauto]. intros k' c Hk'. exists c. rewrite lookup_insert_ne; [done|congruence].
  - simpl. intros k' c Hk' Hno Hh. destruct (decide (k' = k)) as [->|Hne];
      [|rewrite lookup_insert_ne in Hk' by done; congruence].
    rewrite lookup_insert_eq in Hk'. injection Hk' as <-.
    destruct (Hown Hh) as (m & Hm & Ha & Hr). rewrite role_at_eq. simpl. by rewrite Hm, Ha, Hr.
  - intros k' [c Hk']. left. intros pk. apply role_at_members. simpl. apply Hms. congruence.
Qed.

Lemma upsert_member_run now k role inv db :
  exists m, upsert_member now k role inv db = (set_members (<[k := m]> (cd_members db)) db, Ok tt) /\
            active m = true /\ mb_role m = role.
Proof.
  unfold upsert_member, m_modify. eexists. split; [done|]. by destruct (cd_members db !! k).
Qed.

Lemma insert_channel_run k row db :
  insert_channel k row db = (db, Err Sqlx) \/
  (cd_channels db !! k = None /\
   insert_channel k row db = (set_channels (<[k := row]> (cd_channels db)) db, Ok tt)).
Proof.
  unfold insert_channel. destruct (_ || _) eqn:Hc; [by left|].
  apply orb_false_iff in Hc as [_ Hk%bool_decide_eq_false]. right. split; [|done].
  by apply eq_None_not_Some.
Qed.

(** Either nothing happened or the transaction committed. *)
Ltac split_transaction db' a Hm :=
  match goal with
  | |- context [fst (transaction ?env ?m ?db)] =>
      destruct (transaction_cases env m db) as [->|(db' & a & Hm & ->)];
      cbn [fst]
  end.

Section effects.
Context `{Digest} `{HashIter}.

Lemma effect_create env id c n t v d by_ ttl db actor :
  effect db (fst (create_channel env id c n t v d by_ ttl db)) actor.
Proof.
  unfold create_channel, m_bind at 1, m_read.
  destruct (creatable None n by_) as [name|e]; [|apply effect_none].
  split_transaction db' a Hm; [apply effect_none|].
  revert Hm. unfold m_bind.
  edestruct insert_channel_run as [->|[Hfree ->]]; [done|].
  edestruct upsert_member_run as (m & -> & Ha & Hr). unfold m_ret. intros [= <- _].
  unfold set_members, set_channels. simpl. apply effect_new_channel; [done|..]; simpl.
  - intros k' pk Hk. rewrite lookup_insert_ne; [done|congruence].
  - intros _. exists m. by rewrite lookup_insert_eq.
Qed.

Lemma effect_create_with_id env c ch n t v d by_ ttl db actor :
  effect db (fst (create_channel_with_id env c ch n t v d by_ ttl db)) actor.
Proof.
  unfold create_channel_with_id, m_bind at 1, m_read at 1.
  destruct (creatable (Some ch) n by_) as [name|e]; [|apply effect_none].
  split_transaction db' a Hm; [apply effect_none|].
  revert Hm. unfold m_bind, m_read. destruct (cd_channels db !! _) as [row|].
  { destruct (name_fits _); [|done]. intros [= <- _]. apply effect_none. }
  edestruct insert_channel_run as [->|[Hfree ->]]; [done|].
  edestruct upsert_member_run as (m & -> & Ha & Hr). unfold m_ret. intros [= <- _].
  unfold set_members, set_channels. simpl. apply effect_new_channel; [done|..]; simpl.
  - intros k' pk Hk. rewrite lookup_insert_ne; [done|congruence].
  - intros _. exists m. by rewrite lookup_insert_eq.
Qed.

(** The participants of a direct message are upserted one after the other. *)
Lemma upsert_all_run now (k : ChannelKey) by_ pks db :
  exists ms, foldl (fun m pk => do? _ <- m ;; upsert_member now ((k, pk) : MemberKey) Member (Some by_))
               (m_ret tt) pks db = (set_members ms db, Ok tt) /\
    forall k' pk, k' <> k -> ms !! ((k', pk) : MemberKey) = cd_members db !! ((k', pk) : MemberKey).
Proof.
  induction pks as [|pk pks IH] using rev_ind; simpl.
  - exists (cd_members db). split; [by destruct db|done].
  - destruct IH as (ms & Hf & Hms). rewrite foldl_app. simpl. unfold m_bind at 1. rewrite Hf.
    edestruct upsert_member_run as (m & -> & _ & _). eexists. split; [done|].
    intros k' pk' Hk. simpl. rewrite lookup_insert_ne by congruence. by apply Hms.
Qed.

Lemma effect_create_dm env id c pks by_ db actor :
  effect db (fst (create_dm env id c pks by_ db)) actor.
Proof.
  unfold create_dm. destruct (Nat.ltb _ 2); [apply effect_none|].
  destruct (Nat.ltb 9 _); [apply effect_none|]. destruct (existsb _ _); [apply effect_none|].
  split_transaction db' a Hm; [apply effect_none|].
  revert Hm. unfold m_bind at 1, m_read.
  destruct (find_dm_by_participants _ _ _) as [found|]; [intros [= <- _]; apply effect_none|].
  unfold m_bind at 1. edestruct insert_channel_run as [->|[Hfree ->]]; [done|].
  unfold m_bind at 1. edestruct upsert_all_run as (ms & -> & Hms). unfold m_ret. intros [= <- _].
  unfold set_members, set_channels. simpl. by apply (effect_new_channel db _ _ ms).
Qed.

Lemma effect_set_hidden c ch pk h db actor : effect db (fst (set_hidden c ch pk h db)) actor.
Proof.
  unfold set_hidden. destruct (cd_members db !! _) as [m|] eqn:Hm; [|apply effect_none].
  destruct (active m) eqn:Ha; [|apply effect_none]. apply effect_member_write. left.
  rewrite role_at_eq, Hm, Ha. unfold active in *. simpl. by rewrite Ha.
Qed.

Lemma fst_bind {D A B : Type} (m : method D DbError A) (k : A -> D * result B DbError) db :
  fst ((do? x <- m ;; fun db' => (db', snd (k x))) db) = fst (m db).
Proof. unfold m_bind. by destruct (m db) as [db' [a|e]]. Qed.

Lemma effect_open_dm env seen id c pks by_ db actor :
  effect db (fst (open_dm env seen id c pks by_ db)) actor.
Proof.
  unfold open_dm. destruct (Nat.ltb 9 _); [apply effect_none|].
  destruct (find_dm_by_participants _ _ seen) as [ex|].
  - pose proof (effect_set_hidden c ex.1.2 by_ None db actor) as He. unfold unhide_dm, m_bind in *.
    by destruct (set_hidden c ex.1.2 by_ None db) as [db' [b|e]].
  - pose proof (effect_create_dm env id c (if bool_decide (by_ ∈ pks) then pks else pks ++ [by_])
                  by_ db actor) as He. unfold m_bind in *.
    by destruct (create_dm _ _ _ _ _ _) as [db' [b|e]].
Qed.
End effects.

(** ** [add_member] and [remove_member] *)

Lemma elevated_at_intro db c ch (pk : Bytes) r :
  get_active_role_tx db c ch pk = Some r -> Role.is_elevated r = true ->
  elevated_at db ((c, ch) : ChannelKey) pk.
Proof. intros Hr He. by exists r. Qed.

(** Who authorised an elevated role. *)
Lemma authorized_role_sound db channel c ch pk role inv r :
  authorized_role db channel c ch pk role inv = Ok r ->
  r = role /\
  (Role.is_elevated r = true ->
   (exists a, inv = Some a /\ elevated_at db ((c, ch) : ChannelKey) a) \/
   (inv = Some pk /\ ch_created_by channel = pk)).
Proof.
  unfold authorized_role. case_bool_decide as Hvis.
  - destruct inv as [inviter|]; [|done]. destruct (_ && _) eqn:Hboot.
    + apply andb_true_iff in Hboot as [->%bool_decide_eq_true Hb%bool_decide_eq_true].
      intros [= ->]. split; [done|]. by right.
    + destruct (get_active_role_tx db c ch inviter) as [ir|] eqn:Hir; [|done].
      destruct (Role.is_elevated role && negb (Role.is_elevated ir)) eqn:Hel; [done|].
      intros [= ->]. split; [done|]. intros He. left. exists inviter. split; [done|].
      rewrite He in Hel. apply negb_false_iff in Hel. by eapply elevated_at_intro.
  - destruct (Role.is_elevated role) eqn:Hel; [|intros [= ->]; split; [done|congruence]].
    destruct inv as [inviter|]; simpl; [|done].
    destruct (get_active_role_tx db c ch inviter) as [[]|] eqn:Hir; intros [= ->];
      (split; [done|]; intros _; left; exists inviter; split; [done|];
       by eapply elevated_at_intro).
Qed.

Lemma role_change_allowed_sound db c ch pk r inv :
  role_change_allowed db c ch pk r inv = Ok tt ->
  let k : ChannelKey := (c, ch) in
  (forall r0, role_at db k pk = Some r0 -> r0 <> r -> exists a, inv = Some a /\ elevated_at db k a) /\
  (role_at db k pk = Some Owner -> r <> Owner -> 1 < owner_count db c ch).
Proof.
  unfold role_change_allowed, role_at. simpl.
  destruct (get_active_role_tx db c ch pk) as [cur|]; [|by split].
  case_bool_decide as Hcur; [intros _; split; intros; congruence|].
  destruct inv as [inviter|]; simpl; [|done].
  destruct (get_active_role_tx db c ch inviter) as [ir|] eqn:Hir; [|done].
  destruct (Role.is_elevated ir) eqn:Hel; simpl; [|done].
  destruct (_ && _ && _) eqn:Hlast; [done|]. intros _. split.
  - intros _ _ _. exists inviter. split; [done|]. by eapply elevated_at_intro.
  - intros [= ->] Hne. rewrite bool_decide_eq_true_2, bool_decide_eq_false_2 in Hlast by done.
    simpl in Hlast. lia.
Qed.

Lemma effect_add env seen c ch pk role inv db :
  earlier seen db -> effect db (fst (add_member env seen c ch pk role inv db)) inv.
Proof.
  intros Hea. unfold add_member. destruct (negb _); [apply effect_none|].
  split_transaction db' a Hm; [apply effect_none|].
  revert Hm. unfold m_bind at 1, m_read at 1.
  destruct (get_channel c ch seen) as [channel|e] eqn:Hch; [|done].
  unfold m_bind at 1, m_read at 1.
  destruct (authorized_role _ _ _ _ _ _ _) as [r|e] eqn:Hau; [|done].
  unfold m_bind at 1, m_read at 1.
  destruct (role_change_allowed _ _ _ _ _ _) as [[]|e] eqn:Hrc; [|done].
  unfold m_bind at 1.
  edestruct upsert_member_run as (m & -> & Ha & Hr). unfold m_bind, m_read.
  destruct (cd_members (set_members _ _) !! _); [|done]. intros [= <- _].
  apply effect_member_write. right. rewrite Ha, Hr.
  apply authorized_role_sound in Hau as [-> Hau].
  apply role_change_allowed_sound in Hrc as [Hrc Hlast].
  apply change_granted; [|done|done].
  intros He. destruct (Hau He) as [?|[-> Hcr]]; [by left|]. right. split; [done|].
  unfold get_channel, live_channel in Hch.
  destruct (cd_channels seen !! _) as [row|] eqn:Hrow; [|done]. simpl in Hch.
  case_bool_decide; [|done]. injection Hch as ->.
  destruct (ea_channel _ _ Hea _ _ Hrow) as (row' & Hrow' & Hby & _).
  exists row'. split; [done|]. congruence.
Qed.

Lemma removal_allowed_sound db c ch pk a own :
  removal_allowed db c ch pk a own = Ok tt ->
  let k : ChannelKey := (c, ch) in
  (a = pk \/ elevated_at db k a \/ own = true) /\
  (role_at db k pk = Some Owner -> 1 < owner_count db c ch).
Proof.
  unfold removal_allowed, role_at. simpl.
  destruct (if bool_decide (pk = a) then _ else _) as [[]|e] eqn:Hauth; [|done].
  simpl. destruct (_ && _) eqn:Hlast; [done|]. intros _. split.
  - destruct (bool_decide_reflect (pk = a)) as [->|_]; [by left|]. revert Hauth.
    destruct (get_active_role_tx db c ch a) as [r|] eqn:Hr; [|done].
    destruct (Role.is_elevated r) eqn:He; [|by destruct own; auto].
    intros _. right. left. by eapply elevated_at_intro.
  - intros Ho. rewrite Ho, bool_decide_eq_true_2 in Hlast by done. simpl in Hlast. lia.
Qed.

Lemma effect_remove env seen c ch pk a db :
  earlier seen db -> effect db (fst (remove_member env seen c ch pk a db)) (Some a).
Proof.
  intros Hea. unfold remove_member. split_transaction db' x Hm; [apply effect_none|].
  revert Hm. unfold m_bind at 1, m_read at 1.
  destruct (removal_allowed _ _ _ _ _ _) as [[]|e] eqn:Hal; [|done].
  apply removal_allowed_sound in Hal as [Hauth Hlast].
  unfold m_bind at 1, m_read at 1.
  destruct (cd_members db !! _) as [m|]; [|done]. destruct (active m); [|done].
  unfold m_bind, m_modify. intros [= <- _]. apply effect_member_write. right.
  apply (change_removed _ _ _ _ a); [done| |done].
  destruct Hauth as [?|[?|[_ Hown]%andb_true_iff]]; [by left|right; by left|]. right. right.
  by eapply earlier_agent_owner.
Qed.

Section steps.
Context `{Digest} `{HashIter}.

Lemma effect_update_row env c ch u vis db actor :
  effect db (fst (update_channel_row env c ch u vis db)) actor.
Proof.
  unfold update_channel_row, m_bind at 1.
  match goal with |- context [transaction env ?m db] =>
    assert (Ht : effect db (fst (transaction env m db)) actor);
    [|by destruct (transaction env m db) as [db1 [x|e]]] end.
  split_transaction db' x Hm; [apply effect_none|]. revert Hm. unfold m_bind at 1, m_read at 1.
  destruct (get_channel c ch db); [|done]. destruct (negb _); [done|]. unfold m_bind.
  pose proof (effect_update_live c ch (apply_update env u vis) db actor) as He.
  destruct (update_live _ _ _ db) as [db1 [[]|e]]; [|done]. intros [= <- _]. by apply He.
Qed.

Lemma effect_update env c ch u db actor :
  effect db (fst (update_channel env c ch u db)) actor.
Proof.
  unfold update_channel. destruct u as [[n|] [d|] [v|] [ttl|]]; try apply effect_none;
    (case_bool_decide; [apply effect_none|]);
    cbn [up_visibility fmap option_fmap option_map];
    try (destruct (ChannelVisibility.from_str v); [|apply effect_none]); apply effect_update_row.
Qed.

Lemma effect_archived env c ch db actor :
  effect db (fst (archive_channel env c ch db)) actor /\
  effect db (fst (unarchive_channel env c ch db)) actor.
Proof.
  unfold archive_channel, unarchive_channel, m_bind, m_read.
  destruct (get_channel c ch db) as [row|e]; [|by split; apply effect_none].
  split; (case_bool_decide; [apply effect_none|]); by apply effect_update_live.
Qed.

Lemma effect_delete env c ch db actor : effect db (fst (soft_delete_channel env c ch db)) actor.
Proof.
  pose proof (effect_update_live c ch (with_deleted (Some (env_now env))) db actor) as He.
  unfold soft_delete_channel, update_live in *. destruct (live_channel _ _); by apply He.
Qed.

Lemma effect_reap env live db actor :
  effect db (fst (reap_expired_ephemeral_channels env live db)) actor.
Proof.
  apply effect_channels.
  - intros k r Hk. rewrite map_lookup_imap, Hk. simpl. eexists. split; [done|]. by case_match.
  - intros k Hk. by rewrite map_lookup_imap, Hk.
Qed.

Lemma effect_op env op db :
  (forall seen, op_seen op = Some seen -> earlier seen db) ->
  effect db (run_op env op db) (op_actor op).
Proof.
  intros Hseen. destruct op; simpl.
  - apply effect_create.
  - apply effect_create_with_id.
  - apply effect_add. by apply Hseen.
  - apply effect_remove. by apply Hseen.
  - apply effect_open_dm.
  - pose proof (effect_set_hidden community channel_id pubkey (Some (env_now env)) db None) as He.
    unfold hide_dm, m_bind. by destruct (set_hidden _ _ _ _ db) as [? [[]|]].
  - pose proof (effect_set_hidden community channel_id pubkey None db None) as He.
    unfold unhide_dm, m_bind. by destruct (set_hidden _ _ _ _ db) as [? [[]|]].
  - apply effect_update.
  - by apply effect_update_live.
  - by apply effect_update_live.
  - by apply effect_update_live.
  - apply effect_archived.
  - apply effect_archived.
  - apply effect_delete.
  - apply effect_reap.
  - unfold ensure_user. destruct (cd_users db !! _) as [u|] eqn:Hu; [apply effect_none|].
    apply effect_users. intros k u o Hk Ho. exists u. rewrite lookup_insert_ne; [done|]. congruence.
  - unfold set_agent_owner. destruct (cd_users db !! _) as [u|] eqn:Hu; [|apply effect_none].
    destruct (us_agent_owner_pubkey u) eqn:Ho; [apply effect_none|].
    apply effect_users. intros k u' o Hk Ho'. exists u'. rewrite lookup_insert_ne; [done|]. congruence.
  - unfold set_channel_add_policy. destruct (add_policy_from_str policy); [|apply effect_none].
    destruct (cd_users db !! _) as [u|] eqn:Hu; [|apply effect_none]. apply effect_users.
    intros k u' o Hk Ho. destruct (decide (k = ((community, pubkey) : UserKey))) as [->|Hne].
    + rewrite lookup_insert_eq. eexists. split; [done|]. simpl. congruence.
    + exists u'. by rewrite lookup_insert_ne.
Qed.

(** Any sequence of calls, each made for an actor in [who], each having read what it reads
    outside its lock in some earlier state. *)
Inductive calls (who : option Bytes -> Prop) : ChanDb -> ChanDb -> Prop :=
| calls_none db : calls who db db
| calls_step env op db db1 :
    calls who db db1 -> who (op_actor op) ->
    (forall seen, op_seen op = Some seen -> earlier seen db1) ->
    calls who db (run_op env op db1).

Lemma calls_earlier who db db' : calls who db db' -> earlier db db'.
Proof.
  induction 1 as [db|env op db db1 _ IH _ Hseen]; [done|].
  etrans; [exact IH|]. apply (ef_earlier _ _ _ (effect_op env op db1 Hseen)).
Qed.

(** A channel that was created with an owner has one in every later state, whatever
    demotions, removals, departures and repetitions are attempted; direct messages have
    none. *)
Lemma channels_never_ownerless db k c :
  calls (fun _ => True) empty_chan_db db ->
  cd_channels db !! k = Some c -> ch_participant_hash c = None ->
  exists pk, role_at db k pk = Some Owner.
Proof.
  intros Hcalls. remember empty_chan_db as db0 eqn:Hdb0. revert c.
  induction Hcalls as [db|env op db db1 _ IH _ Hseen]; intros c Hc Hh; subst.
  { simpl in Hc. by rewrite lookup_empty in Hc. }
  pose proof (effect_op env op db1 Hseen) as He.
  destruct (cd_channels db1 !! k) as [c1|] eqn:Hc1.
  2: { exists (ch_created_by c). by apply (ef_created _ _ _ He). }
  destruct (ea_channel _ _ (ef_earlier _ _ _ He) _ _ Hc1) as (c' & Hc' & _ & Hh').
  assert (Hh1 : ch_participant_hash c1 = None) by congruence.
  destruct (IH eq_refl c1 eq_refl Hh1) as [pk Hpk].
  destruct (ef_roles _ _ _ He k (ex_intro _ c1 Hc1)) as [Hsame|(pk1 & Hch & Hrest)].
  { exists pk. by rewrite Hsame. }
  destruct (decide (pk1 = pk)) as [->|Hne]; [|exists pk; rewrite Hrest; congruence].
  destruct (role_at (run_op env op db1) k pk) as [r|] eqn:Hr.
  - destruct (decide (r = Owner)) as [->|Hro]; [by exists pk|].
    inversion Hch as [r' _ _ Htwo|]; subst.
    destruct (owner_count_two db1 k pk (Htwo Hpk Hro)) as (pk' & Hne & Ho).
    exists pk'. by rewrite Hrest.
  - inversion Hch as [|a _ _ Htwo]; subst.
    destruct (owner_count_two db1 k pk (Htwo Hpk)) as (pk' & Hne & Ho).
    exists pk'. by rewrite Hrest.
Qed.

Definition for_outsider (outsider : Bytes -> Prop) (actor : option Bytes) : Prop :=
  match actor with Some p => outsider p | None => True end.

(** Pubkeys that hold no elevated role in a channel, the creator not among them, obtain none
    by any sequence of calls made for them, give none to anybody, and take none away from a
    member they do not own as an agent. *)
Lemma outsiders_never_govern (outsider : Bytes -> Prop) db db' k c :
  calls (for_outsider outsider) db db' ->
  cd_channels db !! k = Some c -> ~ outsider (ch_created_by c) ->
  (forall p, outsider p -> ~ elevated_at db k p) ->
  (forall p, elevated_at db' k p -> elevated_at db k p) /\
  (forall p r, role_at db k p = Some r -> Role.is_elevated r = true ->
     (forall a, outsider a -> is_agent_owner k.1 p a db' = false) ->
     role_at db' k p = Some r).
Proof.
  intros Hcalls Hc Hcr Hout. induction Hcalls as [db|env op db db1 Hcalls IH Hwho Hseen].
  { split; [done|]. by intros. }
  destruct (IH Hc Hout) as [IH1 IH2]. clear IH.
  pose proof (effect_op env op db1 Hseen) as He.
  assert (Hout1 : forall p, outsider p -> ~ elevated_at db1 k p).
  { intros p Hp Hel. by apply (Hout p Hp), IH1. }
  assert (Hact : ~ exists a, op_actor op = Some a /\ elevated_at db1 k a).
  { intros (a & Ha & Hel). rewrite Ha in Hwho. by apply (Hout1 a). }
  destruct (ea_channel _ _ (calls_earlier _ _ _ Hcalls) _ _ Hc) as (c1 & Hc1 & Hby & _).
  assert (Hback : forall p r a, is_agent_owner k.1 p a (run_op env op db1) = false ->
                  r = is_agent_owner k.1 p a db1 -> r = false).
  { intros p r a Hf ->. apply not_true_iff_false. intros Ht.
    rewrite (earlier_agent_owner _ _ _ _ _ (ef_earlier _ _ _ He) Ht) in Hf. done. }
  destruct (ef_roles _ _ _ He k (ex_intro _ c1 Hc1)) as [Hsame|(pk & Hch & Hrest)].
  - split.
    + intros p (r & Hr & Hel). apply IH1. exists r. by rewrite <-Hsame.
    + intros p r Hr Hel Hown. rewrite Hsame. apply IH2; [done|done|]. intros a Ha. by eapply Hback; eauto.
  - split.
    + intros p (r & Hr & Hel). apply IH1. destruct (decide (p = pk)) as [->|Hne];
        [|exists r; by rewrite <-Hrest].
      rewrite Hr in Hch. inversion Hch as [r' Hauth _ _|]; subst.
      destruct (Hauth Hel) as [Ha|(Ha & c' & Hc' & Hb)]; [by destruct Hact|].
      rewrite Ha in Hwho. simpl in Hwho. congruence.
    + intros p r Hr Hel Hown. destruct (decide (p = pk)) as [->|Hne].
      2: { rewrite Hrest by done. apply IH2; [done|done|]. intros a Ha. by eapply Hback; eauto. }
      assert (Hr1 : role_at db1 k pk = Some r).
      { apply IH2; [done|done|]. intros a Ha. by eapply Hback; eauto. }
      inversion Hch as [r' Hauth Hkeep _ Heq|a Ha Hauth _ Heq].
      * destruct (decide (r = r')) as [->|Hne]; [done|]. destruct Hact. by apply (Hkeep r).
      * exfalso. rewrite Ha in Hwho. simpl in Hwho.
        destruct Hauth as [->|[Hela|Howner]].
        -- apply (Hout1 pk Hwho). by exists r.
        -- apply Hact. by exists a.
        -- specialize (Hback pk true a (Hown a Hwho)). rewrite Howner in Hback. by specialize (Hback eq_refl).
Qed.
End steps.

(** * Witnesses *)

Module MembershipExample.
#[local] Existing Instance map_to_list_iter.
(** A digest that keeps its input. *)
#[export] Instance digest : Digest := fun b => b.
Definition env : Env := mkEnv 100 true true true.
Definition alice : Bytes := replicate 32 Byte.x0a.
Definition bob : Bytes := replicate 32 Byte.x0b.
Definition mallory : Bytes := replicate 32 Byte.x0e.
Definition general : ChannelKey := (1%N, 7%N).
Definition create : ChanOp :=
  OpCreate 7%N 1%N "general" ChannelType.Stream ChannelVisibility.Open None alice None.
Definition db1 : ChanDb := run_op env create empty_chan_db.
(** Mallory joins, then asks to be an admin. *)
Definition join : ChanOp := OpAdd db1 1%N 7%N mallory Member None.
Definition db2 : ChanDb := run_op env join db1.
Definition usurp : ChanOp := OpAdd db2 1%N 7%N mallory Admin (Some mallory).
Definition db3 : ChanDb := run_op env usurp db2.
Definition promote : ChanOp := OpAdd db2 1%N 7%N bob Admin (Some alice).

Example roles :
  (role_at db3 general alice, role_at db3 general mallory) = (Some Owner, Some Member).
Proof. vm_compute. reflexivity. Qed.
Example promoted : role_at (run_op env promote db2) general bob = Some Admin.
Proof. vm_compute. reflexivity. Qed.
Example last_owner_stays :
  role_at (run_op env (OpRemove db3 1%N 7%N alice alice) db3) general alice = Some Owner.
Proof. vm_compute. reflexivity. Qed.

(** The creator of a private channel who was removed is not asked for a role again: the
    exemption for the first member holds at any time. *)
Definition vault : ChannelKey := (1%N, 8%N).
Definition private_ops : list ChanOp :=
  [OpCreate 8%N 1%N "vault" ChannelType.Stream ChannelVisibility.Private None alice None].
Definition p1 : ChanDb := foldl (fun db op => run_op env op db) empty_chan_db private_ops.
Definition p2 : ChanDb := run_op env (OpAdd p1 1%N 8%N bob Owner (Some alice)) p1.
Definition p3 : ChanDb := run_op env (OpRemove p2 1%N 8%N alice bob) p2.
Definition p4 : ChanDb := run_op env (OpAdd p3 1%N 8%N alice Owner (Some alice)) p3.
Example removed_creator_returns_as_owner :
  (role_at p3 vault alice, role_at p4 vault alice) = (None, Some Owner).
Proof. vm_compute. reflexivity. Qed.

(** The unique index also counts deleted direct messages: once one is deleted, its
    participants can open no other. *)
Definition d1 : ChanDb := run_op env (OpOpenDm empty_chan_db 9%N 1%N [alice; bob] alice) empty_chan_db.
Definition d2 : ChanDb := run_op env (OpDelete 1%N 9%N) d1.
Example deleted_dm_blocks_the_next :
  snd (open_dm env d2 10%N 1%N [bob; alice] bob d2) = Err Sqlx.
Proof. vm_compute. reflexivity. Qed.
Lemma seen_self db : forall seen, Some db = Some seen -> earlier seen db.
Proof. intros seen [= <-]. reflexivity. Qed.
Lemma usurping_calls (who : option Bytes -> Prop) db :
  calls who db db1 -> who None -> who (Some mallory) -> calls who db db3.
Proof.
  intros H1 Hn Hm. apply (calls_step who env usurp).
  - apply (calls_step who env join); [exact H1|exact Hn|]. unfold join. cbn [op_seen].
    exact (seen_self db1).
  - exact Hm.
  - unfold usurp. cbn [op_seen]. exact (seen_self db2).
Qed.
Definition general_row : ChannelRow :=
  mkChannel "general" ChannelType.Stream ChannelVisibility.Open None None alice 100 100 None None
    None None None None None.
Lemma general_at_first : cd_channels db1 !! general = Some general_row.
Proof. vm_compute. reflexivity. Qed.
Lemma general_at_last : cd_channels db3 !! general = Some general_row.
Proof. vm_compute. reflexivity. Qed.
Lemma alice_owns : role_at db1 general alice = Some Owner.
Proof. vm_compute. reflexivity. Qed.
Lemma mallory_not_elevated : ~ elevated_at db1 general mallory.
Proof.
  assert (Hr : role_at db1 general mallory = None) by (vm_compute; reflexivity).
  intros (r & Hr' & _). congruence.
Qed.
Lemma no_agents a : is_agent_owner general.1 alice a db3 = false.
Proof. vm_compute. reflexivity. Qed.
End MembershipExample.

Lemma channels_never_ownerless_witness :
  exists pk, role_at MembershipExample.db3 MembershipExample.general pk = Some Owner.
Proof.
  refine (channels_never_ownerless MembershipExample.db3 MembershipExample.general
            MembershipExample.general_row _ MembershipExample.general_at_last eq_refl).
  apply MembershipExample.usurping_calls; [|exact I|exact I].
  apply (calls_step _ MembershipExample.env MembershipExample.create); [constructor|exact I|].
  unfold MembershipExample.create. cbn [op_seen]. discriminate.
Defined.

Lemma outsiders_never_govern_witness :
  (forall p, elevated_at MembershipExample.db3 MembershipExample.general p ->
             elevated_at MembershipExample.db1 MembershipExample.general p) /\
  role_at MembershipExample.db3 MembershipExample.general MembershipExample.alice = Some Owner.
Proof.
  destruct (outsiders_never_govern (fun p => p = MembershipExample.mallory)
              MembershipExample.db1 MembershipExample.db3 MembershipExample.general
              MembershipExample.general_row
              (MembershipExample.usurping_calls _ _ (calls_none _ _) I eq_refl)
              MembershipExample.general_at_first) as [H1 H2].
  - discriminate.
  - intros p ->. exact MembershipExample.mallory_not_elevated.
  - split; [exact H1|]. apply H2; [exact MembershipExample.alice_owns|reflexivity|].
    intros a _. apply MembershipExample.no_agents.
Defined.
