(* ===== verification/Moderation.v ===== *)
(** The community's roster and its moderation tables: [crates/buzz-db/src/relay_members.rs],
    [moderation.rs], with the policy of [crates/buzz-relay/src/handlers/moderation_authz.rs]
    and the parsers of [report.rs].

    The tables are finite maps, a statement is a function on them.  What decides a request
    (the authority of a role, the shape of a report) is a pure function; the handlers, which
    read and write in several statements, are programs ([Moderators]). *)
From S2P Require Import Prelude Nostr Kinds Text EventStore Threads Envelopes.
Local Open Scope string_scope.
Local Open Scope list_scope.
Local Open Scope Z_scope.
Local Open Scope buzz_scope.

(** * Rows *)

(** [relay_members]; the key is the community and the hexadecimal pubkey. *)
Record RelayMember := mkRelayMember {
  rm_role : string;
  rm_added_by : option string;
  rm_created_at : Z
}.

(** [community_bans] *)
Record BanRow := mkBan {
  bn_banned : bool;
  bn_ban_expires_at : option Z;
  bn_ban_reason : option string;
  bn_muted_until : option Z;
  bn_mute_reason : option string;
  bn_actor : Bytes
}.

Inductive ReportTarget :=
| TargetEvent (id : Bytes)
| TargetPubkey (pubkey : Bytes)
| TargetBlob (sha256 : Bytes).

Definition target_bytes (t : ReportTarget) : Bytes :=
  match t with TargetEvent b | TargetPubkey b | TargetBlob b => b end.

(** [moderation_reports]; its foreign key on the channel never fails, since channels are only
    marked as deleted. *)
Record ReportRow := mkReport {
  rp_report_event_id : Bytes;
  rp_reporter_pubkey : Bytes;
  rp_target : ReportTarget;
  rp_channel_id : option Uuid;
  rp_report_type : string;
  rp_note : option string;
  rp_status : string;
  rp_resolved_by : option Bytes;
  rp_resolved_at : option Z;
  rp_action_id : option Uuid;
  rp_created_at : Z
}.

(** [moderation_actions]; the columns the relay always writes as [NULL] are left out. *)
Record ActionRow := mkAction {
  ac_actor_pubkey : Bytes;
  ac_action : string;
  ac_target_pubkey : option Bytes;
  ac_target_event_id : option Bytes;
  ac_public_reason : option string;
  ac_created_at : Z
}.

Definition RosterKey : Type := Uuid * string.
#[export] Instance RosterKey_eq_dec : EqDecision RosterKey := prod_eq_dec.
#[export] Instance RosterKey_countable : Countable RosterKey := prod_countable.
Definition BanKey : Type := Uuid * Bytes.
#[export] Instance BanKey_eq_dec : EqDecision BanKey := prod_eq_dec.
#[export] Instance BanKey_countable : Countable BanKey := prod_countable.
Definition RowKey : Type := Uuid * Uuid.
#[export] Instance RowKey_eq_dec : EqDecision RowKey := prod_eq_dec.
#[export] Instance RowKey_countable : Countable RowKey := prod_countable.

Record ModDb := mkModDb {
  md_roster : gmap RosterKey RelayMember;
  md_bans : gmap BanKey BanRow;
  md_reports : gmap RowKey ReportRow;
  md_actions : gmap RowKey ActionRow;
  md_icons : gmap Uuid (option string)
}.
Definition empty_mod_db : ModDb := mkModDb ∅ ∅ ∅ ∅ ∅.
Definition set_roster (m : gmap RosterKey RelayMember) (db : ModDb) : ModDb :=
  mkModDb m (md_bans db) (md_reports db) (md_actions db) (md_icons db).
Definition set_bans (m : gmap BanKey BanRow) (db : ModDb) : ModDb :=
  mkModDb (md_roster db) m (md_reports db) (md_actions db) (md_icons db).
Definition set_reports (m : gmap RowKey ReportRow) (db : ModDb) : ModDb :=
  mkModDb (md_roster db) (md_bans db) m (md_actions db) (md_icons db).
Definition set_actions (m : gmap RowKey ActionRow) (db : ModDb) : ModDb :=
  mkModDb (md_roster db) (md_bans db) (md_reports db) m (md_icons db).
Definition set_icons (m : gmap Uuid (option string)) (db : ModDb) : ModDb :=
  mkModDb (md_roster db) (md_bans db) (md_reports db) (md_actions db) m.

(** * The roster *)

Definition get_relay_member (community : Uuid) (pubkey : string) (db : ModDb) : option RelayMember :=
  md_roster db !! ((community, pubkey) : RosterKey).
Definition is_relay_member (community : Uuid) (pubkey : string) (db : ModDb) : bool :=
  bool_decide (is_Some (get_relay_member community pubkey db)).
Definition role_of (db : ModDb) (community : Uuid) (pubkey : string) : option string :=
  rm_role <$> get_relay_member community pubkey db.
Definition steward_role (role : string) : bool := String.eqb role "admin" || String.eqb role "owner".
Definition has_admin_or_owner (community : Uuid) (db : ModDb) : bool :=
  existsb (fun x : RosterKey * RelayMember =>
    bool_decide (x.1.1 = community) && steward_role (rm_role x.2)) (map_to_list (md_roster db)).

(** [CHECK (role IN ('owner', 'admin', 'member'))] *)
Definition valid_role (role : string) : bool := steward_role role || String.eqb role "member".

(** [INSERT .. ON CONFLICT DO NOTHING] *)
Definition add_relay_member (env : Env) (community : Uuid) (pubkey role : string)
    (added_by : option string) : method ModDb DbError bool :=
  fun db =>
    if negb (valid_role role) then (db, Err Sqlx)
    else
      match get_relay_member community pubkey db with
      | Some _ => (db, Ok false)
      | None =>
          (set_roster (<[((community, pubkey) : RosterKey) := mkRelayMember role added_by (env_now env)]>
                         (md_roster db)) db, Ok true)
      end.

(** [DELETE .. WHERE p(role)]; the result is [rows_affected() > 0]. *)
Definition delete_member_where (community : Uuid) (pubkey : string) (p : string -> bool)
  : method ModDb DbError bool :=
  fun db =>
    match get_relay_member community pubkey db with
    | Some m =>
        if p (rm_role m)
        then (set_roster (delete ((community, pubkey) : RosterKey) (md_roster db)) db, Ok true)
        else (db, Ok false)
    | None => (db, Ok false)
    end.
Definition not_owner (role : string) : bool := negb (String.eqb role "owner").

Inductive RemoveResult := Removed | IsOwner | NotFound | RoleMismatch.
(** The read after a [DELETE] that hit nothing. *)
Definition why_not_removed (community : Uuid) (pubkey : string) (db : ModDb) : RemoveResult :=
  match get_relay_member community pubkey db with Some _ => IsOwner | None => NotFound end.
Definition why_role_kept (community : Uuid) (pubkey : string) (db : ModDb) : RemoveResult :=
  match get_relay_member community pubkey db with
  | None => NotFound
  | Some m => if String.eqb (rm_role m) "owner" then IsOwner else RoleMismatch
  end.

Definition with_role (role : string) (m : RelayMember) : RelayMember :=
  mkRelayMember role (rm_added_by m) (rm_created_at m).
Definition update_relay_member_role (community : Uuid) (pubkey new_role : string)
  : method ModDb DbError bool :=
  fun db =>
    match get_relay_member community pubkey db with
    | Some m =>
        if not_owner (rm_role m) then
          if valid_role new_role then
            (set_roster (<[((community, pubkey) : RosterKey) := with_role new_role m]> (md_roster db)) db,
             Ok true)
          else (db, Err Sqlx)
        else (db, Ok false)
    | None => (db, Ok false)
    end.

(** The upsert of an owner and the demotion of the others to [demoted]. *)
Definition crown (env : Env) (community : Uuid) (pubkey demoted : string)
    (m : gmap RosterKey RelayMember) : gmap RosterKey RelayMember :=
  let k : RosterKey := (community, pubkey) in
  let row := match m !! k with
             | Some r => with_role "owner" r
             | None => mkRelayMember "owner" None (env_now env)
             end in
  map_imap (fun (k' : RosterKey) r =>
    Some (if bool_decide (k'.1 = community) && String.eqb (rm_role r) "owner"
             && negb (String.eqb k'.2 pubkey) then with_role demoted r else r)) (<[k := row]> m).

Definition bootstrap_owner (env : Env) (community : Uuid) (owner_pubkey : string)
  : method ModDb DbError unit :=
  let pubkey := to_ascii_lowercase owner_pubkey in
  transaction env
    (do? _ <- m_modify (fun db => set_roster (crown env community pubkey "admin" (md_roster db)) db) ;;
     m_ret (Commit tt)).

Inductive TransferResult :=
| Transferred (previous_owner : option string)
| AlreadyOwner
| NoOwner
| OwnerConflict
| LimitReached.

Definition owners_where (p : RosterKey -> bool) (db : ModDb) : list string :=
  (fun x : RosterKey * RelayMember => x.1.2) <$>
  List.filter (fun x : RosterKey * RelayMember => p x.1 && String.eqb (rm_role x.2) "owner")
    (map_to_list (md_roster db)).
(** [SELECT count( * ) .. WHERE pubkey = $1 AND role = 'owner'] *)
Definition owner_count (pubkey : string) (db : ModDb) : Z :=
  Z.of_nat (length (owners_where (fun k => String.eqb k.2 pubkey) db)).
(** [limit] is [max_communities_per_owner()]. *)
Definition transfer_ownership (env : Env) (limit : Z) (community : Uuid)
    (new_owner_pubkey expected_owner_pubkey : string) : method ModDb DbError TransferResult :=
  let pubkey := to_ascii_lowercase new_owner_pubkey in
  let expected_owner := to_ascii_lowercase expected_owner_pubkey in
  transaction env
    (do? existing_owners <- m_read (fun db =>
       Ok (owners_where (fun k => bool_decide (k.1 = community)) db)) ;;
     if bool_decide (existing_owners = []) then m_ret (Rollback NoOwner)
     else if negb (bool_decide (expected_owner ∈ existing_owners)) then m_ret (Rollback OwnerConflict)
     else if bool_decide (existing_owners = [pubkey]) then m_ret (Rollback AlreadyOwner)
     else
       let previous_owner :=
         match existing_owners with
         | [o] => Some o
         | _ => head (List.filter (fun o => negb (String.eqb o pubkey)) existing_owners)
         end in
       do? owned_count <- m_read (fun db => Ok (owner_count pubkey db)) ;;
       if limit <=? owned_count then m_ret (Rollback LimitReached)
       else
         do? _ <- m_modify (fun db =>
           set_roster (crown env community pubkey "member" (md_roster db)) db) ;;
         m_ret (Commit (Transferred previous_owner))).

Definition MAX_COMMUNITIES_PER_OWNER : Z := 5.
Definition effective_owner_limit (raw : option string) : Z :=
  match raw ≫= (fun value => parse_i64 (trim value)) with
  | Some limit => if 0 <? limit then limit else MAX_COMMUNITIES_PER_OWNER
  | None => MAX_COMMUNITIES_PER_OWNER
  end.

(** * Restrictions *)

Record RestrictionState := mkRestriction { rs_banned : bool; rs_muted_until : option Z }.
(** [banned AND (ban_expires_at IS NULL OR ban_expires_at > now())] *)
Definition ban_active (now : Z) (b : BanRow) : bool :=
  bn_banned b && match bn_ban_expires_at b with None => true | Some t => now <? t end.
Definition mute_active (now : Z) (b : BanRow) : option Z :=
  match bn_muted_until b with Some t => if now <? t then Some t else None | None => None end.
Definition restriction_state (now : Z) (community : Uuid) (pubkey : Bytes) (db : ModDb)
  : RestrictionState :=
  match md_bans db !! ((community, pubkey) : BanKey) with
  | Some b => mkRestriction (ban_active now b) (mute_active now b)
  | None => mkRestriction false None
  end.

Definition is_32 (b : Bytes) : bool := Nat.eqb (length b) 32.
Definition is_32_or_null (b : option Bytes) : bool := match b with Some b => is_32 b | None => true end.
(** An upsert of the row of one member; both keys are checked to have 32 bytes. *)
Definition upsert_ban (community : Uuid) (pubkey actor : Bytes) (f : BanRow -> BanRow)
  : method ModDb DbError unit :=
  fun db =>
    if negb (is_32 pubkey && is_32 actor) then (db, Err Sqlx)
    else
      let row := default (mkBan false None None None None actor) (md_bans db !! ((community, pubkey) : BanKey)) in
      (set_bans (<[((community, pubkey) : BanKey) := f row]> (md_bans db)) db, Ok tt).
Definition ban_member (community : Uuid) (pubkey actor : Bytes) (reason : option string)
    (expires_at : option Z) : method ModDb DbError unit :=
  upsert_ban community pubkey actor (fun b =>
    mkBan true expires_at reason (bn_muted_until b) (bn_mute_reason b) actor).
Definition timeout_member (community : Uuid) (pubkey actor : Bytes) (muted_until : Z)
    (reason : option string) : method ModDb DbError unit :=
  upsert_ban community pubkey actor (fun b =>
    mkBan (bn_banned b) (bn_ban_expires_at b) (bn_ban_reason b) (Some muted_until) reason actor).
(** An update of the row of one member where [p] holds. *)
Definition update_ban (community : Uuid) (pubkey : Bytes) (p : BanRow -> bool) (f : BanRow -> BanRow)
  : method ModDb DbError bool :=
  fun db =>
    match md_bans db !! ((community, pubkey) : BanKey) with
    | Some b =>
        if p b then (set_bans (<[((community, pubkey) : BanKey) := f b]> (md_bans db)) db, Ok true)
        else (db, Ok false)
    | None => (db, Ok false)
    end.
Definition unban_member (community : Uuid) (pubkey actor : Bytes) : method ModDb DbError bool :=
  update_ban community pubkey bn_banned (fun b =>
    mkBan false None None (bn_muted_until b) (bn_mute_reason b) actor).
Definition untimeout_member (env : Env) (community : Uuid) (pubkey actor : Bytes)
  : method ModDb DbError bool :=
  update_ban community pubkey (fun b => bool_decide (is_Some (mute_active (env_now env) b)))
    (fun b => mkBan (bn_banned b) (bn_ban_expires_at b) (bn_ban_reason b) None None actor).

(** * Reports and audit *)

Definition find_report (community : Uuid) (report_event_id : Bytes) (db : ModDb)
  : option (RowKey * ReportRow) :=
  head (List.filter (fun x : RowKey * ReportRow =>
          bool_decide (x.1.1 = community) && bool_decide (rp_report_event_id x.2 = report_event_id))
        (map_to_list (md_reports db))).
Definition get_report_by_event (community : Uuid) (report_event_id : Bytes) (db : ModDb)
  : option (Uuid * ReportRow) :=
  (fun x : RowKey * ReportRow => (x.1.2, x.2)) <$> find_report community report_event_id db.

(** [INSERT .. ON CONFLICT (community_id, report_event_id) DO UPDATE .. RETURNING id] *)
Definition insert_report (env : Env) (id community : Uuid) (report_event_id reporter : Bytes)
    (target : ReportTarget) (channel_id : option Uuid) (report_type : string) (note : option string)
  : method ModDb DbError Uuid :=
  fun db =>
    match find_report community report_event_id db with
    | Some x => (db, Ok x.1.2)
    | None =>
        if negb (is_32 report_event_id && is_32 reporter && is_32 (target_bytes target))
           || bool_decide (is_Some (md_reports db !! ((community, id) : RowKey)))
        then (db, Err Sqlx)
        else
          (set_reports (<[((community, id) : RowKey) :=
             mkReport report_event_id reporter target channel_id report_type note "open" None None None
               (env_now env)]> (md_reports db)) db, Ok id)
    end.

Definition close_report (status : string) (by_ : Bytes) (at_ : Z) (action_id : option Uuid)
    (r : ReportRow) : ReportRow :=
  mkReport (rp_report_event_id r) (rp_reporter_pubkey r) (rp_target r) (rp_channel_id r)
    (rp_report_type r) (rp_note r) status (Some by_) (Some at_) action_id (rp_created_at r).
Definition resolve_report (env : Env) (community report_id : Uuid) (status : string) (resolved_by : Bytes)
    (action_id : option Uuid) : method ModDb DbError bool :=
  fun db =>
    match md_reports db !! ((community, report_id) : RowKey) with
    | Some r =>
        if String.eqb (rp_status r) "open" then
          if bool_decide (status ∈ ["open"; "resolved"; "dismissed"; "escalated"]) then
            (set_reports (<[((community, report_id) : RowKey) :=
               close_report status resolved_by (env_now env) action_id r]> (md_reports db)) db, Ok true)
          else (db, Err Sqlx)
        else (db, Ok false)
    | None => (db, Ok false)
    end.

Definition MODERATION_ACTION_CHECK_VOCAB : list string :=
  ["delete_message"; "kick"; "ban"; "unban"; "timeout"; "untimeout"; "dismiss_report"; "escalate";
   "resolve:delete"; "resolve:kick"; "resolve:ban"; "resolve:timeout"].
Definition insert_action (env : Env) (id community : Uuid) (actor : Bytes) (action : string)
    (target_pubkey target_event_id : option Bytes) (public_reason : option string)
  : method ModDb DbError Uuid :=
  fun db =>
    if negb (bool_decide (action ∈ MODERATION_ACTION_CHECK_VOCAB))
       || negb (is_32 actor && is_32_or_null target_pubkey && is_32_or_null target_event_id)
       || bool_decide (is_Some (md_actions db !! ((community, id) : RowKey)))
    then (db, Err Sqlx)
    else
      (set_actions (<[((community, id) : RowKey) :=
         mkAction actor action target_pubkey target_event_id public_reason (env_now env)]>
         (md_actions db)) db, Ok id).

Definition set_community_icon (community : Uuid) (icon : option string) : method ModDb DbError unit :=
  m_modify (fun db => set_icons (<[community := icon]> (md_icons db)) db).

(** * Authority *)

Inductive ModerationAction :=
  DeleteMessage | Kick | Ban | Unban | Timeout | Untimeout | ResolveReport | ViewQueue.
#[export] Instance ModerationAction_eq_dec : EqDecision ModerationAction.
Proof. solve_decision. Defined.
Inductive ModerationAuthority := CommunityOwner | CommunityAdmin | ChannelRole.

Definition restricts (action : ModerationAction) : bool :=
  bool_decide (action = Ban) || bool_decide (action = Timeout).
Definition channel_local (action : ModerationAction) : bool :=
  bool_decide (action = DeleteMessage) || bool_decide (action = Kick).
Definition is_role (role : string) (r : option string) : bool := bool_decide (r = Some role).
Definition is_steward (r : option string) : bool := is_role "owner" r || is_role "admin" r.

Definition decide_authority (actor_role target_role channel_role : option string)
    (action : ModerationAction) : result ModerationAuthority string :=
  if is_role "owner" actor_role then Ok CommunityOwner
  else if is_role "admin" actor_role then
    if restricts action && is_steward target_role
    then Err "an admin cannot ban or time out a community owner or fellow admin"
    else Ok CommunityAdmin
  else if channel_local action && is_steward channel_role then Ok ChannelRole
  else Err "moderator access required".

(** * Profiles *)

Definition MAX_WORKSPACE_ICON_URL_LEN : nat := 2048.
Definition MAX_WORKSPACE_ICON_DATA_URL_LEN : nat := 98304.
Definition validate_workspace_icon (icon : string) : result unit Message :=
  let len := String.length icon in
  if str_is_empty icon then Ok tt
  else if has_any (control ++ whitespace) icon then Err (msg "icon contains invalid characters")
  else if starts_with "data:image/" icon then
    if Nat.ltb MAX_WORKSPACE_ICON_DATA_URL_LEN len
    then Err (fmt "icon data URL too long: {} bytes (max 98304)" [ANum (Z.of_nat len)])
    else Ok tt
  else if negb (starts_with "https://" icon) && negb (starts_with "http://" icon)
  then Err (msg "icon must be an http(s) URL or data:image/* URL")
  else if Nat.ltb MAX_WORKSPACE_ICON_URL_LEN len
  then Err (fmt "icon URL too long: {} bytes (max 2048)" [ANum (Z.of_nat len)])
  else Ok tt.
Definition may_set_workspace_profile (sender_role : string) (membership_enforced community_has_steward : bool)
  : bool :=
  if negb membership_enforced && negb community_has_steward then true
  else String.eqb sender_role "admin" || String.eqb sender_role "owner".

(** * Parsing *)

Section parsing.
Context `{A : NostrApi}.

(** The value of the first tag of this name that has 64 hexadecimal digits. *)
Definition first_hex_value (name : string) (event : Event) : option string :=
  find_map (fun parts =>
    v ← tag_pair name parts; if is_hex_id v then Some v else None) (ev_tags event).
(** [extract_p_tag_hex]; [extract_p_tag_bytes] and [extract_report_tag] decode it. *)
Definition extract_p_tag_hex : Event -> option string := first_hex_value "p".
Definition extract_p_tag_bytes (event : Event) : option Bytes := first_hex_value "p" event ≫= hex_decode.
Definition extract_report_tag (event : Event) : option Bytes :=
  first_hex_value "report" event ≫= hex_decode.
(** [extract_tag_value]: of the first tag of this name, whether it has a value or not. *)
Definition extract_named_value (name : string) (event : Event) : option string :=
  parts ← head (List.filter (fun parts => bool_decide (head parts = Some name)) (ev_tags event));
  parts !! 1%nat.

Definition extract_expiration `{StoreDeps} (event : Event) : result (option Z) Message :=
  match extract_named_value "expiration" event with
  | None => Ok None
  | Some raw =>
      match parse_i64 raw with
      | None => Err (fmt "invalid: invalid expiration tag: {raw}" [AText raw])
      | Some secs =>
          match from_timestamp secs with
          | Some ts => Ok (Some ts)
          | None => Err (fmt "invalid: expiration out of range: {secs}" [ANum secs])
          end
      end
  end.

Definition resolution_audit_action (action : string) : string :=
  if String.eqb action "dismiss" then "dismiss_report"
  else if String.eqb action "escalate" then "escalate"
  else if String.eqb action "delete" then "resolve:delete"
  else if String.eqb action "kick" then "resolve:kick"
  else if String.eqb action "ban" then "resolve:ban"
  else if String.eqb action "timeout" then "resolve:timeout"
  else "resolve:unknown".

(** ** Reports *)

Definition REPORT_TYPES : list string :=
  ["illegal"; "nudity"; "malware"; "spam"; "impersonation"; "profanity"; "other"].
Definition ReportTag : Type := string * option string.
Definition collect_report_tags (event : Event) (tag_name : string) : list ReportTag :=
  omap (fun fields =>
    match fields with
    | n :: v :: rest => if String.eqb n tag_name then Some (v, head rest) else None
    | _ => None
    end) (ev_tags event).
Definition parse_report_type (value : option string) : result string Message :=
  match value with
  | None => Err (msg "invalid: report target tag missing report type")
  | Some value =>
      if bool_decide (value ∈ REPORT_TYPES) then Ok value
      else Err (fmt "invalid: unsupported report type: {value}" [AText value])
  end.
Definition decode_32_byte_hex (value label : string) : result Bytes Message :=
  let bad := fmt "invalid: malformed {label}" [AText label] in
  if negb (is_hex_id value) then Err bad
  else match decode32 value with Some b => Ok b | None => Err bad end.

(** The target with the reported author where one is named. *)
Inductive ParsedReportTarget :=
| ParsedEvent (event_id author_pubkey : Bytes)
| ParsedBlob (sha256 author_pubkey : Bytes)
| ParsedPubkey (pubkey : Bytes).
Definition parse_report (event : Event) : result (ParsedReportTarget * string) Message :=
  match collect_report_tags event "p" with
  | [] => Err (msg "invalid: report must include a p tag")
  | _ :: _ :: _ => Err (msg "invalid: report must include exactly one p tag")
  | [p_tag] =>
      let? reported_pubkey := decode_32_byte_hex p_tag.1 "p tag pubkey" in
      let e_tags := collect_report_tags event "e" in
      let x_tags := collect_report_tags event "x" in
      if negb (bool_decide (e_tags = [])) && negb (bool_decide (x_tags = []))
      then Err (msg "invalid: report must target only one of e or x")
      else if Nat.ltb 1 (length e_tags)
      then Err (msg "invalid: report must include at most one e tag")
      else if Nat.ltb 1 (length x_tags)
      then Err (msg "invalid: report must include at most one x tag")
      else
        match e_tags, x_tags with
        | tag :: _, _ =>
            let? report_type := parse_report_type tag.2 in
            let? event_id := decode_32_byte_hex tag.1 "e tag event id" in
            Ok (ParsedEvent event_id reported_pubkey, report_type)
        | [], tag :: _ =>
            let? report_type := parse_report_type tag.2 in
            let? sha256 := decode_32_byte_hex tag.1 "x tag sha256" in
            Ok (ParsedBlob sha256 reported_pubkey, report_type)
        | [], [] =>
            let? report_type := parse_report_type p_tag.2 in
            Ok (ParsedPubkey reported_pubkey, report_type)
        end
  end.
Definition report_note (event : Event) : option string :=
  if str_is_empty (ev_content event) then None else Some (ev_content event).
End parsing.

(** * Owners *)

Definition owns (db : ModDb) (community : Uuid) (pubkey : string) : Prop :=
  role_of db community pubkey = Some "owner".

Lemma owns_row db community pubkey :
  owns db community pubkey <->
  exists m, md_roster db !! ((community, pubkey) : RosterKey) = Some m /\ rm_role m = "owner".
Proof.
  unfold owns, role_of, get_relay_member. rewrite fmap_Some. naive_solver.
Qed.

Lemma elem_of_owner_rows (p : RosterKey -> bool) db k m :
  (k, m) ∈ List.filter (fun x : RosterKey * RelayMember => p x.1 && String.eqb (rm_role x.2) "owner")
             (map_to_list (md_roster db)) <->
  p k = true /\ owns db k.1 k.2 /\ md_roster db !! k = Some m.
Proof.
  rewrite list_elem_of_In, filter_In, <-list_elem_of_In, elem_of_map_to_list, andb_true_iff, String.eqb_eq.
  rewrite owns_row. destruct k as [c pk]. cbn. naive_solver.
Qed.

Lemma elem_of_owners (p : RosterKey -> bool) db pk :
  pk ∈ owners_where p db <-> exists c, p (c, pk) = true /\ owns db c pk.
Proof.
  unfold owners_where. rewrite list_elem_of_fmap. split.
  - intros ([[c pk'] m] & -> & H%elem_of_owner_rows). cbn in *. naive_solver.
  - intros (c & Hp & Ho). apply owns_row in Ho as Hm. destruct Hm as (m & Hm & _).
    exists ((c, pk), m). split; [done|]. by apply elem_of_owner_rows.
Qed.

Lemma elem_of_community_owners community db pk :
  pk ∈ owners_where (fun k => bool_decide (k.1 = community)) db <-> owns db community pk.
Proof.
  rewrite elem_of_owners. cbn. split.
  - intros (c & ->%bool_decide_eq_true & Ho). done.
  - intros Ho. exists community. by rewrite bool_decide_eq_true.
Qed.

(** The communities one pubkey owns. *)
Definition owned (pubkey : string) (db : ModDb) : list Uuid :=
  (fun x : RosterKey * RelayMember => x.1.1) <$>
  List.filter (fun x : RosterKey * RelayMember => String.eqb x.1.2 pubkey && String.eqb (rm_role x.2) "owner")
    (map_to_list (md_roster db)).

Lemma owner_count_owned pubkey db : owner_count pubkey db = Z.of_nat (length (owned pubkey db)).
Proof. unfold owner_count, owners_where, owned. by rewrite !length_fmap. Qed.

Lemma elem_of_owned pubkey db c : c ∈ owned pubkey db <-> owns db c pubkey.
Proof.
  unfold owned. rewrite list_elem_of_fmap. split.
  - intros ([[c' pk] m] & -> & H). cbn.
    apply (elem_of_owner_rows (fun k => String.eqb k.2 pubkey)) in H as (->%String.eqb_eq & Ho & _). done.
  - intros Ho. apply owns_row in Ho as Hm. destruct Hm as (m & Hm & _).
    exists ((c, pubkey), m). split; [done|].
    apply (elem_of_owner_rows (fun k => String.eqb k.2 pubkey)). cbn. by rewrite String.eqb_refl.
Qed.

Lemma NoDup_owned pubkey db : NoDup (owned pubkey db).
Proof.
  unfold owned. apply NoDup_fmap_2_strong.
  - intros [[c pk] m] [[c' pk'] m'] H1 H2 Hc. cbn in Hc. subst c'.
    apply (elem_of_owner_rows (fun k => String.eqb k.2 pubkey)) in H1 as (Hpk%String.eqb_eq & _ & Hm).
    apply (elem_of_owner_rows (fun k => String.eqb k.2 pubkey)) in H2 as (Hpk'%String.eqb_eq & _ & Hm').
    cbn in *. subst. congruence.
  - apply NoDup_ListNoDup, List.NoDup_filter, NoDup_ListNoDup, NoDup_map_to_list.
Qed.

(** What the upsert and the demotion do to the roles. *)
Lemma role_of_crown env community pubkey demoted db c pk :
  role_of (set_roster (crown env community pubkey demoted (md_roster db)) db) c pk =
  if bool_decide (c = community) then
    if String.eqb pk pubkey then Some "owner"
    else if bool_decide (role_of db c pk = Some "owner") then Some demoted else role_of db c pk
  else role_of db c pk.
Proof.
  unfold role_of, get_relay_member, crown. cbn [md_roster set_roster].
  rewrite map_lookup_imap. destruct (decide (c = community)) as [->|Hc].
  - rewrite !bool_decide_eq_true_2 by done. destruct (String.eqb_spec pk pubkey) as [->|Hne].
    + rewrite lookup_insert_eq. cbn. rewrite String.eqb_refl, andb_false_r.
      by destruct (md_roster db !! _).
    + rewrite lookup_insert_ne by congruence. destruct (md_roster db !! _) as [m|]; cbn; [|done].
      rewrite ?bool_decide_eq_true_2 by done. cbn.
      destruct (String.eqb_spec (rm_role m) "owner") as [Ho|Ho]; cbn.
      * destruct (String.eqb_spec pk pubkey); [done|]. by rewrite bool_decide_eq_true_2 by congruence.
      * by rewrite bool_decide_eq_false_2 by congruence.
  - rewrite !bool_decide_eq_false_2 by done.
    rewrite lookup_insert_ne by congruence. by destruct (md_roster db !! _) as [m|].
Qed.

(** Roles outside the roster's rows of a community, and every other table. *)
Definition transferred_from (community : Uuid) (pubkey : string) (db db' : ModDb) : Prop :=
  (forall c pk, role_of db' c pk =
    if bool_decide (c = community) then
      if String.eqb pk pubkey then Some "owner"
      else if bool_decide (role_of db c pk = Some "owner") then Some "member" else role_of db c pk
    else role_of db c pk) /\
  md_bans db' = md_bans db /\ md_reports db' = md_reports db /\ md_actions db' = md_actions db /\
  md_icons db' = md_icons db.

Lemma transfer_within_limit limit community pubkey db db' :
  transferred_from community pubkey db db' -> owner_count pubkey db < limit ->
  owner_count pubkey db' <= limit.
Proof.
  intros [Hrole _]. rewrite !owner_count_owned. intros Hl.
  enough (length (owned pubkey db') <= S (length (owned pubkey db)))%nat by lia.
  change (length (owned pubkey db') <= length (community :: owned pubkey db))%nat.
  apply submseteq_length, NoDup_submseteq; [apply NoDup_owned|].
  intros c. rewrite elem_of_cons, !elem_of_owned. unfold owns at 1. rewrite Hrole.
  case_bool_decide; [by left|by right].
Qed.

(** C29: The outcome of a transfer, for every community and every pair of pubkeys; an error has
    changed nothing, unless the acknowledgement of the commit was lost, and then the transfer
    has happened within the limit. *)
Theorem ownership_transfer_spec env limit community new_owner expected db :
  let pubkey := to_ascii_lowercase new_owner in
  let expected_owner := to_ascii_lowercase expected in
  let '(db', r) := transfer_ownership env limit community new_owner expected db in
  match r with
  | Ok (Transferred previous) =>
      owns db community expected_owner /\ transferred_from community pubkey db db' /\
      owner_count pubkey db' <= limit /\
      (forall o, previous = Some o -> owns db community o /\ ~ owns db' community o)
  | Ok AlreadyOwner => db' = db /\ forall pk, owns db community pk <-> pk = pubkey
  | Ok NoOwner => db' = db /\ forall pk, ~ owns db community pk
  | Ok OwnerConflict => db' = db /\ ~ owns db community expected_owner
  | Ok LimitReached => db' = db /\ limit <= owner_count pubkey db
  | Err _ => db' = db \/
      env_acked env = false /\ owns db community expected_owner /\
      transferred_from community pubkey db db' /\ owner_count pubkey db' <= limit
  end.
Proof.
  cbn zeta. unfold transfer_ownership, transaction, m_bind, m_read, m_ret, m_modify.
  set (pubkey := to_ascii_lowercase new_owner). set (expected_owner := to_ascii_lowercase expected).
  pose proof (fun pk => elem_of_community_owners community db pk) as Hown.
  set (os := owners_where _ db) in *.
  destruct (decide (os = [])) as [Hnil|Hnil].
  { rewrite bool_decide_eq_true_2 by done. split; [done|]. intros pk Ho%Hown. rewrite Hnil in Ho. set_solver. }
  rewrite bool_decide_eq_false_2 by done.
  destruct (decide (expected_owner ∈ os)) as [Hexp|Hexp].
  2:{ rewrite bool_decide_eq_false_2 by done. cbn. split; [done|]. by rewrite <-Hown. }
  rewrite bool_decide_eq_true_2 by done. cbn [negb].
  case_bool_decide as Hsole.
  { split; [done|]. intros pk. rewrite <-Hown, Hsole. set_solver. }
  destruct (Z.leb_spec limit (owner_count pubkey db)) as [Hl|Hl]; [done|].
  destruct (env_commits env); [|by left]. cbn [negb].
  assert (Htr : transferred_from community pubkey db
                  (set_roster (crown env community pubkey "member" (md_roster db)) db)).
  { split; [|done]. intros c pk. apply role_of_crown. }
  apply Hown in Hexp as Hexp'. pose proof (transfer_within_limit limit community pubkey db _ Htr Hl) as Hin_limit.
  destruct (env_acked env); [|by right]. split_and!; [done..|].
  intros o Ho. assert (Hin : o ∈ os /\ o <> pubkey).
  { destruct os as [|o1 [|o2 os']]; [done|..].
    - injection Ho as <-. split; [set_solver|congruence].
    - apply head_Some_elem_of in Ho. rewrite list_elem_of_In, filter_In in Ho.
      destruct Ho as [Ho1 Ho2%negb_true_iff%String.eqb_neq]. by rewrite list_elem_of_In. }
  destruct Hin as [Hin Hne]. split; [by apply Hown|].
  destruct Htr as [Hrole _]. unfold owns at 1. rewrite Hrole, bool_decide_eq_true_2 by done.
  destruct (String.eqb_spec o pubkey); [done|]. rewrite bool_decide_eq_true_2 by by apply Hown. done.
Qed.
