(* ===== verification/ReadPath.v ===== *)
(** The read path: REQ ([crates/buzz-relay/src/handlers/req.rs]) and COUNT
    ([.../handlers/count.rs]) over the queries of [EventStore] and the memberships of
    [Membership].

    A request reads several times, each time a database state of its own (a cached list of
    channels, an uncached confirmation, one query per filter from the writer or a replica);
    the states are the fields of [ReadEnv].  The handlers are methods on what a request
    changes: the connection's subscriptions, the registry, the topics and the messages sent.

    A conformance trace is recorded along the way ([Conformance]); it changes nothing here
    and is left out. *)
From S2P Require Import Prelude Nostr Kinds Filters Text Subscription EventStore Channel Membership Auth.
Local Open Scope string_scope.
Local Open Scope list_scope.
Local Open Scope Z_scope.
Local Open Scope buzz_scope.

(** * Queries from filters *)

Section queries.
Context `{A : NostrApi} `{SD : StoreDeps} `{U : UuidParse}.

(** [filter.generic_tags.get(&SingleLetterTag::lowercase(..))] *)
Definition tag_values (filter : Filter) (letter : ascii) : option (list string) :=
  f_generic_tags filter !! slt_lowercase letter.
Definition kinds_of (filter : Filter) : list Z := default [] (f_kinds filter).

(** [filter.kinds.as_ref().is_none_or(|ks| ks.iter().any(..))] *)
Definition can_match (gated : list Z) (filter : Filter) : bool :=
  match f_kinds filter with
  | None => true
  | Some ks => existsb (fun k => mem_kind k gated) ks
  end.
Definition filter_can_match_author_only_kinds : Filter -> bool := can_match AUTHOR_ONLY_KINDS.
Definition filter_can_match_shared_gated_kinds : Filter -> bool := can_match SHARED_GATED_KINDS.
Definition filter_can_match_result_gated_kinds : Filter -> bool := can_match RESULT_GATED_KINDS.

(** [is_some_and(|ks| !ks.is_empty() && ks.iter().all(..))] *)
Definition only_kinds (p : Z -> bool) (filter : Filter) : bool :=
  match f_kinds filter with
  | Some (k :: ks) => forallb p (k :: ks)
  | _ => false
  end.
Definition filters_are_nip43_membership_only (filters : list Filter) : bool :=
  negb (bool_decide (filters = []))
  && forallb (only_kinds (fun k => k =? KIND_NIP43_MEMBERSHIP_LIST)) filters.

Definition filter_fully_pushable (filter : Filter) : bool :=
  let is_nip33_only := only_kinds is_parameterized_replaceable filter in
  forallb (fun '(k, vs) =>
      let key := slt_to_string k in
      if String.eqb key "h" || String.eqb key "p" then Nat.leb (length vs) 1
      else if String.eqb key "d" then bool_decide (vs = []) || is_nip33_only
      else if String.eqb key "e" then true
      else bool_decide (vs = [])) (map_to_list (f_generic_tags filter))
  && bool_decide (f_search filter = None).

(** The values of the tags named [h], in the order of the map. *)
Definition h_values (filter : Filter) : list string :=
  concat ((fun '(k, vs) => if String.eqb (slt_to_string k) "h" then vs else [])
            <$> map_to_list (f_generic_tags filter)).
Definition extract_channel_id_from_filter (filter : Filter) : option Uuid :=
  find_map parse_uuid (h_values filter).

(** The loop over one filter: [None] when a second channel appears. *)
Fixpoint scan_channels (vals : list string) (found : option Uuid) (has : bool)
  : option (option Uuid * bool) :=
  match vals with
  | [] => Some (found, has)
  | v :: vals' =>
      match parse_uuid v with
      | None => scan_channels vals' found has
      | Some id =>
          match found with
          | Some existing =>
              if negb (bool_decide (existing = id)) then None
              else scan_channels vals' (Some id) true
          | None => scan_channels vals' (Some id) true
          end
      end
  end.
Fixpoint extract_channel_loop (filters : list Filter) (found : option Uuid) : option Uuid :=
  match filters with
  | [] => found
  | f :: fs =>
      match scan_channels (h_values f) found false with
      | Some (found', true) => extract_channel_loop fs found'
      | _ => None
      end
  end.
Definition extract_channel_id_from_filters (filters : list Filter) : option Uuid :=
  extract_channel_loop filters None.

(** The channel of a filter with one [#h] value; [extract_channel_from_filter] of COUNT. *)
Definition single_h_channel (filter : Filter) : option Uuid :=
  match tag_values filter "h" with
  | Some [v] => parse_uuid v
  | _ => None
  end.

Definition nonempty {B : Type} (l : option (list B)) : option (list B) :=
  match l with Some (x :: l') => Some (x :: l') | _ => None end.

Definition filter_to_query_params (filter : Filter) (channel_id : option Uuid) (community : Uuid)
  : EventQuery :=
  let time t := t ≫= (fun s => from_timestamp (to_i64 s)) in
  let limit :=
    match f_limit filter with
    | Some l => Z.min (to_i64 l) DEFAULT_MAX_PAGE_LIMIT
    | None => DEFAULT_MAX_PAGE_LIMIT
    end in
  let '(pubkey, authors) :=
    match f_authors filter with
    | Some [a] => (Some a, None)
    | Some (a :: l) => (None, Some (a :: l))
    | _ => (None, None)
    end in
  let p_tag_hex := match tag_values filter "p" with Some [v] => Some v | _ => None end in
  let '(d_tag, d_tags) :=
    if only_kinds is_parameterized_replaceable filter then
      match tag_values filter "d" with
      | Some [v] => (Some v, None)
      | Some (v :: w :: l) => (None, Some (v :: w :: l))
      | _ => (None, None)
      end
    else (None, None) in
  mkQuery community channel_id (f_kinds filter) pubkey (time (f_since filter))
    (time (f_until filter)) (Some limit) None p_tag_hex d_tag d_tags None false authors
    (nonempty (f_ids filter)) (nonempty (tag_values filter "e")) None None None.

Definition with_channel_ids (ids : option (list Uuid)) (q : EventQuery) : EventQuery :=
  mkQuery (q_community_id q) (q_channel_id q) (q_kinds q) (q_pubkey q) (q_since q) (q_until q)
    (q_limit q) (q_offset q) (q_p_tag_hex q) (q_d_tag q) (q_d_tags q) (q_before_id q)
    (q_global_only q) (q_authors q) (q_ids q) (q_e_tags q) ids (q_max_limit q)
    (q_shared_gated_reader q).
Definition with_reader (reader : option Bytes) (q : EventQuery) : EventQuery :=
  mkQuery (q_community_id q) (q_channel_id q) (q_kinds q) (q_pubkey q) (q_since q) (q_until q)
    (q_limit q) (q_offset q) (q_p_tag_hex q) (q_d_tag q) (q_d_tags q) (q_before_id q)
    (q_global_only q) (q_authors q) (q_ids q) (q_e_tags q) (q_channel_ids q) (q_max_limit q) reader.
Definition with_limit (limit max_limit : option Z) (q : EventQuery) : EventQuery :=
  mkQuery (q_community_id q) (q_channel_id q) (q_kinds q) (q_pubkey q) (q_since q) (q_until q)
    limit (q_offset q) (q_p_tag_hex q) (q_d_tag q) (q_d_tags q) (q_before_id q)
    (q_global_only q) (q_authors q) (q_ids q) (q_e_tags q) (q_channel_ids q) max_limit
    (q_shared_gated_reader q).

Definition apply_access_scope_to_query (q : EventQuery) (channel_id : option Uuid)
    (accessible_channels : list Uuid) : EventQuery :=
  match channel_id with
  | None => with_channel_ids (Some accessible_channels) q
  | Some _ => q
  end.

Definition COUNT_FALLBACK_CANDIDATE_LIMIT : Z := 5000.
Definition apply_count_fallback_limit (q : EventQuery) : EventQuery :=
  let fetch_limit := COUNT_FALLBACK_CANDIDATE_LIMIT + 1 in
  with_limit (Some fetch_limit) (Some fetch_limit) q.
Definition count_fallback_exceeded (candidate_count : nat) : bool :=
  COUNT_FALLBACK_CANDIDATE_LIMIT <? Z.of_nat candidate_count.

Definition build_event_query_from_filter (filter : Filter) (community : Uuid) : EventQuery :=
  filter_to_query_params filter (extract_channel_id_from_filter filter) community.

(** * Gates *)

(** [is_some_and(|vs| !vs.is_empty() && vs.iter().all(|v| v == authed))] *)
Definition p_is_self (filter : Filter) (authed : string) : bool :=
  match tag_values filter "p" with
  | Some (v :: vs) => forallb (fun x => String.eqb x authed) (v :: vs)
  | _ => false
  end.
Definition authors_are_self (filter : Filter) (authed : string) : bool :=
  match f_authors filter with
  | Some (a :: l) => forallb (fun x => eq_ignore_ascii_case (to_hex x) authed) (a :: l)
  | _ => false
  end.
Definition has_ids (filter : Filter) : bool := bool_decide (is_Some (nonempty (f_ids filter))).

Definition p_gated_filters_authorized (filters : list Filter) (authed : string) : bool :=
  forallb (fun filter =>
    if negb (can_match P_GATED_KINDS filter) then true
    else
      let explicitly_no_ids_exemption :=
        existsb (fun k => (k =? KIND_DM_VISIBILITY) || (k =? KIND_AGENT_TURN_METRIC))
          (kinds_of filter) in
      if negb explicitly_no_ids_exemption && has_ids filter then true
      else p_is_self filter authed) filters.

Definition engram_filters_authorized (filters : list Filter) (authed : string) : bool :=
  forallb (fun filter =>
    if has_ids filter then true
    else if negb (can_match [KIND_AGENT_ENGRAM] filter) then true
    else authors_are_self filter authed || p_is_self filter authed) filters.

Definition author_only_filters_authorized (filters : list Filter) (authed : string) : bool :=
  forallb (fun filter =>
    if negb (only_kinds (fun k => mem_kind k AUTHOR_ONLY_KINDS) filter) then true
    else authors_are_self filter authed) filters.

Definition result_gated_count_safe_for_pushdown (filter : Filter) (authed : string) : bool :=
  p_is_self filter authed.

Definition is_author_only_event (event : Event) (requester : Bytes) : bool :=
  mem_kind (event_kind_u32 event) AUTHOR_ONLY_KINDS
  && negb (bool_decide (ev_pubkey event = requester)).
Definition event_visible_to_reader (event : Event) (requester : Bytes) : bool :=
  if is_author_only_event event requester then false
  else if is_unshared_gated_event event requester then false
  else reader_authorized_for_event event (to_hex requester).

Inductive EventTopic := TopicChannel (channel_id : Uuid) | TopicGlobal.
Definition topic_for_subscription (channel_id : option Uuid) : EventTopic :=
  match channel_id with Some ch => TopicChannel ch | None => TopicGlobal end.

(** Request-local access: the repaired list and whether the channel is accessible. *)
Definition resolve_request_local_access (accessible_channels : list Uuid) (ch_id : Uuid)
    (token_allows : bool) (db_is_member : option bool) : list Uuid * bool :=
  if negb token_allows then (accessible_channels, false)
  else if bool_decide (ch_id ∈ accessible_channels) then (accessible_channels, true)
  else
    match db_is_member with
    | Some true => (accessible_channels ++ [ch_id], true)
    | _ => (accessible_channels, false)
    end.

Inductive ChannelScope :=
| AnyChannel
| ChannelLessOnly
| Channels (ids : list Uuid)
| ChannelsOrChannelLess (ids : list Uuid).
Definition build_search_channel_scope_filter (accessible_channels : list Uuid)
    (include_global : bool) : option ChannelScope :=
  match accessible_channels with
  | [] => if include_global then Some ChannelLessOnly else None
  | _ => Some (if include_global then ChannelsOrChannelLess accessible_channels
               else Channels accessible_channels)
  end.
End queries.

(** * Requests *)

Inductive RelayMessage :=
| MsgEvent (sub_id : SubId) (event : Event)
| MsgEose (sub_id : SubId)
| MsgClosed (sub_id : SubId) (reason : string)
| MsgNotice (text : string)
| MsgCount (sub_id : SubId) (count : Z).

Inductive TopicOp := Retain (topic : EventTopic) | Release (topic : EventTopic).

(** What a request changes. *)
Record ReqWorld := mkReqWorld {
  rw_subscriptions : gmap SubId (list Filter);
  rw_registry : SubscriptionRegistry;
  rw_topics : list TopicOp;
  rw_sent : list RelayMessage
}.

(** The connection. *)
Record ConnectionState := mkConn {
  conn_id : ConnId;
  conn_tenant : Uuid;
  conn_auth : AuthState
}.

(** The states a request reads ([None]: the read fails), the hits of the full-text search,
    which messages the socket's buffer accepts. *)
Record ReadEnv := mkReadEnv {
  re_cached : option ChanDb;
  re_confirm : Uuid -> option ChanDb;
  re_query : nat -> option Db;
  re_hits : nat -> Z -> option (list Bytes);
  re_hydrate : nat -> Z -> option Db;
  re_send : nat -> bool
}.

(** Every read sees the same two states and the socket keeps up. *)
Definition snapshot (cdb : ChanDb) (db : Db) : ReadEnv :=
  mkReadEnv (Some cdb) (fun _ => Some cdb) (fun _ => Some db) (fun _ _ => None) (fun _ _ => None)
    (fun _ => true).

Definition MAX_SUBSCRIPTIONS : nat := 1024.
Definition SEARCH_PAGE_SIZE : Z := 100.
Definition MAX_SEARCH_PAGES : nat := 10.

Section requests.
Context `{A : NostrApi} `{SD : StoreDeps} `{U : UuidParse} `{H : HashIter}.
Context (env : ReadEnv).

(** [conn.send(..)] *)
Definition send (msg : RelayMessage) : method ReqWorld unit bool :=
  fun w =>
    if re_send env (length (rw_sent w))
    then (mkReqWorld (rw_subscriptions w) (rw_registry w) (rw_topics w) (rw_sent w ++ [msg]), Ok true)
    else (w, Ok false).
(** [conn.send(..); return;] *)
Definition send_and_return {B : Type} (msg : RelayMessage) : method ReqWorld unit B :=
  do? _ <- send msg ;; m_fail tt.

Definition read_state {D B : Type} (seen : option D) (f : D -> result B DbError) : result B DbError :=
  match seen with Some d => f d | None => Err Sqlx end.
Definition query_events_routed (i : nat) (q : EventQuery) : result (list StoredEvent) DbError :=
  read_state (re_query env i) (query_events q).
Definition count_events_routed (i : nat) (q : EventQuery) : result Z DbError :=
  read_state (re_query env i) (count_events q).
Definition get_accessible_channel_ids_cached (community : Uuid) (pubkey : Bytes)
  : result (list Uuid) DbError :=
  read_state (re_cached env) (fun db => Ok (get_accessible_channel_ids community pubkey db)).
Definition is_member_confirmed (community ch_id : Uuid) (pubkey : Bytes) : result bool DbError :=
  read_state (re_confirm env ch_id) (fun db => Ok (is_member community ch_id pubkey db)).

Definition token_allows (token : option (list Uuid)) (ch_id : Uuid) : bool :=
  match token with Some allowed => bool_decide (ch_id ∈ allowed) | None => true end.
Definition retain_allowed (token : option (list Uuid)) (channels : list Uuid) : list Uuid :=
  match token with
  | Some allowed => List.filter (fun ch => bool_decide (ch ∈ allowed)) channels
  | None => channels
  end.

(** Reading the connection's authentication. *)
Definition authenticate (sub_id : SubId) (conn : ConnectionState)
  : method ReqWorld unit AuthContext :=
  match conn_auth conn with
  | Authenticated ctx =>
      if negb (bool_decide (ac_scopes ctx = [])) && negb (bool_decide (MessagesRead ∈ ac_scopes ctx))
      then
        do? _ <- send (MsgNotice "restricted: insufficient scope") ;;
        send_and_return (MsgClosed sub_id "restricted: insufficient scope")
      else
        do? w <- m_get ;;
        if bool_decide (rw_subscriptions w !! sub_id = None)
           && Nat.leb MAX_SUBSCRIPTIONS (size (rw_subscriptions w))
        then send_and_return (MsgClosed sub_id "error: too many subscriptions")
        else m_ret ctx
  | _ =>
      do? _ <- send (MsgNotice "auth-required: authenticate before subscribing") ;;
      send_and_return (MsgClosed sub_id "auth-required: not authenticated")
  end.

(** The cached channels, narrowed to the token. *)
Definition request_channels (sub_id : SubId) (community : Uuid) (ctx : AuthContext)
    (skip : bool) : method ReqWorld unit (list Uuid) :=
  do? ids <- (if skip then m_ret []
              else match get_accessible_channel_ids_cached community (ac_pubkey ctx) with
                   | Ok ids => m_ret ids
                   | Err _ => send_and_return (MsgClosed sub_id "error: database error")
                   end) ;;
  m_ret (retain_allowed (ac_channel_ids ctx) ids).

(** Confirming one channel: the repaired list, and whether it may be read. *)
Definition confirm_channel (sub_id : SubId) (community : Uuid) (ctx : AuthContext)
    (accessible_channels : list Uuid) (ch_id : Uuid) (check_token_first : bool)
  : method ReqWorld unit (list Uuid * bool) :=
  let allows := token_allows (ac_channel_ids ctx) ch_id in
  do? db_is_member <-
    (if (check_token_first && negb allows) || bool_decide (ch_id ∈ accessible_channels) then m_ret None
     else match is_member_confirmed community ch_id (ac_pubkey ctx) with
          | Ok member => m_ret (Some member)
          | Err _ => send_and_return (MsgClosed sub_id "error: database error")
          end) ;;
  m_ret (resolve_request_local_access accessible_channels ch_id allows db_is_member).

Definition check_gates (sub_id : SubId) (filters : list Filter) (authed : string)
    (p_reason : string) : method ReqWorld unit unit :=
  if negb (p_gated_filters_authorized filters authed)
  then send_and_return (MsgClosed sub_id p_reason)
  else if negb (engram_filters_authorized filters authed)
  then send_and_return (MsgClosed sub_id "restricted: agent-engram reads require authors=[self] or #p=[self]")
  else if negb (author_only_filters_authorized filters authed)
  then send_and_return (MsgClosed sub_id "restricted: author-only kinds require authors=[self]")
  else m_ret tt.

(** The checks on one stored event before it is sent. *)
Definition accepted (filter : Filter) (accessible_channels : list Uuid) (reader : Bytes)
    (stored : StoredEvent) : bool :=
  filters_match [filter] stored
  && match se_channel_id stored with
     | Some ch_id => bool_decide (ch_id ∈ accessible_channels)
     | None => true
     end
  && event_visible_to_reader (se_event stored) reader.

(** Sending the events of one filter; [seen_ids] is the set of ids sent so far.  A message the
    buffer refuses ends the request. *)
Fixpoint deliver (sub_id : SubId) (filter : Filter) (accessible_channels : list Uuid)
    (reader : Bytes) (events : list StoredEvent) (seen_ids : list Bytes)
  : method ReqWorld unit (list Bytes) :=
  match events with
  | [] => m_ret seen_ids
  | stored :: events' =>
      let id := ev_id (se_event stored) in
      if accepted filter accessible_channels reader stored && negb (bool_decide (id ∈ seen_ids)) then
        do? sent <- send (MsgEvent sub_id (se_event stored)) ;;
        if sent : bool then deliver sub_id filter accessible_channels reader events' (id :: seen_ids)
        else m_fail tt
      else deliver sub_id filter accessible_channels reader events' seen_ids
  end.

(** Phase 1 for one filter. *)
Definition historical_query (filter : Filter) (channel_id : option Uuid) (community : Uuid)
    (accessible_channels : list Uuid) (reader : Bytes) : EventQuery :=
  let per_filter_channel :=
    match single_h_channel filter with Some ch => Some ch | None => channel_id end in
  let params := filter_to_query_params filter per_filter_channel community in
  let params := apply_access_scope_to_query params per_filter_channel accessible_channels in
  if filter_can_match_shared_gated_kinds filter then with_reader (Some reader) params else params.

(** Phases 2 and 3: the queries overlap, their results are taken in the order of the filters. *)
Fixpoint history (sub_id : SubId) (channel_id : option Uuid) (community : Uuid)
    (accessible_channels : list Uuid) (reader : Bytes) (i : nat) (filters : list Filter)
    (seen_ids : list Bytes) : method ReqWorld unit unit :=
  match filters with
  | [] => m_ret tt
  | filter :: filters' =>
      match query_events_routed i
              (historical_query filter channel_id community accessible_channels reader) with
      | Err _ => send_and_return (MsgEose sub_id)
      | Ok events =>
          do? seen_ids <- deliver sub_id filter accessible_channels reader events seen_ids ;;
          history sub_id channel_id community accessible_channels reader (i + 1)%nat filters' seen_ids
      end
  end.

(** ** Search *)

Definition search_limit (filter : Filter) : Z :=
  match f_limit filter with
  | Some l => Z.min (l mod 2 ^ 32) DEFAULT_MAX_PAGE_LIMIT
  | None => DEFAULT_MAX_PAGE_LIMIT
  end.

(** One page of hits: the ids sent so far and how many of this filter; the limit counts the
    events of the filter that were sent. *)
Fixpoint deliver_hits (sub_id : SubId) (filter : Filter) (accessible_channels : list Uuid)
    (reader : Bytes) (limit : Z) (events : list StoredEvent) (hit_ids : list Bytes)
    (seen_ids : list Bytes) (emitted : Z) : method ReqWorld unit (list Bytes * Z) :=
  match hit_ids with
  | [] => m_ret (seen_ids, emitted)
  | id :: hit_ids' =>
      if limit <=? emitted then m_ret (seen_ids, emitted)
      else
        (* the last row with an id wins in the map *)
        match last (List.filter (fun ev => bool_decide (ev_id (se_event ev) = id)) events) with
        | Some stored =>
            let sid := ev_id (se_event stored) in
            if accepted filter accessible_channels reader stored
               && negb (bool_decide (sid ∈ seen_ids)) then
              do? sent <- send (MsgEvent sub_id (se_event stored)) ;;
              if sent : bool then
                deliver_hits sub_id filter accessible_channels reader limit events hit_ids'
                  (sid :: seen_ids) (emitted + 1)
              else m_fail tt
            else deliver_hits sub_id filter accessible_channels reader limit events hit_ids'
                   seen_ids emitted
        | None => deliver_hits sub_id filter accessible_channels reader limit events hit_ids'
                    seen_ids emitted
        end
  end.

Fixpoint search_pages (fuel : nat) (sub_id : SubId) (community : Uuid) (filter : Filter)
    (accessible_channels : list Uuid) (reader : Bytes) (limit : Z) (i : nat) (page : Z)
    (seen_ids : list Bytes) (emitted : Z) : method ReqWorld unit (list Bytes) :=
  match fuel with
  | O => m_ret seen_ids
  | S fuel =>
      if limit <=? emitted then m_ret seen_ids
      else
        match re_hits env i page with
        | None => m_ret seen_ids
        | Some hit_ids =>
            let exhausted := Z.of_nat (length hit_ids) <? SEARCH_PAGE_SIZE in
            match (match hit_ids with
                   | [] => Ok []
                   | _ => read_state (re_hydrate env i page) (get_events_by_ids community hit_ids)
                   end) with
            | Err _ => m_ret seen_ids
            | Ok events =>
                do? (seen_ids, emitted) <- deliver_hits sub_id filter accessible_channels reader
                                            limit events hit_ids seen_ids emitted ;;
                if exhausted then m_ret seen_ids
                else search_pages fuel sub_id community filter accessible_channels reader limit i
                       (page + 1) seen_ids emitted
            end
        end
  end.

(** The scope of one filter: the accessible ones of its channels when it names any; [None]
    skips the filter. *)
Definition search_scope (filter : Filter) (accessible_channels : list Uuid) (all : ChannelScope)
  : option ChannelScope :=
  match nonempty (tag_values filter "h") with
  | Some vs =>
      match List.filter (fun id => bool_decide (id ∈ accessible_channels)) (omap parse_uuid vs) with
      | [] => None
      | valid => Some (Channels valid)
      end
  | None => Some all
  end.

Fixpoint search_filters (sub_id : SubId) (community : Uuid) (accessible_channels : list Uuid)
    (all : ChannelScope) (reader : Bytes) (i : nat) (filters : list Filter)
    (seen_ids : list Bytes) : method ReqWorld unit unit :=
  match filters with
  | [] => m_ret tt
  | filter :: filters' =>
      do? seen_ids <-
        (match f_search filter with
         | Some (String _ _) =>
             if search_limit filter =? 0 then m_ret seen_ids
             else match search_scope filter accessible_channels all with
                  | None => m_ret seen_ids
                  | Some _ => search_pages MAX_SEARCH_PAGES sub_id community filter
                                accessible_channels reader (search_limit filter) i 1 seen_ids 0
                  end
         | _ => m_ret seen_ids
         end) ;;
      search_filters sub_id community accessible_channels all reader (i + 1)%nat filters' seen_ids
  end.

Definition handle_search_req (sub_id : SubId) (filters : list Filter)
    (accessible_channels : list Uuid) (include_global : bool) (community : Uuid) (reader : Bytes)
  : method ReqWorld unit unit :=
  match build_search_channel_scope_filter accessible_channels include_global with
  | None => send_and_return (MsgEose sub_id)
  | Some all =>
      do? _ <- search_filters sub_id community accessible_channels all reader 0 filters [] ;;
      do? _ <- send (MsgEose sub_id) ;;
      m_ret tt
  end.

(** ** REQ *)

(** Registration: the connection's map, the registry, and the topics of its channel. *)
Definition register (sub_id : SubId) (conn : ConnectionState) (filters : list Filter)
    (channel_id : option Uuid) : method ReqWorld unit unit :=
  m_modify (fun w =>
    let '(registry, replaced) :=
      register_scoped (conn_tenant conn) (conn_id conn) sub_id filters channel_id (rw_registry w) in
    mkReqWorld (<[sub_id := filters]> (rw_subscriptions w)) registry
      (rw_topics w
       ++ ((fun r => Release (topic_for_subscription (rm_channel_id r))) <$> option_list replaced)
       ++ [Retain (topic_for_subscription channel_id)])
      (rw_sent w)).

Definition handle_req (sub_id : SubId) (filters : list Filter) (conn : ConnectionState)
  : method ReqWorld unit unit :=
  let community := conn_tenant conn in
  do? ctx <- authenticate sub_id conn ;;
  let reader := ac_pubkey ctx in
  do? accessible_channels <-
    request_channels sub_id community ctx (filters_are_nip43_membership_only filters) ;;
  let channel_id := extract_channel_id_from_filters filters in
  do? accessible_channels <-
    (match channel_id with
     | Some ch_id =>
         do? (repaired, allowed) <- confirm_channel sub_id community ctx accessible_channels ch_id true ;;
         if allowed : bool then m_ret repaired
         else send_and_return (MsgClosed sub_id "restricted: not a channel member")
     | None =>
         do? _ <- check_gates sub_id filters (to_hex reader)
                   "restricted: p-gated events require #p matching your pubkey" ;;
         m_ret accessible_channels
     end) ;;
  if existsb (fun f => bool_decide (is_Some (f_search f))) filters then
    if existsb (fun f => bool_decide (f_search f = None)) filters
    then send_and_return (MsgClosed sub_id "error: mixed search and non-search filters not supported")
    else handle_search_req sub_id filters accessible_channels
           (bool_decide (ac_channel_ids ctx = None)) community reader
  else
    do? _ <- register sub_id conn filters channel_id ;;
    do? _ <- history sub_id channel_id community accessible_channels reader 0 filters [] ;;
    do? _ <- send (MsgEose sub_id) ;;
    m_ret tt.

(** ** COUNT *)

(** Whether the rows of a filter can be counted by the database. *)
Definition countable_in_sql (filter : Filter) (authed : string) : bool :=
  let needs_author_only_filtering := filter_can_match_author_only_kinds filter in
  let needs_shared_gate_filtering := filter_can_match_shared_gated_kinds filter in
  let needs_result_gated_filtering :=
    filter_can_match_result_gated_kinds filter
    && negb (result_gated_count_safe_for_pushdown filter authed) in
  filter_fully_pushable filter
  && (negb needs_author_only_filtering || authors_are_self filter authed)
  && negb needs_result_gated_filtering && negb needs_shared_gate_filtering.

(** The query of one filter. *)
Definition count_query (filter : Filter) (community : Uuid) (reader : Bytes)
    (channel_ids : option (list Uuid)) : EventQuery :=
  let query := build_event_query_from_filter filter community in
  let query := match channel_ids with Some ids => with_channel_ids (Some ids) query | None => query end in
  if filter_can_match_shared_gated_kinds filter then with_reader (Some reader) query else query.

(** Counting one filter with its query. *)
Definition count_filter (sub_id : SubId) (i : nat) (filter : Filter) (authed : string)
    (reader : Bytes) (query : EventQuery) : method ReqWorld unit Z :=
  let fail e := send_and_return (MsgClosed sub_id ("error: " ++ db_error_text e)%string) in
  if countable_in_sql filter authed then
    match count_events_routed i query with
    | Ok n => m_ret n
    | Err e => fail e
    end
  else
    match query_events_routed i (apply_count_fallback_limit query) with
    | Ok stored_events =>
        if count_fallback_exceeded (length stored_events)
        then send_and_return (MsgClosed sub_id "restricted: count filter requires narrower constraints")
        else m_ret (Z.of_nat (length (List.filter (fun se =>
               filters_match [filter] se && event_visible_to_reader (se_event se) reader) stored_events)))
    | Err e => fail e
    end.

(** The loop; a channel repaired for one filter stays repaired for the later ones. *)
Fixpoint count_filters (sub_id : SubId) (community : Uuid) (ctx : AuthContext)
    (accessible_channels : list Uuid) (i : nat) (filters : list Filter) (total : Z)
  : method ReqWorld unit Z :=
  match filters with
  | [] => m_ret total
  | filter :: filters' =>
      let reader := ac_pubkey ctx in
      let authed := to_hex reader in
      match single_h_channel filter with
      | Some ch_id =>
          do? (repaired, allowed) <- confirm_channel sub_id community ctx accessible_channels ch_id false ;;
          if allowed : bool then
            do? n <- count_filter sub_id i filter authed reader (count_query filter community reader None) ;;
            count_filters sub_id community ctx repaired (i + 1)%nat filters' (total + n)
          else count_filters sub_id community ctx repaired (i + 1)%nat filters' total
      | None =>
          let query := count_query filter community reader (Some accessible_channels) in
          do? n <- count_filter sub_id i filter authed reader
                    (if countable_in_sql filter authed then with_limit None (q_max_limit query) query
                     else query) ;;
          count_filters sub_id community ctx accessible_channels (i + 1)%nat filters' (total + n)
      end
  end.

Definition handle_count (sub_id : SubId) (filters : list Filter) (conn : ConnectionState)
  : method ReqWorld unit unit :=
  let community := conn_tenant conn in
  match conn_auth conn with
  | Authenticated ctx =>
      do? _ <- check_gates sub_id filters (to_hex (ac_pubkey ctx))
                "restricted: p-gated kinds require #p tag matching your pubkey" ;;
      do? accessible_channels <- request_channels sub_id community ctx false ;;
      do? total <- count_filters sub_id community ctx accessible_channels 0 filters 0 ;;
      do? _ <- send (MsgCount sub_id total) ;;
      m_ret tt
  | _ => send_and_return (MsgClosed sub_id "auth-required: not authenticated")
  end.
End requests.

(** * What a request may send *)

(** [m] only appends messages that satisfy [P], and its result satisfies [Q]. *)
Definition sends {B : Type} (P : RelayMessage -> Prop) (Q : B -> Prop)
    (m : method ReqWorld unit B) : Prop := appends rw_sent (fun _ => True) P Q m.

Section sends.
Context (env : ReadEnv) (P : RelayMessage -> Prop).

Lemma sends_ret {B : Type} (Q : B -> Prop) b : Q b -> sends P Q (m_ret b).
Proof. apply appends_ret. Qed.
Lemma sends_fail {B : Type} (Q : B -> Prop) : sends P Q (m_fail tt).
Proof. apply appends_fail. Qed.
Lemma sends_get (Q : ReqWorld -> Prop) : (forall w, Q w) -> sends P Q m_get.
Proof. intros HQ. by apply appends_get. Qed.
Lemma sends_modify f : (forall w, rw_sent (f w) = rw_sent w) -> sends P (fun _ => True) (m_modify f).
Proof. intros Hf. by apply appends_modify. Qed.
Lemma sends_send msg : P msg -> sends P (fun _ => True) (send env msg).
Proof.
  intros Hm w _. unfold send. destruct (re_send env _); simpl; (split_and!; [done| |done]).
  - exists [msg]. by rewrite Forall_singleton.
  - exists []. by rewrite app_nil_r.
Qed.
Lemma sends_bind {B C : Type} (Q : B -> Prop) (R : C -> Prop) m (k : B -> method ReqWorld unit C) :
  sends P Q m -> (forall b, Q b -> sends P R (k b)) -> sends P R (m_bind m k).
Proof. apply appends_bind. Qed.
Lemma sends_then_return {B : Type} (Q : B -> Prop) msg : P msg -> sends P Q (send_and_return env msg).
Proof.
  intros Hm. eapply sends_bind; [by apply sends_send|]. intros b _. apply sends_fail.
Qed.
End sends.

Section confinement.
Context `{A : NostrApi} `{L : !NostrLaws A} `{SD : StoreDeps} `{SL : !StoreLaws SD}
        `{U : UuidParse} `{H : HashIter}.
Context (env : ReadEnv).

(** The event is a live row of the community in a state the request read. *)
Definition stored_row (seen : Db) (community : Uuid) (st : StoredEvent) : Prop :=
  exists k r, db_events seen !! k = Some r /\ ek_community k = community /\ live r = true /\
              se_event st = row_event k r /\ se_channel_id st = er_channel_id r.
Definition state_read (seen : Db) : Prop :=
  (exists i, re_query env i = Some seen) \/ (exists i page, re_hydrate env i page = Some seen).

(** The channel is one of the token's and one the reader may read, as a state the request read
    says: it is open, or the reader is a member. *)
Definition may_read (community : Uuid) (ctx : AuthContext) (ch : Uuid) : Prop :=
  token_allows (ac_channel_ids ctx) ch = true /\
  exists members c, (re_cached env = Some members \/ re_confirm env ch = Some members) /\
    live_channel members (community, ch) = Some c /\
    (ch_visibility c = ChannelVisibility.Open \/
     is_Some (get_active_role_tx members community ch (ac_pubkey ctx))).

(** The event-level gates: an author-only event is read by its author, an agent's persona or
    team by its author unless it is shared, a DM snapshot or turn metric by those it names. *)
Definition readable (reader : Bytes) (e : Event) : Prop :=
  (event_kind_u32 e ∈ AUTHOR_ONLY_KINDS -> ev_pubkey e = reader) /\
  (event_kind_u32 e ∈ SHARED_GATED_KINDS ->
   ev_pubkey e = reader \/ shared_tags (ev_tags e) = [["shared"; "true"]]) /\
  (ev_kind e ∈ RESULT_GATED_KINDS -> tagged e "p" (to_hex reader)).

Lemma visible_readable reader e : event_visible_to_reader e reader = true <-> readable reader e.
Proof.
  unfold event_visible_to_reader, readable, is_author_only_event.
  pose proof (mem_kind_true (event_kind_u32 e) AUTHOR_ONLY_KINDS) as Ha.
  pose proof (unshared_gate_spec e reader) as Hs.
  pose proof (reader_authorized_spec e (to_hex reader)) as Hr.
  assert (Hdec : forall P : Prop, (ev_kind e ∉ RESULT_GATED_KINDS \/ P) <-> (ev_kind e ∈ RESULT_GATED_KINDS -> P)).
  { intros P. destruct (decide (ev_kind e ∈ RESULT_GATED_KINDS)); tauto. }
  rewrite Hdec in Hr. unfold SHARED_GATED_KINDS.
  destruct (mem_kind _ AUTHOR_ONLY_KINDS) eqn:Hm; simpl.
  - case_bool_decide as Hp; simpl.
    + destruct (is_unshared_gated_event e reader).
      * split; [done|]. intros (_ & Hg & _). destruct Hs as [_ Hs].
        destruct (decide (event_kind_u32 e ∈ [KIND_PERSONA; KIND_TEAM_CATALOG])) as [Hi|Hi].
        -- enough (true = false) by done. apply Hs. destruct (Hg Hi); auto.
        -- enough (true = false) by done. auto.
      * rewrite Hr. split; [|tauto]. intros Hw. split_and!; [done| |done].
        destruct Hs as [Hs _]. destruct (Hs eq_refl) as [?|[?|?]]; [done|auto|auto].
    + split; [done|]. intros (Hauth & _). destruct Hp. apply Hauth, Ha. done.
  - assert (Hno : event_kind_u32 e ∉ AUTHOR_ONLY_KINDS) by (rewrite <-Ha; done).
    destruct (is_unshared_gated_event e reader).
    + split; [done|]. intros (_ & Hg & _). destruct Hs as [_ Hs].
      destruct (decide (event_kind_u32 e ∈ [KIND_PERSONA; KIND_TEAM_CATALOG])) as [Hi|Hi].
      * enough (true = false) by done. apply Hs. destruct (Hg Hi); auto.
      * enough (true = false) by done. auto.
    + rewrite Hr. split; [|tauto]. intros Hw. split_and!; [done| |done].
      destruct Hs as [Hs _]. destruct (Hs eq_refl) as [?|[?|?]]; [done|auto|auto].
Qed.

(** ** Rows and channels *)

Lemma row_to_stored_event_row k r st : row_to_stored_event k r = Ok (Some st) ->
  se_event st = row_event k r /\ se_channel_id st = er_channel_id r.
Proof.
  unfold row_to_stored_event. destruct (negb _); [done|].
  destruct (event_from_value _) as [e|] eqn:He; [|done]. intros [= <-]. simpl.
  split; [|done]. by apply event_from_value_same.
Qed.

Lemma rows_to_events_elem rows evs st : rows_to_events rows = Ok evs -> st ∈ evs ->
  exists k r, (k, r) ∈ rows /\ row_to_stored_event k r = Ok (Some st).
Proof.
  revert evs. induction rows as [|[k r] rows IH]; intros evs; simpl.
  { intros [= <-] Hin. by apply elem_of_nil in Hin. }
  intros Hb Hin. apply res_bind_Ok in Hb as (ev & Hev & Hb). apply res_bind_Ok in Hb as (out & Hout & Hb).
  injection Hb as <-. apply elem_of_app in Hin as [Hin|Hin].
  - destruct ev as [ev|]; simpl in Hin; [|by apply elem_of_nil in Hin].
    apply list_elem_of_singleton in Hin as ->. exists k, r. split; [left|done].
  - destruct (IH out Hout Hin) as (k' & r' & Hin' & Hr). exists k', r'. split; [by right|done].
Qed.

Lemma query_events_stored q db evs st : query_events q db = Ok evs -> st ∈ evs ->
  exists k r, db_events db !! k = Some r /\ query_where q db k r = true /\
              row_to_stored_event k r = Ok (Some st).
Proof.
  unfold query_events. repeat (case_match; try done).
  { intros [= <-] Hin. by apply elem_of_nil in Hin. }
  intros Hq Hin. destruct (rows_to_events_elem _ _ _ Hq Hin) as (k & r & Hkr & Hr).
  apply elem_of_take in Hkr as (n & Hn & _). apply list_elem_of_lookup_2 in Hn.
  apply list_elem_of_lookup in Hn as [i Hn]. rewrite lookup_drop in Hn.
  apply list_elem_of_lookup_2 in Hn.
  apply elem_of_select_ordered in Hn as [Hk Hw]. eauto.
Qed.

Lemma query_where_stored q db k r : query_where q db k r = true ->
  ek_community k = q_community_id q /\ live r = true.
Proof.
  unfold query_where, where_common. rewrite !andb_true_iff. intros Hw.
  decompose [and] Hw. by rewrite bool_decide_eq_true in *.
Qed.

Lemma historical_query_community filter ch community accessible reader :
  q_community_id (historical_query filter ch community accessible reader) = community.
Proof.
  unfold historical_query, filter_to_query_params, apply_access_scope_to_query.
  repeat case_match; done.
Qed.

Lemma accessible_may_read community pubkey db ch :
  ch ∈ get_accessible_channel_ids community pubkey db ->
  exists c, live_channel db (community, ch) = Some c /\
    (ch_visibility c = ChannelVisibility.Open \/
     is_Some (get_active_role_tx db community ch pubkey)).
Proof.
  unfold get_accessible_channel_ids. rewrite list_elem_of_fmap.
  intros ([[c' ch'] c] & -> & Hin). apply list_elem_of_In, filter_In in Hin as [Hin Hb].
  apply list_elem_of_In, elem_of_hash_iter in Hin. simpl in *.
  apply andb_true_iff in Hb as [->%bool_decide_eq_true Hacc].
  unfold accessible in Hacc. apply andb_true_iff in Hacc as [Hdel Hacc].
  exists c. unfold live_channel. rewrite Hin. simpl. rewrite Hdel. split; [done|].
  apply orb_true_iff in Hacc as [->%bool_decide_eq_true|Hm%bool_decide_eq_true]; auto.
Qed.

(** ** Confinement *)

Context (sub_id : SubId) (conn : ConnectionState) (filters : list Filter).
Let community : Uuid := conn_tenant conn.

(** An event a request of [ctx] may be sent. *)
Definition confined (ctx : AuthContext) (e : Event) : Prop :=
  exists seen st, state_read seen /\ stored_row seen community st /\ se_event st = e /\
    (exists f, f ∈ filters /\ filters_match [f] st = true) /\
    (forall ch, se_channel_id st = Some ch -> may_read community ctx ch) /\
    readable (ac_pubkey ctx) e.
Definition admitted (ctx : AuthContext) : Prop :=
  conn_auth conn = Authenticated ctx /\ (ac_scopes ctx = [] \/ MessagesRead ∈ ac_scopes ctx).
Definition proper (msg : RelayMessage) : Prop :=
  match msg with
  | MsgEvent s e => s = sub_id /\ exists ctx, admitted ctx /\ confined ctx e
  | _ => True
  end.

Definition all_readable (ctx : AuthContext) (channels : list Uuid) : Prop :=
  forall ch, ch ∈ channels -> may_read community ctx ch.
Definition from_store (st : StoredEvent) : Prop :=
  exists seen, state_read seen /\ stored_row seen community st.

Lemma authenticate_sends : sends proper admitted (authenticate env sub_id conn).
Proof.
  unfold authenticate. destruct (conn_auth conn) as [|ctx|] eqn:Hauth.
  1,3: eapply sends_bind; [by apply sends_send|]; intros b _; by apply sends_then_return.
  destruct (negb (bool_decide (ac_scopes ctx = [])) && _) eqn:Hs.
  - eapply sends_bind; [by apply sends_send|]. intros b _. by apply sends_then_return.
  - eapply sends_bind; [apply (sends_get _ (fun _ => True)); done|]. intros w _.
    destruct (bool_decide (rw_subscriptions w !! sub_id = None) && _); [by apply sends_then_return|]. apply sends_ret. split; [done|].
    apply andb_false_iff in Hs as [Hs|Hs]; apply negb_false_iff, bool_decide_eq_true in Hs; auto.
Qed.

Lemma token_allows_retain token ch l :
  ch ∈ retain_allowed token l -> ch ∈ l /\ token_allows token ch = true.
Proof.
  unfold retain_allowed, token_allows. destruct token; [|done].
  by rewrite list_elem_of_In, filter_In, <-list_elem_of_In.
Qed.

Lemma request_channels_sends ctx skip :
  sends proper (all_readable ctx) (request_channels env sub_id community ctx skip).
Proof.
  unfold request_channels.
  apply (sends_bind _ (fun ids => ids = [] \/ exists db, re_cached env = Some db /\
           ids = get_accessible_channel_ids community (ac_pubkey ctx) db)).
  - destruct skip; [apply sends_ret; by left|].
    unfold get_accessible_channel_ids_cached, read_state.
    destruct (re_cached env) as [db|]; [|by apply sends_then_return].
    apply sends_ret. right. eauto.
  - intros ids Hids. apply sends_ret. intros ch [Hch Htok]%token_allows_retain.
    split; [done|]. destruct Hids as [->|(db & Hdb & ->)]; [by apply elem_of_nil in Hch|].
    apply accessible_may_read in Hch as (c & Hc & Hv). exists db, c. auto.
Qed.

Lemma resolve_readable ctx channels ch member :
  all_readable ctx channels ->
  (member = Some true -> exists db, re_confirm env ch = Some db /\
     is_member community ch (ac_pubkey ctx) db = true) ->
  all_readable ctx (fst (resolve_request_local_access channels ch
                           (token_allows (ac_channel_ids ctx) ch) member)).
Proof.
  intros Hall Hm. unfold resolve_request_local_access.
  destruct (token_allows _ _) eqn:Htok; simpl; [|done]. case_bool_decide; [done|].
  destruct member as [[]|]; [|done..]. intros ch' [Hin|Hin%list_elem_of_singleton]%elem_of_app;
    [by apply Hall|]. subst ch'. split; [done|].
  destruct (Hm eq_refl) as (db & Hdb & Hmem). unfold is_member in Hmem.
  apply bool_decide_eq_true in Hmem. unfold get_member_role in Hmem.
  destruct (live_channel db _) as [c|] eqn:Hc; [|by destruct Hmem]. exists db, c. auto.
Qed.

Lemma confirm_channel_sends ctx channels ch first :
  all_readable ctx channels ->
  sends proper (fun out => all_readable ctx out.1)
    (confirm_channel env sub_id community ctx channels ch first).
Proof.
  intros Hall. unfold confirm_channel.
  apply (sends_bind _ (fun member => member = Some true -> exists db, re_confirm env ch = Some db /\
           is_member community ch (ac_pubkey ctx) db = true)).
  - destruct (_ || _); [by apply sends_ret|]. unfold is_member_confirmed, read_state.
    destruct (re_confirm env ch) as [db|]; [|by apply sends_then_return].
    apply sends_ret. intros [= Hm]. eauto.
  - intros member Hm. apply sends_ret. by apply resolve_readable.
Qed.

Lemma check_gates_sends authed reason :
  sends proper (fun _ => True) (check_gates env sub_id filters authed reason).
Proof.
  unfold check_gates. repeat (case_match; [by apply sends_then_return|]). by apply sends_ret.
Qed.

Section one_context.
Context (ctx : AuthContext) (Hctx : admitted ctx) (channels : list Uuid)
        (Hchannels : all_readable ctx channels).
Let reader : Bytes := ac_pubkey ctx.

Lemma accepted_proper f st : f ∈ filters -> from_store st ->
  accepted f channels reader st = true -> proper (MsgEvent sub_id (se_event st)).
Proof.
  intros Hf (seen & Hseen & Hrow) Hacc. unfold accepted in Hacc.
  apply andb_true_iff in Hacc as [[Hm Hch]%andb_true_iff Hv%visible_readable].
  split; [done|]. exists ctx. split; [done|]. exists seen, st. split_and!; eauto.
  intros ch Heq. rewrite Heq in Hch. apply bool_decide_eq_true in Hch. by apply Hchannels.
Qed.

Lemma deliver_sends f events seen : f ∈ filters -> Forall from_store events ->
  sends proper (fun _ => True) (deliver env sub_id f channels reader events seen).
Proof.
  intros Hf Hev. revert seen. induction Hev as [|st events Hst _ IH]; intros seen; simpl.
  { by apply sends_ret. }
  destruct (accepted f channels reader st) eqn:Hacc; simpl; [|apply IH].
  case_bool_decide; simpl; [apply IH|].
  eapply sends_bind; [apply sends_send; by eapply accepted_proper|].
  intros [] _; [apply IH|apply sends_fail].
Qed.

Lemma history_sends ch i fs seen : (forall f, f ∈ fs -> f ∈ filters) ->
  sends proper (fun _ => True) (history env sub_id ch community channels reader i fs seen).
Proof.
  revert i seen. induction fs as [|f fs IH]; intros i seen Hfs; simpl; [by apply sends_ret|].
  unfold query_events_routed, read_state.
  destruct (re_query env i) as [db|] eqn:Hdb; [|by apply sends_then_return].
  destruct (query_events _ db) as [events|e] eqn:Hq; [|by apply sends_then_return].
  eapply sends_bind; [apply deliver_sends; [apply Hfs; left|]|].
  - apply Forall_forall. intros st Hst.
    destruct (query_events_stored _ _ _ _ Hq Hst) as (k & r & Hk & Hw & Hr).
    apply query_where_stored in Hw as [Hcomm Hlive]. rewrite historical_query_community in Hcomm.
    apply row_to_stored_event_row in Hr as [He Hc].
    exists db. split; [left; eauto|]. exists k, r. auto.
  - intros seen' _. apply IH. intros f' Hf'. apply Hfs. by right.
Qed.

Lemma deliver_hits_sends f limit events ids seen emitted :
  f ∈ filters -> Forall from_store events ->
  sends proper (fun _ => True) (deliver_hits env sub_id f channels reader limit events ids seen emitted).
Proof.
  intros Hf Hev. revert seen emitted. induction ids as [|id ids IH]; intros seen emitted; simpl;
    [by apply sends_ret|].
  destruct (limit <=? emitted); [by apply sends_ret|].
  destruct (last _) as [st|] eqn:Hlast; [|apply IH].
  destruct (accepted f channels reader st) eqn:Hacc; simpl; [|apply IH].
  case_bool_decide; simpl; [apply IH|].
  eapply sends_bind; [apply sends_send|].
  - eapply accepted_proper; [done| |done]. rewrite Forall_forall in Hev. apply Hev.
    apply last_Some_elem_of, list_elem_of_In, filter_In in Hlast as [Hin _]. by apply list_elem_of_In.
  - intros [] _; [apply IH|apply sends_fail].
Qed.

Lemma hydrated_from_store i page ids events :
  ids <> [] -> read_state (re_hydrate env i page) (get_events_by_ids community ids) = Ok events ->
  Forall from_store events.
Proof.
  intros Hids Hq. unfold read_state in Hq. destruct (re_hydrate env i page) as [db|] eqn:Hdb; [|done].
  apply Forall_forall. intros st Hst. unfold get_events_by_ids in Hq.
  destruct ids as [|id ids]; [done|].
  destruct (rows_to_events_elem _ _ _ Hq Hst) as (k & r & Hkr & Hr).
  apply list_elem_of_In, filter_In in Hkr as [Hkr Hb].
  apply list_elem_of_In, elem_of_hash_iter in Hkr. rewrite !andb_true_iff in Hb.
  destruct Hb as [[Hcomm Hlive] _]. apply bool_decide_eq_true in Hcomm.
  apply row_to_stored_event_row in Hr as [He Hc].
  exists db. split; [right; eauto|]. exists k, r. auto.
Qed.

Lemma search_pages_sends fuel f limit i page seen emitted : f ∈ filters ->
  sends proper (fun _ => True)
    (search_pages env fuel sub_id community f channels reader limit i page seen emitted).
Proof.
  intros Hf. revert page seen emitted. induction fuel as [|fuel IH]; intros page seen emitted; simpl;
    [by apply sends_ret|].
  destruct (limit <=? emitted); [by apply sends_ret|].
  destruct (re_hits env i page) as [ids|]; [|by apply sends_ret].
  destruct (match ids with [] => Ok [] | _ => _ end) as [events|e] eqn:Hq; [|by apply sends_ret].
  eapply sends_bind; [apply deliver_hits_sends; [done|]|].
  - destruct ids; [injection Hq as <-; constructor|]. by eapply hydrated_from_store; [|exact Hq].
  - intros [seen' emitted'] _. destruct (_ <? SEARCH_PAGE_SIZE); [by apply sends_ret|apply IH].
Qed.

Lemma search_sends all i fs seen : (forall f, f ∈ fs -> f ∈ filters) ->
  sends proper (fun _ => True) (search_filters env sub_id community channels all reader i fs seen).
Proof.
  revert i seen. induction fs as [|f fs IH]; intros i seen Hfs;
    cbn [search_filters]; [by apply sends_ret|].
  eapply (sends_bind _ (fun _ => True)).
  - destruct (f_search f) as [[|c s]|]; try by apply sends_ret.
    destruct (search_limit f =? 0); [by apply sends_ret|].
    destruct (search_scope f channels all); [|by apply sends_ret].
    apply search_pages_sends, Hfs. left.
  - intros seen' _. apply IH. intros f' Hf'. apply Hfs. by right.
Qed.
End one_context.

(** C16: Whatever a client asks for, whichever states its request reads, and wherever it stops:
    every event it is sent under the subscription is a live event of the connection's own
    community, matches one of its filters, lies in no channel or in one that the token covers
    and the reader may read, and passes the gates of the author-only, shared and named kinds. *)
Theorem reads_confined (w : ReqWorld) :
  exists sent, rw_sent (fst (handle_req env sub_id filters conn w)) = rw_sent w ++ sent /\
    forall s e, MsgEvent s e ∈ sent ->
      s = sub_id /\ exists ctx, admitted ctx /\ confined ctx e.
Proof.
  assert (Hs : sends proper (fun _ => True) (handle_req env sub_id filters conn)).
  { unfold handle_req. eapply sends_bind; [apply authenticate_sends|]. intros ctx Hctx.
    eapply sends_bind; [apply request_channels_sends|]. intros channels Hch.
    apply (sends_bind _ (all_readable ctx)).
    - destruct (extract_channel_id_from_filters filters) as [ch|].
      + eapply sends_bind; [by apply confirm_channel_sends|]. intros [repaired []] Hr;
          [by apply sends_ret|by apply sends_then_return].
      + eapply sends_bind; [apply check_gates_sends|]. intros _ _. by apply sends_ret.
    - intros repaired Hr. destruct (existsb _ filters).
      + destruct (existsb _ filters); [by apply sends_then_return|]. unfold handle_search_req.
        destruct (build_search_channel_scope_filter _ _); [|by apply sends_then_return].
        eapply sends_bind; [by apply search_sends|]. intros _ _.
        eapply sends_bind; [by apply sends_send|]. intros _ _. by apply sends_ret.
      + eapply sends_bind; [apply sends_modify|].
        { intros w'. by destruct (register_scoped _ _ _ _ _ _). }
        intros _ _. eapply sends_bind; [by apply history_sends|]. intros _ _.
        eapply sends_bind; [by apply sends_send|]. intros _ _. by apply sends_ret. }
  destruct (Hs w I) as (_ & (l & Hl & HP) & _). exists l. split; [done|]. intros s e Hin.
  rewrite Forall_forall in HP. apply (HP _ Hin).
Qed.
End confinement.

(** * A concrete request *)

(** UUIDs read back from the decimal notation of [Reference]. *)
Module UuidReference.
Definition digit_value (c : ascii) : option N :=
  let n := N_of_ascii c in
  if (48 <=? n)%N && (n <=? 57)%N then Some (n - 48)%N else None.
Fixpoint digits (acc : N) (s : string) : option N :=
  match s with
  | EmptyString => Some acc
  | String c s' => d ← digit_value c; digits (acc * 10 + d)%N s'
  end.
#[export] Instance parse : UuidParse :=
  fun s => match s with EmptyString => None | _ => digits 0 s end.

Lemma digit_value_char x : (x < 10)%N -> digit_value (pretty.pretty_N_char x) = Some x.
Proof.
  intros Hx.
  assert (x = 0 \/ x = 1 \/ x = 2 \/ x = 3 \/ x = 4 \/ x = 5 \/ x = 6 \/ x = 7 \/ x = 8 \/ x = 9)%N
    as Hc by lia.
  by repeat destruct Hc as [->|Hc]; [..|subst].
Qed.
Lemma digits_go x s : digits 0 (pretty.pretty_N_go x s) = digits x s.
Proof.
  revert s. induction (N.lt_wf_0 x) as [x _ IH]. intros s.
  destruct (decide (x = 0)%N) as [->|Hx]; [done|].
  rewrite pretty.pretty_N_go_step by lia. rewrite IH by (apply N.div_lt; lia). cbn [digits].
  rewrite digit_value_char by (apply N.mod_lt; lia). simpl. f_equal.
  rewrite (N.div_mod x 10) at 3 by lia. lia.
Qed.
#[export] Instance laws : UuidLaws (A := Reference.api) parse.
Proof.
  constructor. intros u. change (parse (pretty.pretty u) = Some u).
  unfold pretty.pretty, pretty.pretty_N. destruct (decide (u = 0)%N) as [->|Hu]; [done|].
  pose proof (digits_go u "") as Hd. unfold parse.
  destruct (pretty.pretty_N_go u "") eqn:Hs; [|exact Hd].
  simpl in Hd. congruence.
Qed.
End UuidReference.

Module ReadExample.
#[local] Existing Instance map_to_list_iter.
#[local] Existing Instances StoreReference.deps UuidReference.parse.
Import MembershipExample.

(** Two channels of alice, one open and one private, with a message each. *)
Definition cdb : ChanDb :=
  run_op env (OpCreate 8%N 1%N "vault" ChannelType.Stream ChannelVisibility.Private None alice None)
    (run_op env create empty_chan_db).
Definition k1 : EventKey := (1%N, 50, replicate 32 Byte.x01).
Definition r1 : EventRow :=
  mkEventRow alice 9 [["h"; "7"]; ["e"; "aa"]] "hello" 50 (Some 7%N) None None None None.
Definition k2 : EventKey := (1%N, 60, replicate 32 Byte.x02).
Definition r2 : EventRow :=
  mkEventRow alice 9 [["h"; "8"]] "secret" 60 (Some 8%N) None None None None.
Definition db : Db := mkDb (<[k1 := r1]> {[k2 := r2]}) ∅ ∅ ∅.
(** Mallory asks for every message. *)
Definition mallory_ctx : AuthContext := mkAuthContext mallory [MessagesRead] None.
Definition conn : ConnectionState := mkConn 5%N 1%N (Authenticated mallory_ctx).
Definition all_messages : Filter := mkFilter None None (Some [9]) (Some 10) None ∅ None (Some 20).
Definition world : ReqWorld := mkReqWorld ∅ registry_new [] [].

(** What is sent: the message of the open channel, then the end. *)
Example sent_to_mallory :
  rw_sent (fst (handle_req (A := Reference.api) (snapshot cdb db) "s" [all_messages] conn world))
  = [MsgEvent "s" (row_event k1 r1); MsgEose "s"].
Proof. vm_compute. reflexivity. Qed.
End ReadExample.

Lemma reads_confined_witness :
  exists ctx, admitted ReadExample.conn ctx /\
    confined (A := Reference.api) (snapshot ReadExample.cdb ReadExample.db) ReadExample.conn
      [ReadExample.all_messages] ctx (row_event ReadExample.k1 ReadExample.r1).
Proof.
  destruct (reads_confined (A := Reference.api) (L := Reference.laws) (SD := StoreReference.deps)
              (SL := StoreReference.laws) (U := UuidReference.parse) (H := map_to_list_iter)
              (snapshot ReadExample.cdb ReadExample.db) "s" ReadExample.conn
              [ReadExample.all_messages] ReadExample.world) as (sent & Hs & Hall).
  rewrite ReadExample.sent_to_mallory in Hs. cbn [ReadExample.world rw_sent app] in Hs. subst sent.
  exact (proj2 (Hall "s" _ (list_elem_of_here _ _))).
Defined.
