(* ===== verification/ReadExact.v ===== *)
(** Exact delivery of stored events: against one state of the database, what a request is
    sent is what it is owed.  The pushed query of [ReadPath.historical_query] is shown to lose
    no row that [Filters.filter_match_one] accepts, then the loop over the filters to send each
    row once. *)
From S2P Require Import Prelude Nostr Kinds Filters Text Subscription EventStore Channel Membership Auth ReadPath.
Local Open Scope string_scope.
Local Open Scope list_scope.
Local Open Scope Z_scope.
Local Open Scope buzz_scope.

(** A tag is a non-empty list of strings; its kind is the first and its content the second. *)
Class TagLaws (A : NostrApi) := {
  tag_kind_first x t : tag_kind (x :: t) = x;
  tag_content_second t : tag_content t = t !! 1%nat
}.

Section exact.
Context `{A : NostrApi} `{L : !NostrLaws A} `{TL : !TagLaws A} `{SD : StoreDeps}
        `{SL : !StoreLaws SD} `{U : UuidParse} `{UL : !UuidLaws U} `{H : HashIter}.

Definition row_stored (k : EventKey) (r : EventRow) : StoredEvent :=
  mkStored (row_event k r) (er_received_at r) (er_channel_id r) true.

(** The stored row is one of this relay's: its event reads back, its kind fits, its id is one. *)
Record sound_row (k : EventKey) (r : EventRow) : Prop := {
  sr_readable : event_from_value (row_event k r) = Some (row_event k r);
  sr_kind : 0 <= er_kind r <= 65535;
  sr_id : id_wf (ek_id k)
}.

(** The filter names one channel in [h], other values aside. *)
Definition names_only (ch : Uuid) (f : Filter) : Prop :=
  (exists v, v ∈ h_values f /\ parse_uuid v = Some ch) /\
  forall v id, v ∈ h_values f -> parse_uuid v = Some id -> id = ch.
(** Three tags of a filter are looked up in columns and index rows instead of the event: the
    channel, when [h] has this one value or all filters of the request name this one; a single
    [p], among the mentions; and [d], when all kinds asked for are addressable. *)
Record found_by (db : Db) (filters : list Filter) (f : Filter) (k : EventKey) (r : EventRow) : Prop := {
  fb_channel ch :
    (exists v, tag_values f "h" = Some [v] /\ parse_uuid v = Some ch) \/
    (forall f', f' ∈ filters -> names_only ch f') ->
    er_channel_id r = Some ch;
  fb_mention v : tag_values f "p" = Some [v] ->
    is_Some (db_mentions db !! ((ek_community k, to_ascii_lowercase v, ek_id k) : MentionKey));
  fb_d ks vs : f_kinds f = Some ks -> ks <> [] ->
    (forall kind, kind ∈ ks -> is_parameterized_replaceable kind = true) ->
    tag_values f "d" = Some vs -> exists v, v ∈ vs /\ er_d_tag r = Some v
}.
Lemma only_kinds_true p f : only_kinds p f = true <->
  exists ks, f_kinds f = Some ks /\ ks <> [] /\ forall kind, kind ∈ ks -> p kind = true.
Proof.
  unfold only_kinds. destruct (f_kinds f) as [[|k ks]|].
  - split; [done|]. by intros (? & [= <-] & ? & _).
  - rewrite forallb_elem_of. split; [by exists (k :: ks)|]. by intros (? & [= <-] & _ & ?).
  - split; [done|]. by intros (? & ? & _).
Qed.

(** A filter whose values are what the columns hold. *)
Record plain (f : Filter) : Prop := {
  pl_ids ids : f_ids f = Some ids -> Forall id_wf ids;
  pl_until s : f_until f = Some s -> s < 2 ^ 63;
  pl_limit l : f_limit f = Some l -> 0 <= l < 2 ^ 63
}.

Lemma tagged_slice e k v : tagged e k v -> exists rest, (k :: v :: rest) ∈ ev_tags e.
Proof.
  intros (t & Ht & Hk & Hv). rewrite tag_content_second in Hv.
  destruct t as [|x [|y rest]]; try done. rewrite tag_kind_first in Hk. simpl in Hv.
  simplify_eq. eauto.
Qed.
Lemma tagged_contains e k v : tagged e k v -> tags_contain k v (ev_tags e) = true.
Proof.
  intros [rest Hin]%tagged_slice. unfold tags_contain. apply existsb_elem_of.
  eexists. split; [exact Hin|]. rewrite !bool_decide_eq_true_2; set_solver.
Qed.

Lemma tag_values_spec f k r c vs :
  filter_spec f (row_stored k r) -> tag_values f c = Some vs ->
  exists v, v ∈ vs /\ tag_satisfied (row_stored k r) (String c EmptyString) v.
Proof.
  intros (_ & _ & _ & _ & _ & Htags) Hvs. destruct (Htags _ _ Hvs) as (v & Hv & Hs).
  exists v. by rewrite slt_lowercase_to_string in Hs.
Qed.
Lemma tag_values_tagged f k r c vs :
  filter_spec f (row_stored k r) -> tag_values f c = Some vs -> String c EmptyString <> "h" ->
  exists v, v ∈ vs /\ tagged (row_event k r) (String c EmptyString) v.
Proof.
  intros Hf Hvs Hc. destruct (tag_values_spec _ _ _ _ _ Hf Hvs) as (v & Hv & [Ht|[? _]]); eauto.
  done.
Qed.

(** ** The channel of a request *)

Lemma elem_of_h_values f v : v ∈ h_values f <->
  exists k vs, f_generic_tags f !! k = Some vs /\ slt_to_string k = "h" /\ v ∈ vs.
Proof.
  unfold h_values. rewrite list_elem_of_In, in_concat. setoid_rewrite <-list_elem_of_In.
  setoid_rewrite list_elem_of_fmap. split.
  - intros (l & ([k vs] & -> & Hin%elem_of_map_to_list) & Hv).
    destruct (String.eqb_spec (slt_to_string k) "h"); [eauto|by apply elem_of_nil in Hv].
  - intros (k & vs & Hk & Hs & Hv). exists vs. split; [|done].
    exists (k, vs). rewrite elem_of_map_to_list, Hs. done.
Qed.

Lemma scan_channels_spec vals found has found' has' :
  scan_channels vals found has = Some (found', has') ->
  (forall ch, found = Some ch -> found' = Some ch) /\
  (forall v id, v ∈ vals -> parse_uuid v = Some id -> found' = Some id) /\
  (has' = true -> has = true \/ exists v id, v ∈ vals /\ parse_uuid v = Some id).
Proof.
  revert found has. induction vals as [|v vals IH]; intros found has; simpl.
  { intros [= <- <-]. split_and!; [done| |auto]. intros v id Hv. by apply elem_of_nil in Hv. }
  destruct (parse_uuid v) as [id|] eqn:Hp.
  - intros Hs.
    assert (Hs' : scan_channels vals (Some id) true = Some (found', has') /\
                  (found = None \/ found = Some id)).
    { destruct found as [e|]; [|auto]. case_bool_decide as He; simpl in Hs; [|done]. subst. auto. }
    destruct Hs' as [Hs' Hf]. destruct (IH _ _ Hs') as (H1 & H2 & H3).
    split_and!.
    + intros ch ->. destruct Hf as [?|[= ->]]; [done|]. by apply H1.
    + intros v' id' [->|Hv]%elem_of_cons Hp'; [|by eapply H2].
      rewrite Hp in Hp'. injection Hp' as ->. by apply H1.
    + intros _. right. exists v, id. split; [left|done].
  - intros Hs. destruct (IH _ _ Hs) as (H1 & H2 & H3). split_and!; [done| |].
    + intros v' id' [->|Hv]%elem_of_cons Hp'; [congruence|]. by eapply H2.
    + intros Hh. destruct (H3 Hh) as [?|(v' & id & Hv & Hp')]; [auto|]. right. exists v', id.
      split; [by right|done].
Qed.

Lemma extract_channel_spec filters found ch :
  extract_channel_loop filters found = Some ch ->
  (forall ch', found = Some ch' -> ch' = ch) /\
  forall f, f ∈ filters ->
    (forall v id, v ∈ h_values f -> parse_uuid v = Some id -> id = ch) /\
    exists v, v ∈ h_values f /\ parse_uuid v = Some ch.
Proof.
  revert found. induction filters as [|f filters IH]; intros found; simpl.
  { intros ->. split; [intros; congruence|]. intros f Hf. by apply elem_of_nil in Hf. }
  destruct (scan_channels (h_values f) found false) as [[found' []]|] eqn:Hs; [|done..].
  intros Hl. destruct (IH _ Hl) as [H1 H2].
  destruct (scan_channels_spec _ _ _ _ _ Hs) as (S1 & S2 & S3). split.
  - intros ch' Hf. by apply H1, S1.
  - intros f' [->|Hf']%elem_of_cons; [|by apply H2]. split.
    + intros v id Hv Hp. apply H1. by eapply S2.
    + destruct (S3 eq_refl) as [?|(v & id & Hv & Hp)]; [done|]. exists v. split; [done|].
      rewrite Hp. f_equal. apply H1. by eapply S2.
Qed.

Lemma scan_channels_only ch vals found has :
  (forall v id, v ∈ vals -> parse_uuid v = Some id -> id = ch) ->
  (forall id, found = Some id -> id = ch) ->
  exists found', scan_channels vals found has =
      Some (found', has || existsb (fun v => bool_decide (is_Some (parse_uuid v))) vals) /\
    (forall id, found' = Some id -> id = ch).
Proof.
  revert found has. induction vals as [|v vals IH]; intros found has Hv Hf; simpl.
  { exists found. by rewrite orb_false_r. }
  assert (Hv' : forall v id, v ∈ vals -> parse_uuid v = Some id -> id = ch) by (intros v' id ?; apply Hv; by right).
  destruct (parse_uuid v) as [id|] eqn:Hp.
  - assert (id = ch) as -> by (eapply Hv; [left|done]). rewrite bool_decide_eq_true_2 by done. cbn [orb].
    rewrite orb_true_r. destruct found as [e|]; [rewrite (Hf e eq_refl), bool_decide_eq_true_2 by done; cbn [negb]|].
    all: destruct (IH (Some ch) true Hv') as (found' & -> & Hf'); [by intros id [= <-]|by exists found'].
  - rewrite bool_decide_eq_false_2 by (by intros []). by apply IH.
Qed.
Lemma extract_channel_only ch filters found :
  (forall f, f ∈ filters -> names_only ch f) -> (forall id, found = Some id -> id = ch) ->
  filters <> [] \/ found = Some ch -> extract_channel_loop filters found = Some ch.
Proof.
  revert found. induction filters as [|f filters IH]; intros found Hn Hf Hor; [by destruct Hor|]. simpl.
  destruct (Hn f) as [(v & Hv & Hp) Honly]; [left|].
  pose proof (scan_channels_spec (h_values f) found false) as Hspec.
  destruct (scan_channels_only ch (h_values f) found false Honly Hf) as (found' & Hs & Hf').
  rewrite Hs in Hspec |- *. destruct (Hspec _ _ eq_refl) as (_ & S2 & _).
  assert (Hfound : found' = Some ch) by by eapply S2.
  assert (existsb (fun v => bool_decide (is_Some (parse_uuid v))) (h_values f) = true) as ->.
  { apply existsb_elem_of. exists v. split; [done|]. rewrite Hp. by rewrite bool_decide_eq_true_2. }
  apply IH; [intros f' ?; apply Hn; by right|done|by right].
Qed.

(** The channel that is pushed for a filter of the request. *)
Definition per_filter_channel (f : Filter) (channel_id : option Uuid) : option Uuid :=
  match single_h_channel f with Some ch => Some ch | None => channel_id end.
Lemma pushed_channel_spec f filters ch : f ∈ filters ->
  per_filter_channel f (extract_channel_id_from_filters filters) = Some ch <->
  (exists v, tag_values f "h" = Some [v] /\ parse_uuid v = Some ch) \/
  (forall f', f' ∈ filters -> names_only ch f').
Proof.
  intros Hin. unfold per_filter_channel, extract_channel_id_from_filters.
  assert (Hsingle : forall ch', single_h_channel f = Some ch' <->
            exists v, tag_values f "h" = Some [v] /\ parse_uuid v = Some ch').
  { intros ch'. unfold single_h_channel. destruct (tag_values f "h") as [[|v [|w l]]|]; naive_solver. }
  destruct (single_h_channel f) as [ch0|] eqn:Hs.
  - rewrite <-Hsingle. split; [by left|]. intros [?|Hall]; [done|].
    destruct (proj1 (Hsingle ch0) eq_refl) as (v & Hv & Hp). f_equal. destruct (Hall f Hin) as [_ Honly].
    eapply Honly; [|exact Hp]. apply elem_of_h_values. exists (slt_lowercase "h"), [v].
    split_and!; [done|by rewrite slt_lowercase_to_string|left].
  - rewrite <-Hsingle. split.
    + intros Hx. right. destruct (extract_channel_spec _ _ _ Hx) as [_ Hall]. intros f' Hf'.
      destruct (Hall f' Hf') as [Hsame Hex]. by split.
    + intros [?|Hall]; [done|]. apply extract_channel_only; [done|done|]. left. intros ->. by apply elem_of_nil in Hin.
Qed.

(** ** Rows whose columns say what their tags say

    The relay's own notices of membership are not among them: they name a channel in [h] and
    are stored without one, so that a filter with that [h] does not find them. *)
Record indexed (db : Db) (k : EventKey) (r : EventRow) : Prop := {
  ix_mentions v : tagged (row_event k r) "p" v -> valid_pubkey v = true ->
    is_Some (db_mentions db !! ((ek_community k, to_ascii_lowercase v, ek_id k) : MentionKey));
  ix_channel v ch : tagged (row_event k r) "h" v -> parse_uuid v = Some ch -> er_channel_id r = Some ch;
  ix_d v : is_parameterized_replaceable (er_kind r) = true -> tagged (row_event k r) "d" v ->
    er_d_tag r = Some v
}.
(** The filter names keys and channels only. *)
Record well_named (f : Filter) : Prop := {
  wn_p v : tag_values f "p" = Some [v] -> valid_pubkey v = true;
  wn_h v : v ∈ h_values f -> is_Some (parse_uuid v)
}.
Lemma satisfied_channel db k r v ch :
  indexed db k r -> tag_satisfied (row_stored k r) "h" v -> parse_uuid v = Some ch ->
  er_channel_id r = Some ch.
Proof.
  intros Hix [Ht|(_ & _ & ch' & Hch' & ->)] Hp; [by eapply ix_channel|].
  rewrite parse_uuid_to_string in Hp. simpl in Hch'. congruence.
Qed.

(** The channel pushed for a filter is the channel of every row it matches. *)
Lemma pushed_channel db k r f filters ch :
  indexed db k r -> well_named f -> filter_spec f (row_stored k r) -> f ∈ filters ->
  per_filter_channel f (extract_channel_id_from_filters filters) = Some ch ->
  er_channel_id r = Some ch.
Proof.
  intros Hix Hpl Hf Hin. unfold per_filter_channel. destruct (single_h_channel f) as [ch0|] eqn:Hs.
  - intros [= <-]. unfold single_h_channel in Hs.
    destruct (tag_values f "h") as [[|v []]|] eqn:Hv; try done.
    destruct (tag_values_spec _ _ _ _ _ Hf Hv) as (v' & ->%list_elem_of_singleton & Ht).
    by eapply satisfied_channel.
  - intros Hx. unfold extract_channel_id_from_filters in Hx.
    destruct (extract_channel_spec _ _ _ Hx) as [_ Hall]. destruct (Hall f Hin) as [Hsame (v & Hv & _)].
    apply elem_of_h_values in Hv as (key & vs & Hk & Hh & _).
    destruct Hf as (_ & _ & _ & _ & _ & Htags). destruct (Htags _ _ Hk) as (v' & Hv' & Ht).
    rewrite Hh in Ht. assert (Hvv : v' ∈ h_values f) by (apply elem_of_h_values; eauto).
    destruct (wn_h _ Hpl _ Hvv) as [id Hid]. rewrite (Hsame _ _ Hvv Hid) in Hid.
    by eapply satisfied_channel.
Qed.

(** Every filter that such a row matches finds it. *)
Lemma indexed_found db k r f filters : indexed db k r -> well_named f -> f ∈ filters ->
  filter_spec f (row_stored k r) -> found_by db filters f k r.
Proof.
  intros Hix Hwn Hin Hf. split.
  - intros ch Hc%(pushed_channel_spec f filters ch Hin). by eapply pushed_channel.
  - intros v Hv. destruct (tag_values_tagged _ _ _ _ _ Hf Hv) as (v' & ->%list_elem_of_singleton & Ht); [done|].
    apply (ix_mentions _ _ _ Hix _ Ht). by apply (wn_p _ Hwn).
  - intros ks vs Hks _ Hpr Hvs. destruct (tag_values_tagged _ _ _ _ _ Hf Hvs) as (v & Hv & Ht); [done|].
    exists v. split; [done|]. eapply ix_d; [done| |exact Ht]. destruct Hf as (Fk & _). apply Hpr. by apply Fk.
Qed.

(** ** The pushed query finds every row that is owed *)

Lemma historical_fields f ch community channels reader :
  let q := historical_query f ch community channels reader in
  let p := filter_to_query_params f (per_filter_channel f ch) community in
  q_channel_id q = q_channel_id p /\ q_kinds q = q_kinds p /\ q_pubkey q = q_pubkey p /\
  q_since q = q_since p /\ q_until q = q_until p /\ q_limit q = q_limit p /\
  q_offset q = q_offset p /\ q_p_tag_hex q = q_p_tag_hex p /\ q_d_tag q = q_d_tag p /\
  q_d_tags q = q_d_tags p /\ q_before_id q = q_before_id p /\ q_global_only q = q_global_only p /\
  q_authors q = q_authors p /\ q_ids q = q_ids p /\ q_e_tags q = q_e_tags p /\
  q_channel_ids q = match per_filter_channel f ch with None => Some channels | Some _ => q_channel_ids p end /\
  q_shared_gated_reader q =
    (if filter_can_match_shared_gated_kinds f then Some reader else q_shared_gated_reader p).
Proof.
  cbn zeta. unfold historical_query, apply_access_scope_to_query.
  change (match single_h_channel f with Some c => Some c | None => ch end)
    with (per_filter_channel f ch).
  generalize (filter_to_query_params f (per_filter_channel f ch) community). intros p.
  destruct (per_filter_channel f ch), (filter_can_match_shared_gated_kinds f); done.
Qed.

(** The two fields of [authors], and the two of [d]. *)
Lemma params_authors f ch community :
  let q := filter_to_query_params f ch community in
  forall pk, (forall ps, f_authors f = Some ps -> pk ∈ ps) ->
  clause (q_pubkey q) (fun p => bool_decide (pk = p)) = true /\
  clause (q_authors q) (in_list pk) = true.
Proof.
  cbn zeta. intros pk Hpk. unfold filter_to_query_params.
  destruct (if only_kinds _ f then _ else _) as [d_tag d_tags]. unfold in_list.
  destruct (f_authors f) as [[|a [|b l]]|]; simpl; split; try done;
    apply bool_decide_eq_true; [by apply list_elem_of_singleton, Hpk|by apply Hpk].
Qed.

Lemma params_d f ch community d :
  let q := filter_to_query_params f ch community in
  (only_kinds is_parameterized_replaceable f = true -> forall vs, tag_values f "d" = Some vs ->
     exists v, v ∈ vs /\ d = Some v) ->
  match q_d_tag q with
  | Some v => opt_eqb d (Some v)
  | None => match q_d_tags q with
            | Some (v :: vs) => match d with Some x => in_list x (v :: vs) | None => false end
            | _ => true
            end
  end = true.
Proof.
  cbn zeta. intros Hd. unfold filter_to_query_params.
  destruct (match f_authors f with Some [a] => _ | _ => _ end) as [pubkey authors].
  destruct (only_kinds _ f); [|done].
  destruct (tag_values f "d") as [[|v [|w l]]|] eqn:Hv; simpl; try done;
    destruct (Hd eq_refl _ eq_refl) as (v' & Hin & ->).
  - apply opt_eqb_true. f_equal. by apply list_elem_of_singleton.
  - by apply bool_decide_eq_true.
Qed.

Lemma params_rest f ch community :
  let q := filter_to_query_params f ch community in
  q_channel_id q = ch /\ q_kinds q = f_kinds f /\
  q_since q = (f_since f ≫= (fun s => from_timestamp (to_i64 s))) /\
  q_until q = (f_until f ≫= (fun s => from_timestamp (to_i64 s))) /\
  q_offset q = None /\
  q_p_tag_hex q = match tag_values f "p" with Some [v] => Some v | _ => None end /\
  q_before_id q = None /\ q_global_only q = false /\ q_ids q = nonempty (f_ids f) /\
  q_e_tags q = nonempty (tag_values f "e") /\ q_channel_ids q = None /\
  q_shared_gated_reader q = None /\ q_community_id q = community.
Proof.
  cbn zeta. unfold filter_to_query_params.
  destruct (match f_authors f with Some [a] => _ | _ => _ end) as [pubkey authors].
  destruct (if only_kinds _ f then _ else _) as [d_tag d_tags]. done.
Qed.

Lemma nonempty_Some {B : Type} (l : option (list B)) x : nonempty l = Some x -> l = Some x.
Proof. by destruct l as [[]|]. Qed.

Lemma from_timestamp_Some t t' : from_timestamp t = Some t' -> t' = t.
Proof. unfold from_timestamp. case_match; naive_solver. Qed.

Lemma clause_true {B : Type} (o : option B) p :
  (forall x, o = Some x -> p x = true) -> clause o p = true.
Proof. destruct o; naive_solver. Qed.

Lemma shared_tags_contain tags : shared_tags tags = [["shared"; "true"]] ->
  tags_contain "shared" "true" tags = true.
Proof.
  intros Hs. unfold tags_contain. apply existsb_elem_of. exists ["shared"; "true"].
  split; [|rewrite !bool_decide_eq_true_2; set_solver].
  assert (Hin : ["shared"; "true"] ∈ shared_tags tags) by (rewrite Hs; left).
  unfold shared_tags in Hin. by apply list_elem_of_filter in Hin as [_ Hin].
Qed.

Lemma row_stored_spec k r f : sound_row k r -> plain f ->
  filter_match_one f (row_stored k r) = true <-> filter_spec f (row_stored k r).
Proof.
  intros Hix Hpl. apply filter_match_one_true; [exact (sr_id _ _ Hix)|].
  intros ids Hids. by apply (pl_ids _ Hpl).
Qed.

Lemma shared_visible_readable k r reader :
  readable reader (row_event k r) -> shared_visible reader r = true.
Proof.
  intros (_ & Hs & _). unfold shared_visible. pose proof (mem_kind_true (er_kind r) SHARED_GATED_KINDS).
  destruct (mem_kind (er_kind r) SHARED_GATED_KINDS); simpl; [|done].
  destruct Hs as [Hp|Ht]; [by apply H0| |]; simpl in *.
  - by rewrite bool_decide_eq_true_2.
  - rewrite (shared_tags_contain _ Ht). apply orb_true_r.
Qed.

Lemma pushdown_complete db k r f filters community channels reader :
  sound_row k r -> plain f -> f ∈ filters -> found_by db filters f k r -> ek_community k = community -> live r = true ->
  filter_match_one f (row_stored k r) = true ->
  (forall ch, er_channel_id r = Some ch -> ch ∈ channels) ->
  readable reader (row_event k r) ->
  query_where (historical_query f (extract_channel_id_from_filters filters) community channels reader)
    db k r = true.
Proof.
  intros Hix Hpl Hin Hfound Hcomm Hlive Hf%(row_stored_spec _ _ _ Hix Hpl) Hch Hvis.
  destruct (historical_fields f (extract_channel_id_from_filters filters) community channels reader)
    as (Q1 & Q2 & Q3 & Q4 & Q5 & _ & _ & Q8 & Q9 & Q10 & Q11 & Q12 & Q13 & Q14 & Q15 & Q16 & Q17).
  destruct (params_rest f (per_filter_channel f (extract_channel_id_from_filters filters)) community)
    as (P1 & P2 & P3 & P4 & _ & P6 & P7 & P8 & P9 & P10 & P11 & P12 & _).
  pose proof Hf as (Fk & Fa & Fs & Fu & Fi & Ft). simpl in Fk, Fa, Fs, Fu, Fi.
  unfold query_where, where_common. rewrite historical_query_community.
  rewrite Q1, Q2, Q3, Q4, Q5, Q8, Q9, Q10, Q11, Q12, Q13, Q14, Q15, Q16, Q17.
  destruct (params_authors f (per_filter_channel f (extract_channel_id_from_filters filters))
              community (er_pubkey r) Fa) as [-> ->].
  rewrite params_d.
  2: { intros (ks & Hks & Hne & Hpr)%only_kinds_true vs Hvs. by apply (fb_d _ _ _ _ _ Hfound ks). }
  rewrite P1, P2, P3, P4, P6, P7, P8, P9, P10, P11, P12, Hlive.
  rewrite !andb_true_iff. split_and!; try done.
  - by apply bool_decide_eq_true.
  - apply clause_true. intros v Hv. destruct (tag_values f "p") as [[|v' []]|] eqn:Hp; try done.
    injection Hv as ->. apply bool_decide_eq_true. rewrite <-Hcomm. by apply Hfound.
  - destruct (per_filter_channel f _) as [ch|] eqn:Hc; [|done]. apply opt_eqb_true.
    by apply Hfound, (pushed_channel_spec f filters ch Hin).
  - destruct (per_filter_channel f _) as [ch|] eqn:Hc; simpl; [done|].
    destruct (er_channel_id r) as [ch|] eqn:Hr; [|done]. apply bool_decide_eq_true. by apply Hch.
  - apply clause_true. intros ks Hks. apply bool_decide_eq_true. by apply Fk.
  - apply clause_true. intros ids Hids%nonempty_Some. apply bool_decide_eq_true. by apply Fi.
  - apply clause_true. intros vs Hvs%nonempty_Some.
    destruct (tag_values_tagged _ _ _ _ _ Hf Hvs) as (v & Hv & Ht); [done|].
    apply existsb_elem_of. exists v. split; [done|]. by apply (tagged_contains (row_event k r)).
  - apply clause_true. intros s Hs. apply bind_Some in Hs as (s0 & Hs0 & ->%from_timestamp_Some).
    apply Z.leb_le. specialize (Fs _ Hs0). unfold to_i64. destruct (Z.ltb_spec s0 (2 ^ 63)); lia.
  - apply clause_true. intros s Hs. apply bind_Some in Hs as (s0 & Hs0 & ->%from_timestamp_Some).
    apply Z.leb_le. specialize (Fu _ Hs0). pose proof (pl_until _ Hpl _ Hs0).
    unfold to_i64. destruct (Z.ltb_spec s0 (2 ^ 63)); lia.
  - destruct (filter_can_match_shared_gated_kinds f); [|done]. simpl.
    by eapply shared_visible_readable.
Qed.

(** And it returns no other rows of the filter. *)
Lemma pushdown_found db k r f filters community channels reader :
  f ∈ filters -> filter_spec f (row_stored k r) -> ek_community k = community ->
  query_where (historical_query f (extract_channel_id_from_filters filters) community channels reader)
    db k r = true ->
  found_by db filters f k r.
Proof.
  intros Hin Hf Hcomm. set (chan := extract_channel_id_from_filters filters).
  destruct (historical_fields f chan community channels reader)
    as (Q1 & _ & _ & _ & _ & _ & _ & Q8 & Q9 & Q10 & _).
  destruct (params_rest f (per_filter_channel f chan) community) as (P1 & _ & _ & _ & _ & P6 & _).
  unfold query_where, where_common. rewrite historical_query_community, Q1, Q8, Q9, Q10, P1, P6.
  rewrite !andb_true_iff. intros Hw. decompose [and] Hw. clear Hw. split.
  - intros ch Hc%(pushed_channel_spec f filters ch Hin). fold chan in Hc. rewrite Hc in *. by apply opt_eqb_true.
  - intros v Hv. rewrite Hv in *. cbn [clause] in *. rewrite Hcomm. by eapply bool_decide_eq_true_1.
  - intros ks vs Hks Hne Hpr Hvs. destruct Hf as (_ & _ & _ & _ & _ & Ft).
    assert (Honly : only_kinds is_parameterized_replaceable f = true) by (apply only_kinds_true; by exists ks).
    assert (Hd : exists v, v ∈ vs).
    { unfold tag_values in Hvs. destruct (Ft _ _ Hvs) as (v & Hv & _). by exists v. }
    unfold filter_to_query_params in *. rewrite Honly, Hvs in *.
    destruct (match f_authors f with Some [a] => _ | _ => _ end) as [pubkey authors].
    destruct vs as [|v [|w l]]; simpl in *; [by destruct Hd as (v & ?%elem_of_nil)|..].
    + exists v. split; [left|]. by apply opt_eqb_true.
    + destruct (er_d_tag r) as [x|]; [|done]. exists x. split; [|done]. by eapply bool_decide_eq_true_1.
Qed.

(** ** Running a request against one snapshot *)

Definition say (l : list RelayMessage) (w : ReqWorld) : ReqWorld :=
  mkReqWorld (rw_subscriptions w) (rw_registry w) (rw_topics w) (rw_sent w ++ l).

Lemma say_nil w : say [] w = w.
Proof. destruct w. unfold say. simpl. by rewrite app_nil_r. Qed.
Lemma say_app l1 l2 w : say l2 (say l1 w) = say (l1 ++ l2) w.
Proof. unfold say. simpl. by rewrite app_assoc. Qed.

Lemma rows_to_events_all rows :
  Forall (fun '(k, r) => 0 <= er_kind r <= 65535 /\
            event_from_value (row_event k r) = Some (row_event k r)) rows ->
  rows_to_events rows = Ok ((fun '(k, r) => row_stored k r) <$> rows).
Proof.
  induction 1 as [|[k r] rows [Hk He] _ IH]; [done|]. cbn [rows_to_events].
  unfold row_to_stored_event. rewrite (proj2 (Z.leb_le 0 _)), (proj2 (Z.leb_le _ 65535)) by lia.
  rewrite He. cbn [negb andb fmap option_fmap option_map res_bind]. by rewrite IH.
Qed.

Section one_request.
Context (cdb : ChanDb) (db : Db) (sub_id : SubId) (conn : ConnectionState) (filters : list Filter)
        (ctx : AuthContext).
Let env : ReadEnv := snapshot cdb db.
Let community : Uuid := conn_tenant conn.
Let reader : Bytes := ac_pubkey ctx.

Definition channels_now : list Uuid :=
  retain_allowed (ac_channel_ids ctx) (get_accessible_channel_ids community reader cdb).
Definition query_of (f : Filter) : EventQuery :=
  historical_query f (extract_channel_id_from_filters filters) community channels_now reader.
Definition candidates (f : Filter) : list (EventKey * EventRow) :=
  select_ordered (query_where (query_of f) db) (db_events db).

(** The rows of the community are sound and their ids unique. *)
Definition consistent : Prop :=
  (forall k r, db_events db !! k = Some r -> ek_community k = community -> live r = true ->
     sound_row k r) /\
  (forall (k k' : EventKey) r r', db_events db !! k = Some r -> db_events db !! k' = Some r' ->
     ek_community k = ek_community k' -> ek_id k = ek_id k' -> k = k').

(** A filter the page limit does not cut short. *)
Definition within_page (f : Filter) : Prop :=
  Z.of_nat (length (candidates f)) <= limit_val (query_of f).

Lemma deliver_run channels f events seen w :
  exists l, deliver env sub_id f channels reader events seen w =
              (say (MsgEvent sub_id <$> l) w, Ok (reverse (ev_id <$> l) ++ seen)) /\
    NoDup (ev_id <$> l) /\ (forall e, e ∈ l -> ev_id e ∉ seen) /\
    (forall e, e ∈ l -> exists st, st ∈ events /\ accepted f channels reader st = true /\ se_event st = e) /\
    (forall st, st ∈ events -> accepted f channels reader st = true ->
       ev_id (se_event st) ∈ (ev_id <$> l) ++ seen).
Proof.
  revert seen w. induction events as [|st events IH]; intros seen w.
  { exists []. rewrite say_nil. split_and!; [done|constructor|..];
      intros ? Hx; by apply elem_of_nil in Hx. }
  cbn [deliver].
  destruct (accepted f channels reader st) eqn:Hacc; cbn [andb].
  - destruct (bool_decide_reflect (ev_id (se_event st) ∈ seen)) as [Hs|Hs]; cbn [negb].
    + destruct (IH seen w) as (l & -> & Hnd & Hfr & Hsound & Hcomp). exists l.
      split_and!; [done..| |].
      * intros e He. destruct (Hsound e He) as (st' & Hin & ?). exists st'. split; [by right|done].
      * intros st' [->|Hin]%elem_of_cons Ha; [apply elem_of_app; by right|by apply Hcomp].
    + unfold m_bind at 1. cbn [send env snapshot re_send]. fold (say [MsgEvent sub_id (se_event st)] w).
      destruct (IH (ev_id (se_event st) :: seen) (say [MsgEvent sub_id (se_event st)] w))
        as (l & -> & Hnd & Hfr & Hsound & Hcomp).
      exists (se_event st :: l). rewrite say_app. cbn [fmap list_fmap].
      split_and!.
      * f_equal. f_equal. by rewrite reverse_cons, <-app_assoc.
      * constructor; [|done]. intros (e & Heq & He)%list_elem_of_fmap.
        apply (Hfr e He). rewrite Heq. left.
      * intros e [->|He]%elem_of_cons; [done|]. intros Hin. apply (Hfr e He). by right.
      * intros e [->|He]%elem_of_cons; [exists st; split; [left|done]|].
        destruct (Hsound e He) as (st' & Hin & ?). exists st'. split; [by right|done].
      * intros st' [->|Hin]%elem_of_cons Ha; [left|]. specialize (Hcomp st' Hin Ha).
        rewrite elem_of_app, elem_of_cons in Hcomp. rewrite elem_of_app, elem_of_cons. tauto.
  - destruct (IH seen w) as (l & -> & Hnd & Hfr & Hsound & Hcomp). exists l.
    split_and!; [done..| |].
    + intros e He. destruct (Hsound e He) as (st' & Hin & ?). exists st'. split; [by right|done].
    + intros st' [->|Hin]%elem_of_cons Ha; [congruence|by apply Hcomp].
Qed.

Lemma history_run chan channels fs i seen w :
  (forall f, f ∈ fs -> exists evs,
     query_events (historical_query f chan community channels reader) db = Ok evs) ->
  exists l, history env sub_id chan community channels reader i fs seen w =
              (say (MsgEvent sub_id <$> l) w, Ok tt) /\
    NoDup (ev_id <$> l) /\ (forall e, e ∈ l -> ev_id e ∉ seen) /\
    (forall e, e ∈ l -> exists f evs st, f ∈ fs /\
       query_events (historical_query f chan community channels reader) db = Ok evs /\
       st ∈ evs /\ accepted f channels reader st = true /\ se_event st = e) /\
    (forall f evs st, f ∈ fs ->
       query_events (historical_query f chan community channels reader) db = Ok evs ->
       st ∈ evs -> accepted f channels reader st = true ->
       ev_id (se_event st) ∈ (ev_id <$> l) ++ seen).
Proof.
  revert i seen w. induction fs as [|f fs IH]; intros i seen w Hq.
  { exists []. rewrite say_nil. split_and!; [done|constructor|..].
    1,2: intros ? Hx; by apply elem_of_nil in Hx.
    intros f evs st Hx. by apply elem_of_nil in Hx. }
  cbn [history]. destruct (Hq f) as [evs Hevs]; [left|].
  unfold query_events_routed, read_state. cbn [re_query env snapshot]. rewrite Hevs.
  destruct (deliver_run channels f evs seen w) as (l & Hd & Hnd & Hfr & Hsound & Hcomp).
  unfold m_bind. rewrite Hd. cbn iota beta.
  destruct (IH (i + 1)%nat (reverse (ev_id <$> l) ++ seen) (say (MsgEvent sub_id <$> l) w))
    as (l' & -> & Hnd' & Hfr' & Hsound' & Hcomp').
  { intros f' Hf'. apply Hq. by right. }
  exists (l ++ l'). rewrite say_app, !fmap_app. split_and!; [done|..].
  - apply NoDup_app. split_and!; [done| |done]. intros x Hx (e & -> & He)%list_elem_of_fmap.
    apply (Hfr' e He). apply elem_of_app. left. by apply elem_of_reverse.
  - intros e [He|He]%elem_of_app; [by apply Hfr|]. intros Hs. apply (Hfr' e He).
    apply elem_of_app. by right.
  - intros e [He|He]%elem_of_app.
    + destruct (Hsound e He) as (st & ? & ? & ?). exists f, evs, st. split_and!; [left|done..].
    + destruct (Hsound' e He) as (f' & evs' & st & Hf' & ?). exists f', evs', st.
      split; [by right|done].
  - intros f' evs' st [->|Hf']%elem_of_cons Hq' Hst Ha.
    + rewrite Hevs in Hq'. injection Hq' as <-. specialize (Hcomp st Hst Ha).
      rewrite !elem_of_app in *. tauto.
    + specialize (Hcomp' f' evs' st Hf' Hq' Hst Ha). rewrite !elem_of_app, elem_of_reverse in *. tauto.
Qed.

Lemma matches_nothing_where q k r :
  matches_nothing q = true -> query_where q db k r = false.
Proof.
  unfold matches_nothing. rewrite !orb_true_iff. intros Hm. apply not_true_iff_false.
  unfold query_where, where_common. rewrite !andb_true_iff. intros Hw.
  assert (Hno : forall B (D : EqDecision B) (x : B) l, some_empty l = true ->
                  clause l (in_list x) = true -> False).
  { intros B D x [[]|] He; done. }
  decompose [and] Hw. destruct Hm as [[[Hm|Hm]|Hm]|Hm]; [by eapply Hno..|].
  destruct (q_e_tags q) as [[]|]; done.
Qed.

Lemma query_of_params f : exists c, q_offset (query_of f) = None /\ q_before_id (query_of f) = None /\
  q_global_only (query_of f) = false /\
  q_limit (query_of f) = q_limit (filter_to_query_params f c community).
Proof.
  exists (per_filter_channel f (extract_channel_id_from_filters filters)).
  destruct (historical_fields f (extract_channel_id_from_filters filters) community channels_now reader)
    as (_ & _ & _ & _ & _ & Q6 & Q7 & _ & _ & _ & Q11 & Q12 & _).
  destruct (params_rest f (per_filter_channel f (extract_channel_id_from_filters filters)) community)
    as (_ & _ & _ & _ & P5 & _ & P7 & P8 & _).
  unfold query_of. by rewrite Q6, Q7, Q11, Q12, P5, P7, P8.
Qed.

Lemma limit_val_nonneg f : plain f -> 0 <= limit_val (query_of f).
Proof.
  intros Hpl. destruct (query_of_params f) as (c & _ & _ & _ & Hl). unfold limit_val. rewrite Hl.
  assert (Hmax : 0 <= default DEFAULT_MAX_PAGE_LIMIT (q_max_limit (query_of f))).
  { unfold query_of, historical_query, apply_access_scope_to_query, filter_to_query_params.
    destruct (match f_authors f with Some [a] => _ | _ => _ end), (if only_kinds _ f then _ else _).
    by destruct (match single_h_channel f with Some _ => _ | None => _ end),
      (filter_can_match_shared_gated_kinds f). }
  assert (Hlim : exists n, q_limit (filter_to_query_params f c community) = Some n /\ 0 <= n).
  { unfold filter_to_query_params.
    destruct (match f_authors f with Some [a] => _ | _ => _ end), (if only_kinds _ f then _ else _).
    eexists. split; [reflexivity|]. unfold DEFAULT_MAX_PAGE_LIMIT.
    destruct (f_limit f) as [l|] eqn:Hf; [|lia]. pose proof (pl_limit _ Hpl _ Hf).
    unfold to_i64. destruct (Z.ltb_spec l (2 ^ 63)); lia. }
  destruct Hlim as (n & -> & Hn). simpl default. lia.
Qed.

(** A query the page limit does not cut short returns exactly the rows of its [WHERE]. *)
Lemma query_of_exact f : consistent -> plain f -> within_page f ->
  query_events (query_of f) db = Ok ((fun '(k, r) => row_stored k r) <$> candidates f).
Proof.
  intros [Hcons _] Hpl Hpage. destruct (query_of_params f) as (c & Ho & Hb & Hg & _).
  unfold query_events. rewrite Hb, Hg. cbn [is_Some_dec andb].
  rewrite (bool_decide_eq_false_2 (is_Some None)) by (by intros [? ?]). cbn [andb].
  destruct (matches_nothing _) eqn:Hm.
  - assert (Hnil : candidates f = []).
    { destruct (candidates f) as [|[k r] l] eqn:Hc; [done|].
      assert (Hin : (k, r) ∈ candidates f) by (rewrite Hc; left).
      apply elem_of_select_ordered in Hin as [_ Hw]. by rewrite matches_nothing_where in Hw. }
    by rewrite Hnil.
  - pose proof (limit_val_nonneg f Hpl) as Hl. unfold offset_val. rewrite Ho. cbn [default].
    rewrite (proj2 (Z.ltb_ge _ _) Hl). cbn [orb Z.ltb Z.compare].
    change (drop (Z.to_nat 0) ?l) with l. fold (candidates f).
    rewrite take_ge by (unfold within_page in Hpage; lia). apply rows_to_events_all.
    apply Forall_forall. intros [k r] Hin. apply elem_of_select_ordered in Hin as [Hk Hw].
    apply query_where_stored in Hw as [Hc Hlive]. unfold query_of in Hc.
    rewrite historical_query_community in Hc. pose proof (Hcons k r Hk Hc Hlive) as Hix.
    split; [exact (sr_kind _ _ Hix)|exact (sr_readable _ _ Hix)].
Qed.

(** ** What a request is owed *)

(** The event of a live row of the community that matches a filter and is found by it, lies where
    the reader may read, and passes the event-level gates. *)
Definition owed (e : Event) : Prop :=
  exists k r, db_events db !! k = Some r /\ ek_community k = community /\ live r = true /\
    e = row_event k r /\
    (exists f, f ∈ filters /\ filter_spec f (row_stored k r) /\
               found_by db filters f k r) /\
    (forall ch, er_channel_id r = Some ch -> may_read env community ctx ch) /\
    readable reader e.

Lemma channels_now_spec ch : ch ∈ channels_now <-> may_read env community ctx ch.
Proof.
  unfold channels_now, may_read. split.
  - intros [Hch Htok]%token_allows_retain. split; [done|].
    apply accessible_may_read in Hch as (c & Hc & Hv). exists cdb, c. split_and!; [by left|done..].
  - intros [Htok (members & c & Hm & Hc & Hv)].
    assert (Heq : members = cdb) by (cbn [env snapshot re_cached re_confirm] in Hm; destruct Hm; congruence).
    subst members. unfold retain_allowed.
    assert (Hin : ch ∈ get_accessible_channel_ids community reader cdb).
    { unfold get_accessible_channel_ids. apply list_elem_of_fmap. exists ((community, ch), c).
      split; [done|]. apply list_elem_of_In, filter_In.
      unfold live_channel in Hc. apply bind_Some in Hc as (c' & Hl & Hc).
      destruct (bool_decide (ch_deleted_at c' = None)) eqn:Hdel; [|done]. injection Hc as ->.
      split; [by apply list_elem_of_In, elem_of_hash_iter|].
      cbn [fst snd]. unfold accessible. rewrite bool_decide_eq_true_2 by done. cbn [andb].
      rewrite Hdel. cbn [andb]. apply orb_true_iff.
      destruct Hv as [Hv|Hv]; [left|right]; by apply bool_decide_eq_true. }
    unfold token_allows in Htok. destruct (ac_channel_ids ctx); [|done].
    apply list_elem_of_In, filter_In. split; [by apply list_elem_of_In|done].
Qed.

(** The request is not refused as a whole. *)
Definition granted : Prop :=
  match extract_channel_id_from_filters filters with
  | Some ch => may_read env community ctx ch
  | None => p_gated_filters_authorized filters (to_hex reader) = true /\
            engram_filters_authorized filters (to_hex reader) = true /\
            author_only_filters_authorized filters (to_hex reader) = true
  end.

(** A plain history request: no search, not only membership lists. *)
Definition plain_request : Prop :=
  filters_are_nip43_membership_only filters = false /\
  Forall (fun f => f_search f = None) filters /\ Forall plain filters /\ Forall within_page filters.

Lemma bind_run {B C : Type} (m : method ReqWorld unit B) (k : B -> method ReqWorld unit C) w w' b :
  m w = (w', Ok b) -> m_bind m k w = k b w'.
Proof. unfold m_bind. by intros ->. Qed.

Lemma authenticate_run w : admitted conn ctx ->
  rw_subscriptions w !! sub_id <> None \/ (size (rw_subscriptions w) < MAX_SUBSCRIPTIONS)%nat ->
  authenticate env sub_id conn w = (w, Ok ctx).
Proof.
  intros [Hauth Hsc] Hroom. unfold authenticate. rewrite Hauth.
  assert (Hs : negb (bool_decide (ac_scopes ctx = []))
               && negb (bool_decide (MessagesRead ∈ ac_scopes ctx)) = false).
  { destruct Hsc as [Hs|Hs]; rewrite (bool_decide_eq_true_2 _ Hs); [done|apply andb_false_r]. }
  rewrite Hs. unfold m_bind, m_get.
  assert (Hr : bool_decide (rw_subscriptions w !! sub_id = None)
               && Nat.leb MAX_SUBSCRIPTIONS (size (rw_subscriptions w)) = false).
  { destruct Hroom as [Hr|Hr]; [by rewrite bool_decide_eq_false_2|].
    rewrite (proj2 (Nat.leb_gt _ _) Hr). apply andb_false_r. }
  by rewrite Hr.
Qed.

Lemma confirm_channel_run ch w : may_read env community ctx ch ->
  confirm_channel env sub_id community ctx channels_now ch true w = (w, Ok (channels_now, true)).
Proof.
  intros Hr. pose proof Hr as [Htok _]. apply channels_now_spec in Hr. unfold confirm_channel.
  rewrite (bool_decide_eq_true_2 _ Hr), orb_true_r. unfold m_bind, m_ret.
  unfold resolve_request_local_access. rewrite Htok. cbn [negb].
  by rewrite (bool_decide_eq_true_2 _ Hr).
Qed.

Lemma request_accepted w : granted ->
  match extract_channel_id_from_filters filters with
  | Some ch_id =>
      do? (repaired, allowed) <- confirm_channel env sub_id community ctx channels_now ch_id true ;;
      if allowed : bool then m_ret repaired
      else send_and_return env (MsgClosed sub_id "restricted: not a channel member")
  | None =>
      do? _ <- check_gates env sub_id filters (to_hex reader)
                "restricted: p-gated events require #p matching your pubkey" ;;
      m_ret channels_now
  end w = (w, Ok channels_now).
Proof.
  unfold granted. destruct (extract_channel_id_from_filters filters) as [ch|].
  - intros Hr. unfold m_bind at 1. by rewrite confirm_channel_run.
  - intros (Hp & He & Ha). unfold check_gates, m_bind at 1. by rewrite Hp, He, Ha.
Qed.

Lemma no_search : Forall (fun f => f_search f = None) filters ->
  existsb (fun f => bool_decide (is_Some (f_search f))) filters = false.
Proof.
  intros Hns. apply not_true_iff_false. intros (f & Hf & Hb)%existsb_elem_of.
  rewrite Forall_forall in Hns. apply bool_decide_eq_true in Hb. rewrite (Hns f Hf) in Hb. by destruct Hb.
Qed.

Lemma accepted_spec k r f : consistent -> db_events db !! k = Some r -> ek_community k = community ->
  live r = true -> plain f ->
  accepted f channels_now reader (row_stored k r) = true <->
  filter_spec f (row_stored k r) /\
  (forall ch, er_channel_id r = Some ch -> may_read env community ctx ch) /\
  readable reader (row_event k r).
Proof.
  intros [Hcons _] Hk Hc Hl Hpl. unfold accepted. rewrite !andb_true_iff.
  rewrite <-(row_stored_spec _ _ _ (Hcons k r Hk Hc Hl) Hpl).
  unfold filters_match. cbn [existsb]. rewrite orb_false_r.
  rewrite visible_readable. cbn [se_channel_id se_event row_stored].
  assert (Hch : match er_channel_id r with
                | Some ch_id => bool_decide (ch_id ∈ channels_now) | None => true end = true <->
                (forall ch, er_channel_id r = Some ch -> may_read env community ctx ch)).
  { destruct (er_channel_id r) as [ch|]; [|done]. rewrite bool_decide_eq_true, channels_now_spec.
    split; [by intros ? ? [= <-]|by intros Hx; apply Hx]. }
  rewrite Hch. tauto.
Qed.

End one_request.
End exact.

(** * A concrete request *)

Module ExactExample.
#[local] Existing Instance map_to_list_iter.
#[local] Existing Instances StoreReference.deps StoreReference.laws UuidReference.parse
  UuidReference.laws.
#[export] Instance tag_laws : TagLaws Reference.api.
Proof. by split. Qed.
Import ReadExample.

Lemma admitted_mallory : admitted conn mallory_ctx.
Proof. split; [reflexivity|]. right. left. Qed.
Lemma room : rw_subscriptions world !! "s" <> None
             \/ (size (rw_subscriptions world) < MAX_SUBSCRIPTIONS)%nat.
Proof. right. vm_compute. lia. Qed.
Lemma plain_messages :
  plain_request (A := Reference.api) cdb db conn [all_messages] mallory_ctx.
Proof.
  split_and!; [reflexivity|by repeat constructor| |]; (constructor; [|constructor]).
  - split; cbn; try done; intros ? [= <-]; lia.
  - unfold within_page. apply Z.leb_le. vm_compute. reflexivity.
Qed.
Lemma granted_messages : granted (A := Reference.api) cdb db conn [all_messages] mallory_ctx.
Proof.
  assert (Hx : extract_channel_id_from_filters (A := Reference.api) [all_messages] = None)
    by (vm_compute; reflexivity).
  unfold granted. rewrite Hx. split_and!; vm_compute; reflexivity.
Qed.

Lemma row_of k r : db_events db !! k = Some r -> (k, r) = (k1, r1) \/ (k, r) = (k2, r2).
Proof.
  unfold db. cbn [db_events].
  destruct (decide (k = k1)) as [->|H1]; [rewrite lookup_insert_eq; intros [= <-]; auto|].
  rewrite lookup_insert_ne by auto.
  destruct (decide (k = k2)) as [->|H2]; [rewrite lookup_singleton_eq; intros [= <-]; auto|].
  by rewrite lookup_singleton_ne by auto.
Qed.
Lemma consistent_messages : consistent db conn.
Proof.
  split.
  - intros k r Hk _ _. destruct (row_of k r Hk) as [[= -> ->]|[= -> ->]].
    all: split; [reflexivity|split; vm_compute; done|reflexivity].
  - intros k k' r r' H1 H2 _ Hid.
    destruct (row_of k r H1) as [[= -> ->]|[= -> ->]], (row_of k' r' H2) as [[= -> ->]|[= -> ->]];
      done.
Qed.

End ExactExample.

