(* ===== verification/Delivery.v ===== *)
(** Live delivery: from an event to the frames of this relay's connections
    ([crates/buzz-relay/src/handlers/event.rs], the connection table and the caches of
    [.../state.rs]).

    The subscription registry proposes recipients ([Subscription]); every path then passes
    them through [filter_fanout_by_access], which looks up each connection's community and
    key and the channel's visibility and members again.  Each lookup reads a state of its own:
    a read of the connection table, of the membership tables or of the socket buffers is a
    field of [DeliveryEnv].  The caches are state, and expire between calls. *)
From S2P Require Import Prelude Nostr Kinds Filters Subscription EventStore Channel Membership ReadPath.
Local Open Scope string_scope.
Local Open Scope list_scope.
Local Open Scope Z_scope.
Local Open Scope buzz_scope.

(** * State *)

(** The part of [ConnEntry] that routing reads. *)
Record ConnEntry := mkConnEntry {
  ce_community_id : Uuid;
  ce_authenticated_pubkey : option Bytes
}.
Definition ConnectionManager : Type := gmap ConnId ConnEntry.
Definition community_for_conn (conn_id : ConnId) (m : ConnectionManager) : option Uuid :=
  ce_community_id <$> m !! conn_id.
Definition pubkey_for_conn (conn_id : ConnId) (m : ConnectionManager) : option Bytes :=
  m !! conn_id ≫= ce_authenticated_pubkey.

Definition VisibilityKey : Type := Uuid * Uuid.
Definition LocalKey : Type := Uuid * Bytes.
#[export] Instance LocalKey_eq_dec : EqDecision LocalKey := prod_eq_dec.
#[export] Instance LocalKey_countable : Countable LocalKey := prod_countable.

(** What a delivery leaves behind. *)
Inductive Effect :=
| Published (community_id : Uuid) (topic : EventTopic) (event : Event)
| Frame (conn_id : ConnId) (sub_id : SubId) (event : Event)
| AuditEventCreated (community_id : Uuid) (event : StoredEvent) (kind : Z) (actor : string)
| WorkflowEvent (community_id : Uuid) (event : StoredEvent).

(** The fields of [AppState] that delivery changes, and its effects. *)
Record Delivery := mkDelivery {
  membership_cache : gmap MemberKey bool;
  channel_visibility_cache : gmap ChannelKey ChannelVisibility.t;
  local_event_ids : gset LocalKey;
  effects : list Effect
}.
Definition set_membership_cache (m : gmap MemberKey bool) (s : Delivery) : Delivery :=
  mkDelivery m (channel_visibility_cache s) (local_event_ids s) (effects s).
Definition set_visibility_cache (m : gmap ChannelKey ChannelVisibility.t) (s : Delivery) : Delivery :=
  mkDelivery (membership_cache s) m (local_event_ids s) (effects s).
Definition set_local (l : gset LocalKey) (s : Delivery) : Delivery :=
  mkDelivery (membership_cache s) (channel_visibility_cache s) l (effects s).
Definition emit (e : Effect) (s : Delivery) : Delivery :=
  mkDelivery (membership_cache s) (channel_visibility_cache s) (local_event_ids s)
    (effects s ++ [e]).

(** What one delivery reads: the connection table at each of its passes, the membership tables
    at each lookup ([None]: the read fails), whether Redis takes the event and whether a
    connection's buffer takes the next frame. *)
Record DeliveryEnv := mkDeliveryEnv {
  de_conns : nat -> ConnectionManager;
  de_visibility : option ChanDb;
  de_member : Candidate -> option ChanDb;
  de_publishes : bool;
  de_takes : ConnId -> nat -> bool
}.

(** [ThreadedChannelVisibility] *)
Record ThreadedChannelVisibility := mkThreaded {
  tv_community_id : Uuid;
  tv_channel_id : Uuid;
  tv_visibility : ChannelVisibility.t
}.

Definition with_db {D B : Type} (seen : option D) (f : D -> result B DbError)
  : result B DbError :=
  match seen with Some d => f d | None => Err Sqlx end.

(** * Caches *)

Definition is_member_cached (seen : option ChanDb) (community channel_id : Uuid) (pubkey : Bytes)
  : method Delivery DbError bool :=
  fun s =>
    let key : MemberKey := ((community, channel_id) : ChannelKey, pubkey) in
    match membership_cache s !! key with
    | Some cached => (s, Ok cached)
    | None =>
        match with_db seen (fun db => Ok (is_member community channel_id pubkey db)) with
        | Ok r => (set_membership_cache (<[key := r]> (membership_cache s)) s, Ok r)
        | Err e => (s, Err e)
        end
    end.

(** Only [private] is kept. *)
Definition channel_visibility_cached (seen : option ChanDb) (community channel_id : Uuid)
    (prefetched : option ChannelRow) : method Delivery DbError ChannelVisibility.t :=
  fun s =>
    let key : ChannelKey := (community, channel_id) in
    match channel_visibility_cache s !! key with
    | Some cached => (s, Ok cached)
    | None =>
        match (match prefetched with
               | Some row => Ok (ch_visibility row)
               | None => with_db seen (fun db => let? c := get_channel community channel_id db in
                                                 Ok (ch_visibility c))
               end) with
        | Ok v =>
            (if bool_decide (v = ChannelVisibility.Private)
             then set_visibility_cache (<[key := v]> (channel_visibility_cache s)) s else s, Ok v)
        | Err e => (s, Err e)
        end
    end.

Definition mark_local_event (community : Uuid) (event_id : Bytes) : method Delivery DbError unit :=
  m_modify (fun s => set_local ({[((community, event_id) : LocalKey)]} ∪ local_event_ids s) s).
Definition forget_local_event (community : Uuid) (event_id : Bytes) : method Delivery DbError unit :=
  m_modify (fun s => set_local (local_event_ids s ∖ {[((community, event_id) : LocalKey)]}) s).

Section delivery.
Context `{A : NostrApi} `{H : HashIter}.
Context (env : DeliveryEnv).

(** * The access gate *)

Definition conn_pubkey (phase : nat) (c : Candidate) : option Bytes :=
  pubkey_for_conn c.1 (de_conns env phase).

Definition in_community (community : Uuid) (c : Candidate) : bool :=
  bool_decide (community_for_conn c.1 (de_conns env 0) = Some community).
Definition author_only_recipient (event : Event) (c : Candidate) : bool :=
  match conn_pubkey 1 c with
  | Some pk => bool_decide (pk = ev_pubkey event)
  | None => false
  end.
Definition shared_recipient (event : Event) (c : Candidate) : bool :=
  match conn_pubkey 2 c with
  | None => false
  | Some pk => if bool_decide (pk = ev_pubkey event) then true
               else negb (is_unshared_gated_event event pk)
  end.

(** One recipient of a private channel; a failed lookup drops it. *)
Definition keep_member (community channel_id : Uuid) (c : Candidate) : method Delivery DbError bool :=
  fun s =>
    match conn_pubkey 3 c with
    | None => (s, Ok false)
    | Some pubkey =>
        let '(s', r) := is_member_cached (de_member env c) community channel_id pubkey s in
        (s', Ok (match r with Ok b => b | Err _ => false end))
    end.
Fixpoint members_only (community channel_id : Uuid) (matches : list Candidate)
  : method Delivery DbError (list Candidate) :=
  match matches with
  | [] => m_ret []
  | c :: matches' =>
      do? keep <- keep_member community channel_id c ;;
      do? rest <- members_only community channel_id matches' ;;
      m_ret (if keep : bool then c :: rest else rest)
  end.

Definition filter_fanout_by_access (community : Uuid) (stored : StoredEvent)
    (matches : list Candidate) (threaded : option ThreadedChannelVisibility)
  : method Delivery DbError (list Candidate) :=
  let event := se_event stored in
  let matches := List.filter (in_community community) matches in
  let matches :=
    if mem_kind (event_kind_u32 event) AUTHOR_ONLY_KINDS
    then List.filter (author_only_recipient event) matches else matches in
  let matches :=
    if is_shared_gated_kind (event_kind_u32 event)
    then List.filter (shared_recipient event) matches else matches in
  match se_channel_id stored with
  | None => m_ret matches
  | Some channel_id =>
      fun s =>
        match (match threaded with
               | Some t =>
                   if bool_decide (tv_community_id t = community)
                      && bool_decide (tv_channel_id t = channel_id)
                   then (s, Ok (tv_visibility t))
                   else channel_visibility_cached (de_visibility env) community channel_id None s
               | None => channel_visibility_cached (de_visibility env) community channel_id None s
               end) with
        | (s', Ok v) =>
            if negb (bool_decide (v = ChannelVisibility.Private)) then (s', Ok matches)
            else members_only community channel_id matches s'
        | (s', Err _) => (s', Ok [])
        end
  end.

(** * Frames *)

(** [send_to_text_bytes] *)
Definition send_to_text_bytes (event : Event) (c : Candidate) : method Delivery DbError bool :=
  fun s =>
    let taken := bool_decide (is_Some (de_conns env 4 !! c.1))
                 && de_takes env c.1 (length (effects s)) in
    (if taken then emit (Frame c.1 c.2 event) s else s, Ok taken).
(** [send_fanout_frames]: a frame that the buffer refuses is counted and lost. *)
Fixpoint send_fanout_frames (event : Event) (recipients : list Candidate)
  : method Delivery DbError Z :=
  match recipients with
  | [] => m_ret 0
  | c :: recipients' =>
      do? taken <- send_to_text_bytes event c ;;
      do? drop_count <- send_fanout_frames event recipients' ;;
      m_ret (if taken : bool then drop_count else drop_count + 1)
  end.

Definition fan_out_event_to_local_subscribers (registry : SubscriptionRegistry)
    (community : Uuid) (stored : StoredEvent) : method Delivery DbError unit :=
  let matches := fan_out_scoped community stored registry in
  do? matches <- filter_fanout_by_access community stored matches None ;;
  if bool_decide (matches = []) then m_ret tt
  else do? _ <- send_fanout_frames (se_event stored) matches ;; m_ret tt.

(** [fan_out_pubsub_event]; [now] is the time of the wrapper. *)
Definition fan_out_pubsub_event (registry : SubscriptionRegistry) (now : Z) (community : Uuid)
    (topic : EventTopic) (event : Event) : method Delivery DbError unit :=
  let channel_id := match topic with TopicChannel id => Some id | TopicGlobal => None end in
  let stored := StoredEvent_new now event channel_id in
  do? s <- m_get ;;
  if bool_decide (((community, ev_id event) : LocalKey) ∈ local_event_ids s)
  then forget_local_event community (ev_id event)
  else
    let matches := fan_out_scoped community stored registry in
    do? matches <- filter_fanout_by_access community stored matches None ;;
    if bool_decide (matches = []) then m_ret tt
    else do? _ <- send_fanout_frames event matches ;; m_ret tt.

(** The publication to the other pods: the mark is taken back when Redis refuses. *)
Definition publish_event (community : Uuid) (channel_id : option Uuid) (event : Event)
  : method Delivery DbError unit :=
  do? _ <- mark_local_event community (ev_id event) ;;
  if de_publishes env
  then m_modify (emit (Published community (topic_for_subscription channel_id) event))
  else forget_local_event community (ev_id event).

(** The owner of a viewer-private event: the content of its first [p] tag that has one. *)
Definition private_event_owner (event : Event) (kind : Z) : option string :=
  if (kind =? KIND_DM_VISIBILITY) || (kind =? KIND_AGENT_TURN_METRIC)
  then find_map tag_content
         (List.filter (fun t => String.eqb (tag_kind t) (slt_to_string (slt_lowercase "p"))) (ev_tags event))
  else None.
Definition owner_recipient (owner : option string) (c : Candidate) : bool :=
  match owner with
  | None => true
  | Some owner_hex =>
      match pubkey_for_conn c.1 (de_conns env 5) with
      | Some pk => String.eqb (to_hex pk) owner_hex
      | None => false
      end
  end.

Definition is_relay_workflow_msg (relay_pubkey : Bytes) (event : Event) : bool :=
  bool_decide (ev_pubkey event = relay_pubkey)
  && existsb (fun t => bool_decide (head t = Some "buzz:workflow")) (ev_tags event).
Definition triggers_workflows (relay_pubkey : Bytes) (event : Event) (kind : Z) : bool :=
  negb (is_workflow_execution_kind kind) && negb (is_command_kind kind)
  && negb (is_relay_workflow_msg relay_pubkey event) && negb (kind =? KIND_GIFT_WRAP).

Definition dispatch_persistent_event_inner (registry : SubscriptionRegistry) (relay_pubkey : Bytes)
    (community : Uuid) (stored : StoredEvent) (kind : Z) (actor : string)
    (enqueue_audit : bool) (threaded : option ThreadedChannelVisibility)
  : method Delivery DbError nat :=
  let event := se_event stored in
  do? _ <- publish_event community (se_channel_id stored) event ;;
  let matches := fan_out_scoped community stored registry in
  do? matches <- filter_fanout_by_access community stored matches threaded ;;
  let recipients := List.filter (owner_recipient (private_event_owner event kind)) matches in
  do? _ <- send_fanout_frames event recipients ;;
  do? _ <- (if enqueue_audit
            then m_modify (emit (AuditEventCreated community stored kind actor)) else m_ret tt) ;;
  do? _ <- (if triggers_workflows relay_pubkey event kind
            then m_modify (emit (WorkflowEvent community stored)) else m_ret tt) ;;
  m_ret (length matches).

(** [dispatch_persistent_event]: the audit entry is queued before the event is delivered. *)
Definition dispatch_persistent_event (registry : SubscriptionRegistry) (relay_pubkey : Bytes)
    (community : Uuid) (stored : StoredEvent) (kind : Z) (actor : string)
    (threaded : option ThreadedChannelVisibility) : method Delivery DbError nat :=
  do? _ <- m_modify (emit (AuditEventCreated community stored kind actor)) ;;
  do? _ <- dispatch_persistent_event_inner registry relay_pubkey community stored kind actor false
            threaded ;;
  m_ret 0%nat.
End delivery.

(** * What may be delivered *)

Section confined.
Context `{A : NostrApi} `{L : !NostrLaws A} `{H : HashIter}.

(** One of the states of the membership tables that were read so far lets the recipient see the
    channel: it is not private there, or the recipient is a member. *)
Definition channel_visible (seen : ChanDb -> Prop) (env : DeliveryEnv) (community ch : Uuid)
    (c : Candidate) : Prop :=
  exists db, seen db /\
    ((exists row, live_channel db (community, ch) = Some row /\
                  ch_visibility row <> ChannelVisibility.Private) \/
     (exists pk, conn_pubkey env 3 c = Some pk /\ is_member community ch pk db = true)).

(** The recipient's subscription matches the event, its connection belongs to the community, and
    the gates let it through. *)
Record deliverable (seen : ChanDb -> Prop) (env : DeliveryEnv) (registry : SubscriptionRegistry)
    (community : Uuid) (stored : StoredEvent) (c : Candidate) : Prop := {
  dl_receives : receives registry community stored c;
  dl_community : community_for_conn c.1 (de_conns env 0) = Some community;
  dl_author : event_kind_u32 (se_event stored) ∈ AUTHOR_ONLY_KINDS ->
    conn_pubkey env 1 c = Some (ev_pubkey (se_event stored));
  dl_shared : event_kind_u32 (se_event stored) ∈ SHARED_GATED_KINDS ->
    exists pk, conn_pubkey env 2 c = Some pk /\
      (pk = ev_pubkey (se_event stored) \/
       shared_tags (ev_tags (se_event stored)) = [["shared"; "true"]]);
  dl_channel ch : se_channel_id stored = Some ch -> channel_visible seen env community ch c
}.

(** The membership cache answers what some state read before says; the visibility cache holds
    only [private]. *)
Record justified (seen : ChanDb -> Prop) (s : Delivery) : Prop := {
  jf_member (k : MemberKey) b : membership_cache s !! k = Some b ->
    exists db, seen db /\ is_member k.1.1 k.1.2 k.2 db = b;
  jf_visibility (k : ChannelKey) v : channel_visibility_cache s !! k = Some v ->
    v = ChannelVisibility.Private
}.
Record env_reads (seen : ChanDb -> Prop) (env : DeliveryEnv) : Prop := {
  er_visibility db : de_visibility env = Some db -> seen db;
  er_member c db : de_member env c = Some db -> seen db
}.
(** The visibility resolved earlier in the request comes from a state that was read. *)
Definition threaded_reads (seen : ChanDb -> Prop) (community : Uuid) (ch : option Uuid)
    (threaded : option ThreadedChannelVisibility) : Prop :=
  forall t, threaded = Some t -> tv_community_id t = community -> Some (tv_channel_id t) = ch ->
    tv_visibility t <> ChannelVisibility.Private ->
    exists db row, seen db /\ live_channel db (community, tv_channel_id t) = Some row /\
                   ch_visibility row <> ChannelVisibility.Private.

Context (seen : ChanDb -> Prop) (env : DeliveryEnv) (Henv : env_reads seen env).

Lemma is_member_cached_run db c ch pk s s' r :
  (forall d, db = Some d -> seen d) -> justified seen s ->
  is_member_cached db c ch pk s = (s', r) ->
  justified seen s' /\ effects s' = effects s /\
  (r = Ok true -> exists d, seen d /\ is_member c ch pk d = true).
Proof.
  intros Hdb [Hm Hv] Hrun. unfold is_member_cached in Hrun. cbn zeta in Hrun.
  destruct (membership_cache s !! (((c, ch) : ChannelKey, pk) : MemberKey)) as [b|] eqn:Hc.
  - injection Hrun as <- <-. split_and!; [by split|done|]. intros [= ->]. apply Hm in Hc. eauto.
  - destruct db as [d|]; simpl in Hrun; [|injection Hrun as <- <-; by split_and!].
    injection Hrun as <- <-. split_and!; [split|done|intros [= Ht]; eauto].
    + intros k b. simpl. destruct (decide (k = (((c, ch) : ChannelKey, pk) : MemberKey))) as [->|Hne].
      * rewrite lookup_insert_eq. intros [= <-]. exists d. auto.
      * rewrite lookup_insert_ne by auto. apply Hm.
    + apply Hv.
Qed.

Lemma channel_visibility_run c ch s s' r :
  justified seen s -> channel_visibility_cached (de_visibility env) c ch None s = (s', r) ->
  justified seen s' /\ effects s' = effects s /\
  (forall v, r = Ok v -> v <> ChannelVisibility.Private ->
   exists d row, seen d /\ live_channel d (c, ch) = Some row /\
                 ch_visibility row <> ChannelVisibility.Private).
Proof.
  intros [Hm Hv] Hrun. unfold channel_visibility_cached in Hrun. cbn zeta in Hrun.
  destruct (channel_visibility_cache s !! ((c, ch) : ChannelKey)) as [v|] eqn:Hc.
  - injection Hrun as <- <-. split_and!; [by split|done|]. intros v' [= <-] Hne.
    by apply Hv in Hc.
  - destruct (de_visibility env) as [d|] eqn:Hd; simpl in Hrun;
      [|injection Hrun as <- <-; by split_and!].
    unfold get_channel in Hrun.
    destruct (live_channel d (c, ch)) as [row|] eqn:Hrow; simpl in Hrun;
      [|injection Hrun as <- <-; by split_and!].
    destruct (bool_decide_reflect (ch_visibility row = ChannelVisibility.Private)) as [Hp|Hp];
      injection Hrun as <- <-; split_and!; try done.
    + split; [done|]. intros k v. simpl.
      destruct (decide (k = ((c, ch) : ChannelKey))) as [->|Hne].
      * rewrite lookup_insert_eq. by intros [= <-].
      * rewrite lookup_insert_ne by auto. apply Hv.
    + by intros v [= <-].
    + intros v [= <-] _. exists d, row. split_and!; [by apply Henv|done..].
Qed.

Lemma keep_member_run c ch x s : justified seen s ->
  exists s1 keep, keep_member env c ch x s = (s1, Ok keep) /\ justified seen s1 /\
    effects s1 = effects s /\
    (keep = true -> exists d pk, seen d /\ conn_pubkey env 3 x = Some pk /\ is_member c ch pk d = true).
Proof.
  intros Hj. unfold keep_member.
  destruct (conn_pubkey env 3 x) as [pk|] eqn:Hpk; [|by exists s, false].
  destruct (is_member_cached _ _ _ _ _) as [s1 r] eqn:Hm.
  destruct (is_member_cached_run _ _ _ _ _ _ _ (er_member _ _ Henv x) Hj Hm) as (Hj1 & He1 & Hb).
  eexists s1, _. split_and!; [done..|]. destruct r as [[]|]; [|done..]. intros _.
  destruct (Hb eq_refl) as (d & Hd & Ht). eauto 10.
Qed.

Lemma members_only_run c ch l s s' r :
  justified seen s -> members_only env c ch l s = (s', r) ->
  justified seen s' /\ effects s' = effects s /\
  exists out, r = Ok out /\ forall x, x ∈ out -> x ∈ l /\
    exists d pk, seen d /\ conn_pubkey env 3 x = Some pk /\ is_member c ch pk d = true.
Proof.
  revert s s' r. induction l as [|x l IH]; intros s s' r Hj Hrun; cbn [members_only] in Hrun.
  { injection Hrun as <- <-. split_and!; [done..|]. exists []. split; [done|].
    intros x Hx. by apply elem_of_nil in Hx. }
  unfold m_bind at 1 in Hrun.
  destruct (keep_member_run c ch x s Hj) as (s1 & keep & Hk & Hj1 & He1 & Hkeep).
  rewrite Hk in Hrun. cbn iota beta in Hrun.
  unfold m_bind in Hrun. destruct (members_only env c ch l s1) as [s2 r2] eqn:Hrest.
  destruct (IH _ _ _ Hj1 Hrest) as (Hj2 & He2 & out & -> & Hout). injection Hrun as <- <-.
  split_and!; [done|congruence|]. eexists. split; [done|]. intros y Hy.
  assert (Hy' : (y = x /\ keep = true) \/ y ∈ out).
  { destruct keep; [apply elem_of_cons in Hy as [->|?]; auto|auto]. }
  destruct Hy' as [[-> Hkt]|Hy']; [split; [left|auto]|]. destruct (Hout y Hy'). split; [by right|done].
Qed.

Lemma filter_run registry community stored threaded s s' r :
  justified seen s -> threaded_reads seen community (se_channel_id stored) threaded ->
  filter_fanout_by_access env community stored (fan_out_scoped community stored registry) threaded s
    = (s', r) ->
  justified seen s' /\ effects s' = effects s /\
  exists out, r = Ok out /\ Forall (deliverable seen env registry community stored) out.
Proof.
  intros Hj Hth. unfold filter_fanout_by_access.
  set (m1 := List.filter (in_community env community) _).
  set (m2 := if mem_kind _ AUTHOR_ONLY_KINDS then _ else m1).
  set (m3 := if is_shared_gated_kind _ then _ else m2).
  assert (H1 : forall c, c ∈ m1 -> receives registry community stored c /\
                community_for_conn c.1 (de_conns env 0) = Some community).
  { intros c [Hc Hb]%list_elem_of_In%filter_In. apply list_elem_of_In in Hc.
    split; [by apply fan_out_receives|]. by apply bool_decide_eq_true in Hb. }
  assert (H2 : forall c, c ∈ m2 -> c ∈ m1 /\ (event_kind_u32 (se_event stored) ∈ AUTHOR_ONLY_KINDS ->
                conn_pubkey env 1 c = Some (ev_pubkey (se_event stored)))).
  { intros c. unfold m2. rewrite <-mem_kind_true. destruct (mem_kind _ _); [|done].
    intros [Hc Hb]%list_elem_of_In%filter_In. apply list_elem_of_In in Hc. split; [done|].
    unfold author_only_recipient in Hb. destruct (conn_pubkey env 1 c); [|done].
    apply bool_decide_eq_true in Hb. by subst. }
  assert (H3 : forall c, c ∈ m3 -> c ∈ m2 /\ (event_kind_u32 (se_event stored) ∈ SHARED_GATED_KINDS ->
                exists pk, conn_pubkey env 2 c = Some pk /\
                  (pk = ev_pubkey (se_event stored) \/
                   shared_tags (ev_tags (se_event stored)) = [["shared"; "true"]]))).
  { intros c. unfold m3, is_shared_gated_kind. rewrite <-mem_kind_true.
    destruct (mem_kind _ SHARED_GATED_KINDS) eqn:Hk; [|done].
    intros [Hc Hb]%list_elem_of_In%filter_In. apply list_elem_of_In in Hc. split; [done|]. intros _.
    unfold shared_recipient in Hb. destruct (conn_pubkey env 2 c) as [pk|]; [|done]. exists pk.
    split; [done|]. destruct (bool_decide_reflect (pk = ev_pubkey (se_event stored))); [by left|].
    apply negb_true_iff, unshared_gate_spec in Hb as [Hb|[Hb|Hb]]; [|by left|by right].
    destruct Hb. by apply mem_kind_true in Hk. }
  clearbody m1 m2 m3.
  assert (Hall : forall c, c ∈ m3 ->
    (forall ch, se_channel_id stored = Some ch -> channel_visible seen env community ch c) ->
    deliverable seen env registry community stored c).
  { intros c Hc Hch. destruct (H3 c Hc) as [Hc2 ?], (H2 c Hc2) as [Hc1 ?], (H1 c Hc1). by split. }
  destruct (se_channel_id stored) as [ch|] eqn:Hchan; cycle 1.
  { intros [= <- <-]. split_and!; [done..|]. exists m3. split; [done|]. apply Forall_forall.
    intros c Hc. apply Hall; [done|]. congruence. }
  set (look := match threaded with Some t => _ | None => _ end).
  assert (Hlook : forall s1 v, look = (s1, v) -> justified seen s1 /\ effects s1 = effects s /\
    (forall v', v = Ok v' -> v' <> ChannelVisibility.Private ->
     exists d row, seen d /\ live_channel d (community, ch) = Some row /\
                   ch_visibility row <> ChannelVisibility.Private)).
  { intros s1 v. unfold look. destruct threaded as [t|]; [|by apply channel_visibility_run].
    destruct (bool_decide_reflect (tv_community_id t = community)) as [Hc|];
      [|by apply channel_visibility_run]. cbn [andb].
    destruct (bool_decide_reflect (tv_channel_id t = ch)) as [<-|];
      [|by apply channel_visibility_run]. intros [= <- <-]. split_and!; [done..|].
    intros v' [= <-] Hne. by apply (Hth t). }
  destruct look as [s1 [v|e]]; destruct (Hlook _ _ eq_refl) as (Hj1 & He1 & Hv).
  - destruct (bool_decide_reflect (v = ChannelVisibility.Private)) as [->|Hp]; cbn [negb].
    + intros Hm. destruct (members_only_run _ _ _ _ _ _ Hj1 Hm) as (Hj2 & He2 & out & -> & Hout).
      split_and!; [done|congruence|]. exists out. split; [done|]. apply Forall_forall.
      intros c Hc. destruct (Hout c Hc) as (Hc3 & d & pk & Hd & Hpk & Hmem). apply Hall; [done|].
      intros ch' Hch'. assert (ch' = ch) as -> by congruence. exists d. eauto.
    + intros [= <- <-]. split_and!; [done..|]. exists m3. split; [done|]. apply Forall_forall.
      intros c Hc. apply Hall; [done|]. intros ch' Hch'. assert (ch' = ch) as -> by congruence.
      destruct (Hv v eq_refl Hp) as (d & row & Hd & Hrow & Hpr). exists d. eauto.
  - intros [= <- <-]. split_and!; [done..|]. exists []. split; [done|constructor].
Qed.

(** ** The three paths *)

(** An effect of one call about [stored]: its frames go where they may. *)
Definition allowed (registry : SubscriptionRegistry) (community : Uuid) (stored : StoredEvent)
    (x : Effect) : Prop :=
  match x with
  | Frame conn sub e => e = se_event stored /\
                        deliverable seen env registry community stored (conn, sub)
  | _ => True
  end.

Lemma filter_appends P registry community stored threaded :
  threaded_reads seen community (se_channel_id stored) threaded ->
  appends effects (justified seen) P (Forall (deliverable seen env registry community stored))
    (filter_fanout_by_access env community stored (fan_out_scoped community stored registry) threaded).
Proof.
  intros Hth. apply appends_pure. intros s Hj.
  destruct (filter_fanout_by_access _ _ _ _ _ s) as [s' r] eqn:Hrun.
  by destruct (filter_run _ _ _ _ _ _ _ Hj Hth Hrun) as (Hj' & He & out & -> & Hout).
Qed.

Lemma justified_emit x s : justified seen s -> justified seen (emit x s).
Proof. by intros [? ?]. Qed.
Lemma justified_local l s : justified seen s -> justified seen (set_local l s).
Proof. by intros [? ?]. Qed.

Lemma emit_appends P x : P x ->
  appends effects (justified seen) P (fun _ => True)
    (m_modify (emit x) : method Delivery DbError unit).
Proof.
  intros Hx s Hj. split_and!; [by apply justified_emit| |done]. exists [x].
  by rewrite Forall_singleton.
Qed.
Lemma local_appends P f :
  appends effects (justified seen) P (fun _ => True) 
    (m_modify (fun s => set_local (f s) s) : method Delivery DbError unit).
Proof. apply appends_modify; [done|]. intros s Hj. split; [by apply justified_local|done]. Qed.

Lemma send_appends (P : Effect -> Prop) event recipients :
  Forall (fun c => P (Frame c.1 c.2 event)) recipients ->
  appends effects (justified seen) P (fun _ => True) (send_fanout_frames env event recipients).
Proof.
  induction 1 as [|c l Hc _ IH]; cbn [send_fanout_frames]; [by apply appends_ret|].
  apply (appends_bind _ _ _ (fun _ => True)).
  - unfold send_to_text_bytes. intros s Hj. destruct (_ && _); [by apply emit_appends|].
    by apply (appends_ret effects (justified seen) P (fun _ => True) false).
  - intros taken _. apply (appends_bind _ _ _ (fun _ => True)); [done|]. intros n _.
    by apply appends_ret.
Qed.

Lemma forget_appends P community id :
  appends effects (justified seen) P (fun _ => True) (forget_local_event community id).
Proof. apply (local_appends P (fun s => local_event_ids s ∖ {[((community, id) : LocalKey)]})). Qed.

Lemma local_delivery_appends registry community stored :
  appends effects (justified seen) (allowed registry community stored) (fun _ => True)
    (fan_out_event_to_local_subscribers env registry community stored).
Proof.
  unfold fan_out_event_to_local_subscribers.
  eapply appends_bind; [apply filter_appends; by intros t [=]|]. intros out Hout.
  case_bool_decide; [by apply appends_ret|].
  apply (appends_bind _ _ _ (fun _ => True)); [|intros n _; by apply appends_ret].
  apply send_appends. eapply Forall_impl; [exact Hout|]. intros [conn sub] Hd. by split.
Qed.

Lemma pubsub_delivery_appends registry now community topic event :
  let stored := StoredEvent_new now event
                  (match topic with TopicChannel id => Some id | TopicGlobal => None end) in
  appends effects (justified seen) (allowed registry community stored) (fun _ => True)
    (fan_out_pubsub_event env registry now community topic event).
Proof.
  intros stored. unfold fan_out_pubsub_event. fold stored.
  apply (appends_bind _ _ _ (fun _ => True)); [by apply appends_get|]. intros s _.
  case_bool_decide; [apply forget_appends|].
  eapply appends_bind; [apply filter_appends; by intros t [=]|]. intros out Hout.
  case_bool_decide; [by apply appends_ret|].
  apply (appends_bind _ _ _ (fun _ => True)); [|intros n _; by apply appends_ret].
  apply send_appends. eapply Forall_impl; [exact Hout|]. intros [conn sub] Hd. by split.
Qed.

(** Only an owner receives a viewer-private event on the persistent path. *)
Definition owned (kind : Z) (x : Effect) : Prop :=
  match x with
  | Frame conn sub e => forall owner, private_event_owner e kind = Some owner ->
      exists pk, pubkey_for_conn conn (de_conns env 5) = Some pk /\ to_hex pk = owner
  | _ => True
  end.

Lemma dispatch_appends registry relay community stored kind actor threaded :
  threaded_reads seen community (se_channel_id stored) threaded ->
  appends effects (justified seen)
    (fun x => allowed registry community stored x /\ owned kind x) (fun _ => True)
    (dispatch_persistent_event env registry relay community stored kind actor threaded).
Proof.
  intros Hth. unfold dispatch_persistent_event, dispatch_persistent_event_inner.
  apply (appends_bind _ _ _ (fun _ => True)); [by apply emit_appends|]. intros _ _.
  apply (appends_bind _ _ _ (fun _ => True)); [|intros n _; by apply appends_ret].
  apply (appends_bind _ _ _ (fun _ => True)).
  { unfold publish_event, mark_local_event.
    apply (appends_bind _ _ _ (fun _ => True)); [apply local_appends|]. intros _ _.
    destruct (de_publishes env); [by apply emit_appends|apply forget_appends]. }
  intros _ _. eapply appends_bind; [by apply filter_appends|]. intros out Hout.
  apply (appends_bind _ _ _ (fun _ => True)).
  { apply send_appends. apply Forall_forall. intros [conn sub] [Hin Hb]%list_elem_of_In%filter_In.
    apply list_elem_of_In in Hin. rewrite Forall_forall in Hout. split; [split; auto|].
    cbn [fst snd owned]. intros owner Howner. unfold owner_recipient in Hb. rewrite Howner in Hb. cbn [fst] in Hb.
    destruct (pubkey_for_conn conn (de_conns env 5)) as [pk|]; [|done].
    apply String.eqb_eq in Hb. eauto. }
  intros n _. apply (appends_bind _ _ _ (fun _ => True)); [by apply appends_ret|]. intros _ _.
  apply (appends_bind _ _ _ (fun _ => True)); [|intros _ _; by apply appends_ret].
  destruct (triggers_workflows _ _ _); [by apply emit_appends|by apply appends_ret].
Qed.
End confined.

(** * Runs of the relay *)

(** A call of one of the three paths. *)
Inductive LiveCall :=
| LiveLocal (stored : StoredEvent)
| LiveRemote (now : Z) (topic : EventTopic) (event : Event)
| LivePersistent (relay_pubkey : Bytes) (stored : StoredEvent) (kind : Z) (actor : string)
    (threaded : option ThreadedChannelVisibility).
Definition call_stored (call : LiveCall) : StoredEvent :=
  match call with
  | LiveLocal stored | LivePersistent _ stored _ _ _ => stored
  | LiveRemote now topic event =>
      StoredEvent_new now event
        (match topic with TopicChannel id => Some id | TopicGlobal => None end)
  end.
Definition call_threaded (call : LiveCall) : option ThreadedChannelVisibility :=
  match call with LivePersistent _ _ _ _ threaded => threaded | _ => None end.
Definition run_live `{NostrApi} `{HashIter} (env : DeliveryEnv) (registry : SubscriptionRegistry)
    (community : Uuid) (call : LiveCall) (s : Delivery) : Delivery :=
  match call with
  | LiveLocal stored => fst (fan_out_event_to_local_subscribers env registry community stored s)
  | LiveRemote now topic event => fst (fan_out_pubsub_event env registry now community topic event s)
  | LivePersistent relay stored kind actor threaded =>
      fst (dispatch_persistent_event env registry relay community stored kind actor threaded s)
  end.

Definition delivery_start : Delivery := mkDelivery ∅ ∅ ∅ [].

Section runs.
Context `{A : NostrApi} `{L : !NostrLaws A} `{H : HashIter}.
Context (seen : ChanDb -> Prop).

(** A frame that this call may send: it carries the call's event, goes where it may be
    delivered, and on the persistent path a viewer-private event goes to its owner. *)
Record frame_due (env : DeliveryEnv) (registry : SubscriptionRegistry) (community : Uuid) (call : LiveCall)
    (conn : ConnId) (sub : SubId) (e : Event) : Prop := {
  fd_event : e = se_event (call_stored call);
  fd_deliverable : deliverable seen env registry community (call_stored call) (conn, sub);
  fd_owner : match call with
             | LivePersistent _ _ kind _ _ => owned env kind (Frame conn sub e)
             | _ => True
             end
}.

Lemma run_live_appends env registry community call s :
  env_reads seen env ->
  threaded_reads seen community (se_channel_id (call_stored call)) (call_threaded call) ->
  justified seen s ->
  justified seen (run_live env registry community call s) /\
  exists l, effects (run_live env registry community call s) = effects s ++ l /\
            forall conn sub e, Frame conn sub e ∈ l -> frame_due env registry community call conn sub e.
Proof.
  intros Henv Hth Hj. destruct call as [stored|now topic event|relay stored kind actor threaded];
    cbn [run_live call_stored call_threaded] in *.
  - destruct (local_delivery_appends seen env Henv registry community stored s Hj)
      as (Hj' & (l & Hl & HP) & _). split; [done|]. exists l. split; [done|].
    intros conn sub e Hin. rewrite Forall_forall in HP. by destruct (HP _ Hin).
  - destruct (pubsub_delivery_appends seen env Henv registry now community topic event s Hj)
      as (Hj' & (l & Hl & HP) & _). split; [done|]. exists l. split; [done|].
    intros conn sub e Hin. rewrite Forall_forall in HP. by destruct (HP _ Hin).
  - destruct (dispatch_appends seen env Henv registry relay community stored kind actor threaded Hth s Hj)
      as (Hj' & (l & Hl & HP) & _). split; [done|]. exists l. split; [done|].
    intros conn sub e Hin. rewrite Forall_forall in HP. by destruct (HP _ Hin) as [[] ?].
Qed.
Lemma start_justified : justified seen delivery_start.
Proof. split; intros ? ? Hx; cbn in Hx; by rewrite lookup_empty in Hx. Qed.
End runs.

(** * Against one state *)

Section exact.
Context `{A : NostrApi} `{L : !NostrLaws A} `{H : HashIter}.
Context (cm : ConnectionManager) (cdb : ChanDb).

(** Every lookup sees the same tables, and every buffer has room. *)
Definition quiet_env : DeliveryEnv :=
  mkDeliveryEnv (fun _ => cm) (Some cdb) (fun _ => Some cdb) true (fun _ _ => true).

(** The caches agree with the tables. *)
Record fresh (s : Delivery) : Prop := {
  fr_member (k : MemberKey) b : membership_cache s !! k = Some b ->
    is_member k.1.1 k.1.2 k.2 cdb = b;
  fr_visibility (k : ChannelKey) v : channel_visibility_cache s !! k = Some v ->
    ch_visibility <$> live_channel cdb k = Some v
}.

Definition is_reader (community ch : Uuid) (c : Candidate) : bool :=
  match pubkey_for_conn c.1 cm with Some pk => is_member community ch pk cdb | None => false end.
Definition sees_channel (community : Uuid) (channel : option Uuid) (c : Candidate) : bool :=
  match channel with
  | None => true
  | Some ch =>
      match live_channel cdb (community, ch) with
      | None => false
      | Some row => negb (bool_decide (ch_visibility row = ChannelVisibility.Private))
                    || is_reader community ch c
      end
  end.
Definition gates_open (event : Event) (c : Candidate) : bool :=
  (negb (mem_kind (event_kind_u32 event) AUTHOR_ONLY_KINDS) || author_only_recipient quiet_env event c)
  && (negb (is_shared_gated_kind (event_kind_u32 event)) || shared_recipient quiet_env event c).
(** The gates of [filter_fanout_by_access]; the owner of a viewer-private event is asked for
    later and on one path only ([owner_gate]). *)
Definition recipient (community : Uuid) (stored : StoredEvent) (c : Candidate) : bool :=
  in_community quiet_env community c && gates_open (se_event stored) c
  && sees_channel community (se_channel_id stored) c.

Lemma is_member_cached_fresh c ch pk s : fresh s ->
  exists s', is_member_cached (Some cdb) c ch pk s = (s', Ok (is_member c ch pk cdb)) /\
    fresh s' /\ effects s' = effects s.
Proof.
  intros [Hm Hv]. unfold is_member_cached. cbn zeta.
  destruct (membership_cache s !! (((c, ch) : ChannelKey, pk) : MemberKey)) as [b|] eqn:Hc.
  - exists s. split_and!; [|by split|done]. by apply Hm in Hc as <-.
  - cbn [with_db]. eexists. split_and!; [done| |done]. split; [|exact Hv].
    intros k b. cbn [membership_cache set_membership_cache].
    destruct (decide (k = (((c, ch) : ChannelKey, pk) : MemberKey))) as [->|Hne].
    + rewrite lookup_insert_eq. by intros [= <-].
    + rewrite lookup_insert_ne by auto. apply Hm.
Qed.

Lemma visibility_fresh c ch s : fresh s ->
  exists s', channel_visibility_cached (Some cdb) c ch None s =
    (s', match live_channel cdb (c, ch) with
         | Some row => Ok (ch_visibility row)
         | None => Err (ChannelNotFound ch)
         end) /\ fresh s' /\ effects s' = effects s.
Proof.
  intros [Hm Hv]. unfold channel_visibility_cached. cbn zeta.
  destruct (channel_visibility_cache s !! ((c, ch) : ChannelKey)) as [v|] eqn:Hc.
  - apply Hv in Hc as Hl. destruct (live_channel cdb (c, ch)); [|done]. injection Hl as ->.
    exists s. split_and!; [done|by split|done].
  - cbn [with_db]. unfold get_channel. destruct (live_channel cdb (c, ch)) as [row|] eqn:Hrow;
      cbn [res_bind]; [|exists s; split_and!; [done|by split|done]].
    case_bool_decide; eexists; (split_and!; [done| |done]); [|by split]. split; [exact Hm|].
    intros k v. cbn [channel_visibility_cache set_visibility_cache].
    destruct (decide (k = ((c, ch) : ChannelKey))) as [->|Hne].
    + rewrite lookup_insert_eq. intros [= <-]. by rewrite Hrow.
    + rewrite lookup_insert_ne by auto. apply Hv.
Qed.

Lemma members_only_fresh c ch l s : fresh s ->
  exists s', members_only quiet_env c ch l s = (s', Ok (List.filter (is_reader c ch) l)) /\
    fresh s' /\ effects s' = effects s.
Proof.
  revert s. induction l as [|x l IH]; intros s Hf; cbn [members_only]; [by exists s|].
  assert (Hk : exists s1, keep_member quiet_env c ch x s = (s1, Ok (is_reader c ch x)) /\
                          fresh s1 /\ effects s1 = effects s).
  { unfold keep_member, is_reader, conn_pubkey. cbn [de_conns de_member quiet_env].
    destruct (pubkey_for_conn x.1 cm) as [pk|]; [|by exists s].
    destruct (is_member_cached_fresh c ch pk s Hf) as (s1 & -> & ? & ?). by exists s1. }
  destruct Hk as (s1 & Hk & Hf1 & He1). unfold m_bind. rewrite Hk.
  destruct (IH s1 Hf1) as (s2 & -> & Hf2 & He2). exists s2. split_and!; [|done|congruence].
  cbn [List.filter]. by destruct (is_reader c ch x).
Qed.

Lemma filter_conj {B : Type} (p q : B -> bool) l :
  List.filter q (List.filter p l) = List.filter (fun x => p x && q x) l.
Proof.
  induction l as [|x l IH]; [done|]. simpl. destruct (p x); simpl; [|done].
  destruct (q x); by rewrite IH.
Qed.
Lemma filter_when {B : Type} (b : bool) (p : B -> bool) l :
  (if b then List.filter p l else l) = List.filter (fun x => negb b || p x) l.
Proof. destruct b; simpl; [done|]. induction l; simpl; congruence. Qed.

(** The visibility that the request resolved before is still the table's. *)
Definition threaded_agrees (community : Uuid) (stored : StoredEvent)
    (threaded : option ThreadedChannelVisibility) : Prop :=
  forall t, threaded = Some t -> tv_community_id t = community ->
    Some (tv_channel_id t) = se_channel_id stored ->
    ch_visibility <$> live_channel cdb (community, tv_channel_id t) = Some (tv_visibility t).
Definition look_up (community ch : Uuid) (threaded : option ThreadedChannelVisibility)
  : method Delivery DbError ChannelVisibility.t :=
  fun s =>
    match threaded with
    | Some t => if bool_decide (tv_community_id t = community) && bool_decide (tv_channel_id t = ch)
                then (s, Ok (tv_visibility t))
                else channel_visibility_cached (Some cdb) community ch None s
    | None => channel_visibility_cached (Some cdb) community ch None s
    end.
Lemma look_up_fresh community stored ch threaded s : fresh s -> se_channel_id stored = Some ch ->
  threaded_agrees community stored threaded ->
  exists s', look_up community ch threaded s =
    (s', match live_channel cdb (community, ch) with
         | Some row => Ok (ch_visibility row)
         | None => Err (ChannelNotFound ch)
         end) /\ fresh s' /\ effects s' = effects s.
Proof.
  intros Hf Hch Hth. unfold look_up. destruct threaded as [t|]; [|by apply visibility_fresh].
  destruct (bool_decide_reflect (tv_community_id t = community)) as [Hc|]; [|by apply visibility_fresh].
  destruct (bool_decide_reflect (tv_channel_id t = ch)) as [<-|]; [|by apply visibility_fresh].
  specialize (Hth t eq_refl Hc (eq_sym Hch)). destruct (live_channel _ _) as [row|]; [|done].
  injection Hth as Hv. exists s. cbn [andb]. by rewrite Hv.
Qed.

Lemma filter_exact community stored threaded matches s : fresh s -> threaded_agrees community stored threaded ->
  exists s', filter_fanout_by_access quiet_env community stored matches threaded s =
    (s', Ok (List.filter (recipient community stored) matches)) /\
    fresh s' /\ effects s' = effects s.
Proof.
  intros Hf Hth. unfold filter_fanout_by_access. rewrite !filter_when, !filter_conj.
  set (base := List.filter _ matches).
  assert (Hr : List.filter (recipient community stored) matches =
               List.filter (sees_channel community (se_channel_id stored)) base).
  { unfold base. rewrite filter_conj. apply filter_ext. intros x. unfold recipient, gates_open.
    by rewrite !andb_assoc. }
  rewrite Hr. clearbody base.
  assert (Hall : forall p, (forall c, p c = true) -> List.filter p base = base).
  { intros p Hp. clear Hr. induction base as [|c l IH]; [done|]. simpl. by rewrite Hp, IH. }
  destruct (se_channel_id stored) as [ch|] eqn:Hch; [|exists s; split_and!; [by rewrite Hall|done..]].
  destruct (look_up_fresh community stored ch threaded s Hf Hch Hth) as (s1 & Hrun & Hf1 & He1).
  unfold look_up in Hrun. cbn [de_visibility quiet_env]. rewrite Hrun. unfold sees_channel.
  destruct (live_channel cdb (community, ch)) as [row|] eqn:Hrow.
  - destruct (bool_decide (ch_visibility row = ChannelVisibility.Private)); cbn [negb orb].
    + destruct (members_only_fresh community ch base s1 Hf1) as (s2 & -> & Hf2 & He2).
      exists s2. split_and!; [done..|congruence].
    + exists s1. split_and!; [by rewrite Hall|done..].
  - exists s1. split_and!; [|done..]. do 2 f_equal. clear. by induction base.
Qed.

Lemma send_all event l s : (forall c, c ∈ l -> is_Some (cm !! c.1)) ->
  exists s' n, send_fanout_frames quiet_env event l s = (s', Ok n) /\
    effects s' = effects s ++ ((fun c => Frame c.1 c.2 event) <$> l).
Proof.
  revert s. induction l as [|c l IH]; intros s Hl; cbn [send_fanout_frames].
  { exists s, 0. by rewrite app_nil_r. }
  unfold m_bind, send_to_text_bytes. cbn [de_conns de_takes quiet_env].
  rewrite bool_decide_eq_true_2 by (apply Hl; left). cbn [andb].
  destruct (IH (emit (Frame c.1 c.2 event) s)) as (s' & n & -> & He).
  { intros c' Hc. apply Hl. by right. }
  exists s', n. split; [done|]. rewrite He. cbn [effects emit]. by rewrite <-app_assoc.
Qed.

(** What a call sends, and to whom: on the persistent path a viewer-private event goes to its
    owner alone; the other two paths have no such gate. *)
Definition is_frame (x : Effect) : bool := match x with Frame _ _ _ => true | _ => false end.
Definition frames (s : Delivery) : list Effect := List.filter is_frame (effects s).
Definition owner_gate (call : LiveCall) (c : Candidate) : bool :=
  match call with
  | LivePersistent _ stored kind _ _ =>
      owner_recipient quiet_env (private_event_owner (se_event stored) kind) c
  | _ => true
  end.
(** An event of this pod that came back from Redis. *)
Definition is_echo (community : Uuid) (call : LiveCall) (s : Delivery) : bool :=
  match call with
  | LiveRemote _ _ event => bool_decide (((community, ev_id event) : LocalKey) ∈ local_event_ids s)
  | _ => false
  end.
Definition sent_to (registry : SubscriptionRegistry) (community : Uuid) (call : LiveCall) : list Candidate :=
  List.filter (owner_gate call) (List.filter (recipient community (call_stored call))
    (fan_out_scoped community (call_stored call) registry)).

Lemma frames_app s s' l : effects s' = effects s ++ l -> frames s' = frames s ++ List.filter is_frame l.
Proof. unfold frames. intros ->. by rewrite List.filter_app. Qed.
Lemma frames_same s s' : effects s' = effects s -> frames s' = frames s.
Proof. unfold frames. by intros ->. Qed.
Lemma frames_emit x s : is_frame x = false -> frames (emit x s) = frames s.
Proof. intros Hx. unfold frames. cbn [effects emit]. rewrite List.filter_app. cbn. by rewrite Hx, app_nil_r. Qed.
Lemma frames_all event (l : list Candidate) :
  List.filter is_frame ((fun c => Frame c.1 c.2 event) <$> l) = (fun c => Frame c.1 c.2 event) <$> l.
Proof. induction l as [|c l IH]; [done|]. cbn. by f_equal. Qed.
Lemma fresh_emit x s : fresh s -> fresh (emit x s).
Proof. by intros [? ?]. Qed.
Lemma fresh_local l s : fresh s -> fresh (set_local l s).
Proof. by intros [? ?]. Qed.

Lemma recipient_connected community stored c : recipient community stored c = true -> is_Some (cm !! c.1).
Proof.
  unfold recipient, in_community, community_for_conn. intros [[Hc%bool_decide_eq_true _]%andb_true_iff _]%andb_true_iff.
  cbn [de_conns quiet_env] in Hc. by destruct (cm !! c.1).
Qed.
(** The access gate followed by the frames, as every path runs them. *)
Lemma gate_then_send registry community call s : fresh s -> is_echo community call s = false ->
  threaded_agrees community (call_stored call) (call_threaded call) ->
  frames (run_live quiet_env registry community call s) =
  frames s ++ ((fun c => Frame c.1 c.2 (se_event (call_stored call))) <$> sent_to registry community call).
Proof.
  intros Hf Hecho Hth. unfold sent_to.
  set (l := List.filter (recipient _ _) _).
  assert (Hl : forall c, c ∈ l -> is_Some (cm !! c.1)).
  { intros c [_ Hc]%list_elem_of_In%filter_In. by eapply recipient_connected. }
  assert (Hsend : forall s0, frames s0 = frames s -> fresh s0 -> forall g, exists s1 s2 n,
    filter_fanout_by_access quiet_env community (call_stored call)
      (fan_out_scoped community (call_stored call) registry) (call_threaded call) s0 = (s1, Ok l) /\
    frames s1 = frames s /\
    send_fanout_frames quiet_env (se_event (call_stored call)) (List.filter g l) s1 = (s2, Ok n) /\
    frames s2 = frames s ++ ((fun c => Frame c.1 c.2 (se_event (call_stored call))) <$> List.filter g l)).
  { intros s0 Hs0 Hf0 g.
    destruct (filter_exact community (call_stored call) (call_threaded call)
                (fan_out_scoped community (call_stored call) registry) s0 Hf0 Hth) as (s1 & Hrun & _ & He1).
    destruct (send_all (se_event (call_stored call)) (List.filter g l) s1) as (s2 & n & Hsend & He2).
    { intros c [Hc _]%list_elem_of_In%filter_In. apply Hl. by apply list_elem_of_In. }
    exists s1, s2, n. apply frames_same in He1. apply frames_app in He2. rewrite frames_all in He2.
    split_and!; [done|congruence|done|congruence]. }
  clearbody l. assert (Hid : forall g, (forall c, g c = true) -> List.filter g l = l).
  { intros g Hg. clear -Hg. induction l as [|c l IH]; [done|]. simpl. rewrite Hg. by f_equal. }
  destruct call as [stored|now topic event|relay stored kind actor threaded];
    cbn [run_live call_stored call_threaded owner_gate is_echo] in *.
  - destruct (Hsend s eq_refl Hf (fun _ => true)) as (s1 & s2 & n & Hrun & Hs1 & Hsnd & Hs2).
    rewrite Hid in Hsnd, Hs2 by done. rewrite Hid by done.
    unfold fan_out_event_to_local_subscribers, m_bind. rewrite Hrun.
    case_bool_decide as Hnil; [rewrite Hnil; cbn; by rewrite app_nil_r|]. rewrite Hsnd. exact Hs2.
  - destruct (Hsend s eq_refl Hf (fun _ => true)) as (s1 & s2 & n & Hrun & Hs1 & Hsnd & Hs2).
    rewrite Hid in Hsnd, Hs2 by done. rewrite Hid by done. apply bool_decide_eq_false in Hecho.
    unfold fan_out_pubsub_event, m_bind, m_get. cbv beta iota zeta. rewrite bool_decide_eq_false_2 by done.
    change (se_event (StoredEvent_new now event _)) with event in Hsnd. rewrite Hrun. case_bool_decide as Hnil; [rewrite Hnil; cbn; by rewrite app_nil_r|]. rewrite Hsnd. exact Hs2.
  - unfold dispatch_persistent_event, dispatch_persistent_event_inner, publish_event, mark_local_event.
    unfold m_bind, m_modify, m_ret. cbn [de_publishes quiet_env].
    match goal with |- context [filter_fanout_by_access _ _ _ _ _ ?s0] => set (s0' := s0) end.
    set (g := owner_gate _).
    destruct (fun Hfr Hf0 => Hsend s0' Hfr Hf0 g) as (s1 & s2 & n & Hrun & Hs1 & Hsnd & Hs2).
    { unfold s0'. rewrite frames_emit by done. rewrite <-(frames_emit (AuditEventCreated community stored kind actor) s) by done.
      by apply frames_same. }
    { by apply fresh_emit, fresh_local, fresh_emit. }
    rewrite Hrun. change (owner_recipient quiet_env _) with g. rewrite Hsnd. destruct (triggers_workflows _ _ _); cbn [fst]; [rewrite frames_emit by done|]; exact Hs2.
Qed.

(** Who may be shown the event: against the tables, a holder of the community, and for each gate
    what the event's kind or channel asks of it. *)
Record entitled (community : Uuid) (stored : StoredEvent) (c : Candidate) : Prop := {
  en_community : ce_community_id <$> cm !! c.1 = Some community;
  en_author : event_kind_u32 (se_event stored) ∈ AUTHOR_ONLY_KINDS ->
    pubkey_for_conn c.1 cm = Some (ev_pubkey (se_event stored));
  en_shared : event_kind_u32 (se_event stored) ∈ SHARED_GATED_KINDS ->
    exists pk, pubkey_for_conn c.1 cm = Some pk /\
      (pk = ev_pubkey (se_event stored) \/
       shared_tags (ev_tags (se_event stored)) = [["shared"; "true"]]);
  en_channel ch : se_channel_id stored = Some ch ->
    exists row, live_channel cdb (community, ch) = Some row /\
      (ch_visibility row <> ChannelVisibility.Private \/
       exists pk, pubkey_for_conn c.1 cm = Some pk /\ is_member community ch pk cdb = true)
}.
Definition owner_entitled (call : LiveCall) (c : Candidate) : Prop :=
  match call with
  | LivePersistent _ stored kind _ _ =>
      forall owner, private_event_owner (se_event stored) kind = Some owner ->
        exists pk, pubkey_for_conn c.1 cm = Some pk /\ to_hex pk = owner
  | _ => True
  end.

Lemma gates_open_spec event c : gates_open event c = true <->
  (event_kind_u32 event ∈ AUTHOR_ONLY_KINDS -> pubkey_for_conn c.1 cm = Some (ev_pubkey event)) /\
  (event_kind_u32 event ∈ SHARED_GATED_KINDS ->
    exists pk, pubkey_for_conn c.1 cm = Some pk /\
      (pk = ev_pubkey event \/ shared_tags (ev_tags event) = [["shared"; "true"]])).
Proof.
  unfold gates_open. rewrite andb_true_iff, !orb_true_iff, !negb_true_iff, <-!mem_kind_true.
  fold (is_shared_gated_kind (event_kind_u32 event)).
  assert (Ha : author_only_recipient quiet_env event c = true <-> pubkey_for_conn c.1 cm = Some (ev_pubkey event)).
  { unfold author_only_recipient, conn_pubkey. cbn [de_conns quiet_env].
    destruct (pubkey_for_conn c.1 cm); [rewrite bool_decide_eq_true|]; naive_solver. }
  assert (Hs : is_shared_gated_kind (event_kind_u32 event) = true ->
            shared_recipient quiet_env event c = true <-> exists pk, pubkey_for_conn c.1 cm = Some pk /\
              (pk = ev_pubkey event \/ shared_tags (ev_tags event) = [["shared"; "true"]])).
  { intros Hk%mem_kind_true. unfold shared_recipient, conn_pubkey. cbn [de_conns quiet_env].
    destruct (pubkey_for_conn c.1 cm) as [pk|]; [|naive_solver].
    case_bool_decide as Hpk; [naive_solver|]. rewrite negb_true_iff, unshared_gate_spec.
    split; [intros [?|[?|?]]; [done|eauto..]|]. intros (pk' & [= <-] & Hor). tauto. }
  rewrite Ha. destruct (mem_kind _ AUTHOR_ONLY_KINDS), (is_shared_gated_kind _);
    rewrite ?Hs by done; naive_solver.
Qed.
Lemma sees_channel_spec community channel c : sees_channel community channel c = true <->
  forall ch, channel = Some ch -> exists row, live_channel cdb (community, ch) = Some row /\
    (ch_visibility row <> ChannelVisibility.Private \/
     exists pk, pubkey_for_conn c.1 cm = Some pk /\ is_member community ch pk cdb = true).
Proof.
  unfold sees_channel. destruct channel as [ch|]; [|done].
  assert (Hr : is_reader community ch c = true <->
            exists pk, pubkey_for_conn c.1 cm = Some pk /\ is_member community ch pk cdb = true).
  { unfold is_reader. destruct (pubkey_for_conn c.1 cm); naive_solver. }
  destruct (live_channel cdb (community, ch)) as [row|] eqn:Hrow.
  - rewrite orb_true_iff, negb_true_iff, bool_decide_eq_false, Hr.
    split; [intros Hv ch' [= <-]; by exists row|]. intros Hv. destruct (Hv ch eq_refl) as (row' & Hrow' & ?). by simplify_eq.
  - split; [done|]. intros Hv. destruct (Hv ch eq_refl) as (row' & Hrow' & _). congruence.
Qed.
Lemma recipient_spec community stored c : recipient community stored c = true <-> entitled community stored c.
Proof.
  unfold recipient, in_community, community_for_conn. cbn [de_conns quiet_env].
  rewrite !andb_true_iff, bool_decide_eq_true, gates_open_spec, sees_channel_spec.
  split; [intros [[? []] ?]; by split|intros []; by split_and!].
Qed.
Lemma owner_gate_spec call c : owner_gate call c = true <-> owner_entitled call c.
Proof.
  unfold owner_gate, owner_entitled, owner_recipient. cbn [de_conns quiet_env].
  destruct call as [| |relay stored kind actor threaded]; [done..|].
  destruct (private_event_owner _ kind) as [owner|]; [|naive_solver].
  destruct (pubkey_for_conn c.1 cm) as [pk|]; [rewrite String.eqb_eq|].
  - split; [intros Ho _ [= <-]; eauto|]. intros Ho. by destruct (Ho owner eq_refl) as (pk' & [= <-] & ?).
  - split; [done|]. intros Ho. by destruct (Ho owner eq_refl) as (pk' & ? & _).
Qed.

(** C25: Against one state of the tables, with caches that agree with it and buffers that have
    room, each of the three paths of an event - fanned out by this pod, stored by it, or brought
    by Redis and not its own - sends one frame to each subscription that matches the event and
    whose holder passes the gates, and no other: the connection is of the event's community, an
    author-only event goes to its author, an unshared persona or team to its author, the event
    of a private channel to members, and, on the path that stores an event and on that one only,
    a viewer-private event to its owner. *)
Theorem live_delivery_exact (registry : SubscriptionRegistry) (community : Uuid)
    (call : LiveCall) (s : Delivery) :
  reachable registry -> fresh s -> is_echo community call s = false ->
  threaded_agrees community (call_stored call) (call_threaded call) ->
  exists l, frames (run_live quiet_env registry community call s) =
              frames s ++ ((fun c => Frame c.1 c.2 (se_event (call_stored call))) <$> l) /\
    NoDup l /\
    (forall c, c ∈ l <-> receives registry community (call_stored call) c /\
                         entitled community (call_stored call) c /\ owner_entitled call c).
Proof.
  intros Hreg Hf Hecho Hth. exists (sent_to registry community call).
  destruct (fan_out_complete community (call_stored call) registry Hreg) as [Hnd Hfan].
  split; [by apply gate_then_send|]. split.
  - by apply NoDup_ListNoDup, List.NoDup_filter, List.NoDup_filter, NoDup_ListNoDup.
  - intros c. unfold sent_to.
    rewrite list_elem_of_In, !filter_In, <-list_elem_of_In, Hfan, recipient_spec, owner_gate_spec. tauto.
Qed.

Lemma start_fresh : fresh delivery_start.
Proof. split; intros k x Hx; cbn in Hx; by rewrite lookup_empty in Hx. Qed.
End exact.

(** * Echoes *)

Section echo.
Context `{A : NostrApi} `{H : HashIter}.

Lemma filter_keeps_marks env community stored matches threaded s :
  local_event_ids (fst (filter_fanout_by_access env community stored matches threaded s)) =
  local_event_ids s.
Proof.
  assert (Hvis : forall db c ch row s0, local_event_ids (fst (channel_visibility_cached db c ch row s0)) =
                                        local_event_ids s0).
  { intros db c ch row s0. unfold channel_visibility_cached. cbn zeta.
    destruct (channel_visibility_cache s0 !! _); [done|]. destruct (match row with Some _ => _ | None => _ end);
      [|done]. by case_bool_decide. }
  assert (Hmem : forall c ch l s0, local_event_ids (fst (members_only env c ch l s0)) = local_event_ids s0).
  { intros c ch l. induction l as [|x l IH]; intros s0; [done|]. cbn [members_only].
    assert (Hk : exists s1 b, keep_member env c ch x s0 = (s1, Ok b) /\
                              local_event_ids s1 = local_event_ids s0).
    { unfold keep_member. destruct (conn_pubkey env 3 x); [|by eexists _, _].
      unfold is_member_cached. cbn zeta. destruct (membership_cache s0 !! _); [by eexists _, _|].
      destruct (with_db _ _); by eexists _, _. }
    destruct Hk as (s1 & b & Hk & He). unfold m_bind. rewrite Hk, <-He, <-(IH s1).
    by destruct (members_only env c ch l s1) as [s2 []]. }
  unfold filter_fanout_by_access. destruct (se_channel_id stored) as [ch|]; [|done].
  set (look := match threaded with Some t => _ | None => _ end).
  assert (Hlook : local_event_ids (fst look) = local_event_ids s).
  { unfold look. destruct threaded as [t|]; [|apply Hvis].
    destruct (bool_decide (tv_community_id t = community) && _); [done|apply Hvis]. }
  clearbody look. destruct look as [s1 [v|e]]; cbn [fst] in *; [|done].
  case_bool_decide; cbn [negb]; [by rewrite Hmem|done].
Qed.

Lemma send_keeps_marks env event l s :
  local_event_ids (fst (send_fanout_frames env event l s)) = local_event_ids s.
Proof.
  revert s. induction l as [|c l IH]; intros s; [done|]. cbn [send_fanout_frames].
  unfold m_bind, send_to_text_bytes. set (taken := _ && _).
  set (s1 := if taken then emit (Frame c.1 c.2 event) s else s).
  assert (He : local_event_ids s1 = local_event_ids s) by (unfold s1; by destruct taken).
  rewrite <-He, <-(IH s1). by destruct (send_fanout_frames env event l s1) as [s2 []].
Qed.

Lemma bind_keeps {B C : Type} (I : Delivery -> Prop) (m : method Delivery DbError B)
    (k : B -> method Delivery DbError C) s :
  I s -> (forall s, I s -> I (fst (m s))) -> (forall b s, I s -> I (fst (k b s))) ->
  I (fst (m_bind m k s)).
Proof.
  intros Hs Hm Hk. unfold m_bind. specialize (Hm s Hs). destruct (m s) as [s1 [b|e]]; [|done].
  by apply Hk.
Qed.

(** An event that was published from here and delivered is not delivered again when it comes back
    from Redis before its mark expires, whatever has changed in between. *)
Theorem echo_suppressed (env env' : DeliveryEnv) (registry registry' : SubscriptionRegistry)
    (community : Uuid) (now kind : Z) (relay : Bytes) (stored : StoredEvent) (actor : string)
    (threaded : option ThreadedChannelVisibility) (topic : EventTopic) (s s1 : Delivery) :
  s1 = run_live env registry community (LivePersistent relay stored kind actor threaded) s ->
  de_publishes env = true ->
  effects (run_live env' registry' community (LiveRemote now topic (se_event stored)) s1) = effects s1.
Proof.
  intros -> Hpub. set (key := ((community, ev_id (se_event stored)) : LocalKey)).
  set (I := fun s => key ∈ local_event_ids s).
  assert (Hin : I (run_live env registry community (LivePersistent relay stored kind actor threaded) s)).
  { cbn [run_live]. unfold dispatch_persistent_event, dispatch_persistent_event_inner.
    unfold m_bind at 1. cbn [m_modify]. unfold m_bind at 1.
    set (s0 := emit _ s). clearbody s0. unfold m_bind at 1. unfold publish_event. rewrite Hpub.
    unfold m_bind at 1. cbn [mark_local_event m_modify].
    set (s2 := emit _ _). assert (H2 : I s2) by (unfold I, s2, key; cbn; set_solver). clearbody s2.
    assert (Hm : forall x s, I s -> I (emit x s)) by done. cbn zeta.
    match goal with |- I (fst (let '(_, _) := ?m s2 in _)) =>
      enough (Hmm : I (fst (m s2))) by (by destruct (m s2) as [s3 []]) end.
    apply bind_keeps; [done|intros s3; unfold I; by rewrite filter_keeps_marks|]. intros out s3 H3.
    apply bind_keeps; [done|intros s4; unfold I; by rewrite send_keeps_marks|]. intros n s4 H4.
    apply bind_keeps; [done|done|]. intros [] s5 H5.
    apply bind_keeps; [done| |done]. intros s6 H6. by destruct (triggers_workflows _ _ _). }
  set (s3 := run_live env registry community _ s) in *. clearbody s3. unfold I, key in Hin.
  cbn [run_live]. unfold fan_out_pubsub_event, m_bind at 1. cbn [m_get].
  by rewrite bool_decide_eq_true_2.
Qed.
End echo.

(** * Concrete deliveries *)

Module DeliveryExample.
#[local] Existing Instance Reference.api.
#[local] Existing Instance map_to_list_iter.
Import MembershipExample ReadExample.

(** Alice and mallory are connected and both subscribe to the private channel of alice, and to
    one event by its id. *)
Definition conns : ConnectionManager :=
  <[1%N := mkConnEntry 1%N (Some alice)]> {[2%N := mkConnEntry 1%N (Some mallory)]}.
Definition vault_messages : Filter :=
  mkFilter None None (Some [9]) None None {[("h"%char, false) := ["8"]]} None None.
Definition metric_id : Bytes := replicate 32 Byte.x07.
Definition by_id : Filter := mkFilter (Some [metric_id]) None None None None ∅ None None.
Definition subscribe (conn : ConnId) (sub : SubId) (f : Filter) (ch : option Uuid)
    (r : SubscriptionRegistry) : SubscriptionRegistry := (register_scoped 1%N conn sub [f] ch r).1.
Definition registry : SubscriptionRegistry :=
  subscribe 2%N "s" vault_messages (Some 8%N) (subscribe 1%N "s" vault_messages (Some 8%N) registry_new).
Definition id_registry : SubscriptionRegistry :=
  subscribe 2%N "m" by_id None (subscribe 1%N "m" by_id None registry_new).
Definition secret : StoredEvent := mkStored (row_event k2 r2) 60 (Some 8%N) true.
(** A turn metric for alice. *)
Definition metric : Event :=
  mkEvent metric_id (replicate 32 Byte.x09) 50 KIND_AGENT_TURN_METRIC [["p"; to_hex alice]] "..".
Definition quiet : DeliveryEnv := quiet_env conns cdb.

Lemma registry_reachable : reachable registry.
Proof.
  apply (rtc_l _ _ (subscribe 1%N "s" vault_messages (Some 8%N) registry_new)); [apply step_register|].
  apply (rtc_l _ _ registry); [apply step_register|]. apply rtc_refl.
Qed.
Lemma id_registry_reachable : reachable id_registry.
Proof.
  apply (rtc_l _ _ (subscribe 1%N "m" by_id None registry_new)); [apply step_register|].
  apply (rtc_l _ _ id_registry); [apply step_register|]. apply rtc_refl.
Qed.
Example secret_goes_to_alice :
  effects (run_live quiet registry 1%N (LiveLocal secret) delivery_start)
  = [Frame 1%N "s" (row_event k2 r2)].
Proof. vm_compute. reflexivity. Qed.

(** The owner of a turn metric is looked up on the persistent path only: a relay that receives
    the event through Redis sends it to everyone who asked for its id. *)
Definition metric_call : LiveCall :=
  LivePersistent [] (mkStored metric 0 None true) KIND_AGENT_TURN_METRIC "" None.
Lemma metric_frames :
  frames (run_live quiet id_registry 1%N metric_call delivery_start) = [Frame 1%N "m" metric].
Proof. vm_compute. reflexivity. Qed.
Example remote_path_leaks_metrics :
  effects (run_live quiet id_registry 1%N (LiveRemote 0 TopicGlobal metric) delivery_start)
  = [Frame 1%N "m" metric; Frame 2%N "m" metric].
Proof. vm_compute. reflexivity. Qed.

End DeliveryExample.

Lemma live_delivery_exact_witness :
  exists l, [Frame 1%N "m" DeliveryExample.metric] =
              [] ++ ((fun c => Frame c.1 c.2 DeliveryExample.metric) <$> l) /\
    NoDup l /\
    forall c, c ∈ l <->
      receives (A := Reference.api) DeliveryExample.id_registry 1%N (mkStored DeliveryExample.metric 0 None true) c /\
      entitled DeliveryExample.conns ReadExample.cdb 1%N (mkStored DeliveryExample.metric 0 None true) c /\
      owner_entitled (A := Reference.api) DeliveryExample.conns DeliveryExample.metric_call c.
Proof.
  rewrite <-DeliveryExample.metric_frames.
  refine (live_delivery_exact (A := Reference.api) (L := Reference.laws) (H := map_to_list_iter) DeliveryExample.conns
            ReadExample.cdb DeliveryExample.id_registry 1%N DeliveryExample.metric_call delivery_start
            DeliveryExample.id_registry_reachable (start_fresh ReadExample.cdb) eq_refl _).
  discriminate.
Defined.

Lemma echo_suppressed_witness :
  effects (run_live (H := Reference.api) (H0 := map_to_list_iter) DeliveryExample.quiet DeliveryExample.id_registry 1%N
    (LiveRemote 0 TopicGlobal DeliveryExample.metric)
    (run_live (H := Reference.api) (H0 := map_to_list_iter) DeliveryExample.quiet DeliveryExample.id_registry 1%N
       (LivePersistent [] (mkStored DeliveryExample.metric 0 None true) KIND_AGENT_TURN_METRIC "" None)
       delivery_start)) =
  effects (run_live (H := Reference.api) (H0 := map_to_list_iter) DeliveryExample.quiet DeliveryExample.id_registry 1%N
    (LivePersistent [] (mkStored DeliveryExample.metric 0 None true) KIND_AGENT_TURN_METRIC "" None)
    delivery_start).
Proof.
  refine (echo_suppressed (A := Reference.api) (H := map_to_list_iter) DeliveryExample.quiet
            DeliveryExample.quiet DeliveryExample.id_registry DeliveryExample.id_registry 1%N 0
            KIND_AGENT_TURN_METRIC [] (mkStored DeliveryExample.metric 0 None true) "" None TopicGlobal
            delivery_start _ eq_refl eq_refl).
Defined.
