(* ===== verification/Programs.v ===== *)
(** Asynchronous code as programs: trees of operations on a shared world, run by several
    tasks one operation at a time, and a rely-guarantee logic for them.

    An [async fn] awaits operations (requests to a server, subprocesses, shared caches);
    between two of them other tasks run.  A program says which operation it asks for next
    and how it goes on with the reply.  [holds] states what a program guarantees to the
    other tasks and what its result satisfies, whatever they do between its operations;
    [tasks_hold] lifts this to every reachable state of a system of tasks. *)
From S2P Require Import Prelude.
From stdpp Require Import relations.
Local Open Scope list_scope.

(** The operations on a world.  [respond o f w] is the reply of [o] and the world after it
    when the environment behaves as [f] says (it may fail, lose a reply, ...); [None] when
    it cannot behave so. *)
Class Machine (Op World Fault : Type) := {
  Reply : Op -> Type;
  respond (o : Op) (f : Fault) (w : World) : option (Reply o * World);
}.

Section programs.
Context {Op World Fault : Type} {M : Machine Op World Fault}.

Inductive prog (A : Type) : Type :=
| Ret (a : A)
| Call (o : Op) (k : Reply o -> prog A).
Arguments Ret {A} a.
Arguments Call {A} o k.

Definition perform (o : Op) : prog (Reply o) := Call o Ret.

Fixpoint bind {A B : Type} (p : prog A) (k : A -> prog B) : prog B :=
  match p with
  | Ret a => k a
  | Call o c => Call o (fun r => bind (c r) k)
  end.

(** [p.await?] in a function that returns a [Result]. *)
Definition try_bind {A B E : Type} (p : prog (result A E)) (k : A -> prog (result B E))
  : prog (result B E) :=
  bind p (fun r => match r with Ok a => k a | Err e => Ret (Err e) end).

(** [r?] on a value. *)
Definition try {A B E : Type} (r : result A E) (k : A -> prog (result B E))
  : prog (result B E) :=
  match r with Ok a => k a | Err e => Ret (Err e) end.

(** [p.await.map_err(f)] *)
Definition prog_map_err {A E F : Type} (f : E -> F) (p : prog (result A E))
  : prog (result A F) :=
  bind p (fun r => Ret (map_err f r)).

(** Every operation [p] asks for satisfies [P]. *)
Fixpoint only {A : Type} (P : Op -> Prop) (p : prog A) : Prop :=
  match p with Ret _ => True | Call o k => P o /\ forall r, only P (k r) end.

Lemma only_bind {A B : Type} P (p : prog A) (k : A -> prog B) :
  only P p -> (forall a, only P (k a)) -> only P (bind p k).
Proof. intros Hp Hk. induction p as [a|o c IH]; [apply Hk|]. destruct Hp. split; naive_solver. Qed.

Lemma only_try {A B E : Type} P (p : prog (result A E)) (k : A -> prog (result B E)) :
  only P p -> (forall a, only P (k a)) -> only P (try_bind p k).
Proof. intros Hp Hk. apply only_bind; [done|]. intros [a|e]; simpl; [apply Hk|done]. Qed.

Lemma only_map_err {A E F : Type} P (f : E -> F) (p : prog (result A E)) :
  only P p -> only P (prog_map_err f p).
Proof. intros Hp. apply only_bind; [done|]. by intros [a|e]. Qed.

Lemma only_weaken {A : Type} (P Q : Op -> Prop) (p : prog A) :
  (forall o, P o -> Q o) -> only P p -> only Q p.
Proof. intros H. induction p as [a|o c IH]; [done|]. intros [Ho Hc]. split; [by apply H|naive_solver]. Qed.

(** * What a program asks for

    While the world satisfies [I] whenever the program performs an operation, every operation
    satisfies [P] and the result satisfies [Q]. *)
Fixpoint asks {A : Type} (I : World -> Prop) (P : Op -> Prop) (Q : A -> Prop) (p : prog A) : Prop :=
  match p with
  | Ret a => Q a
  | Call o k => P o /\ forall w f r w', I w -> respond o f w = Some (r, w') -> asks I P Q (k r)
  end.

Section asks.
Context {I : World -> Prop} {P : Op -> Prop}.

Lemma asks_ret {A : Type} (Q : A -> Prop) a : Q a -> asks I P Q (Ret a).
Proof. done. Qed.
Lemma asks_perform (o : Op) (Q : Reply o -> Prop) :
  P o -> (forall w f r w', I w -> respond o f w = Some (r, w') -> Q r) -> asks I P Q (perform o).
Proof. done. Qed.
Lemma asks_any (o : Op) : P o -> asks I P (fun _ => True) (perform o).
Proof. done. Qed.

Lemma asks_bind {A B : Type} (R : A -> Prop) (Q : B -> Prop) (p : prog A) (k : A -> prog B) :
  asks I P R p -> (forall a, R a -> asks I P Q (k a)) -> asks I P Q (bind p k).
Proof.
  intros Hp Hk. induction p as [a|o c IH]; [by apply Hk|]. destruct Hp as [Ho Hc].
  split; [done|]. intros w f r w' Hw Hr. apply IH, (Hc w f r w' Hw Hr).
Qed.
Lemma asks_weaken {A : Type} (Q Q' : A -> Prop) (p : prog A) :
  asks I P Q p -> (forall a, Q a -> Q' a) -> asks I P Q' p.
Proof.
  intros Hp HQ. induction p as [a|o c IH]; [by apply HQ|]. destruct Hp as [Ho Hc].
  split; [done|]. intros w f r w' Hw Hr. apply IH, (Hc w f r w' Hw Hr).
Qed.
(** An error is any error. *)
Definition ok_only {A E : Type} (Q : A -> Prop) (r : result A E) : Prop :=
  match r with Ok a => Q a | Err _ => True end.
Lemma asks_try {A B E : Type} (R : A -> Prop) (Q : B -> Prop) (p : prog (result A E))
    (k : A -> prog (result B E)) :
  asks I P (ok_only R) p -> (forall a, R a -> asks I P (ok_only Q) (k a)) ->
  asks I P (ok_only Q) (try_bind p k).
Proof. intros Hp Hk. eapply asks_bind; [exact Hp|]. intros [a|e] Ha; [by apply Hk|done]. Qed.
Lemma asks_try_value {A B E : Type} (Q : B -> Prop) (r : result A E) (k : A -> prog (result B E)) :
  (forall a, r = Ok a -> asks I P (ok_only Q) (k a)) -> asks I P (ok_only Q) (try r k).
Proof. destruct r as [a|e]; simpl; [|done]. intros H. by apply H. Qed.
Lemma asks_map_err {A E F : Type} (Q : A -> Prop) (f : E -> F) (p : prog (result A E)) :
  asks I P (ok_only Q) p -> asks I P (ok_only Q) (prog_map_err f p).
Proof. intros Hp. eapply asks_bind; [exact Hp|]. by intros [a|e]. Qed.
Lemma asks_only {A : Type} (p : prog A) : only P p -> asks I P (fun _ => True) p.
Proof. induction p as [a|o c IH]; [done|]. intros [Ho Hc]. split; [done|]. intros. by apply IH. Qed.
Lemma asks_if {A : Type} (Q : A -> Prop) (b : bool) (p q : prog A) :
  (b = true -> asks I P Q p) -> (b = false -> asks I P Q q) -> asks I P Q (if b then p else q).
Proof. destruct b; auto. Qed.
End asks.

Lemma asks_allowed {A : Type} (I : World -> Prop) (P P' : Op -> Prop) (Q : A -> Prop) (p : prog A) :
  (forall o, P o -> P' o) -> asks I P Q p -> asks I P' Q p.
Proof.
  intros H. induction p as [a|o c IH]; [done|]. intros [Ho Hc].
  split; [by apply H|]. intros w f r w' Hw Hr. apply IH, (Hc w f r w' Hw Hr).
Qed.

(** * What a program guarantees *)

(** [evolves w w'] is what a task relies on between its operations and guarantees by each of
    them; [inv] is what holds of the world between operations. *)
Class RelyGuarantee := {
  inv : World -> Prop;
  evolves : World -> World -> Prop;
  evolves_preorder :: PreOrder evolves;
}.
Context {G : RelyGuarantee}.

Fixpoint holds {A : Type} (p : prog A) (Q : A -> World -> Prop) (w : World) : Prop :=
  match p with
  | Ret a => forall w', evolves w w' -> inv w' -> Q a w'
  | Call o k => forall w' f r w'', evolves w w' -> inv w' -> respond o f w' = Some (r, w'') ->
      inv w'' /\ evolves w' w'' /\ holds (k r) Q w''
  end.

Lemma holds_later {A : Type} (p : prog A) Q w w' : evolves w w' -> holds p Q w -> holds p Q w'.
Proof.
  intros Hw. destruct p as [a|o k]; simpl.
  - intros H w'' Hw''. apply H. by etransitivity.
  - intros H w1 f r w2 Hw1. apply H. by etransitivity.
Qed.

Lemma holds_ret {A : Type} (a : A) (Q : A -> World -> Prop) w :
  (forall w', evolves w w' -> inv w' -> Q a w') -> holds (Ret a) Q w.
Proof. done. Qed.

Lemma holds_bind {A B : Type} (p : prog A) (k : A -> prog B) Q w :
  inv w -> holds p (fun a => holds (k a) Q) w -> holds (bind p k) Q w.
Proof.
  revert w. induction p as [a|o c IH]; simpl; intros w Hw H.
  - by apply H.
  - intros w' f r w'' Hw' Hinv Hr. destruct (H w' f r w'' Hw' Hinv Hr) as (H1 & H2 & H3).
    split_and!; [done..|]. by apply IH.
Qed.

Lemma holds_weaken {A : Type} (p : prog A) (Q Q' : A -> World -> Prop) w :
  holds p Q w -> (forall a w', evolves w w' -> inv w' -> Q a w' -> Q' a w') -> holds p Q' w.
Proof.
  revert w. induction p as [a|o k IH]; simpl; intros w H HQ.
  - intros w' Hw' Hinv. by apply HQ, H.
  - intros w' f r w'' Hw' Hinv Hr. destruct (H w' f r w'' Hw' Hinv Hr) as (H1 & H2 & H3).
    split_and!; [done..|]. apply (IH _ _ H3). intros a w3 Hw3. apply HQ.
    by do 2 (etransitivity; [done|]).
Qed.

Lemma holds_perform (o : Op) (Q : Reply o -> World -> Prop) w :
  (forall w' f r w'', evolves w w' -> inv w' -> respond o f w' = Some (r, w'') ->
    inv w'' /\ evolves w' w'' /\ forall w3, evolves w'' w3 -> inv w3 -> Q r w3) ->
  holds (perform o) Q w.
Proof. done. Qed.

(** What holds of a result that is not an error. *)
Definition ok_then {A E : Type} (P : A -> World -> Prop) (r : result A E) (w : World) : Prop :=
  match r with Ok a => P a w | Err _ => True end.

Lemma holds_ret_ok {A E : Type} (a : A) (P : A -> World -> Prop) w :
  (forall w', evolves w w' -> inv w' -> P a w') -> holds (Ret (Ok (E := E) a)) (ok_then P) w.
Proof. done. Qed.
Lemma holds_ret_err {A E : Type} (e : E) (P : A -> World -> Prop) w :
  holds (Ret (Err e)) (ok_then P) w.
Proof. done. Qed.

(** The rule for [.await?]: an error is the result. *)
Lemma holds_try {A B E : Type} (p : prog (result A E)) (k : A -> prog (result B E))
    (P : A -> World -> Prop) (Q : B -> World -> Prop) w :
  inv w -> holds p (ok_then P) w ->
  (forall a w', evolves w w' -> inv w' -> P a w' -> holds (k a) (ok_then Q) w') ->
  holds (try_bind p k) (ok_then Q) w.
Proof.
  intros Hinv Hp Hk. apply holds_bind; [done|]. apply (holds_weaken _ _ _ _ Hp).
  intros [a|e] w' Hw' Hinv' HP; [|by intros w'' _ _]. by apply Hk.
Qed.

Lemma holds_map_err {A E F : Type} (f : E -> F) (p : prog (result A E)) (P : A -> World -> Prop) w :
  inv w -> holds p (ok_then P) w -> (forall a w' w'', evolves w' w'' -> inv w'' -> P a w' -> P a w'') ->
  holds (prog_map_err f p) (ok_then P) w.
Proof.
  intros Hinv Hp HP. apply holds_bind; [done|]. apply (holds_weaken _ _ _ _ Hp).
  intros [a|e] w' Hw' Hinv' Ha; [|done]. intros w'' Hw'' Hinv''. by apply (HP a w').
Qed.

(** A program whose operations all keep the guarantee. *)
Lemma asks_holds {A : Type} (I : World -> Prop) (P : Op -> Prop) (Q : A -> Prop) (p : prog A) w :
  (forall w, inv w -> I w) ->
  (forall o w1 f r w2, P o -> evolves w w1 -> inv w1 -> respond o f w1 = Some (r, w2) ->
    inv w2 /\ evolves w1 w2) ->
  asks I P Q p -> holds p (fun a _ => Q a) w.
Proof.
  intros HI HP. revert w HP. induction p as [a|o k IH]; intros w HP Hp; [by intros w' _ _|].
  destruct Hp as [Ho Hk]. intros w' f r w'' Hw' Hinv Hr.
  destruct (HP o w' f r w'' Ho Hw' Hinv Hr) as [H1 H2]. split_and!; [done..|].
  apply IH; [|by eapply Hk, Hr; apply HI]. intros o' w1 f' r' w2 Ho' Hw1. apply HP; [done|].
  do 2 (etransitivity; [done|]). done.
Qed.

(** * What a program delivers

    [normal o] is how the environment behaves at [o] when nothing fails.  [delivers] says
    that, whatever the other tasks do, the program then ends with a result that satisfies
    [Q]. *)
Context (normal : Op -> Fault).

Fixpoint delivers {A : Type} (p : prog A) (Q : A -> World -> Prop) (w : World) : Prop :=
  match p with
  | Ret a => forall w', evolves w w' -> inv w' -> Q a w'
  | Call o k => forall w', evolves w w' -> inv w' ->
      exists r w'', respond o (normal o) w' = Some (r, w'') /\
        inv w'' /\ evolves w' w'' /\ delivers (k r) Q w''
  end.

(** A program whose operations are all answered ends with what it guarantees. *)
Lemma holds_delivers {A : Type} (p : prog A) Q w :
  only (fun o => forall w, exists r w', respond o (normal o) w = Some (r, w')) p ->
  holds p Q w -> delivers p Q w.
Proof.
  revert w. induction p as [a|o k IH]; [done|]. simpl. intros w [Ho Hk] H w' Hw' Hinv.
  destruct (Ho w') as (r & w'' & Hr). exists r, w''.
  destruct (H w' _ r w'' Hw' Hinv Hr) as (H1 & H2 & H3). split_and!; [done..|]. by apply IH.
Qed.

Lemma delivers_bind {A B : Type} (p : prog A) (k : A -> prog B) Q w :
  inv w -> delivers p (fun a => delivers (k a) Q) w -> delivers (bind p k) Q w.
Proof.
  revert w. induction p as [a|o c IH]; simpl; intros w Hinv H.
  - by apply H.
  - intros w' Hw' Hinv'. destruct (H w' Hw' Hinv') as (r & w'' & Hr & H1 & H2 & H3).
    exists r, w''. split_and!; [done..|]. by apply IH.
Qed.

Lemma delivers_weaken {A : Type} (p : prog A) (Q Q' : A -> World -> Prop) w :
  delivers p Q w -> (forall a w', evolves w w' -> inv w' -> Q a w' -> Q' a w') -> delivers p Q' w.
Proof.
  revert w. induction p as [a|o k IH]; simpl; intros w H HQ.
  - intros w' Hw' Hinv. by apply HQ, H.
  - intros w' Hw' Hinv. destruct (H w' Hw' Hinv) as (r & w'' & Hr & H1 & H2 & H3).
    exists r, w''. split_and!; [done..|]. apply (IH _ _ H3). intros a w3 Hw3. apply HQ.
    by do 2 (etransitivity; [done|]).
Qed.

Definition ok_with {A E : Type} (P : A -> World -> Prop) (r : result A E) (w : World) : Prop :=
  match r with Ok a => P a w | Err _ => False end.

Lemma delivers_try {A B E : Type} (p : prog (result A E)) (k : A -> prog (result B E))
    (P : A -> World -> Prop) (Q : result B E -> World -> Prop) w :
  inv w -> delivers p (ok_with P) w ->
  (forall a w', evolves w w' -> inv w' -> P a w' -> delivers (k a) Q w') ->
  delivers (try_bind p k) Q w.
Proof.
  intros Hinv Hp Hk. apply delivers_bind; [done|]. apply (delivers_weaken _ _ _ _ Hp).
  intros [a|e] w' Hw' Hinv' HP; [|done]. by apply Hk.
Qed.

Lemma delivers_map_err {A E F : Type} (f : E -> F) (p : prog (result A E)) (P : A -> World -> Prop) w :
  inv w -> delivers p (ok_with P) w ->
  (forall a w' w'', evolves w' w'' -> inv w'' -> P a w' -> P a w'') ->
  delivers (prog_map_err f p) (ok_with P) w.
Proof.
  intros Hinv Hp HP. apply delivers_bind; [done|]. apply (delivers_weaken _ _ _ _ Hp).
  intros [a|e] w' Hw' Hinv' Ha; [|done]. intros w'' Hw'' Hinv''. by apply (HP a w').
Qed.

(** * A system of tasks

    [Req] are the requests tasks are started for and [program q] the code that serves [q]. *)
Context {Req Out : Type} (program : Req -> prog Out).

Record System := {
  world : World;
  tasks : gmap nat (Req * prog Out);
}.

Inductive Event :=
| Spawn (i : nat) (q : Req)
| Step (i : nat) (f : Fault).

Definition act (e : Event) (s : System) : option System :=
  match e with
  | Spawn i q =>
      match tasks s !! i with
      | Some _ => None
      | None => Some {| world := world s; tasks := <[i := (q, program q)]> (tasks s) |}
      end
  | Step i f =>
      match tasks s !! i with
      | Some (q, Call o k) =>
          match respond o f (world s) with
          | Some (r, w') => Some {| world := w'; tasks := <[i := (q, k r)]> (tasks s) |}
          | None => None
          end
      | _ => None
      end
  end.

Fixpoint act_all (es : list Event) (s : System) : option System :=
  match es with
  | [] => Some s
  | e :: es' => match act e s with Some s' => act_all es' s' | None => None end
  end.

Definition system_step (s s' : System) : Prop := exists e, act e s = Some s'.
Definition from_world (w : World) : System := {| world := w; tasks := ∅ |}.
Definition reachable (w0 : World) (s : System) : Prop := rtc system_step (from_world w0) s.

(** What task [i] of [s] was started for and what it has returned. *)
Definition finished (s : System) (i : nat) (q : Req) (out : Out) : Prop :=
  tasks s !! i = Some (q, Ret out).

Definition sound (spec : Req -> Out -> World -> Prop) (s : System) : Prop :=
  inv (world s) /\
  forall i q p, tasks s !! i = Some (q, p) -> holds p (spec q) (world s).

(** Tasks stay in the table: the requests served so far are those of the tasks. *)
Definition requests (s : System) (R : Req -> Prop) : Prop :=
  forall i q p, tasks s !! i = Some (q, p) -> R q.
Lemma act_requests e s s' R : act e s = Some s' -> requests s' R -> requests s R.
Proof.
  intros Hact HR i q p Hi. destruct e as [j q'|j f]; simpl in Hact.
  - destruct (tasks s !! j) eqn:Hj; [done|]. injection Hact as <-.
    apply (HR i q p). simpl. rewrite lookup_insert_ne; [done|congruence].
  - destruct (tasks s !! j) as [[q' [a|o k]]|] eqn:Hj; [done| |done].
    destruct (respond o f (world s)) as [[r w']|]; [|done]. injection Hact as <-.
    destruct (decide (j = i)) as [->|Hne].
    + rewrite Hj in Hi. injection Hi as <- <-. apply (HR i q' (k r)). simpl. by rewrite lookup_insert_eq.
    + apply (HR i q p). simpl. by rewrite lookup_insert_ne.
Qed.

Lemma act_sound (R : Req -> Prop) spec e s s' :
  (forall q w, R q -> inv w -> holds (program q) (spec q) w) ->
  act e s = Some s' -> requests s' R -> sound spec s -> sound spec s' /\ evolves (world s) (world s').
Proof.
  intros Hprog Hact HR [Hinv Htasks]. destruct e as [i q|i f]; simpl in Hact.
  - destruct (tasks s !! i) eqn:Hi; [done|]. injection Hact as <-. split; [|reflexivity].
    split; [done|]. simpl. intros j q' p.
    destruct (decide (i = j)) as [->|Hne]; [rewrite lookup_insert_eq|rewrite lookup_insert_ne by done].
    + intros [= <- <-]. apply Hprog; [|done]. apply (HR j q (program q)). simpl. by rewrite lookup_insert_eq.
    + apply Htasks.
  - destruct (tasks s !! i) as [[q [a|o k]]|] eqn:Hi; [done| |done].
    destruct (respond o f (world s)) as [[r w']|] eqn:Hr; [|done]. injection Hact as <-.
    destruct (Htasks _ _ _ Hi (world s) f r w') as (H1 & H2 & H3); [reflexivity|done|done|].
    split; [|done]. split; [done|]. simpl. intros j q' p.
    destruct (decide (i = j)) as [->|Hne]; [rewrite lookup_insert_eq|rewrite lookup_insert_ne by done].
    + by intros [= <- <-].
    + intros Hj. apply (holds_later _ _ (world s)); [done|]. by apply (Htasks j).
Qed.

(** Every task keeps what it guarantees, in every interleaving. *)
Lemma requests_hold (R : Req -> Prop) spec w0 s :
  (forall q w, R q -> inv w -> holds (program q) (spec q) w) ->
  inv w0 -> reachable w0 s -> requests s R -> sound spec s.
Proof.
  intros Hprog Hw0. unfold reachable. intros Hs.
  revert s Hs. apply (rtc_ind_r (fun s => requests s R -> sound spec s)).
  - intros _. split; [done|]. intros i q p. simpl. by rewrite lookup_empty.
  - intros s s' _ [e Hact] Hs HR. apply (act_sound R spec e s s'); [done..|].
    by apply Hs, (act_requests e s s').
Qed.
Lemma tasks_hold spec w0 s :
  (forall q w, inv w -> holds (program q) (spec q) w) ->
  inv w0 -> reachable w0 s -> sound spec s.
Proof. intros Hprog Hw0 Hs. apply (requests_hold (fun _ => True) spec w0); auto. by intros i q p _. Qed.

Lemma sound_finished spec s i q out :
  sound spec s -> finished s i q out -> spec q out (world s).
Proof. intros [Hinv Hs] Hi. by apply (Hs _ _ _ Hi). Qed.

Lemma act_all_reachable w0 es s : act_all es (from_world w0) = Some s -> reachable w0 s.
Proof.
  unfold reachable. generalize (from_world w0). induction es as [|e es IH]; intros s0; simpl.
  - by intros [= ->].
  - destruct (act e s0) as [s1|] eqn:He; [|done]. intros H.
    eapply rtc_l; [by exists e|]. by apply IH.
Qed.

(** Running task [i] alone for at most [n] operations, the environment behaving as [f] says. *)
Fixpoint drive (n : nat) (f : Op -> Fault) (i : nat) (s : System) : option System :=
  match n with
  | O => Some s
  | S n' =>
      match tasks s !! i with
      | Some (_, Call o _) =>
          match act (Step i (f o)) s with Some s' => drive n' f i s' | None => None end
      | _ => Some s
      end
  end.

Lemma drive_steps n f i s s' : drive n f i s = Some s' -> rtc system_step s s'.
Proof.
  revert s. induction n as [|n IH]; intros s; cbn [drive]; [by intros [= ->]|].
  destruct (tasks s !! i) as [[q [a|o k]]|]; [by intros [= ->]| |by intros [= ->]].
  destruct (act (Step i (f o)) s) as [s1|] eqn:Ha; [|done]. intros H.
  eapply rtc_l; [by exists (Step i (f o))|]. by apply IH.
Qed.

(** What task [i] has returned. *)
Definition outcome (i : nat) (s : System) : option (Req * Out) :=
  match tasks s !! i with Some (q, Ret out) => Some (q, out) | _ => None end.

Lemma outcome_finished i s q out : outcome i s = Some (q, out) -> finished s i q out.
Proof.
  unfold outcome, finished. destruct (tasks s !! i) as [[q' [a|o k]]|]; [|done..]. by intros [= -> ->].
Qed.

(** The moves of a scenario: requests that start, and tasks that run alone for some
    operations. *)
Inductive Move :=
| Start (i : nat) (q : Req)
| Run (i n : nat) (f : Op -> Fault).
Fixpoint play (moves : list Move) (s : System) : option System :=
  match moves with
  | [] => Some s
  | Start i q :: moves' =>
      match act (Spawn i q) s with Some s' => play moves' s' | None => None end
  | Run i n f :: moves' =>
      match drive n f i s with Some s' => play moves' s' | None => None end
  end.

Lemma play_reachable moves w0 s : play moves (from_world w0) = Some s -> reachable w0 s.
Proof.
  unfold reachable. generalize (from_world w0).
  induction moves as [|[i q|i n f] moves IH]; intros s0; cbn [play]; [by intros [= ->]|..].
  - destruct (act (Spawn i q) s0) as [s1|] eqn:Hs; [|done]. intros H.
    eapply rtc_l; [by exists (Spawn i q)|by apply IH].
  - destruct (drive n f i s0) as [s1|] eqn:Hs; [|done]. intros H.
    etransitivity; [by eapply drive_steps|by apply IH].
Qed.

(** The end of a scenario that can be played. *)
Definition end_from (w0 : World) (moves : list Move) : System :=
  match play moves (from_world w0) with Some s => s | None => from_world w0 end.
Definition playable (w0 : World) (moves : list Move) : bool :=
  match play moves (from_world w0) with Some _ => true | None => false end.
Lemma end_reachable w0 moves : playable w0 moves = true -> reachable w0 (end_from w0 moves).
Proof.
  unfold playable, end_from. destruct (play moves _) as [s|] eqn:Hs; [|done]. intros _.
  by apply (play_reachable moves).
Qed.

(** The requests of a scenario are those it starts. *)
Definition starts (R : Req -> Prop) (m : Move) : Prop := match m with Start _ q => R q | Run _ _ _ => True end.
Lemma act_starts (R : Req -> Prop) e s s' : (forall i q, e = Spawn i q -> R q) ->
  act e s = Some s' -> requests s R -> requests s' R.
Proof.
  intros He Hact HR j q p. destruct e as [i q'|i f]; simpl in Hact.
  - destruct (tasks s !! i) eqn:Hi; [done|]. injection Hact as <-. simpl.
    intros [[<- [= <- <-]]|[_ Hj]]%lookup_insert_Some; [by eapply He|by apply (HR j q p)].
  - destruct (tasks s !! i) as [[q' [a|o k]]|] eqn:Hi; [done| |done].
    destruct (respond o f (world s)) as [[r w']|]; [|done]. injection Hact as <-. simpl.
    intros [[<- [= <- <-]]|[_ Hj]]%lookup_insert_Some; [by apply (HR i q' _ Hi)|by apply (HR j q p)].
Qed.
Lemma drive_starts R n f i s s' : drive n f i s = Some s' -> requests s R -> requests s' R.
Proof.
  revert s. induction n as [|n IH]; intros s; cbn [drive]; [by intros [= ->]|].
  destruct (tasks s !! i) as [[q [a|o k]]|]; [by intros [= ->]| |by intros [= ->]].
  destruct (act (Step i (f o)) s) as [s1|] eqn:Ha; [|done]. intros Hd HR. apply (IH s1 Hd).
  by apply (act_starts R _ s s1) in Ha.
Qed.
Lemma play_starts R moves s s' : Forall (starts R) moves -> play moves s = Some s' -> requests s R -> requests s' R.
Proof.
  intros Hm. revert s. induction Hm as [|[i q|i n f] moves Hq _ IH]; intros s; cbn [play]; [by intros [= ->]|..].
  - destruct (act (Spawn i q) s) as [s1|] eqn:Ha; [|done]. intros Hp HR. apply (IH s1 Hp).
    apply (act_starts R _ s s1) in Ha; [done| |done]. by intros j q' [= <- <-].
  - destruct (drive n f i s) as [s1|] eqn:Hd; [|done]. intros Hp HR. by eapply IH, drive_starts.
Qed.
Lemma end_starts R w0 moves : Forall (starts R) moves -> requests (end_from w0 moves) R.
Proof.
  intros Hm. assert (H0 : requests (from_world w0) R) by (intros i q p; simpl; by rewrite lookup_empty).
  unfold end_from. destruct (play moves (from_world w0)) as [s|] eqn:Hs; [|done]. by eapply play_starts.
Qed.

End programs.

Arguments prog {Op World Fault M} A.
Arguments Ret {Op World Fault M A} a.
Arguments Call {Op World Fault M A} o k.
Arguments RelyGuarantee World : clear implicits.
Arguments System {Op World Fault M} Req Out.
Arguments Move {Op Fault} Req.
Arguments Start {Op Fault Req} i q.
Arguments Run {Op Fault Req} i n f.

Notation "'await' x <- p ;; k" := (bind p (fun x => k))
  (at level 10, x pattern, p at level 99, k at level 200) : buzz_scope.
Notation "'await?' x <- p ;; k" := (try_bind p (fun x => k))
  (at level 10, x pattern, p at level 99, k at level 200) : buzz_scope.
Notation "'try?' x := r 'in' k" := (try r (fun x => k))
  (at level 10, x pattern, r at level 100, k at level 200) : buzz_scope.

Section invariants.
Context {Op World Fault : Type} {M : Machine Op World Fault}.
Context {Req Out : Type} (program : Req -> prog Out).

(** * Invariants of a system *)

(** What every operation that the requests ask for keeps is so in every reachable state. *)
Definition keeping (I : World -> Prop) : RelyGuarantee World :=
  {| inv := I; evolves := fun _ _ => True; evolves_preorder := Build_PreOrder _ (fun _ => Logic.I) (fun _ _ _ _ _ => Logic.I) |}.
Lemma requests_keep (I : World -> Prop) (R : Req -> Prop) (P : Req -> Op -> Prop) w0 s :
  (forall q, R q -> asks I (P q) (fun _ => True) (program q)) ->
  (forall q o w f r w', R q -> P q o -> I w -> respond o f w = Some (r, w') -> I w') ->
  I w0 -> reachable program w0 s -> requests s R -> I (world s).
Proof.
  intros Hasks Hkeep Hw0 Hs HR.
  apply (requests_hold program (G := keeping I) R (fun _ _ _ => True) w0 s); [|done..].
  intros q w Hq Hw. apply (asks_holds (G := keeping I) I (P q) (fun _ => True)); [done| |by apply Hasks].
  intros o w1 f r w2 Ho _ Hw1 Hr. split; [|done]. by apply (Hkeep q o w1 f r w2).
Qed.
End invariants.
