(* ===== verification/Relay.v ===== *)
(** The relay as a shared world: the tables of the database, the caches and live connections
    of every pod, and the operations its handlers await.

    A handler is a program ([Programs]) over these operations; between two of them other
    tasks, of this pod or another one, run.  A statement or transaction of the database is
    one operation; a query answers from the tables of that moment.  [Fault] says how the
    surroundings behave at one operation: whether the connection works, whether a reply that
    was earned arrives, the clock, fresh identifiers, expired cache entries, the sockets of
    the pod.

    Besides the present the world remembers the moment of every operation ([w_past]): which
    it was, how the surroundings behaved, the tables and pods it found.  No handler looks at it, except that a call which
    reads a row before it takes its lock may have read any earlier version. *)
From S2P Require Import Prelude Programs Nostr Kinds Filters Text EventStore Threads Conformance Channel Membership Subscription ReadPath Delivery Moderation.
Local Open Scope string_scope.
Local Open Scope list_scope.
Local Open Scope Z_scope.
Local Open Scope buzz_scope.

(** * Reactions ([crates/buzz-db/src/reaction.rs]) *)

(** [(community_id, event_created_at, event_id, pubkey, emoji)] *)
Definition ReactionKey : Type := EventKey * Bytes * string.
#[export] Instance ReactionKey_eq_dec : EqDecision ReactionKey := prod_eq_dec.
#[export] Instance ReactionKey_countable : Countable ReactionKey := prod_countable.
Record ReactionRow := mkReaction {
  rx_created_at : Z;
  rx_removed_at : option Z;
  rx_reaction_event_id : option Bytes
}.
Definition Reactions : Type := gmap ReactionKey ReactionRow.
Definition reaction_community (k : ReactionKey) : Uuid := ek_community k.1.1.

(** The unique index on the source event. *)
Definition source_taken (community : Uuid) (source : Bytes) (but : ReactionKey) (m : Reactions) : bool :=
  existsb (fun x : ReactionKey * ReactionRow =>
    negb (bool_decide (x.1 = but)) && bool_decide (reaction_community x.1 = community)
    && opt_eqb (rx_reaction_event_id x.2) (Some source)) (map_to_list m).
(** [add_reaction_tx] with a source event; the column of the emoji holds 64 characters. *)
Definition add_reaction (env : Env) (k : ReactionKey) (source : Bytes) : method Reactions DbError bool :=
  fun m =>
    if Nat.ltb 64 (char_count k.2) then (m, Err Sqlx)
    else if match m !! k with Some r => bool_decide (rx_removed_at r = None) | None => false end
    then (m, Ok false)
    else if source_taken (reaction_community k) source k m then (m, Err Sqlx)
    else (<[k := mkReaction (env_now env) None (Some source)]> m, Ok true).
Definition removed_reaction (now : Z) (r : ReactionRow) : ReactionRow :=
  mkReaction (rx_created_at r) (Some now) (rx_reaction_event_id r).
(** [UPDATE reactions SET removed_at = NOW() WHERE p AND removed_at IS NULL] *)
Definition remove_reactions_where (env : Env) (p : ReactionKey -> ReactionRow -> bool)
  : method Reactions DbError bool :=
  fun m =>
    let hit k r := p k r && bool_decide (rx_removed_at r = None) in
    (map_imap (fun k r => Some (if hit k r then removed_reaction (env_now env) r else r)) m,
     Ok (existsb (fun x : ReactionKey * ReactionRow => hit x.1 x.2) (map_to_list m))).
Definition remove_reaction (env : Env) (k : ReactionKey) : method Reactions DbError bool :=
  remove_reactions_where env (fun k' _ => bool_decide (k' = k)).
Definition remove_reaction_by_source_event_id (env : Env) (community : Uuid) (source : Bytes)
  : method Reactions DbError bool :=
  remove_reactions_where env (fun k r =>
    bool_decide (reaction_community k = community) && opt_eqb (rx_reaction_event_id r) (Some source)).

Inductive ReactionEventInsertOutcome :=
| TargetMissing
| Duplicate
| Inserted (stored_event : StoredEvent) (was_inserted : bool).

Section store_calls.
Context `{SD : StoreDeps}.

(** The newest live version of a target. *)
Definition target_created_at (community : Uuid) (id : Bytes) (db : Db) : option Z :=
  ek_created_at <$> live_head (with_id community id) db.
Definition insert_reaction_event_with_thread_metadata (env : Env) (community : Uuid) (event : Event)
    (channel_id : option Uuid) (meta : option ThreadMetadataParams) (target : Bytes)
    (actor : Bytes) (emoji : string) : method (Db * Reactions) DbError ReactionEventInsertOutcome :=
  do? outcome <- transaction env
    (do? created <- m_read (fun s => Ok (target_created_at community target s.1)) ;;
     match created with
     | None => m_ret (Rollback TargetMissing)
     | Some created_at =>
         do? added <- m_snd (add_reaction env (((community, created_at, target) : EventKey), actor, emoji) (ev_id event)) ;;
         if negb added then m_ret (Rollback Duplicate)
         else
           do? out <- m_fst (insert_event_with_thread_metadata_tx env community event channel_id meta) ;;
           m_ret (Commit (Inserted out.1 out.2))
     end) ;;
  do? _ <- match outcome with
           | Inserted _ true => m_fst (insert_mentions_logged env community event channel_id)
           | _ => m_ret tt
           end ;;
  m_ret outcome.
End store_calls.

(** * Operations *)

(** The calls on the channel tables the relay's handlers make. *)
Inductive ChanCall :=
| CreateChannel (community : Uuid) (name : string) (type : ChannelType.t)
    (visibility : ChannelVisibility.t) (description : option string) (created_by : Bytes) (ttl : option Z)
| CreateChannelWithId (community channel_id : Uuid) (name : string) (type : ChannelType.t)
    (visibility : ChannelVisibility.t) (description : option string) (created_by : Bytes) (ttl : option Z)
| AddMember (community channel_id : Uuid) (pubkey : Bytes) (role : MemberRole) (invited_by : option Bytes)
| RemoveMember (community channel_id : Uuid) (pubkey actor : Bytes)
| UpdateChannel (community channel_id : Uuid) (u : ChannelUpdate)
| SetTopic (community channel_id : Uuid) (topic : string) (by_ : Bytes)
| SetPurpose (community channel_id : Uuid) (purpose : string) (by_ : Bytes)
| ArchiveChannel (community channel_id : Uuid)
| UnarchiveChannel (community channel_id : Uuid)
| DeleteChannel (community channel_id : Uuid)
| EnsureUser (community : Uuid) (pubkey : Bytes)
| SetAddPolicy (community : Uuid) (pubkey : Bytes) (policy : string)
| OpenDm (community : Uuid) (pubkeys : list Bytes) (created_by : Bytes)
| HideDm (community channel_id : Uuid) (pubkey : Bytes)
| UnhideDm (community channel_id : Uuid) (pubkey : Bytes).

Section chan_calls.
Context `{Digest}.

Definition chan_result (c : ChanCall) : Type :=
  match c with
  | CreateChannel _ _ _ _ _ _ _ => ChannelRow * Uuid
  | CreateChannelWithId _ _ _ _ _ _ _ _ => ChannelRow * bool
  | AddMember _ _ _ _ _ => MemberRecord
  | UpdateChannel _ _ _ => ChannelRow
  | DeleteChannel _ _ | EnsureUser _ _ => bool
  | OpenDm _ _ _ => (ChannelKey * ChannelRow) * bool
  | _ => unit
  end.
(** [seen] is the version of the tables a call read before its lock, [id] is [Uuid::new_v4()]. *)
Definition run_chan (env : Env) (seen : ChanDb) (id : Uuid) (c : ChanCall)
  : method ChanDb DbError (chan_result c) :=
  match c with
  | CreateChannel co n t v d by_ ttl =>
      do? row <- create_channel env id co n t v d by_ ttl ;; m_ret (row, id)
  | CreateChannelWithId co ch n t v d by_ ttl => create_channel_with_id env co ch n t v d by_ ttl
  | AddMember co ch pk r inv => add_member env seen co ch pk r inv
  | RemoveMember co ch pk a => remove_member env seen co ch pk a
  | UpdateChannel co ch u => update_channel env co ch u
  | SetTopic co ch t by_ => set_topic env co ch t by_
  | SetPurpose co ch t by_ => set_purpose env co ch t by_
  | ArchiveChannel co ch => archive_channel env co ch
  | UnarchiveChannel co ch => unarchive_channel env co ch
  | DeleteChannel co ch => soft_delete_channel env co ch
  | EnsureUser co pk => ensure_user co pk
  | SetAddPolicy co pk p => set_channel_add_policy co pk p
  | OpenDm co pks by_ => open_dm env seen id co pks by_
  | HideDm co ch pk => hide_dm env co ch pk
  | UnhideDm co ch pk => unhide_dm co ch pk
  end.
Definition chan_op (seen : ChanDb) (id : Uuid) (c : ChanCall) : ChanOp :=
  match c with
  | CreateChannel co n t v d by_ ttl => OpCreate id co n t v d by_ ttl
  | CreateChannelWithId co ch n t v d by_ ttl => OpCreateWithId co ch n t v d by_ ttl
  | AddMember co ch pk r inv => OpAdd seen co ch pk r inv
  | RemoveMember co ch pk a => OpRemove seen co ch pk a
  | UpdateChannel co ch u => OpUpdate co ch u
  | SetTopic co ch t by_ => OpTopic co ch t by_
  | SetPurpose co ch t by_ => OpPurpose co ch t by_
  | ArchiveChannel co ch => OpArchive co ch
  | UnarchiveChannel co ch => OpUnarchive co ch
  | DeleteChannel co ch => OpDelete co ch
  | EnsureUser co pk => OpEnsureUser co pk
  | SetAddPolicy co pk p => OpPolicy co pk p
  | OpenDm co pks by_ => OpOpenDm seen id co pks by_
  | HideDm co ch pk => OpHide co ch pk
  | UnhideDm co ch pk => OpUnhide co ch pk
  end.

Lemma run_chan_op `{HashIter} env seen id c db :
  fst (run_chan env seen id c db) = run_op env (chan_op seen id c) db.
Proof.
  destruct c; try done. simpl. unfold m_bind, m_ret.
  by destruct (create_channel _ _ _ _ _ _ _ _ _ db) as [? [?|?]].
Qed.
Lemma chan_op_seen seen id c seen' : op_seen (chan_op seen id c) = Some seen' -> seen' = seen.
Proof. destruct c; naive_solver. Qed.
End chan_calls.

(** The calls on the event store and the reactions. *)
Inductive StoreCall :=
| InsertEvent (community : Uuid) (event : Event) (channel_id : option Uuid)
| InsertWithThread (community : Uuid) (event : Event) (channel_id : option Uuid)
    (meta : option ThreadMetadataParams)
| InsertReaction (community : Uuid) (event : Event) (channel_id : option Uuid)
    (meta : option ThreadMetadataParams) (target actor : Bytes) (emoji : string)
| ReplaceAddressable (community : Uuid) (event : Event) (channel_id : option Uuid)
| ReplaceParameterized (community : Uuid) (event : Event) (d_tag : string) (channel_id : option Uuid)
| DeleteWithThread (community : Uuid) (event_id : Bytes) (parent root : option Bytes)
| DeleteByCoordinate (community : Uuid) (kind : Z) (pubkey : Bytes) (d_tag : string) (at_ : Z)
| DeleteDiscovery (community channel_id : Uuid) (relay_pubkey : Bytes)
| RemoveReactionBySource (community : Uuid) (source : Bytes)
| RemoveReaction (community : Uuid) (target : Bytes) (created_at : Z) (actor : Bytes) (emoji : string).

Definition store_result (c : StoreCall) : Type :=
  match c with
  | InsertReaction _ _ _ _ _ _ _ => ReactionEventInsertOutcome
  | DeleteWithThread _ _ _ _ | DeleteByCoordinate _ _ _ _ _ | RemoveReactionBySource _ _
  | RemoveReaction _ _ _ _ _ => bool
  | DeleteDiscovery _ _ _ => Z
  | _ => StoredEvent * bool
  end.
Definition run_store `{SD : StoreDeps} (env : Env) (c : StoreCall)
  : method (Db * Reactions) DbError (store_result c) :=
  match c with
  | InsertEvent co e ch => m_fst (insert_event env co e ch)
  | InsertWithThread co e ch meta => m_fst (insert_event_with_thread_metadata env co e ch meta)
  | InsertReaction co e ch meta t a emoji =>
      insert_reaction_event_with_thread_metadata env co e ch meta t a emoji
  | ReplaceAddressable co e ch => m_fst (replace_addressable_event env co e ch)
  | ReplaceParameterized co e d ch => m_fst (replace_parameterized_event env co e d ch)
  | DeleteWithThread co id p r => m_fst (soft_delete_event_and_update_thread env co id p r)
  | DeleteByCoordinate co k pk d at_ => m_fst (soft_delete_by_coordinate env co k pk d at_)
  | DeleteDiscovery co ch pk => m_fst (soft_delete_discovery_events env co ch pk)
  | RemoveReactionBySource co id => m_snd (remove_reaction_by_source_event_id env co id)
  | RemoveReaction co t at_ a emoji => m_snd (remove_reaction env (((co, at_, t) : EventKey), a, emoji))
  end.

(** The calls on the roster and the moderation tables; [RosterDelete] with a role deletes only
    a member who has it, without one anybody but an owner. *)
Inductive ModCall :=
| RosterAdd (community : Uuid) (pubkey role : string) (added_by : option string)
| RosterDelete (community : Uuid) (pubkey : string) (role : option string)
| RosterRole (community : Uuid) (pubkey new_role : string)
| BanMember (community : Uuid) (pubkey actor : Bytes) (reason : option string) (expires_at : option Z)
| UnbanMember (community : Uuid) (pubkey actor : Bytes)
| TimeoutMember (community : Uuid) (pubkey actor : Bytes) (until : Z) (reason : option string)
| UntimeoutMember (community : Uuid) (pubkey actor : Bytes)
| AddReport (community : Uuid) (report_event_id reporter : Bytes) (target : ReportTarget)
    (channel_id : option Uuid) (report_type : string) (note : option string)
| CloseReport (community report_id : Uuid) (status : string) (by_ : Bytes) (action_id : option Uuid)
| AddAction (community : Uuid) (actor : Bytes) (action : string)
    (target_pubkey target_event_id : option Bytes) (public_reason : option string)
| SetIcon (community : Uuid) (icon : option string).

Definition mod_result (c : ModCall) : Type :=
  match c with
  | RosterAdd _ _ _ _ | RosterDelete _ _ _ | RosterRole _ _ _ | UnbanMember _ _ _
  | UntimeoutMember _ _ _ | CloseReport _ _ _ _ _ => bool
  | AddReport _ _ _ _ _ _ _ | AddAction _ _ _ _ _ _ => Uuid
  | _ => unit
  end.
Definition run_mod (env : Env) (id : Uuid) (c : ModCall) : method ModDb DbError (mod_result c) :=
  match c with
  | RosterAdd co pk r by_ => add_relay_member env co pk r by_
  | RosterDelete co pk role =>
      delete_member_where co pk (match role with Some r => String.eqb r | None => not_owner end)
  | RosterRole co pk r => update_relay_member_role co pk r
  | BanMember co pk a reason t => ban_member co pk a reason t
  | UnbanMember co pk a => unban_member co pk a
  | TimeoutMember co pk a t reason => timeout_member co pk a t reason
  | UntimeoutMember co pk a => untimeout_member env co pk a
  | AddReport co rid by_ t ch ty note => insert_report env id co rid by_ t ch ty note
  | CloseReport co rid st by_ act => resolve_report env co rid st by_ act
  | AddAction co a act tp te reason => insert_action env id co a act tp te reason
  | SetIcon co icon => set_community_icon co icon
  end.

(** What leaves the modelled part: the trace, messages to other pods, spawned work. *)
Inductive Note :=
| Traced (action : TraceAction) (state_after : AbstractState)
| ThreadSummary (channel_id : Uuid) (root : Bytes)
| WorkflowsDisabled (community channel_id : Uuid) (owner : Bytes)
| CachesInvalidated (community : Uuid) (channel_id : option Uuid)
| Disconnected (community : Uuid) (pubkey : Bytes)
| SubscriptionsClosed (conn_id : ConnId) (sub_ids : list SubId).

Inductive Op :=
(* Queries; those of the moderation tables see the server's clock too. *)
| ReadChan
| ReadStore
| ReadMod
| Clock
(* Statements and transactions. *)
| Chan (c : ChanCall)
| Store (c : StoreCall)
| Moderate (c : ModCall)
(* The transaction of a command: its statements, then its end while other tasks have run. *)
| Begin
| InsertCommand (community : Uuid) (event : Event) (channel_id : option Uuid) (received_at : Z)
| EndCommand (community : Uuid) (event : Event) (channel_id : option Uuid) (received_at : Z) (commit : bool)
(* A pod's caches, publications and live connections. *)
| CachedMember (pod : nat) (community channel_id : Uuid) (pubkey : Bytes)
| CachedVisibility (pod : nat) (community channel_id : Uuid) (prefetched : option ChannelRow)
| InvalidateMember (pod : nat) (community channel_id : Uuid) (pubkey : Bytes)
| InvalidateVisibility (pod : nat) (community channel_id : Uuid)
| InvalidateDeleted (pod : nat) (community : Uuid)
| Publish (pod : nat) (community : Uuid) (channel_id : option Uuid) (event : Event) (marked : bool)
| FanOut (pod : nat) (community : Uuid) (stored : StoredEvent)
| Dispatch (pod : nat) (community : Uuid) (stored : StoredEvent) (kind : Z) (actor : string)
    (threaded : option ThreadedChannelVisibility)
| ConnsOf (pod : nat) (community : Uuid) (pubkey : Bytes)
| SubscribersOf (pod : nat) (community channel_id : Uuid)
| PubkeyOf (pod : nat) (conn_id : ConnId)
| Evict (pod : nat) (community : Uuid) (conn_id : ConnId) (channel_id : Uuid)
(* Other tasks of a pod: Redis hands it the [n]-th effect of another pod; its connections
   subscribe and unsubscribe. *)
| Receive (pod from n : nat)
| Connections (pod : nat) (registry : SubscriptionRegistry)
(* The outside world. *)
| Ask (question : string)
| PublishRoster (community : Uuid)
| Leave (n : Note).

(** * The world *)

Record Pod := mkPod { pod_live : Delivery; pod_registry : SubscriptionRegistry }.
Definition set_live (d : Delivery) (p : Pod) : Pod := mkPod d (pod_registry p).
Definition set_registry (r : SubscriptionRegistry) (p : Pod) : Pod := mkPod (pod_live p) r.

(** How the surroundings behave at one operation.  [f_seen] counts back to the version of the
    channel tables that a call read before its lock; [f_expired] says that the cache entry asked
    for has expired or was dropped by an invalidation from another pod. *)
Record Fault := mkFault {
  f_ok : bool;
  f_env : Env;
  f_seen : nat;
  f_id : Uuid;
  f_expired : bool;
  f_answer : bool;
  f_conns : nat -> ConnectionManager;
  f_member_ok : Candidate -> bool;
  f_publishes : bool;
  f_takes : ConnId -> nat -> bool
}.
(** What happened at one operation: which it was, how the surroundings behaved, and the tables
    and pods it found. *)
Record Moment := mkMoment {
  mo_op : Op;
  mo_fault : Fault;
  mo_chan : ChanDb;
  mo_store : Db;
  mo_mod : ModDb;
  mo_pods : nat -> Pod
}.
Definition mo_now (m : Moment) : Z := env_now (f_env (mo_fault m)).
(** The key and the coordinate that the open transaction of a command holds: another command
    with one of them waits. *)
Definition CommandLock : Type := EventKey * option Coord.
Record World := mkWorld {
  w_chan : ChanDb;
  w_store : Db;
  w_reactions : Reactions;
  w_mod : ModDb;
  w_pods : nat -> Pod;
  w_notes : list Note;
  w_locks : list CommandLock;
  w_past : list Moment
}.
Definition set_chan (db : ChanDb) (w : World) : World :=
  mkWorld db (w_store w) (w_reactions w) (w_mod w) (w_pods w) (w_notes w) (w_locks w) (w_past w).
Definition set_store (s : Db * Reactions) (w : World) : World :=
  mkWorld (w_chan w) s.1 s.2 (w_mod w) (w_pods w) (w_notes w) (w_locks w) (w_past w).
Definition set_mod (db : ModDb) (w : World) : World :=
  mkWorld (w_chan w) (w_store w) (w_reactions w) db (w_pods w) (w_notes w) (w_locks w) (w_past w).
Definition set_pod (i : nat) (p : Pod) (w : World) : World :=
  mkWorld (w_chan w) (w_store w) (w_reactions w) (w_mod w)
    (fun j => if Nat.eqb i j then p else w_pods w j) (w_notes w) (w_locks w) (w_past w).
Definition add_note (n : Note) (w : World) : World :=
  mkWorld (w_chan w) (w_store w) (w_reactions w) (w_mod w) (w_pods w) (w_notes w ++ [n]) (w_locks w) (w_past w).
Definition set_locks (l : list CommandLock) (w : World) : World :=
  mkWorld (w_chan w) (w_store w) (w_reactions w) (w_mod w) (w_pods w) (w_notes w) l (w_past w).
(** The latest moment comes first. *)
Definition this_moment (o : Op) (f : Fault) (w : World) : Moment :=
  mkMoment o f (w_chan w) (w_store w) (w_mod w) (w_pods w).
Definition remember (o : Op) (f : Fault) (w : World) : World :=
  mkWorld (w_chan w) (w_store w) (w_reactions w) (w_mod w) (w_pods w) (w_notes w) (w_locks w)
    (this_moment o f w :: w_past w).

Definition delivery_env (f : Fault) (db : ChanDb) : DeliveryEnv :=
  mkDeliveryEnv (f_conns f) (if f_ok f then Some db else None)
    (fun c => if f_member_ok f c then Some db else None) (f_publishes f) (f_takes f).
Definition seen_version (f : Fault) (w : World) : ChanDb :=
  default (w_chan w) (mo_chan <$> w_past w !! f_seen f).

Definition drop_member (k : MemberKey) (d : Delivery) : Delivery :=
  set_membership_cache (delete k (membership_cache d)) d.
Definition drop_visibility (k : ChannelKey) (d : Delivery) : Delivery :=
  set_visibility_cache (delete k (channel_visibility_cache d)) d.
(** [invalidate_entries_if]: the entries of one community. *)
Definition drop_community (community : Uuid) (d : Delivery) : Delivery :=
  set_visibility_cache
    (map_imap (fun (k : ChannelKey) v => if bool_decide (k.1 = community) then None else Some v)
       (channel_visibility_cache d))
  (set_membership_cache
    (map_imap (fun (k : MemberKey) b => if bool_decide (k.1.1 = community) then None else Some b)
       (membership_cache d)) d).

Definition op_reply (o : Op) : Type :=
  match o with
  | ReadChan => result ChanDb DbError
  | ReadStore => result Db DbError
  | ReadMod => result (Z * ModDb) DbError
  | Clock => Z
  | Chan c => result (chan_result c) DbError
  | Store c => result (store_result c) DbError
  | Moderate c => result (mod_result c) DbError
  | CachedMember _ _ _ _ => result bool DbError
  | CachedVisibility _ _ _ _ => result ChannelVisibility.t DbError
  | ConnsOf _ _ _ | SubscribersOf _ _ _ => list ConnId
  | PubkeyOf _ _ => option Bytes
  | Ask _ => bool
  | PublishRoster _ => result (StoredEvent * bool * Z) DbError
  | Begin | EndCommand _ _ _ _ _ => result unit DbError
  | InsertCommand _ _ _ _ => result bool DbError
  | _ => unit
  end.

(** The relay's key pair: [EventBuilder::new(kind, content).tags(tags)] with this time, signed
    by it; [None] when signing fails. *)
Class RelayKeys := {
  relay_pubkey : Bytes;
  sign : forall (created_at kind : Z) (tags : list Tag) (content : string), option Event
}.
Class RelayKeysLaws (K : RelayKeys) := {
  sign_fields created_at kind tags content e : sign created_at kind tags content = Some e ->
    ev_pubkey e = relay_pubkey /\ ev_created_at e = created_at /\ ev_kind e = kind /\
    ev_tags e = tags /\ ev_content e = content
}.

Section machine.
Context `{A : NostrApi} `{SD : StoreDeps} `{H : HashIter} `{DG : Digest} `{K : RelayKeys}.

(** [publish_nip43_membership_locked]: the roster is read under the lock of the snapshot it is
    written to. *)
Definition roster_order (a b : string * RelayMember) : Prop := rm_created_at a.2 <= rm_created_at b.2.
#[local] Instance roster_order_dec : RelDecision roster_order :=
  fun a b => decide (rm_created_at a.2 <= rm_created_at b.2).
Definition roster_by_age (community : Uuid) (db : ModDb) : list (string * RelayMember) :=
  merge_sort roster_order
    (omap (fun '((co, pk), m) => if bool_decide (co = community) then Some (pk, m) else None)
       (hash_iter (md_roster db) : list (RosterKey * RelayMember))).
Definition roster_tags (rows : list (string * RelayMember)) : list Tag :=
  ["-"] :: ((fun '(pk, m) => ["member"; pk; rm_role m]) <$> rows).
Definition publish_nip43_membership_locked (env : Env) (community : Uuid) (mdb : ModDb)
  : method Db DbError (StoredEvent * bool * Z) :=
  let rows := roster_by_age community mdb in
  match sign (env_now env) KIND_NIP43_MEMBERSHIP_LIST (roster_tags rows) "" with
  | None => m_fail (InvalidData "failed to sign kind:13534")
  | Some event =>
      let secs := to_i64 (ev_created_at event) in
      match from_timestamp secs with
      | None => m_fail (InvalidTimestamp secs)
      | Some created_at =>
          let count := Z.of_nat (length rows) in
          do? out <- transaction env
            (do? _ <- soft_delete_where (env_now env)
               (in_group community KIND_NIP43_MEMBERSHIP_LIST relay_pubkey None) ;;
             do? was_inserted <- insert_row (event_key community created_at event)
               (new_row (env_now env) event None (extract_d_tag event) None) ;;
             m_ret (if was_inserted : bool then Commit (verified env event None)
                    else Rollback (unverified env event None))) ;;
          do? _ <- (if snd out then insert_mentions_logged env community event None else m_ret tt) ;;
          m_ret (out, count)
      end
  end.

(** The statements of [persist_command_event]; the result is whether a row was inserted. *)
Definition command_coord (community : Uuid) (event : Event) : option Coord :=
  d ← extract_d_tag event; Some (community, event_kind_i32 event, ev_pubkey event, d).
Definition command_rows (now : Z) (community : Uuid) (event : Event) (channel_id : option Uuid)
  : method Db DbError bool :=
  let created_at := to_i64 (ev_created_at event) in
  do? stale <- match command_coord community event with
               | None => m_ret false
               | Some c =>
                   do? existing <- m_read (fun db => Ok (live_head (at_coord c) db)) ;;
                   match existing with
                   | None => m_ret false
                   | Some k =>
                       if dominated_by (created_at, ev_id event) (ek_stamp k) then m_ret true
                       else do? _ <- soft_delete_where now (at_coord c) ;; m_ret false
                   end
               end ;;
  if stale : bool then m_ret false
  else insert_row (event_key community created_at event)
         (new_row now event channel_id (extract_d_tag event) None).
Definition command_lock (community : Uuid) (event : Event) : CommandLock :=
  (event_key community (to_i64 (ev_created_at event)) event, command_coord community event).
Definition locked (l : CommandLock) (w : World) : bool :=
  existsb (fun l' : CommandLock => bool_decide (l'.1 = l.1)
             || (bool_decide (is_Some l.2) && bool_decide (l'.2 = l.2))) (w_locks w).
Definition unlock (l : CommandLock) (w : World) : World :=
  set_locks (List.filter (fun l' : CommandLock => negb (bool_decide (l'.1 = l.1))) (w_locks w)) w.

(** The elements of a [HashSet] in the order it yields them. *)
Definition set_iter (s : gset ConnId) : list ConnId := fst <$> hash_iter (gset_to_gmap tt s).
(** A statement or transaction runs in its environment, or the connection is lost before it, or
    after it, when only its reply is lost. *)
Definition on_db {D B : Type} (f : Fault) (m : method D DbError B) (d : D) : D * result B DbError :=
  if f_ok f then let '(d', r) := m d in (d', if env_acked (f_env f) then r else Err Sqlx)
  else (d, Err Sqlx).
(** A method of a pod's caches and sockets, whose errors its callers drop. *)
Definition on_pod {B : Type} (i : nat) (m : method Delivery DbError B) (w : World)
  : result B DbError * World :=
  let p := w_pods w i in
  let '(d, r) := m (pod_live p) in
  (r, set_pod i (set_live d p) w).

Definition run_op_in (o : Op) (f : Fault) (w : World) : option (op_reply o * World) :=
  let quiet {B : Type} (x : result B DbError * World) := Some (tt, snd x) in
  let change i g := Some (tt, set_pod i (set_live (g (pod_live (w_pods w i))) (w_pods w i)) w) in
  match o return option (op_reply o * World) with
  | ReadChan => Some (if f_ok f then Ok (w_chan w) else Err Sqlx, w)
  | ReadStore => Some (if f_ok f then Ok (w_store w) else Err Sqlx, w)
  | ReadMod => Some (if f_ok f then Ok (env_now (f_env f), w_mod w) else Err Sqlx, w)
  | Clock => Some (env_now (f_env f), w)
  | Chan c =>
      let '(db, r) := on_db f (run_chan (f_env f) (seen_version f w) (f_id f) c) (w_chan w) in
      Some (r, set_chan db w)
  | Store c =>
      let '(s, r) := on_db f (run_store (f_env f) c) (w_store w, w_reactions w) in
      Some (r, set_store s w)
  | Moderate c =>
      let '(db, r) := on_db f (run_mod (f_env f) (f_id f) c) (w_mod w) in
      Some (r, set_mod db w)
  | Begin => Some (if f_ok f then Ok tt else Err Sqlx, w)
  | InsertCommand co event ch now =>
      if locked (command_lock co event) w then None
      else
        let '(_, r) := on_db f (command_rows now co event ch) (w_store w) in
        Some (r, match r with
                 | Ok true => set_locks (command_lock co event :: w_locks w) w
                 | _ => w
                 end)
  | EndCommand co event ch now commit =>
      let w' := unlock (command_lock co event) w in
      if negb commit then Some (Ok tt, w')
      else if f_ok f && env_commits (f_env f)
      then Some (if env_acked (f_env f) then Ok tt else Err Sqlx,
                 set_store (fst (command_rows now co event ch (w_store w)), w_reactions w) w')
      else Some (Err Sqlx, w')
  | CachedMember i co ch pk =>
      Some (on_pod i (fun d =>
        is_member_cached (if f_ok f then Some (w_chan w) else None) co ch pk
          (if f_expired f then drop_member ((co, ch) : ChannelKey, pk) d else d)) w)
  | CachedVisibility i co ch row =>
      Some (on_pod i (fun d =>
        channel_visibility_cached (if f_ok f then Some (w_chan w) else None) co ch row
          (if f_expired f then drop_visibility (co, ch) d else d)) w)
  | InvalidateMember i co ch pk => change i (drop_member ((co, ch) : ChannelKey, pk))
  | InvalidateVisibility i co ch => change i (drop_visibility (co, ch))
  | InvalidateDeleted i co => change i (drop_community co)
  | Publish i co ch event marked =>
      quiet (on_pod i (if marked : bool then publish_event (delivery_env f (w_chan w)) co ch event
                       else if f_publishes f
                       then m_modify (emit (Published co (topic_for_subscription ch) event))
                       else m_ret tt) w)
  | FanOut i co stored =>
      quiet (on_pod i (fan_out_event_to_local_subscribers (delivery_env f (w_chan w))
                         (pod_registry (w_pods w i)) co stored) w)
  | Dispatch i co stored kind actor threaded =>
      quiet (on_pod i (dispatch_persistent_event (delivery_env f (w_chan w)) (pod_registry (w_pods w i))
                         relay_pubkey co stored kind actor threaded) w)
  | ConnsOf i co pk =>
      Some (fst <$> List.filter (fun x : ConnId * ConnEntry =>
              bool_decide (ce_community_id x.2 = co)
              && bool_decide (ce_authenticated_pubkey x.2 = Some pk)) (hash_iter (f_conns f 0)), w)
  | SubscribersOf i co ch =>
      Some (set_iter (channel_subscriber_conns_scoped co ch (pod_registry (w_pods w i))), w)
  | PubkeyOf i conn => Some (pubkey_for_conn conn (f_conns f 0), w)
  | Evict i co conn ch =>
      let '(r, removed) := remove_channel_subscriptions_scoped co conn ch (pod_registry (w_pods w i)) in
      let w' := set_pod i (set_registry r (w_pods w i)) w in
      Some (tt, if bool_decide (removed = []) then w'
                else add_note (SubscriptionsClosed conn (fst <$> removed)) w')
  | Receive i j n =>
      match effects (pod_live (w_pods w j)) !! n with
      | Some (Published co topic event) =>
          quiet (on_pod i (fan_out_pubsub_event (delivery_env f (w_chan w)) (pod_registry (w_pods w i))
                             (env_now (f_env f)) co topic event) w)
      | _ => None
      end
  | Connections i registry => Some (tt, set_pod i (set_registry registry (w_pods w i)) w)
  | Ask _ => Some (f_answer f, w)
  | PublishRoster co =>
      let '(db, r) := on_db f (publish_nip43_membership_locked (f_env f) co (w_mod w)) (w_store w) in
      Some (r, set_store (db, w_reactions w) w)
  | Leave n => Some (tt, add_note n w)
  end.
(** Every operation is remembered. *)
Definition op_respond (o : Op) (f : Fault) (w : World) : option (op_reply o * World) :=
  run_op_in o f (remember o f w).

#[export] Instance relay_machine : Machine Op World Fault :=
  {| Reply := op_reply; respond := op_respond |}.
End machine.
