(* ===== verification/Provenance.v ===== *)
(** Provenance: which rows of the store one call can add.

    A statement on [events] inserts a row of the event it is given, marks rows as deleted or
    drops them; it never changes what a row says.  [adds Q m] says so of a method: every row
    after it was there before, up to its deletion mark, or is one that [Q] describes. *)
From S2P Require Import Prelude Programs Nostr Kinds Filters Text EventStore Threads Conformance Channel Membership Subscription ReadPath Delivery Moderation Relay.
Local Open Scope string_scope.
Local Open Scope list_scope.
Local Open Scope Z_scope.
Local Open Scope buzz_scope.

Create HintDb adds discriminated.

(** The same message, deleted or not. *)
Definition same_message (r r' : EventRow) : Prop :=
  er_pubkey r = er_pubkey r' /\ er_kind r = er_kind r' /\ er_tags r = er_tags r' /\
  er_content r = er_content r' /\ er_channel_id r = er_channel_id r'.
#[export] Instance same_message_equiv : Equivalence same_message.
Proof. unfold same_message. split; [done|intros r r'; naive_solver|intros r1 r2 r3; intuition congruence]. Qed.

(** The row of an event in a community and a channel. *)
Definition row_is (community : Uuid) (event : Event) (channel_id : option Uuid) (k : EventKey) (r : EventRow)
  : Prop :=
  ek_community k = community /\ ek_id k = ev_id event /\ ek_created_at k = to_i64 (ev_created_at event) /\
  er_pubkey r = ev_pubkey event /\ er_kind r = event_kind_i32 event /\ er_tags r = ev_tags event /\
  er_content r = ev_content event /\ er_channel_id r = channel_id.

Definition was_there (m : gmap EventKey EventRow) (k : EventKey) (r : EventRow) : Prop :=
  exists r0, m !! k = Some r0 /\ same_message r0 r.

Lemma row_is_same c e ch k r r' : same_message r r' -> row_is c e ch k r -> row_is c e ch k r'.
Proof. unfold same_message, row_is. intuition congruence. Qed.

Section provenance.
Context `{A : NostrApi} `{SD : StoreDeps}.
Context (Q : EventKey -> EventRow -> Prop) (Q_same : forall k r r', same_message r r' -> Q k r -> Q k r').

Definition adds_rows (db db' : Db) : Prop :=
  forall k r, db_events db' !! k = Some r -> was_there (db_events db) k r \/ Q k r.
Definition adds {B : Type} (m : method Db DbError B) : Prop := forall db, adds_rows db (fst (m db)).

#[local] Instance adds_rows_refl : Reflexive adds_rows.
Proof. intros db k r Hr. left. by exists r. Qed.
#[local] Instance adds_rows_trans : Transitive adds_rows.
Proof.
  intros db1 db2 db3 H12 H23 k r Hr. destruct (H23 k r Hr) as [(r2 & Hr2 & Hsame)|]; [|by right].
  destruct (H12 k r2 Hr2) as [(r1 & Hr1 & Hsame')|HQ]; [|right; by eapply Q_same].
  left. exists r1. split; [done|]. by etransitivity.
Qed.
Lemma adds_rows_events db db' : db_events db' = db_events db -> adds_rows db db'.
Proof. intros He k r. rewrite He. intros Hr. left. by exists r. Qed.

Lemma adds_bind {B C : Type} (m : method Db DbError B) (k : B -> method Db DbError C) :
  adds m -> (forall b, adds (k b)) -> adds (m_bind m k).
Proof.
  intros Hm Hk db. unfold m_bind. specialize (Hm db). destruct (m db) as [db1 [b|e]]; [|done].
  etransitivity; [exact Hm|]. apply Hk.
Qed.
Lemma adds_ret {B : Type} (b : B) : adds (m_ret b).
Proof. by intros db. Qed.
Lemma adds_fail {B : Type} (e : DbError) : adds (m_fail (A := B) e).
Proof. by intros db. Qed.
Lemma adds_read {B : Type} (f : Db -> result B DbError) : adds (m_read f).
Proof. by intros db. Qed.
Lemma adds_transaction {B : Type} env (m : method Db DbError (TxEnd B)) : adds m -> adds (transaction env m).
Proof.
  intros Hm db. unfold transaction. specialize (Hm db). destruct (m db) as [db' [[b|b]|e]];
    [destruct (env_commits env), (env_acked env)| |]; simpl in *; first [exact Hm|reflexivity].
Qed.
Lemma adds_modify (f : Db -> Db) : (forall db, db_events (f db) = db_events db) -> adds (m_modify f).
Proof. intros Hf db. apply adds_rows_events, Hf. Qed.
Lemma adds_insert k r : Q k r -> adds (insert_row k r).
Proof.
  intros HQ db k' r' Hr. unfold insert_row, guard_nip_rs_watermark in Hr.
  assert (Hins : forall db', db_events db' = db_events db ->
    db_events (fst (match db_events db' !! k with
                    | Some _ => (db', Ok false)
                    | None => (set_events (<[k := r]> (db_events db')) db', Ok (E := DbError) true)
                    end)) !! k' = Some r' -> was_there (db_events db) k' r' \/ Q k' r').
  { intros db' He. rewrite He. destruct (db_events db !! k); simpl.
    - rewrite He. intros Hr'. left. by exists r'.
    - intros [[<- <-]|[_ Hr']]%lookup_insert_Some; [by right|]. left. by exists r'. }
  destruct (if conforming_read_state r then row_coord k r else None) as [c|]; [|by apply (Hins db)].
  destruct (match db_watermarks db !! c with Some w => _ | None => _ end).
  - revert Hr. by apply Hins.
  - destruct (bool_decide _); simpl in Hr; left; by exists r'.
Qed.
Lemma adds_soft_delete now p : adds (soft_delete_where now p).
Proof.
  intros db k r'. unfold soft_delete_where. simpl. rewrite map_lookup_imap.
  destruct (db_events db !! k) as [r|] eqn:Hk; simpl; [|done]. intros Hr. left. exists r. split; [done|].
  destruct (_ && _); [destruct (purged r)|]; simplify_eq/=; done.
Qed.
Lemma adds_hard_delete p : adds (hard_delete_where p).
Proof.
  intros db k r'. unfold hard_delete_where. simpl. rewrite map_lookup_imap.
  destruct (db_events db !! k) as [r|] eqn:Hk; simpl; [|done]. destruct (_ && _); [done|].
  intros [= <-]. left. by exists r.
Qed.
Lemma adds_mentions env c e ch : adds (insert_mentions_logged env c e ch).
Proof. intros db. destruct (insert_mentions_only env c e ch db) as (m & ->). by apply adds_rows_events. Qed.
Lemma adds_thread_row k t : adds (insert_thread_row k t).
Proof. intros db. unfold insert_thread_row. destruct (db_threads db !! k); [done|]. by apply adds_rows_events. Qed.
Lemma adds_update_thread c i f : adds (update_thread c i f).
Proof. intros db. by apply adds_rows_events. Qed.
Lemma adds_mentions_of (f : Db -> gmap MentionKey MentionRow) : adds (m_modify (fun db => set_mentions (f db) db)).
Proof. intros db. by apply adds_rows_events. Qed.
Lemma adds_watermarks (f : Db -> gmap Coord Stamp) : adds (m_modify (fun db => set_watermarks (f db) db)).
Proof. intros db. by apply adds_rows_events. Qed.
#[local] Hint Resolve adds_ret adds_fail adds_read adds_soft_delete adds_hard_delete adds_insert adds_mentions
  adds_thread_row adds_update_thread adds_mentions_of adds_watermarks : adds.

(** Walks through the calls of an operation. *)
Ltac adds_tac := repeat first
  [ progress auto with adds nocore
  | apply adds_transaction
  | apply adds_bind; [|intros ?]
  | match goal with |- adds (let _ := _ in _) => cbv zeta end
  | match goal with |- adds (match ?x with _ => _ end) => destruct x eqn:? end ].

(** ** The calls *)

Section event.
Context (community : Uuid) (event : Event) (channel_id : option Uuid).
Context (Q_row : forall k r, row_is community event channel_id k r -> Q k r).

Lemma new_row_is now d nb secs : from_timestamp (to_i64 (ev_created_at event)) = Some secs ->
  Q (event_key community secs event) (new_row now event channel_id d nb).
Proof.
  unfold from_timestamp. destruct (timestamp_valid _); [|done]. intros [= <-]. by apply Q_row.
Qed.
#[local] Hint Resolve new_row_is : adds.

Lemma adds_event_row env : adds (insert_event_row env community event channel_id).
Proof. unfold insert_event_row. adds_tac. Qed.
#[local] Hint Resolve adds_event_row : adds.
Lemma adds_insert_event env : adds (insert_event env community event channel_id).
Proof. unfold insert_event, insert_event_statement. adds_tac. Qed.
Lemma adds_with_thread_tx env meta :
  adds (insert_event_with_thread_metadata_tx env community event channel_id meta).
Proof. unfold insert_event_with_thread_metadata_tx, insert_thread_metadata, count_reply. adds_tac. Qed.
#[local] Hint Resolve adds_with_thread_tx : adds.
Lemma adds_with_thread env meta : adds (insert_event_with_thread_metadata env community event channel_id meta).
Proof. unfold insert_event_with_thread_metadata. adds_tac. Qed.
Lemma adds_addressable env : adds (replace_addressable_event env community event channel_id).
Proof. unfold replace_addressable_event, replacing, replace_addressable_tx. adds_tac. Qed.
Lemma adds_parameterized env d : adds (replace_parameterized_event env community event d channel_id).
Proof. unfold replace_parameterized_event, replacing, replace_parameterized_tx. adds_tac. Qed.
End event.

Lemma adds_by_coordinate env c kind pk d at_ : adds (soft_delete_by_coordinate env c kind pk d at_).
Proof. unfold soft_delete_by_coordinate. adds_tac. Qed.
Lemma adds_discovery env c ch pk : adds (soft_delete_discovery_events env c ch pk).
Proof. unfold soft_delete_discovery_events. adds_tac. Qed.
Lemma adds_delete_thread env c id p r : adds (soft_delete_event_and_update_thread env c id p r).
Proof. unfold soft_delete_event_and_update_thread. adds_tac. Qed.

(** ** Calls on the store and the reactions together *)

Lemma adds_fst {B : Type} (m : method Db DbError B) (s : Db * Reactions) :
  adds m -> adds_rows s.1 (fst (m_fst m s)).1.
Proof. intros Hm. unfold m_fst. specialize (Hm s.1). by destruct (m s.1) as [db r]. Qed.
Lemma adds_snd {B : Type} (m : method Reactions DbError B) (s : Db * Reactions) :
  adds_rows s.1 (fst (m_snd m s)).1.
Proof. unfold m_snd. by destruct (m s.2) as [rs r]. Qed.

Lemma adds_pair_bind {B C : Type} (m : method (Db * Reactions) DbError B)
    (k : B -> method (Db * Reactions) DbError C) (s : Db * Reactions) :
  (forall s, adds_rows s.1 (fst (m s)).1) -> (forall b s, adds_rows s.1 (fst (k b s)).1) ->
  adds_rows s.1 (fst (m_bind m k s)).1.
Proof.
  intros Hm Hk. unfold m_bind. specialize (Hm s). destruct (m s) as [s1 [b|e]]; [|done].
  etransitivity; [exact Hm|]. apply Hk.
Qed.
Lemma adds_pair_transaction {B : Type} env (m : method (Db * Reactions) DbError (TxEnd B)) (s : Db * Reactions) :
  (forall s, adds_rows s.1 (fst (m s)).1) -> adds_rows s.1 (fst (transaction env m s)).1.
Proof.
  intros Hm. unfold transaction. specialize (Hm s). destruct (m s) as [s' [[b|b]|e]];
    [destruct (env_commits env), (env_acked env)| |]; simpl in *; first [exact Hm|reflexivity].
Qed.

Lemma adds_reaction env co e ch meta t a emoji s :
  (forall k r, row_is co e ch k r -> Q k r) ->
  adds_rows s.1 (fst (insert_reaction_event_with_thread_metadata env co e ch meta t a emoji s)).1.
Proof.
  intros HQ. unfold insert_reaction_event_with_thread_metadata. apply adds_pair_bind; clear s.
  - intros s. apply adds_pair_transaction. clear s. intros s. apply adds_pair_bind; [by intros s'|]. clear s.
    intros [created_at|] s; [|by intros].
    apply adds_pair_bind; [intros; apply adds_snd|]. clear s. intros added s.
    destruct (negb added); [by intros|]. apply adds_pair_bind; [|by intros].
    intros s'. by apply adds_fst, adds_with_thread_tx.
  - intros out s. apply adds_pair_bind; [|by intros]. clear s. intros s.
    destruct out as [| |stored []]; try done. apply adds_fst, adds_mentions.
Qed.

(** What a call may insert. *)
Definition inserted_by (c : StoreCall) : option (Uuid * Event * option Uuid) :=
  match c with
  | InsertEvent co e ch | InsertWithThread co e ch _ | InsertReaction co e ch _ _ _ _
  | ReplaceAddressable co e ch | ReplaceParameterized co e _ ch => Some (co, e, ch)
  | _ => None
  end.
Lemma run_store_adds env c s :
  (forall co e ch k r, inserted_by c = Some (co, e, ch) -> row_is co e ch k r -> Q k r) ->
  adds_rows s.1 (fst (run_store env c s)).1.
Proof.
  intros HQ. destruct c; cbn [run_store inserted_by] in *.
  - by apply adds_fst, adds_insert_event; eauto.
  - by apply adds_fst, adds_with_thread; eauto.
  - by apply adds_reaction; eauto.
  - by apply adds_fst, adds_addressable; eauto.
  - by apply adds_fst, adds_parameterized; eauto.
  - by apply adds_fst, adds_delete_thread.
  - by apply adds_fst, adds_by_coordinate.
  - by apply adds_fst, adds_discovery.
  - apply adds_snd.
  - apply adds_snd.
Qed.
End provenance.

(** The roster's snapshot is an event the relay signs. *)
Lemma publish_roster_adds `{A : NostrApi} `{SD : StoreDeps} `{H : HashIter} `{K : RelayKeys}
    (Q : EventKey -> EventRow -> Prop) (Q_same : forall k r r', same_message r r' -> Q k r -> Q k r')
    env co mdb db :
  (forall at_ tags e k r, sign at_ KIND_NIP43_MEMBERSHIP_LIST tags "" = Some e -> row_is co e None k r -> Q k r) ->
  adds_rows Q db (fst (publish_nip43_membership_locked env co mdb db)).
Proof.
  intros HQ. unfold publish_nip43_membership_locked. destruct (sign _ _ _ _) as [e|] eqn:He.
  2: { intros k r Hr. left. by exists r. }
  destruct (from_timestamp _) as [at_|] eqn:Hat. 2: { intros k r Hr. left. by exists r. }
  revert db. apply adds_bind; [done| |].
  - apply adds_transaction, adds_bind; [done|apply adds_soft_delete|]. intros _. apply adds_bind; [done| |].
    + apply adds_insert. unfold from_timestamp in Hat. destruct (timestamp_valid _); [|done].
      injection Hat as <-. by eapply HQ.
    + intros [] db; intros k r Hr; left; by exists r.
  - intros out. apply adds_bind; [done| |intros _ db k r Hr; left; by exists r].
    destruct (snd out); [apply adds_mentions|]. intros db k r Hr. left. by exists r.
Qed.

(** The transaction of a command inserts its event. *)
Lemma command_rows_adds `{A : NostrApi} `{SD : StoreDeps} `{H : HashIter}
    (Q : EventKey -> EventRow -> Prop) (Q_same : forall k r r', same_message r r' -> Q k r -> Q k r')
    now co e ch db :
  (forall k r, row_is co e ch k r -> Q k r) -> adds_rows Q db (fst (command_rows now co e ch db)).
Proof.
  intros HQ. unfold command_rows. revert db. apply adds_bind; [done| |].
  - destruct (command_coord co e) as [c|]; [|by apply adds_ret]. apply adds_bind; [done|apply adds_read|].
    intros [k|]; [|by apply adds_ret]. destruct (dominated_by _ _); [by apply adds_ret|].
    apply adds_bind; [done|apply adds_soft_delete|by intros; apply adds_ret].
  - intros []; [by apply adds_ret|]. apply adds_insert, HQ. done.
Qed.
