(* ===== verification/Groups.v ===== *)
(** Groups: the NIP-29 and NIP-09 handlers of [crates/buzz-relay/src/handlers/side_effects.rs].

    A handler is a program over the world of [Relay].  [validate_admin_event] and
    [validate_standard_deletion_event] run before the event is stored, [handle_side_effects]
    after; each database call, cache access and publication of the code is one operation, so
    other tasks run in between.  The relay's own messages (system messages, notifications,
    discovery events) are signed by [RelayKeys]. *)
From S2P Require Import Prelude Programs Nostr Kinds Filters Text Json EventStore Threads Envelopes Conformance Channel Membership Subscription ReadPath Delivery Moderation Relay.
Local Open Scope string_scope.
Local Open Scope list_scope.
Local Open Scope Z_scope.
Local Open Scope buzz_scope.

(** [AppState] and [TenantContext] as a request sees them: its pod, its community and the
    configuration. *)
Record Ctx := mkCtx {
  cx_pod : nat;
  cx_community : Uuid;
  cx_host : string;
  cx_require_relay_membership : bool;
  cx_ephemeral_ttl_override : option Z;
  cx_enforce_attestation : bool;
  cx_max_not_before_delta : option Z
}.

(** [DateTime::to_rfc3339] ([chrono]) *)
Class ChronoText := rfc3339 : Z -> string.
(** [serde_json::from_str::<Value>(s).ok()] *)
Class JsonParse `{J : SerdeJson} := json_from_str : string -> option (Value Number).

Section groups.
Context `{A : NostrApi} `{U : UuidParse} `{SD : StoreDeps} `{H : HashIter} `{DG : Digest} `{K : RelayKeys} `{J : SerdeJson} `{CT : ChronoText} `{JP : !JsonParse}.

(** * Asking the world *)

Definition db_err (e : DbError) : Message := fmt "{e}" [AText (db_error_text e)].
Definition chan {B : Type} (f : ChanDb -> result B DbError) : prog (result B DbError) :=
  await? db <- perform ReadChan ;; Ret (f db).
Definition store {B : Type} (f : Db -> result B DbError) : prog (result B DbError) :=
  await? db <- perform ReadStore ;; Ret (f db).
Definition moderation {B : Type} (f : ModDb -> result B DbError) : prog (result B DbError) :=
  await? seen <- perform ReadMod ;; Ret (f (snd seen)).
(** [p.await?] in a function whose error type is [anyhow::Error]. *)
Definition lift {B : Type} (p : prog (result B DbError)) : prog (result B Message) :=
  prog_map_err db_err p.
(** [p.await.map_err(|_| anyhow!(text))] *)
Definition or_else {B : Type} (text : string) (p : prog (result B DbError)) : prog (result B Message) :=
  prog_map_err (fun _ => msg text) p.
(** [p.await.map_err(|e| anyhow!("text: {e}"))] *)
Definition because {B : Type} (text : string) (p : prog (result B DbError)) : prog (result B Message) :=
  prog_map_err (fun e => fmt text [AText (db_error_text e)]) p.
(** [if let Err(e) = p.await { warn!(..) }] *)
Definition logged {B E : Type} (p : prog (result B E)) : prog (result unit Message) :=
  await _ <- p ;; Ret (Ok tt).
Fixpoint for_each {B E : Type} (l : list B) (f : B -> prog (result unit E)) : prog (result unit E) :=
  match l with
  | [] => Ret (Ok tt)
  | x :: l' => await? _ <- f x ;; for_each l' f
  end.
Fixpoint for_all {B : Type} (l : list B) (f : B -> prog unit) : prog unit :=
  match l with
  | [] => Ret tt
  | x :: l' => await _ <- f x ;; for_all l' f
  end.

(** * Tags *)

Definition extract_h_tag_channel (event : Event) : option Uuid :=
  find_map parse_uuid (contents_of "h" event).
Definition extract_p_tag (event : Event) : option Bytes := find_map decode32 (contents_of "p" event).
(** The content of the first tag of this name. *)
Definition extract_tag_value (event : Event) (tag_name : string) : option string :=
  List.find (fun t => String.eqb (tag_kind t) tag_name) (ev_tags event) ≫= tag_content.
Definition author_of (event : Event) : Bytes :=
  if bool_decide (ev_pubkey event = relay_pubkey) then
    match extract_tag_value event "actor" ≫= decode32 with
    | Some b => b
    | None => default (ev_pubkey event) (extract_p_tag event)
    end
  else ev_pubkey event.
Definition has_e_tag (event : Event) : bool := has_tag_kind "e" event.
Definition extract_target_event_ids (event : Event) : list Bytes :=
  omap (fun v => if is_hex_id v then decode32 v else None) (contents_of "e" event).
Definition has_moderation_delete_metadata (event : Event) : bool :=
  existsb (fun n => bool_decide (is_Some (extract_tag_value event n)))
    ["action_id"; "reason_code"; "public_reason"].
Definition author_delete_can_use_self_delete_path (author actor : Bytes) (event : Event) : bool :=
  bool_decide (author = actor) && negb (has_moderation_delete_metadata event).
Definition mr_role (m : MemberRecord) : MemberRole := mb_role (mr_row m).
Definition find_member (pk : Bytes) (members : list MemberRecord) : option MemberRecord :=
  List.find (fun m => bool_decide (mr_pubkey m = pk)) members.
Definition owners (members : list MemberRecord) : list MemberRecord :=
  List.filter (fun m => bool_decide (mr_role m = Owner)) members.
Definition actor_is_channel_owner_or_admin (members : list MemberRecord) (actor : Bytes) : bool :=
  existsb (fun m => bool_decide (mr_pubkey m = actor) && Role.is_elevated (mr_role m)) members.
Definition is_owner_in (members : list MemberRecord) (actor : Bytes) : bool :=
  existsb (fun m => bool_decide (mr_pubkey m = actor) && bool_decide (mr_role m = Owner)) members.

(** [resolve_ttl] ([handlers/mod.rs]) *)
Definition resolve_ttl (event : Event) (ephemeral_ttl_override : option Z) : option Z :=
  match find_map parse_i32 (contents_of "ttl" event), ephemeral_ttl_override with
  | Some _, Some ovr => Some ovr
  | ttl, _ => ttl
  end.

(** * Before storage *)

Section requests.
Context (cx : Ctx).
Let community := cx_community cx.
Let pod := cx_pod cx.

Definition agent_owned (target actor : Bytes) : prog (result bool DbError) :=
  chan (fun db => Ok (is_agent_owner community target actor db)).

Definition validate_standard_deletion_event (event : Event) : prog (result unit Message) :=
  let actor_bytes := author_of event in
  let unless_owned (author : Bytes) (k : prog (result unit Message)) :=
    if bool_decide (author = actor_bytes) then k
    else await? owned <- lift (agent_owned author actor_bytes) ;;
         if owned : bool then k else Ret (Err (msg "must be event author")) in
  if negb (has_e_tag event) then
    match extract_tag_value event "a" with
    | None => Ret (Err (msg "missing e or a tag for target"))
    | Some a_tag =>
        match split_once ":" a_tag with
        | None => Ret (Err (msg "invalid a-tag format"))
        | Some (_, rest) =>
            match hex_decode (match split_once ":" rest with Some (pk, _) => pk | None => rest end) with
            | None => Ret (Err (msg "invalid pubkey in a-tag"))
            | Some target => unless_owned target (Ret (Ok tt))
            end
        end
    end
  else
    for_each (extract_target_event_ids event) (fun target_id =>
      await? found <- lift (store (get_event_by_id_including_deleted community target_id)) ;;
      match found with
      | None => Ret (Err (msg "target event not found"))
      | Some target => unless_owned (author_of (se_event target)) (Ret (Ok tt))
      end).

Fixpoint actor_owns_any_owner_agent (owner_members : list MemberRecord) (actor : Bytes)
  : prog (result bool Message) :=
  match owner_members with
  | [] => Ret (Ok false)
  | m :: rest =>
      await? owned <- lift (agent_owned (mr_pubkey m) actor) ;;
      if owned : bool then Ret (Ok true) else actor_owns_any_owner_agent rest actor
  end.

Definition is_unarchive (event : Event) : bool :=
  existsb (fun parts =>
    match parts with
    | k :: v :: _ => String.eqb k "archived" && String.eqb v "false"
    | _ => false
    end) (ev_tags event).

(** Kind 9000. *)
Definition validate_put_user (event : Event) (channel_id : Uuid) (channel : ChannelRow)
    (actor : Bytes) : prog (result unit Message) :=
  try? requested_role :=
    match extract_tag_value event "role" with
    | None => Ok None
    | Some s => match Role.from_str s with
                | Ok r => Ok (Some r)
                | Err _ => Err (fmt "invalid role: {s}" [AText s])
                end
    end in
  await? members <- lift (chan (fun db => Ok (get_members community channel_id db))) ;;
  let actor_role := mr_role <$> find_member actor members in
  let actor_elevated := match actor_role with Some r => Role.is_elevated r | None => false end in
  let grants_elevated := match requested_role with Some r => Role.is_elevated r | None => false end in
  let private_denial :=
    if negb (bool_decide (ch_visibility channel = ChannelVisibility.Private)) then None
    else if bool_decide (actor_role = None) then Some "actor not authorized"
    else if grants_elevated && negb actor_elevated
    then Some "only owners/admins may grant elevated roles" else None in
  match private_denial with
  | Some reason => Ret (Err (msg reason))
  | None =>
      match extract_p_tag event with
      | None => Ret (Err (msg "missing p tag"))
      | Some target_pubkey =>
          let role_change :=
            match find_member target_pubkey members, requested_role with
            | Some target, Some role =>
                if bool_decide (mr_role target = role) then None
                else if negb actor_elevated
                then Some "only owners/admins may change an active member's role"
                else if bool_decide (mr_role target = Owner) && negb (bool_decide (role = Owner))
                        && Nat.leb (length (owners members)) 1
                then Some "cannot demote the last owner — transfer ownership first"
                else None
            | _, _ => None
            end in
          match role_change with
          | Some reason => Ret (Err (msg reason))
          | None =>
              if bool_decide (target_pubkey = actor) then Ret (Ok tt)
              else
                await? policy <- lift (chan (fun db => Ok (get_agent_channel_policy community target_pubkey db))) ;;
                match policy with
                | Some (OwnerOnly, None) => Ret (Err (msg "policy:owner_only — agent has no owner set"))
                | Some (OwnerOnly, Some owner) =>
                    if bool_decide (actor = owner) then Ret (Ok tt)
                    else Ret (Err (msg "policy:owner_only — only the agent owner can add this agent"))
                | Some (Nobody, _) =>
                    Ret (Err (msg "policy:nobody — this agent has disabled external channel additions"))
                | Some (Anyone, _) | None => Ret (Ok tt)
                end
          end
      end
  end.

(** A member who leaves must not be the last owner. *)
Definition may_leave (members : list MemberRecord) (actor : Bytes) : result unit Message :=
  match find_member actor members with
  | None => Err (msg "actor is not an active member")
  | Some m =>
      if bool_decide (mr_role m = Owner) && Nat.leb (length (owners members)) 1
      then Err (msg "cannot remove the last owner") else Ok tt
  end.

(** Kind 9001. *)
Definition validate_remove_user (event : Event) (channel_id : Uuid) (actor : Bytes)
  : prog (result unit Message) :=
  match extract_p_tag event with
  | None => Ret (Err (msg "missing p tag"))
  | Some target_pubkey =>
      await? members <- lift (chan (fun db => Ok (get_members community channel_id db))) ;;
      if bool_decide (target_pubkey = actor) then Ret (may_leave members actor)
      else
        match find_member actor members with
        | None => Ret (Err (msg "actor not authorized"))
        | Some m =>
            if Role.is_elevated (mr_role m) then Ret (Ok tt)
            else
              await? owned <- lift (agent_owned target_pubkey actor) ;;
              Ret (if owned : bool then Ok tt else Err (msg "actor not authorized"))
        end
  end.

(** The checks of one tag of kind 9002, in the order of the loops. *)
Definition check_archived (t : Tag) : result unit Message :=
  match tag_content t with
  | Some v => if String.eqb v "true" || String.eqb v "false" then Ok tt
              else Err (fmt "invalid archived value: {v} (must be true or false)" [AText v])
  | None => Err (msg "archived tag must have a value")
  end.
Definition check_name (t : Tag) : result unit Message :=
  match tag_content t with
  | Some v => if str_is_empty (trim (canonical_channel_name v))
              then Err (msg "channel name is required") else Ok tt
  | None => Err (msg "channel name is required")
  end.
Definition check_visibility (t : Tag) : result unit Message :=
  match tag_content t with
  | Some v => if String.eqb v "open" || String.eqb v "private" then Ok tt
              else Err (fmt "invalid visibility value: {v} (must be open or private)" [AText v])
  | None => Err (msg "visibility tag must have a value")
  end.
Definition check_ttl (t : Tag) : result unit Message :=
  match tag_content t with
  | Some v =>
      if str_is_empty v then Ok tt
      else match parse_i32 v with
           | Some n => if 0 <? n then Ok tt
                       else Err (fmt "invalid ttl value: {v} (must be a positive integer of seconds, or empty to clear)" [AText v])
           | None => Err (fmt "invalid ttl value: {v} (must be a positive integer of seconds, or empty to clear)" [AText v])
           end
  | None => Err (msg "ttl tag must have a value (seconds, or empty string to clear)")
  end.
Fixpoint check_tags (name : string) (check : Tag -> result unit Message) (tags : list Tag)
  : result unit Message :=
  match tags with
  | [] => Ok tt
  | t :: tags' =>
      let? _ := (if String.eqb (tag_kind t) name then check t else Ok tt) in
      check_tags name check tags'
  end.
Definition has_any_tag (names : list string) (event : Event) : bool :=
  existsb (fun t => bool_decide (tag_kind t ∈ names)) (ev_tags event).
Definition PRIVILEGED_TAGS : list string := ["name"; "about"; "archived"; "visibility"; "ttl"].
Definition RECOGNIZED_TAGS : list string :=
  ["name"; "about"; "archived"; "topic"; "purpose"; "visibility"; "ttl"].

(** Kind 9002. *)
Definition validate_edit_metadata (event : Event) (channel_id : Uuid) (actor : Bytes)
  : prog (result unit Message) :=
  if negb (has_any_tag RECOGNIZED_TAGS event) then
    Ret (Err (msg "kind:9002 must include at least one metadata tag (name, about, archived, topic, purpose, visibility, ttl)"))
  else
    let tags := ev_tags event in
    try? _ := check_tags "archived" check_archived tags in
    try? _ := check_tags "name" check_name tags in
    try? _ := check_tags "visibility" check_visibility tags in
    try? _ := check_tags "ttl" check_ttl tags in
    if has_any_tag PRIVILEGED_TAGS event then
      await? members <- lift (chan (fun db => Ok (get_members community channel_id db))) ;;
      let elevated := match find_member actor members with
                      | Some m => Role.is_elevated (mr_role m) | None => false end in
      if elevated then Ret (Ok tt)
      else
        await? owned <- actor_owns_any_owner_agent (owners members) actor ;;
        Ret (if owned : bool then Ok tt
             else Err (msg "actor not authorized for name/about/archived/visibility/ttl changes"))
    else
      await? is_member <- lift (perform (CachedMember pod community channel_id actor)) ;;
      Ret (if is_member : bool then Ok tt else Err (msg "not a member")).

(** The visibility of a channel is [open]; an error counts as no. *)
Definition reads_open (channel_id : Uuid) : prog bool :=
  await ch <- chan (get_channel community channel_id) ;;
  Ret (match ch with
       | Ok c => bool_decide (ch_visibility c = ChannelVisibility.Open)
       | Err _ => false
       end).

(** Kind 9005. *)
Definition validate_delete_event (event : Event) (channel_id : Uuid) (actor : Bytes)
  : prog (result unit Message) :=
  try? _ := match extract_tag_value event "action_id" with
            | Some action_id =>
                match parse_uuid action_id with
                | Some _ => Ok tt
                | None => Err (msg "invalid action_id tag")
                end
            | None => Ok tt
            end in
  match find_map hex_decode (contents_of "e" event) with
  | None => Ret (Err (msg "missing e tag for target event"))
  | Some target_id =>
      await? found <- because "db error looking up target: {e}" (store (get_event_by_id community target_id)) ;;
      match found with
      | None => Ret (Err (msg "target event not found"))
      | Some target =>
          match se_channel_id target with
          | None => Ret (Err (msg "target event has no channel"))
          | Some target_ch =>
              if negb (bool_decide (target_ch = channel_id))
              then Ret (Err (msg "target event belongs to a different channel"))
              else
                let author := author_of (se_event target) in
                let as_moderator :=
                  await? members <- lift (chan (fun db => Ok (get_members community channel_id db))) ;;
                  if actor_is_channel_owner_or_admin members actor then Ret (Ok tt)
                  else
                    await? owned <- lift (agent_owned author actor) ;;
                    Ret (if owned : bool then Ok tt
                         else Err (msg "must be event author or channel owner/admin")) in
                if author_delete_can_use_self_delete_path author actor event then
                  await? is_member <- lift (perform (CachedMember pod community channel_id actor)) ;;
                  if is_member : bool then Ret (Ok tt)
                  else
                    await is_open <- reads_open channel_id ;;
                    if is_open : bool then Ret (Ok tt) else as_moderator
                else as_moderator
          end
      end
  end.

(** Kind 9008. *)
Definition validate_delete_group (channel_id : Uuid) (actor : Bytes) : prog (result unit Message) :=
  await? members <- lift (chan (fun db => Ok (get_members community channel_id db))) ;;
  let is_owner := match find_member actor members with
                  | Some m => bool_decide (mr_role m = Owner) | None => false end in
  if is_owner then Ret (Ok tt)
  else
    await? owned <- actor_owns_any_owner_agent (owners members) actor ;;
    Ret (if owned : bool then Ok tt else Err (msg "only owner can delete group")).

Definition validate_admin_event (kind : Z) (event : Event) : prog (result unit Message) :=
  if kind =? 9007 then Ret (Ok tt)
  else
    match extract_h_tag_channel event with
    | None => Ret (Err (msg "missing or invalid h tag"))
    | Some channel_id =>
        let actor := ev_pubkey event in
        await? channel <- or_else "channel not found" (chan (get_channel community channel_id)) ;;
        if bool_decide (is_Some (ch_archived_at channel)) && negb ((kind =? 9002) && is_unarchive event)
        then Ret (Err (msg "channel is archived"))
        else if kind =? 9000 then validate_put_user event channel_id channel actor
        else if kind =? 9001 then validate_remove_user event channel_id actor
        else if kind =? 9002 then validate_edit_metadata event channel_id actor
        else if kind =? 9005 then validate_delete_event event channel_id actor
        else if kind =? 9008 then validate_delete_group channel_id actor
        else if kind =? 9022 then
          await? members <- lift (chan (fun db => Ok (get_members community channel_id db))) ;;
          Ret (may_leave members actor)
        else Ret (Ok tt)
    end.

(** * The relay's own messages *)

(** [EventBuilder::new(kind, content).tags(tags).sign_with_keys(&state.relay_keypair)] *)
Definition signed (kind : Z) (tags : list Tag) (content : string) (text : string)
  : prog (result Event Message) :=
  await now <- perform Clock ;;
  Ret (match sign now kind tags content with Some e => Ok e | None => Err (msg text) end).
(** [json!({..}).to_string()] *)
Definition json_text (fields : list (string * Value Number)) : string := value_display (Object fields).
Definition json_str (s : string) : Value Number := Str s.
(** A TTL is positive by validation. *)
Definition json_ttl (ttl : option Z) : Value Number :=
  match ttl with Some n => Num (number_of_u64 n) | None => Null end.

Definition emit_system_message (channel_id : Uuid) (fields : list (string * Value Number))
  : prog (result unit Message) :=
  await? event <- signed KIND_SYSTEM_MESSAGE [["h"; uuid_to_string channel_id]] (json_text fields)
                    "failed to sign system message" ;;
  await _ <- perform (Store (InsertEvent community event (Some channel_id))) ;;
  await _ <- perform (Publish pod community (Some channel_id) event false) ;;
  Ret (Ok tt).

(** [emit_live_thread_summary] spawns a task; what it sends is recomputed from the counters. *)
Definition emit_live_thread_summary (channel_id : Uuid) (root_id : Bytes) : prog unit :=
  perform (Leave (ThreadSummary channel_id root_id)).

Definition emit_membership_notification (channel_id : Uuid) (target_pubkey actor_pubkey : Bytes)
    (notification_kind : Z) : prog (result unit Message) :=
  try? event_type :=
    (if notification_kind =? KIND_MEMBER_ADDED_NOTIFICATION then Ok "member_added"
     else if notification_kind =? KIND_MEMBER_REMOVED_NOTIFICATION then Ok "member_removed"
     else Err (fmt "invalid notification kind: {notification_kind}" [ANum notification_kind])) in
  let content := json_text [("type", json_str event_type);
                            ("channel_id", json_str (uuid_to_string channel_id));
                            ("actor", json_str (to_hex actor_pubkey))] in
  await? event <- signed notification_kind
    [["p"; to_hex target_pubkey]; ["h"; uuid_to_string channel_id]] content
    "failed to sign membership notification" ;;
  await? out <- lift (perform (Store (InsertEvent community event None))) ;;
  if negb (snd out) then Ret (Ok tt)
  else
    await _ <- perform (Publish pod community None (se_event (fst out)) true) ;;
    await _ <- perform (FanOut pod community (fst out)) ;;
    Ret (Ok tt).

(** ** Discovery *)

Definition discovery_query (kind : Z) (channel_id : Uuid) : EventQuery :=
  mkQuery community (Some channel_id) (Some [kind]) None None None (Some 1) None None None None None
    false None None None None None None.
Definition emit_addressable_discovery_event (channel_id : Uuid) (kind : Z) (tags : list Tag)
  : prog (result unit Message) :=
  await now <- perform Clock ;;
  await existing <- store (query_events (discovery_query kind channel_id)) ;;
  let min_ts := match existing with
                | Ok (e :: _) => ev_created_at (se_event e) + 1
                | _ => now
                end in
  match sign (Z.max now min_ts) kind tags "" with
  | None => Ret (Err (fmt "failed to sign kind:{kind}" [ANum kind]))
  | Some event =>
      await? out <- lift (perform (Store (ReplaceAddressable community event (Some channel_id)))) ;;
      if snd out then
        await _ <- perform (Dispatch pod community (fst out) (event_kind_u32 (se_event (fst out)))
                              (to_hex relay_pubkey) None) ;;
        Ret (Ok tt)
      else Ret (Ok tt)
  end.

(** NIP-DV: the direct messages that [viewer] has hidden. *)
Definition dm_visibility_query (viewer_hex : string) : EventQuery :=
  mkQuery community None (Some [KIND_DM_VISIBILITY]) (Some relay_pubkey) None None (Some 1) None None
    (Some viewer_hex) None None false None None None None None None.
Definition publish_dm_visibility_snapshot (viewer : Bytes) : prog (result unit Message) :=
  let viewer_hex := to_hex viewer in
  await? hidden <- lift (chan (fun db => Ok (list_hidden_dms community viewer db))) ;;
  let tags := ["d"; viewer_hex] :: ["p"; viewer_hex]
                :: ((fun channel_id => ["h"; uuid_to_string channel_id]) <$> hidden) in
  await now <- perform Clock ;;
  await existing <- store (query_events (dm_visibility_query viewer_hex)) ;;
  let ts := match existing with
            | Ok (e :: _) => Z.max (ev_created_at (se_event e) + 1) now
            | _ => now
            end in
  match sign ts KIND_DM_VISIBILITY tags "" with
  | None => Ret (Err (fmt "failed to sign kind:{KIND_DM_VISIBILITY}" [ANum KIND_DM_VISIBILITY]))
  | Some event =>
      await? out <- lift (perform (Store (ReplaceParameterized community event viewer_hex None))) ;;
      if snd out then
        await _ <- perform (Dispatch pod community (fst out) KIND_DM_VISIBILITY (to_hex relay_pubkey) None) ;;
        Ret (Ok tt)
      else Ret (Ok tt)
  end.

Definition text_tag (name : string) (text : option string) : list Tag :=
  match text with
  | Some t => if str_is_empty t then [] else [[name; t]]
  | None => []
  end.
Definition group_metadata_tags (channel_id : Uuid) (channel : ChannelRow) (members : list MemberRecord)
  : list Tag :=
  [["d"; uuid_to_string channel_id]; ["name"; ch_name channel]]
  ++ text_tag "about" (ch_description channel)
  ++ [[if bool_decide (ch_visibility channel = ChannelVisibility.Private) then "private" else "public"]]
  ++ (if bool_decide (ch_type channel = ChannelType.Dm)
      then ["hidden"] :: ((fun m => ["p"; to_hex (mr_pubkey m)]) <$> members) else [])
  ++ [["closed"]; ["t"; ChannelType.as_str (ch_type channel)]]
  ++ text_tag "topic" ((fun t => t.1.1) <$> ch_topic channel)
  ++ text_tag "purpose" ((fun t => t.1.1) <$> ch_purpose channel)
  ++ (if bool_decide (is_Some (ch_archived_at channel)) then [["archived"; "true"]] else [])
  ++ match ch_ttl_seconds channel with Some ttl => [["ttl"; pretty.pretty ttl]] | None => [] end
  ++ match ch_ttl_deadline channel with Some d => [["ttl_deadline"; rfc3339 d]] | None => [] end.
Definition group_admins_tags (channel_id : Uuid) (members : list MemberRecord) : list Tag :=
  ["d"; uuid_to_string channel_id]
  :: ((fun m => ["p"; to_hex (mr_pubkey m); Role.as_str (mr_role m)]) <$>
      List.filter (fun m => Role.is_elevated (mr_role m)) members).
Definition group_members_tags (channel_id : Uuid) (members : list MemberRecord) : list Tag :=
  ["d"; uuid_to_string channel_id]
  :: ((fun m => ["p"; to_hex (mr_pubkey m); ""; Role.as_str (mr_role m)]) <$> members).

Definition emit_group_discovery_events (channel_id : Uuid) : prog (result unit Message) :=
  await? channel <- lift (chan (get_channel community channel_id)) ;;
  await? members <- lift (chan (fun db => Ok (get_members community channel_id db))) ;;
  await? _ <- emit_addressable_discovery_event channel_id KIND_NIP29_GROUP_METADATA
                (group_metadata_tags channel_id channel members) ;;
  await? _ <- emit_addressable_discovery_event channel_id KIND_NIP29_GROUP_ADMINS
                (group_admins_tags channel_id members) ;;
  emit_addressable_discovery_event channel_id KIND_NIP29_GROUP_MEMBERS
    (group_members_tags channel_id members).

(** * Live subscriptions and workflows of those who leave *)

Definition evict_conn_channel_subscriptions (channel_id : Uuid) (conn_id : ConnId) : prog unit :=
  perform (Evict pod community conn_id channel_id).
Definition evict_live_channel_subscriptions (channel_id : Uuid) (target_pubkey : Bytes) : prog unit :=
  await conn_ids <- perform (ConnsOf pod community target_pubkey) ;;
  for_all conn_ids (evict_conn_channel_subscriptions channel_id).
Definition evict_non_member_channel_subscriptions (channel_id : Uuid) : prog (result unit Message) :=
  await? members <- lift (chan (fun db => Ok (get_members community channel_id db))) ;;
  await conn_ids <- perform (SubscribersOf pod community channel_id) ;;
  await _ <- for_all conn_ids (fun conn_id =>
    await pubkey <- perform (PubkeyOf pod conn_id) ;;
    let is_member := match pubkey with
                     | Some pk => existsb (fun m => bool_decide (mr_pubkey m = pk)) members
                     | None => false
                     end in
    if is_member then Ret tt else evict_conn_channel_subscriptions channel_id conn_id) ;;
  Ret (Ok tt).
Definition evict_all_channel_subscriptions (channel_id : Uuid) : prog unit :=
  await conn_ids <- perform (SubscribersOf pod community channel_id) ;;
  for_all conn_ids (evict_conn_channel_subscriptions channel_id).
(** The rows of the workflows are not part of the world; their caches go with them. *)
Definition disable_departed_member_workflows (channel_id : Uuid) (target_pubkey : Bytes) : prog unit :=
  perform (Leave (WorkflowsDisabled community channel_id target_pubkey)).

Definition invalidate_membership (channel_id : Uuid) (pubkey : Bytes) : prog unit :=
  await _ <- perform (InvalidateMember pod community channel_id pubkey) ;;
  perform (Leave (CachesInvalidated community (Some channel_id))).
Definition invalidate_channel_visibility (channel_id : Uuid) : prog unit :=
  await _ <- perform (InvalidateVisibility pod community channel_id) ;;
  perform (Leave (CachesInvalidated community (Some channel_id))).
(** The cache of accessible channels is not part of the world. *)
Definition invalidate_all_accessible_channels : prog unit :=
  perform (Leave (CachesInvalidated community None)).
Definition invalidate_channel_deleted : prog unit :=
  await _ <- perform (InvalidateDeleted pod community) ;;
  perform (Leave (CachesInvalidated community None)).

(** * After storage *)

(** What several handlers end with. *)
Definition announce (channel_id : Uuid) (fields : list (string * Value Number))
    (target actor : Bytes) (notification_kind : Z) : prog (result unit Message) :=
  await? _ <- emit_system_message channel_id fields ;;
  await? _ <- logged (emit_group_discovery_events channel_id) ;;
  logged (emit_membership_notification channel_id target actor notification_kind).

Definition handle_agent_profile (event : Event) : prog (result unit Message) :=
  try? content := match json_from_str (ev_content event) with
                  | Some v => Ok v
                  | None => Err (msg "kind:10100 content parse error: {e}")
                  end in
  try? policy := match json_get "channel_add_policy" content ≫= json_as_str with
                 | Some p => Ok p
                 | None => Err (msg "kind:10100 missing channel_add_policy field")
                 end in
  let pubkey := ev_pubkey event in
  await? _ <- lift (perform (Chan (EnsureUser community pubkey))) ;;
  lift (perform (Chan (SetAddPolicy community pubkey policy))).

Definition handle_put_user (event : Event) : prog (result unit Message) :=
  match extract_h_tag_channel event, extract_p_tag event with
  | None, _ => Ret (Err (msg "missing h tag"))
  | Some _, None => Ret (Err (msg "missing p tag"))
  | Some channel_id, Some target_pubkey =>
      await? role <-
        match extract_tag_value event "role" with
        | Some s => Ret (match Role.from_str s with
                         | Ok r => Ok r
                         | Err _ => Err (fmt "invalid role: {role_str}" [AText s])
                         end)
        | None =>
            await? members <- lift (chan (fun db => Ok (get_members community channel_id db))) ;;
            Ret (Ok (default Member (mr_role <$> find_member target_pubkey members)))
        end ;;
      let actor := ev_pubkey event in
      await? _ <- lift (perform (Chan (AddMember community channel_id target_pubkey role (Some actor)))) ;;
      await _ <- invalidate_membership channel_id target_pubkey ;;
      announce channel_id [("type", json_str "member_joined"); ("actor", json_str (to_hex actor));
                           ("target", json_str (to_hex target_pubkey))]
        target_pubkey actor KIND_MEMBER_ADDED_NOTIFICATION
  end.

(** The guard against a channel without owners, before the removal that enforces it. *)
Definition last_owner_leaves (members : list MemberRecord) (actor : Bytes) : bool :=
  is_owner_in members actor && Nat.leb (length (owners members)) 1.
Definition LAST_OWNER : Message := msg "cannot remove the last owner — transfer ownership first".

Definition handle_remove_user (event : Event) : prog (result unit Message) :=
  match extract_h_tag_channel event, extract_p_tag event with
  | None, _ => Ret (Err (msg "missing h tag"))
  | Some _, None => Ret (Err (msg "missing p tag"))
  | Some channel_id, Some target_pubkey =>
      let actor := ev_pubkey event in
      await? _ <- (if bool_decide (target_pubkey = actor) then
                     await? members <- lift (chan (fun db => Ok (get_members community channel_id db))) ;;
                     Ret (if last_owner_leaves members actor then Err LAST_OWNER else Ok tt)
                   else Ret (Ok tt)) ;;
      await? _ <- lift (perform (Chan (RemoveMember community channel_id target_pubkey actor))) ;;
      await _ <- invalidate_membership channel_id target_pubkey ;;
      await _ <- evict_live_channel_subscriptions channel_id target_pubkey ;;
      await _ <- disable_departed_member_workflows channel_id target_pubkey ;;
      let msg_type := if bool_decide (target_pubkey = actor) then "member_left" else "member_removed" in
      announce channel_id [("type", json_str msg_type); ("actor", json_str (to_hex actor));
                           ("target", json_str (to_hex target_pubkey))]
        target_pubkey actor KIND_MEMBER_REMOVED_NOTIFICATION
  end.

(** One tag of kind 9002. *)
Definition update (channel_id : Uuid) (u : ChannelUpdate) : prog (result unit Message) :=
  await? _ <- lift (perform (Chan (UpdateChannel community channel_id u))) ;; Ret (Ok tt).
Definition edit_visibility (channel_id : Uuid) (actor_field : string * Value Number) (val : string)
  : prog (result unit Message) :=
  await was_open <- reads_open channel_id ;;
  await? _ <- update channel_id (mkUpdate None None (Some val) None) ;;
  await _ <- invalidate_all_accessible_channels ;;
  await _ <- invalidate_channel_visibility channel_id ;;
  await? _ <- (if was_open && String.eqb val "private"
               then evict_non_member_channel_subscriptions channel_id else Ret (Ok tt)) ;;
  emit_system_message channel_id
    [("type", json_str "visibility_changed"); actor_field; ("visibility", json_str val)].
Definition edit_ttl (channel_id : Uuid) (actor_field : string * Value Number) (val : string)
  : prog (result unit Message) :=
  try? ttl_change :=
    (if str_is_empty val then Ok None
     else match parse_i32 val with
          | Some n => Ok (Some n)
          | None => Err (fmt "invalid ttl value: {val} (must be a positive integer)" [AText val])
          end) in
  await? _ <- update channel_id (mkUpdate None None None (Some ttl_change)) ;;
  emit_system_message channel_id
    [("type", json_str "ttl_changed"); actor_field; ("ttl_seconds", json_ttl ttl_change)].
Definition edit_archived (channel_id : Uuid) (actor : Bytes) (actor_field : string * Value Number)
    (val : string) : prog (result unit Message) :=
  if String.eqb val "true" then
    await? _ <- lift (perform (Chan (ArchiveChannel community channel_id))) ;;
    emit_system_message channel_id [("type", json_str "channel_archived"); actor_field]
  else if String.eqb val "false" then
    await? _ <- lift (perform (Chan (UnarchiveChannel community channel_id))) ;;
    await? _ <- emit_system_message channel_id [("type", json_str "channel_unarchived"); actor_field] ;;
    await? members <- lift (chan (fun db => Ok (get_members community channel_id db))) ;;
    for_each members (fun m =>
      logged (emit_membership_notification channel_id (mr_pubkey m) actor KIND_MEMBER_ADDED_NOTIFICATION))
  else Ret (Ok tt).
Definition edit_tag (channel_id : Uuid) (actor : Bytes) (t : Tag) : prog (result unit Message) :=
  let actor_field := ("actor", json_str (to_hex actor)) in
  match tag_content t with
  | None => Ret (Ok tt)
  | Some val =>
      let key := tag_kind t in
      if String.eqb key "name" then update channel_id (mkUpdate (Some val) None None None)
      else if String.eqb key "about" then update channel_id (mkUpdate None (Some val) None None)
      else if String.eqb key "topic" then
        await? _ <- lift (perform (Chan (SetTopic community channel_id val actor))) ;;
        emit_system_message channel_id
          [("type", json_str "topic_changed"); actor_field; ("topic", json_str val)]
      else if String.eqb key "purpose" then
        await? _ <- lift (perform (Chan (SetPurpose community channel_id val actor))) ;;
        emit_system_message channel_id
          [("type", json_str "purpose_changed"); actor_field; ("purpose", json_str val)]
      else if String.eqb key "visibility" then edit_visibility channel_id actor_field val
      else if String.eqb key "ttl" then edit_ttl channel_id actor_field val
      else if String.eqb key "archived" then edit_archived channel_id actor actor_field val
      else Ret (Ok tt)
  end.
Definition handle_edit_metadata (event : Event) : prog (result unit Message) :=
  match extract_h_tag_channel event with
  | None => Ret (Err (msg "missing h tag"))
  | Some channel_id =>
      await? _ <- for_each (ev_tags event) (edit_tag channel_id (ev_pubkey event)) ;;
      logged (emit_group_discovery_events channel_id)
  end.

(** Kind 9005, in the database and to the subscribers. *)
Definition optional_field (event : Event) (tag_name : string) : list (string * Value Number) :=
  match extract_tag_value event tag_name with Some v => [(tag_name, json_str v)] | None => [] end.
Definition delete_with_thread (target_id : Bytes) (text : string)
  : prog (result (bool * option Bytes) Message) :=
  await? meta <- because "get_thread_metadata failed: {e}"
                   (store (fun db => Ok (get_thread_metadata_by_event community target_id db))) ;;
  let parent_id := meta ≫= tr_parent_event_id in
  let root_id := meta ≫= tr_root_event_id in
  await? deleted <- because text (perform (Store (DeleteWithThread community target_id parent_id root_id))) ;;
  Ret (Ok (deleted : bool, root_id)).

Definition handle_delete_event_side_effect (event : Event) : prog (result unit Message) :=
  match extract_h_tag_channel event, find_map decode32 (contents_of "e" event) with
  | None, _ => Ret (Err (msg "missing h tag"))
  | Some _, None => Ret (Err (msg "missing e tag for target event"))
  | Some channel_id, Some target_id =>
      await? found <- because "get_event_by_id failed: {e}"
                        (store (get_event_by_id_including_deleted community target_id)) ;;
      try? _ := match se_channel_id <$> found with
                | None => Ok tt
                | Some (Some target_ch) =>
                    if bool_decide (target_ch = channel_id) then Ok tt
                    else Err (msg "target event belongs to a different channel")
                | Some None => Err (msg "target event has no channel")
                end in
      await? out <- delete_with_thread target_id "soft_delete_event failed: {e}" ;;
      if negb (fst out) then Ret (Ok tt)
      else
        await _ <- match snd out with
                   | Some root_id => emit_live_thread_summary channel_id root_id
                   | None => Ret tt
                   end ;;
        emit_system_message channel_id
          ([("type", json_str "message_deleted"); ("actor", json_str (to_hex (ev_pubkey event)));
            ("target_event_id", json_str (to_hex target_id))]
           ++ optional_field event "action_id" ++ optional_field event "reason_code"
           ++ optional_field event "public_reason")
  end.

Definition create (event : Event) (name : string) (type : ChannelType.t) (visibility : ChannelVisibility.t)
  : prog (result Uuid Message) :=
  await? out <- lift (perform (Chan (CreateChannel community name type visibility
                   (extract_tag_value event "about") (ev_pubkey event)
                   (resolve_ttl event (cx_ephemeral_ttl_override cx))))) ;;
  Ret (Ok (snd out)).
Definition handle_create_group (event : Event) : prog (result unit Message) :=
  match extract_tag_value event "name" with
  | None => Ret (Err (msg "missing name tag"))
  | Some name =>
      let visibility_str := default "open" (extract_tag_value event "visibility") in
      let channel_type_str := default "stream" (extract_tag_value event "channel_type") in
      match ChannelVisibility.from_str visibility_str, ChannelType.from_str channel_type_str with
      | Err _, _ => Ret (Err (fmt "invalid visibility: {visibility_str}" [AText visibility_str]))
      | Ok _, Err _ => Ret (Err (fmt "invalid channel_type: {channel_type_str}" [AText channel_type_str]))
      | Ok visibility, Ok channel_type =>
          let actor := ev_pubkey event in
          await? channel_id <-
            match extract_h_tag_channel event with
            | Some client_uuid =>
                await ch <- chan (get_channel community client_uuid) ;;
                match ch with
                | Ok _ => Ret (Ok client_uuid)
                | Err _ => create event name channel_type visibility
                end
            | None => create event name channel_type visibility
            end ;;
          await _ <- invalidate_membership channel_id actor ;;
          await _ <- (if bool_decide (visibility = ChannelVisibility.Open)
                      then invalidate_all_accessible_channels else Ret tt) ;;
          announce channel_id [("type", json_str "channel_created"); ("actor", json_str (to_hex actor))]
            actor actor KIND_MEMBER_ADDED_NOTIFICATION
      end
  end.

Definition handle_delete_group (event : Event) : prog (result unit Message) :=
  match extract_h_tag_channel event with
  | None => Ret (Err (msg "missing h tag"))
  | Some channel_id =>
      await? _ <- because "soft_delete_channel failed: {e}"
                    (perform (Chan (DeleteChannel community channel_id))) ;;
      await _ <- perform (Store (DeleteDiscovery community channel_id relay_pubkey)) ;;
      await _ <- invalidate_channel_deleted ;;
      emit_system_message channel_id
        [("type", json_str "channel_deleted"); ("actor", json_str (to_hex (ev_pubkey event)))]
  end.

Definition handle_join_request (event : Event) : prog (result unit Message) :=
  match extract_h_tag_channel event with
  | None => Ret (Err (msg "missing h tag"))
  | Some channel_id =>
      let actor := ev_pubkey event in
      await? channel <- or_else "channel not found" (chan (get_channel community channel_id)) ;;
      if negb (bool_decide (ch_visibility channel = ChannelVisibility.Open))
      then Ret (Err (msg "channel is private — request an invitation"))
      else
        await? is_member <- lift (perform (CachedMember pod community channel_id actor)) ;;
        if is_member : bool then Ret (Ok tt)
        else
          await? _ <- lift (perform (Chan (AddMember community channel_id actor Member None))) ;;
          await _ <- invalidate_membership channel_id actor ;;
          announce channel_id [("type", json_str "member_joined"); ("actor", json_str (to_hex actor));
                               ("target", json_str (to_hex actor))]
            actor actor KIND_MEMBER_ADDED_NOTIFICATION
  end.

Definition handle_leave_request (event : Event) : prog (result unit Message) :=
  match extract_h_tag_channel event with
  | None => Ret (Err (msg "missing h tag"))
  | Some channel_id =>
      let actor := ev_pubkey event in
      await? members <- lift (chan (fun db => Ok (get_members community channel_id db))) ;;
      if last_owner_leaves members actor then Ret (Err LAST_OWNER)
      else
        await? _ <- lift (perform (Chan (RemoveMember community channel_id actor actor))) ;;
        await _ <- invalidate_membership channel_id actor ;;
        await _ <- evict_live_channel_subscriptions channel_id actor ;;
        await _ <- disable_departed_member_workflows channel_id actor ;;
        announce channel_id [("type", json_str "member_left"); ("actor", json_str (to_hex actor))]
          actor actor KIND_MEMBER_REMOVED_NOTIFICATION
  end.

(** * Deletions *)

(** [delete_workflow d_tag actor] is the branch for workflow definitions, whose tables are not
    part of the world. *)
Definition handle_a_tag_deletion (delete_workflow : string -> Bytes -> prog (result unit Message))
    (event : Event) : prog (result unit Message) :=
  match extract_tag_value event "a" with
  | None => Ret (Err (msg "missing a tag for addressable deletion"))
  | Some a_value =>
      match (parts ← split_once ":" a_value; rest ← split_once ":" parts.2; Some (parts.1, rest.1, rest.2)) with
      | None => Ret (Err (fmt "invalid a-tag format: {a_value}" [AText a_value]))
      | Some (kind_text, pubkey_hex, d_tag) =>
          match parse_u32 kind_text with
          | None => Ret (Err (msg "invalid kind in a-tag"))
          | Some kind_num =>
              if kind_num =? KIND_PUSH_LEASE then Ret (Ok tt)
              else if kind_num =? KIND_WORKFLOW_DEF then delete_workflow d_tag (author_of event)
              else if is_parameterized_replaceable kind_num then
                match hex_decode pubkey_hex with
                | None => Ret (Err (fmt "invalid pubkey hex in a-tag {pubkey_hex}: {e}" [AText pubkey_hex]))
                | Some pubkey =>
                    await? _ <- because "failed to soft-delete by coordinate: {e}"
                      (perform (Store (DeleteByCoordinate community kind_num pubkey d_tag
                                         (to_i64 (ev_created_at event))))) ;;
                    Ret (Ok tt)
                end
              else Ret (Ok tt)
          end
      end
  end.

(** The target of a reaction: its last [e] tag with an id. *)
Definition reaction_target (event : Event) : option string := last (hex_targets event).
Definition reaction_emoji (event : Event) : string :=
  if str_is_empty (ev_content event) then "+" else ev_content event.
(** The removal of the reaction row of a deleted reaction; failures are dropped. *)
Definition remove_reaction_of (target_id : Bytes) (reaction : Event) : prog unit :=
  await removed <- perform (Store (RemoveReactionBySource community target_id)) ;;
  match removed with
  | Ok true => Ret tt
  | _ =>
      match reaction_target reaction ≫= hex_decode with
      | None => Ret tt
      | Some react_target_id =>
          await found <- store (get_event_by_id community react_target_id) ;;
          match found with
          | Ok (Some react_target) =>
              await now <- perform Clock ;;
              let at_ := default now (from_timestamp (to_i64 (ev_created_at (se_event react_target)))) in
              await _ <- perform (Store (RemoveReaction community react_target_id at_
                           (effective_message_author reaction relay_pubkey) (reaction_emoji reaction))) ;;
              Ret tt
          | _ => Ret tt
          end
      end
  end.
Definition delete_target (target_id : Bytes) : prog (result unit Message) :=
  await? found <- lift (store (get_event_by_id_including_deleted community target_id)) ;;
  match found with
  | None => Ret (Ok tt)
  | Some target =>
      if ev_kind (se_event target) =? KIND_PUSH_LEASE then Ret (Ok tt)
      else
        await? out <- delete_with_thread target_id "{e}" ;;
        if negb (fst out) then Ret (Ok tt)
        else
          await _ <- match snd out, se_channel_id target with
                     | Some root_id, Some channel_id => emit_live_thread_summary channel_id root_id
                     | _, _ => Ret tt
                     end ;;
          await _ <- (if ev_kind (se_event target) =? KIND_REACTION
                      then remove_reaction_of target_id (se_event target) else Ret tt) ;;
          Ret (Ok tt)
  end.
Definition handle_standard_deletion_event (delete_workflow : string -> Bytes -> prog (result unit Message))
    (event : Event) : prog (result unit Message) :=
  if negb (has_e_tag event) then handle_a_tag_deletion delete_workflow event
  else for_each (extract_target_event_ids event) delete_target.

(** * Dispatch *)

Definition is_admin_kind (kind : Z) : bool := (9000 <=? kind) && (kind <=? 9022).
Definition is_side_effect_kind (kind : Z) : bool :=
  is_admin_kind kind || mem_kind kind [0; 5; KIND_GIT_REPO_ANNOUNCEMENT; KIND_AGENT_PROFILE; 40099]
  || ((41001 <=? kind) && (kind <=? 41003)).
End requests.

(** The handlers that work on tables outside the world: profiles ([handle_kind0_profile]),
    repositories ([handle_git_repo_announcement]) and workflow definitions. *)
Record OtherEffects := mkOtherEffects {
  handle_kind0_profile : Ctx -> Event -> prog (result unit Message);
  handle_git_repo_announcement : Ctx -> Event -> prog (result unit Message);
  delete_workflow : Ctx -> string -> Bytes -> prog (result unit Message)
}.

Definition handle_side_effects (other : OtherEffects) (cx : Ctx) (kind : Z) (event : Event)
  : prog (result unit Message) :=
  if kind =? 0 then handle_kind0_profile other cx event
  else if kind =? 5 then handle_standard_deletion_event cx (delete_workflow other cx) event
  else if kind =? 9000 then handle_put_user cx event
  else if kind =? 9001 then handle_remove_user cx event
  else if kind =? 9002 then handle_edit_metadata cx event
  else if kind =? 9005 then handle_delete_event_side_effect cx event
  else if kind =? 9007 then handle_create_group cx event
  else if kind =? 9008 then handle_delete_group cx event
  else if kind =? 9021 then handle_join_request cx event
  else if kind =? 9022 then handle_leave_request cx event
  else if kind =? KIND_GIT_REPO_ANNOUNCEMENT then handle_git_repo_announcement other cx event
  else if kind =? KIND_AGENT_PROFILE then handle_agent_profile cx event
  else Ret (Ok tt).
End groups.
