(* ===== verification/Moderators.v ===== *)
(** Moderators: the handlers of moderation commands, relay administration and reports.

    [moderation_commands.rs] (9040-9044), [relay_admin.rs] (9030-9033), [report.rs] (1984)
    and the notices of [moderation_notices.rs], as programs over the world of [Relay].  Their
    tables, their policy and their parsers are in [Moderation]. *)
From S2P Require Import Prelude Programs Nostr Kinds Filters Text Json EventStore Threads Envelopes Conformance Channel Membership Subscription ReadPath Delivery Moderation Relay Groups.
Local Open Scope string_scope.
Local Open Scope list_scope.
Local Open Scope Z_scope.
Local Open Scope buzz_scope.

(** [event_ts - now] and [i64::abs] as a release build computes them. *)
Definition wrap_i64 (x : Z) : Z := (x + 2 ^ 63) mod 2 ^ 64 - 2 ^ 63.
Definition abs_i64 (x : Z) : Z := wrap_i64 (Z.abs x).
Definition timestamp_delta (event : Event) (now : Z) : Z := wrap_i64 (to_i64 (ev_created_at event) - now).
Definition out_of_range (limit : Z) (event : Event) (now : Z) : bool :=
  limit <? abs_i64 (timestamp_delta event now).
Definition MAX_COMMAND_SKEW_SECS : Z := 120.
Definition stale (event : Event) (now : Z) : bool := out_of_range MAX_COMMAND_SKEW_SECS event now.
Definition range_error (text : string) (event : Event) (now : Z) : Message :=
  fmt text [ANum (to_i64 (ev_created_at event)); ANum now; ANum (timestamp_delta event now)].

(** What an action is aimed at, and the notices that moderation sends. *)
Inductive ModerationTarget :=
| AtEvent (id : Bytes)
| AtPubkey (pubkey : Bytes)
| AtNothing.
Inductive ModerationNotice :=
| ReportResolved (report_id : Uuid) (status summary : string)
| ContentActioned (action_id : Uuid) (public_reason : string)
| Restriction (action_id : Uuid) (kind public_reason : string).

Definition source_id (n : ModerationNotice) : Uuid :=
  match n with
  | ReportResolved id _ _ | ContentActioned id _ | Restriction id _ _ => id
  end.
Definition blank_line : string := String (ascii_of_N 10) (String (ascii_of_N 10) EmptyString).
Definition body (host : string) (n : ModerationNotice) : string :=
  match n with
  | ReportResolved _ status summary =>
      let outcome :=
        if String.eqb status "resolved" then "was reviewed and acted on"
        else if String.eqb status "dismissed" then "was reviewed; no action was taken"
        else if String.eqb status "escalated" then "was escalated for further review"
        else status in
      "Thanks for your report to " +:+ host +:+ ". Your report " +:+ outcome +:+ "." +:+ blank_line +:+ summary
  | ContentActioned _ public_reason =>
      "A moderator in " +:+ host +:+ " took action on your content." +:+ blank_line
      +:+ "Reason: " +:+ public_reason
  | Restriction _ kind public_reason =>
      let action :=
        if String.eqb kind "ban" then "You have been banned from"
        else if String.eqb kind "timeout" then "You have been timed out in" else kind in
      action +:+ " " +:+ host +:+ "." +:+ blank_line +:+ "Reason: " +:+ public_reason
  end.
Definition MODERATION_SOURCE_TAG : string := "moderation_source".

Section moderators.
Context `{A : NostrApi} `{U : UuidParse} `{SD : StoreDeps} `{H : HashIter} `{DG : Digest} `{K : RelayKeys} `{J : SerdeJson} `{CT : ChronoText} `{JP : !JsonParse}.
Context (cx : Ctx).
Let community := cx_community cx.
Let pod := cx_pod cx.

(** [moderation_restriction_state]: its clock is the server's. *)
Definition restriction_of (pubkey : Bytes) : prog (result RestrictionState DbError) :=
  await? seen <- perform ReadMod ;;
  Ret (Ok (restriction_state (fst seen) community pubkey (snd seen))).

(** * Notices *)

Definition relay_hex : string := to_hex relay_pubkey.
Definition publish_moderation_profile : prog (result unit Message) :=
  let name := cx_host cx +:+ " Moderation" in
  let metadata := json_text
    [("name", json_str name); ("display_name", json_str name);
     ("about", json_str "Automated notices about moderation actions in this community. Replies are not monitored.")] in
  await? event <- signed 0 [] metadata "failed to sign moderation profile: {e}" ;;
  await? out <- lift (perform (Store (ReplaceAddressable community event None))) ;;
  if snd out then
    await _ <- perform (Dispatch pod community (fst out) (event_kind_u32 (se_event (fst out))) relay_hex None) ;;
    Ret (Ok tt)
  else Ret (Ok tt).

Definition notice_query (dm_channel_id : Uuid) : EventQuery :=
  mkQuery community (Some dm_channel_id) (Some [KIND_STREAM_MESSAGE]) None None None (Some 1000) None None
    None None None false (Some [relay_pubkey]) None None None None None.
Definition names_source (id : string) (event : Event) : bool :=
  existsb (fun parts =>
    match parts with
    | n :: v :: _ => String.eqb n MODERATION_SOURCE_TAG && String.eqb v id
    | _ => false
    end) (ev_tags event).
Definition notice_already_sent (dm_channel_id id : Uuid) : prog (result bool Message) :=
  lift (store (fun db =>
    let? existing := query_events (notice_query dm_channel_id) db in
    Ok (existsb (fun stored => names_source (uuid_to_string id) (se_event stored)) existing))).

Definition send_moderation_notice (recipient : Bytes) (notice : ModerationNotice)
  : prog (result unit Message) :=
  if negb (is_32 recipient)
  then Ret (Err (fmt "moderation notice recipient must be a 32-byte pubkey, got {}"
                   [ANum (Z.of_nat (length recipient))]))
  else if bool_decide (recipient = relay_pubkey) then Ret (Ok tt)
  else
    await? dm <- lift (perform (Chan (OpenDm community [recipient] relay_pubkey))) ;;
    let dm_channel_id := snd (fst (fst dm)) in
    await? _ <- lift (perform (Chan (UnhideDm community dm_channel_id recipient))) ;;
    await? sent <- notice_already_sent dm_channel_id (source_id notice) ;;
    if sent : bool then Ret (Ok tt)
    else
      await? _ <- logged publish_moderation_profile ;;
      await? _ <- emit_group_discovery_events cx dm_channel_id ;;
      await? event <- signed KIND_STREAM_MESSAGE
        [["h"; uuid_to_string dm_channel_id]; [MODERATION_SOURCE_TAG; uuid_to_string (source_id notice)]]
        (body (cx_host cx) notice) "failed to sign moderation notice: {e}" ;;
      await? out <- lift (perform (Store (InsertEvent community event (Some dm_channel_id)))) ;;
      await _ <- perform (Dispatch pod community (fst out) (event_kind_u32 (se_event (fst out))) relay_hex None) ;;
      Ret (Ok tt).

(** * Authorization *)

Definition community_role (pubkey : Bytes) : prog (result (option string) Message) :=
  lift (moderation (fun db => Ok (role_of db community (to_hex pubkey)))).
Definition authorize_moderation_action (actor : Bytes) (channel_id : option Uuid)
    (target : ModerationTarget) (action : ModerationAction) : prog (result ModerationAuthority Message) :=
  await? actor_role <- community_role actor ;;
  await? target_role <-
    match target with
    | AtPubkey pk =>
        if is_role "admin" actor_role && restricts action then community_role pk else Ret (Ok None)
    | _ => Ret (Ok None)
    end ;;
  await? channel_role <-
    match channel_id with
    | Some ch =>
        if negb (is_steward actor_role) && channel_local action
        then lift (chan (fun db => Ok (Role.as_str <$> get_member_role community ch actor db)))
        else Ret (Ok None)
    | None => Ret (Ok None)
    end ;;
  Ret (map_err msg (decide_authority actor_role target_role channel_role action)).

(** * Moderation commands *)

Definition invalid (m : Message) : Message := fmt "invalid: {}" [AMsg m].
Definition error (m : Message) : Message := fmt "error: {}" [AMsg m].
(** [p.await.map_err(|e| error(format!("text: {e}")))] *)
Definition or_error {B : Type} (text : string) (p : prog (result B DbError)) : prog (result B Message) :=
  prog_map_err (fun e => error (fmt text [AText (db_error_text e)])) p.
Definition authz_denial (e : Message) : Message := fmt "restricted: {e}" [AMsg e].
Definition authorized (actor : Bytes) (target : ModerationTarget) (action : ModerationAction)
  : prog (result ModerationAuthority Message) :=
  prog_map_err authz_denial (authorize_moderation_action actor None target action).
Definition insert_audit (actor : Bytes) (action : string) (target_pubkey target_event_id : option Bytes)
    (public_reason : option string) : prog (result Uuid Message) :=
  or_error "failed to write audit row: {e}"
    (perform (Moderate (AddAction community actor action target_pubkey target_event_id public_reason))).
Definition BANNED_TEXT : string := "blocked: you are banned from this community".
Definition NO_P_TAG : Message := invalid (msg "missing or invalid p tag").

(** 9040; [disconnect_pubkey_clusterwide] closes the sockets of this pod and tells the others. *)
Definition handle_ban (event : Event) (actor : Bytes) : prog (result unit Message) :=
  match extract_p_tag_bytes event with
  | None => Ret (Err NO_P_TAG)
  | Some target =>
      try? expires_at := extract_expiration event in
      let reason := extract_named_value "reason" event in
      await? _ <- authorized actor (AtPubkey target) Ban ;;
      await? _ <- or_error "database error: {e}"
                    (perform (Moderate (BanMember community target actor reason expires_at))) ;;
      await? action_id <- insert_audit actor "ban" (Some target) None reason ;;
      await _ <- perform (Leave (Disconnected community target)) ;;
      logged (send_moderation_notice target (Restriction action_id "ban" (default "" reason)))
  end.
(** 9041 *)
Definition handle_unban (event : Event) (actor : Bytes) : prog (result unit Message) :=
  match extract_p_tag_bytes event with
  | None => Ret (Err NO_P_TAG)
  | Some target =>
      await? _ <- authorized actor (AtPubkey target) Unban ;;
      await? lifted <- or_error "database error: {e}" (perform (Moderate (UnbanMember community target actor))) ;;
      if negb lifted then Ret (Err (invalid (msg "member is not banned")))
      else
        await? _ <- insert_audit actor "unban" (Some target) None None ;;
        Ret (Ok tt)
  end.
(** 9042 *)
Definition handle_timeout (event : Event) (actor : Bytes) : prog (result unit Message) :=
  match extract_p_tag_bytes event with
  | None => Ret (Err NO_P_TAG)
  | Some target =>
      try? expiration := extract_expiration event in
      match expiration with
      | None => Ret (Err (invalid (msg "timeout requires an expiration tag")))
      | Some muted_until =>
          let reason := extract_named_value "reason" event in
          await? _ <- authorized actor (AtPubkey target) Timeout ;;
          await? _ <- or_error "database error: {e}"
                        (perform (Moderate (TimeoutMember community target actor muted_until reason))) ;;
          await? action_id <- insert_audit actor "timeout" (Some target) None reason ;;
          logged (send_moderation_notice target (Restriction action_id "timeout" (default "" reason)))
      end
  end.
(** 9043 *)
Definition handle_untimeout (event : Event) (actor : Bytes) : prog (result unit Message) :=
  match extract_p_tag_bytes event with
  | None => Ret (Err NO_P_TAG)
  | Some target =>
      await? _ <- authorized actor (AtPubkey target) Untimeout ;;
      await? cleared <- or_error "database error: {e}"
                          (perform (Moderate (UntimeoutMember community target actor))) ;;
      if negb cleared then Ret (Err (invalid (msg "member is not timed out")))
      else
        await? _ <- insert_audit actor "untimeout" (Some target) None None ;;
        Ret (Ok tt)
  end.
(** 9044 *)
Definition RESOLUTIONS : list string := ["delete"; "kick"; "ban"; "timeout"; "dismiss"; "escalate"].
Definition NOT_OPEN : Message := invalid (msg "report is not open (already resolved or dismissed)").
Definition audit_targets (t : ReportTarget) : option Bytes * option Bytes :=
  match t with
  | TargetPubkey p => (Some p, None)
  | TargetEvent e => (None, Some e)
  | TargetBlob _ => (None, None)
  end.
Definition resolution (event : Event) : result (Bytes * string * string) Message :=
  match extract_report_tag event, extract_named_value "status" event, extract_named_value "action" event with
  | None, _, _ => Err (invalid (msg "missing or invalid report tag (expect 64-hex event id)"))
  | Some _, None, _ => Err (invalid (msg "missing status tag"))
  | Some _, Some _, None => Err (invalid (msg "missing action tag"))
  | Some report_event_id, Some status, Some action =>
      if negb (String.eqb status "resolved") && negb (String.eqb status "dismissed")
      then Err (invalid (fmt "invalid status: {status} (expect resolved|dismissed)" [AText status]))
      else if negb (bool_decide (action ∈ RESOLUTIONS))
      then Err (invalid (fmt "invalid action: {action} (expect delete|kick|ban|timeout|dismiss|escalate)"
                           [AText action]))
      else if negb (Bool.eqb (String.eqb action "dismiss") (String.eqb status "dismissed"))
      then Err (invalid (msg "action `dismiss` pairs only with status `dismissed`"))
      else Ok (report_event_id, status, action)
  end.
Definition handle_resolve (event : Event) (actor : Bytes) : prog (result unit Message) :=
  try? parsed := resolution event in
  let '(report_event_id, status, action) := parsed in
  let reason := extract_named_value "reason" event in
  await? _ <- authorized actor (AtEvent report_event_id) ResolveReport ;;
  await? found <- or_error "database error: {e}"
                    (moderation (fun db => Ok (get_report_by_event community report_event_id db))) ;;
  match found with
  | None => Ret (Err (invalid (msg "report not found in this community")))
  | Some (report_id, report) =>
      if negb (String.eqb (rp_status report) "open") then Ret (Err NOT_OPEN)
      else
        let '(target_pubkey, target_event_id) := audit_targets (rp_target report) in
        await? action_id <- insert_audit actor (resolution_audit_action action) target_pubkey target_event_id reason ;;
        await? resolved <- or_error "database error: {e}"
          (perform (Moderate (CloseReport community report_id status actor (Some action_id)))) ;;
        if negb resolved then Ret (Err NOT_OPEN)
        else
          let summary := default (if String.eqb status "dismissed" then "Your report was reviewed and dismissed."
                                  else "Your report was reviewed and acted on.") reason in
          logged (send_moderation_notice (rp_reporter_pubkey report) (ReportResolved report_id status summary))
  end.

Definition SKEW_TEXT : string :=
  "event timestamp out of range: created_at={event_ts}, now={now}, delta={}s (max ±120s)".
Definition handle_moderation_command (event : Event) : prog (result unit Message) :=
  let kind := ev_kind event in
  let actor := ev_pubkey event in
  await? restriction <- or_error "database error checking restriction state: {e}" (restriction_of actor) ;;
  if rs_banned restriction then Ret (Err (msg BANNED_TEXT))
  else
    await now <- perform Clock ;;
    if stale event now then Ret (Err (invalid (range_error SKEW_TEXT event now)))
    else if kind =? KIND_MODERATION_BAN then handle_ban event actor
    else if kind =? KIND_MODERATION_UNBAN then handle_unban event actor
    else if kind =? KIND_MODERATION_TIMEOUT then handle_timeout event actor
    else if kind =? KIND_MODERATION_UNTIMEOUT then handle_untimeout event actor
    else if kind =? KIND_MODERATION_RESOLVE_REPORT then handle_resolve event actor
    else Ret (Err (invalid (fmt "unexpected moderation command kind: {other}" [ANum kind]))).

(** * Relay administration *)

Inductive RelayAdminError :=
| Banned
| RejectedCommand (text : Message)
| InternalFailure (text : Message).
Definition admits_relay_admin_command (restriction : RestrictionState) : result unit RelayAdminError :=
  if rs_banned restriction then Err Banned else Ok tt.

(** [publish_nip43_member_added] (8000) and [publish_nip43_member_removed] (8001). *)
Definition publish_nip43_delta (kind : Z) (target_pubkey_hex : string) : prog (result unit Message) :=
  await? event <- signed kind [["-"]; ["p"; target_pubkey_hex]] "" "failed to sign kind:{kind}: {e}" ;;
  await? out <- lift (perform (Store (InsertEvent community event None))) ;;
  if negb (snd out) then Ret (Ok tt)
  else
    await _ <- perform (FanOut pod community (fst out)) ;;
    Ret (Ok tt).
Definition publish_nip43_membership_list : prog (result unit Message) :=
  await? out <- lift (perform (PublishRoster community)) ;;
  if snd (fst out) then
    await _ <- perform (Dispatch pod community (fst (fst out)) KIND_NIP43_MEMBERSHIP_LIST relay_hex None) ;;
    Ret (Ok tt)
  else Ret (Ok tt).
Definition announce_member (kind : Z) (target_hex : string) : prog (result unit Message) :=
  await? _ <- logged (publish_nip43_delta kind target_hex) ;;
  logged publish_nip43_membership_list.

Definition NOT_STEWARD : Message := msg "actor not authorized: must be admin or owner".
Definition database {B : Type} (p : prog (result B DbError)) : prog (result B Message) :=
  because "database error: {e}" p.

(** 9033 *)
Definition set_workspace_profile (event : Event) (sender_role : string) : prog (result unit Message) :=
  await? community_has_steward <-
    (if cx_require_relay_membership cx then Ret (Ok true)
     else database (moderation (fun db => Ok (has_admin_or_owner community db)))) ;;
  if negb (may_set_workspace_profile sender_role (cx_require_relay_membership cx) community_has_steward)
  then Ret (Err NOT_STEWARD)
  else
    let icon := default "" (extract_named_value "icon" event) in
    try? _ := validate_workspace_icon icon in
    because "failed to store workspace icon: {e}"
      (perform (Moderate (SetIcon community (if str_is_empty icon then None else Some icon)))).
(** 9030 *)
Definition add_member_command (event : Event) (sender_hex sender_role target_hex : string)
  : prog (result unit Message) :=
  if negb (steward_role sender_role) then Ret (Err NOT_STEWARD)
  else
    let role := default "member" (extract_named_value "role" event) in
    if String.eqb role "owner"
    then Ret (Err (msg "invalid role: use kind:9032 to promote to owner"))
    else if String.eqb role "admin" && negb (String.eqb sender_role "owner")
    then Ret (Err (msg "actor not authorized: only owner can grant admin role"))
    else if negb (String.eqb role "admin") && negb (String.eqb role "member")
    then Ret (Err (fmt "invalid role: {role}" [AText role]))
    else
      await? was_inserted <- database (perform (Moderate (RosterAdd community target_hex role (Some sender_hex)))) ;;
      if was_inserted : bool then announce_member KIND_NIP43_MEMBER_ADDED target_hex else Ret (Ok tt).
(** 9031 *)
(** [remove_relay_member_if_role] with a role, [remove_relay_member] without one. *)
Definition remove_relay_member (target_hex : string) (role : option string) : prog (result RemoveResult DbError) :=
  await? removed <- perform (Moderate (RosterDelete community target_hex role)) ;;
  if removed : bool then Ret (Ok Removed)
  else moderation (fun db => Ok (match role with
                                 | Some _ => why_role_kept community target_hex db
                                 | None => why_not_removed community target_hex db
                                 end)).
Definition remove_member_command (sender_hex sender_role target_hex : string) : prog (result unit Message) :=
  if negb (steward_role sender_role) then Ret (Err NOT_STEWARD)
  else if String.eqb target_hex sender_hex then Ret (Err (msg "cannot remove yourself"))
  else
    await? removed <- database
      (remove_relay_member target_hex (if String.eqb sender_role "admin" then Some "member" else None)) ;;
    match removed with
    | Removed => announce_member KIND_NIP43_MEMBER_REMOVED target_hex
    | IsOwner => Ret (Err (msg "cannot remove the relay owner"))
    | NotFound => Ret (Err (fmt "member not found: {target_hex}" [AText target_hex]))
    | RoleMismatch => Ret (Err (msg "actor not authorized: admins can only remove members"))
    end.
(** 9032 *)
Definition change_role_command (event : Event) (sender_hex sender_role target_hex : string)
  : prog (result unit Message) :=
  if negb (String.eqb sender_role "owner") then Ret (Err (msg "actor not authorized: must be owner"))
  else if String.eqb target_hex sender_hex then Ret (Err (msg "cannot change your own role"))
  else
    match extract_named_value "role" event with
    | None => Ret (Err (msg "missing role tag"))
    | Some new_role =>
        if String.eqb new_role "owner" then Ret (Err (msg "cannot set role to owner"))
        else if negb (String.eqb new_role "admin") && negb (String.eqb new_role "member")
        then Ret (Err (fmt "invalid role: {new_role}" [AText new_role]))
        else
          await? updated <- database (perform (Moderate (RosterRole community target_hex new_role))) ;;
          if negb updated then
            await? exists_ <- database (moderation (fun db => Ok (is_relay_member community target_hex db))) ;;
            Ret (Err (if exists_ : bool then msg "cannot change the relay owner's role"
                      else fmt "member not found: {target_hex}" [AText target_hex]))
          else logged publish_nip43_membership_list
    end.

Definition execute_relay_admin_command (event : Event) : prog (result unit Message) :=
  let kind := ev_kind event in
  let sender_hex := to_hex (ev_pubkey event) in
  await now <- perform Clock ;;
  if stale event now then Ret (Err (range_error SKEW_TEXT event now))
  else
    await? sender <- database (moderation (fun db => Ok (role_of db community sender_hex))) ;;
    let sender_role := default "" sender in
    if kind =? RELAY_ADMIN_SET_WORKSPACE_PROFILE then set_workspace_profile event sender_role
    else
      match to_ascii_lowercase <$> extract_p_tag_hex event with
      | None => Ret (Err (msg "missing or invalid p tag"))
      | Some target_hex =>
          if kind =? RELAY_ADMIN_ADD_MEMBER then add_member_command event sender_hex sender_role target_hex
          else if kind =? RELAY_ADMIN_REMOVE_MEMBER then remove_member_command sender_hex sender_role target_hex
          else if kind =? RELAY_ADMIN_CHANGE_ROLE then change_role_command event sender_hex sender_role target_hex
          else Ret (Err (fmt "unexpected relay admin kind: {other}" [ANum kind]))
      end.
Definition handle_relay_admin_event (event : Event) : prog (result unit RelayAdminError) :=
  await? restriction <- prog_map_err
    (fun e => InternalFailure (fmt "internal error checking restriction state: {e}" [AText (db_error_text e)]))
    (restriction_of (ev_pubkey event)) ;;
  try? _ := admits_relay_admin_command restriction in
  prog_map_err RejectedCommand (execute_relay_admin_command event).

(** * Reports *)

(** The blobs of the media store are asked for by community and hash. *)
Definition sidecar (sha_hex : string) : string :=
  "media_storage.get_sidecar " +:+ uuid_to_string community +:+ "/" +:+ sha_hex.
Definition report_target (t : ParsedReportTarget) : prog (result (ReportTarget * option Uuid) Message) :=
  match t with
  | ParsedEvent event_id _ =>
      await? found <- because "error: database error resolving report target: {e}"
                        (store (get_event_by_id community event_id)) ;;
      Ret (match found with
           | None => Err (msg "invalid: report target event not found")
           | Some stored => Ok (TargetEvent event_id, se_channel_id stored)
           end)
  | ParsedBlob sha256 _ =>
      await found <- perform (Ask (sidecar (to_hex sha256))) ;;
      Ret (if found : bool then Ok (TargetBlob sha256, None)
           else Err (msg "invalid: report target blob not found"))
  | ParsedPubkey pubkey => Ret (Ok (TargetPubkey pubkey, None))
  end.
Definition handle_report_event (event : Event) : prog (result unit Message) :=
  try? parsed := parse_report event in
  await? resolved <- report_target (fst parsed) ;;
  await? _ <- because "error: database error inserting report: {e}"
    (perform (Moderate (AddReport community (ev_id event) (ev_pubkey event) (fst resolved) (snd resolved)
                          (snd parsed) (report_note event)))) ;;
  Ret (Ok tt).
End moderators.
