(* ===== verification/Submission.v ===== *)
(** Submission: who submits an event, what the answer can be, and the notation of the handlers
    for their errors ([IngestAuth], [IngestResult] and [IngestError] of
    [crates/buzz-relay/src/handlers/ingest.rs]). *)
From S2P Require Import Prelude Programs Nostr Kinds Filters Text Json EventStore Threads Auth Envelopes Conformance Channel Membership Subscription ReadPath Delivery Moderation Relay Groups Moderators.
Local Open Scope string_scope.
Local Open Scope list_scope.
Local Open Scope Z_scope.
Local Open Scope buzz_scope.

(** * Requests and outcomes *)

Inductive HttpAuthMethod := Nip98 | DevPubkey.
Inductive IngestAuth :=
| Nip42 (pubkey : Bytes) (scopes : list Scope) (channel_ids : option (list Uuid)) (conn_id : Uuid)
| Http (pubkey : Bytes) (scopes : list Scope) (auth_method : HttpAuthMethod).
Definition auth_pubkey (a : IngestAuth) : Bytes :=
  match a with Nip42 pk _ _ _ | Http pk _ _ => pk end.
Definition auth_scopes (a : IngestAuth) : list Scope :=
  match a with Nip42 _ s _ _ | Http _ s _ => s end.
Definition auth_channel_ids (a : IngestAuth) : option (list Uuid) :=
  match a with Nip42 _ _ ids _ => ids | Http _ _ _ => None end.
Definition is_http (a : IngestAuth) : bool := match a with Http _ _ _ => true | _ => false end.
Definition is_global_token (a : IngestAuth) : bool := bool_decide (auth_channel_ids a = None).

Record IngestResult := mkIngestResult {
  ir_event_id : string;
  ir_accepted : bool;
  ir_message : string
}.
(** [Panicked] is a panic of the handler's task. *)
Inductive IngestError :=
| Rejected (text : Message)
| AuthFailed (text : Message)
| Internal (text : Message)
| Panicked.

Section submission.
Context `{A : NostrApi} `{SD : StoreDeps} `{H : HashIter} `{DG : Digest} `{K : RelayKeys}.

(** [p.await.map_err(|e| IngestError::Rejected(format!("invalid: {e}")))] *)
Definition invalid_if {B : Type} (p : prog (result B Message)) : prog (result B IngestError) :=
  prog_map_err (fun e => Rejected (fmt "invalid: {e}" [AMsg e])) p.
Definition check_invalid {B : Type} (r : result B Message) : result B IngestError :=
  map_err (fun e => Rejected (fmt "invalid: {e}" [AMsg e])) r.
(** [p.await.map_err(|e| IngestError::Internal(format!(text, e)))] *)
Definition internal_if {B : Type} (text : string) (p : prog (result B DbError)) : prog (result B IngestError) :=
  prog_map_err (fun e => Internal (fmt text [AText (db_error_text e)])) p.
Definition rejected {B : Type} (text : string) : prog (result B IngestError) := Ret (Err (Rejected (msg text))).
Definition auth_failed {B : Type} (text : string) : prog (result B IngestError) := Ret (Err (AuthFailed (msg text))).
Definition when_ (b : bool) (p : prog (result unit IngestError)) : prog (result unit IngestError) :=
  if b then p else Ret (Ok tt).

Definition done_with (event : Event) (accepted : bool) (text : string) : prog (result IngestResult IngestError) :=
  Ret (Ok (mkIngestResult (to_hex (ev_id event)) accepted text)).
End submission.
