(* ===== verification/Commands.v ===== *)
(** Commands: [crates/buzz-relay/src/handlers/command_executor.rs], the events that are orders
    rather than messages.

    A command's event is inserted in a transaction of its own that stays open while the order
    is carried out on other connections of the pool, and is committed afterwards: a duplicate
    is not carried out again, but what was carried out stays when the commit fails.  Direct
    messages are here; workflows and their approvals, on tables outside this world, are the
    fields of [WorkflowCommands]. *)
From S2P Require Import Prelude Programs Nostr Kinds Filters Text Json EventStore Threads Auth Envelopes Conformance Channel Membership Subscription ReadPath Delivery Moderation Relay Groups Moderators Submission.
Local Open Scope string_scope.
Local Open Scope list_scope.
Local Open Scope Z_scope.
Local Open Scope buzz_scope.

Section commands.
Context `{A : NostrApi} `{U : UuidParse} `{SD : StoreDeps} `{H : HashIter} `{DG : Digest} `{K : RelayKeys} `{J : SerdeJson} `{CT : ChronoText} `{JP : !JsonParse}.

Record WorkflowCommands := mkWorkflowCommands {
  handle_workflow_def : Ctx -> IngestAuth -> Event -> prog (result IngestResult IngestError);
  handle_workflow_trigger : Ctx -> IngestAuth -> Event -> prog (result IngestResult IngestError);
  handle_approval_grant : Ctx -> IngestAuth -> Event -> prog (result IngestResult IngestError);
  handle_approval_deny : Ctx -> IngestAuth -> Event -> prog (result IngestResult IngestError)
}.
Context (workflows : WorkflowCommands) (cx : Ctx).
Let community := cx_community cx.
Let pod := cx_pod cx.

Definition refuse {B : Type} (text : string) (p : prog (result B DbError)) : prog (result B IngestError) :=
  prog_map_err (fun _ => Rejected (msg text)) p.

(** * The transaction *)

Definition D_TAG_MAX_LEN : nat := 1024.
Definition command_channel (event : Event) (channel_id_override : option Uuid) : option Uuid :=
  match channel_id_override with Some c => Some c | None => extract_channel_id event end.
(** When the event was received, once it has been inserted; [None] for a duplicate.  The text of an error names the statement that failed; here it is the last. *)
Definition persist_command_event (event : Event) (channel_id_override : option Uuid)
  : prog (result (option Z) IngestError) :=
  await? _ <- internal_if "error: begin transaction: {e}" (perform Begin) ;;
  let created_at_secs := to_i64 (ev_created_at event) in
  match from_timestamp created_at_secs with
  | None => Ret (Err (Rejected (fmt "invalid: bad timestamp {created_at_secs}" [ANum created_at_secs])))
  | Some _ =>
      await received_at <- perform Clock ;;
      let d_len := match EventStore.extract_d_tag event with Some d => String.length d | None => 0%nat end in
      if Nat.ltb D_TAG_MAX_LEN d_len
      then Ret (Err (Rejected (fmt "invalid: d tag too long ({} bytes, max {})"
                         [ANum (Z.of_nat d_len); ANum (Z.of_nat D_TAG_MAX_LEN)])))
      else
        await? inserted <- internal_if "error: insert event: {e}"
                             (perform (InsertCommand community event
                                         (command_channel event channel_id_override) received_at)) ;;
        Ret (Ok (if inserted : bool then Some received_at else None))
  end.
(** What every command does: [body] runs while the transaction is open, whose drop on an error
    rolls it back. *)
Definition in_transaction {B : Type} (event : Event) (channel_id_override : option Uuid)
    (body : prog (result B IngestError)) (after : B -> prog (result IngestResult IngestError))
  : prog (result IngestResult IngestError) :=
  await? tx <- persist_command_event event channel_id_override ;;
  match tx with
  | None => done_with event true "duplicate: already processed"
  | Some received_at =>
      let channel_id := command_channel event channel_id_override in
      await out <- body ;;
      match out with
      | Err e =>
          await _ <- perform (EndCommand community event channel_id received_at false) ;;
          Ret (Err e)
      | Ok b =>
          await? _ <- internal_if "error: commit transaction: {e}"
                        (perform (EndCommand community event channel_id received_at true)) ;;
          after b
      end
  end.

(** * Tags *)

Definition decode_pubkey (hex_str : string) : result Bytes IngestError :=
  match hex_decode hex_str with
  | None => Err (Rejected (fmt "invalid: bad pubkey hex: {hex_str}" [AText hex_str]))
  | Some bytes =>
      if Nat.eqb (length bytes) 32 then Ok bytes
      else Err (Rejected (fmt "invalid: pubkey must be 32 bytes: {hex_str}" [AText hex_str]))
  end.
(** The decoded keys, each that is not there yet at the end of [all]. *)
Fixpoint merge_pubkeys (all : list Bytes) (p_tags : list string) : result (list Bytes) IngestError :=
  match p_tags with
  | [] => Ok all
  | hex_str :: p_tags' =>
      let? bytes := decode_pubkey hex_str in
      merge_pubkeys (if bool_decide (bytes ∈ all) then all else all ++ [bytes]) p_tags'
  end.
Definition extract_p_tags (event : Event) : list string := contents_of "p" event.
Definition extract_h_tag (event : Event) : option string := head (contents_of "h" event).
Definition channel_of_h_tag (event : Event) : result Uuid IngestError :=
  match extract_h_tag event with
  | None => Err (Rejected (msg "invalid: missing h tag (channel_id)"))
  | Some s => match parse_uuid s with
              | Some u => Ok u
              | None => Err (Rejected (msg "invalid: bad channel_id format"))
              end
  end.
Definition check_approver_spec (approver_spec requester_hex : string) : result unit IngestError :=
  let spec := trim approver_spec in
  if str_is_empty spec || String.eqb spec "any" then Ok tt
  else if Nat.eqb (String.length spec) 64 && forallb is_ascii_hexdigit (list_ascii_of_string spec)
  then if String.eqb (to_ascii_lowercase requester_hex) (to_ascii_lowercase spec) then Ok tt
       else Err (Rejected (msg "forbidden: not the designated approver for this request"))
  else Err (Rejected (fmt "forbidden: approver spec '{}' is not yet supported" [AText spec])).

(** * Direct messages *)

Definition response (fields : list (string * Value Number)) : string := "response:" +:+ json_text fields.
Definition notify_all (channel_id : Uuid) (participants : list Bytes) (actor : Bytes) : prog unit :=
  for_all participants (fun p =>
    await _ <- emit_membership_notification cx channel_id p actor KIND_MEMBER_ADDED_NOTIFICATION ;;
    Ret tt).

Definition handle_dm_open (auth : IngestAuth) (event : Event) : prog (result IngestResult IngestError) :=
  let self_bytes := auth_pubkey auth in
  let p_tags := extract_p_tags event in
  if bool_decide (p_tags = []) then rejected "invalid: pubkeys must contain at least 1 other participant"
  else if Nat.ltb 8 (length p_tags)
  then rejected "invalid: pubkeys may contain at most 8 other participants (9 total)"
  else
    try? all_bytes := merge_pubkeys [self_bytes] p_tags in
    in_transaction event None
      (internal_if "error: db open_dm: {e}" (perform (Chan (OpenDm community all_bytes self_bytes))))
      (fun out =>
         let '(channel, was_created) := (out : (ChannelKey * ChannelRow) * bool) in
         let channel_id := channel.1.2 in
         await _ <- (if was_created then
             await _ <- for_all all_bytes (invalidate_membership cx channel_id) ;;
             await _ <- emit_system_message cx channel_id
               [("type", json_str "dm_created"); ("actor", json_str (to_hex self_bytes));
                ("participants", Array (json_str ∘ to_hex <$> all_bytes))] ;;
             await _ <- emit_group_discovery_events cx channel_id ;;
             notify_all channel_id all_bytes self_bytes
           else
             await _ <- publish_dm_visibility_snapshot cx self_bytes ;; Ret tt) ;;
         done_with event true (response [("channel_id", json_str (uuid_to_string channel_id));
                                         ("created", Bool was_created)])).

(** The checks of the two commands on a direct message that exists. *)
Definition check_own_dm (self_bytes : Bytes) (channel_id : Uuid)
  : prog (result unit IngestError) :=
  await? is_member <- internal_if "error: membership check: {e}"
                        (perform (CachedMember pod community channel_id self_bytes)) ;;
  if negb is_member then rejected "forbidden: not a member of this DM"
  else
    await? channel <- refuse "invalid: DM not found" (chan (get_channel community channel_id)) ;;
    if bool_decide (ch_type channel = ChannelType.Dm) then Ret (Ok tt)
    else rejected "invalid: channel is not a DM".

Definition handle_dm_add_member (auth : IngestAuth) (event : Event) : prog (result IngestResult IngestError) :=
  let self_bytes := auth_pubkey auth in
  try? channel_id := channel_of_h_tag event in
  let p_tags := extract_p_tags event in
  if bool_decide (p_tags = []) then rejected "invalid: must specify at least 1 new participant in p tags"
  else
    await? _ <- check_own_dm self_bytes channel_id ;;
    await? existing_members <- internal_if "error: get members: {e}"
                                 (chan (fun db => Ok (get_members community channel_id db))) ;;
    try? all_bytes := merge_pubkeys (mr_pubkey <$> existing_members) p_tags in
    if Nat.ltb 9 (length all_bytes) then rejected "invalid: DM supports at most 9 participants"
    else
      in_transaction event None
        (internal_if "error: db open_dm: {e}" (perform (Chan (OpenDm community all_bytes self_bytes))))
        (fun out =>
           let '(channel, was_created) := (out : (ChannelKey * ChannelRow) * bool) in
           let new_channel_id := channel.1.2 in
           await _ <- (if was_created then
               await _ <- for_all all_bytes (invalidate_membership cx new_channel_id) ;;
               await _ <- emit_group_discovery_events cx new_channel_id ;;
               notify_all new_channel_id all_bytes self_bytes
             else Ret tt) ;;
           done_with event true (response [("channel_id", json_str (uuid_to_string new_channel_id))])).

Definition handle_dm_hide (auth : IngestAuth) (event : Event) : prog (result IngestResult IngestError) :=
  let self_bytes := auth_pubkey auth in
  try? channel_id := channel_of_h_tag event in
  await? _ <- check_own_dm self_bytes channel_id ;;
  in_transaction event None
    (internal_if "error: db hide_dm: {e}" (perform (Chan (HideDm community channel_id self_bytes))))
    (fun _ =>
       await _ <- publish_dm_visibility_snapshot cx self_bytes ;;
       done_with event true "{}").

(** * All commands *)

Definition handle_command (auth : IngestAuth) (event : Event) : prog (result IngestResult IngestError) :=
  await _ <- perform (Chan (EnsureUser community (auth_pubkey auth))) ;;
  let kind := event_kind_u32 event in
  if kind =? KIND_DM_OPEN then handle_dm_open auth event
  else if kind =? KIND_DM_ADD_MEMBER then handle_dm_add_member auth event
  else if kind =? KIND_DM_HIDE then handle_dm_hide auth event
  else if kind =? KIND_WORKFLOW_DEF then handle_workflow_def workflows cx auth event
  else if kind =? KIND_WORKFLOW_TRIGGER then handle_workflow_trigger workflows cx auth event
  else if kind =? KIND_APPROVAL_GRANT then handle_approval_grant workflows cx auth event
  else if kind =? KIND_APPROVAL_DENY then handle_approval_deny workflows cx auth event
  else Ret (Err (Rejected (fmt "unknown command kind: {kind}" [ANum kind]))).
End commands.
