(* ===== verification/Ingest.v ===== *)
(** Ingest: [crates/buzz-relay/src/handlers/ingest.rs], from a submitted event to what the
    relay stores, changes and sends on.

    [ingest_event_inner] is one long function; here it is cut into the stages it has, each a
    program over the world of [Relay], and run in the order of the source.  Handlers of other
    files that work on tables outside this world are the fields of [OtherHandlers]. *)
From S2P Require Import Prelude Programs Nostr Kinds Filters Text Json EventStore Threads Auth Envelopes Conformance Channel Membership Subscription ReadPath Delivery Moderation Relay Groups Moderators Submission Commands.
Local Open Scope string_scope.
Local Open Scope list_scope.
Local Open Scope Z_scope.
Local Open Scope buzz_scope.

(** * Errors of other handlers *)

Definition map_relay_admin_error (e : RelayAdminError) : IngestError :=
  match e with
  | Banned => AuthFailed (msg BANNED_TEXT)
  | RejectedCommand reason => Rejected (fmt "invalid: {reason}" [AMsg reason])
  | InternalFailure reason => Internal (fmt "error: {reason}" [AMsg reason])
  end.

Inductive AcceptError := Validation (text : Message) | AcceptInternal (text : Message).
Inductive AcceptLeaseOutcome :=
  Accepted | StaleEvent | StaleGeneration | EndpointAlreadyLeased | LeaseQuotaExceeded
| SourceEventCollision | ConstraintViolation.
Definition map_push_accept_error (e : AcceptError) : IngestError :=
  match e with
  | Validation reason => Rejected (fmt "invalid: {reason}" [AMsg reason])
  | AcceptInternal reason => Internal reason
  end.
Definition refused_lease (o : AcceptLeaseOutcome) : result unit IngestError :=
  match o with
  | Accepted => Ok tt
  | StaleEvent => Err (Rejected (msg "invalid: stale replacement"))
  | StaleGeneration => Err (Rejected (msg "invalid: stale generation"))
  | EndpointAlreadyLeased => Err (Rejected (msg "invalid: endpoint already leased"))
  | LeaseQuotaExceeded => Err (Rejected (msg "invalid: lease quota exceeded"))
  | SourceEventCollision => Err (Rejected (msg "invalid: source event collision"))
  | ConstraintViolation => Err (Rejected (msg "invalid: lease constraint violation"))
  end.

(** [nostr::Event::verify_id] and [verify_signature]; [computed] is the id of the other
    fields. *)
Class EventVerify := {
  verify_id : Event -> bool;
  verify_signature : Event -> bool
}.
Inductive VerificationError := InvalidId | InvalidSignature.
Definition verify_event `{EventVerify} (event : Event) : result unit VerificationError :=
  if negb (verify_id event) then Err InvalidId
  else if negb (verify_signature event) then Err InvalidSignature
  else Ok tt.

Section ingest.
Context `{A : NostrApi} `{U : UuidParse} `{SD : StoreDeps} `{H : HashIter} `{DG : Digest} `{K : RelayKeys} `{J : SerdeJson} `{CT : ChronoText} `{JP : !JsonParse} `{V : EventVerify}.

(** The workflow commands of [command_executor.rs], the handlers of [product_feedback.rs],
    [identity_archive.rs] and [push_lease.rs], the attestation check, the check of a rotation's delegation
    ([buzz-core/src/evm_rotation.rs]), the checks of media tags ([api/media.rs]) and the
    side effects on other tables. *)
Record OtherHandlers := mkOtherHandlers {
  workflow_commands : WorkflowCommands;
  handle_feedback : Ctx -> Event -> prog (result unit Message);
  check_attestation : Ctx -> string -> prog (result unit IngestError);
  verify_rotation_delegation : Event -> result unit Message;
  handle_identity_archive_event : Ctx -> Event -> prog (result unit Message);
  accept_lease : Ctx -> Event -> Z -> prog (result AcceptLeaseOutcome AcceptError);
  check_imeta : Ctx -> list Tag -> prog (result unit Message);
  other_effects : OtherEffects
}.
Context (other : OtherHandlers) (cx : Ctx).
Let community := cx_community cx.
Let pod := cx_pod cx.

(** * The trace *)

Definition actor_label (pubkey : Bytes) : string := String.substring 0 16 (to_hex pubkey).
Definition msg_id_label (id : Bytes) : string := to_hex (take 8 id).
Definition state_for_request (auth : IngestAuth) : AbstractState :=
  mkState community (cx_host cx) (actor_label (auth_pubkey auth)).
Definition claimed_community_from_event (event : Event) : option Uuid :=
  parts ← List.find (fun parts => bool_decide (head parts = Some "h")) (ev_tags event);
  val ← parts !! 1%nat; parse_uuid val.
Definition emit (auth : IngestAuth) (action : TraceAction) : prog unit :=
  perform (Leave (Traced action (state_for_request auth))).
(** [emit_product_feedback_success]; an accepted lease is traced the same way. *)
Definition emit_global (auth : IngestAuth) (event : Event) : prog unit :=
  emit auth (WriteInsertGlobal (msg_id_label (ev_id event)) (claimed_community_from_event event)).
Definition sanitized_reason_for (e : IngestError) : option SanitizedReason :=
  match e with
  | Rejected _ => Some Invalid
  | AuthFailed _ => Some Restricted
  | Internal _ => Some ServerError
  | Panicked => None
  end.

(** * Validators that read the store *)

Inductive ReactionChannelResult :=
| ReactionChannel (ch : Uuid)
| NoChannel
| TargetNotFound
| NoTarget
| ReactionDbError (e : DbError).
Definition derive_reaction_channel (event : Event) : prog ReactionChannelResult :=
  match reaction_target event ≫= decode32 with
  | None => Ret NoTarget
  | Some id_bytes =>
      await found <- store (get_event_by_id community id_bytes) ;;
      Ret (match found with
           | Ok (Some target) =>
               match se_channel_id target with Some ch => ReactionChannel ch | None => NoChannel end
           | Ok None => TargetNotFound
           | Err e => ReactionDbError e
           end)
  end.

Definition is_open (ch : ChannelRow) : bool := bool_decide (ch_visibility ch = ChannelVisibility.Open).
Definition check_channel_membership (ch_id : Uuid) (pubkey : Bytes) (channel : option ChannelRow)
  : prog (result unit Message) :=
  await? is_member <- prog_map_err (fun e => fmt "error: database error: {e}" [AText (db_error_text e)])
                        (perform (CachedMember pod community ch_id pubkey)) ;;
  if is_member : bool then Ret (Ok tt)
  else
    await open <- match channel with
                  | Some ch => Ret (is_open ch)
                  | None => reads_open cx ch_id
                  end ;;
    Ret (if open : bool then Ok tt else Err (msg "restricted: not a channel member")).
Definition check_token_channel_access (auth : IngestAuth) (channel_id : Uuid) : result unit Message :=
  match auth_channel_ids auth with
  | Some allowed => if bool_decide (channel_id ∈ allowed) then Ok tt
                    else Err (msg "restricted: token does not have access to this channel")
  | None => Ok tt
  end.

(** The target of an edit or a vote, in the channel the event names. *)
Definition same_channel (event_channel target_channel : option Uuid) : result unit Message :=
  match event_channel, target_channel with
  | Some ch, Some target_ch => if bool_decide (ch = target_ch) then Ok tt
                               else Err (msg "target event belongs to a different channel")
  | Some _, None => Err (msg "target event has no channel")
  | None, _ => Ok tt
  end.
Definition find_target (event : Event) (missing not_found : string) : prog (result StoredEvent Message) :=
  match head (hex_targets event) with
  | None => Ret (Err (msg missing))
  | Some target_hex =>
      match hex_decode target_hex with
      | None => Ret (Err (msg "invalid target event ID"))
      | Some target_bytes =>
          await? found <- because "db error: {e}" (store (get_event_by_id community target_bytes)) ;;
          Ret (match found with Some target => Ok target | None => Err (msg not_found) end)
      end
  end.
Definition validate_edit_ownership (event : Event) : prog (result unit Message) :=
  await? target <- find_target event "missing e tag for edit target" "edit target event not found" ;;
  try? _ := same_channel (extract_channel_id event) (se_channel_id target) in
  let author := effective_message_author (se_event target) relay_pubkey in
  let actor := ev_pubkey event in
  if bool_decide (author = actor) then
    match se_channel_id target with
    | None => Ret (Ok tt)
    | Some ch_id =>
        await? is_member <- because "db error checking membership: {e}"
                              (perform (CachedMember pod community ch_id actor)) ;;
        if is_member : bool then Ret (Ok tt)
        else
          await open <- reads_open cx ch_id ;;
          Ret (if open : bool then Ok tt else Err (msg "restricted: not a channel member"))
    end
  else
    await? owned <- because "db error checking agent ownership: {e}" (agent_owned cx author actor) ;;
    Ret (if owned : bool then Ok tt else Err (msg "must be event author to edit")).
Definition validate_forum_vote_target (event : Event) : prog (result unit Message) :=
  await? target <- find_target event "missing e tag for vote target" "vote target event not found" ;;
  if negb (mem_kind (event_kind_u32 (se_event target)) [KIND_FORUM_POST; KIND_FORUM_COMMENT])
  then Ret (Err (msg "vote target must be a forum post or comment"))
  else Ret (same_channel (extract_channel_id event) (se_channel_id target)).

(** [resolve_nip10_thread_meta], its queries at moments of their own. *)
Definition resolve_thread (event : Event) (channel_id : Uuid)
  : prog (result (option ThreadMetadataOwned) Message) :=
  match reply_targets event with
  | None => Ret (Ok None)
  | Some (_, parent_hex) =>
      await? db_parent <- because "db error looking up parent: {e}" (perform ReadStore) ;;
      await meta <- perform ReadStore ;;
      match meta with
      | Err e =>
          Ret (match reply_parent db_parent community (default [] (hex_decode parent_hex)) channel_id with
               | Err text => Err (msg text)
               | Ok _ => Err (fmt "db error looking up thread metadata: {e}" [AText (db_error_text e)])
               end)
      | Ok db_meta =>
          await root <- perform ReadStore ;;
          await now <- perform Clock ;;
          let db_root := match root with Ok db => db | Err _ => empty_db end in
          Ret (map_err msg (resolve_nip10_thread_meta now db_parent db_meta db_root community event channel_id))
      end
  end.

(** * The pipeline *)

Definition MAX_TIMESTAMP_DRIFT_SECS : Z := 900.
Definition MAX_EVENT_CONTENT_BYTES : nat := Nat.mul 256 1024.
Definition is_gift_wrap (event : Event) : bool := event_kind_u32 event =? KIND_GIFT_WRAP.

(** Kinds nobody may submit this way. *)
Definition check_kind (auth : IngestAuth) (kind : Z) : result unit IngestError :=
  if kind =? KIND_AUTH then Err (Rejected (msg "invalid: AUTH events cannot be submitted"))
  else if (kind =? KIND_MEMBER_ADDED_NOTIFICATION) || (kind =? KIND_MEMBER_REMOVED_NOTIFICATION)
  then Err (Rejected (msg "invalid: membership notifications are relay-signed only"))
  else if is_http auth && ((kind =? KIND_GIFT_WRAP) || (kind =? KIND_PRESENCE_UPDATE))
  then Err (Rejected (fmt "invalid: kind {kind_u32} is only accepted via WebSocket" [ANum kind]))
  else if is_relay_only_kind kind then Err (Rejected (msg "restricted: relay-only kind"))
  else Ok tt.
(** The event belongs to who submits it, whose scopes and token allow its kind. *)
Definition check_identity (auth : IngestAuth) (event : Event) : result unit IngestError :=
  if negb (bool_decide (ev_pubkey event = auth_pubkey auth)) && negb (is_gift_wrap event)
  then Err (AuthFailed (msg "invalid: event pubkey does not match authenticated identity"))
  else Ok tt.
Definition check_scope (auth : IngestAuth) (event : Event) : result unit IngestError :=
  let kind := event_kind_u32 event in
  let? required := map_err (fun text => Rejected (msg text)) (required_scope_for_kind kind event) in
  if is_relay_admin_kind kind && negb (is_global_token auth)
  then Err (AuthFailed (msg "restricted: relay admin commands require a global token, not a channel-scoped token"))
  else if (kind =? KIND_NIP43_LEAVE_REQUEST) && negb (is_global_token auth)
  then Err (AuthFailed (msg "restricted: leave requests require a global token"))
  else if negb (bool_decide (required ∈ auth_scopes auth))
  then Err (AuthFailed (fmt "restricted: insufficient scope (need {})" [AText (scope_as_str required)]))
  else Ok tt.
(** The Schnorr check runs on another thread, whose join may fail; the result is the clock. *)
Definition verified_task : string := "tokio::task::spawn_blocking".
Definition authenticate (auth : IngestAuth) (event : Event) : prog (result Z IngestError) :=
  try? _ := check_kind auth (event_kind_u32 event) in
  await joined <- perform (Ask verified_task) ;;
  if negb joined then Ret (Err (Internal (msg "error: internal verification error")))
  else
    try? _ := map_err (fun _ => Rejected (msg "invalid: {e}")) (verify_event event) in
    await now <- perform Clock ;;
    if out_of_range MAX_TIMESTAMP_DRIFT_SECS event now
    then rejected "invalid: event timestamp too far from server time"
    else if Nat.ltb MAX_EVENT_CONTENT_BYTES (String.length (ev_content event))
    then Ret (Err (Rejected (fmt "invalid: content exceeds maximum size of {} bytes (got {})"
                       [ANum (Z.of_nat MAX_EVENT_CONTENT_BYTES);
                        ANum (Z.of_nat (String.length (ev_content event)))])))
    else
      try? _ := check_identity auth event in
      try? _ := check_scope auth event in
      Ret (Ok now).

(** ** Bans and timeouts *)

Definition check_restriction (auth : IngestAuth) : prog (result unit IngestError) :=
  await? restriction <- internal_if "error: internal error checking restriction state: {e}"
                          (restriction_of cx (auth_pubkey auth)) ;;
  if rs_banned restriction then auth_failed BANNED_TEXT
  else
    match rs_muted_until restriction with
    | None => Ret (Ok tt)
    | Some until =>
        await now <- perform Clock ;;
        if now <? until
        then Ret (Err (AuthFailed (fmt "restricted: you are timed out until {}" [ANum until])))
        else Ret (Ok tt)
    end.

(** ** The channel *)

Definition named_channel (event : Event) : prog (result (option Uuid) IngestError) :=
  let kind := event_kind_u32 event in
  if kind =? KIND_REACTION then
    await derived <- derive_reaction_channel event ;;
    match derived with
    | ReactionChannel ch => Ret (Ok (Some ch))
    | NoChannel => Ret (Ok None)
    | TargetNotFound => rejected "invalid: reaction target event not found"
    | NoTarget => rejected "invalid: reaction must reference a target event via e tag"
    | ReactionDbError e =>
        Ret (Err (Internal (fmt "error: internal error looking up reaction target: {e}" [AText (db_error_text e)])))
    end
  else if is_gift_wrap event then Ret (Ok None)
  else if kind =? KIND_DELETION then
    match head (hex_targets event) with
    | None => Ret (Ok None)
    | Some hex =>
        match hex_decode hex with
        | None => rejected "invalid: malformed deletion target id"
        | Some target_bytes =>
            await? found <- internal_if "error: looking up deletion target: {e}"
                              (store (get_event_by_id community target_bytes)) ;;
            Ret (Ok (found ≫= se_channel_id))
        end
    end
  else Ret (Ok (extract_channel_id event)).
Definition resolve_channel (auth : IngestAuth) (event : Event) : prog (result (option Uuid) IngestError) :=
  let kind := event_kind_u32 event in
  await? named <- named_channel event ;;
  let channel_id := if is_global_only_kind kind then None else named in
  if requires_h_channel_scope kind && bool_decide (channel_id = None)
  then rejected "invalid: channel-scoped events must include an h tag"
  else
    match channel_id with
    | Some ch_id =>
        try? _ := map_err AuthFailed (check_token_channel_access auth ch_id) in
        Ret (Ok channel_id)
    | None =>
        if negb (is_global_token auth)
        then auth_failed "restricted: channel-scoped tokens cannot publish global events"
        else Ret (Ok None)
    end.

(** The row of the channel and the visibility that fan-out will use, read once. *)
Definition read_channel (channel_id : option Uuid) : prog (option ChannelRow) :=
  match channel_id with
  | None => Ret None
  | Some ch_id =>
      await row <- chan (get_channel community ch_id) ;;
      Ret (match row with Ok row => Some row | Err _ => None end)
  end.
Definition thread_visibility (channel_id : option Uuid) (row : option ChannelRow)
  : prog (option ThreadedChannelVisibility) :=
  match channel_id, row with
  | Some ch_id, Some row =>
      await v <- perform (CachedVisibility pod community ch_id (Some row)) ;;
      Ret (match v with Ok v => Some (mkThreaded community ch_id v) | Err _ => None end)
  | _, _ => Ret None
  end.
Definition SKIP_MEMBERSHIP : list Z :=
  [KIND_NIP29_JOIN_REQUEST; KIND_NIP29_CREATE_GROUP; KIND_STREAM_MESSAGE_EDIT;
   KIND_NIP29_EDIT_METADATA; KIND_NIP29_DELETE_EVENT; KIND_NIP29_DELETE_GROUP].
Definition check_membership (auth : IngestAuth) (event : Event) (channel_id : option Uuid)
    (row : option ChannelRow) : prog (result unit IngestError) :=
  match channel_id with
  | None => Ret (Ok tt)
  | Some ch_id =>
      if mem_kind (event_kind_u32 event) SKIP_MEMBERSHIP then Ret (Ok tt)
      else
        await allowed <- check_channel_membership ch_id (auth_pubkey auth) row ;;
        await _ <- emit auth (AuthCheck ch_id (claimed_community_from_event event)
                                (match allowed with Ok _ => Allow | Err _ => Deny end)) ;;
        Ret (map_err Rejected allowed)
  end.

(** ** Handled without being stored *)

(** [p.await.map_err(IngestError::Rejected)?] and an accepted result. *)
Definition handled (event : Event) (p : prog (result unit IngestError)) : prog (result IngestResult IngestError) :=
  await? _ <- p ;; done_with event true "".
Definition direct (auth : IngestAuth) (event : Event) : option (prog (result IngestResult IngestError)) :=
  let kind := event_kind_u32 event in
  if is_command_kind kind then Some (handle_command (workflow_commands other) cx auth event)
  else if kind =? KIND_PRODUCT_FEEDBACK then
    Some (await? _ <- prog_map_err Rejected (handle_feedback other cx event) ;;
          await _ <- emit_global auth event ;;
          done_with event true "")
  else if kind =? KIND_REPORT then
    Some (handled event (prog_map_err Rejected (handle_report_event cx event)))
  else if is_moderation_command_kind kind then
    Some (handled event (prog_map_err Rejected (handle_moderation_command cx event)))
  else None.

Definition relay_admin_command (event : Event) : prog (result IngestResult IngestError) :=
  handled event (prog_map_err map_relay_admin_error (handle_relay_admin_event cx event)).
Definition is_protected (event : Event) : bool :=
  existsb (fun parts => bool_decide (head parts = Some "-")) (ev_tags event).
Definition leave_relay (event : Event) : prog (result IngestResult IngestError) :=
  if negb (cx_require_relay_membership cx) then rejected "invalid: relay membership is not enabled"
  else
    await now <- perform Clock ;;
    if stale event now
    then Ret (Err (Rejected (fmt "invalid: leave request timestamp out of range (delta={}s, max ±120s)"
                       [ANum (timestamp_delta event now)])))
    else if negb (is_protected event)
    then Ret (Err (Rejected (fmt "invalid: leave request must include NIP-70 protected event tag {}" [ADebug ["-"]])))
    else
      let sender_hex := to_hex (ev_pubkey event) in
      await? removed <- internal_if "database error: {e}" (remove_relay_member cx sender_hex None) ;;
      match removed with
      | Removed =>
          await _ <- announce_member cx KIND_NIP43_MEMBER_REMOVED sender_hex ;;
          done_with event true "info: you have left this relay"
      | NotFound => rejected "invalid: you are not a relay member"
      | IsOwner => rejected "invalid: relay owner cannot leave"
      | RoleMismatch => Ret (Err (Internal (msg "unexpected RoleMismatch from remove_relay_member")))
      end.

(** ** What the kind asks of the event *)

Definition check_evm (auth : IngestAuth) (event : Event) : prog (result unit IngestError) :=
  let kind := event_kind_u32 event in
  await? _ <- when_ ((kind =? KIND_STREAM_MESSAGE_V2) && cx_enforce_attestation cx)
                (check_attestation other cx (to_hex (auth_pubkey auth))) ;;
  when_ (kind =? KIND_EVM_ROTATION)
    (Ret (map_err (fun e => Rejected (fmt "invalid: rotation delegation rejected: {e}" [AMsg e]))
            (verify_rotation_delegation other event))).

Definition check_turn_metric (event : Event) : prog (result unit IngestError) :=
  try? _ := check_invalid (validate_agent_turn_metric_envelope event) in
  match head (pair_values "p" (ev_tags event)) ≫= hex_decode with
  | None => Ret (Err Panicked)
  | Some owner_bytes =>
      await? is_owner <- internal_if "error: db error checking agent-turn-metric ownership: {e}"
                           (agent_owned cx (ev_pubkey event) owner_bytes) ;;
      if is_owner : bool then Ret (Ok tt)
      else auth_failed "restricted: agent-turn-metric `p` tag must be the registered owner of this agent"
  end.
Definition check_reminder (event : Event) : prog (result unit IngestError) :=
  await now <- perform Clock ;;
  Ret (check_invalid (map_err msg (validate_event_reminder now (cx_max_not_before_delta cx) event))).
Definition project_rejection (r : ProjectRejection) : Message :=
  fmt "[{}] {}" [AText (rule r); AMsg (message r)].
Definition check_envelope (event : Event) : prog (result unit IngestError) :=
  let kind := event_kind_u32 event in
  let pure (r : result unit Message) := Ret (check_invalid r) in
  if kind =? KIND_STREAM_MESSAGE_EDIT then invalid_if (validate_edit_ownership event)
  else if kind =? KIND_FORUM_VOTE then invalid_if (validate_forum_vote_target event)
  else if kind =? KIND_STREAM_MESSAGE_DIFF then pure (validate_diff_event event)
  else if kind =? KIND_AGENT_ENGRAM then pure (validate_engram_envelope event)
  else if kind =? KIND_AGENT_TURN_METRIC then check_turn_metric event
  else if kind =? KIND_EVENT_REMINDER then check_reminder event
  else if kind =? KIND_PERSONA then pure (validate_persona_envelope event)
  else if kind =? KIND_TEAM_CATALOG then pure (validate_team_catalog_envelope event)
  else if kind =? KIND_PROJECT then pure (map_err project_rejection (validate_project_envelope event))
  else Ret (Ok tt).

Definition check_archived_channel (event : Event) (row : option ChannelRow) : result unit IngestError :=
  match row with
  | Some channel =>
      if bool_decide (is_Some (ch_archived_at channel))
         && negb ((event_kind_u32 event =? KIND_NIP29_EDIT_METADATA) && is_unarchive event)
      then Err (Rejected (msg "invalid: channel is archived")) else Ok tt
  | None => Ok tt
  end.
Definition check_one_target (event : Event) : result unit IngestError :=
  let e_count := count_e_tags event in
  let a_count := count_tags_of "a" event in
  if mem_kind (event_kind_u32 event) [KIND_NIP29_DELETE_EVENT; KIND_DELETION]
     && negb (Nat.eqb (e_count + a_count) 1)
  then Err (Rejected (fmt "invalid: deletion events must reference exactly one target via e or a tag (got e={e_count}, a={a_count})"
                  [ANum (Z.of_nat e_count); ANum (Z.of_nat a_count)]))
  else Ok tt.
(** From the admin kinds to the envelopes. *)
Definition validate (event : Event) (channel_id : option Uuid) (row : option ChannelRow)
  : prog (result unit IngestError) :=
  let kind := event_kind_u32 event in
  await? _ <- when_ (is_admin_kind kind) (invalid_if (validate_admin_event cx kind event)) ;;
  await? _ <- when_ (is_identity_archive_request_kind kind)
                (invalid_if (handle_identity_archive_event other cx event)) ;;
  await? _ <- when_ (kind =? KIND_DELETION) (invalid_if (validate_standard_deletion_event cx event)) ;;
  try? _ := (if bool_decide (is_Some channel_id) then check_archived_channel event row else Ok tt) in
  try? _ := check_one_target event in
  check_envelope event.

(** ** Channels created before their event is stored *)

(** [Exists] is the answer to a creation with an id in use. *)
Inductive PreCreated := NotCreated | Created (channel_id : Uuid) | Exists.
Definition first_content (name : string) (event : Event) : option string := head (contents_of name event).
Definition pre_create (event : Event) (channel_id : option Uuid) : prog (result PreCreated IngestError) :=
  if negb (event_kind_u32 event =? KIND_NIP29_CREATE_GROUP) then Ret (Ok NotCreated)
  else
    match first_content "name" event with
    | None => rejected "invalid: channel name is required"
    | Some create_name =>
        let name := canonical_channel_name create_name in
        let visibility_str := default "open" (first_content "visibility" event) in
        let channel_type_str := default "stream" (first_content "channel_type" event) in
        if str_is_empty (trim name) then rejected "invalid: channel name is required"
        else
          match ChannelVisibility.from_str visibility_str, ChannelType.from_str channel_type_str with
          | Err _, _ => Ret (Err (Rejected (fmt "invalid visibility: {visibility_str}" [AText visibility_str])))
          | Ok _, Err _ =>
              Ret (Err (Rejected (fmt "invalid channel_type: {channel_type_str}" [AText channel_type_str])))
          | Ok visibility, Ok channel_type =>
              match channel_id with
              | None => Ret (Ok NotCreated)
              | Some client_uuid =>
                  await? out <- internal_if "error: {e}" (perform (Chan
                    (CreateChannelWithId community client_uuid name channel_type visibility
                       (first_content "about" event) (ev_pubkey event)
                       (resolve_ttl event (cx_ephemeral_ttl_override cx))))) ;;
                  Ret (Ok (if snd out then Created client_uuid else Exists))
              end
          end
    end.
Definition check_join (event : Event) (channel_id : option Uuid) (row : option ChannelRow)
  : result unit IngestError :=
  if negb (event_kind_u32 event =? KIND_NIP29_JOIN_REQUEST) then Ok tt
  else
    match channel_id, row with
    | None, _ => Err (Rejected (msg "invalid: join request must include an h tag"))
    | Some _, None => Err (Rejected (msg "invalid: channel not found"))
    | Some _, Some ch =>
        if bool_decide (ch_visibility ch = ChannelVisibility.Private)
        then Err (Rejected (msg "restricted: channel is private")) else Ok tt
    end.

(** ** Storing *)

Definition accept_push_lease (auth : IngestAuth) (event : Event) (now : Z)
  : prog (result IngestResult IngestError) :=
  await? outcome <- prog_map_err map_push_accept_error (accept_lease other cx event now) ;;
  try? _ := refused_lease outcome in
  await _ <- emit_global auth event ;;
  done_with event true "".

Definition media_tags (event : Event) : list Tag :=
  List.filter (fun t => String.eqb (tag_kind t) "imeta") (ev_tags event).
Definition check_media (event : Event) : prog (result unit IngestError) :=
  let tags := media_tags event in
  when_ (negb (bool_decide (tags = []))) (invalid_if (check_imeta other cx tags)).
Definition thread_of (event : Event) (channel_id : option Uuid)
  : prog (result (option ThreadMetadataOwned) IngestError) :=
  match channel_id with
  | Some ch_id =>
      if requires_h_channel_scope (event_kind_u32 event) then invalid_if (resolve_thread event ch_id)
      else Ret (Ok None)
  | None => Ret (Ok None)
  end.
Definition check_profile (event : Event) : result unit IngestError :=
  if (event_kind_u32 event =? KIND_PROFILE) && bool_decide (json_from_str (ev_content event) = None)
  then Err (Rejected (msg "invalid: kind:0 content must be valid JSON")) else Ok tt.

(** The step a write is traced as. *)
Definition write_action (event : Event) (channel_id : option Uuid) (was_inserted : bool) : TraceAction :=
  let id := msg_id_label (ev_id event) in
  let claimed := claimed_community_from_event event in
  match channel_id, was_inserted with
  | Some ch, true => WriteInsert id ch claimed
  | Some ch, false => WriteDuplicate id ch claimed
  | None, _ => WriteInsertGlobal id claimed
  end.
Definition dispatch (auth : IngestAuth) (stored : StoredEvent) (kind : Z)
    (threaded : option ThreadedChannelVisibility) : prog unit :=
  perform (Dispatch pod community stored kind (to_hex (auth_pubkey auth)) threaded).

Definition MAX_REACTION_EMOJI_CHARS : nat := 64.
(** Reactions: the row and the event in one transaction. *)
Definition store_reaction (auth : IngestAuth) (event : Event) (channel_id : option Uuid)
    (meta : option ThreadMetadataOwned) (threaded : option ThreadedChannelVisibility)
  : prog (result IngestResult IngestError) :=
  match reaction_target event with
  | None => rejected "invalid: reaction must reference a target event via e tag"
  | Some target_hex =>
      match hex_decode target_hex with
      | None => rejected "invalid: malformed reaction target id"
      | Some target_id =>
          let emoji := reaction_emoji event in
          if Nat.ltb MAX_REACTION_EMOJI_CHARS (char_count emoji)
          then Ret (Err (Rejected (fmt "invalid: reaction emoji exceeds {} characters (got {})"
                             [ANum (Z.of_nat MAX_REACTION_EMOJI_CHARS); ANum (Z.of_nat (char_count emoji))])))
          else
            await? outcome <- internal_if "error: {e}" (perform (Store
              (InsertReaction community event channel_id (as_params <$> meta) target_id
                 (effective_message_author event relay_pubkey) emoji))) ;;
            match (outcome : ReactionEventInsertOutcome) with
            | TargetMissing => rejected "invalid: reaction target event not found"
            | Duplicate => done_with event false "duplicate: reaction already exists"
            | Inserted stored was_inserted =>
                match channel_id with
                | None => Ret (Err Panicked)
                | Some _ =>
                    await _ <- emit auth (write_action event channel_id was_inserted) ;;
                    await _ <- dispatch auth stored (event_kind_u32 event) threaded ;;
                    done_with event true ""
                end
            end
      end
  end.

(** The undoing of a creation whose event could not be stored. *)
Definition compensate (pre_created : PreCreated) : prog unit :=
  match pre_created with
  | Created ch_id =>
      await _ <- perform (Chan (DeleteChannel community ch_id)) ;;
      invalidate_channel_deleted cx
  | _ => Ret tt
  end.
Definition persist (event : Event) (channel_id : option Uuid) (meta : option ThreadMetadataOwned)
    (pre_created : PreCreated) : prog (result (StoredEvent * bool) IngestError) :=
  let kind := event_kind_u32 event in
  if is_replaceable kind then
    internal_if "error: {e}" (perform (Store (ReplaceAddressable community event channel_id)))
  else if is_parameterized_replaceable kind then
    let d_tag := default "" (extract_d_tag event) in
    if Nat.ltb D_TAG_MAX_LEN (String.length d_tag)
    then Ret (Err (Rejected (fmt "invalid: d tag too long ({} bytes, max {})"
                       [ANum (Z.of_nat (String.length d_tag)); ANum (Z.of_nat D_TAG_MAX_LEN)])))
    else internal_if "error: {e}" (perform (Store (ReplaceParameterized community event d_tag channel_id)))
  else
    await out <- perform (Store (InsertWithThread community event channel_id (as_params <$> meta))) ;;
    match out with
    | Ok stored => Ret (Ok stored)
    | Err e =>
        await _ <- compensate pre_created ;;
        Ret (Err (match e with
                  | AuthEventRejected => Rejected (msg "invalid: AUTH events cannot be stored")
                  | other => Internal (fmt "error: database error: {other}" [AText (db_error_text other)])
                  end))
    end.

(** What follows a new row; the failure of a side effect is logged. *)
Definition after_insert (auth : IngestAuth) (event : Event) (channel_id : option Uuid)
    (meta : option ThreadMetadataOwned) (threaded : option ThreadedChannelVisibility) (stored : StoredEvent)
  : prog (result IngestResult IngestError) :=
  let kind := event_kind_u32 event in
  await _ <- (if is_side_effect_kind kind
              then await _ <- handle_side_effects (other_effects other) cx kind event ;; Ret tt
              else Ret tt) ;;
  await _ <- match meta with
             | Some m => emit_live_thread_summary (tm_channel_id m) (tm_root_event_id m)
             | None => Ret tt
             end ;;
  await _ <- emit auth (write_action event channel_id true) ;;
  await _ <- dispatch auth stored kind threaded ;;
  done_with event true "".
Definition store_event (auth : IngestAuth) (event : Event) (channel_id : option Uuid)
    (threaded : option ThreadedChannelVisibility) (pre_created : PreCreated)
  : prog (result IngestResult IngestError) :=
  await? _ <- check_media event ;;
  await? meta <- thread_of event channel_id ;;
  try? _ := check_profile event in
  if event_kind_u32 event =? KIND_REACTION then store_reaction auth event channel_id meta threaded
  else
    await? out <- persist event channel_id meta pre_created ;;
    if snd out then after_insert auth event channel_id meta threaded (fst out)
    else done_with event true "duplicate:".

(** An event whose channel and membership have been settled. *)
Definition complete (auth : IngestAuth) (event : Event) (now : Z) (channel_id : option Uuid)
    (row : option ChannelRow) (threaded : option ThreadedChannelVisibility)
  : prog (result IngestResult IngestError) :=
  let kind := event_kind_u32 event in
  await? _ <- check_evm auth event ;;
  if is_relay_admin_kind kind then relay_admin_command event
  else if kind =? KIND_NIP43_LEAVE_REQUEST then leave_relay event
  else
    await? _ <- validate event channel_id row ;;
    await? pre_created <- pre_create event channel_id ;;
    match pre_created with
    | Exists => done_with event false "duplicate: channel already exists"
    | _ =>
        try? _ := check_join event channel_id row in
        if kind =? KIND_PUSH_LEASE then accept_push_lease auth event now
        else store_event auth event channel_id threaded pre_created
    end.
Definition gated (auth : IngestAuth) (event : Event) (now : Z) : prog (result IngestResult IngestError) :=
  await? _ <- when_ (negb (is_relay_admin_kind (event_kind_u32 event))) (check_restriction auth) ;;
  await? channel_id <- resolve_channel auth event ;;
  await row <- read_channel channel_id ;;
  await threaded <- thread_visibility channel_id row ;;
  await? _ <- check_membership auth event channel_id row ;;
  complete auth event now channel_id row threaded.
Definition ingest_event_inner (auth : IngestAuth) (event : Event) : prog (result IngestResult IngestError) :=
  await? now <- authenticate auth event ;;
  match direct auth event with
  | Some p => p
  | None => gated auth event now
  end.

(** ** The guard around it *)

(** [CountingTracer]: the steps a request traces. *)
Definition is_step (o : Op) : bool := match o with Leave (Traced _ _) => true | _ => false end.
Fixpoint counting {B : Type} (n : nat) (p : prog B) : prog (B * nat) :=
  match p with
  | Ret b => Ret (b, n)
  | Call o k => Call o (fun r => counting (if is_step o then S n else n) (k r))
  end.
(** [ingest_event]; [EmitGuard]'s [Drop] is the last step.  The label of its metrics is left
    out. *)
Definition ingest_event (auth : IngestAuth) (event : Event) : prog (result IngestResult IngestError) :=
  await out <- counting 0 (ingest_event_inner auth event) ;;
  let '(result, steps) := out in
  match (match result with Err e => sanitized_reason_for e | Ok _ => None end) with
  | Some reason =>
      await _ <- emit auth (SanitizedError reason) ;; Ret result
  | None =>
      await _ <- (if Nat.eqb steps 0
                  then emit auth (ImplBug "ingest_event_exited_without_trace") else Ret tt) ;;
      Ret result
  end.
End ingest.
