(* ===== verification/Effects.v ===== *)
(** Effects: what one submitted event can make the relay do.

    [may_ask] says which operations [ingest_event] may ask for on behalf of an event: the
    calls name its community and its author, what is stored is the event or signed by the
    relay, and nothing is written before the event has passed authentication.  One lemma per
    handler establishes it; the consequences for a whole system of tasks are theorems about
    any number of requests, interleaved in any way. *)
From S2P Require Import Prelude Programs Nostr Kinds Filters Text Json EventStore Threads Auth Envelopes Conformance Channel Membership Subscription ReadPath Delivery Moderation Relay Groups Moderators Submission Commands Ingest.
Local Open Scope string_scope.
Local Open Scope list_scope.
Local Open Scope Z_scope.
Local Open Scope buzz_scope.

Create HintDb effects discriminated.
#[export] Hint Constants Opaque : effects.

Section effects.
Context `{A : NostrApi} `{U : UuidParse} `{SD : StoreDeps} `{H : HashIter} `{DG : Digest} `{K : RelayKeys} `{J : SerdeJson} `{CT : ChronoText} `{JP : !JsonParse}.

(** * What a handler may ask for *)

Definition relay_signed (e : Event) : Prop :=
  exists created_at kind tags content, sign created_at kind tags content = Some e.

(** [own]: the channels the event itself may be stored under; [vis]: the visibilities that may
    be handed to the fan-out. *)
Section allowed.
Context (cx : Ctx) (event : Event) (own : option Uuid -> Prop) (vis : ThreadedChannelVisibility -> Prop).
Let community := cx_community cx.
Let author := ev_pubkey event.

(** The actor of every change of roles is the author. *)
Definition chan_allowed (c : ChanCall) : Prop :=
  match c with
  | CreateChannel co _ _ _ _ by_ _ | CreateChannelWithId co _ _ _ _ _ by_ _
  | SetTopic co _ _ by_ | SetPurpose co _ _ by_ | RemoveMember co _ _ by_
  | EnsureUser co by_ | SetAddPolicy co by_ _ | HideDm co _ by_ => co = community /\ by_ = author
  | AddMember co _ pk _ inv => co = community /\ (inv = Some author \/ (inv = None /\ pk = author))
  | OpenDm co _ by_ => co = community /\ (by_ = author \/ by_ = relay_pubkey)
  | UpdateChannel co _ _ | ArchiveChannel co _ | UnarchiveChannel co _ | DeleteChannel co _
  | UnhideDm co _ _ => co = community
  end.
Definition may_store (e : Event) (ch : option Uuid) : Prop := (e = event /\ own ch) \/ relay_signed e.
Definition store_allowed (c : StoreCall) : Prop :=
  match c with
  | InsertEvent co e ch | InsertWithThread co e ch _ | InsertReaction co e ch _ _ _ _
  | ReplaceAddressable co e ch | ReplaceParameterized co e _ ch => co = community /\ may_store e ch
  | DeleteWithThread co _ _ _ | DeleteByCoordinate co _ _ _ _ | DeleteDiscovery co _ _
  | RemoveReactionBySource co _ | RemoveReaction co _ _ _ _ => co = community
  end.
(** Never an owner. *)
Definition plain_role (role : string) : Prop := role = "admin" \/ role = "member".
Definition mod_allowed (c : ModCall) : Prop :=
  match c with
  | RosterAdd co _ role by_ => co = community /\ plain_role role /\ by_ = Some (to_hex author)
  | RosterDelete co _ role => co = community /\ (role = None \/ role = Some "member")
  | RosterRole co _ role => co = community /\ plain_role role
  | BanMember co _ actor _ _ | UnbanMember co _ actor | TimeoutMember co _ actor _ _
  | UntimeoutMember co _ actor | CloseReport co _ _ actor _ | AddAction co actor _ _ _ _ =>
      co = community /\ actor = author
  | AddReport co id by_ _ _ _ _ => co = community /\ by_ = author /\ id = ev_id event
  | SetIcon co _ => co = community
  end.
Definition allowed (o : Op) : Prop :=
  match o with
  | Chan c => chan_allowed c
  | Store c => store_allowed c
  | Moderate c => mod_allowed c
  | CachedMember _ co _ _ | CachedVisibility _ co _ _ | InvalidateMember _ co _ _
  | InvalidateVisibility _ co _ | InvalidateDeleted _ co | Publish _ co _ _ _ | FanOut _ co _
  | ConnsOf _ co _ | SubscribersOf _ co _ | Evict _ co _ _
  | PublishRoster co => co = community
  | InsertCommand co e ch _ | EndCommand co e ch _ _ => co = community /\ may_store e ch
  | Dispatch _ co _ _ _ threaded => co = community /\ (threaded = None \/ exists t, threaded = Some t /\ vis t)
  | ReadChan | ReadStore | ReadMod | Clock | Begin | PubkeyOf _ _ | Ask _ | Leave _ => True
  | Receive _ _ _ | Connections _ _ => False
  end.
End allowed.

Notation quiet := (fun _ => True).

Section rules.
Context {I : World -> Prop} {P : Op -> Prop}.
Lemma asks_seq {B C : Type} (p : prog B) (k : B -> prog C) :
  asks I P quiet p -> (forall b, asks I P quiet (k b)) -> asks I P quiet (bind p k).
Proof. intros Hp Hk. eapply asks_bind; [exact Hp|]. intros b _. apply Hk. Qed.
Lemma asks_seq_try {B C E : Type} (p : prog (result B E)) (k : B -> prog (result C E)) :
  asks I P quiet p -> (forall b, asks I P quiet (k b)) -> asks I P quiet (try_bind p k).
Proof. intros Hp Hk. apply asks_seq; [done|]. intros [b|e]; [apply Hk|done]. Qed.
Lemma asks_seq_value {B C E : Type} (r : result B E) (k : B -> prog (result C E)) :
  (forall b, r = Ok b -> asks I P quiet (k b)) -> asks I P quiet (try r k).
Proof. destruct r as [b|e]; simpl; [|done]. intros Hk. by apply Hk. Qed.
Lemma asks_seq_err {B E F : Type} (f : E -> F) (p : prog (result B E)) :
  asks I P quiet p -> asks I P quiet (prog_map_err f p).
Proof. intros Hp. apply asks_seq; [done|]. by intros [b|e]. Qed.
Lemma asks_each {B E : Type} (l : list B) (f : B -> prog (result unit E)) :
  (forall x, asks I P quiet (f x)) -> asks I P quiet (for_each l f).
Proof. intros Hf. induction l as [|x l IH]; [done|]. apply asks_seq_try; [apply Hf|by intros _]. Qed.
Lemma asks_all {B : Type} (l : list B) (f : B -> prog unit) :
  (forall x, asks I P quiet (f x)) -> asks I P quiet (for_all l f).
Proof. intros Hf. induction l as [|x l IH]; [done|]. apply asks_seq; [apply Hf|by intros _]. Qed.
Lemma asks_counting {B : Type} n (p : prog B) :
  asks I P quiet p -> asks I P quiet (counting n p).
Proof.
  revert n. induction p as [b|o k IH]; intros n; [done|]. intros [Ho Hk].
  split; [done|]. intros w f r w' Hw Hr. by eapply IH, Hk.
Qed.
End rules.
End effects.

(** One rule of the program's shape at a time; what is left are the lemmas of its handlers. *)
Ltac asks_step :=
  match goal with
  | |- forall _, _ => intros ?
  | |- asks _ _ _ (Ret _) => exact Logic.I
  | |- asks _ _ _ (let _ := _ in _) => cbv zeta
  | |- asks _ _ _ (bind _ _) => apply asks_seq
  | |- asks _ _ _ (try_bind _ _) => apply asks_seq_try
  | |- asks _ _ _ (try _ _) => apply asks_seq_value
  | |- asks _ _ _ (prog_map_err _ _) => apply asks_seq_err
  | |- asks _ _ _ (lift _) => apply asks_seq_err
  | |- asks _ _ _ (because _ _) => apply asks_seq_err
  | |- asks _ _ _ (or_else _ _) => apply asks_seq_err
  | |- asks _ _ _ (or_error _ _) => apply asks_seq_err
  | |- asks _ _ _ (database _) => apply asks_seq_err
  | |- asks _ _ _ (invalid_if _) => apply asks_seq_err
  | |- asks _ _ _ (internal_if _ _) => apply asks_seq_err
  | |- asks _ _ _ (rejected _) => exact Logic.I
  | |- asks _ _ _ (auth_failed _) => exact Logic.I
  | |- asks _ _ _ (done_with _ _ _) => exact Logic.I
  | |- asks _ _ _ (handled _ _) => apply asks_seq_try
  | |- asks _ _ _ (when_ _ _) => unfold when_
  | |- asks _ _ _ (logged _) => apply asks_seq
  | |- asks _ _ _ (for_each _ _) => apply asks_each
  | |- asks _ _ _ (for_all _ _) => apply asks_all
  | |- asks _ _ _ (perform _) => apply asks_any; simpl; unfold may_store; eauto 6 with effects
  | |- asks _ _ _ (Call _ _) => split; [simpl; eauto 6 with effects|]
  | |- asks _ _ _ (chan _) => apply asks_seq_try
  | |- asks _ _ _ (store _) => apply asks_seq_try
  | |- asks _ _ _ (moderation _) => apply asks_seq_try
  | |- asks _ _ _ _ => solve [eauto 4 with effects]
  | |- asks _ _ _ (match ?x with _ => _ end) => destruct x eqn:?
  end.
Ltac asks_tac := repeat asks_step.

Section handlers.
Context `{A : NostrApi} `{U : UuidParse} `{SD : StoreDeps} `{H : HashIter} `{DG : Digest} `{K : RelayKeys} `{J : SerdeJson} `{CT : ChronoText} `{JP : !JsonParse}.
Context (I : World -> Prop) (cx : Ctx) (event : Event).
Context (own : option Uuid -> Prop) (vis : ThreadedChannelVisibility -> Prop).

Notation quiet := (fun _ => True).
Notation fine p := (asks I (allowed cx event own vis) quiet p).

(** * The relay's own messages *)

Lemma relay_signed_intro created_at kind tags content e :
  sign created_at kind tags content = Some e -> relay_signed e.
Proof. unfold relay_signed. eauto. Qed.
#[local] Hint Resolve relay_signed_intro : effects.

Lemma asks_signed {B} now_kind tags content text (k : Event -> prog (result B Message)) :
  (forall e, relay_signed e -> fine (k e)) -> fine (try_bind (signed now_kind tags content text) k).
Proof.
  intros Hk. unfold signed. split; [exact Logic.I|]. intros w f r w' _ _. simpl.
  destruct (sign r now_kind tags content) as [e|] eqn:He; [|done]. apply Hk. by eapply relay_signed_intro.
Qed.

Ltac signed_step :=
  match goal with |- asks _ _ _ (try_bind (signed _ _ _ _) _) => apply asks_signed; intros ? ? end.
Ltac signed_tac := repeat first [signed_step | asks_step].

Lemma asks_system_message ch fields : fine (emit_system_message cx ch fields).
Proof. unfold emit_system_message. signed_tac. Qed.
#[local] Hint Resolve asks_system_message : effects.
Lemma asks_membership_notification ch target actor kind :
  fine (emit_membership_notification cx ch target actor kind).
Proof. unfold emit_membership_notification. signed_tac. Qed.
#[local] Hint Resolve asks_membership_notification : effects.
Lemma asks_addressable ch kind tags : fine (emit_addressable_discovery_event cx ch kind tags).
Proof. unfold emit_addressable_discovery_event. asks_tac. Qed.
#[local] Hint Resolve asks_addressable : effects.
Lemma asks_discovery ch : fine (emit_group_discovery_events cx ch).
Proof. unfold emit_group_discovery_events. asks_tac. Qed.
#[local] Hint Resolve asks_discovery : effects.
Lemma asks_dm_snapshot viewer : fine (publish_dm_visibility_snapshot cx viewer).
Proof. unfold publish_dm_visibility_snapshot. asks_tac. Qed.
Lemma asks_announce ch fields target actor kind : fine (announce cx ch fields target actor kind).
Proof. unfold announce. asks_tac. Qed.
#[local] Hint Resolve asks_announce : effects.

(** * Validation reads only *)

Lemma asks_agent_owned target actor : fine (agent_owned cx target actor).
Proof. unfold agent_owned. asks_tac. Qed.
#[local] Hint Resolve asks_agent_owned : effects.
Lemma asks_any_owner_agent members actor : fine (actor_owns_any_owner_agent cx members actor).
Proof. induction members as [|m ms IH]; [done|]. cbn [actor_owns_any_owner_agent]. asks_tac. Qed.
#[local] Hint Resolve asks_any_owner_agent : effects.
Lemma asks_reads_open ch : fine (reads_open cx ch).
Proof. unfold reads_open. asks_tac. Qed.
#[local] Hint Resolve asks_reads_open : effects.
Lemma asks_standard_deletion e : fine (validate_standard_deletion_event cx e).
Proof. unfold validate_standard_deletion_event. asks_tac. Qed.
Lemma asks_put_user_check e ch row actor : fine (validate_put_user cx e ch row actor).
Proof. unfold validate_put_user. asks_tac. Qed.
Lemma asks_remove_user_check e ch actor : fine (validate_remove_user cx e ch actor).
Proof. unfold validate_remove_user. asks_tac. Qed.
Lemma asks_edit_metadata_check e ch actor : fine (validate_edit_metadata cx e ch actor).
Proof. unfold validate_edit_metadata. asks_tac. Qed.
Lemma asks_delete_event_check e ch actor : fine (validate_delete_event cx e ch actor).
Proof. unfold validate_delete_event. asks_tac. Qed.
Lemma asks_delete_group_check ch actor : fine (validate_delete_group cx ch actor).
Proof. unfold validate_delete_group. asks_tac. Qed.
#[local] Hint Resolve asks_standard_deletion asks_put_user_check asks_remove_user_check asks_edit_metadata_check
  asks_delete_event_check asks_delete_group_check : effects.
Lemma asks_admin_check kind e : fine (validate_admin_event cx kind e).
Proof. unfold validate_admin_event. asks_tac. Qed.
#[local] Hint Resolve asks_admin_check : effects.

(** * After storage *)

Lemma asks_evict ch pk : fine (evict_live_channel_subscriptions cx ch pk).
Proof. unfold evict_live_channel_subscriptions, evict_conn_channel_subscriptions. asks_tac. Qed.
Lemma asks_evict_non_members ch : fine (evict_non_member_channel_subscriptions cx ch).
Proof. unfold evict_non_member_channel_subscriptions, evict_conn_channel_subscriptions. asks_tac. Qed.
Lemma asks_invalidate_membership ch pk : fine (invalidate_membership cx ch pk).
Proof. unfold invalidate_membership. asks_tac. Qed.
Lemma asks_invalidate_visibility ch : fine (invalidate_channel_visibility cx ch).
Proof. unfold invalidate_channel_visibility. asks_tac. Qed.
Lemma asks_invalidate_all : fine (invalidate_all_accessible_channels cx).
Proof. unfold invalidate_all_accessible_channels. asks_tac. Qed.
Lemma asks_invalidate_deleted : fine (invalidate_channel_deleted cx).
Proof. unfold invalidate_channel_deleted. asks_tac. Qed.
Lemma asks_disable_workflows ch pk : fine (disable_departed_member_workflows cx ch pk).
Proof. unfold disable_departed_member_workflows. asks_tac. Qed.
Lemma asks_thread_summary ch root : fine (emit_live_thread_summary ch root).
Proof. unfold emit_live_thread_summary. asks_tac. Qed.
#[local] Hint Resolve asks_evict asks_evict_non_members asks_invalidate_membership asks_invalidate_visibility
  asks_invalidate_all asks_invalidate_deleted asks_disable_workflows asks_thread_summary : effects.

Lemma asks_agent_profile : fine (handle_agent_profile cx event).
Proof. unfold handle_agent_profile. asks_tac. Qed.
Lemma asks_put_user : fine (handle_put_user cx event).
Proof. unfold handle_put_user. asks_tac. Qed.
Lemma asks_remove_user : fine (handle_remove_user cx event).
Proof. unfold handle_remove_user. asks_tac. Qed.
Lemma asks_edit_tag ch t : fine (edit_tag cx ch (ev_pubkey event) t).
Proof. unfold edit_tag, edit_visibility, edit_ttl, edit_archived, update. asks_tac. Qed.
#[local] Hint Resolve asks_edit_tag : effects.
Lemma asks_edit_metadata : fine (handle_edit_metadata cx event).
Proof. unfold handle_edit_metadata. asks_tac. Qed.
Lemma asks_delete_with_thread id text : fine (delete_with_thread cx id text).
Proof. unfold delete_with_thread. asks_tac. Qed.
#[local] Hint Resolve asks_delete_with_thread : effects.
Lemma asks_delete_event : fine (handle_delete_event_side_effect cx event).
Proof. unfold handle_delete_event_side_effect. asks_tac. Qed.
Lemma asks_create name type visibility : fine (create cx event name type visibility).
Proof. unfold create. asks_tac. Qed.
#[local] Hint Resolve asks_create : effects.
Lemma asks_create_group : fine (handle_create_group cx event).
Proof. unfold handle_create_group. asks_tac. Qed.
Lemma asks_delete_group : fine (handle_delete_group cx event).
Proof. unfold handle_delete_group. asks_tac. Qed.
Lemma asks_join : fine (handle_join_request cx event).
Proof. unfold handle_join_request. asks_tac. Qed.
Lemma asks_leave : fine (handle_leave_request cx event).
Proof. unfold handle_leave_request. asks_tac. Qed.
Lemma asks_remove_reaction id e : fine (remove_reaction_of cx id e).
Proof. unfold remove_reaction_of. asks_tac. Qed.
#[local] Hint Resolve asks_remove_reaction : effects.
Lemma asks_delete_target id : fine (delete_target cx id).
Proof. unfold delete_target. asks_tac. Qed.
#[local] Hint Resolve asks_delete_target : effects.
Lemma asks_deletion (delete_workflow : string -> Bytes -> prog (result unit Message)) :
  (forall d a, fine (delete_workflow d a)) -> fine (handle_standard_deletion_event cx delete_workflow event).
Proof. intros Hw. unfold handle_standard_deletion_event, handle_a_tag_deletion. asks_tac. Qed.
End handlers.

(** * Moderators and ingest *)

Section ingesting.
Context `{A : NostrApi} `{U : UuidParse} `{SD : StoreDeps} `{H : HashIter} `{DG : Digest} `{K : RelayKeys} `{J : SerdeJson} `{CT : ChronoText} `{JP : !JsonParse} `{V : EventVerify}.

Notation quiet := (fun _ => True).

#[local] Hint Resolve relay_signed_intro asks_discovery asks_system_message asks_membership_notification
  asks_announce asks_agent_owned asks_reads_open asks_admin_check asks_standard_deletion
  asks_invalidate_deleted asks_thread_summary : effects.

Section moderators.
Context (I : World -> Prop) (cx : Ctx) (event : Event).
Context (own : option Uuid -> Prop) (vis : ThreadedChannelVisibility -> Prop).
Notation fine p := (asks I (allowed cx event own vis) quiet p).
Ltac signed_step :=
  match goal with |- asks _ _ _ (try_bind (signed _ _ _ _) _) => apply asks_signed; intros ? ? end.
Ltac signed_tac := repeat first [signed_step | asks_step].

Lemma asks_moderation_profile : fine (publish_moderation_profile cx).
Proof. unfold publish_moderation_profile. signed_tac. Qed.
#[local] Hint Resolve asks_moderation_profile : effects.
Lemma asks_notice recipient notice : fine (send_moderation_notice cx recipient notice).
Proof. unfold send_moderation_notice, notice_already_sent. signed_tac. Qed.
Lemma asks_restriction pk : fine (restriction_of cx pk).
Proof. unfold restriction_of. asks_tac. Qed.
Lemma asks_authorized actor target action : fine (authorized cx actor target action).
Proof. unfold authorized, authorize_moderation_action, community_role. asks_tac. Qed.
#[local] Hint Resolve asks_notice asks_restriction asks_authorized : effects.
Lemma asks_moderation_command : fine (handle_moderation_command cx event).
Proof.
  unfold handle_moderation_command, handle_ban, handle_unban, handle_timeout, handle_untimeout,
    handle_resolve, insert_audit. asks_tac.
Qed.

Lemma asks_nip43_delta kind target : fine (publish_nip43_delta cx kind target).
Proof. unfold publish_nip43_delta. signed_tac. Qed.
Lemma asks_membership_list : fine (publish_nip43_membership_list cx).
Proof. unfold publish_nip43_membership_list. asks_tac. Qed.
#[local] Hint Resolve asks_nip43_delta asks_membership_list : effects.
Lemma asks_announce_member kind target : fine (announce_member cx kind target).
Proof. unfold announce_member. asks_tac. Qed.
Lemma asks_remove_relay_member target role :
  role = None \/ role = Some "member" -> fine (remove_relay_member cx target role).
Proof. intros Hr. unfold remove_relay_member. asks_tac. Qed.
#[local] Hint Resolve asks_announce_member asks_remove_relay_member : effects.

Lemma plain_role_intro role :
  negb (String.eqb role "admin") && negb (String.eqb role "member") = false -> plain_role role.
Proof.
  unfold plain_role. destruct (String.eqb_spec role "admin"), (String.eqb_spec role "member"); naive_solver.
Qed.
#[local] Hint Resolve plain_role_intro : effects.
#[local] Hint Extern 1 (_ = None \/ _ = Some _) => (case_match; auto) : effects.
Lemma asks_relay_admin : fine (handle_relay_admin_event cx event).
Proof.
  unfold handle_relay_admin_event, execute_relay_admin_command, set_workspace_profile, add_member_command,
    remove_member_command, change_role_command. asks_tac.
Qed.
Lemma asks_report : fine (handle_report_event cx event).
Proof. unfold handle_report_event, report_target. asks_tac. Qed.
End moderators.

(** * Commands *)

Definition workflow_command (W : WorkflowCommands) (cx : Ctx) (auth : IngestAuth) (event : Event)
  : list (prog (result IngestResult IngestError)) :=
  [handle_workflow_def W cx auth event; handle_workflow_trigger W cx auth event;
   handle_approval_grant W cx auth event; handle_approval_deny W cx auth event].
Section commands.
Context (I : World -> Prop) (cx : Ctx) (auth : IngestAuth) (event : Event).
Context (own : option Uuid -> Prop) (vis : ThreadedChannelVisibility -> Prop).
Context (Hauthor : auth_pubkey auth = ev_pubkey event) (Hown : own (extract_channel_id event)).
Notation fine p := (asks I (allowed cx event own vis) quiet p).
#[local] Hint Resolve asks_invalidate_membership asks_dm_snapshot : effects.

Lemma asks_in_transaction {B : Type} (body : prog (result B IngestError)) after :
  fine body -> (forall b, fine (after b)) -> fine (in_transaction cx event None body after).
Proof.
  intros Hbody Hafter. unfold in_transaction, persist_command_event. cbn [command_channel]. asks_tac; apply Hafter.
Qed.
Lemma asks_notify_all ch l actor : fine (notify_all cx ch l actor).
Proof. unfold notify_all. asks_tac. Qed.
Lemma asks_own_dm pk ch : fine (check_own_dm cx pk ch).
Proof. unfold check_own_dm, refuse. asks_tac. Qed.
#[local] Hint Resolve asks_notify_all asks_own_dm : effects.
Ltac transaction_step :=
  match goal with |- asks _ _ _ (in_transaction _ _ _ _ _) => apply asks_in_transaction end.
Lemma asks_command_handler W : Forall (asks I (allowed cx event own vis) quiet) (workflow_command W cx auth event) ->
  fine (handle_command W cx auth event).
Proof.
  unfold workflow_command. rewrite !Forall_cons. intros (Hd & Ht & Hg & Hn & _). unfold handle_command, handle_dm_open, handle_dm_add_member, handle_dm_hide.
  rewrite Hauthor. repeat first [transaction_step|asks_step].
Qed.
End commands.
#[local] Hint Resolve asks_moderation_command asks_relay_admin asks_report asks_announce_member
  asks_remove_relay_member asks_restriction : effects.

(** * Ingest *)

(** What an event has gone through before anything is written for it. *)
Record passed (auth : IngestAuth) (event : Event) : Prop := {
  ps_kind : check_kind auth (event_kind_u32 event) = Ok tt;
  ps_verified : verify_event event = Ok tt;
  ps_identity : check_identity auth event = Ok tt;
  ps_scope : check_scope auth event = Ok tt;
  ps_size : (String.length (ev_content event) <= MAX_EVENT_CONTENT_BYTES)%nat
}.
(** Operations that change a table or reach somebody. *)
Definition writes (o : Op) : bool :=
  match o with
  | Chan _ | Store _ | Moderate _ | Publish _ _ _ _ _ | FanOut _ _ _ | Dispatch _ _ _ _ _ _
  | Evict _ _ _ _ | PublishRoster _ | EndCommand _ _ _ _ _ => true
  | _ => false
  end.
Definition anything {B : Type} (_ : B) : Prop := True.
Definition nothing {B : Type} (_ : B) : Prop := False.
Definition may_ask (cx : Ctx) (auth : IngestAuth) (event : Event) (o : Op) : Prop :=
  allowed cx event anything anything o /\ (writes o = true -> passed auth event).
Lemma allowed_weaken cx event (own own' : option Uuid -> Prop) (vis vis' : ThreadedChannelVisibility -> Prop) o :
  (forall ch, own ch -> own' ch) -> (forall t, vis t -> vis' t) ->
  allowed cx event own vis o -> allowed cx event own' vis' o.
Proof.
  intros Ho Hv.
  destruct o; simpl; try done; try (match goal with c : StoreCall |- _ => destruct c end); simpl;
    unfold may_store; naive_solver.
Qed.

(** An outside check looks at tables and services and changes nothing. *)
Definition reading (o : Op) : Prop :=
  match o with ReadChan | ReadStore | ReadMod | Clock | Ask _ => True | _ => False end.
(** What the handlers outside the world are relied on for: workflow commands are the only ones
    that store the event they handle, besides push leases, which have no channel. *)
Class OtherLaws (other : OtherHandlers) := {
  ol_workflows I cx auth event : Forall (asks I (allowed cx event anything nothing) quiet)
    (workflow_command (workflow_commands other) cx auth event);
  ol_feedback I cx event : asks I (allowed cx event nothing nothing) quiet (handle_feedback other cx event);
  ol_attestation I cx npub : asks I reading quiet (check_attestation other cx npub);
  ol_archive I cx event :
    asks I (allowed cx event nothing nothing) quiet (handle_identity_archive_event other cx event);
  ol_lease I cx event now :
    asks I (allowed cx event (fun ch => ch = None) nothing) quiet (accept_lease other cx event now);
  ol_imeta I cx tags : asks I reading quiet (check_imeta other cx tags);
  ol_profile I cx event :
    asks I (allowed cx event nothing nothing) quiet (handle_kind0_profile (other_effects other) cx event);
  ol_announcement I cx event :
    asks I (allowed cx event nothing nothing) quiet (handle_git_repo_announcement (other_effects other) cx event);
  ol_delete_workflow I cx event d actor :
    asks I (allowed cx event nothing nothing) quiet (delete_workflow (other_effects other) cx d actor)
}.

Section ingest.
Context (other : OtherHandlers) {OL : OtherLaws other}.
Context (I : World -> Prop) (cx : Ctx) (auth : IngestAuth) (event : Event).

Section stages.
Context (own : option Uuid -> Prop) (vis : ThreadedChannelVisibility -> Prop).
Notation fine p := (asks I (allowed cx event own vis) quiet p).
Lemma reading_allowed o : reading o -> allowed cx event own vis o.
Proof. by destruct o. Qed.
Lemma asks_silent {B : Type} (p : prog B) :
  asks I (allowed cx event nothing nothing) quiet p -> fine p.
Proof. apply asks_allowed. intros o. by apply allowed_weaken. Qed.
Lemma asks_feedback : fine (handle_feedback other cx event).
Proof. apply asks_silent, ol_feedback. Qed.
Lemma asks_archive : fine (handle_identity_archive_event other cx event).
Proof. apply asks_silent, ol_archive. Qed.
Lemma asks_profile : fine (handle_kind0_profile (other_effects other) cx event).
Proof. apply asks_silent, ol_profile. Qed.
Lemma asks_announcement : fine (handle_git_repo_announcement (other_effects other) cx event).
Proof. apply asks_silent, ol_announcement. Qed.
Lemma asks_delete_workflow d actor : fine (delete_workflow (other_effects other) cx d actor).
Proof. apply asks_silent, ol_delete_workflow. Qed.
Lemma asks_attestation npub : fine (check_attestation other cx npub).
Proof. eapply asks_allowed; [apply reading_allowed|apply ol_attestation]. Qed.
Lemma asks_imeta tags : fine (check_imeta other cx tags).
Proof. eapply asks_allowed; [apply reading_allowed|apply ol_imeta]. Qed.
#[local] Hint Resolve asks_feedback asks_attestation asks_archive asks_imeta asks_profile asks_announcement
  asks_delete_workflow : effects.
#[local] Hint Resolve asks_agent_profile asks_put_user asks_remove_user asks_edit_metadata asks_delete_event
  asks_create_group asks_delete_group asks_join asks_leave asks_deletion : effects.

Lemma asks_side_effects kind : fine (handle_side_effects (other_effects other) cx kind event).
Proof. unfold handle_side_effects. asks_tac. Qed.
Lemma asks_emit action : fine (emit cx auth action).
Proof. unfold emit. asks_tac. Qed.
#[local] Hint Resolve asks_side_effects asks_emit : effects.

Lemma asks_find_target a b : fine (find_target cx event a b).
Proof. unfold find_target. asks_tac. Qed.
#[local] Hint Resolve asks_find_target : effects.
Lemma asks_envelope : fine (check_envelope cx event).
Proof.
  unfold check_envelope, validate_edit_ownership, validate_forum_vote_target, check_turn_metric,
    check_reminder. asks_tac.
Qed.
Lemma asks_resolve_thread ch : fine (resolve_thread cx event ch).
Proof. unfold resolve_thread. asks_tac. Qed.
#[local] Hint Resolve asks_envelope asks_resolve_thread : effects.
Lemma asks_validate ch row : fine (validate other cx event ch row).
Proof. unfold validate. asks_tac. Qed.
Lemma asks_pre_create ch : fine (pre_create cx event ch).
Proof. unfold pre_create. asks_tac. Qed.
#[local] Hint Resolve asks_validate asks_pre_create : effects.

(** Storing the event under [ch], with the visibility found for it. *)
Definition threaded_by (threaded : option ThreadedChannelVisibility) : Prop :=
  threaded = None \/ exists t, threaded = Some t /\ vis t.
Lemma asks_persist ch meta pre : own ch -> fine (persist cx event ch meta pre).
Proof. intros Hown. unfold persist, compensate. asks_tac. Qed.
Lemma asks_dispatch stored kind threaded : threaded_by threaded -> fine (dispatch cx auth stored kind threaded).
Proof. intros Hth. unfold dispatch. apply asks_any. by split. Qed.
#[local] Hint Resolve asks_persist asks_dispatch : effects.
Lemma asks_store_reaction ch meta threaded :
  own ch -> threaded_by threaded -> fine (store_reaction cx auth event ch meta threaded).
Proof. intros Hown Hth. unfold store_reaction. asks_tac. Qed.
Lemma asks_after_insert ch meta threaded stored :
  threaded_by threaded -> fine (after_insert other cx auth event ch meta threaded stored).
Proof. intros Hth. unfold after_insert. asks_tac. Qed.
#[local] Hint Resolve asks_store_reaction asks_after_insert : effects.
Lemma asks_store_event ch threaded pre :
  own ch -> threaded_by threaded -> fine (store_event other cx auth event ch threaded pre).
Proof. intros Hown Hth. unfold store_event, check_media, thread_of. asks_tac. Qed.
Lemma asks_push_lease now : own None -> fine (accept_push_lease other cx auth event now).
Proof.
  intros Hown. unfold accept_push_lease, emit_global.
  assert (fine (accept_lease other cx event now)).
  { eapply asks_allowed; [|apply ol_lease]. intros o. apply allowed_weaken; [by intros ch ->|done]. }
  asks_tac.
Qed.
Lemma asks_leave_relay : fine (leave_relay cx event).
Proof. unfold leave_relay. asks_tac. Qed.
Lemma asks_admin_command : fine (relay_admin_command cx event).
Proof. unfold relay_admin_command, handled. asks_tac. Qed.
#[local] Hint Resolve asks_store_event asks_push_lease asks_leave_relay asks_admin_command : effects.

Lemma asks_check_restriction : fine (check_restriction cx auth).
Proof. unfold check_restriction. asks_tac. Qed.
Lemma asks_resolve_channel : fine (resolve_channel cx auth event).
Proof.
  unfold resolve_channel, named_channel, derive_reaction_channel. asks_tac.
Qed.
Lemma asks_read_channel ch : fine (read_channel cx ch).
Proof. unfold read_channel. asks_tac. Qed.
Lemma asks_thread_visibility ch row : fine (thread_visibility cx ch row).
Proof. unfold thread_visibility. asks_tac. Qed.
Lemma asks_membership ch row : fine (check_membership cx auth event ch row).
Proof. unfold check_membership, check_channel_membership. asks_tac. Qed.
Lemma asks_evm : fine (check_evm other cx auth event).
Proof. unfold check_evm. asks_tac. Qed.
#[local] Hint Resolve asks_check_restriction asks_resolve_channel asks_read_channel asks_thread_visibility
  asks_membership asks_evm : effects.

(** ** The stages together *)

Lemma asks_complete now ch row threaded : (event_kind_u32 event = KIND_PUSH_LEASE -> own None) ->
  (is_relay_admin_kind (event_kind_u32 event) = false -> own ch) -> threaded_by threaded ->
  fine (complete other cx auth event now ch row threaded).
Proof.
  intros Hlease Hown Hth. unfold complete. repeat asks_step; apply asks_push_lease, Hlease; by apply Z.eqb_eq.
Qed.
Lemma asks_direct_stored p : is_command_kind (event_kind_u32 event) = false ->
  direct other cx auth event = Some p -> fine p.
Proof.
  intros Hk. unfold direct. rewrite Hk. repeat case_match; intros [= <-]; unfold emit_global; asks_tac.
Qed.
End stages.

Notation fine p := (asks I (allowed cx event anything anything) quiet p).

Lemma passed_author : passed auth event -> event_kind_u32 event <> KIND_GIFT_WRAP ->
  ev_pubkey event = auth_pubkey auth.
Proof.
  intros [_ _ Hid _ _] Hk. unfold check_identity in Hid. case_bool_decide as Heq; [done|].
  unfold is_gift_wrap in Hid. by rewrite (proj2 (Z.eqb_neq _ _) Hk) in Hid.
Qed.
Lemma asks_once_passed {B : Type} (p : prog B) :
  passed auth event -> fine p -> asks I (may_ask cx auth event) quiet p.
Proof. intros Hp. apply asks_allowed. intros o Ho. by split. Qed.

Lemma asks_authenticate : asks I reading (ok_only (fun _ => passed auth event)) (authenticate auth event).
Proof.
  unfold authenticate. apply asks_try_value. intros [] Hkind.
  eapply (asks_bind quiet); [by apply asks_any|]. intros joined _. destruct joined; cbn [negb]; [|done].
  apply asks_try_value. intros [] Hverify. eapply (asks_bind quiet); [by apply asks_any|]. intros now _.
  destruct (out_of_range _ _ _); [done|].
  destruct (Nat.ltb_spec MAX_EVENT_CONTENT_BYTES (String.length (ev_content event))); [done|].
  apply asks_try_value. intros [] Hid. apply asks_try_value. intros [] Hscope. split; [done| |done..|done].
  destruct (verify_event event) as [[]|]; [done|]. discriminate Hverify.
Qed.
Lemma asks_command p : passed auth event -> is_command_kind (event_kind_u32 event) = true ->
  direct other cx auth event = Some p -> asks I (allowed cx event anything nothing) quiet p.
Proof.
  intros Hp Hk. unfold direct. rewrite Hk. intros [= <-]. apply asks_command_handler; [|done|apply ol_workflows].
  symmetry. apply passed_author; [done|]. intros Hg. by rewrite Hg in Hk.
Qed.
Lemma asks_direct p : passed auth event -> direct other cx auth event = Some p -> fine p.
Proof.
  intros Hp Hd. destruct (is_command_kind (event_kind_u32 event)) eqn:Hk.
  - eapply asks_allowed; [|by apply asks_command]. intros o. by apply allowed_weaken.
  - by apply asks_direct_stored.
Qed.
Lemma asks_gated now : fine (gated other cx auth event now).
Proof.
  unfold gated. assert (forall ch row threaded, fine (complete other cx auth event now ch row threaded)) as Hc.
  { intros ch row threaded. apply asks_complete; [done..|]. destruct threaded; [right; by eexists|by left]. }
  pose proof asks_check_restriction. pose proof asks_resolve_channel. pose proof asks_read_channel.
  pose proof asks_thread_visibility. pose proof asks_membership. asks_tac.
Qed.
Lemma asks_inner : asks I (may_ask cx auth event) quiet (ingest_event_inner other cx auth event).
Proof.
  unfold ingest_event_inner. eapply asks_bind.
  { eapply asks_allowed; [|apply asks_authenticate]. intros o Ho. by destruct o. }
  intros [now|e] Hp; [|done]. destruct (direct other cx auth event) as [p|] eqn:Hd;
    apply asks_once_passed; [done|by apply asks_direct|done|apply asks_gated].
Qed.
Lemma ingest_asks : asks I (may_ask cx auth event) quiet (ingest_event other cx auth event).
Proof.
  unfold ingest_event. apply asks_seq; [apply asks_counting, asks_inner|]. intros [result steps].
  unfold emit. repeat asks_step; by split.
Qed.

(** ** Gift wraps

    Their author is not who submits them; they only become rows of the store. *)

Definition no_chan (o : Op) : Prop := match o with Chan _ => False | _ => True end.
Lemma reading_no_chan o : reading o -> no_chan o.
Proof. by destruct o. Qed.
Lemma attestation_no_chan npub : asks I no_chan quiet (check_attestation other cx npub).
Proof. eapply asks_allowed; [apply reading_no_chan|apply ol_attestation]. Qed.
Lemma imeta_no_chan tags : asks I no_chan quiet (check_imeta other cx tags).
Proof. eapply asks_allowed; [apply reading_no_chan|apply ol_imeta]. Qed.
#[local] Hint Resolve attestation_no_chan imeta_no_chan : effects.

Lemma gift_wrap_prefix : asks I no_chan quiet (authenticate auth event) /\
  asks I no_chan quiet (check_restriction cx auth) /\
  asks I no_chan quiet (resolve_channel cx auth event) /\
  (forall ch row, asks I no_chan quiet (check_membership cx auth event ch row)) /\
  asks I no_chan quiet (check_evm other cx auth event).
Proof.
  split_and!; unfold authenticate, check_restriction, restriction_of, resolve_channel, named_channel,
    derive_reaction_channel, check_membership, check_channel_membership, reads_open, emit, check_evm; asks_tac.
Qed.
Lemma gift_wrap_stored ch threaded : event_kind_u32 event = KIND_GIFT_WRAP ->
  asks I no_chan quiet (store_event other cx auth event ch threaded NotCreated).
Proof.
  intros Hk. unfold store_event, check_media, thread_of, resolve_thread, persist, compensate, after_insert,
    dispatch, emit, emit_live_thread_summary. rewrite Hk. repeat (asks_step; try discriminate).
Qed.
Lemma gift_wrap_no_chan : event_kind_u32 event = KIND_GIFT_WRAP ->
  asks I no_chan quiet (ingest_event other cx auth event).
Proof.
  intros Hk. destruct gift_wrap_prefix as (H1 & H2 & H3 & H4 & H5).
  unfold ingest_event. apply asks_seq; [apply asks_counting|].
  - unfold ingest_event_inner. apply asks_seq_try; [done|]. intros now.
    replace (direct other cx auth event) with (@None (prog (result IngestResult IngestError)))
      by (unfold direct; by rewrite Hk).
    unfold gated, complete. cbv zeta.
    apply asks_seq_try; [unfold when_; by destruct (negb _)|]. intros _.
    apply asks_seq_try; [done|]. intros ch. apply asks_seq; [unfold read_channel; asks_tac|]. intros row.
    apply asks_seq; [unfold thread_visibility; asks_tac|]. intros threaded.
    apply asks_seq_try; [done|]. intros _. apply asks_seq_try; [done|]. intros _.
    rewrite Hk. cbn [is_relay_admin_kind]. change (is_relay_admin_kind KIND_GIFT_WRAP) with false.
    change (KIND_GIFT_WRAP =? KIND_NIP43_LEAVE_REQUEST) with false. cbv iota.
    apply asks_seq_try.
    { unfold validate, check_envelope. rewrite Hk. repeat (asks_step; try discriminate). }
    intros _. unfold pre_create. rewrite Hk. change (negb (KIND_GIFT_WRAP =? KIND_NIP29_CREATE_GROUP)) with true.
    cbn [try_bind bind]. apply asks_seq_value. intros _ _.
    change (KIND_GIFT_WRAP =? KIND_PUSH_LEASE) with false. by apply gift_wrap_stored.
  - intros [result steps]. unfold emit. asks_tac.
Qed.
End ingest.
End ingesting.
