(* ===== verification/Scenario.v ===== *)
(** A relay in small: concrete instances of every interface and a scenario, for the witnesses.

    Alice creates an open and a private channel; mallory, who is banned in one scenario, joins,
    posts and asks for roles; bob's connection is subscribed to the open channel. *)
From S2P Require Import Prelude Programs Nostr Kinds Filters Text Json EventStore Threads Auth Envelopes Conformance Channel Membership Subscription ReadPath Delivery Moderation Relay Groups Moderators Submission Commands Ingest Effects.
Local Open Scope string_scope.
Local Open Scope list_scope.
Local Open Scope Z_scope.
Local Open Scope buzz_scope.

Module Scenario.
#[export] Existing Instances Nostr.Reference.api Nostr.Reference.laws UuidReference.parse StoreReference.deps StoreReference.laws map_to_list_iter MembershipExample.digest Json.Reference.json.

(** Eight digits in base 256. *)
Definition digit (n : Z) : Byte.byte := default Byte.x00 (Byte.of_N (Z.to_N (n mod 256))).
Definition digits (n : Z) : Bytes := (fun i => digit (n / 256 ^ i)) <$> [7; 6; 5; 4; 3; 2; 1; 0].
Definition relay_key : Bytes := replicate 32 Byte.x0f.
#[export] Instance keys : RelayKeys := {|
  relay_pubkey := relay_key;
  sign at_ kind tags content :=
    Some (mkEvent (digits at_ ++ digits kind ++ digits (Z.of_nat (length tags))
                   ++ digits (Z.of_nat (String.length content))) relay_key at_ kind tags content)
|}.
#[export] Instance keys_laws : RelayKeysLaws keys.
Proof. split. by intros ? ? ? ? ? [= <-]. Qed.
#[export] Instance chrono : ChronoText := fun _ => "now".
#[export] Instance parse_json : JsonParse := fun _ => Some Null.
#[export] Instance verify : EventVerify := {| verify_id _ := true; verify_signature _ := true |}.

Definition ok {X Y E : Type} (_ : X) (_ : Y) : prog (result unit E) := Ret (Ok tt).
Definition nothing_else : OtherHandlers :=
  let no _ _ _ := Ret (Err (Rejected (msg "no such command"))) in
  {| workflow_commands := mkWorkflowCommands no no no no;
     handle_feedback := ok;
     check_attestation := ok;
     verify_rotation_delegation _ := Ok tt;
     handle_identity_archive_event := ok;
     accept_lease _ _ _ := Ret (Ok Accepted);
     check_imeta := ok;
     other_effects := {| handle_kind0_profile := ok; handle_git_repo_announcement := ok;
                         delete_workflow _ _ _ := Ret (Ok tt) |} |}.
#[export] Instance nothing_else_laws : OtherLaws nothing_else.
Proof. split; intros; try exact Logic.I. by repeat constructor. Qed.

(** * People and channels *)

Definition alice : Bytes := replicate 32 Byte.x0a.
Definition bob : Bytes := replicate 32 Byte.x0b.
Definition mallory : Bytes := replicate 32 Byte.x0e.
Definition cx : Ctx := mkCtx 0 1%N "relay.example" true None false None.
Definition as_ (pk : Bytes) : IngestAuth := Http pk all_known Nip98.
Definition event (n : Z) (pk : Bytes) (kind : Z) (tags : list Tag) (content : string) : Event :=
  mkEvent (replicate 24 Byte.x00 ++ digits n) pk 100 kind tags content.

Definition create_general : Event := event 1 alice 9007 [["h"; "7"]; ["name"; "general"]] "".
Definition create_vault : Event :=
  event 2 alice 9007 [["h"; "8"]; ["name"; "vault"]; ["visibility"; "private"]] "".
Definition join : Event := event 3 mallory 9021 [["h"; "7"]] "".
Definition usurp : Event := event 4 mallory 9000 [["h"; "7"]; ["p"; to_hex mallory]; ["role"; "admin"]] "".
Definition usurp_again : Event := event 9 mallory 9000 [["h"; "7"]; ["p"; to_hex mallory]; ["role"; "admin"]] "".
Definition hello : Event := event 5 mallory 9 [["h"; "7"]] "hello".
Definition intrude : Event := event 6 mallory 9 [["h"; "8"]] "let me in".
Definition talk : Event := event 8 bob 41010 [["p"; to_hex alice]] "".
Definition seize : Event := event 7 mallory 9032 [["p"; to_hex alice]; ["role"; "member"]] "".

Definition conns : ConnectionManager := {[1%N := mkConnEntry 1%N (Some bob)]}.
Definition messages : Filter :=
  mkFilter None None (Some [9]) None None {[("h"%char, false) := ["7"]]} None None.
Definition registry : SubscriptionRegistry :=
  (register_scoped 1%N 1%N "s" [messages] (Some 7%N) registry_new).1.

Definition start : World :=
  mkWorld empty_chan_db empty_db ∅
    (set_roster {[((1%N, to_hex alice) : RosterKey) := mkRelayMember "owner" None 0;
                  ((1%N, to_hex mallory) : RosterKey) := mkRelayMember "admin" None 0]} empty_mod_db)
    (fun _ => mkPod delivery_start registry) [] [] [].
(** Nothing fails. *)
Definition calm (id : Uuid) (o : Op) : Fault :=
  mkFault true (mkEnv 100 true true true) 0 id false true (fun _ => conns) (fun _ => true) true (fun _ _ => true).
End Scenario.
