(* ===== verification/Admission.v ===== *)
(** Admission: what holds of the relay whatever is submitted to it.

    The system serves any number of requests, on any pods, each a task of its own, interleaved
    operation by operation with failures of the database in between.  A theorem here is about
    every state such a system can reach. *)
From S2P Require Import Prelude Programs Nostr Kinds Filters Text Json EventStore Threads Auth Envelopes Conformance Channel Membership Subscription ReadPath Delivery Moderation Relay Groups Moderators Submission Commands Ingest Effects Scenario.
From stdpp Require Import relations.
Local Open Scope string_scope.
Local Open Scope list_scope.
Local Open Scope Z_scope.
Local Open Scope buzz_scope.

(** * Requests *)

(** A pod's tasks: a submitted event, a message from Redis, a change of its subscriptions. *)
Inductive Request :=
| Submit (cx : Ctx) (auth : IngestAuth) (event : Event)
| Relayed (pod from n : nat)
| Subscribed (pod : nat) (registry : SubscriptionRegistry).
Definition submitted_by (q : Request) : option Bytes :=
  match q with Submit _ auth _ => Some (auth_pubkey auth) | _ => None end.

(** The cases of one operation. *)
Ltac op_cases := try simplify_eq/=; repeat (case_match; simplify_eq/=).

Section admission.
Context `{A : NostrApi} `{U : UuidParse} `{SD : StoreDeps} `{H : HashIter} `{DG : Digest} `{K : RelayKeys} `{J : SerdeJson} `{CT : ChronoText} `{JP : !JsonParse} `{V : EventVerify}.
Context (other : OtherHandlers) {OL : OtherLaws other}.

Definition serve (q : Request) : prog (option (result IngestResult IngestError)) :=
  match q with
  | Submit cx auth event => await out <- ingest_event other cx auth event ;; Ret (Some out)
  | Relayed i j n => await _ <- perform (Receive i j n) ;; Ret None
  | Subscribed i registry => await _ <- perform (Connections i registry) ;; Ret None
  end.
(** What serving a request asks for: [submitted] of an event, or one operation. *)
Definition asked (submitted : Ctx -> IngestAuth -> Event -> Op -> Prop) (q : Request) (o : Op) : Prop :=
  match q with
  | Submit cx auth event => submitted cx auth event o
  | Relayed i j n => o = Receive i j n
  | Subscribed i registry => o = Connections i registry
  end.
Lemma serve_asks I submitted q :
  (forall cx auth event, q = Submit cx auth event ->
     asks I (submitted cx auth event) (fun _ => True) (ingest_event other cx auth event)) ->
  asks I (asked submitted q) (fun _ => True) (serve q).
Proof.
  intros Hs. destruct q as [cx auth event|i j n|i registry]; cbn [serve].
  - apply asks_seq; [by apply Hs|done].
  - by apply asks_seq; [apply asks_any|].
  - by apply asks_seq; [apply asks_any|].
Qed.
Lemma serve_may_ask I q : asks I (asked may_ask q) (fun _ => True) (serve q).
Proof. apply serve_asks. intros. by apply ingest_asks. Qed.

(** * What one operation does to the tables *)

Lemma respond_past o f w r w' : respond o f w = Some (r, w') ->
  w_past w' = this_moment o f w :: w_past w.
Proof.
  destruct o; simpl; unfold on_pod, on_db; intros Hr;
    op_cases; done.
Qed.

Lemma respond_mod o f w r w' : respond o f w = Some (r, w') ->
  w_mod w' = w_mod w \/
  exists c, o = Moderate c /\ w_mod w' = fst (run_mod (f_env f) (f_id f) c (w_mod w)).
Proof.
  destruct o; simpl; unfold on_pod, on_db; intros Hr;
    try (op_cases; by left).
  destruct (f_ok f); [|simplify_eq/=; by left].
  destruct (run_mod _ _ _ _) as [db res] eqn:Hm. simplify_eq/=. right. exists c. by rewrite Hm.
Qed.

Lemma respond_chan o f w r w' : respond o f w = Some (r, w') ->
  w_chan w' = w_chan w \/
  exists c, o = Chan c /\
    w_chan w' = run_op (f_env f) (chan_op (seen_version f (remember o f w)) (f_id f) c) (w_chan w).
Proof.
  destruct o; simpl; unfold on_pod, on_db; intros Hr;
    try (op_cases; by left).
  destruct (f_ok f); [|simplify_eq/=; by left].
  destruct (run_chan _ _ _ _ _) as [db res] eqn:Hm. simplify_eq/=. right. exists c.
  by rewrite <-run_chan_op, Hm.
Qed.

Lemma respond_store o f w r w' : respond o f w = Some (r, w') ->
  w_store w' = w_store w \/
  (exists c, o = Store c /\ w_store w' = fst (fst (run_store (f_env f) c (w_store w, w_reactions w)))) \/
  (exists co, o = PublishRoster co /\
     w_store w' = fst (publish_nip43_membership_locked (f_env f) co (w_mod w) (w_store w))) \/
  (exists co e ch now, o = EndCommand co e ch now true /\
     w_store w' = fst (command_rows now co e ch (w_store w))).
Proof.
  destruct o; simpl; unfold on_pod, on_db; intros Hr;
    try (op_cases; by left); try (destruct (f_ok f); [|op_cases; by left]).
  - destruct (run_store _ _ _) as [s res] eqn:Hm. simplify_eq/=. right. left. exists c. by rewrite Hm.
  - destruct commit; simpl in Hr; [|op_cases; by left]. destruct (env_commits (f_env f)); [|op_cases; by left].
    injection Hr as <- <-. right. right. right. by exists community, event, channel_id, received_at.
  - destruct (publish_nip43_membership_locked _ _ _ _) as [s res] eqn:Hm. simplify_eq/=.
    right. right. left. exists community. by rewrite Hm.
Qed.

(** * The owners of a community *)

Lemma owns_roster db db' c pk : md_roster db' = md_roster db -> owns db' c pk <-> owns db c pk.
Proof. unfold owns, role_of, get_relay_member. by intros ->. Qed.

(** A write of one row that neither is nor becomes an owner's. *)
Lemma owns_other_row m db (k : RosterKey) c pk :
  (forall k', k' <> k -> m !! k' = md_roster db !! k') ->
  (rm_role <$> m !! k) <> Some "owner" -> (rm_role <$> md_roster db !! k) <> Some "owner" ->
  owns (set_roster m db) c pk <-> owns db c pk.
Proof.
  intros Hm H1 H2. unfold owns, role_of, get_relay_member. simpl.
  destruct (decide (k = ((c, pk) : RosterKey))) as [->|Hne]; [tauto|]. by rewrite Hm by congruence.
Qed.

Lemma run_mod_owns cx event env id c db co pk :
  mod_allowed cx event c -> owns (fst (run_mod env id c db)) co pk <-> owns db co pk.
Proof.
  destruct c; intros Hc; simpl.
  - destruct Hc as (_ & Hrole & _). unfold add_relay_member, get_relay_member.
    destruct (negb _); [done|]. destruct (md_roster db !! _) as [m|] eqn:Hm; [done|].
    apply (owns_other_row _ _ ((community, pubkey) : RosterKey)).
    + intros k' Hk'. by rewrite lookup_insert_ne.
    + rewrite lookup_insert_eq. simpl. destruct Hrole as [->| ->]; done.
    + by rewrite Hm.
  - destruct Hc as [_ Hrole]. unfold delete_member_where, get_relay_member.
    destruct (md_roster db !! _) as [m|] eqn:Hm; [|done].
    destruct ((match role with Some r => String.eqb r | None => not_owner end) (rm_role m)) eqn:Hp; [|done].
    apply (owns_other_row _ _ ((community, pubkey) : RosterKey)).
    + intros k' Hk'. by rewrite lookup_delete_ne.
    + by rewrite lookup_delete_eq.
    + rewrite Hm. simpl. intros [= Ho]. rewrite Ho in Hp. by destruct Hrole as [->| ->].
  - destruct Hc as [_ Hrole]. unfold update_relay_member_role, get_relay_member.
    destruct (md_roster db !! _) as [m|] eqn:Hm; [|done].
    destruct (not_owner (rm_role m)) eqn:Hp; [|done]. destruct (valid_role new_role); [|done].
    apply (owns_other_row _ _ ((community, pubkey) : RosterKey)).
    + intros k' Hk'. by rewrite lookup_insert_ne.
    + rewrite lookup_insert_eq. simpl. destruct Hrole as [->| ->]; done.
    + rewrite Hm. simpl. intros [= Ho]. by rewrite Ho in Hp.
  - unfold ban_member, upsert_ban. by destruct (negb _).
  - unfold unban_member, update_ban. repeat (case_match; simpl; try done).
  - unfold timeout_member, upsert_ban. by destruct (negb _).
  - unfold untimeout_member, update_ban. repeat (case_match; simpl; try done).
  - unfold insert_report. repeat (case_match; simpl; try done).
  - unfold resolve_report. repeat (case_match; simpl; try done).
  - unfold insert_action. repeat (case_match; simpl; try done).
  - done.
Qed.

(** C11: No event, whoever submits it and whatever else the relay is serving, changes who owns a
    community: ownership is transferred by operators only. *)
Theorem events_never_change_owners w0 s c pk :
  Programs.reachable serve w0 s -> owns (w_mod (world s)) c pk <-> owns (w_mod w0) c pk.
Proof.
  intros Hs. apply (requests_keep serve (fun w => owns (w_mod w) c pk <-> owns (w_mod w0) c pk)
    (fun _ => True) (asked may_ask) w0 s); [..|done|done|by intros].
  - intros q _. apply serve_may_ask.
  - intros q o w f r w' _ Ho Hw Hr. destruct (respond_mod o f w r w' Hr) as [->|(mc & -> & ->)]; [done|].
    destruct q as [cx auth event| |]; [|done..]. by rewrite (run_mod_owns cx event) by apply Ho.
Qed.

(** * The roles in a channel *)

(** The tables are what calls for actors in [who] made of [db0], and every version of them that
    was seen is an earlier one. *)
Definition chan_inv (who : option Bytes -> Prop) (db0 : ChanDb) (w : World) : Prop :=
  calls who db0 (w_chan w) /\ forall m, m ∈ w_past w -> earlier (mo_chan m) (w_chan w).

Lemma seen_earlier who db0 o f w : chan_inv who db0 w ->
  earlier (seen_version f (remember o f w)) (w_chan w).
Proof.
  intros [_ Hpast]. unfold seen_version. simpl. destruct (f_seen f) as [|n]; simpl; [reflexivity|].
  destruct (w_past w !! n) as [m|] eqn:Hm; simpl; [|reflexivity].
  apply Hpast. by eapply list_elem_of_lookup_2.
Qed.

Lemma chan_inv_step who db0 o f w r w' :
  (forall c seen id, o = Chan c -> who (op_actor (chan_op seen id c))) ->
  chan_inv who db0 w -> respond o f w = Some (r, w') -> chan_inv who db0 w'.
Proof.
  intros Hwho Hw Hr. pose proof (seen_earlier who db0 o f w Hw) as Hseen. destruct Hw as [Hcalls Hpast].
  assert (Hstep : calls who db0 (w_chan w') /\ earlier (w_chan w) (w_chan w')).
  { destruct (respond_chan o f w r w' Hr) as [->|(c & Ho & ->)]; [by split|].
    assert (Hop := fun seen' => chan_op_seen (seen_version f (remember o f w)) (f_id f) c seen').
    assert (Hc := Hwho c (seen_version f (remember o f w)) (f_id f) Ho).
    revert Hseen Hop Hc. generalize (seen_version f (remember o f w)). intros seen Hseen Hop Hc.
    generalize dependent (chan_op seen (f_id f) c). intros op Hop Hc.
    assert (Hop' : forall seen', op_seen op = Some seen' -> earlier seen' (w_chan w)) by by intros seen' ->%Hop.
    split; [by apply calls_step|]. apply (ef_earlier _ _ _ (effect_op (f_env f) op _ Hop')). }
  destruct Hstep as [Hc He]. split; [done|]. rewrite (respond_past o f w r w' Hr).
  intros m [->|Hm]%elem_of_cons; [done|]. etransitivity; [by apply Hpast|done].
Qed.

Lemma may_ask_actor cx auth event c seen id : may_ask cx auth event (Chan c) ->
  op_actor (chan_op seen id c) = None \/ op_actor (chan_op seen id c) = Some (ev_pubkey event).
Proof. intros [Hc _]. destruct c; simpl in *; destruct Hc as [_ Hc]; try (left; done); naive_solver. Qed.

(** C9: Once the relay serves requests from an empty database, a channel that was created with an
    owner has one in every later state, whatever the requests are and however they
    interleave; direct messages have none. *)
Theorem channels_keep_an_owner w0 s k c :
  w_chan w0 = empty_chan_db -> w_past w0 = [] -> Programs.reachable serve w0 s ->
  cd_channels (w_chan (world s)) !! k = Some c -> ch_participant_hash c = None ->
  exists pk, role_at (w_chan (world s)) k pk = Some Owner.
Proof.
  intros H0 Hpast Hs. apply channels_never_ownerless.
  apply (requests_keep serve (chan_inv (fun _ => True) empty_chan_db) (fun _ => True)
    (asked may_ask) w0 s); [..|done|by intros].
  - intros q _. apply serve_may_ask.
  - intros q o f1 w r w' _ _. by apply chan_inv_step.
  - split; [rewrite H0; constructor|]. rewrite Hpast. by intros m ?%elem_of_nil.
Qed.

(** Who stands behind a request, if anybody. *)
Definition submitted (R : Bytes -> Prop) (q : Request) : Prop :=
  match submitted_by q with Some pk => R pk | None => True end.
Lemma outsider_asks outsider I q : submitted outsider q ->
  asks I (fun o => forall c seen id, o = Chan c -> for_outsider outsider (op_actor (chan_op seen id c)))
    (fun _ => True) (serve q).
Proof.
  intros Hq. eapply asks_allowed; [|apply (serve_asks I (fun cx auth event o =>
    forall c seen id, o = Chan c -> for_outsider outsider (op_actor (chan_op seen id c))))].
  - intros o Ho. destruct q; [exact Ho|..]; by intros c seen id ->.
  - intros cx auth event ->. destruct (decide (event_kind_u32 event = KIND_GIFT_WRAP)) as [Hk|Hk].
    + eapply asks_allowed; [|by apply gift_wrap_no_chan]. intros o Ho c seen id ->. done.
    + eapply asks_allowed; [|by apply (ingest_asks other I cx auth event)].
      intros o Ho c seen id ->. pose proof (passed_author _ _ (proj2 Ho eq_refl) Hk) as Hauthor.
      destruct (may_ask_actor _ _ _ _ seen id Ho) as [->| ->]; simpl; [done|]. by rewrite Hauthor.
Qed.

(** C10: A coalition of outsiders - keys without an elevated role in a channel, the one that its
    row names as its creator not among them - cannot take part in its government by any events,
    their own or other people's, submitted in any number, at the same time, on any pods: none of
    them obtains an elevated role or gives one to anybody, and nobody loses one, their own agents
    apart.  (A creator without a role is not covered: one who was removed from a private channel
    can take it back: [Membership.removed_creator_returns_as_owner].) *)
Theorem outsiders_stay_outside outsider w0 s k c :
  Programs.reachable serve w0 s -> requests s (submitted outsider) ->
  w_past w0 = [] -> cd_channels (w_chan w0) !! k = Some c -> ~ outsider (ch_created_by c) ->
  (forall p, outsider p -> ~ elevated_at (w_chan w0) k p) ->
  (forall p, elevated_at (w_chan (world s)) k p -> elevated_at (w_chan w0) k p) /\
  (forall p r, role_at (w_chan w0) k p = Some r -> Role.is_elevated r = true ->
     (forall a, outsider a -> is_agent_owner k.1 p a (w_chan (world s)) = false) ->
     role_at (w_chan (world s)) k p = Some r).
Proof.
  intros Hs Hreq Hpast Hc Hcr Hout. apply (outsiders_never_govern outsider _ _ k c); [|done..].
  apply (requests_keep serve (chan_inv (for_outsider outsider) (w_chan w0))
    (submitted outsider)
    (fun _ o => forall c seen id, o = Chan c -> for_outsider outsider (op_actor (chan_op seen id c))) w0 s);
    [..|done|done].
  - intros q Hq. by apply outsider_asks.
  - intros q o w f r w' _. apply chan_inv_step.
  - split; [constructor|]. rewrite Hpast. by intros m ?%elem_of_nil.
Qed.
End admission.

(** * A scenario *)

Module Demo.
Import Scenario.
(** Mallory joins a channel and asks for a role while the request to join is being served, posts,
    tries a private channel and the owner of the community; bob opens a direct message. *)
Definition moves : list (Move Request) :=
  [Start 1 (Submit cx (as_ alice) create_general); Run 1 100 (calm 0%N);
   Start 2 (Submit cx (as_ alice) create_vault); Run 2 100 (calm 0%N);
   Start 3 (Submit cx (as_ mallory) join); Start 4 (Submit cx (as_ mallory) usurp);
   Run 3 8 (calm 0%N); Run 4 100 (calm 0%N); Run 3 100 (calm 0%N);
   Start 5 (Submit cx (as_ mallory) hello); Run 5 100 (calm 0%N);
   Start 6 (Submit cx (as_ mallory) intrude); Run 6 100 (calm 0%N);
   Start 7 (Submit cx (as_ mallory) seize); Run 7 100 (calm 0%N);
   Start 8 (Submit cx (as_ bob) talk); Run 8 100 (calm 9%N)].
Definition served (w0 : World) (l : list (Move Request)) : System Request (option (result IngestResult IngestError)) :=
  end_from (serve nothing_else) w0 l.
(** What request [i] was answered: [Some true] for an accepted event. *)
Definition answer (s : System Request (option (result IngestResult IngestError))) (i : nat) : option bool :=
  match outcome i s with
  | Some (_, Some (Ok r)) => Some (ir_accepted r)
  | Some (_, Some (Err _)) => Some false
  | _ => None
  end.
Definition last : System Request (option (result IngestResult IngestError)) := served start moves.

Example answers : answer last <$> [1; 2; 3; 4; 5; 6; 7; 8]%nat =
  Some <$> [true; true; true; true; true; false; false; true].
Proof. by vm_compute. Qed.
Lemma reached : Programs.reachable (serve nothing_else) start last.
Proof. apply end_reachable. by vm_compute. Qed.

Definition general : ChannelKey := (1%N, 7%N).
Definition general_row : ChannelRow := default (mkChannel "" ChannelType.Stream ChannelVisibility.Open None None [] 0 0 None None None None None None None) (cd_channels (w_chan (world last)) !! general).
Lemma general_exists : cd_channels (w_chan (world last)) !! general = Some general_row.
Proof. by vm_compute. Qed.

(** The channel exists; everything that is submitted comes from mallory. *)
Definition founded : World := set_chan MembershipExample.db1 start.
Definition siege_moves : list (Move Request) :=
  [Start 3 (Submit cx (as_ mallory) join); Start 4 (Submit cx (as_ mallory) usurp);
   Run 3 8 (calm 0%N); Run 4 100 (calm 0%N); Run 3 100 (calm 0%N);
   Start 5 (Submit cx (as_ mallory) usurp_again); Run 5 100 (calm 0%N)].
Definition siege : System Request (option (result IngestResult IngestError)) := served founded siege_moves.
Lemma siege_reached : Programs.reachable (serve nothing_else) founded siege.
Proof. apply end_reachable. by vm_compute. Qed.
Lemma siege_requests : requests siege (submitted (fun pk => pk = mallory)).
Proof. apply end_starts. by repeat constructor. Qed.
Example siege_answers : answer siege <$> [3; 4; 5]%nat = Some <$> [true; true; false].
Proof. by vm_compute. Qed.
Lemma siege_agents a : is_agent_owner 1%N alice a (w_chan (world siege)) = false.
Proof. by vm_compute. Qed.
End Demo.
Import Scenario Demo.

Lemma events_never_change_owners_witness : owns (w_mod (world last)) 1%N (to_hex alice).
Proof.
  refine (proj2 (events_never_change_owners nothing_else start last 1%N (to_hex alice) reached) _).
  by vm_compute.
Defined.

Lemma channels_keep_an_owner_witness : exists pk, role_at (w_chan (world last)) general pk = Some Owner.
Proof.
  exact (channels_keep_an_owner nothing_else start last general general_row eq_refl eq_refl reached
           general_exists eq_refl).
Defined.

Lemma outsiders_stay_outside_witness :
  (forall p, elevated_at (w_chan (world siege)) general p -> elevated_at (w_chan founded) general p) /\
  role_at (w_chan (world siege)) general alice = Some Owner.
Proof.
  destruct (outsiders_stay_outside nothing_else (fun pk => pk = mallory) founded siege general
    MembershipExample.general_row siege_reached siege_requests eq_refl MembershipExample.general_at_first) as [H1 H2].
  - discriminate.
  - intros p ->. exact MembershipExample.mallory_not_elevated.
  - split; [exact H1|]. apply (H2 alice Owner MembershipExample.alice_owns eq_refl).
    intros a _. exact (siege_agents a).
Defined.
