(* ===== verification/Evidence.v ===== *)
(** Evidence: what must have been seen before an event is stored or delivered.

    Decisions of the relay rest on what a task has read: the restrictions of a key, a row of a
    channel, an entry of a membership cache.  Meanwhile the tables change.  The invariant here
    ties what is in the store and what has gone out on the sockets to the moments of the past
    at which the tables said so. *)
From S2P Require Import Prelude Programs Nostr Kinds Filters Text Json EventStore Threads Auth Envelopes Conformance Channel Membership Subscription ReadPath Delivery Moderation Relay Provenance Groups Moderators Submission Commands Ingest Effects Scenario Admission.
Local Open Scope string_scope.
Local Open Scope list_scope.
Local Open Scope Z_scope.
Local Open Scope buzz_scope.

Section evidence.
Context `{A : NostrApi} `{L : !NostrLaws A} `{U : UuidParse} `{SD : StoreDeps} `{H : HashIter} `{DG : Digest} `{K : RelayKeys} `{KL : !RelayKeysLaws K} `{J : SerdeJson} `{CT : ChronoText} `{JP : !JsonParse} `{V : EventVerify}.

(** * The past *)

Definition Past : Type := list Moment.
Definition member_at (past : Past) (community ch : Uuid) (pk : Bytes) : Prop :=
  exists m, m ∈ past /\ is_member community ch pk (mo_chan m) = true.
Definition open_at (past : Past) (community ch : Uuid) : Prop :=
  exists m row, m ∈ past /\ get_channel community ch (mo_chan m) = Ok row /\
                ch_visibility row = ChannelVisibility.Open.
(** Not banned, and a timeout that was read had passed when the clock was read after it. *)
Definition unrestricted_at (past : Past) (community : Uuid) (pk : Bytes) : Prop :=
  exists m, m ∈ past /\
    let state := restriction_state (mo_now m) community pk (mo_mod m) in
    rs_banned state = false /\
    forall until, rs_muted_until state = Some until -> exists m', m' ∈ past /\ until <= mo_now m'.

(** What the relay knows when it stores an event under a channel; commands are stored by a
    handler of their own. *)
Record licensed (past : Past) (auth : IngestAuth) (community : Uuid) (event : Event) (ch : option Uuid)
  : Prop := {
  li_passed : passed auth event;
  li_unrestricted : is_command_kind (event_kind_u32 event) = false ->
    unrestricted_at past community (auth_pubkey auth);
  li_token ids : is_command_kind (event_kind_u32 event) = false -> auth_channel_ids auth = Some ids ->
    exists c, ch = Some c /\ c ∈ ids;
  li_member c : is_command_kind (event_kind_u32 event) = false -> ch = Some c ->
    mem_kind (event_kind_u32 event) SKIP_MEMBERSHIP = false ->
    member_at past community c (auth_pubkey auth) \/ open_at past community c
}.
(** The visibility a request resolves before the fan-out. *)
Definition visibility_seen (past : Past) (t : ThreadedChannelVisibility) : Prop :=
  tv_visibility t <> ChannelVisibility.Private ->
  exists m row, m ∈ past /\ live_channel (mo_chan m) (tv_community_id t, tv_channel_id t) = Some row /\
                ch_visibility row <> ChannelVisibility.Private.

Lemma member_at_later past past' c ch pk : past ⊆ past' -> member_at past c ch pk -> member_at past' c ch pk.
Proof. intros Hs (m & Hm & H1). exists m. auto. Qed.
Lemma open_at_later past past' c ch : past ⊆ past' -> open_at past c ch -> open_at past' c ch.
Proof. intros Hs (m & row & Hm & H1). exists m, row. naive_solver. Qed.
Lemma unrestricted_at_later past past' c pk : past ⊆ past' -> unrestricted_at past c pk -> unrestricted_at past' c pk.
Proof. intros Hs (m & Hm & H1 & H2). exists m. split; [auto|]. split; [done|]. intros u Hu. destruct (H2 u Hu) as (m' & ? & ?). eauto. Qed.
Lemma licensed_later past past' auth c event ch :
  past ⊆ past' -> licensed past auth c event ch -> licensed past' auth c event ch.
Proof.
  intros Hs [H1 H2 H3 H4]. split; [done| |done|].
  - intros Hk. apply (unrestricted_at_later past); auto.
  - intros x Hk Hx Hm. destruct (H4 x Hk Hx Hm); [left; by apply (member_at_later past)|right; by apply (open_at_later past)].
Qed.
Lemma visibility_seen_later past past' t : past ⊆ past' -> visibility_seen past t -> visibility_seen past' t.
Proof. intros Hs Hv Hp. destruct (Hv Hp) as (m & row & Hm & H1). exists m, row. naive_solver. Qed.

(** * The invariant *)

Definition seen_in (past : Past) (db : ChanDb) : Prop := exists m, m ∈ past /\ mo_chan m = db.

(** The delivery that an operation was: the pod, the community and the call.  What a pod
    receives is what another pod had published by then. *)
Definition live_call (m : Moment) : option (nat * Uuid * LiveCall) :=
  match mo_op m with
  | FanOut i co stored => Some (i, co, LiveLocal stored)
  | Dispatch i co stored kind actor threaded =>
      Some (i, co, LivePersistent relay_pubkey stored kind actor threaded)
  | Receive i j n =>
      match effects (pod_live (mo_pods m j)) !! n with
      | Some (Published co topic event) => Some (i, co, LiveRemote (mo_now m) topic event)
      | _ => None
      end
  | _ => None
  end.
(** Its lookups: the connections of the pod and the tables, as they were then. *)
Definition live_env (m : Moment) : DeliveryEnv := delivery_env (mo_fault m) (mo_chan m).
(** A frame of pod [i] that a delivery of the past may have sent: [m] is its moment, [earlier]
    what had happened before. *)
Definition due (past : Past) (i : nat) (conn : ConnId) (sub : SubId) (e : Event) : Prop :=
  exists m earlier community call, (m :: earlier) `suffix_of` past /\
    live_call m = Some (i, community, call) /\
    frame_due (seen_in (m :: earlier)) (live_env m) (pod_registry (mo_pods m i)) community call conn sub e.

(** The caches of a pod answer what was so, and its frames were due. *)
Definition pod_ok (seen : ChanDb -> Prop) (D : ConnId -> SubId -> Event -> Prop) (d : Delivery) : Prop :=
  justified seen d /\ forall conn sub e, Frame conn sub e ∈ effects d -> D conn sub e.

(** [R] are the requests that were made. *)
Context (R : Request -> Prop).

(** Where a row comes from: the store at the start, the relay itself, or an event that was
    submitted to the row's community. *)
Definition row_ok (m0 : gmap EventKey EventRow) (past : Past) (k : EventKey) (r : EventRow) : Prop :=
  was_there m0 k r \/ er_pubkey r = relay_pubkey \/
  exists cx auth event ch, R (Submit cx auth event) /\ cx_community cx = ek_community k /\
    row_is (ek_community k) event ch k r /\ licensed past auth (ek_community k) event ch.
Record world_ok (m0 : gmap EventKey EventRow) (w : World) : Prop := {
  wo_pods i : pod_ok (seen_in (w_past w)) (due (w_past w) i) (pod_live (w_pods w i));
  wo_rows k r : db_events (w_store w) !! k = Some r -> row_ok m0 (w_past w) k r
}.

Lemma pod_ok_later (seen seen' : ChanDb -> Prop) (D D' : ConnId -> SubId -> Event -> Prop) d :
  (forall db, seen db -> seen' db) -> (forall conn sub e, D conn sub e -> D' conn sub e) ->
  pod_ok seen D d -> pod_ok seen' D' d.
Proof.
  intros Hs HD [[Hm Hv] Hf]. split.
  - split; [|done]. intros k b Hk. destruct (Hm k b Hk) as (db & Hdb & Hb). exists db. auto.
  - intros conn sub e He. by apply HD, Hf.
Qed.
Lemma due_later past m i conn sub e : due past i conn sub e -> due (m :: past) i conn sub e.
Proof.
  intros (m1 & earlier & co & call & Hs & H1). exists m1, earlier, co, call. split; [|done].
  by apply suffix_cons_r.
Qed.
Lemma seen_in_later past past' db : past ⊆ past' -> seen_in past db -> seen_in past' db.
Proof. intros Hs (m & Hm & H1). exists m. auto. Qed.
Lemma row_ok_later m0 past past' k r : past ⊆ past' -> row_ok m0 past k r -> row_ok m0 past' k r.
Proof.
  intros Hs [?|[?|(cx & auth & e & ch & H1 & H2 & H3 & H4)]]; [by left|by right; left|]. right. right.
  exists cx, auth, e, ch. split_and!; [done..|]. by apply (licensed_later past).
Qed.
Lemma row_ok_same m0 past k r r' : same_message r r' -> row_ok m0 past k r -> row_ok m0 past k r'.
Proof.
  intros Hs [(r0 & H0 & Hs0)|[Hp|(cx & auth & e & ch & H1 & H2 & H3 & H4)]].
  - left. exists r0. split; [done|]. by etransitivity.
  - right. left. destruct Hs as (<- & _). done.
  - right. right. exists cx, auth, e, ch. split_and!; [done..| |done]. by eapply row_is_same.
Qed.

(** The past only grows. *)
#[local] Instance past_grows (m0 : gmap EventKey EventRow) : RelyGuarantee World.
Proof.
  refine {| inv := world_ok m0; evolves := fun w w' => w_past w ⊆ w_past w' |}.
  split; [by intros x ?|]. intros x y z Hxy Hyz m Hm. by apply Hyz, Hxy.
Defined.

(** ** Pods *)

Section pods.
Context (seen : ChanDb -> Prop) (D : ConnId -> SubId -> Event -> Prop).

Lemma pod_ok_less d d' : membership_cache d' ⊆ membership_cache d ->
  channel_visibility_cache d' ⊆ channel_visibility_cache d -> effects d' = effects d ->
  pod_ok seen D d -> pod_ok seen D d'.
Proof.
  intros Hm Hv He [[Jm Jv] Hf]. split; [split|].
  - intros k b Hk. apply Jm. by eapply lookup_weaken.
  - intros k v Hk. apply (Jv k). by eapply lookup_weaken.
  - by rewrite He.
Qed.
Lemma pod_ok_more d d' l : justified seen d' -> effects d' = effects d ++ l ->
  (forall conn sub e, Frame conn sub e ∈ l -> D conn sub e) -> pod_ok seen D d -> pod_ok seen D d'.
Proof.
  intros Hj He Hl [_ Hf]. split; [done|]. intros conn sub e. rewrite He.
  intros [?|?]%elem_of_app; [by apply Hf|by apply Hl].
Qed.
Lemma drop_member_ok k d : pod_ok seen D d -> pod_ok seen D (drop_member k d).
Proof. apply pod_ok_less; [apply delete_subseteq|done|done]. Qed.
Lemma drop_visibility_ok k d : pod_ok seen D d -> pod_ok seen D (drop_visibility k d).
Proof. apply pod_ok_less; [done|apply delete_subseteq|done]. Qed.
Lemma drop_community_ok co d : pod_ok seen D d -> pod_ok seen D (drop_community co d).
Proof.
  apply pod_ok_less; [..|done]; simpl; apply map_subseteq_spec; intros k b; rewrite map_lookup_imap;
    destruct (_ !! k) as [b'|]; simpl; try done; by case_bool_decide.
Qed.

Lemma pod_ok_call env registry community call d : env_reads seen env ->
  threaded_reads seen community (se_channel_id (call_stored call)) (call_threaded call) ->
  (forall conn sub e, frame_due seen env registry community call conn sub e -> D conn sub e) ->
  pod_ok seen D d -> pod_ok seen D (run_live env registry community call d).
Proof.
  intros Henv Hth HD Hd. destruct (run_live_appends seen env registry community call d Henv Hth (proj1 Hd))
    as (Hj & l & Hl & Hdue). apply (pod_ok_more d _ l); auto.
Qed.
Lemma pod_ok_emit x d : (forall conn sub e, x <> Frame conn sub e) -> pod_ok seen D d -> pod_ok seen D (Delivery.emit x d).
Proof.
  intros Hx Hd. apply (pod_ok_more d _ [x]); [by destruct Hd as [[] _]|done| |done].
  intros conn sub e He%list_elem_of_singleton. by destruct (Hx conn sub e).
Qed.
Lemma pod_ok_local l d : pod_ok seen D d -> pod_ok seen D (set_local l d).
Proof. by apply pod_ok_less. Qed.
Lemma pod_ok_publish env co ch event d : pod_ok seen D d -> pod_ok seen D (fst (publish_event env co ch event d)).
Proof.
  intros Hd. unfold publish_event, mark_local_event, forget_local_event, m_bind, m_modify.
  destruct (de_publishes env); simpl; [apply pod_ok_emit; [done|]|apply pod_ok_local]; by apply pod_ok_local.
Qed.
Lemma pod_ok_member db co ch pk d : (forall db', db = Some db' -> seen db') ->
  pod_ok seen D d -> pod_ok seen D (fst (is_member_cached db co ch pk d)) /\ (snd (is_member_cached db co ch pk d) = Ok true -> exists db', seen db' /\ is_member co ch pk db' = true).
Proof.
  intros Hdb Hd. destruct (is_member_cached db co ch pk d) as [d' r] eqn:Hr.
  destruct (is_member_cached_run seen db co ch pk d d' r Hdb (proj1 Hd) Hr) as (Hj & He & Hm).
  split; [|done]. apply (pod_ok_more d _ []); [done|by rewrite app_nil_r| |done]. by intros ? ? ? ?%elem_of_nil.
Qed.
Lemma pod_ok_visibility db co ch row d : pod_ok seen D d ->
  pod_ok seen D (fst (channel_visibility_cached db co ch row d)) /\ (forall v, snd (channel_visibility_cached db co ch row d) = Ok v -> v <> ChannelVisibility.Private ->
     forall r, row = Some r -> ch_visibility r = v).
Proof.
  intros Hd. unfold channel_visibility_cached. cbv zeta.
  destruct (channel_visibility_cache d !! _) as [v|] eqn:Hc; simpl.
  { split; [done|]. intros v' [= <-] Hp. by apply Hd in Hc. }
  destruct (match row with Some r => _ | None => _ end) as [v|e] eqn:Hv; simpl; [|done].
  split.
  - case_bool_decide as Hp; [|done]. destruct Hd as [[Jm Jv] Hf]. split; [split|]; [exact Jm| |exact Hf].
    intros k v'. simpl. intros [[<- <-]|[_ Hk]]%lookup_insert_Some; [done|by apply Jv in Hk].
  - intros v' [= <-] Hp r ->. by injection Hv.
Qed.
End pods.

Lemma set_pod_ok seen (D : nat -> ConnId -> SubId -> Event -> Prop) i x w :
  pod_ok seen (D i) (pod_live x) -> (forall j, pod_ok seen (D j) (pod_live (w_pods w j))) ->
  forall j, pod_ok seen (D j) (pod_live (w_pods (set_pod i x w) j)).
Proof. intros Hx Hw j. simpl. by destruct (Nat.eqb_spec i j) as [<-|]. Qed.
Lemma on_pod_ok {B : Type} seen (D : nat -> ConnId -> SubId -> Event -> Prop) i (m : method Delivery DbError B) w :
  (forall d, pod_ok seen (D i) d -> pod_ok seen (D i) (fst (m d))) ->
  (forall j, pod_ok seen (D j) (pod_live (w_pods w j))) ->
  forall j, pod_ok seen (D j) (pod_live (w_pods (snd (on_pod i m w)) j)).
Proof.
  intros Hm Hw. unfold on_pod. specialize (Hm _ (Hw i)). destruct (m (pod_live (w_pods w i))) as [d r].
  by apply set_pod_ok.
Qed.
Lemma on_pod_reply {B : Type} i (m : method Delivery DbError B) w r w' :
  on_pod i m w = (r, w') -> r = snd (m (pod_live (w_pods w i))).
Proof. unfold on_pod. destruct (m _) as [d x]. by intros [= <- _]. Qed.

(** The world after the moment of the operation was noted. *)
Lemma env_reads_here o f w : this_moment o f w ∈ w_past w ->
  env_reads (seen_in (w_past w)) (delivery_env f (w_chan w)).
Proof.
  intros Hn. assert (Hs : seen_in (w_past w) (w_chan w)) by (exists (this_moment o f w); done).
  split; simpl.
  - intros db. destruct (f_ok f); [by intros [= <-]|done].
  - intros c db. destruct (f_member_ok f c); [by intros [= <-]|done].
Qed.
Lemma visibility_reads past co stored threaded :
  (threaded = None \/ exists t, threaded = Some t /\ visibility_seen past t) ->
  threaded_reads (seen_in past) co stored threaded.
Proof.
  intros [->|(t & -> & Ht)] t' [= <-] <- Hch Hp. destruct (Ht Hp) as (m & row & Hm & Hl & Hv).
  exists (mo_chan m), row. split_and!; [by exists m|done..].
Qed.
Lemma pods_step o f w r w' past : w_past w = this_moment o f w :: past ->
  (forall i co stored kind actor threaded, o = Dispatch i co stored kind actor threaded ->
     threaded = None \/ exists t, threaded = Some t /\ visibility_seen (w_past w) t) ->
  (forall j, pod_ok (seen_in (w_past w)) (due (w_past w) j) (pod_live (w_pods w j))) ->
  run_op_in o f w = Some (r, w') ->
  forall j, pod_ok (seen_in (w_past w)) (due (w_past w) j) (pod_live (w_pods w' j)).
Proof.
  intros Hhere Ho Hw Hr.
  assert (Hhere' : this_moment o f w ∈ w_past w) by (rewrite Hhere; left).
  pose proof (env_reads_here o f w Hhere') as Henv.
  assert (Hdue : forall i co call, live_call (this_moment o f w) = Some (i, co, call) ->
            forall conn sub e, frame_due (seen_in (w_past w)) (delivery_env f (w_chan w))
              (pod_registry (w_pods w i)) co call conn sub e -> due (w_past w) i conn sub e).
  { intros i co call Hcall conn sub e Hd. rewrite Hhere in *. by exists (this_moment o f w), past, co, call. }
  assert (Hdb : forall db', (if f_ok f then Some (w_chan w) else None) = Some db' -> seen_in (w_past w) db').
  { apply (er_visibility _ _ Henv). }
  destruct o; simpl in Hr;
    try (unfold on_db in Hr; op_cases; done).
  - injection Hr as Hr. apply (f_equal snd) in Hr. change (snd (r, w')) with w' in Hr. subst w'.
    apply on_pod_ok; [|done]. intros d Hd. apply pod_ok_member; [done|].
    destruct (f_expired f); [by apply drop_member_ok|done].
  - injection Hr as Hr. apply (f_equal snd) in Hr. change (snd (r, w')) with w' in Hr. subst w'.
    apply on_pod_ok; [|done]. intros d Hd. apply pod_ok_visibility.
    destruct (f_expired f); [by apply drop_visibility_ok|done].
  - injection Hr as _ <-. apply set_pod_ok; [apply drop_member_ok, Hw|done].
  - injection Hr as _ <-. apply set_pod_ok; [apply drop_visibility_ok, Hw|done].
  - injection Hr as _ <-. apply set_pod_ok; [apply drop_community_ok, Hw|done].
  - injection Hr as _ <-. apply on_pod_ok; [|done]. intros d Hd. destruct marked; [by apply pod_ok_publish|].
    destruct (f_publishes f); [by apply pod_ok_emit|done].
  - injection Hr as _ <-. apply on_pod_ok; [|done]. intros d Hd.
    apply (pod_ok_call _ _ _ (pod_registry (w_pods w pod)) community (LiveLocal stored)); [done..| |done].
    by apply Hdue.
  - injection Hr as _ <-. apply on_pod_ok; [|done]. intros d Hd.
    apply (pod_ok_call _ _ _ (pod_registry (w_pods w pod)) community
      (LivePersistent relay_pubkey stored kind actor threaded)); [done| |by apply Hdue|done].
    by eapply visibility_reads, Ho.
  - destruct (remove_channel_subscriptions_scoped _ _ _ _) as [rg removed]. injection Hr as _ <-.
    case_bool_decide; exact (set_pod_ok _ _ pod (set_registry rg (w_pods w pod)) w (Hw pod) Hw).
  - destruct (effects _ !! n) as [[co topic e| | |]|] eqn:He; [|done..]. injection Hr as _ <-.
    apply on_pod_ok; [|done]. intros d Hd.
    apply (pod_ok_call _ _ _ (pod_registry (w_pods w pod)) co (LiveRemote (env_now (f_env f)) topic e)); [done..| |done].
    apply Hdue. unfold live_call. simpl. by rewrite He.
  - injection Hr as _ <-. exact (set_pod_ok _ _ pod (set_registry registry (w_pods w pod)) w (Hw pod) Hw).
Qed.

(** ** Rows *)

Lemma row_stored m0 past cx auth event co e ch k r :
  R (Submit cx auth event) -> co = cx_community cx -> may_store event (licensed past auth (cx_community cx) event) e ch -> row_is co e ch k r -> row_ok m0 past k r.
Proof.
  intros HR -> [[-> Hch]|(at_ & kind & tags & content & Hs)] Hr; right.
  - right. exists cx, auth, event, ch. pose proof Hr as (-> & _). by split_and!.
  - left. destruct Hr as (_ & _ & _ & -> & _). by apply sign_fields in Hs as (-> & _).
Qed.
Lemma rows_added m0 past db db' :
  (forall k r, db_events db !! k = Some r -> row_ok m0 past k r) -> adds_rows (row_ok m0 past) db db' ->
  forall k r, db_events db' !! k = Some r -> row_ok m0 past k r.
Proof.
  intros Hdb Hadds k r Hr. destruct (Hadds k r Hr) as [(r0 & H0 & Hsame)|?]; [|done].
  apply (row_ok_same _ _ _ r0); [done|]. by apply Hdb.
Qed.
(** An operation of a request, with the evidence it needs. *)
Definition permitted (past : Past) (o : Op) : Prop :=
  (exists cx auth event, R (Submit cx auth event) /\ allowed cx event (licensed past auth (cx_community cx) event) (visibility_seen past) o) \/
  (exists i j n, o = Receive i j n) \/ (exists i registry, o = Connections i registry).
Lemma permitted_later past past' o : past ⊆ past' -> permitted past o -> permitted past' o.
Proof.
  intros Hs [(cx & auth & event & HR & Ho)|Ho]; [left|by right]. exists cx, auth, event. split; [done|]. revert Ho. apply allowed_weaken.
  - intros ch. by apply licensed_later.
  - intros t. by apply visibility_seen_later.
Qed.
Lemma rows_step m0 past o f w r w' : permitted past o ->
  (forall k r, db_events (w_store w) !! k = Some r -> row_ok m0 past k r) -> respond o f w = Some (r, w') ->
  forall k r, db_events (w_store w') !! k = Some r -> row_ok m0 past k r.
Proof.
  intros Ho Hw Hr. pose proof (row_ok_same m0 past) as Hsame.
  destruct (respond_store o f w r w' Hr) as [->|[(c & -> & ->)|[(co & -> & ->)|(co & e & ch & now & -> & ->)]]];
    [done|..]; (destruct Ho as [(cx & auth & event & HR & Ho)|[(? & ? & ? & [=])|(? & ? & [=])]]); simpl in Ho;
    pose proof (fun co e ch k r => row_stored m0 past cx auth event co e ch k r HR) as Hin; apply (rows_added m0 past (w_store w)); try done.
  - apply (run_store_adds (row_ok m0 past) Hsame (f_env f) c (w_store w, w_reactions w)).
    intros co e ch k r' Hins. destruct c; simpl in *; simplify_eq; destruct Ho; by eapply Hin.
  - apply publish_roster_adds; [done|]. intros at_ tags e k r' Hs Hrow. right. left.
    destruct Hrow as (_ & _ & _ & -> & _). by apply sign_fields in Hs as (-> & _).
  - destruct Ho as [Hco Hst]. apply command_rows_adds; [done|]. intros k r'. by apply Hin.
Qed.

(** * What a request guarantees *)

Section requests.
Context (m0 : gmap EventKey EventRow).
#[local] Instance grows : RelyGuarantee World := past_grows m0.
Notation quiet := (fun _ _ => True).

Lemma op_keeps past o f w r w' : past ⊆ w_past w -> permitted past o ->
  world_ok m0 w -> respond o f w = Some (r, w') -> world_ok m0 w' /\ w_past w ⊆ w_past w'.
Proof.
  intros Hpast Ho [Hpods Hrows] Hr. pose proof (respond_past o f w r w' Hr) as Hp.
  assert (Hsub : w_past w ⊆ w_past w') by (rewrite Hp; intros m Hm; by right).
  apply (permitted_later past (w_past w')) in Ho; [|by intros m Hm; apply Hsub, Hpast].
  split; [|done]. split.
  - assert (Hpast1 : w_past w' = w_past (remember o f w)) by done.
    rewrite Hpast1. apply (pods_step o f _ r w' (w_past w)); [done|..|exact Hr].
    + intros i co stored kind actor threaded ->. rewrite <-Hpast1.
      by destruct Ho as [(cx & auth & event & _ & _ & Hth)|[(? & ? & ? & [=])|(? & ? & [=])]].
    + intros j. apply (pod_ok_later (seen_in (w_past w)) _ (due (w_past w) j)); [|intros ? ? ?; apply due_later|apply Hpods].
      intros db. apply seen_in_later. by rewrite <-Hpast1.
  - apply (rows_step m0 (w_past w') o f w r); [done| |done].
    intros k row Hk. apply (row_ok_later m0 (w_past w)); [done|]. by apply Hrows.
Qed.

Section request.
Context (cx : Ctx) (auth : IngestAuth) (event : Event) (HR : R (Submit cx auth event)).
Let community := cx_community cx.

(** Programs whose operations all keep the invariant. *)
Lemma holds_fine {B : Type} (p : prog B) (Q : B -> Prop) w : world_ok m0 w ->
  asks (fun _ => True) (allowed cx event (licensed (w_past w) auth community event)
                          (visibility_seen (w_past w))) Q p ->
  holds p (fun b _ => Q b) w.
Proof.
  intros Hw Hp. apply (asks_holds (fun _ => True) _ Q p w) in Hp; [done..|].
  intros o w1 f r w2 Ho Hpast Hw1 Hr. apply (op_keeps (w_past w) o f w1 r w2); [done| |done..]. left. by exists cx, auth, event.
Qed.
Lemma holds_reading {B : Type} (p : prog B) (Q : B -> Prop) w : world_ok m0 w ->
  asks (fun _ => True) reading Q p -> holds p (fun b _ => Q b) w.
Proof. intros Hw Hp. apply holds_fine; [done|]. eapply asks_allowed; [|exact Hp]. apply reading_allowed. Qed.

(** One operation, and what its reply shows. *)
Lemma holds_op (o : Op) (Q : Reply o -> World -> Prop) w :
  allowed cx event (fun _ => False) (fun _ => False) o ->
  (forall f w1 r w2, world_ok m0 w1 -> respond o f w1 = Some (r, w2) -> world_ok m0 w2 ->
     this_moment o f w1 ∈ w_past w2 -> w_past w1 ⊆ w_past w2 -> forall w3, w_past w ⊆ w_past w3 -> w_past w2 ⊆ w_past w3 -> Q r w3) ->
  holds (perform o) Q w.
Proof.
  intros Ho HQ. apply holds_perform. intros w1 f r w2 Hw Hw1 Hr.
  destruct (op_keeps [] o f w1 r w2) as [Hw2 Hsub]; [by intros ? ?%elem_of_nil| |done..|].
  { left. exists cx, auth, event. split; [done|]. revert Ho. by apply allowed_weaken. }
  split_and!; [done..|]. intros w3 Hw3 _. apply (HQ f w1 r w2); [done..| |done| |done].
  - rewrite (respond_past o f w1 r w2 Hr). by left.
  - intros m Hm. by apply Hw3, Hsub, Hw.
Qed.

(** ** What the stages establish *)

(** A query of the channel tables answers from a moment of the past. *)
Definition from_past {B : Type} (f : ChanDb -> result B DbError) (b : B) (w : World) : Prop :=
  exists m, m ∈ w_past w /\ f (mo_chan m) = Ok b.
Lemma from_past_later {B : Type} (f : ChanDb -> result B DbError) b w w' :
  w_past w ⊆ w_past w' -> from_past f b w -> from_past f b w'.
Proof. intros Hs (m & Hm & H1). exists m. auto. Qed.
Lemma holds_chan {B : Type} (f : ChanDb -> result B DbError) w : world_ok m0 w ->
  holds (chan f) (ok_then (from_past f)) w.
Proof.
  intros Hw. unfold chan. apply (holds_try _ _ (from_past (fun db => Ok db))); [done| |].
  - apply holds_op; [done|]. intros s w1 r w2 _ Hr _ Hm _ w3 _ Hs. simpl in Hr. injection Hr as <- _.
    destruct (f_ok s); [|done]. eexists. split; [by apply Hs|done].
  - intros db w1 _ _ (m & Hm & [= <-]) w2 Hs _. destruct (f (mo_chan m)) as [b|e] eqn:Hf; [|done].
    exists m. split; [by apply Hs|done].
Qed.

Lemma holds_restriction w : world_ok m0 w ->
  holds (check_restriction cx auth) (ok_then (fun _ w => unrestricted_at (w_past w) community (auth_pubkey auth))) w.
Proof.
  intros Hw. unfold check_restriction.
  set (state (s : RestrictionState) w := exists m, m ∈ w_past w /\
         restriction_state (mo_now m) community (auth_pubkey auth) (mo_mod m) = s).
  apply (holds_try _ _ state); [done| |].
  { apply holds_map_err; [done| |].
    - apply (holds_try _ _ (fun (seen : Z * ModDb) w => exists m, m ∈ w_past w /\ (mo_now m, mo_mod m) = seen));
        [done| |].
      + apply holds_op; [done|]. intros s w1 r w2 _ Hr _ Hm _ w3 _ Hs. simpl in Hr. injection Hr as <- _.
        destruct (f_ok s); [|done]. eexists. split; [by apply Hs|done].
      + intros seen w1 _ _ (m & Hm & <-) w2 Hs _. exists m. split; [by apply Hs|done].
    - intros s w1 w2 Hs _ (m & Hm & H1). exists m. auto. }
  intros s w1 _ Hw1 (m & Hm & <-). destruct (rs_banned _) eqn:Hb; [by intros w2 _ _|].
  destruct (rs_muted_until _) as [until|] eqn:Hu.
  - apply holds_bind; [done|]. apply holds_op; [done|]. intros f w2 r w3 _ Hr _ Hm' _ w4 Hs1 Hs.
    destruct (Z.ltb_spec r until); [by intros w5 _ _|]. intros w5 Hs' _. simpl in Hr. injection Hr as <- _.
    exists m. split; [by apply Hs', Hs1|]. split; [done|]. intros t. rewrite Hu. intros [= <-].
    eexists. split; [by apply Hs', Hs|done].
  - intros w2 Hs _. exists m. split; [by apply Hs|]. split; [done|]. intros t. by rewrite Hu.
Qed.

Lemma holds_authenticated w : world_ok m0 w ->
  holds (authenticate auth event) (ok_then (fun _ _ => passed auth event)) w.
Proof.
  intros Hw. eapply holds_weaken; [apply holds_reading; [done|apply asks_authenticate]|]. by intros [] w1 _ _ Hp.
Qed.

(** The channel that a request is about. *)
Record resolved (ch : option Uuid) : Prop := {
  rv_global : is_global_only_kind (event_kind_u32 event) = true -> ch = None;
  rv_token ids : auth_channel_ids auth = Some ids -> exists c, ch = Some c /\ c ∈ ids
}.
Lemma asks_resolved : asks (fun _ => True) reading (ok_only resolved) (resolve_channel cx auth event).
Proof.
  unfold resolve_channel. apply (asks_try (fun _ => True)).
  { eapply asks_weaken; [|by intros []]. unfold named_channel, derive_reaction_channel. asks_tac. }
  intros named _. set (ch := if is_global_only_kind _ then None else named).
  assert (Hglobal : is_global_only_kind (event_kind_u32 event) = true -> ch = None) by (unfold ch; by intros ->).
  destruct (_ && _); [done|]. clearbody ch. destruct ch as [c|].
  - apply asks_try_value. intros [] Htoken. split; [done|]. intros ids Hids.
    unfold check_token_channel_access in Htoken. rewrite Hids in Htoken. case_bool_decide; [eauto|done].
  - unfold is_global_token. case_bool_decide as Hids; [|done]. split; [done|]. intros ids. by rewrite Hids.
Qed.
Lemma holds_resolved w : world_ok m0 w ->
  holds (resolve_channel cx auth event) (ok_then (fun ch _ => resolved ch)) w.
Proof.
  intros Hw. eapply holds_weaken; [apply holds_reading; [done|apply asks_resolved]|]. by intros [] w1 _ _ Hp.
Qed.

(** The row of the channel, when there is one. *)
Definition row_read (ch : option Uuid) (row : option ChannelRow) (w : World) : Prop :=
  forall r, row = Some r -> exists c, ch = Some c /\ from_past (get_channel community c) r w.
Lemma row_read_later ch row w w' : w_past w ⊆ w_past w' -> row_read ch row w -> row_read ch row w'.
Proof. intros Hs Hr r ->. destruct (Hr r eq_refl) as (c & -> & Hc). exists c. split; [done|]. by eapply from_past_later. Qed.
Lemma holds_row ch w : world_ok m0 w -> holds (read_channel cx ch) (row_read ch) w.
Proof.
  intros Hw. unfold read_channel. destruct ch as [c|]; [|by intros w1 _ _ r [=]].
  apply holds_bind; [done|]. eapply holds_weaken; [by apply holds_chan|]. intros [row|e] w1 _ _ Hrow w2 Hs _ r; [|done].
  intros [= <-]. exists c. split; [done|]. by apply (from_past_later _ _ w1).
Qed.

Lemma open_row c r w : from_past (get_channel community c) r w -> is_open r = true -> open_at (w_past w) community c.
Proof. intros (m & Hm & Hr) Ho. apply bool_decide_eq_true in Ho. by exists m, r. Qed.
Lemma get_channel_live db co ch r : get_channel co ch db = Ok r -> live_channel db (co, ch) = Some r.
Proof. unfold get_channel. destruct (live_channel db (co, ch)); naive_solver. Qed.

Definition threaded_seen (threaded : option ThreadedChannelVisibility) (w : World) : Prop :=
  threaded = None \/ exists t, threaded = Some t /\ visibility_seen (w_past w) t.
Lemma holds_visibility ch row w : world_ok m0 w -> row_read ch row w ->
  holds (thread_visibility cx ch row) threaded_seen w.
Proof.
  intros Hw Hrow. unfold thread_visibility. destruct ch as [c|], row as [r|]; try (intros w1 _ _; by left).
  destruct (Hrow r eq_refl) as (c' & [= <-] & Hread). apply holds_bind; [done|]. apply holds_op; [done|].
  intros f w1 v w2 Hw1 Hr _ _ _ w3 Hs _ w4 Hs' _. destruct v as [v|e]; [|by left]. right. eexists. split; [done|].
  simpl in Hr. injection Hr as Hr. intros Hp. simpl in Hp.
  destruct Hread as (m & Hm & Hget). exists m, r. split; [by apply Hs', Hs|]. simpl.
  split; [by apply get_channel_live|]. apply on_pod_reply in Hr. symmetry in Hr.
  assert (Hd : pod_ok (seen_in (w_past w1)) (due (w_past w1) (cx_pod cx)) (if f_expired f then drop_visibility (community, c) (pod_live (w_pods w1 (cx_pod cx)))
                                             else pod_live (w_pods w1 (cx_pod cx)))).
  { destruct (f_expired f); [apply drop_visibility_ok|]; apply Hw1. }
  by rewrite (proj2 (pod_ok_visibility _ _ _ _ _ (Some r) _ Hd) v Hr Hp r eq_refl).
Qed.

(** A cached answer was so at some moment of the past. *)
Lemma holds_member_cached c pk w : world_ok m0 w ->
  holds (perform (CachedMember (cx_pod cx) community c pk))
    (ok_then (fun b w => b = true -> member_at (w_past w) community c pk)) w.
Proof.
  intros Hw. apply holds_op; [done|]. intros f w1 b w2 Hw1 Hr _ Hm Hsub w3 _ Hs. destruct b as [b|e]; [|done].
  intros ->. simpl in Hr. injection Hr as Hr. apply on_pod_reply in Hr. symmetry in Hr.
  assert (Hd : pod_ok (seen_in (w_past w2)) (due (w_past w1) (cx_pod cx)) (if f_expired f then drop_member (((community, c) : ChannelKey), pk) (pod_live (w_pods w1 (cx_pod cx)))
                                             else pod_live (w_pods w1 (cx_pod cx)))).
  { apply (pod_ok_later (seen_in (w_past w1)) _ (due (w_past w1) (cx_pod cx))); [|done|].
    - intros db. by apply seen_in_later.
    - destruct (f_expired f); [apply drop_member_ok|]; apply Hw1. }
  assert (Hdb : forall db', (if f_ok f then Some (w_chan w1) else None) = Some db' -> seen_in (w_past w2) db').
  { intros db'. destruct (f_ok f); [|done]. intros [= <-]. by eexists. }
  destruct (proj2 (pod_ok_member _ _ _ community c pk _ Hdb Hd) Hr) as (db & (m & Hmm & <-) & Hmem).
  exists m. split; [by apply Hs|done].
Qed.
Definition may_see (c : Uuid) (w : World) : Prop :=
  member_at (w_past w) community c (auth_pubkey auth) \/ open_at (w_past w) community c.
Lemma may_see_later c w w' : w_past w ⊆ w_past w' -> may_see c w -> may_see c w'.
Proof. intros Hs [?|?]; [left; by apply (member_at_later (w_past w))|right; by apply (open_at_later (w_past w))]. Qed.
Lemma holds_open c w : world_ok m0 w ->
  holds (reads_open cx c) (fun b w => b = true -> open_at (w_past w) community c) w.
Proof.
  intros Hw. unfold reads_open. apply holds_bind; [done|]. eapply holds_weaken; [by apply holds_chan|].
  intros [row|e] w1 _ _ Hrow w2 Hs _ Ho; [|done]. apply (open_row c row); [|done]. by apply (from_past_later _ _ w1).
Qed.
Lemma holds_channel_membership c row w : world_ok m0 w -> row_read (Some c) row w ->
  holds (check_channel_membership cx c (auth_pubkey auth) row) (ok_then (fun _ => may_see c)) w.
Proof.
  intros Hw Hrow. unfold check_channel_membership.
  apply (holds_try _ _ (fun b w => b = true -> member_at (w_past w) community c (auth_pubkey auth))); [done| |].
  { apply holds_map_err; [done|by apply holds_member_cached|].
    intros b w1 w2 Hs _ Hb Ht. apply (member_at_later (w_past w1)); [exact Hs|by apply Hb]. }
  intros b w1 Hs Hw1 Hb. destruct b; [intros w2 Hs2 _; left; apply (member_at_later (w_past w1)); [exact Hs2|by apply Hb]|].
  apply holds_bind; [done|].
  apply (holds_weaken _ (fun b w => b = true -> open_at (w_past w) community c)).
  - destruct row as [r|]; [|by apply holds_open]. intros w2 Hs2 _ Ho.
    destruct (Hrow r eq_refl) as (c' & [= <-] & Hread). apply (open_row c r); [|done].
    apply (from_past_later _ _ w); [|done]. intros m Hm. by apply Hs2, Hs.
  - intros o w2 _ _ Ho w3 Hs3 _. destruct o; [|done]. right. apply (open_at_later (w_past w2)); [exact Hs3|by apply Ho].
Qed.
Lemma holds_membership ch row w : world_ok m0 w -> row_read ch row w ->
  holds (check_membership cx auth event ch row)
    (ok_then (fun _ w => forall c, ch = Some c -> mem_kind (event_kind_u32 event) SKIP_MEMBERSHIP = false ->
       may_see c w)) w.
Proof.
  intros Hw Hrow. unfold check_membership. destruct ch as [c|]; [|by intros w1 _ _].
  destruct (mem_kind _ _) eqn:Hk; [by intros w1 _ _|]. apply holds_bind; [done|].
  eapply holds_weaken; [by apply holds_channel_membership|]. intros allowed w1 _ Hw1 Ha.
  apply holds_bind; [done|]. eapply holds_weaken.
  { apply (holds_fine _ (fun _ => True)); [done|]. apply asks_emit. }
  intros _ w2 Hs2 _ _ w3 Hs3 _. destruct allowed as [[]|e]; [|done]. intros c' [= <-] _.
  apply (may_see_later c w1); [intros m Hm; by apply Hs3, Hs2|]. exact Ha.
Qed.


(** ** The pipeline *)

Context (other : OtherHandlers) {OL : OtherLaws other}.

Lemma licensed_command past ch : passed auth event -> is_command_kind (event_kind_u32 event) = true ->
  licensed past auth community event ch.
Proof. intros Hp Hk. by split; [|rewrite Hk..]. Qed.
Lemma lease_is_global : is_global_only_kind KIND_PUSH_LEASE = true.
Proof. by vm_compute. Qed.

Lemma holds_gated now w : passed auth event -> world_ok m0 w ->
  holds (gated other cx auth event now) (ok_then (fun _ _ => True)) w.
Proof.
  intros Hpassed Hw. unfold gated. set (kind := event_kind_u32 event).
  apply (holds_try _ _ (fun _ w => is_relay_admin_kind kind = false ->
                          unrestricted_at (w_past w) community (auth_pubkey auth))); [done| |].
  { unfold when_. destruct (is_relay_admin_kind kind); [by intros w1 _ _|]. eapply holds_weaken; [by apply holds_restriction|].
    intros [[]|e] w1 _ _ Hu; [intros _; exact Hu|done]. }
  intros _ w1 _ Hw1 Hfree. apply (holds_try _ _ (fun ch _ => resolved ch)); [done|by apply holds_resolved|].
  intros ch w2 Hs2 Hw2 Hch. apply holds_bind; [done|]. eapply holds_weaken; [by apply holds_row|].
  intros row w3 Hs3 Hw3 Hrow. apply holds_bind; [done|]. eapply holds_weaken; [by apply holds_visibility|].
  intros threaded w4 Hs4 Hw4 Hth.
  apply (holds_try _ _ (fun _ w => forall c, ch = Some c -> mem_kind kind SKIP_MEMBERSHIP = false -> may_see c w)); [done| |].
  { apply holds_membership; [done|]. by apply (row_read_later ch row w3). }
  intros _ w5 Hs5 Hw5 Hmember.
  eapply holds_weaken; [|by intros [] ? _ _ _]. apply (holds_fine _ (fun _ => True)); [done|].
  assert (Hlic : is_relay_admin_kind kind = false -> licensed (w_past w5) auth community event ch).
  { intros Hk. split; [done|..].
    - intros _. apply (unrestricted_at_later (w_past w1)); [|by apply Hfree]. intros m Hm. by apply Hs5, Hs4, Hs3, Hs2.
    - intros ids _. apply (rv_token ch Hch).
    - intros c _ Hc Hskip. by apply Hmember. }
  apply asks_complete; [done|..|done|].
  - intros Hlease. assert (ch = None) as Hnone by (apply (rv_global ch Hch); rewrite Hlease; apply lease_is_global).
    rewrite <-Hnone. apply Hlic. unfold kind. by rewrite Hlease.
  - destruct Hth as [->|(t & -> & Ht)]; [by left|]. right. exists t. split; [done|].
    by apply (visibility_seen_later (w_past w4)).
Qed.
Lemma holds_direct p w : passed auth event -> world_ok m0 w -> direct other cx auth event = Some p ->
  holds p (ok_then (fun _ _ => True)) w.
Proof.
  intros Hp Hw Hd. eapply holds_weaken; [|by intros [] ? _ _ _]. apply (holds_fine _ (fun _ => True)); [done|].
  destruct (is_command_kind (event_kind_u32 event)) eqn:Hk; [|by eapply asks_direct_stored].
  eapply asks_allowed; [|by apply (asks_command other _ cx auth event)]. intros o. apply allowed_weaken; [|done].
  intros ch _. by apply licensed_command.
Qed.
Lemma holds_counting {B : Type} n (p : prog B) w :
  holds p (fun _ _ => True) w -> holds (counting n p) (fun _ _ => True) w.
Proof.
  revert n w. induction p as [b|o k IH]; intros n w; [done|]. intros Hp w1 f r w2 Hw Hi Hr.
  destruct (Hp w1 f r w2 Hw Hi Hr) as (H1 & H2 & H3). split_and!; [done..|]. by apply IH.
Qed.
Lemma holds_ingest w : world_ok m0 w -> holds (ingest_event other cx auth event) (fun _ _ => True) w.
Proof.
  intros Hw. unfold ingest_event. apply holds_bind; [done|].
  eapply holds_weaken; [apply holds_counting; eapply holds_weaken with (Q := ok_then (fun _ _ => True))|].
  - unfold ingest_event_inner. apply (holds_try _ _ (fun _ _ => passed auth event)); [done|by apply holds_authenticated|].
    intros now w1 _ Hw1 Hp. destruct (direct other cx auth event) eqn:Hd; [by apply holds_direct|by apply holds_gated].
  - done.
  - intros [out steps] w1 _ Hw1 _. apply (holds_fine _ (fun _ => True)); [done|].
    case_match; [apply asks_seq; [apply asks_emit|done]|].
    apply asks_seq; [|done]. destruct (Nat.eqb steps 0); [apply asks_emit|done].
Qed.
End request.

Lemma holds_other o (Q : Reply o -> World -> Prop) w : world_ok m0 w -> permitted [] o ->
  (forall r w', Q r w') -> holds (perform o) Q w.
Proof.
  intros Hw Ho HQ. apply holds_perform. intros w1 f r w2 _ Hw1 Hr.
  destruct (op_keeps [] o f w1 r w2) as [H1 H2]; [by intros ? ?%elem_of_nil|done..|]. by split_and!.
Qed.
Lemma holds_serve other {OL : OtherLaws other} q w : R q -> world_ok m0 w -> holds (serve other q) (fun _ _ => True) w.
Proof.
  intros HR Hw. destruct q as [cx auth event|i j n|i registry]; cbn [serve].
  - apply holds_bind; [done|]. eapply holds_weaken; [by apply holds_ingest|]. by intros out w1 _ _ _ w2 _ _.
  - apply holds_bind; [done|]. apply holds_other; [done|right; left; eauto|done].
  - apply holds_bind; [done|]. apply holds_other; [done|right; right; eauto|done].
Qed.
End requests.

(** * Every reachable state *)

(** Pods start with empty caches; their subscriptions and the tables are arbitrary. *)
Definition starting (w : World) : Prop := forall i, pod_live (w_pods w i) = delivery_start.
Lemma starting_ok w : starting w -> world_ok (db_events (w_store w)) w.
Proof.
  intros Hs. split.
  - intros i. rewrite Hs. split; [apply start_justified|]. by intros ? ? ? ?%elem_of_nil.
  - intros k r Hk. left. by exists r.
Qed.
End evidence.

Section system.
Context `{A : NostrApi} `{L : !NostrLaws A} `{U : UuidParse} `{SD : StoreDeps} `{H : HashIter} `{DG : Digest} `{K : RelayKeys} `{KL : !RelayKeysLaws K} `{J : SerdeJson} `{CT : ChronoText} `{JP : !JsonParse} `{V : EventVerify}.
Context (other : OtherHandlers) {OL : OtherLaws other}.

(** A request that some task of the run was started for. *)
Definition made (s : System Request (option (result IngestResult IngestError))) (q : Request) : Prop :=
  exists i p, tasks s !! i = Some (q, p).

Lemma reachable_world_ok w0 s : starting w0 -> Programs.reachable (serve other) w0 s ->
  world_ok (made s) (db_events (w_store w0)) (world s).
Proof.
  intros Hw0 Hs. set (m0 := db_events (w_store w0)).
  apply (requests_hold (serve other) (G := past_grows (made s) m0) (made s) (fun _ _ _ => True) w0 s);
    [|by apply starting_ok|done|].
  - intros q w Hq Hw. by apply holds_serve.
  - intros i q p Hi. by exists i, p.
Qed.

(** C1: Whatever is submitted, and however the requests of any number of pods interleave, every
    row of the store was there from the start, or the relay wrote it, or it is an event that
    some request submitted to the row's community, with the identity and token of that request:
    it passed authentication - kind, signature, identity, scope and size.  Unless it is a
    command, the tables said, at moments while the relay was running, that its submitter was
    neither banned nor timed out, and a token bound to channels names its channel; unless it is
    a command or of a kind with a check of its own ([SKIP_MEMBERSHIP]: joining, creating and
    deleting a channel, its metadata, edits and removals), its submitter was then a member of
    the channel it is stored in or the channel was open. *)
Theorem stored_events_admitted w0 s k r : starting w0 -> Programs.reachable (serve other) w0 s ->
  db_events (w_store (world s)) !! k = Some r ->
  was_there (db_events (w_store w0)) k r \/ er_pubkey r = relay_pubkey \/
  exists cx auth event ch, made s (Submit cx auth event) /\ cx_community cx = ek_community k /\
    row_is (ek_community k) event ch k r /\ licensed (w_past (world s)) auth (ek_community k) event ch.
Proof. intros Hw0 Hs. by apply (wo_rows _ _ _ (reachable_world_ok w0 s Hw0 Hs)). Qed.

(** The author of a row that is new. *)
Lemma new_row_licensed w0 s k r : starting w0 -> Programs.reachable (serve other) w0 s ->
  db_events (w_store (world s)) !! k = Some r -> er_pubkey r <> relay_pubkey -> er_kind r <> KIND_GIFT_WRAP ->
  was_there (db_events (w_store w0)) k r \/
  exists auth event, auth_pubkey auth = er_pubkey r /\ event_kind_u32 event = er_kind r /\
    licensed (w_past (world s)) auth (ek_community k) event (er_channel_id r).
Proof.
  intros Hw0 Hs Hr Hpk Hkind. destruct (wo_rows _ _ _ (reachable_world_ok w0 s Hw0 Hs) k r Hr) as [?|[?|H1]]; [by left|done|].
  right. destruct H1 as (cx & auth & event & ch & _ & _ & (_ & _ & _ & Hpk' & Hk & _ & _ & ->) & Hlic). exists auth, event.
  split_and!; [|done|done]. rewrite Hpk'. symmetry. apply passed_author; [apply Hlic|].
  intros Hg. apply Hkind. by rewrite Hk.
Qed.

(** C4: A member who was banned at every moment while the relay was running has stored nothing
    since it started, commands and gift wraps apart. *)
Theorem banned_members_store_nothing w0 s k r : starting w0 -> Programs.reachable (serve other) w0 s ->
  db_events (w_store (world s)) !! k = Some r -> er_pubkey r <> relay_pubkey -> er_kind r <> KIND_GIFT_WRAP ->
  is_command_kind (er_kind r) = false ->
  (forall m, m ∈ w_past (world s) ->
     rs_banned (restriction_state (mo_now m) (ek_community k) (er_pubkey r) (mo_mod m)) = true) ->
  was_there (db_events (w_store w0)) k r.
Proof.
  intros Hw0 Hs Hr Hpk Hkind Hcmd Hban. destruct (new_row_licensed w0 s k r) as [?|(auth & event & Ha & Hk & Hlic)]; [done..|].
  rewrite <-Hk in Hcmd. destruct (li_unrestricted _ _ _ _ _ Hlic Hcmd) as (m & Hm & Hb & _).
  rewrite Ha, Hban in Hb by done. done.
Qed.

(** C3: A channel that was never open while the relay was running takes no event from a key that
    was never its member: kinds with checks of their own (joining, creating and deleting a
    channel, its metadata, edits and removals of messages), commands and gift wraps apart. *)
Theorem strangers_store_nothing w0 s k r ch : starting w0 -> Programs.reachable (serve other) w0 s ->
  db_events (w_store (world s)) !! k = Some r -> er_pubkey r <> relay_pubkey -> er_kind r <> KIND_GIFT_WRAP ->
  is_command_kind (er_kind r) = false -> mem_kind (er_kind r) SKIP_MEMBERSHIP = false ->
  er_channel_id r = Some ch ->
  (forall m, m ∈ w_past (world s) -> is_member (ek_community k) ch (er_pubkey r) (mo_chan m) = false /\
     forall row, get_channel (ek_community k) ch (mo_chan m) = Ok row -> ch_visibility row <> ChannelVisibility.Open) ->
  was_there (db_events (w_store w0)) k r.
Proof.
  intros Hw0 Hs Hr Hpk Hkind Hcmd Hskip Hch Hout.
  destruct (new_row_licensed w0 s k r) as [?|(auth & event & Ha & Hk & Hlic)]; [done..|].
  rewrite <-Hk in Hcmd, Hskip. destruct (li_member _ _ _ _ _ Hlic ch Hcmd Hch Hskip) as [(m & Hm & Hmem)|(m & row & Hm & Hrow & Hopen)].
  - destruct (Hout m Hm) as [Hno _]. rewrite <-Ha in Hno. by rewrite Hno in Hmem.
  - by destruct (proj2 (Hout m Hm) row Hrow).
Qed.

(** C2: Every frame that any pod ever sends was sent by an operation of that pod - the fan-out of
    an event, the dispatch of a stored one, or the receipt from Redis of an event that a pod had
    published by then: it carries that event; at that moment the connection was of the event's
    community, and the pod's registry held a subscription of it that matches the event; an
    author-only event went to its author, an unshared persona or team to its author, and the
    event of a channel to a reader for whom the channel was not private, or who was a member,
    in the tables of some moment up to then; on the path of a stored event a viewer-private
    event went to its owner. *)
Theorem every_frame_was_due w0 s i conn sub e : starting w0 -> Programs.reachable (serve other) w0 s ->
  Frame conn sub e ∈ effects (pod_live (w_pods (world s) i)) ->
  due (w_past (world s)) i conn sub e.
Proof. intros Hw0 Hs. apply (wo_pods _ _ _ (reachable_world_ok w0 s Hw0 Hs) i). Qed.
End system.

(** * A scenario *)

Module Testimony.
Import Scenario Demo.
Definition hello_key : EventKey := event_key 1%N 100 hello.
Definition hello_row : EventRow := new_row 100 hello (Some 7%N) None None.
Lemma hello_stored : db_events (w_store (world last)) !! hello_key = Some hello_row.
Proof. by vm_compute. Qed.
Lemma start_starting : starting start.
Proof. by intros i. Qed.

(** A message of mallory's that is older than the run, in a channel. *)
Definition old : Event := event 10 mallory 9 [] "old".
Definition old_key : EventKey := event_key 1%N 100 old.
Definition old_row (ch : Uuid) : EventRow := new_row 100 old (Some ch) None None.
Definition with_old (ch : Uuid) (w : World) : World :=
  set_store (set_events {[old_key := old_row ch]} empty_db, ∅) w.

(** Mallory is banned, joins and posts. *)
Definition banned_start : World :=
  with_old 7%N (set_mod (set_bans {[((1%N, mallory) : BanKey) := mkBan true None None None None alice]} (w_mod start))
                        founded).
Definition banned_last : System Request (option (result IngestResult IngestError)) :=
  served banned_start [Start 3 (Submit cx (as_ mallory) join); Run 3 100 (calm 0%N);
                       Start 5 (Submit cx (as_ mallory) hello); Run 5 100 (calm 0%N)].
Example banned_answers : answer banned_last <$> [3; 5]%nat = Some <$> [false; false].
Proof. by vm_compute. Qed.
Lemma banned_reached : Programs.reachable (serve nothing_else) banned_start banned_last.
Proof. apply end_reachable. by vm_compute. Qed.
Lemma banned_old : db_events (w_store (world banned_last)) !! old_key = Some (old_row 7%N).
Proof. by vm_compute. Qed.
Lemma banned_always m : m ∈ w_past (world banned_last) ->
  rs_banned (restriction_state (mo_now m) 1%N mallory (mo_mod m)) = true.
Proof.
  assert (forallb (fun m => rs_banned (restriction_state (mo_now m) 1%N mallory (mo_mod m)))
            (w_past (world banned_last)) = true) as Hall by by vm_compute.
  intros Hm. rewrite forallb_forall in Hall. apply Hall. by apply list_elem_of_In.
Qed.

(** A private channel of alice's, and mallory's attempts to post in it. *)
Definition vault_start : World := with_old 8%N (set_chan MembershipExample.p1 start).
Definition vault_last : System Request (option (result IngestResult IngestError)) :=
  served vault_start [Start 6 (Submit cx (as_ mallory) intrude); Run 6 100 (calm 0%N)].
Example vault_answers : answer vault_last 6 = Some false.
Proof. by vm_compute. Qed.
Lemma vault_reached : Programs.reachable (serve nothing_else) vault_start vault_last.
Proof. apply end_reachable. by vm_compute. Qed.
Lemma vault_old : db_events (w_store (world vault_last)) !! old_key = Some (old_row 8%N).
Proof. by vm_compute. Qed.
Definition closed_to (pk : Bytes) (m : Moment) : bool :=
  negb (is_member 1%N 8%N pk (mo_chan m))
  && match get_channel 1%N 8%N (mo_chan m) with
     | Ok row => negb (bool_decide (ch_visibility row = ChannelVisibility.Open))
     | Err _ => true
     end.
Lemma vault_closed m : m ∈ w_past (world vault_last) ->
  is_member 1%N 8%N mallory (mo_chan m) = false /\
  forall row, get_channel 1%N 8%N (mo_chan m) = Ok row -> ch_visibility row <> ChannelVisibility.Open.
Proof.
  assert (forallb (closed_to mallory) (w_past (world vault_last)) = true) as Hall by by vm_compute.
  intros Hm. rewrite forallb_forall in Hall. specialize (Hall m (proj1 (list_elem_of_In _ _) Hm)).
  apply andb_true_iff in Hall as [H1%negb_true_iff H2]. split; [done|]. intros row Hrow. rewrite Hrow in H2.
  by apply negb_true_iff, bool_decide_eq_false in H2.
Qed.

(** Bob's connection is shown mallory's message. *)
Lemma hello_sent : Frame 1%N "s" hello ∈ effects (pod_live (w_pods (world last) 0)).
Proof.
  assert (existsb (fun x => match x with
                            | Frame c s e => N.eqb c 1 && String.eqb s "s" && bool_decide (e = hello)
                            | _ => false
                            end) (effects (pod_live (w_pods (world last) 0))) = true) as Hs by by vm_compute.
  apply existsb_exists in Hs as ([|c s e| |] & Hin & Hx); try discriminate Hx.
  apply andb_true_iff in Hx as [[->%N.eqb_eq ->%String.eqb_eq]%andb_true_iff ->%bool_decide_eq_true].
  by apply list_elem_of_In.
Qed.
End Testimony.
Import Scenario Demo Testimony.

Lemma stored_events_admitted_witness :
  was_there ∅ hello_key hello_row \/ er_pubkey hello_row = relay_pubkey \/
  exists cx auth event ch, made last (Submit cx auth event) /\ cx_community cx = 1%N /\
    row_is 1%N event ch hello_key hello_row /\ licensed (w_past (world last)) auth 1%N event ch.
Proof.
  exact (stored_events_admitted nothing_else start last hello_key hello_row start_starting reached hello_stored).
Defined.

Lemma banned_members_store_nothing_witness :
  was_there (db_events (w_store banned_start)) old_key (old_row 7%N).
Proof.
  refine (banned_members_store_nothing nothing_else banned_start banned_last old_key (old_row 7%N)
            start_starting banned_reached banned_old _ _ eq_refl banned_always); discriminate.
Defined.

Lemma strangers_store_nothing_witness :
  was_there (db_events (w_store vault_start)) old_key (old_row 8%N).
Proof.
  refine (strangers_store_nothing nothing_else vault_start vault_last old_key (old_row 8%N) 8%N
            start_starting vault_reached vault_old _ _ eq_refl eq_refl eq_refl vault_closed); discriminate.
Defined.

Lemma every_frame_was_due_witness : due (w_past (world last)) 0 1%N "s" hello.
Proof. exact (every_frame_was_due nothing_else start last 0 1%N "s" hello start_starting reached hello_sent). Defined.
