(* ===== verification/Answers.v ===== *)
(** Answers: what the relay tells a submitter is what happened to the event.

    A submission that is refused has not been stored, one that is called a duplicate has not
    been stored again, and a plain acceptance of an ordinary event means that this request has
    stored it - whatever the other tasks do to the tables between its operations, whichever
    of its operations fail, and whichever replies are lost: only after an internal error may a
    row be there unknown to the submitter, and then because a reply was lost. *)
From S2P Require Import Prelude Programs Nostr Kinds Filters Text Json EventStore Replacement Threads Auth Envelopes Conformance Channel Membership Subscription ReadPath Delivery Moderation Relay Provenance Groups Moderators Submission Commands Ingest Effects Scenario Admission.
Local Open Scope string_scope.
Local Open Scope list_scope.
Local Open Scope Z_scope.
Local Open Scope buzz_scope.

(** * What a program has done when it ends

    [mark w w'] says that an operation did what is looked for; [Q] relates whether one of the
    program's operations did to its result.  Between two operations the world may become any
    other. *)
Section tells.
Context {Op World Fault : Type} {M : Machine Op World Fault}.
Context (mark : World -> World -> bool).

Fixpoint tells {B : Type} (Q : bool -> B -> Prop) (b : bool) (p : prog B) : Prop :=
  match p with
  | Ret a => Q b a
  | Call o k => forall w f r w', respond o f w = Some (r, w') -> tells Q (b || mark w w') (k r)
  end.

Lemma tells_bind {B C : Type} (R : bool -> B -> Prop) (Q : bool -> C -> Prop) b (p : prog B) (k : B -> prog C) :
  tells R b p -> (forall b' a, R b' a -> tells Q b' (k a)) -> tells Q b (bind p k).
Proof.
  intros Hp Hk. revert b Hp. induction p as [a|o c IH]; intros b Hp; [by apply Hk|].
  intros w f r w' Hr. by apply IH, (Hp w f r w').
Qed.
Lemma tells_weaken {B : Type} (Q Q' : bool -> B -> Prop) b (p : prog B) :
  tells Q b p -> (forall b' a, Q b' a -> Q' b' a) -> tells Q' b p.
Proof.
  intros Hp HQ. revert b Hp. induction p as [a|o c IH]; intros b Hp; [by apply HQ|].
  intros w f r w' Hr. by apply IH, (Hp w f r w').
Qed.
(** A program that asks only for operations that never do it. *)
Lemma tells_asks {B : Type} (P : Op -> Prop) (Q : B -> Prop) b (p : prog B) :
  (forall o f w r w', P o -> respond o f w = Some (r, w') -> mark w w' = false) ->
  asks (fun _ => True) P Q p -> tells (fun b' a => b' = b /\ Q a) b p.
Proof.
  intros HP. revert b. induction p as [a|o c IH]; intros b Hp; [done|]. destruct Hp as [Ho Hc].
  intros w f r w' Hr. rewrite (HP o f w r w' Ho Hr), orb_false_r. by apply IH, (Hc w f r w').
Qed.

(** A run without other tasks, [f] being how the surroundings behave. *)
Fixpoint follow {B : Type} (f : Op -> Fault) (w : World) (b : bool) (p : prog B) : option (bool * B) :=
  match p with
  | Ret a => Some (b, a)
  | Call o k =>
      match respond o (f o) w with
      | Some (r, w') => follow f w' (b || mark w w') (k r)
      | None => None
      end
  end.
Lemma tells_follow {B : Type} (Q : bool -> B -> Prop) f w b b' (p : prog B) a :
  tells Q b p -> follow f w b p = Some (b', a) -> Q b' a.
Proof.
  revert w b. induction p as [x|o k IH]; intros w b Hp; simpl; [by intros [= <- <-]|].
  destruct (respond o (f o) w) as [[r w']|] eqn:Hr; [|done]. by apply IH, (Hp w (f o) r w').
Qed.
End tells.

(** * One row *)

(** The row [k] of [pk] has appeared. *)
Definition gained (k : EventKey) (pk : Bytes) (db db' : Db) : bool :=
  match db_events db !! k, db_events db' !! k with
  | None, Some r => bool_decide (er_pubkey r = pk)
  | _, _ => false
  end.
Lemma gained_lookup k pk db db' : db_events db' !! k = db_events db !! k -> gained k pk db db' = false.
Proof. unfold gained. intros ->. by destruct (_ !! k). Qed.
Lemma gained_events k pk db db' : db_events db' = db_events db -> gained k pk db db' = false.
Proof. intros He. apply gained_lookup. by rewrite He. Qed.
Lemma gained_refl k pk db : gained k pk db db = false.
Proof. by apply gained_events. Qed.
Lemma gained_before k pk db1 db db' : db_events db1 !! k = db_events db !! k ->
  gained k pk db1 db' = gained k pk db db'.
Proof. unfold gained. by intros ->. Qed.
Lemma gained_after k pk db db1 db' : db_events db' = db_events db1 ->
  gained k pk db db' = gained k pk db db1.
Proof. unfold gained. by intros ->. Qed.

Lemma insert_row_gained k r db db' b : insert_row k r db = (db', Ok b) -> gained k (er_pubkey r) db db' = b.
Proof.
  intros Hi. unfold insert_row in Hi. destruct (guard_nip_rs_watermark k r db) as [db1 g] eqn:Hg.
  assert (He : db_events db1 = db_events db).
  { unfold guard_nip_rs_watermark in Hg. repeat case_match; by simplify_eq/=. }
  destruct g as [[]|]; [|by simplify_eq; apply gained_events|done].
  rewrite <-(gained_before k _ db1) by by rewrite He. destruct (db_events db1 !! k) eqn:Hk; simplify_eq/=.
  - by apply gained_refl.
  - unfold gained. rewrite Hk. simpl. rewrite lookup_insert_eq. by apply bool_decide_eq_true.
Qed.

(** The newest live row of a selection. *)
Lemma live_head_newest p db k k' r' : live_head p db = Some k ->
  db_events db !! k' = Some r' -> p k' r' = true -> live r' = true ->
  newer_eq (ek_stamp k) (ek_stamp k') = true.
Proof.
  intros Hk Hk' Hp Hl. unfold live_head in Hk.
  pose proof (select_ordered_sorted (fun k r => p k r && live r) (db_events db)) as Hs.
  assert (Hin : (k', r') ∈ select_ordered (fun k r => p k r && live r) (db_events db)).
  { apply elem_of_select_ordered. by rewrite Hp, Hl. }
  destruct (select_ordered _ _) as [|x l]; [done|]. simpl in Hk. injection Hk as <-.
  apply elem_of_cons in Hin as [<-|Hin]; [apply newer_eq_refl|].
  apply StronglySorted_inv in Hs as [_ Hx]. rewrite Forall_forall in Hx. by apply (Hx (k', r')).
Qed.
(** What a statement of deletion leaves alone. *)
Lemma soft_delete_keeps now p k db : (forall r, db_events db !! k = Some r -> p k r && live r = false) ->
  db_events (fst (soft_delete_where now p db)) !! k = db_events db !! k.
Proof.
  intros Hk. unfold soft_delete_where. simpl. rewrite map_lookup_imap.
  destruct (db_events db !! k) as [r|] eqn:Hr; [|done]. simpl. by rewrite (Hk r eq_refl).
Qed.
Lemma hard_delete_keeps p k db : (forall r, db_events db !! k = Some r -> p k r && live r = false) ->
  db_events (fst (hard_delete_where p db)) !! k = db_events db !! k.
Proof.
  intros Hk. unfold hard_delete_where. simpl. rewrite map_lookup_imap.
  destruct (db_events db !! k) as [r|] eqn:Hr; [|done]. simpl. by rewrite (Hk r eq_refl).
Qed.

(** * One statement *)

(** [m] adds the row when it returns a [b] with [was b], and not when it fails, unless the
    acknowledgement of its commit was lost; [D] is [Db], or a pair of tables. *)
Section stored_as.
Context {D : Type} (ev : D -> Db) (acked : bool) (k : EventKey) (pk : Bytes).

Definition stored_as {B : Type} (was : B -> bool) (m : method D DbError B) : Prop :=
  forall d, let now := gained k pk (ev d) (ev (fst (m d))) in
    match snd (m d) with Ok b => now = was b | Err e => now = false \/ e = Sqlx /\ acked = false end.

Definition end_value {B : Type} (x : TxEnd B) : B := match x with Commit b | Rollback b => b end.
Definition commits {B : Type} (x : TxEnd B) : bool := match x with Commit _ => true | Rollback _ => false end.
Lemma stored_transaction {B : Type} env (Henv : env_acked env = acked) (was : B -> bool) (m : method D DbError (TxEnd B)) :
  (forall d d' x, m d = (d', Ok x) ->
     was (end_value x) = commits x && gained k pk (ev d) (ev d')) -> stored_as was (transaction env m).
Proof.
  intros Hm d. unfold transaction. specialize (Hm d). destruct (m d) as [d' [[b|b]|e]]; simpl.
  - specialize (Hm d' (Commit b) eq_refl). simpl in Hm. destruct (env_commits env); simpl; [|left; apply gained_refl].
    rewrite Henv. destruct acked; simpl; [done|by right].
  - specialize (Hm d' (Rollback b) eq_refl). simpl in Hm. rewrite Hm. apply gained_refl.
  - left. apply gained_refl.
Qed.
(** What follows touches other tables only and does not fail. *)
Lemma stored_then {B : Type} (was : B -> bool) (m : method D DbError B) (after : B -> method D DbError unit) :
  stored_as was m ->
  (forall b d, snd (after b d) = Ok tt /\ db_events (ev (fst (after b d))) = db_events (ev d)) ->
  stored_as was (do? out <- m ;; do? _ <- after out ;; m_ret out).
Proof.
  intros Hm Ha d. specialize (Hm d). unfold m_bind. destruct (m d) as [d' [b|e]]; simpl in *; [|done].
  destruct (Ha b d') as [Hok He]. destruct (after b d') as [d'' r]; simpl in *. subst r. simpl.
  by rewrite (gained_after _ _ _ (ev d')).
Qed.
End stored_as.

Section statements.
Context `{A : NostrApi} `{SD : StoreDeps}.

Lemma mentions_after env co e ch (b : bool) db :
  let m := if b then insert_mentions_logged env co e ch else m_ret tt in
  snd (m db) = Ok tt /\ db_events (fst (m db)) = db_events db.
Proof.
  destruct b; [|done]. cbn zeta. destruct (insert_mentions_only env co e ch db) as (m & ->). done.
Qed.
Lemma thread_row_events k t db : db_events (fst (insert_thread_row k t db)) = db_events db.
Proof. unfold insert_thread_row. by destruct (_ !! k). Qed.
Lemma count_reply_events env co meta pid db : db_events (fst (count_reply env co meta pid db)) = db_events db.
Proof.
  unfold count_reply, m_bind. cbv zeta.
  pose proof (thread_row_events (co, default (tp_event_created_at meta) (tp_parent_event_created_at meta), pid) (thread_stub (tp_channel_id meta)) db) as H1.
  destruct (insert_thread_row _ _ db) as [db1 [b1|e1]]; [|exact H1]. simpl in H1. rewrite <-H1. clear H1.
  destruct (tp_root_event_id meta) as [root|]; [|done]. destruct (negb _); [|done].
  pose proof (thread_row_events (co, default (tp_event_created_at meta) (tp_root_event_created_at meta), root) (thread_stub (tp_channel_id meta)) db1) as H2.
  destruct (insert_thread_row _ _ db1) as [db2 [b2|e2]]; exact H2.
Qed.
Lemma thread_metadata_events env co meta db :
  db_events (fst (insert_thread_metadata env co meta db)) = db_events db.
Proof.
  unfold insert_thread_metadata, m_bind.
  match goal with |- context [insert_thread_row ?k ?t db] => pose proof (thread_row_events k t db) as H1 end.
  destruct (insert_thread_row _ _ db) as [db1 [b|e]]; [|exact H1]. simpl in H1. rewrite <-H1.
  destruct (if b then _ else _); [apply count_reply_events|done].
Qed.

Section event.
Context (community : Uuid) (event : Event) (channel_id : option Uuid).
Let k := event_key community (to_i64 (ev_created_at event)) event.
Let pk := ev_pubkey event.

Lemma timestamp_same secs x : from_timestamp secs = Some x -> x = secs.
Proof. unfold from_timestamp. destruct (timestamp_valid _); naive_solver. Qed.

Lemma event_row_gained env db db' out :
  insert_event_row env community event channel_id db = (db', Ok out) -> gained k pk db db' = snd out.
Proof.
  unfold insert_event_row, m_bind, m_read. destruct (storable event); [|done].
  destruct (from_timestamp _) as [at_|] eqn:Hat; [|done]. apply timestamp_same in Hat as ->.
  destruct (insert_row _ _ db) as [db1 [b|e]] eqn:Hi; [|done]. intros [= <- <-]. by apply insert_row_gained in Hi.
Qed.
Lemma with_thread_gained env meta db db' out :
  insert_event_with_thread_metadata_tx env community event channel_id meta db = (db', Ok out) ->
  gained k pk db db' = snd out.
Proof.
  unfold insert_event_with_thread_metadata_tx, m_bind.
  destruct (insert_event_row _ _ _ _ db) as [db1 [out1|e]] eqn:Hi; [|done]. apply event_row_gained in Hi.
  destruct (if snd out1 then meta else None) as [m|]; [|by intros [= <- <-]].
  pose proof (thread_metadata_events env community m db1) as He.
  destruct (insert_thread_metadata _ _ m db1) as [db2 [u|e]]; [|done]. intros [= <- <-].
  by rewrite (gained_after _ _ _ db1).
Qed.
Lemma stored_with_thread env meta : stored_as id (env_acked env) k pk snd
  (insert_event_with_thread_metadata env community event channel_id meta).
Proof.
  apply (stored_then id _ k pk snd _ (fun out => if snd out then _ else _)).
  - apply stored_transaction; [done|]. intros db db' x. unfold m_bind.
    destruct (insert_event_with_thread_metadata_tx _ _ _ _ _ db) as [db1 [out|e]] eqn:Hi; [|done].
    intros [= <- <-]. symmetry. by apply with_thread_gained in Hi.
  - intros out db. apply mentions_after.
Qed.

Lemma replacing_stored env tx :
  (forall db db' x, tx (to_i64 (ev_created_at event)) db = (db', Ok x) ->
     snd (end_value x) = commits x && gained k pk db db') ->
  stored_as id (env_acked env) k pk snd (replacing env community event channel_id tx).
Proof.
  intros Htx. unfold replacing. destruct (from_timestamp _) as [at_|] eqn:Hat; [|by intros db; left; apply gained_refl].
  apply timestamp_same in Hat as ->.
  apply (stored_then id _ k pk snd _ (fun out => if snd out then _ else _)); [by apply stored_transaction|].
  intros out db. apply mentions_after.
Qed.
(** A row that a newer statement may replace is not the event's own. *)
Lemma own_row_kept p db : 
  existsb (fun k' => dominated_by (to_i64 (ev_created_at event), ev_id event) (ek_stamp k')) (option_list (live_head p db)) = false ->
  forall r, db_events db !! k = Some r -> p k r && live r = false.
Proof.
  intros Hd r Hr. apply not_true_iff_false. intros [Hp Hl]%andb_true_iff.
  destruct (live_head p db) as [k'|] eqn:Hk'.
  - pose proof (live_head_newest p db k' k r Hk' Hr Hp Hl) as Hn.
    assert (Hd' : dominated_by (to_i64 (ev_created_at event), ev_id event) (ek_stamp k') = false)
      by exact (proj1 (proj1 (orb_false_iff _ _) Hd)). rewrite dominated_newer_eq in Hd'.
    change (ek_stamp k) with (to_i64 (ev_created_at event), ev_id event) in Hn. by rewrite Hn in Hd'.
  - by rewrite (proj1 (live_head_None p db) Hk' k r Hr Hp) in Hl.
Qed.
Lemma stored_addressable env : stored_as id (env_acked env) k pk snd (replace_addressable_event env community event channel_id).
Proof.
  apply replacing_stored. intros db db' x. unfold replace_addressable_tx, m_bind, m_read. cbv zeta.
  destruct (existsb _ _) eqn:Hd; [by intros [= <- <-]|]. pose proof (own_row_kept _ _ Hd) as Hkeep.
  apply (soft_delete_keeps (env_now env)) in Hkeep. destruct (soft_delete_where _ _ db) as [db1 [n|e]]; [|done].
  simpl in Hkeep. destruct (insert_row _ _ db1) as [db2 [b|e]] eqn:Hi; [|done]. apply insert_row_gained in Hi.
  rewrite (gained_before _ _ _ db) in Hi by done. intros [= <- <-]. by destruct b.
Qed.
Lemma stored_parameterized env d : stored_as id (env_acked env) k pk snd (replace_parameterized_event env community event d channel_id).
Proof.
  apply replacing_stored. intros db db' x. unfold replace_parameterized_tx, m_read. cbv zeta. cbn [m_bind].
  set (c := (community, event_kind_i32 event, ev_pubkey event, d)). unfold m_bind at 1 2.
  destruct (existsb _ _) eqn:Hd; [by intros [= <- <-]|].
  assert (Hkeep : forall r, db_events db !! k = Some r -> at_coord c k r && live r = false).
  { apply own_row_kept. rewrite existsb_app in Hd. apply orb_false_iff in Hd as [Hd _].
    by destruct (live_head (at_coord c) db). }
  match goal with |- (let (_, _) := ?m db in _) = _ -> _ => assert (Hclear : db_events (fst (m db)) !! k = db_events db !! k) end.
  { destruct (live_head (at_coord c) db); [|done]. apply (hard_delete_keeps _ _ db) in Hkeep as Hh.
    apply (soft_delete_keeps (env_now env)) in Hkeep as Hs. unfold m_bind.
    destruct (is_nip_rs _ _ _ || _).
    - unfold hard_delete_where, m_modify in *. exact Hh.
    - by destruct (soft_delete_where _ _ db) as [db1 [n|?]]. }
  match goal with |- (let (_, _) := ?m in _) = _ -> _ => destruct m as [db1 [u|e]]; [|done] end.
  simpl in Hclear. unfold m_bind at 1. destruct (insert_row _ _ db1) as [db2 [b|e]] eqn:Hi; [|done].
  apply insert_row_gained in Hi. rewrite (gained_before _ _ _ db) in Hi by done. simpl in Hi.
  destruct b; [|by intros [= <- <-]]. destruct (is_nip_rs _ _ _); intros [= <- <-]; symmetry; exact Hi.
Qed.

Definition reaction_stored (out : ReactionEventInsertOutcome) : bool :=
  match out with Inserted _ was_inserted => was_inserted | _ => false end.
Lemma stored_reaction env meta target actor emoji : stored_as fst (env_acked env) k pk reaction_stored
  (insert_reaction_event_with_thread_metadata env community event channel_id meta target actor emoji).
Proof.
  apply (stored_then fst _ k pk reaction_stored _ (fun out => match out with Inserted _ true => _ | _ => m_ret tt end)).
  - apply stored_transaction; [done|]. intros [db rs] d' x. unfold m_bind, m_read, m_snd, m_fst. cbn [fst snd].
    destruct (target_created_at _ _ db) as [at_|]; [|by intros [= <- <-]].
    cbn [fst snd]. match goal with |- context [add_reaction ?a ?b ?c rs] => destruct (add_reaction a b c rs) as [rs1 [added|e]] end; [|done].
    destruct (negb added); [by intros [= <- <-]|].
    destruct (insert_event_with_thread_metadata_tx _ _ _ _ _ _) as [db1 [out|e]] eqn:Hi; [|done].
    intros [= <- <-]. symmetry. by apply with_thread_gained in Hi.
  - intros [| |stored []] [db rs]; try done. unfold m_fst. cbn [fst snd].
    destruct (insert_mentions_only env community event channel_id db) as (m & ->). done.
Qed.

Definition call_stores (c : StoreCall) : store_result c -> bool :=
  match c return store_result c -> bool with
  | InsertWithThread _ _ _ _ | ReplaceAddressable _ _ _ | ReplaceParameterized _ _ _ _ => snd
  | InsertReaction _ _ _ _ _ _ _ => reaction_stored
  | _ => fun _ => false
  end.
(** The calls that [ingest_event] stores a submission with. *)
Definition storing_call (c : StoreCall) : Prop :=
  match c with
  | InsertWithThread co e ch _ | InsertReaction co e ch _ _ _ _
  | ReplaceAddressable co e ch | ReplaceParameterized co e _ ch =>
      co = community /\ e = event /\ ch = channel_id
  | _ => False
  end.
Lemma stored_fst {B : Type} acked (was : B -> bool) (m : method Db DbError B) :
  stored_as id acked k pk was m -> stored_as fst acked k pk was (m_fst (T := Reactions) m).
Proof. intros Hm [db rs]. unfold m_fst. specialize (Hm db). simpl in *. by destruct (m db). Qed.
Lemma stored_call env c : storing_call c -> stored_as fst (env_acked env) k pk (call_stores c) (run_store env c).
Proof.
  destruct c; simpl; try done; intros (-> & -> & ->).
  - apply stored_fst, stored_with_thread.
  - apply stored_reaction.
  - apply stored_fst, stored_addressable.
  - apply stored_fst, stored_parameterized.
Qed.
End event.
End statements.

(** * Answers *)

(** Kinds that are carried out without becoming a row. *)
Definition carried_out (kind : Z) : bool :=
  mem_kind kind [KIND_PRODUCT_FEEDBACK; KIND_REPORT; KIND_NIP43_LEAVE_REQUEST]
  || is_moderation_command_kind kind || is_relay_admin_kind kind.
(** Kinds whose handlers are parameters. *)
Definition OUTSIDE : list Z :=
  [KIND_WORKFLOW_DEF; KIND_WORKFLOW_TRIGGER; KIND_APPROVAL_GRANT; KIND_APPROVAL_DENY; KIND_PUSH_LEASE].
(** [stored]: whether the request has added the event's row; [lost] says whether rows count that
    were added by an operation whose reply was lost, and then an internal error leaves it open
    whether there is one.  A reaction may be accepted for the row of the reaction alone, a
    command for what it does; a panic answers nothing. *)
Definition fair (lost : bool) (kind : Z) (stored : bool) (out : result IngestResult IngestError) : Prop :=
  match out with
  | Err Panicked => True
  | Err (Internal _) => lost = true \/ stored = false
  | Err _ => stored = false
  | Ok res =>
      if starts_with "duplicate:" (ir_message res) then stored = false
      else if carried_out kind then stored = false
      else is_command_kind kind = false -> kind <> KIND_REACTION -> stored = true
  end.

Section answers.
Context `{A : NostrApi} `{U : UuidParse} `{SD : StoreDeps} `{H : HashIter} `{DG : Digest} `{K : RelayKeys} `{J : SerdeJson} `{CT : ChronoText} `{JP : !JsonParse} `{V : EventVerify}.
Context {KL : RelayKeysLaws K}.
Context (other : OtherHandlers) {OL : OtherLaws other}.
Context (cx : Ctx) (auth : IngestAuth) (event : Event).
Let community := cx_community cx.
Let kind := event_kind_u32 event.

Context (lost : bool).

(** The reply of the latest operation was not lost. *)
Definition heard (w : World) : bool :=
  match w_past w with m :: _ => env_acked (f_env (mo_fault m)) | [] => true end.
(** The request has added the event's row to the store, by an operation whose reply arrived
    unless those count too whose reply was lost. *)
Definition adds_event (w w' : World) : bool :=
  gained (event_key community (to_i64 (ev_created_at event)) event) (ev_pubkey event) (w_store w) (w_store w')
  && (lost || heard w').
Definition never_adds (o : Op) : Prop :=
  forall f w r w', respond o f w = Some (r, w') -> adds_event w w' = false.
Notation silent p := (asks (fun _ => True) never_adds (fun _ => True) p).
Notation answers Q p := (tells adds_event Q false p).

Context (Hforeign : ev_pubkey event <> relay_pubkey).

(** ** What cannot add it *)

Lemma never_adds_same o :
  (forall f w r w', respond o f w = Some (r, w') -> w_store w' = w_store w) -> never_adds o.
Proof. intros Ho f w r w' Hr. unfold adds_event. rewrite (Ho f w r w' Hr). by rewrite gained_refl. Qed.
Lemma not_gained db db' :
  adds_rows (fun _ r => er_pubkey r = relay_pubkey) db db' ->
  gained (event_key community (to_i64 (ev_created_at event)) event) (ev_pubkey event) db db' = false.
Proof.
  intros Ha. unfold gained. destruct (_ !! _) as [|] eqn:Hk; [done|].
  destruct (db_events db' !! _) as [r|] eqn:Hk'; [|done]. apply bool_decide_eq_false. intros Hpk.
  destruct (Ha _ r Hk') as [(r0 & Hr0 & _)|Hr]; [by rewrite Hk in Hr0|]. apply Hforeign. by rewrite <-Hpk.
Qed.
Lemma relay_row co e ch k r : relay_signed e -> row_is co e ch k r -> er_pubkey r = relay_pubkey.
Proof.
  intros (at_ & kd & tags & content & Hs) (_ & _ & _ & -> & _). by apply sign_fields in Hs as (-> & _).
Qed.
Lemma allowed_never_adds vis o : allowed cx event nothing vis o -> never_adds o.
Proof.
  intros Ho f w r w' Hr. unfold adds_event. apply andb_false_iff. left.
  assert (Hsame : forall k r r', same_message r r' ->
            (fun _ r => er_pubkey r = relay_pubkey) k r -> (fun (_ : EventKey) r => er_pubkey r = relay_pubkey) k r').
  { intros k r1 r2 (He & _). by rewrite He. }
  destruct (respond_store o f w r w' Hr) as [->|[(c & -> & ->)|[(co & -> & ->)|(co & e & ch & now & -> & ->)]]].
  - apply gained_refl.
  - apply not_gained, (run_store_adds _ Hsame (f_env f) c (w_store w, w_reactions w)).
    intros co e ch k r' Hins. destruct c; simpl in *; simplify_eq; destruct Ho as [_ [[_ []]|Hs]]; by apply relay_row.
  - apply not_gained, publish_roster_adds; [done|]. intros at_ tags e k r' Hs. apply relay_row. by eexists _, _, _, _.
  - apply not_gained, command_rows_adds; [done|]. destruct Ho as [_ [[_ []]|Hs]]. intros k r'. by apply relay_row.
Qed.
Lemma silent_allowed {B : Type} vis (p : prog B) :
  asks (fun _ => True) (allowed cx event nothing vis) (fun _ => True) p -> silent p.
Proof. apply asks_allowed. intros o. apply allowed_never_adds. Qed.
Lemma silent_perform o : allowed cx event nothing anything o -> silent (perform o).
Proof. intros Ho. apply asks_any. by apply (allowed_never_adds anything). Qed.
Lemma silent_reading {B : Type} (p : prog B) : asks (fun _ => True) reading (fun _ => True) p -> silent p.
Proof.
  intros Hp. apply (silent_allowed anything). eapply asks_allowed; [|exact Hp]. intros o Ho.
  by apply reading_allowed.
Qed.
Lemma silent_tells {B : Type} (Q : B -> Prop) b (p : prog B) :
  asks (fun _ => True) never_adds Q p -> tells adds_event (fun b' a => b' = b /\ Q a) b p.
Proof. apply tells_asks. intros o f w r w' Ho. by apply Ho. Qed.

(** ** Rules *)

Lemma after_silent {B C : Type} (Q : bool -> C -> Prop) b (p : prog B) (k : B -> prog C) :
  silent p -> (forall a, tells adds_event Q b (k a)) -> tells adds_event Q b (bind p k).
Proof. intros Hp Hk. eapply tells_bind; [by apply silent_tells|]. by intros b' a [-> _]. Qed.
Lemma fair_err e : fair lost kind false (Err e).
Proof. destruct e; cbn; auto. Qed.
Lemma fair_internal b text : lost = true \/ b = false -> fair lost kind b (Err (Internal text)).
Proof. done. Qed.
(** A check that may refuse. *)
Lemma after_check {B : Type} (p : prog (result B IngestError)) (k : B -> prog (result IngestResult IngestError)) :
  silent p -> (forall a, answers (fair lost kind) (k a)) -> answers (fair lost kind) (try_bind p k).
Proof. intros Hp Hk. apply after_silent; [done|]. intros [a|e]; [apply Hk|apply fair_err]. Qed.
Lemma after_value {B : Type} (r : result B IngestError) (k : B -> prog (result IngestResult IngestError)) :
  (forall a, answers (fair lost kind) (k a)) -> answers (fair lost kind) (try r k).
Proof. intros Hk. destruct r; [apply Hk|apply fair_err]. Qed.

(** ** Storing *)

(** [b] says what a call of the store has done, as far as the caller can know. *)
Definition known {B : Type} (was : B -> bool) (b : bool) (r : result B DbError) : Prop :=
  match r with Ok x => b = was x | Err e => b = false \/ e = Sqlx /\ lost = true end.
Lemma store_answers ch c : storing_call community event ch c ->
  answers (known (call_stores c)) (perform (Store c)).
Proof.
  intros Hc w f r w' Hr. cbn [orb]. unfold adds_event. simpl in Hr. unfold on_db in Hr.
  destruct (f_ok f); simpl in Hr; [|by simplify_eq; left; rewrite gained_refl].
  pose proof (stored_call community event ch (f_env f) c Hc (w_store w, w_reactions w)) as Hs.
  destruct (run_store _ _ _) as [s out]. injection Hr as <- <-. cbn [fst snd w_store set_store] in *.
  unfold heard, known. cbn [w_past set_store remember this_moment mo_fault]. destruct (env_acked (f_env f)).
  - rewrite orb_true_r, andb_true_r. destruct out as [x|e]; [exact Hs|]. left. by destruct Hs as [?|[_ ?]].
  - rewrite orb_false_r. destruct lost; [by right|]. left. by rewrite andb_false_r.
Qed.
Definition persisted (b : bool) (r : result (StoredEvent * bool) IngestError) : Prop :=
  match r with Ok x => b = snd x | Err e => fair lost kind b (Err e) end.
Lemma internal_persisted (p : prog (result (StoredEvent * bool) DbError)) text :
  answers (known snd) p -> answers persisted (internal_if text p).
Proof.
  intros Hp. unfold internal_if, prog_map_err. eapply tells_bind; [exact Hp|].
  intros b [x|e]; [done|]. intros [?|[_ ?]]; [by right|by left].
Qed.
Lemma persist_answers ch meta pre : answers persisted (persist cx event ch meta pre).
Proof.
  unfold persist. cbv zeta. destruct (is_replaceable _); [by apply internal_persisted, (store_answers ch)|].
  destruct (is_parameterized_replaceable _).
  { destruct (Nat.ltb _ _); [done|]. by apply internal_persisted, (store_answers ch). }
  eapply tells_bind; [by apply (store_answers ch)|]. intros b [x|e] Hb; [done|].
  apply after_silent; [apply (silent_allowed anything); unfold compensate, invalidate_channel_deleted; by destruct pre|].
  intros _. destruct Hb as [->|[-> Hl]]; [apply fair_err|by left].
Qed.

(** Done with a row that has been added, and with one that was there. *)
Lemma done_added b text : carried_out kind = false -> starts_with "duplicate:" text = false -> b = true ->
  tells adds_event (fair lost kind) b (done_with event true text).
Proof. intros Hc Hd ->. simpl. by rewrite Hd, Hc. Qed.
Lemma done_duplicate accepted text : starts_with "duplicate:" text = true ->
  answers (fair lost kind) (done_with event accepted text).
Proof. intros Hd. simpl. by rewrite Hd. Qed.

Lemma silent_emit action : silent (emit cx auth action).
Proof. apply (silent_allowed anything), asks_emit. Qed.
Lemma silent_dispatch stored kd threaded : silent (dispatch cx auth stored kd threaded).
Proof.
  apply (silent_allowed anything), asks_dispatch. destruct threaded; [right; by eexists|by left].
Qed.
Lemma after_insert_answers ch meta threaded stored : carried_out kind = false ->
  tells adds_event (fair lost kind) true (after_insert other cx auth event ch meta threaded stored).
Proof.
  intros Hc. unfold after_insert. cbv zeta. apply after_silent.
  { destruct (is_side_effect_kind _); [|done]. apply asks_seq; [|done].
    apply (silent_allowed anything), asks_side_effects, OL. }
  intros _. apply after_silent.
  { destruct meta; [|done]. apply (silent_allowed anything), asks_thread_summary. }
  intros _. apply after_silent; [apply silent_emit|]. intros _.
  apply after_silent; [apply silent_dispatch|]. intros _. by apply done_added.
Qed.
Lemma reaction_answers ch meta threaded : kind = KIND_REACTION ->
  answers (fair lost kind) (store_reaction cx auth event ch meta threaded).
Proof.
  intros Hk. unfold store_reaction. destruct (reaction_target event) as [hex|]; [|done].
  destruct (hex_decode hex) as [target|]; [|done]. cbv zeta. destruct (Nat.ltb _ _); [done|].
  unfold internal_if, prog_map_err, try_bind.
  eapply tells_bind; [eapply tells_bind; [by apply (store_answers ch)|]|].
  { intros b [out|e] Hb; [instantiate (1 := fun b r => match r with
        Ok out => b = reaction_stored out | Err e => fair lost kind b (Err e) end); exact Hb|].
      destruct Hb as [?|[_ ?]]; [by right|by left]. }
  intros b [[| |stored ins]|e]; [by intros ->|intros ->; by apply done_duplicate|intros ->|done].
  cbn [reaction_stored]. destruct ch as [c|]; [|done].
  assert (Hend : forall b, tells adds_event (fair lost kind) b (done_with event true "")).
  { intros b. rewrite Hk. by intros _ []. }
  apply after_silent; [apply silent_emit|]. intros _. apply after_silent; [apply silent_dispatch|]. intros _. apply Hend.
Qed.
Lemma store_event_answers ch threaded pre : carried_out kind = false ->
  answers (fair lost kind) (store_event other cx auth event ch threaded pre).
Proof.
  intros Hc. unfold store_event. apply after_check.
  { unfold check_media, when_. destruct (negb _); [|done].
    apply asks_seq_err, silent_reading, ol_imeta. }
  intros _. apply after_check.
  { unfold thread_of. destruct ch; [|done]. destruct (requires_h_channel_scope _); [|done].
    apply asks_seq_err, (silent_allowed anything), asks_resolve_thread. }
  intros meta. apply after_value. intros _. destruct (event_kind_u32 event =? KIND_REACTION) eqn:Hk.
  { by apply reaction_answers, Z.eqb_eq. }
  eapply tells_bind; [apply persist_answers|]. intros b [[stored ins]|e]; [intros ->|done]. cbn [snd fst].
  destruct ins; [by apply after_insert_answers|]. by apply done_duplicate.
Qed.

(** ** Carried out without a row *)

Lemma handled_answers (p : prog (result unit IngestError)) : carried_out kind = true -> silent p ->
  answers (fair lost kind) (handled event p).
Proof. intros Hc Hp. unfold handled. apply after_check; [done|]. intros _. simpl. by rewrite Hc. Qed.
Lemma leave_answers : kind = KIND_NIP43_LEAVE_REQUEST -> answers (fair lost kind) (leave_relay cx event).
Proof.
  intros Hk. unfold leave_relay. destruct (negb _); [done|]. apply after_silent; [by apply silent_perform|]. intros now.
  destruct (stale event now); [done|]. destruct (negb _); [done|]. cbv zeta. apply after_check.
  { apply asks_seq_err, (silent_allowed anything), asks_remove_relay_member. by left. }
  intros []; try done; [|by right]. apply after_silent; [apply (silent_allowed anything), asks_announce_member|].
  intros _. simpl. by rewrite Hk.
Qed.
Lemma complete_answers now ch row threaded :
  carried_out kind = is_relay_admin_kind kind || (kind =? KIND_NIP43_LEAVE_REQUEST) -> kind <> KIND_PUSH_LEASE ->
  answers (fair lost kind) (complete other cx auth event now ch row threaded).
Proof.
  intros Hc Hlease. unfold complete. cbv zeta. fold kind.
  apply after_check; [apply (silent_allowed anything), asks_evm, OL|]. intros _.
  destruct (is_relay_admin_kind kind).
  { apply handled_answers; [done|]. apply asks_seq_err, (silent_allowed anything), asks_relay_admin. }
  destruct (Z.eqb_spec kind KIND_NIP43_LEAVE_REQUEST) as [Hk|_]; [by apply leave_answers|].
  apply after_check; [apply (silent_allowed anything), asks_validate, OL|]. intros _.
  apply after_check; [apply (silent_allowed anything), asks_pre_create|]. intros pre.
  rewrite (proj2 (Z.eqb_neq _ _) Hlease).
  destruct pre; [| |by apply done_duplicate]; apply after_value; intros _; by apply store_event_answers.
Qed.
Lemma gated_answers now :
  carried_out kind = is_relay_admin_kind kind || (kind =? KIND_NIP43_LEAVE_REQUEST) -> kind <> KIND_PUSH_LEASE ->
  answers (fair lost kind) (gated other cx auth event now).
Proof.
  intros Hc Hlease. unfold gated. apply after_check.
  { unfold when_. destruct (negb _); [|done]. apply (silent_allowed anything), asks_check_restriction. }
  intros _. apply after_check; [apply (silent_allowed anything), asks_resolve_channel|]. intros ch.
  apply after_silent; [apply (silent_allowed anything), asks_read_channel|]. intros row.
  apply after_silent; [apply (silent_allowed anything), asks_thread_visibility|]. intros threaded.
  apply after_check; [apply (silent_allowed anything), asks_membership|]. intros _. by apply complete_answers.
Qed.

(** ** Commands *)

(** A commit that failed has added nothing that counts. *)
Lemma lost_commit co e ch now commit f w err w' :
  respond (EndCommand co e ch now commit) f w = Some (Err err, w') -> lost = true \/ adds_event w w' = false.
Proof.
  intros Hr. simpl in Hr. unfold adds_event. destruct commit; [|done]. destruct (f_ok f && _); simpl in Hr.
  - destruct lost; [by left|right]. destruct (env_acked (f_env f)) eqn:Ha; [done|]. injection Hr as _ <-.
    unfold heard. simpl. by rewrite Ha, andb_false_r.
  - right. injection Hr as _ <-. by rewrite gained_refl.
Qed.
Lemma transaction_answers {B : Type} (body : prog (result B IngestError)) after : is_command_kind kind = true ->
  silent body -> (forall b x, tells adds_event (fair lost kind) b (after x)) ->
  answers (fair lost kind) (in_transaction cx event None body after).
Proof.
  intros Hk Hbody Hafter. unfold in_transaction. apply after_check.
  { unfold persist_command_event. apply asks_seq_try; [by apply asks_seq_err, silent_perform|].
    intros _. cbv zeta. destruct (from_timestamp _); [|done]. apply asks_seq; [by apply silent_perform|]. intros now.
    destruct (Nat.ltb _ _); [done|]. apply asks_seq_try; [|done]. apply asks_seq_err, asks_any, never_adds_same.
    intros f w r w' Hr. simpl in Hr. unfold on_db in Hr. by op_cases. }
  intros [received_at|]; [|by apply done_duplicate]. cbv zeta.
  apply after_silent; [done|]. intros [x|e].
  - unfold internal_if, prog_map_err, try_bind.
    apply (tells_bind _ (fun b r => match r with Ok _ => True | Err e => fair lost kind b (Err e) end)).
    + apply (tells_bind _ (fun b r => match r with Ok _ => True | Err _ => lost = true \/ b = false end)); [|by intros b [] Hb].
      intros f w r w' Hr. destruct r as [u|e]; [done|]. cbn [orb]. by eapply lost_commit.
    + intros b [u|e] Hb; [apply Hafter|exact Hb].
  - apply after_silent; [|intros _; apply fair_err]. apply asks_any, never_adds_same.
    intros f w r w' Hr. by simplify_eq/=.
Qed.
Lemma command_done b text : is_command_kind kind = true -> carried_out kind = false ->
  starts_with "duplicate:" text = false -> tells adds_event (fair lost kind) b (done_with event true text).
Proof. intros Hk Hc Hd. simpl. rewrite Hd, Hc, Hk. done. Qed.

Lemma silent_open_dm l : auth_pubkey auth = ev_pubkey event ->
  silent (internal_if "error: db open_dm: {e}" (perform (Chan (OpenDm community l (auth_pubkey auth))))).
Proof. intros Ha. apply asks_seq_err, silent_perform. split; [done|by left]. Qed.
Lemma silent_own_dm pk ch : silent (check_own_dm cx pk ch).
Proof. apply (silent_allowed anything), asks_own_dm. Qed.
Lemma dm_open_answers : is_command_kind kind = true -> carried_out kind = false ->
  auth_pubkey auth = ev_pubkey event -> answers (fair lost kind) (handle_dm_open cx auth event).
Proof.
  intros Hk Hc Ha. unfold handle_dm_open. cbv zeta. case_bool_decide; [done|]. destruct (Nat.ltb _ _); [done|].
  apply after_value. intros all. apply transaction_answers; [done|by apply silent_open_dm|].
  intros b [channel was_created]. cbv zeta. apply after_silent; [|by intros _; apply command_done].
  destruct was_created.
  - apply (silent_allowed anything), asks_seq; [apply asks_all; intros; apply asks_invalidate_membership|].
    intros _. apply asks_seq; [apply asks_system_message|]. intros _.
    apply asks_seq; [apply asks_discovery|]. intros _. apply asks_notify_all.
  - apply asks_seq; [|done]. apply (silent_allowed anything), asks_dm_snapshot.
Qed.
Lemma dm_add_answers : is_command_kind kind = true -> carried_out kind = false ->
  auth_pubkey auth = ev_pubkey event -> answers (fair lost kind) (handle_dm_add_member cx auth event).
Proof.
  intros Hk Hc Ha. unfold handle_dm_add_member. cbv zeta. apply after_value. intros ch.
  case_bool_decide; [done|]. apply after_check; [apply silent_own_dm|]. intros _.
  apply after_check; [apply (silent_allowed anything); asks_tac|]. intros members.
  apply after_value. intros all. destruct (Nat.ltb _ _); [done|].
  apply transaction_answers; [done|by apply silent_open_dm|].
  intros b [channel was_created]. cbv zeta. apply after_silent; [|by intros _; apply command_done].
  destruct was_created; [|done].
  apply (silent_allowed anything), asks_seq; [apply asks_all; intros; apply asks_invalidate_membership|].
  intros _. apply asks_seq; [apply asks_discovery|]. intros _. apply asks_notify_all.
Qed.
Lemma dm_hide_answers : is_command_kind kind = true -> carried_out kind = false ->
  auth_pubkey auth = ev_pubkey event -> answers (fair lost kind) (handle_dm_hide cx auth event).
Proof.
  intros Hk Hc Ha. unfold handle_dm_hide. cbv zeta. apply after_value. intros ch.
  apply after_check; [apply silent_own_dm|]. intros _. apply transaction_answers; [done|by apply asks_seq_err, silent_perform|].
  intros b _. apply after_silent; [apply (silent_allowed anything), asks_dm_snapshot|]. intros _. by apply command_done.
Qed.

(** ** The whole pipeline *)

Context (Hinside : mem_kind kind OUTSIDE = false).
Lemma not_outside k : In k OUTSIDE -> kind <> k.
Proof.
  intros Hin Hk. apply (bool_decide_eq_false_1 _ Hinside). rewrite Hk. by apply list_elem_of_In.
Qed.
Lemma command_answers : is_command_kind kind = true -> auth_pubkey auth = ev_pubkey event ->
  answers (fair lost kind) (handle_command (workflow_commands other) cx auth event).
Proof.
  intros Hk Ha. unfold handle_command. apply after_silent; [by apply silent_perform; split|]. intros _. cbv zeta. fold kind.
  assert (Hno : forall k, In k OUTSIDE -> (kind =? k) = false) by (intros k Hin; apply Z.eqb_neq; by apply not_outside).
  destruct (Z.eqb_spec kind KIND_DM_OPEN) as [He|_]; [by apply dm_open_answers; rewrite ?He|].
  destruct (Z.eqb_spec kind KIND_DM_ADD_MEMBER) as [He|_]; [by apply dm_add_answers; rewrite ?He|].
  destruct (Z.eqb_spec kind KIND_DM_HIDE) as [He|_]; [by apply dm_hide_answers; rewrite ?He|].
  rewrite !Hno by (simpl; tauto). apply fair_err.
Qed.
Lemma direct_answers p : auth_pubkey auth = ev_pubkey event -> direct other cx auth event = Some p ->
  answers (fair lost kind) p.
Proof.
  intros Ha. unfold direct. fold kind. cbv zeta. destruct (is_command_kind kind) eqn:Hk.
  { intros [= <-]. by apply command_answers. }
  destruct (Z.eqb_spec kind KIND_PRODUCT_FEEDBACK) as [He|_].
  { intros [= <-]. apply after_check; [apply asks_seq_err, (silent_allowed nothing), ol_feedback|].
    intros _. apply (after_silent (fair lost kind) false (emit_global cx auth event)); [apply silent_emit|].
    intros _. simpl. by rewrite He. }
  destruct (Z.eqb_spec kind KIND_REPORT) as [He|_].
  { intros [= <-]. apply handled_answers; [by rewrite He|]. apply asks_seq_err, (silent_allowed anything), asks_report. }
  destruct (is_moderation_command_kind kind) eqn:Hm; [|done]. intros [= <-].
  apply handled_answers; [unfold carried_out; by rewrite Hm, orb_true_r|].
  apply asks_seq_err, (silent_allowed anything), asks_moderation_command.
Qed.
Lemma indirect_carried_out : direct other cx auth event = None ->
  carried_out kind = is_relay_admin_kind kind || (kind =? KIND_NIP43_LEAVE_REQUEST).
Proof.
  unfold direct. fold kind. cbv zeta. destruct (is_command_kind kind); [done|].
  destruct (Z.eqb_spec kind KIND_PRODUCT_FEEDBACK) as [|Hf]; [done|].
  destruct (Z.eqb_spec kind KIND_REPORT) as [|Hr]; [done|].
  destruct (is_moderation_command_kind kind) eqn:Hm; [done|]. intros _. unfold carried_out. rewrite Hm, orb_false_r, orb_comm.
  f_equal. apply eq_true_iff_eq. unfold mem_kind.
  rewrite Z.eqb_eq, bool_decide_eq_true, !elem_of_cons, elem_of_nil. tauto.
Qed.
Lemma inner_answers : answers (fair lost kind) (ingest_event_inner other cx auth event).
Proof.
  unfold ingest_event_inner. eapply tells_bind.
  { apply (silent_tells (ok_only (fun _ => passed auth event))). eapply asks_allowed; [|apply asks_authenticate].
    intros o Ho. apply (allowed_never_adds anything). by apply reading_allowed. }
  intros b [now|e] [-> Hp]; [|apply fair_err].
  assert (Hlease : kind <> KIND_PUSH_LEASE) by (apply not_outside; simpl; tauto).
  destruct (direct other cx auth event) as [p|] eqn:Hd.
  - apply direct_answers; [|done]. destruct (decide (kind = KIND_GIFT_WRAP)) as [Hg|Hg].
    + exfalso. revert Hd. unfold direct. fold kind. by rewrite Hg.
    + symmetry. by apply passed_author.
  - apply gated_answers; [|done]. by apply indirect_carried_out.
Qed.
End answers.

Section system.
Context `{A : NostrApi} `{U : UuidParse} `{SD : StoreDeps} `{H : HashIter} `{DG : Digest} `{K : RelayKeys} `{J : SerdeJson} `{CT : ChronoText} `{JP : !JsonParse} `{V : EventVerify}.
Context {KL : RelayKeysLaws K}.
Context (other : OtherHandlers) {OL : OtherLaws other}.

Lemma tells_counting {B : Type} mark (Q : bool -> B -> Prop) b n (p : prog B) :
  tells mark Q b p -> tells mark (fun b r => Q b r.1) b (counting n p).
Proof.
  revert b n. induction p as [a|o k IH]; intros b n Hp; [done|]. intros w f r w' Hr. by apply IH, (Hp w f r w').
Qed.

(** C5: The answer to a submission tells what became of it, whatever the other tasks do between its
    operations, whichever of them fail, and whichever take effect while their reply is lost: after
    a refusal, and after the answer that it is a duplicate, this request has not added the event;
    after an internal error it has not added it by an operation whose reply arrived ([lost] false:
    rows count only when it did), so that only a lost reply leaves the outcome open; reports,
    feedback, moderation, administration and leaving add no row; and when any other event is
    accepted this request has added it, commands and reactions apart.  The events of the relay's
    own key and the kinds whose handlers are parameters ([OUTSIDE]) are left aside. *)
Theorem answers_are_true lost cx auth event :
  ev_pubkey event <> relay_pubkey -> mem_kind (event_kind_u32 event) OUTSIDE = false ->
  tells (adds_event cx event lost) (fair lost (event_kind_u32 event)) false (ingest_event other cx auth event).
Proof.
  intros Hpk Hin. unfold ingest_event. eapply tells_bind; [by apply tells_counting, inner_answers|].
  intros b [out steps] Hout. cbn [fst] in Hout.
  destruct (match out with Err e => sanitized_reason_for e | Ok _ => None end).
  - apply after_silent; [by apply silent_emit|done].
  - apply after_silent; [|done]. destruct (Nat.eqb steps 0); [by apply silent_emit|done].
Qed.
End system.

(** * A scenario *)

Module Replies.
Import Scenario Demo.
(** How mallory's message is answered once she has joined, the first time and the second. *)
Definition joined : World := world (served start (take 9 moves)).
Definition posted : World := world (served start (take 11 moves)).
Definition reply (w : World) : option (bool * result IngestResult IngestError) :=
  follow (adds_event cx hello true) (calm 0%N) w false (ingest_event nothing_else cx (as_ mallory) hello).
Definition says (text : string) : result IngestResult IngestError :=
  Ok (mkIngestResult (to_hex (ev_id hello)) true text).
Lemma first_reply : reply joined = Some (true, says "").
Proof. by vm_compute. Qed.
Lemma second_reply : reply posted = Some (false, says "duplicate:").
Proof. by vm_compute. Qed.
(** The insertion commits, and its reply is lost. *)
Definition dropped (o : Op) : Fault :=
  match o with
  | Store _ => mkFault true (mkEnv 100 true false true) 0 0%N false true (fun _ => conns) (fun _ => true) true (fun _ _ => true)
  | _ => calm 0%N o
  end.
Definition failed : result IngestResult IngestError :=
  Err (Internal (fmt "error: database error: {other}" [AText (db_error_text Sqlx)])).
Lemma lost_reply lost :
  follow (adds_event cx hello lost) dropped joined false (ingest_event nothing_else cx (as_ mallory) hello) =
  Some (lost, failed).
Proof. destruct lost; by vm_compute. Qed.
(** Before she has joined. *)
Lemma third_reply : reply start = Some (false, Err (Rejected (msg "restricted: not a channel member"))).
Proof. by vm_compute. Qed.
End Replies.
Import Scenario Demo Replies.

Lemma answers_are_true_witness :
  fair true 9 true (says "") /\ fair true 9 false (says "duplicate:") /\
  fair true 9 false (Err (Rejected (msg "restricted: not a channel member"))) /\
  fair true 9 true failed /\ fair false 9 false failed /\
  ~ fair true 9 false (says "") /\ ~ fair false 9 true failed.
Proof.
  assert (Hh : forall lost, tells (adds_event cx hello lost) (fair lost 9) false (ingest_event nothing_else cx (as_ mallory) hello)).
  { intros lost. refine (answers_are_true nothing_else lost cx (as_ mallory) hello _ eq_refl). intros Hpk. discriminate Hpk. }
  split; [exact (tells_follow _ _ _ _ _ _ _ _ (Hh true) first_reply)|].
  split; [exact (tells_follow _ _ _ _ _ _ _ _ (Hh true) second_reply)|].
  split; [exact (tells_follow _ _ _ _ _ _ _ _ (Hh true) third_reply)|].
  split; [exact (tells_follow _ _ _ _ _ _ _ _ (Hh true) (lost_reply true))|].
  split; [exact (tells_follow _ _ _ _ _ _ _ _ (Hh false) (lost_reply false))|].
  split; [intros Hf; discriminate (Hf eq_refl ltac:(discriminate))|intros [Hf|Hf]; discriminate Hf].
Defined.
