(* ===== verification/Acceptance.v ===== *)
(** Acceptance: a member's message gets through.

    The other side of admission: a member of a channel who is not restricted and posts a plain
    message there is answered that it was accepted, the message is in the store, and the other
    pods are told of it, whatever the other tasks do between the operations of the request as
    long as they leave the channel, the membership and the restrictions alone. *)
From S2P Require Import Prelude Programs Nostr Kinds Filters Text Json EventStore Threads Auth Envelopes Conformance Channel Membership Subscription ReadPath Delivery Moderation Relay Provenance Groups Moderators Submission Commands Ingest Effects Scenario Admission Evidence Answers.
Local Open Scope string_scope.
Local Open Scope list_scope.
Local Open Scope Z_scope.
Local Open Scope buzz_scope.

Section acceptance.
Context `{A : NostrApi} `{L : !NostrLaws A} `{U : UuidParse} `{SD : StoreDeps} `{H : HashIter} `{DG : Digest} `{K : RelayKeys} `{J : SerdeJson} `{CT : ChronoText} `{JP : !JsonParse} `{V : EventVerify}.
Context (other : OtherHandlers) (cx : Ctx) (auth : IngestAuth) (event : Event) (ch : Uuid).
Let community := cx_community cx.
Let author := auth_pubkey auth.

(** * What the message and the surroundings are *)

(** A message to the channel without a reply and without media, that its submitter has signed
    and has the scope for. *)
Record plain_message : Prop := {
  pm_kind : event_kind_u32 event = KIND_STREAM_MESSAGE;
  pm_channel : extract_channel_id event = Some ch;
  pm_no_reply : reply_targets event = None;
  pm_no_media : media_tags event = [];
  pm_author : ev_pubkey event = author;
  pm_scope : check_scope auth event = Ok tt;
  pm_token : check_token_channel_access auth ch = Ok tt;
  pm_verified : verify_event event = Ok tt;
  pm_size : (String.length (ev_content event) <= MAX_EVENT_CONTENT_BYTES)%nat;
  pm_time : from_timestamp (to_i64 (ev_created_at event)) = Some (to_i64 (ev_created_at event))
}.
(** Nothing fails, no reply is lost and the clock agrees with the message. *)
Record healthy (f : Fault) : Prop := {
  he_ok : f_ok f = true;
  he_commits : env_commits (f_env f) = true;
  he_acked : env_acked (f_env f) = true;
  he_answer : f_answer f = true;
  he_publishes : f_publishes f = true;
  he_clock : out_of_range MAX_TIMESTAMP_DRIFT_SECS event (env_now (f_env f)) = false
}.

Definition stored (w : World) : Prop :=
  exists r, db_events (w_store w) !! event_key community (to_i64 (ev_created_at event)) event = Some r.
Definition told (w : World) : Prop :=
  Published community (topic_for_subscription (Some ch)) event ∈ effects (pod_live (w_pods w (cx_pod cx))).
(** The author may post: the channel is there and not archived, the author is its member and
    the cache of the pod does not say otherwise, and there is no restriction. *)
Definition joined_in (db : ChanDb) : Prop := is_member community ch author db = true.
Record may_post (w : World) : Prop := {
  mp_member : joined_in (w_chan w);
  mp_channel : exists row, get_channel community ch (w_chan w) = Ok row /\ ch_archived_at row = None;
  mp_free : md_bans (w_mod w) !! ((community, author) : BanKey) = None;
  mp_cache : justified joined_in (pod_live (w_pods w (cx_pod cx)))
}.
(** The other tasks leave that alone, and drop neither the row nor what the pod has published. *)
#[local] Instance undisturbed : RelyGuarantee World.
Proof.
  refine {| inv := may_post; evolves := fun w w' => (stored w -> stored w') /\ (told w -> told w') |}.
  split; [by intros w; split|]. intros w1 w2 w3 [? ?] [? ?]. split; auto.
Defined.

(** * One operation *)

Section delivery.
Context (normal : Op -> Fault) (Hnormal : forall o, healthy (normal o)).
Notation gives := (delivers normal).

(** The parts of the world this request is about stay. *)
Definition same_parts (w w' : World) : Prop :=
  w_chan w' = w_chan w /\ w_store w' = w_store w /\ w_mod w' = w_mod w /\ w_pods w' = w_pods w.
Lemma same_parts_post w w' : same_parts w w' -> may_post w -> may_post w'.
Proof.
  intros (Hc & Hs & Hm & Hp) [H1 H2 H3 H4].
  split; [rewrite Hc|rewrite Hc|rewrite Hm|rewrite Hp]; assumption.
Qed.
Lemma same_parts_evolves w w' : same_parts w w' -> evolves w w'.
Proof.
  intros (Hc & Hs & Hm & Hp). split; [unfold stored; rewrite Hs|unfold told; rewrite Hp]; exact id.
Qed.

(** An operation that reads, and what it answers. *)
Lemma gives_read (o : Op) (Q : Reply o -> Prop) w :
  (forall w1, may_post w1 -> exists r w2, respond o (normal o) w1 = Some (r, w2) /\ same_parts w1 w2 /\ Q r) ->
  gives (perform o) (fun r _ => Q r) w.
Proof.
  intros Ho w1 _ Hw1. destruct (Ho w1 Hw1) as (r & w2 & Hr & Hs & HQ). exists r, w2.
  split_and!; [done|by eapply same_parts_post|by apply same_parts_evolves|by intros ? ? ?].
Qed.
Lemma gives_ask text w : gives (perform (Ask text)) (fun b _ => b = true) w.
Proof. apply gives_read. intros w1 _. eexists _, _. split; [done|]. split; [done|]. apply Hnormal. Qed.
Lemma gives_clock w :
  gives (perform Clock) (fun now _ => out_of_range MAX_TIMESTAMP_DRIFT_SECS event now = false) w.
Proof. apply gives_read. intros w1 _. eexists _, _. split; [done|]. split; [done|]. apply Hnormal. Qed.
Lemma gives_leave n w : gives (perform (Leave n)) (fun _ _ => True) w.
Proof. apply (gives_read (Leave n) (fun _ => True)). intros w1 _. by eexists _, _. Qed.
Lemma gives_chan {B : Type} (f : ChanDb -> result B DbError) (Q : B -> Prop) w : may_post w ->
  (forall w1, may_post w1 -> exists b, f (w_chan w1) = Ok b /\ Q b) ->
  gives (chan f) (ok_with (fun b _ => Q b)) w.
Proof.
  intros Hw Hf. unfold chan. apply (delivers_try _ _ _ (fun db _ => exists b, f db = Ok b /\ Q b)); [done| |].
  - eapply delivers_weaken; [apply (gives_read ReadChan
      (fun r => match r with Ok db => exists b, f db = Ok b /\ Q b | Err _ => False end))|].
    + intros w1 Hw1. eexists _, _. split; [done|]. split; [done|]. simpl. rewrite (he_ok _ (Hnormal ReadChan)). by apply Hf.
    + by intros [db|e] w1 _ _.
  - intros db w1 _ _ (b & Hb & HQ). rewrite Hb. by intros w2 _ _.
Qed.

(** The caches, publications and sockets of the pod of the request. *)
Lemma pod_post w o f d l : may_post w -> justified joined_in d ->
  effects d = effects (pod_live (w_pods w (cx_pod cx))) ++ l ->
  let w' := set_pod (cx_pod cx) (set_live d (w_pods w (cx_pod cx))) (remember o f w) in
  may_post w' /\ evolves w w'.
Proof.
  intros [H1 H2 H3 H4] Hd He w'. unfold w', evolves. simpl. split; [split|split]; simpl; try done.
  - by rewrite Nat.eqb_refl.
  - unfold told. simpl. rewrite Nat.eqb_refl. simpl. rewrite He. intros ?. by apply elem_of_app; left.
Qed.

Lemma gives_member w :
  gives (perform (CachedMember (cx_pod cx) community ch author)) (ok_with (fun b _ => b = true)) w.
Proof.
  intros w1 _ Hw1. pose proof Hw1 as [H1 _ _ H4]. unfold respond. simpl. unfold op_respond. simpl. unfold on_pod.
  rewrite (he_ok _ (Hnormal _)).
  set (d := if f_expired _ then _ else _).
  assert (Hd : justified joined_in d /\ effects d = effects (pod_live (w_pods w1 (cx_pod cx)))).
  { unfold d. destruct (f_expired _); [|done]. split; [|done]. destruct H4 as [Jm Jv]. split; [|done].
    intros k b Hk. apply Jm. eapply lookup_weaken; [exact Hk|]. apply delete_subseteq. }
  destruct Hd as [Hd He]. clearbody d.
  assert (Hb : snd (is_member_cached (Some (w_chan w1)) community ch author d) = Ok true).
  { unfold is_member_cached. cbn zeta. destruct (membership_cache d !! _) as [b|] eqn:Hc.
    - apply (jf_member _ _ Hd) in Hc as (db & Hdb & <-). simpl. by rewrite Hdb.
    - simpl. by rewrite H1. }
  destruct (is_member_cached _ _ _ _ d) as [d' r] eqn:Hr. simpl in Hb. subst r.
  destruct (is_member_cached_run joined_in (Some (w_chan w1)) community ch author d d' (Ok true))
    as (Hj & He' & _); [by intros ? [= <-]|done|done|].
  destruct (pod_post w1 (CachedMember (cx_pod cx) community ch author) (normal (CachedMember (cx_pod cx) community ch author)) d' [])
    as [Hp Hv]; [done|done|by rewrite app_nil_r, He'|].
  simpl in *. eexists (Ok true), _. split; [reflexivity|]. split; [exact Hp|]. split; [exact Hv|].
  by intros ? ? ?.
Qed.

(** What the cache of visibilities says of a channel, given its row. *)
Definition visibility_of_row (row : ChannelRow) (r : result ChannelVisibility.t DbError) : Prop :=
  match r with Ok v => v = ChannelVisibility.Private \/ v = ch_visibility row | Err _ => True end.
Lemma gives_visibility row w :
  gives (perform (CachedVisibility (cx_pod cx) community ch (Some row))) (fun r _ => visibility_of_row row r) w.
Proof.
  intros w1 _ Hw1. pose proof Hw1 as [_ _ _ H4]. unfold respond. simpl. unfold op_respond. simpl. unfold on_pod.
  set (d := if f_expired _ then _ else _).
  assert (Hd : justified joined_in d /\ effects d = effects (pod_live (w_pods w1 (cx_pod cx)))).
  { unfold d. destruct (f_expired _); [|done]. split; [|done]. destruct H4 as [Jm Jv]. split; [done|].
    intros k b Hk. apply (Jv k). eapply lookup_weaken; [exact Hk|]. apply delete_subseteq. }
  destruct Hd as [Hd He]. clearbody d.
  assert (Hr : exists d' r, channel_visibility_cached
      (if f_ok (normal (CachedVisibility (cx_pod cx) community ch (Some row))) then Some (w_chan w1) else None)
      community ch (Some row) d = (d', r) /\ justified joined_in d' /\ effects d' = effects d /\ visibility_of_row row r).
  { unfold channel_visibility_cached. cbn zeta. destruct (channel_visibility_cache d !! _) as [v|] eqn:Hc.
    - eexists _, _. split_and!; [done..|]. left. by eapply jf_visibility.
    - eexists _, _. split_and!; [done| | |by right]; case_bool_decide as Hp; [|done| |]; try done.
      destruct Hd as [Jm Jv]. split; [done|]. intros k v. simpl.
      destruct (decide (k = ((community, ch) : ChannelKey))) as [->|Hne].
      + rewrite lookup_insert_eq. by intros [= <-].
      + rewrite lookup_insert_ne by auto. apply Jv. }
  destruct Hr as (d' & r & Hr & Hj & He' & Hv).
  destruct (pod_post w1 (CachedVisibility (cx_pod cx) community ch (Some row)) (normal (CachedVisibility (cx_pod cx) community ch (Some row))) d' [])
    as [Hp Hv']; [done|done|by rewrite app_nil_r, He'|].
  simpl in *. rewrite Hr. eexists r, _. split; [reflexivity|]. split; [exact Hp|]. split; [exact Hv'|].
  by intros ? ? ?.
Qed.

(** The row of the message is there afterwards. *)
Lemma insert_row_there k r (db db' : Db) b : insert_row k r db = (db', Ok b) ->
  conforming_read_state r = false -> exists r', db_events db' !! k = Some r'.
Proof.
  unfold insert_row, guard_nip_rs_watermark. intros Hi Hc. rewrite Hc in Hi.
  destruct (db_events db !! k) as [r'|] eqn:Hk; injection Hi as <- <-; [by exists r'|].
  exists r. by apply lookup_insert_eq.
Qed.
Lemma message_inserted env db : plain_message -> env_commits env = true -> env_acked env = true ->
  exists db' out, insert_event_with_thread_metadata env community event (Some ch) None db = (db', Ok out) /\
    (exists r, db_events db' !! event_key community (to_i64 (ev_created_at event)) event = Some r) /\
    se_event out.1 = event /\ se_channel_id out.1 = Some ch.
Proof.
  intros Hm Hc Ha. pose proof (pm_kind Hm) as Hk. unfold event_kind_u32 in Hk.
  unfold insert_event_with_thread_metadata, insert_event_with_thread_metadata_tx, insert_event_row, transaction, m_bind, m_read.
  unfold storable, event_kind_u32. rewrite Hk. simpl. rewrite (pm_time Hm).
  destruct (insert_row _ _ db) as [db1 [b|e]] eqn:Hi.
  - destruct (insert_row_there _ _ _ _ _ Hi) as (r & Hr).
    { unfold conforming_read_state, new_row, event_kind_i32. simpl. rewrite Hk. by destruct (extract_d_tag event). }
    destruct b; simpl; rewrite Hc, Ha; simpl.
    + destruct (insert_mentions_only env community event (Some ch) db1) as (m & ->). simpl.
      eexists _, _. split; [done|]. split; [by exists r|done].
    + eexists _, _. split; [done|]. split; [by exists r|done].
  - exfalso. unfold insert_row, guard_nip_rs_watermark, conforming_read_state, new_row, event_kind_i32 in Hi.
    simpl in Hi. rewrite Hk in Hi. destruct (extract_d_tag event); simpl in Hi; by case_match.
Qed.
Lemma gives_insert w : plain_message ->
  gives (perform (Store (InsertWithThread community event (Some ch) None)))
    (ok_with (fun out w' => stored w' /\ se_event out.1 = event /\ se_channel_id out.1 = Some ch)) w.
Proof.
  intros Hm w1 _ Hw1. set (o := Store _). unfold respond. simpl. unfold op_respond. simpl.
  unfold on_db. rewrite (he_ok _ (Hnormal o)). simpl. unfold m_fst. simpl.
  destruct (message_inserted (f_env (normal o)) (w_store w1) Hm (he_commits _ (Hnormal o)) (he_acked _ (Hnormal o)))
    as (db' & out & Hin & Hr & Hout). rewrite Hin, (he_acked _ (Hnormal o)).
  eexists (Ok out), _. split; [done|]. split; [by destruct Hw1|]. split; [done|].
  intros w' [Hs _] _. split; [|done]. by apply Hs.
Qed.

(** Dispatch publishes the message whatever becomes of the local connections. *)
Definition has_told (d : Delivery) : Prop :=
  justified joined_in d /\ Published community (topic_for_subscription (Some ch)) event ∈ effects d.
Lemma appending_told {B : Type} (P : Effect -> Prop) (Q : B -> Prop) (m : method Delivery DbError B) d :
  appends effects (justified joined_in) P Q m -> has_told d -> has_told (fst (m d)).
Proof.
  intros Hm [Hj Ht]. destruct (Hm d Hj) as (Hj' & (l & Hl & _) & _). split; [done|]. rewrite Hl.
  apply elem_of_app. by left.
Qed.
Lemma dispatch_told env registry out threaded d :
  env_reads joined_in env -> de_publishes env = true -> justified joined_in d ->
  threaded_reads joined_in community (se_channel_id out) threaded ->
  se_event out = event -> se_channel_id out = Some ch ->
  has_told (fst (dispatch_persistent_event env registry relay_pubkey community out KIND_STREAM_MESSAGE
                   (to_hex author) threaded d)).
Proof.
  intros Henv Hpub Hj Hth He Hc. unfold dispatch_persistent_event, dispatch_persistent_event_inner.
  unfold m_bind at 1. cbn [m_modify]. unfold m_bind at 1.
  set (d0 := Delivery.emit _ d). assert (H0 : justified joined_in d0) by by apply justified_emit.
  clearbody d0. unfold m_bind at 1. unfold publish_event. rewrite Hpub.
  unfold m_bind at 1. cbn [mark_local_event m_modify]. rewrite He, Hc.
  set (d2 := Delivery.emit _ _). assert (H2 : has_told d2).
  { split; [by apply justified_emit, justified_local|]. apply elem_of_app. right. by left. }
  clearbody d2. cbn zeta.
  match goal with |- has_told (fst (let '(_, _) := ?m d2 in _)) =>
    enough (Hm : has_told (fst (m d2))) by (by destruct (m d2) as [d3 []]) end.
  apply bind_keeps; [done| |].
  { intros d3. eapply (appending_told (fun _ => True)). by apply filter_appends. }
  intros recipients d3 H3. apply bind_keeps; [done| |].
  { intros d4. apply (appending_told (fun _ => True) (fun _ => True)). by apply send_appends, Forall_true. }
  intros n d4 H4. apply bind_keeps; [done|done|]. intros [] d5 H5.
  apply bind_keeps; [done| |done]. intros d6 H6. destruct (triggers_workflows _ _ _); [|done].
  by apply (appending_told (fun _ => True) (fun _ => True)); [apply emit_appends|].
Qed.
Lemma gives_dispatch out threaded w : se_event out = event -> se_channel_id out = Some ch ->
  threaded_reads joined_in community (Some ch) threaded ->
  gives (perform (Dispatch (cx_pod cx) community out KIND_STREAM_MESSAGE (to_hex author) threaded))
    (fun _ w' => told w') w.
Proof.
  intros He Hc Hth w1 _ Hw1. pose proof Hw1 as [H1 _ _ H4]. rewrite <-Hc in Hth.
  set (o := Dispatch _ _ _ _ _ _). unfold respond. simpl. unfold op_respond. simpl. unfold on_pod.
  set (d := pod_live _). set (env := delivery_env _ _).
  assert (Henv : env_reads joined_in env).
  { split; simpl; [rewrite (he_ok _ (Hnormal o)); by intros ? [= <-]|].
    intros c db. case_match; [by intros [= <-]|done]. }
  assert (Hpub : de_publishes env = true) by apply (he_publishes _ (Hnormal o)).
  set (registry := pod_registry _).
  destruct (dispatch_appends joined_in env Henv registry relay_pubkey community out KIND_STREAM_MESSAGE
    (to_hex author) threaded Hth d H4) as (Hj & (l & Hl & _) & _).
  destruct (dispatch_told env registry out threaded d Henv Hpub H4 Hth He Hc) as [_ Ht].
  destruct (dispatch_persistent_event _ _ _ _ _ _ _ _ d) as [d' r]. simpl in *.
  destruct (pod_post w1 o (normal o) d' l Hw1 Hj Hl) as [Hp Hv].
  eexists _, _. split; [reflexivity|]. split; [exact Hp|]. split; [exact Hv|].
  intros w' [_ Hk] _. apply Hk. unfold told. simpl. by rewrite Nat.eqb_refl.
Qed.

(** * The request *)

Lemma gives_then {B C : Type} (p : prog B) (k : B -> prog C) (P : B -> World -> Prop) Q w :
  may_post w -> gives p P w ->
  (forall b w', evolves w w' -> may_post w' -> P b w' -> gives (k b) Q w') -> gives (bind p k) Q w.
Proof. intros Hw Hp Hk. apply delivers_bind; [done|]. by apply (delivers_weaken _ _ _ _ _ Hp). Qed.
Lemma gives_ok {B E : Type} (b : B) (Q : B -> World -> Prop) w :
  (forall w', evolves w w' -> Q b w') -> gives (Ret (Ok (E := E) b)) (ok_with Q) w.
Proof. intros HQ w' Hw' _. by apply HQ. Qed.

Lemma gives_authenticate w : plain_message -> may_post w ->
  gives (authenticate auth event) (ok_with (fun _ _ => True)) w.
Proof.
  intros Hm Hw. unfold authenticate. rewrite (pm_kind Hm).
  replace (check_kind auth KIND_STREAM_MESSAGE) with (Ok tt : result unit IngestError)
    by (unfold check_kind; by rewrite andb_false_r).
  cbv iota beta. eapply gives_then; [done|apply gives_ask|]. intros joined w1 _ Hw1 ->. cbn [negb].
  rewrite (pm_verified Hm). cbn [map_err Programs.try]. eapply gives_then; [done|apply gives_clock|]. intros now w2 _ _ ->.
  replace (Nat.ltb MAX_EVENT_CONTENT_BYTES _) with false
    by (symmetry; apply Nat.ltb_ge, (pm_size Hm)).
  unfold check_identity. rewrite (bool_decide_eq_true_2 _ (pm_author Hm)). simpl. rewrite (pm_scope Hm).
  by apply gives_ok.
Qed.
Lemma gives_restriction w : may_post w -> gives (check_restriction cx auth) (ok_with (fun _ _ => True)) w.
Proof.
  intros Hw. unfold check_restriction. eapply delivers_try; [done| |].
  - unfold internal_if. apply (delivers_map_err _ _ _ (fun r _ => r = mkRestriction false None)); [done| |done].
    unfold restriction_of. eapply (delivers_try _ _ _ (fun seen _ => md_bans (snd seen) !! ((community, author) : BanKey) = None)); [done| |].
    + eapply delivers_weaken; [apply (gives_read ReadMod (fun r =>
        match r with Ok seen => md_bans (snd seen) !! ((community, author) : BanKey) = None | Err _ => False end))|].
      * intros w1 Hw1. eexists _, _. split; [done|]. split; [done|]. simpl. rewrite (he_ok _ (Hnormal ReadMod)). apply Hw1.
      * by intros [seen|e] w1 _ _.
    + intros seen w1 _ _ Hseen. apply gives_ok. intros _ _. unfold restriction_state. fold community author. by rewrite Hseen.
  - intros r w1 _ _ ->. cbn [rs_banned rs_muted_until]. by apply gives_ok.
Qed.
Lemma message_channel : plain_message -> resolve_channel cx auth event = Ret (Ok (Some ch)).
Proof.
  intros Hm. unfold resolve_channel, named_channel, is_gift_wrap. rewrite (pm_kind Hm), (pm_channel Hm).
  transitivity (Programs.try (E := IngestError) (map_err AuthFailed (check_token_channel_access auth ch)) (fun _ => Ret (Ok (Some ch)))); [reflexivity|].
  by rewrite (pm_token Hm).
Qed.

(** The row of the channel, as some moment had it. *)
Definition row_read (row : ChannelRow) : Prop :=
  ch_archived_at row = None /\ exists db, joined_in db /\ get_channel community ch db = Ok row.
Lemma gives_row w : may_post w ->
  gives (read_channel cx (Some ch)) (fun r _ => exists row, r = Some row /\ row_read row) w.
Proof.
  intros Hw. unfold read_channel. eapply gives_then; [done| |].
  - eapply (gives_chan _ row_read); [done|]. intros w1 Hw1. destruct (mp_channel _ Hw1) as (row & Hr & Ha).
    exists row. split; [done|]. split; [done|]. exists (w_chan w1). split; [apply Hw1|done].
  - intros [row|e] w1 _ _ Hr; [|done]. intros w2 _ _. by exists row.
Qed.
Lemma gives_threaded row w : row_read row -> may_post w ->
  gives (thread_visibility cx (Some ch) (Some row)) (fun t _ => threaded_reads joined_in community (Some ch) t) w.
Proof.
  intros [_ (db & Hdb & Hrow)] Hw. unfold thread_visibility.
  eapply gives_then; [done|apply gives_visibility|]. intros r w1 _ _ Hr w2 _ _.
  destruct r as [v|e]; [|by intros ? [=]]. intros t [= <-] _ _ Hv. simpl in *.
  destruct Hr as [->| ->]; [done|]. exists db, row. split; [done|]. split; [|done].
  unfold get_channel in Hrow. by destruct (live_channel db _) eqn:?; simplify_eq.
Qed.
Lemma gives_membership row w : plain_message -> may_post w ->
  gives (check_membership cx auth event (Some ch) row) (ok_with (fun _ _ => True)) w.
Proof.
  intros Hm Hw. unfold check_membership. rewrite (pm_kind Hm).
  replace (mem_kind KIND_STREAM_MESSAGE SKIP_MEMBERSHIP) with false by done.
  apply (gives_then _ _ (ok_with (fun _ _ => True))); [done| |].
  - unfold check_channel_membership. eapply delivers_try; [done| |].
    + apply (delivers_map_err _ _ _ (fun b _ => b = true)); [done|apply gives_member|done].
    + intros b w1 _ _ ->. by apply gives_ok.
  - intros [[]|e] w1 _ Hw1 Hr; [|done]. eapply gives_then; [done|apply gives_leave|].
    intros u w2 _ _ _. by apply gives_ok.
Qed.

(** What the gates of other kinds say of the message. *)
Lemma message_validated row : plain_message -> row_read row ->
  validate other cx event (Some ch) (Some row) = Ret (Ok tt).
Proof.
  intros Hm [Ha _]. unfold validate, check_archived_channel, check_one_target, check_envelope.
  rewrite (pm_kind Hm), Ha. done.
Qed.
Lemma message_kept threaded : plain_message ->
  store_event other cx auth event (Some ch) threaded NotCreated =
  (await? out <- persist cx event (Some ch) None NotCreated ;;
   if snd out then after_insert other cx auth event (Some ch) None threaded (fst out)
   else done_with event true "duplicate:").
Proof.
  intros Hm. unfold store_event, check_media, thread_of, resolve_thread, check_profile.
  rewrite (pm_kind Hm), (pm_no_media Hm), (pm_no_reply Hm). done.
Qed.

(** How the message is answered: accepted, and either stored now or there already. *)
Definition accepted (r : result IngestResult IngestError) (w : World) : Prop :=
  exists text, r = Ok (mkIngestResult (to_hex (ev_id event)) true text) /\ stored w /\
    ((text = "" /\ told w) \/ text = "duplicate:").
Lemma gives_store threaded w : plain_message -> may_post w ->
  threaded_reads joined_in community (Some ch) threaded ->
  gives (store_event other cx auth event (Some ch) threaded NotCreated) accepted w.
Proof.
  intros Hm Hw Hth. rewrite (message_kept _ Hm).
  eapply (delivers_try _ _ _ (fun out w' => stored w' /\ se_event out.1 = event /\ se_channel_id out.1 = Some ch)); [done| |].
  - unfold persist. rewrite (pm_kind Hm).
    eapply gives_then; [done|by apply gives_insert|]. intros [out|e] w1 _ Hw1 Hout; [|done].
    intros w2 [Hs _] _. destruct Hout. split; [by apply Hs|done].
  - intros [out b] w1 _ Hw1 (Hs & He & Hc). cbn [fst snd] in *. destruct b.
    + unfold after_insert. rewrite (pm_kind Hm).
      replace (is_side_effect_kind KIND_STREAM_MESSAGE) with false by done.
      apply (gives_then _ _ (fun _ _ => True)); [done|by intros ? ? ?|]. intros _ w2 Hw2 Hp2 _.
      apply (gives_then _ _ (fun _ _ => True)); [done|by intros ? ? ?|]. intros _ w3 Hw3 Hp3 _.
      eapply gives_then; [done|apply gives_leave|]. intros _ w4 Hw4 Hp4 _.
      eapply gives_then; [done|by apply gives_dispatch|]. intros u w5 Hw5 Hp5 Ht w6 Hw6 _.
      exists "". split; [done|]. assert (Hall : evolves w1 w6) by by repeat (etransitivity; [eassumption|]).
      split; [by apply Hall|]. left. split; [done|]. by apply Hw6.
    + intros w2 [Hk _] _. exists "duplicate:". split; [done|]. split; [by apply Hk|by right].
Qed.
Lemma gives_complete now row threaded w : plain_message -> may_post w -> row_read row ->
  threaded_reads joined_in community (Some ch) threaded ->
  gives (Ingest.complete other cx auth event now (Some ch) (Some row) threaded) accepted w.
Proof.
  intros Hm Hw Hrow Hth. unfold Ingest.complete, check_evm, pre_create, check_join.
  rewrite (message_validated row Hm Hrow), (pm_kind Hm). by apply gives_store.
Qed.
Lemma gives_gated now w : plain_message -> may_post w -> gives (gated other cx auth event now) accepted w.
Proof.
  intros Hm Hw. unfold gated. rewrite (message_channel Hm), (pm_kind Hm).
  eapply delivers_try; [done|by apply gives_restriction|]. intros [] w1 _ Hw1 _.
  match goal with |- context [try_bind (Ret (Ok (Some ch))) ?k] =>
    change (try_bind (Ret (Ok (Some ch))) k) with (k (Some ch)); cbv beta end.
  eapply gives_then; [done|by apply gives_row|]. intros r w2 _ Hw2 (row & -> & Hrow).
  eapply gives_then; [done|by apply gives_threaded|]. intros threaded w3 _ Hw3 Hth.
  eapply delivers_try; [done|by apply gives_membership|]. intros [] w4 _ Hw4 _.
  by apply gives_complete.
Qed.
Lemma gives_inner w : plain_message -> may_post w -> gives (ingest_event_inner other cx auth event) accepted w.
Proof.
  intros Hm Hw. unfold ingest_event_inner. eapply delivers_try; [done|by apply gives_authenticate|].
  intros now w1 _ Hw1 _. unfold direct. rewrite (pm_kind Hm). by apply gives_gated.
Qed.
Lemma gives_counting {B : Type} n (p : prog B) Q w :
  gives p Q w -> gives (counting n p) (fun b w' => Q b.1 w') w.
Proof.
  revert n w. induction p as [b|o k IH]; intros n w Hp; [exact Hp|]. intros w1 Hw1 Hinv.
  destruct (Hp w1 Hw1 Hinv) as (r & w2 & Hr & H1 & H2 & H3). exists r, w2. split_and!; [done..|]. by apply IH.
Qed.

(** C6: Provided that every operation of the request succeeds and is acknowledged and its clock is
    within the drift of the event's: a plain message - signed by its submitter, within scope,
    token and size, no reply, no media - in a channel that exists and is not archived, by a
    member for whom there is no row of restrictions, on a pod whose membership cache does not
    deny the membership, is answered that it was accepted; it is then in the store, and unless
    it was there already it has been published to the other pods - whatever the other tasks do
    between the operations of the request, as long as they leave the channel, the membership,
    the restrictions and that cache so, and drop neither the row nor what was published. *)
Theorem messages_are_accepted w : plain_message -> may_post w ->
  gives (ingest_event other cx auth event) accepted w.
Proof.
  intros Hm Hw. unfold ingest_event. eapply gives_then; [done|by apply gives_counting, gives_inner|].
  intros [out steps] w1 _ Hw1 (text & Hout & Hs & Ht). cbn [fst] in Hout. subst out. cbv beta iota.
  apply (gives_then _ _ (fun _ _ => True)); [done| |].
  - destruct (Nat.eqb steps 0); [apply gives_leave|by intros ? ? ?].
  - intros u w2 Hw2 Hp2 _ w3 Hw3 _. assert (Hall : evolves w1 w3) by (by etransitivity).
    exists text. split; [done|]. split; [by apply Hall|]. destruct Ht as [[? ?]|?]; [|by right].
    left. split; [done|]. by apply Hall.
Qed.
End delivery.
End acceptance.

(** * A scenario *)
Import Scenario Demo Replies.

(** Mallory has joined the open channel and says hello. *)
Lemma hello_plain : plain_message (as_ mallory) hello 7%N.
Proof.
  split; [vm_compute; reflexivity..| |vm_compute; reflexivity].
  change (String.length _) with 5%nat. unfold MAX_EVENT_CONTENT_BYTES. lia.
Qed.
Lemma few_cached seen d k : membership_cache d = ∅ ->
  channel_visibility_cache d = {[ k := ChannelVisibility.Private ]} -> justified seen d.
Proof.
  intros Hm Hv. split; intros k' x; [rewrite Hm; by intros ?%lookup_empty_Some|].
  rewrite Hv. by intros [_ ?]%lookup_singleton_Some.
Qed.
Lemma joined_caches :
  membership_cache (pod_live (w_pods joined 0)) = ∅ /\
  channel_visibility_cache (pod_live (w_pods joined 0)) = {[ ((1%N, 8%N) : ChannelKey) := ChannelVisibility.Private ]}.
Proof. split; by vm_compute. Qed.
Lemma joined_may_post : may_post cx (as_ mallory) 7%N joined.
Proof.
  split.
  - by vm_compute.
  - assert (Hc : (match get_channel (cx_community cx) 7%N (w_chan joined) with
                 | Ok row => bool_decide (ch_archived_at row = None) | Err _ => false end) = true) by by vm_compute.
    destruct (get_channel _ _ _) as [row|e]; [|done]. exists row. split; [done|]. by apply bool_decide_eq_true in Hc.
  - by vm_compute.
  - change (cx_pod cx) with 0%nat. destruct joined_caches as [Hm Hv]. exact (few_cached _ _ _ Hm Hv).
Qed.
Lemma calm_healthy o : healthy hello (calm 0%N o).
Proof. by split. Qed.
Lemma messages_are_accepted_witness :
  delivers (G := undisturbed cx (as_ mallory) hello 7%N) (calm 0%N)
    (ingest_event nothing_else cx (as_ mallory) hello) (accepted cx hello 7%N) joined.
Proof.
  exact (messages_are_accepted nothing_else cx (as_ mallory) hello 7%N (calm 0%N) calm_healthy joined
           hello_plain joined_may_post).
Defined.
