(* ===== verification/Network.v ===== *)
(** The address classification behind outbound requests
    ([crates/buzz-core/src/network.rs]). *)
From S2P Require Import Prelude.
Local Open Scope list_scope.
Local Open Scope Z_scope.

(** [std::net::IpAddr]: the four octets, or the eight 16-bit segments. *)
Inductive IpAddr :=
| V4 (a b c d : Z)
| V6 (s0 s1 s2 s3 s4 s5 s6 s7 : Z).
#[export] Instance IpAddr_eq_dec : EqDecision IpAddr.
Proof. solve_decision. Defined.

Definition octet (x : Z) : Prop := 0 <= x < 2 ^ 8.
Definition segment (x : Z) : Prop := 0 <= x < 2 ^ 16.
Definition ip_wf (ip : IpAddr) : Prop :=
  match ip with
  | V4 a b c d => Forall octet [a; b; c; d]
  | V6 s0 s1 s2 s3 s4 s5 s6 s7 => Forall segment [s0; s1; s2; s3; s4; s5; s6; s7]
  end.

(** [Ipv4Addr::is_loopback], [is_private], [is_link_local], [is_broadcast]. *)
Definition v4_is_loopback (a : Z) : bool := a =? 127.
Definition v4_is_private (a b : Z) : bool :=
  (a =? 10) || ((a =? 172) && (16 <=? b) && (b <=? 31)) || ((a =? 192) && (b =? 168)).
Definition v4_is_link_local (a b : Z) : bool := (a =? 169) && (b =? 254).
Definition v4_is_broadcast (a b c d : Z) : bool :=
  (a =? 255) && (b =? 255) && (c =? 255) && (d =? 255).

(** [Ipv6Addr::octets]: the high and the low byte of each segment. *)
Definition octets (segments : list Z) : list Z :=
  concat (map (fun s => [s / 256; s mod 256]) segments).

(** [Ipv6Addr::to_ipv4]: an IPv4-compatible or IPv4-mapped address. *)
Definition to_ipv4 (segments : list Z) : option IpAddr :=
  match segments with
  | [0; 0; 0; 0; 0; s5; s6; s7] =>
      if (s5 =? 0) || (s5 =? 0xffff)
      then Some (V4 (s6 / 256) (s6 mod 256) (s7 / 256) (s7 mod 256)) else None
  | _ => None
  end.

Definition NAT64_WELL_KNOWN_PREFIX : list Z :=
  [0x00; 0x64; 0xff; 0x9b; 0; 0; 0; 0; 0; 0; 0; 0].
Definition IPV4_TRANSLATED_PREFIX : list Z :=
  [0; 0; 0; 0; 0; 0; 0; 0; 0xff; 0xff; 0; 0].

Definition embedded_ipv4 (octets prefix : list Z) : option IpAddr :=
  if bool_decide (take (length prefix) octets = prefix) then
    Some (V4 (nth 12 octets 0) (nth 13 octets 0) (nth 14 octets 0) (nth 15 octets 0))
  else None.

Definition is_private_v4 (a b c d : Z) : bool :=
  v4_is_loopback a || v4_is_private a b || v4_is_link_local a b || (a =? 0) ||
  v4_is_broadcast a b c d || ((a =? 100) && (Z.land b 0xC0 =? 64)) ||
  ((a =? 198) && (Z.land b 0xFE =? 18)).

(** The V6 branch calls the V4 one on the embedded address. *)
Definition is_private_embedded (v4 : IpAddr) : bool :=
  match v4 with V4 a b c d => is_private_v4 a b c d | V6 _ _ _ _ _ _ _ _ => false end.

Definition is_private_ip (ip : IpAddr) : bool :=
  match ip with
  | V4 a b c d => is_private_v4 a b c d
  | V6 s0 s1 s2 s3 s4 s5 s6 s7 =>
      let segments := [s0; s1; s2; s3; s4; s5; s6; s7] in
      match to_ipv4 segments with
      | Some v4 => is_private_embedded v4
      | None =>
          match embedded_ipv4 (octets segments) NAT64_WELL_KNOWN_PREFIX with
          | Some v4 => is_private_embedded v4
          | None =>
              match embedded_ipv4 (octets segments) IPV4_TRANSLATED_PREFIX with
              | Some v4 => is_private_embedded v4
              | None =>
                  bool_decide (segments = [0; 0; 0; 0; 0; 0; 0; 1]) ||
                  bool_decide (segments = [0; 0; 0; 0; 0; 0; 0; 0]) ||
                  (Z.land s0 0xfe00 =? 0xfc00) || (Z.land s0 0xffc0 =? 0xfe80) ||
                  (Z.land s0 0xff00 =? 0xff00) ||
                  ((s0 =? 0x0064) && (s1 =? 0xff9b) && (s2 =? 1)) ||
                  ((s0 =? 0x2001) && (s1 =? 0)) || (s0 =? 0x2002) ||
                  ((s0 =? 0x2001) && (s1 =? 0x0db8))
              end
          end
      end
  end.

(** * The blocked ranges *)

(** The address as a number of 32 or 128 bits. *)
Definition v4_value (a b c d : Z) : Z := ((a * 256 + b) * 256 + c) * 256 + d.
Definition v6_value (segments : list Z) : Z := fold_left (fun n s => n * 65536 + s) segments 0.

(** [x] is in the block of the first [len] of [width] bits of [base]. *)
Definition in_block (width : Z) (block : Z * Z) (x : Z) : bool :=
  x / 2 ^ (width - snd block) =? fst block / 2 ^ (width - snd block).

Definition blocked_v4 : list (Z * Z) :=
  [(v4_value 127 0 0 0, 8); (v4_value 10 0 0 0, 8); (v4_value 172 16 0 0, 12);
   (v4_value 192 168 0 0, 16); (v4_value 169 254 0 0, 16); (v4_value 0 0 0 0, 8);
   (v4_value 255 255 255 255, 32); (v4_value 100 64 0 0, 10); (v4_value 198 18 0 0, 15)].

(** The /96 blocks whose last 32 bits are an IPv4 address. *)
Definition embedding_v6 : list (Z * Z) :=
  [(v6_value [0; 0; 0; 0; 0; 0; 0; 0], 96); (v6_value [0; 0; 0; 0; 0; 0xffff; 0; 0], 96);
   (v6_value [0x64; 0xff9b; 0; 0; 0; 0; 0; 0], 96);
   (v6_value [0; 0; 0; 0; 0xffff; 0; 0; 0], 96)].

Definition blocked_v6 : list (Z * Z) :=
  [(v6_value [0xfc00; 0; 0; 0; 0; 0; 0; 0], 7); (v6_value [0xfe80; 0; 0; 0; 0; 0; 0; 0], 10);
   (v6_value [0xff00; 0; 0; 0; 0; 0; 0; 0], 8);
   (v6_value [0x64; 0xff9b; 1; 0; 0; 0; 0; 0], 48);
   (v6_value [0x2001; 0; 0; 0; 0; 0; 0; 0], 32); (v6_value [0x2002; 0; 0; 0; 0; 0; 0; 0], 16);
   (v6_value [0x2001; 0xdb8; 0; 0; 0; 0; 0; 0], 32)].

(** The address is in a documented range. *)
Definition blocked (ip : IpAddr) : bool :=
  match ip with
  | V4 a b c d => existsb (fun block => in_block 32 block (v4_value a b c d)) blocked_v4
  | V6 s0 s1 s2 s3 s4 s5 s6 s7 =>
      let x := v6_value [s0; s1; s2; s3; s4; s5; s6; s7] in
      (existsb (fun block => in_block 128 block x) embedding_v6 &&
       existsb (fun block => in_block 32 block (x mod 2 ^ 32)) blocked_v4) ||
      existsb (fun block => in_block 128 block x) blocked_v6
  end.

(** * Correctness *)

Fixpoint all_from (p : Z -> bool) (fuel : nat) (x : Z) : bool :=
  match fuel with
  | O => true
  | S fuel' => p x && all_from p fuel' (x + 1)
  end.

Lemma all_from_spec p fuel x y :
  all_from p fuel x = true -> x <= y < x + Z.of_nat fuel -> p y = true.
Proof.
  revert x. induction fuel as [|fuel IH]; intros x; simpl; [lia|].
  rewrite andb_true_iff. intros [Hx Hr] Hy.
  destruct (decide (y = x)) as [->|Hne]; [done|]. apply (IH (x + 1)); [done|lia].
Qed.

Lemma forallb_range (f g : Z -> bool) (n : Z) :
  all_from (fun x => Bool.eqb (f x) (g x)) (Z.to_nat n) 0 = true ->
  forall x, 0 <= x < n -> f x = g x.
Proof.
  intros H x Hx. apply eqb_prop.
  apply (all_from_spec (fun x => Bool.eqb (f x) (g x)) _ _ _ H). lia.
Qed.

Lemma land_c0 b : octet b -> (Z.land b 0xC0 =? 64) = (b / 64 =? 1).
Proof.
  apply (forallb_range (fun b => Z.land b 0xC0 =? 64) (fun b => b / 64 =? 1) (2 ^ 8)).
  vm_compute. reflexivity.
Qed.

Lemma land_fe b : octet b -> (Z.land b 0xFE =? 18) = (b / 2 =? 9).
Proof.
  apply (forallb_range (fun b => Z.land b 0xFE =? 18) (fun b => b / 2 =? 9) (2 ^ 8)).
  vm_compute. reflexivity.
Qed.

Lemma land_fe00 s : segment s -> (Z.land s 0xfe00 =? 0xfc00) = (s / 512 =? 126).
Proof.
  apply (forallb_range (fun s => Z.land s 0xfe00 =? 0xfc00) (fun s => s / 512 =? 126) (2 ^ 16)).
  vm_compute. reflexivity.
Qed.

Lemma land_ffc0 s : segment s -> (Z.land s 0xffc0 =? 0xfe80) = (s / 64 =? 1018).
Proof.
  apply (forallb_range (fun s => Z.land s 0xffc0 =? 0xfe80) (fun s => s / 64 =? 1018) (2 ^ 16)).
  vm_compute. reflexivity.
Qed.

Lemma land_ff00 s : segment s -> (Z.land s 0xff00 =? 0xff00) = (s / 256 =? 255).
Proof.
  apply (forallb_range (fun s => Z.land s 0xff00 =? 0xff00) (fun s => s / 256 =? 255) (2 ^ 16)).
  vm_compute. reflexivity.
Qed.

Ltac div_lia := unfold octet, segment in *; Z.to_euclidean_division_equations; lia.

(** The leading bits of an IPv4 address. *)
Lemma v4_prefixes a b c d :
  octet a -> octet b -> octet c -> octet d ->
  let x := v4_value a b c d in
  x / 2 ^ 24 = a /\ x / 2 ^ 16 = a * 256 + b /\ x / 2 ^ 20 = a * 16 + b / 16 /\
  x / 2 ^ 22 = a * 4 + b / 64 /\ x / 2 ^ 17 = a * 128 + b / 2 /\ x / 2 ^ 0 = x.
Proof.
  intros Ha Hb Hc Hd. unfold v4_value. cbn zeta. repeat split; div_lia.
Qed.

Ltac block_eq := apply eq_true_iff_eq; rewrite ?andb_true_iff, ?Z.eqb_eq, ?Z.leb_le; div_lia.

(** One documented block: its test on the leading bits is the code's test. *)
Lemma v4_blocks a b c d :
  octet a -> octet b -> octet c -> octet d ->
  let inb base len := in_block 32 (base, len) (v4_value a b c d) in
  inb (v4_value 127 0 0 0) 8 = v4_is_loopback a /\
  inb (v4_value 10 0 0 0) 8 = (a =? 10) /\
  inb (v4_value 172 16 0 0) 12 = ((a =? 172) && (16 <=? b) && (b <=? 31)) /\
  inb (v4_value 192 168 0 0) 16 = ((a =? 192) && (b =? 168)) /\
  inb (v4_value 169 254 0 0) 16 = v4_is_link_local a b /\
  inb (v4_value 0 0 0 0) 8 = (a =? 0) /\
  inb (v4_value 255 255 255 255) 32 = v4_is_broadcast a b c d /\
  inb (v4_value 100 64 0 0) 10 = ((a =? 100) && (Z.land b 0xC0 =? 64)) /\
  inb (v4_value 198 18 0 0) 15 = ((a =? 198) && (Z.land b 0xFE =? 18)).
Proof.
  intros Ha Hb Hc Hd.
  destruct (v4_prefixes a b c d Ha Hb Hc Hd) as (H24 & H16 & H20 & H22 & H17 & H0).
  rewrite land_c0, land_fe by done. unfold in_block. cbn [fst snd]. cbn zeta.
  change (32 - 8) with 24. change (32 - 12) with 20. change (32 - 16) with 16.
  change (32 - 10) with 22. change (32 - 15) with 17. change (32 - 32) with 0.
  rewrite H24, H20, H16, H22, H17, H0.
  unfold v4_is_loopback, v4_is_link_local, v4_is_broadcast.
  split_and!.
  - reflexivity.
  - reflexivity.
  - change (v4_value 172 16 0 0 / 2 ^ 20) with (172 * 16 + 1). block_eq.
  - change (v4_value 192 168 0 0 / 2 ^ 16) with (192 * 256 + 168). block_eq.
  - change (v4_value 169 254 0 0 / 2 ^ 16) with (169 * 256 + 254). block_eq.
  - reflexivity.
  - change (v4_value 255 255 255 255 / 2 ^ 0) with (((255 * 256 + 255) * 256 + 255) * 256 + 255).
    unfold v4_value. block_eq.
  - change (v4_value 100 64 0 0 / 2 ^ 22) with (100 * 4 + 1). block_eq.
  - change (v4_value 198 18 0 0 / 2 ^ 17) with (198 * 128 + 9). block_eq.
Qed.

Lemma is_private_v4_spec a b c d :
  octet a -> octet b -> octet c -> octet d ->
  is_private_v4 a b c d =
  existsb (fun block => in_block 32 block (v4_value a b c d)) blocked_v4.
Proof.
  intros Ha Hb Hc Hd.
  destruct (v4_blocks a b c d Ha Hb Hc Hd) as (H1 & H2 & H3 & H4 & H5 & H6 & H7 & H8 & H9).
  unfold blocked_v4. cbn [existsb]. rewrite H1, H2, H3, H4, H5, H6, H7, H8, H9.
  unfold is_private_v4, v4_is_private. by rewrite orb_false_r, !orb_assoc.
Qed.

(** The leading and the trailing bits of an IPv6 address. *)
Lemma v6_prefixes s0 s1 s2 s3 s4 s5 s6 s7 :
  Forall segment [s0; s1; s2; s3; s4; s5; s6; s7] ->
  let x := v6_value [s0; s1; s2; s3; s4; s5; s6; s7] in
  x / 2 ^ 121 = s0 / 512 /\ x / 2 ^ 118 = s0 / 64 /\ x / 2 ^ 120 = s0 / 256 /\
  x / 2 ^ 112 = s0 /\ x / 2 ^ 96 = v6_value [s0; s1] /\ x / 2 ^ 80 = v6_value [s0; s1; s2] /\
  x / 2 ^ 32 = v6_value [s0; s1; s2; s3; s4; s5] /\ x mod 2 ^ 32 = s6 * 65536 + s7.
Proof.
  rewrite !Forall_cons. intros (H0 & H1 & H2 & H3 & H4 & H5 & H6 & H7 & _).
  unfold segment in *. cbn zeta.
  assert (0 <= v6_value [s1; s2; s3; s4; s5; s6; s7] < 2 ^ 112) as Hr
    by (unfold v6_value; simpl fold_left; lia).
  assert (v6_value [s0; s1; s2; s3; s4; s5; s6; s7] =
          s0 * 2 ^ 112 + v6_value [s1; s2; s3; s4; s5; s6; s7]) as Hx
    by (unfold v6_value; simpl fold_left; lia).
  split_and!; try (rewrite Hx; clear Hx; generalize dependent (v6_value [s1; s2; s3; s4; s5; s6; s7]);
    intros r Hr; clear -H0 Hr; div_lia); clear Hr Hx; unfold v6_value; simpl fold_left; div_lia.
Qed.

Lemma embedded_value s6 s7 :
  segment s6 -> segment s7 ->
  v4_value (s6 / 256) (s6 mod 256) (s7 / 256) (s7 mod 256) = s6 * 65536 + s7.
Proof. intros H6 H7. unfold v4_value. div_lia. Qed.

Lemma is_private_embedded_spec s6 s7 :
  segment s6 -> segment s7 ->
  is_private_embedded (V4 (s6 / 256) (s6 mod 256) (s7 / 256) (s7 mod 256)) =
  existsb (fun block => in_block 32 block (s6 * 65536 + s7)) blocked_v4.
Proof.
  intros H6 H7. unfold is_private_embedded. rewrite is_private_v4_spec by div_lia.
  by rewrite embedded_value.
Qed.

(** The twelve leading octets are those of six segments. *)
Lemma octets_prefix s0 s1 s2 s3 s4 s5 s6 s7 p0 p1 p2 p3 p4 p5 :
  Forall segment [s0; s1; s2; s3; s4; s5; s6; s7] -> Forall segment [p0; p1; p2; p3; p4; p5] ->
  embedded_ipv4 (octets [s0; s1; s2; s3; s4; s5; s6; s7]) (octets [p0; p1; p2; p3; p4; p5]) =
  if bool_decide ([s0; s1; s2; s3; s4; s5] = [p0; p1; p2; p3; p4; p5]) then
    Some (V4 (s6 / 256) (s6 mod 256) (s7 / 256) (s7 mod 256)) else None.
Proof.
  intros Hs Hp. unfold embedded_ipv4. cbn [octets concat map app length take nth].
  rewrite !Forall_cons in Hs, Hp.
  assert (forall s p, segment s -> segment p -> s / 256 = p / 256 -> s mod 256 = p mod 256 -> s = p)
    as Hinj by (intros; div_lia).
  case_bool_decide as H1; case_bool_decide as H2; try done; exfalso.
  - apply H2. injection H1 as ? ? ? ? ? ? ? ? ? ? ? ?.
    destruct_and!. repeat f_equal; by apply Hinj.
  - apply H1. injection H2 as -> -> -> -> -> ->. done.
Qed.

Lemma v6_value_inj s0 s1 s2 s3 s4 s5 p0 p1 p2 p3 p4 p5 :
  Forall segment [s0; s1; s2; s3; s4; s5] -> Forall segment [p0; p1; p2; p3; p4; p5] ->
  (v6_value [s0; s1; s2; s3; s4; s5] =? v6_value [p0; p1; p2; p3; p4; p5]) =
  bool_decide ([s0; s1; s2; s3; s4; s5] = [p0; p1; p2; p3; p4; p5]).
Proof.
  intros Hs Hp. rewrite !Forall_cons in Hs, Hp. unfold segment in *.
  apply eq_true_iff_eq. rewrite Z.eqb_eq, bool_decide_eq_true.
  unfold v6_value. simpl fold_left. split.
  - intros H. repeat f_equal; lia.
  - intros H. injection H as -> -> -> -> -> ->. done.
Qed.

Definition embedding_prefixes : list (list Z) :=
  [[0; 0; 0; 0; 0; 0]; [0; 0; 0; 0; 0; 0xffff]; [0x64; 0xff9b; 0; 0; 0; 0];
   [0; 0; 0; 0; 0xffff; 0]].

Lemma to_ipv4_spec s0 s1 s2 s3 s4 s5 s6 s7 :
  to_ipv4 [s0; s1; s2; s3; s4; s5; s6; s7] =
  if bool_decide ([s0; s1; s2; s3; s4; s5] = [0; 0; 0; 0; 0; 0]) ||
     bool_decide ([s0; s1; s2; s3; s4; s5] = [0; 0; 0; 0; 0; 0xffff])
  then Some (V4 (s6 / 256) (s6 mod 256) (s7 / 256) (s7 mod 256)) else None.
Proof.
  unfold to_ipv4. destruct s0; try done. destruct s1; try done. destruct s2; try done.
  destruct s3; try done. destruct s4; try done.
  assert (forall p, bool_decide ([0; 0; 0; 0; 0; s5] = [0; 0; 0; 0; 0; p]) = (s5 =? p)) as Hs.
  { intros p. apply eq_true_iff_eq. rewrite Z.eqb_eq, bool_decide_eq_true. naive_solver. }
  by rewrite !Hs.
Qed.

(** The V6 branch as one test on the six leading segments. *)
Lemma is_private_v6_eq s0 s1 s2 s3 s4 s5 s6 s7 :
  Forall segment [s0; s1; s2; s3; s4; s5; s6; s7] ->
  is_private_ip (V6 s0 s1 s2 s3 s4 s5 s6 s7) =
  if existsb (fun p => bool_decide ([s0; s1; s2; s3; s4; s5] = p)) embedding_prefixes then
    is_private_embedded (V4 (s6 / 256) (s6 mod 256) (s7 / 256) (s7 mod 256))
  else
    (s0 / 512 =? 126) || (s0 / 64 =? 1018) || (s0 / 256 =? 255) ||
    ((s0 =? 0x0064) && (s1 =? 0xff9b) && (s2 =? 1)) ||
    ((s0 =? 0x2001) && (s1 =? 0)) || (s0 =? 0x2002) || ((s0 =? 0x2001) && (s1 =? 0x0db8)).
Proof.
  intros Hs. unfold is_private_ip. rewrite to_ipv4_spec.
  change NAT64_WELL_KNOWN_PREFIX with (octets [0x64; 0xff9b; 0; 0; 0; 0]).
  change IPV4_TRANSLATED_PREFIX with (octets [0; 0; 0; 0; 0xffff; 0]).
  rewrite !octets_prefix by (done || (repeat constructor; done)).
  unfold embedding_prefixes. cbn [existsb]. rewrite orb_false_r.
  destruct (bool_decide (_ = [0; 0; 0; 0; 0; 0])) eqn:E1; [done|].
  destruct (bool_decide (_ = [0; 0; 0; 0; 0; 0xffff])); [done|].
  destruct (bool_decide (_ = [0x64; 0xff9b; 0; 0; 0; 0])); [done|].
  destruct (bool_decide (_ = [0; 0; 0; 0; 0xffff; 0])); [done|]. cbn [orb].
  apply bool_decide_eq_false in E1.
  rewrite !bool_decide_eq_false_2 by (intros [=]; subst; by apply E1).
  apply Forall_cons in Hs as [H0 _].
  by rewrite land_fe00, land_ffc0, land_ff00.
Qed.

(** The remaining IPv6 tests, as the blocks they are. *)
Lemma v6_blocks s0 s1 s2 s3 s4 s5 s6 s7 :
  Forall segment [s0; s1; s2; s3; s4; s5; s6; s7] ->
  existsb (fun block => in_block 128 block (v6_value [s0; s1; s2; s3; s4; s5; s6; s7])) blocked_v6 =
  (s0 / 512 =? 126) || (s0 / 64 =? 1018) || (s0 / 256 =? 255) ||
  ((s0 =? 0x0064) && (s1 =? 0xff9b) && (s2 =? 1)) ||
  ((s0 =? 0x2001) && (s1 =? 0)) || (s0 =? 0x2002) || ((s0 =? 0x2001) && (s1 =? 0x0db8)).
Proof.
  intros Hs.
  destruct (v6_prefixes _ _ _ _ _ _ _ _ Hs) as (P7 & P10 & P8 & P16 & P32 & P48 & _ & _).
  rewrite !Forall_cons in Hs. destruct Hs as (H0 & H1 & H2 & _). unfold segment in *.
  unfold blocked_v6, in_block. cbn [existsb fst snd].
  change (128 - 7) with 121. change (128 - 10) with 118. change (128 - 8) with 120.
  change (128 - 48) with 80. change (128 - 32) with 96. change (128 - 16) with 112.
  rewrite P7, P10, P8, P16, P32, P48, orb_false_r, !orb_assoc.
  repeat f_equal; apply eq_true_iff_eq; rewrite ?andb_true_iff, !Z.eqb_eq.
  - change (v6_value [100; 65435; 1; 0; 0; 0; 0; 0] / 2 ^ 80) with (v6_value [100; 65435; 1]).
    unfold v6_value. simpl fold_left. lia.
  - change (v6_value [8193; 0; 0; 0; 0; 0; 0; 0] / 2 ^ 96) with (v6_value [8193; 0]).
    unfold v6_value. simpl fold_left. lia.
  - change (v6_value [8193; 3512; 0; 0; 0; 0; 0; 0] / 2 ^ 96) with (v6_value [8193; 3512]).
    unfold v6_value. simpl fold_left. lia.
Qed.

Lemma v6_embeddings s0 s1 s2 s3 s4 s5 s6 s7 :
  Forall segment [s0; s1; s2; s3; s4; s5; s6; s7] ->
  existsb (fun block => in_block 128 block (v6_value [s0; s1; s2; s3; s4; s5; s6; s7])) embedding_v6 =
  existsb (fun p => bool_decide ([s0; s1; s2; s3; s4; s5] = p)) embedding_prefixes.
Proof.
  intros Hs. destruct (v6_prefixes _ _ _ _ _ _ _ _ Hs) as (_ & _ & _ & _ & _ & _ & P96 & _).
  assert (Forall segment [s0; s1; s2; s3; s4; s5]) as Hp
    by (rewrite !Forall_cons in *; tauto).
  unfold embedding_v6, embedding_prefixes, in_block. cbn [existsb fst snd].
  change (128 - 96) with 32. rewrite P96.
  rewrite <-!v6_value_inj by (done || (repeat constructor; done)). reflexivity.
Qed.

(** The classifier accepts exactly the addresses outside the documented blocks: an IPv4
    address by its 32 bits, an IPv6 address by its 128 bits, where the four embeddings of
    IPv4 are judged by their last 32 bits. *)
Theorem is_private_ip_spec ip (Hwf : ip_wf ip) : is_private_ip ip = blocked ip.
Proof.
  destruct ip as [a b c d|s0 s1 s2 s3 s4 s5 s6 s7].
  - unfold ip_wf in Hwf. rewrite !Forall_cons in Hwf. destruct_and!. by apply is_private_v4_spec.
  - unfold ip_wf in Hwf. rewrite is_private_v6_eq by done. unfold blocked. cbn zeta.
    rewrite v6_embeddings, v6_blocks by done.
    destruct (v6_prefixes _ _ _ _ _ _ _ _ Hwf) as (_ & _ & _ & _ & _ & _ & _ & ->).
    rewrite !Forall_cons in Hwf. destruct_and!. rewrite is_private_embedded_spec by done.
    destruct (existsb _ embedding_prefixes) eqn:He; [|done]. cbn [andb].
    apply existsb_exists in He as (p & Hp & Hd%bool_decide_eq_true).
    assert (forall b : bool, b = false -> forall x : bool, x = x || b) as Hor
      by (intros ? -> x; by rewrite orb_false_r).
    apply Hor. unfold embedding_prefixes in Hp.
    repeat (destruct Hp as [<-|Hp]; [injection Hd as -> -> -> -> -> ->; reflexivity|]). done.
Qed.

(** 10.1.2.3 embedded by NAT64 is rejected and the resolver 8.8.8.8 accepted. *)
Lemma is_private_ip_spec_witness :
  blocked (V6 0x64 0xff9b 0 0 0 0 0x0a01 0x0203) = true /\ blocked (V4 8 8 8 8) = false.
Proof.
  rewrite <-(is_private_ip_spec (V6 0x64 0xff9b 0 0 0 0 0x0a01 0x0203))
    by (repeat constructor; discriminate).
  rewrite <-(is_private_ip_spec (V4 8 8 8 8)) by (repeat constructor; discriminate).
  split; vm_compute; reflexivity.
Defined.

(** Multicast and the reserved class E pass the IPv4 test. *)
Lemma multicast_v4_allowed : is_private_ip (V4 224 0 0 1) = false /\ is_private_ip (V4 240 0 0 1) = false.
Proof. done. Qed.
