(* ===== verification/Fence.v ===== *)
(** The replica freshness fence ([crates/buzz-db/src/replica_fence.rs]) and the routing of
    reads it gates ([route_read] and its callers in [crates/buzz-db/src/lib.rs]).

    The writer database is a log of commits; a reader session sees a prefix of it.
    Transactions, the probes of several relay pods and heartbeat updates interleave freely.
    Wall-clock instants and [Instant]s are microseconds. *)
From S2P Require Import Prelude Nostr.
Local Open Scope string_scope.
Local Open Scope list_scope.
Local Open Scope Z_scope.

Definition SECOND : Z := 1000000.
Definition CREATED_AT_FLOOR_SECS : Z := 960.
Definition FENCE_CLOCK_MARGIN_SECS : Z := 5.
(** [Duration]s, in microseconds *)
Definition FENCE_STALENESS : Z := 30 * SECOND.
Definition RING_CAPACITY : nat := 120.

(** * The fence *)

Record TokenEntry := mkEntry {
  token : Z;
  committed_at : Z;
  fence_wall_at : Z
}.

Record ReplicaFence := mkFence {
  epoch : option Uuid;
  ring : list TokenEntry
}.

Inductive RecordOutcome := Recorded | TokenRegression.
Inductive ResolveOutcome := Proved (e : TokenEntry) | EpochMismatch | TokenBehind.

Definition new_fence : ReplicaFence := mkFence None [].

Definition close (f : ReplicaFence) : ReplicaFence := mkFence (epoch f) [].

Definition push_back (r : list TokenEntry) (e : TokenEntry) : list TokenEntry :=
  (if (length r =? RING_CAPACITY)%nat then tail r else r) ++ [e].

Definition record (f : ReplicaFence) (tok : Z) (ep : Uuid) (at_ wall : Z)
  : ReplicaFence * RecordOutcome :=
  let entry := mkEntry tok at_ wall in
  if negb (bool_decide (epoch f = Some ep)) then (mkFence (Some ep) (push_back [] entry), Recorded)
  else
    match last (ring f) with
    | Some l =>
        if tok <=? token l then (mkFence (epoch f) [], TokenRegression)
        else (mkFence (epoch f) (push_back (ring f) entry), Recorded)
    | None => (mkFence (epoch f) (push_back (ring f) entry), Recorded)
    end.

Definition resolve (f : ReplicaFence) (observed_token : Z) (observed_epoch : Uuid) : ResolveOutcome :=
  let find :=
    match List.find (fun e => token e <=? observed_token) (rev (ring f)) with
    | Some e => Proved e
    | None => TokenBehind
    end in
  match epoch f with
  | Some e => if (e =? observed_epoch)%N then find else EpochMismatch
  | None => find
  end.

(** [now] is the [Instant] at which [elapsed] is called; it saturates at zero. *)
Definition elapsed (now at_ : Z) : Z := Z.max 0 (now - at_).

Definition newest (now : Z) (f : ReplicaFence) : option TokenEntry :=
  match last (ring f) with
  | Some e => if elapsed now (committed_at e) <=? FENCE_STALENESS then Some e else None
  | None => None
  end.

Definition heartbeat_age (now : Z) (f : ReplicaFence) : option Z :=
  (fun e => elapsed now (committed_at e)) <$> last (ring f).

Definition verified_through (now : Z) (f : ReplicaFence) : option Z :=
  fence_wall_at <$> newest now f.

Definition covers (now : Z) (f : ReplicaFence) (ts : Z) : bool :=
  match verified_through now f with Some fence => ts <=? fence | None => false end.

Definition fence_wall (sample_s : Z) (oldest_xact_start : option Z) : Z :=
  let lower :=
    match oldest_xact_start with
    | Some oldest => Z.min oldest sample_s
    | None => sample_s
    end in
  lower - CREATED_AT_FLOOR_SECS * SECOND - FENCE_CLOCK_MARGIN_SECS * SECOND.

(** * The activity scan *)

(** A row of [pg_stat_activity] for another backend. *)
Record Activity := mkActivity {
  backend_type : option string;
  state : option string;
  xact_start : option Z
}.

Definition is_masked (a : Activity) : bool :=
  match backend_type a with
  | None => true
  | Some t =>
      String.eqb t "client backend" &&
      match state a, xact_start a with
      | None, _ => true
      | Some s, None => negb (String.eqb s "idle")
      | Some _, Some _ => false
      end
  end.

(** SQL's [min] and [least]: absent values are ignored. *)
Definition sql_least (a b : option Z) : option Z :=
  match a, b with
  | Some x, Some y => Some (Z.min x y)
  | Some x, None => Some x
  | None, _ => b
  end.
Definition sql_min (l : list (option Z)) : option Z := fold_right sql_least None l.

(** [None]: [ProbeError::MaskedActivity]. *)
Definition activity_scan (activity : list Activity) (prepared : list Z) : option (option Z) :=
  if existsb is_masked activity then None
  else Some (sql_least (sql_min (map xact_start activity)) (sql_min (map Some prepared))).

(** * The cluster *)

(** A row of [events], as far as the fence is concerned. *)
Record Row := mkRow {
  created_at : Z;
  event_id : N;
  channel : option Uuid
}.

(** The guard of migration 0021 at clock [g]. *)
Definition floor_guard (g : Z) (r : Row) : bool :=
  match channel r with
  | None => true
  | Some _ => g - CREATED_AT_FLOOR_SECS * SECOND <=? created_at r
  end.

(** One commit: a transaction's rows and the [Instant] of the commit, or a heartbeat. *)
Inductive LogEntry :=
| Rows (rows : list Row) (instant : Z)
| Beat (token : Z) (epoch : Uuid).

(** A transaction: open, past its deferred guard (at clock [g], with its rows), or ended but
    still listed as open. *)
Inductive TxnState := Running | Guarded (g : Z) (rows : list Row) | Ended.
Record Txn := mkTxn { started : Z; txn_state : TxnState }.

(** The position of a pod in [probe_once]. *)
Inductive ProbePhase :=
| Idle
| Clocked (sampled_at : Z)
| Scanned (wall : Z)
| Stamped (rotate : bool) (wall at_ : Z)
| Beaten (rotate : bool) (wall at_ tok : Z) (ep : Uuid)
| Regressed (wall : Z).

Record Pod := mkPod { fence : ReplicaFence; phase : ProbePhase }.

Record Cluster := mkCluster {
  clock : Z;
  instant : Z;
  log : list LogEntry;
  txns : gmap nat Txn;
  prepared : gmap nat (Z * Z * list Row);
  pods : gmap nat Pod
}.

(** The single row of [replica_heartbeat] after a log. *)
Fixpoint heartbeat_from (current : option (Z * Uuid)) (l : list LogEntry) : option (Z * Uuid) :=
  match l with
  | [] => current
  | Beat t e :: l' => heartbeat_from (Some (t, e)) l'
  | Rows _ _ :: l' => heartbeat_from current l'
  end.
Definition heartbeat (l : list LogEntry) : option (Z * Uuid) := heartbeat_from None l.

(** What the activity view may show of the open transactions: each has a row with its start,
    or one the view masks. *)
Definition shows (activity : list Activity) (ts : gmap nat Txn) : Prop :=
  forall b t, ts !! b = Some t ->
    exists a, a ∈ activity /\ (xact_start a = Some (started t) \/ is_masked a = true).

Definition set_txn (b : nat) (t : Txn) (c : Cluster) : Cluster :=
  mkCluster (clock c) (instant c) (log c) (<[b := t]> (txns c)) (prepared c) (pods c).
Definition set_pod (n : nat) (p : Pod) (c : Cluster) : Cluster :=
  mkCluster (clock c) (instant c) (log c) (txns c) (prepared c) (<[n := p]> (pods c)).
Definition append (e : LogEntry) (c : Cluster) : Cluster :=
  mkCluster (clock c) (instant c) (log c ++ [e]) (txns c) (prepared c) (pods c).

(** What [record]'s outcome makes of a probe. *)
Definition after_record (rotate : bool) (wall : Z) (r : ReplicaFence * RecordOutcome) : Pod :=
  match r with
  | (f, TokenRegression) => mkPod f (if rotate then Idle else Regressed wall)
  | (f, Recorded) => mkPod f Idle
  end.

Definition fresh_epoch (ep : Uuid) (c : Cluster) : Prop := forall t, Beat t ep ∉ log c.

(** A prepared transaction's guard ran less than the clock margin before the [prepared]
    timestamp. *)
Inductive step : Cluster -> Cluster -> Prop :=
(* time *)
| clocks_advance c clock' instant' :
    clock c <= clock' -> instant c <= instant' ->
    step c (mkCluster clock' instant' (log c) (txns c) (prepared c) (pods c))
(* transactions *)
| txn_begins b c : txns c !! b = None -> step c (set_txn b (mkTxn (clock c) Running) c)
| txn_guarded b t rows c :
    txns c !! b = Some t -> txn_state t = Running ->
    forallb (floor_guard (clock c)) rows = true ->
    step c (set_txn b (mkTxn (started t) (Guarded (clock c) rows)) c)
| txn_commits b t g rows c :
    txns c !! b = Some t -> txn_state t = Guarded g rows ->
    step c (append (Rows rows (instant c)) (set_txn b (mkTxn (started t) Ended) c))
| txn_leaves b c :
    step c (mkCluster (clock c) (instant c) (log c) (delete b (txns c)) (prepared c) (pods c))
| txn_prepares b t g rows x c :
    txns c !! b = Some t -> txn_state t = Guarded g rows -> prepared c !! x = None ->
    clock c - g < FENCE_CLOCK_MARGIN_SECS * SECOND ->
    step c (mkCluster (clock c) (instant c) (log c) (delete b (txns c))
              (<[x := (clock c, g, rows)]> (prepared c)) (pods c))
| prepared_commits x p g rows c :
    prepared c !! x = Some (p, g, rows) ->
    step c (append (Rows rows (instant c))
              (mkCluster (clock c) (instant c) (log c) (txns c) (delete x (prepared c)) (pods c)))
| prepared_aborts x c :
    step c (mkCluster (clock c) (instant c) (log c) (txns c) (delete x (prepared c)) (pods c))
(* the operator re-seeds the heartbeat row *)
| reseeded tok ep c : fresh_epoch ep c -> step c (append (Beat tok ep) c)
(* a pod's probe, statement by statement *)
| probe_clock n f c :
    pods c !! n = Some (mkPod f Idle) -> step c (set_pod n (mkPod f (Clocked (clock c))) c)
| probe_scan n f s activity oldest c :
    pods c !! n = Some (mkPod f (Clocked s)) -> shows activity (txns c) ->
    activity_scan activity (map (fun kv => kv.2.1.1) (map_to_list (prepared c))) = Some oldest ->
    step c (set_pod n (mkPod f (Scanned (fence_wall s oldest))) c)
| probe_stamp n f wall c :
    pods c !! n = Some (mkPod f (Scanned wall)) ->
    step c (set_pod n (mkPod f (Stamped false wall (instant c))) c)
| probe_beat n f wall at_ tok ep c :
    pods c !! n = Some (mkPod f (Stamped false wall at_)) -> heartbeat (log c) = Some (tok, ep) ->
    step c (append (Beat (tok + 1) ep) (set_pod n (mkPod f (Beaten false wall at_ (tok + 1) ep)) c))
| probe_record n f rotate wall at_ tok ep c :
    pods c !! n = Some (mkPod f (Beaten rotate wall at_ tok ep)) ->
    step c (set_pod n (after_record rotate wall (record f tok ep at_ wall)) c)
| probe_stamp_rotation n f wall c :
    pods c !! n = Some (mkPod f (Regressed wall)) ->
    step c (set_pod n (mkPod f (Stamped true wall (instant c))) c)
| probe_rotate n f wall at_ tok ep ep' c :
    pods c !! n = Some (mkPod f (Stamped true wall at_)) -> heartbeat (log c) = Some (tok, ep) ->
    fresh_epoch ep' c ->
    step c (append (Beat (tok + 1) ep') (set_pod n (mkPod f (Beaten true wall at_ (tok + 1) ep')) c))
(* an error at any await, also when the heartbeat committed *)
| probe_fails n p c :
    pods c !! n = Some p -> step c (set_pod n (mkPod (close (fence p)) Idle) c)
| pod_starts n c : step c (set_pod n (mkPod new_fence Idle) c).

Definition initial (t0 : Z) (ep : Uuid) : Cluster := mkCluster t0 0 [Beat 0 ep] ∅ ∅ ∅.

Definition reachable (c : Cluster) : Prop := exists t0 ep, rtc step (initial t0 ep) c.

(** * The proof *)

(** Every channel row is above the wall. *)
Definition above (wall : Z) (rows : list Row) : Prop :=
  Forall (fun r => is_Some (channel r) -> wall < created_at r) rows.

Definition FLOOR : Z := CREATED_AT_FLOOR_SECS * SECOND.
Definition MARGIN : Z := FENCE_CLOCK_MARGIN_SECS * SECOND.

(** Rows that passed the guard and may still commit. *)
Definition pending (c : Cluster) (rows : list Row) : Prop :=
  (exists b t g, txns c !! b = Some t /\ txn_state t = Guarded g rows) \/
  (exists x p g, prepared c !! x = Some (p, g, rows)).

(** No transaction that can still commit has a channel row at or below the wall. *)
Record barrier (c : Cluster) (wall : Z) : Prop := {
  barrier_clock : wall < clock c - FLOOR;
  barrier_pending rows : pending c rows -> above wall rows
}.

(** Commits from position [i] on are above the wall, and not before the instant [at_]. *)
Record sealed (c : Cluster) (i : nat) (wall at_ : Z) : Prop := {
  sealed_barrier : barrier c wall;
  sealed_instant : at_ <= instant c;
  sealed_log k rows t : (i <= k)%nat -> log c !! k = Some (Rows rows t) -> above wall rows /\ at_ <= t
}.

(** The guard's effect on open and prepared transactions. *)
Definition txn_ok (c : Cluster) (t : Txn) : Prop :=
  started t <= clock c /\
  match txn_state t with
  | Guarded g rows => started t <= g <= clock c /\ forallb (floor_guard g) rows = true
  | _ => True
  end.
Definition prepared_ok (c : Cluster) (x : Z * Z * list Row) : Prop :=
  let '(p, g, rows) := x in
  g <= p <= clock c /\ p < g + MARGIN /\ forallb (floor_guard g) rows = true.

(** The heartbeat of position [i]. *)
Definition beats (c : Cluster) (i : nat) (tok : Z) (ep : Uuid) : Prop := log c !! i = Some (Beat tok ep).

(** Tokens of one epoch increase along the log. *)
Definition tokens_increase (l : list LogEntry) : Prop :=
  forall i j ep t u, (i < j)%nat -> l !! i = Some (Beat t ep) -> l !! j = Some (Beat u ep) -> t < u.

Definition entry_ok (c : Cluster) (ep : option Uuid) (e : TokenEntry) : Prop :=
  exists i e0, ep = Some e0 /\ beats c i (token e) e0 /\
    sealed c i (fence_wall_at e) (committed_at e).

Definition phase_ok (c : Cluster) (f : ReplicaFence) (ph : ProbePhase) : Prop :=
  match ph with
  | Idle => True
  | Clocked s => s <= clock c
  | Scanned wall | Regressed wall => barrier c wall
  | Stamped _ wall at_ => barrier c wall /\ at_ <= instant c
  | Beaten _ wall at_ tok ep =>
      (exists i, beats c i tok ep /\ sealed c i wall at_) /\
      (epoch f = Some ep -> Forall (fun e => token e < tok) (ring f))
  end.

Definition pod_ok (c : Cluster) (p : Pod) : Prop :=
  Forall (entry_ok c (epoch (fence p))) (ring (fence p)) /\ phase_ok c (fence p) (phase p).

Record invariant (c : Cluster) : Prop := {
  inv_txns b t : txns c !! b = Some t -> txn_ok c t;
  inv_prepared x p : prepared c !! x = Some p -> prepared_ok c p;
  inv_tokens : tokens_increase (log c);
  inv_pods n p : pods c !! n = Some p -> pod_ok c p
}.

Lemma guarded_above g wall rows :
  forallb (floor_guard g) rows = true -> wall < g - FLOOR -> above wall rows.
Proof.
  intros Hg Hw. apply Forall_forall. intros r Hr [ch Hch].
  rewrite forallb_forall in Hg. specialize (Hg r). rewrite <-list_elem_of_In in Hg.
  specialize (Hg Hr). unfold floor_guard in Hg. rewrite Hch in Hg. apply Z.leb_le in Hg.
  unfold FLOOR in *. lia.
Qed.

(** ** The scan *)

Lemma sql_least_le a b x :
  a = Some x \/ b = Some x -> exists m, sql_least a b = Some m /\ m <= x.
Proof.
  intros [->| ->].
  - destruct b as [y|]; simpl; eexists; split; [done|lia|done|lia].
  - destruct a as [y|]; simpl; eexists; split; [done|lia|done|lia].
Qed.

Lemma sql_min_le l x : Some x ∈ l -> exists m, sql_min l = Some m /\ m <= x.
Proof.
  induction l as [|a l IH]; [by intros ?%elem_of_nil|]. intros [<-|Hx]%elem_of_cons.
  - apply sql_least_le. by left.
  - destruct (IH Hx) as (m & Hm & Hle).
    destruct (sql_least_le a (sql_min l) m) as (m' & Hm' & Hle'); [by right|].
    exists m'. split; [done|lia].
Qed.

Lemma fence_wall_oldest s oldest x :
  oldest = Some x -> fence_wall s oldest <= x - FLOOR - MARGIN.
Proof. intros ->. unfold fence_wall, FLOOR, MARGIN. lia. Qed.

Lemma fence_wall_sample s oldest : fence_wall s oldest <= s - FLOOR - MARGIN.
Proof. unfold fence_wall, FLOOR, MARGIN. destruct oldest; lia. Qed.

Lemma sql_scan_le activity prepared x :
  Some x ∈ map xact_start activity \/ x ∈ prepared ->
  exists m, sql_least (sql_min (map xact_start activity)) (sql_min (map Some prepared)) = Some m /\ m <= x.
Proof.
  intros [Hx|Hx].
  - destruct (sql_min_le _ _ Hx) as (m & Hm & Hle).
    destruct (sql_least_le (sql_min (map xact_start activity)) (sql_min (map Some prepared)) m)
      as (m' & Hm' & Hle'); [by left|]. exists m'. split; [done|lia].
  - apply (list_elem_of_fmap_2 Some) in Hx. destruct (sql_min_le _ _ Hx) as (m & Hm & Hle).
    destruct (sql_least_le (sql_min (map xact_start activity)) (sql_min (map Some prepared)) m)
      as (m' & Hm' & Hle'); [by right|]. exists m'. split; [done|lia].
Qed.

(** The three buckets: what is open at the scan is above the wall, and so is what starts
    later. *)
Lemma scan_barrier c s activity oldest :
  invariant c -> s <= clock c -> shows activity (txns c) ->
  activity_scan activity (map (fun kv => kv.2.1.1) (map_to_list (prepared c))) = Some oldest ->
  barrier c (fence_wall s oldest).
Proof.
  intros Hinv Hs Hshow Hscan. unfold activity_scan in Hscan.
  destruct (existsb is_masked activity) eqn:Hmask; [done|]. injection Hscan as Hold.
  pose proof (fence_wall_sample s oldest) as Hws. assert (0 < MARGIN) by done.
  split; [lia|]. intros rows [(b & t & g & Hb & Ht)|(x & p & g & Hx)].
  - destruct (inv_txns c Hinv b t Hb) as [_ Hok]. rewrite Ht in Hok. destruct Hok as [Hg Hrows].
    apply (guarded_above g); [done|].
    destruct (Hshow b t Hb) as (a & Ha & [Hstart|Hm]).
    + destruct (sql_scan_le activity (map (fun kv => kv.2.1.1) (map_to_list (prepared c))) (started t))
        as (m & Hm & Hle).
      { left. apply list_elem_of_fmap. by exists a. }
      rewrite Hold in Hm. pose proof (fence_wall_oldest s oldest m Hm). lia.
    + assert (existsb is_masked activity = true) as Hx; [|congruence].
      apply existsb_exists. exists a. by rewrite <-list_elem_of_In.
  - pose proof (inv_prepared c Hinv _ _ Hx) as (Hgp & Hp & Hrows).
    apply (guarded_above g); [done|].
    destruct (sql_scan_le activity (map (fun kv => kv.2.1.1) (map_to_list (prepared c))) p)
      as (m & Hm & Hle).
    { right. apply list_elem_of_fmap. exists (x, (p, g, rows)). split; [done|].
      by apply elem_of_map_to_list. }
    rewrite Hold in Hm. pose proof (fence_wall_oldest s oldest m Hm). lia.
Qed.

(** ** Heartbeats *)

Lemma heartbeat_from_app cur l l' : heartbeat_from cur (l ++ l') = heartbeat_from (heartbeat_from cur l) l'.
Proof. revert cur. induction l as [|[]]; intros cur; simpl; auto. Qed.

Lemma heartbeat_last l t e :
  heartbeat l = Some (t, e) ->
  exists i, l !! i = Some (Beat t e) /\ forall j u v, (i < j)%nat -> l !! j <> Some (Beat u v).
Proof.
  unfold heartbeat. induction l as [|x l IH] using rev_ind; [done|].
  rewrite heartbeat_from_app. destruct x as [rows at_|u v]; simpl.
  - intros (i & Hi & Hlast)%IH. exists i. split; [by apply lookup_app_l_Some|].
    intros j u v Hj Hl. apply lookup_snoc_Some in Hl as [[_ Hl]|[_ [=]]]. by apply (Hlast j u v).
  - intros [= -> ->]. exists (length l). split; [by rewrite lookup_app_r, Nat.sub_diag|].
    intros j u v Hj Hl. apply lookup_lt_Some in Hl. rewrite length_app in Hl. simpl in Hl. lia.
Qed.

Lemma heartbeat_max l t u e i :
  tokens_increase l -> heartbeat l = Some (t, e) -> l !! i = Some (Beat u e) -> u <= t.
Proof.
  intros Hinc (j & Hj & Hlast)%heartbeat_last Hi.
  destruct (decide (i < j)%nat) as [Hij|]; [specialize (Hinc i j e u t Hij Hi Hj); lia|].
  destruct (decide (i = j)) as [->|]; [simplify_eq; lia|].
  destruct (Hlast i u e); [lia|done].
Qed.

Lemma tokens_increase_snoc l x :
  tokens_increase l ->
  (forall t e i u, x = Beat t e -> l !! i = Some (Beat u e) -> u < t) ->
  tokens_increase (l ++ [x]).
Proof.
  intros Hinc Hx i j ep t u Hij Hi Hj.
  apply lookup_snoc_Some in Hj as [[Hlt Hj]|[-> ->]].
  - apply lookup_snoc_Some in Hi as [[_ Hi]|[-> _]]; [exact (Hinc i j ep t u Hij Hi Hj)|lia].
  - apply lookup_snoc_Some in Hi as [[_ Hi]|[-> _]]; [by eapply Hx|lia].
Qed.

(** ** Every step keeps what is proved *)

Record evolves (c c' : Cluster) : Prop := {
  ev_clock : clock c <= clock c';
  ev_instant : instant c <= instant c';
  ev_pending rows : pending c' rows -> pending c rows \/ forallb (floor_guard (clock c)) rows = true;
  ev_log : exists new, log c' = log c ++ new /\
    forall rows t, Rows rows t ∈ new -> pending c rows /\ t = instant c
}.

Lemma pending_txns c c' rows :
  prepared c' = prepared c ->
  (forall b t g, txns c' !! b = Some t -> txn_state t = Guarded g rows -> pending c rows) ->
  pending c' rows -> pending c rows.
Proof.
  intros Hp Ht [(b & t & g & Hb & Hg)|(x & p & g & Hx)]; [by eapply Ht|]. right. rewrite Hp in Hx. eauto.
Qed.

Lemma evolves_same c c' :
  clock c' = clock c -> instant c' = instant c -> log c' = log c ->
  (forall rows, pending c' rows -> pending c rows \/ forallb (floor_guard (clock c)) rows = true) ->
  evolves c c'.
Proof.
  intros Hc Hi Hl Hp. split; [lia|lia|done|]. exists []. rewrite app_nil_r. split; [done|].
  intros rows t Hr. by apply elem_of_nil in Hr.
Qed.

Lemma evolves_append c c' x :
  clock c' = clock c -> instant c' = instant c -> log c' = log c ++ [x] ->
  (forall rows, pending c' rows -> pending c rows) ->
  (forall rows t, x = Rows rows t -> pending c rows /\ t = instant c) ->
  evolves c c'.
Proof.
  intros Hc Hi Hl Hp Hx. split; [lia|lia|by left; apply Hp|]. exists [x]. split; [done|].
  intros rows t Hr%list_elem_of_singleton. by apply Hx.
Qed.

Lemma pending_set_txn c b t rows :
  pending (set_txn b t c) rows ->
  pending c rows \/ exists g, txn_state t = Guarded g rows.
Proof.
  intros [(b' & t' & g & Hb & Hg)|?]; [|by left; right].
  simpl in Hb. rewrite lookup_insert in Hb. case_decide; simplify_eq; [by right; exists g|].
  left; left; eauto.
Qed.

Lemma pending_fewer c c' rows :
  (forall b t, txns c' !! b = Some t -> txns c !! b = Some t) ->
  (forall x p, prepared c' !! x = Some p -> prepared c !! x = Some p) ->
  pending c' rows -> pending c rows.
Proof.
  intros Ht Hp [(b & t & g & Hb & Hg)|(x & p & g & Hx)]; [left|right]; repeat eexists; eauto.
Qed.

Lemma step_evolves c c' : step c c' -> evolves c c'.
Proof.
  intros [].
  - split; [done|done|by left|]. exists []. rewrite app_nil_r. split; [done|].
    intros rows t Hr. by apply elem_of_nil in Hr.
  - apply evolves_same; try done. intros rows [?|[g [=]]]%pending_set_txn. by left.
  - apply evolves_same; try done. intros rows' [?|[g' [= <- <-]]]%pending_set_txn; [by left|by right].
  - eapply evolves_append; try done.
    + intros rows' [?|[g' [=]]]%(pending_set_txn c0). done.
    + intros rows' t' [= -> ->]. split; [|done]. left. eauto.
  - apply evolves_same; try done. intros rows Hp. left. revert Hp. apply pending_fewer; simpl; [|done].
    intros b' t. rewrite lookup_delete_Some. by intros [_ ?].
  - apply evolves_same; try done. intros rows' Hp. left.
    destruct Hp as [(b' & t' & g' & Hb & Hg)|(x' & p' & g' & Hx)]; simpl in *.
    + left. rewrite lookup_delete_Some in Hb. destruct Hb. eauto.
    + rewrite lookup_insert in Hx. case_decide; simplify_eq; [left; eauto|right; eauto].
  - eapply evolves_append; try done.
    + intros rows'. apply pending_fewer; simpl; [done|]. intros x' p'. rewrite lookup_delete_Some. by intros [_ ?].
    + intros rows' t' [= -> ->]. split; [|done]. right. eauto.
  - apply evolves_same; try done. intros rows' Hp. left. revert Hp. apply pending_fewer; simpl; [done|].
    intros x' p'. rewrite lookup_delete_Some. by intros [_ ?].
  - eapply evolves_append; done.
  - apply evolves_same; try done. by left.
  - apply evolves_same; try done. by left.
  - apply evolves_same; try done. by left.
  - eapply evolves_append; done.
  - apply evolves_same; try done. by left.
  - apply evolves_same; try done. by left.
  - eapply evolves_append; done.
  - apply evolves_same; try done. by left.
  - apply evolves_same; try done. by left.
Qed.

Lemma evolves_barrier c c' wall : evolves c c' -> barrier c wall -> barrier c' wall.
Proof.
  intros [Hc _ Hp _] [Hw Hb]. split; [lia|]. intros rows [H|H]%Hp; [by apply Hb|].
  by eapply guarded_above.
Qed.

Lemma evolves_sealed c c' i wall at_ : evolves c c' -> sealed c i wall at_ -> sealed c' i wall at_.
Proof.
  intros Hev [Hb Hat Hlog]. pose proof (ev_instant _ _ Hev).
  split; [by eapply evolves_barrier|lia|]. intros k rows t Hk Hl.
  destruct (ev_log _ _ Hev) as (new & Hnew & Hrows). rewrite Hnew in Hl.
  apply lookup_app_Some in Hl as [Hl|[_ Hl]]; [by eapply Hlog|].
  apply list_elem_of_lookup_2 in Hl. destruct (Hrows _ _ Hl) as [Hp ->].
  split; [by apply (barrier_pending c)|done].
Qed.

Lemma evolves_beats c c' i tok ep : evolves c c' -> beats c i tok ep -> beats c' i tok ep.
Proof.
  intros Hev Hb. destruct (ev_log _ _ Hev) as (new & Hnew & _). unfold beats. rewrite Hnew.
  by apply lookup_app_l_Some.
Qed.

Lemma evolves_entry c c' ep e : evolves c c' -> entry_ok c ep e -> entry_ok c' ep e.
Proof.
  intros Hev (i & e0 & He & Hb & Hs). exists i, e0.
  split_and!; [done|by eapply evolves_beats|by eapply evolves_sealed].
Qed.

Lemma evolves_pod c c' p : evolves c c' -> pod_ok c p -> pod_ok c' p.
Proof.
  intros Hev [Hring Hph]. split.
  - eapply Forall_impl; [exact Hring|]. intros e. by apply evolves_entry.
  - pose proof (ev_clock _ _ Hev). pose proof (ev_instant _ _ Hev).
    unfold phase_ok in *. destruct (phase p).
    + done.
    + lia.
    + by eapply evolves_barrier.
    + destruct Hph. split; [by eapply evolves_barrier|lia].
    + destruct Hph as [(i & Hb & Hs) Hr]. split; [|done]. exists i.
      split; [by eapply evolves_beats|by eapply evolves_sealed].
    + by eapply evolves_barrier.
Qed.

(** ** The invariant *)

Lemma txn_ok_later c c' t : clock c <= clock c' -> txn_ok c t -> txn_ok c' t.
Proof.
  unfold txn_ok. intros Hc [H1 H2]. split; [lia|]. destruct (txn_state t); try done.
  destruct H2. split; [lia|done].
Qed.

Lemma prepared_ok_later c c' x : clock c <= clock c' -> prepared_ok c x -> prepared_ok c' x.
Proof. destruct x as [[p g] rows]. simpl. intros Hc (? & ? & ?). split_and!; [lia|lia|done|done]. Qed.

(** A step that changes no pod. *)
Lemma invariant_db c c' :
  invariant c -> step c c' -> pods c' = pods c ->
  (forall b t, txns c' !! b = Some t -> txns c !! b = Some t \/ txn_ok c' t) ->
  (forall x p, prepared c' !! x = Some p -> prepared c !! x = Some p \/ prepared_ok c' p) ->
  tokens_increase (log c') -> invariant c'.
Proof.
  intros Hinv Hstep Hpods Ht Hp Hl. pose proof (step_evolves _ _ Hstep) as Hev.
  pose proof (ev_clock _ _ Hev). split.
  - intros b t [Hb|Hb]%Ht; [|done]. eapply txn_ok_later; [done|]. by eapply inv_txns.
  - intros x p [Hx|Hx]%Hp; [|done]. eapply prepared_ok_later; [done|]. by eapply inv_prepared.
  - done.
  - intros n p. rewrite Hpods. intros Hn. eapply evolves_pod; [done|]. by eapply inv_pods.
Qed.

(** A step of one pod. *)
Lemma invariant_pod c c' n p :
  invariant c -> step c c' -> pods c' = <[n := p]> (pods c) ->
  txns c' = txns c -> prepared c' = prepared c -> tokens_increase (log c') ->
  pod_ok c' p -> invariant c'.
Proof.
  intros Hinv Hstep Hpods Ht Hp Hl Hok. pose proof (step_evolves _ _ Hstep) as Hev.
  pose proof (ev_clock _ _ Hev). split.
  - intros b t. rewrite Ht. intros Hb. eapply txn_ok_later; [done|]. by eapply inv_txns.
  - intros x q. rewrite Hp. intros Hx. eapply prepared_ok_later; [done|]. by eapply inv_prepared.
  - done.
  - intros m q. rewrite Hpods, lookup_insert. case_decide; [by intros [= <-]|].
    intros Hn. eapply evolves_pod; [done|]. by eapply inv_pods.
Qed.

Lemma invariant_set_pod c n p :
  invariant c -> step c (set_pod n p c) -> pod_ok c p -> invariant (set_pod n p c).
Proof.
  intros Hinv Hstep Hok. eapply (invariant_pod c); try done; [exact (inv_tokens c Hinv)|].
  by eapply evolves_pod; [apply step_evolves|].
Qed.

Lemma tokens_rows c rows t : tokens_increase (log c) -> tokens_increase (log c ++ [Rows rows t]).
Proof. intros H. by apply tokens_increase_snoc. Qed.

Lemma tokens_fresh c tok ep :
  tokens_increase (log c) -> fresh_epoch ep c -> tokens_increase (log c ++ [Beat tok ep]).
Proof.
  intros H Hf. apply tokens_increase_snoc; [done|]. intros t e i u [= <- <-] Hi.
  destruct (Hf u). by eapply list_elem_of_lookup_2.
Qed.

Lemma tokens_next c tok ep :
  tokens_increase (log c) -> heartbeat (log c) = Some (tok, ep) ->
  tokens_increase (log c ++ [Beat (tok + 1) ep]).
Proof.
  intros H Hh. apply tokens_increase_snoc; [done|]. intros t e i u [= <- <-] Hi.
  pose proof (heartbeat_max _ _ _ _ _ H Hh Hi). lia.
Qed.

(** The heartbeat just committed seals what the scan proved. *)
Lemma beaten_ok c f rotate wall at_ tok ep c' :
  invariant c -> step c c' -> log c' = log c ++ [Beat tok ep] ->
  Forall (entry_ok c (epoch f)) (ring f) -> barrier c wall -> at_ <= instant c ->
  (forall i u, log c !! i = Some (Beat u ep) -> u < tok) ->
  pod_ok c' (mkPod f (Beaten rotate wall at_ tok ep)).
Proof.
  intros Hinv Hstep Hl Hring Hb Hat Htok. pose proof (step_evolves _ _ Hstep) as Hev. split.
  - eapply Forall_impl; [exact Hring|]. intros e. by apply evolves_entry.
  - split.
    + exists (length (log c)). unfold beats. rewrite Hl.
      split; [by rewrite lookup_app_r, Nat.sub_diag|].
      split; [by eapply evolves_barrier|pose proof (ev_instant _ _ Hev); lia|].
      intros k rows t Hk Hlk. rewrite Hl in Hlk.
      apply lookup_snoc_Some in Hlk as [[Hlt _]|[_ [=]]]. lia.
    + simpl. intros Hep. rewrite Forall_forall in Hring |- *. intros e He.
      destruct (Hring e He) as (i & e0 & He0 & Hbeat & _). rewrite Hep in He0. injection He0 as <-.
      by eapply Htok.
Qed.

Lemma after_record_ok c f rotate wall at_ tok ep :
  pod_ok c (mkPod f (Beaten rotate wall at_ tok ep)) ->
  pod_ok c (after_record rotate wall (record f tok ep at_ wall)) /\
  snd (record f tok ep at_ wall) = Recorded.
Proof.
  intros [Hring [(i & Hb & Hs) Habove]]. simpl in *. unfold record.
  assert (entry_ok c (Some ep) (mkEntry tok at_ wall)) as Hentry by (exists i, ep; done).
  destruct (bool_decide (epoch f = Some ep)) eqn:He; simpl.
  - apply bool_decide_eq_true in He. rewrite He in *. specialize (Habove eq_refl).
    assert (Forall (entry_ok c (Some ep)) (push_back (ring f) (mkEntry tok at_ wall))) as Hpush.
    { apply Forall_app. split; [|by constructor].
      destruct (_ =? _)%nat; [|done]. destruct (ring f); [done|]. by inversion Hring. }
    destruct (last (ring f)) as [l|] eqn:Hlast; [|split; [by split|done]].
    assert (token l < tok) as Hlt.
    { rewrite Forall_forall in Habove. apply Habove. apply last_Some in Hlast as [r ->].
      apply elem_of_app. right. by apply list_elem_of_singleton. }
    rewrite (proj2 (Z.leb_gt _ _) Hlt). split; [by split|done].
  - split; [|done]. split; [|done]. by repeat constructor.
Qed.

Lemma invariant_step c c' : invariant c -> step c c' -> invariant c'.
Proof.
  intros Hinv Hstep. pose proof Hstep as Hs. pose proof (inv_tokens c Hinv) as Htok.
  destruct Hs as [c clk ins Hc Hi|b c Hb|b t rows c Hb Ht Hg|b t g rows c Hb Ht|b c|
    b t g rows x c Hb Ht Hx Hm|x p g rows c Hx|x c|tok ep c Hf|n f c Hn|n f s act old c Hn Hsh Hsc|
    n f wall c Hn|n f wall at_ tok ep c Hn Hh|n f rot wall at_ tok ep c Hn|n f wall c Hn|
    n f wall at_ tok ep ep' c Hn Hh Hf|n p c Hn|n c].
  - apply (invariant_db c); try done; by left.
  - apply (invariant_db c); try done; [|by left]. intros b' t'. simpl. rewrite lookup_insert.
    case_decide; [|by left]. intros [= <-]. right. split; simpl; [lia|done].
  - apply (invariant_db c); try done; [|by left]. intros b' t'. simpl. rewrite lookup_insert.
    case_decide; [|by left]. intros [= <-]. right. destruct (inv_txns c Hinv b t Hb).
    split; simpl; [done|]. split; [lia|done].
  - apply (invariant_db c); try done; [|by left|by apply tokens_rows]. intros b' t'. simpl.
    rewrite lookup_insert. case_decide; [|by left]. intros [= <-]. right.
    destruct (inv_txns c Hinv b t Hb). by split.
  - apply (invariant_db c); try done; [|by left]. intros b' t'. simpl.
    rewrite lookup_delete_Some. intros [_ ?]. by left.
  - apply (invariant_db c); try done.
    + intros b' t'. simpl. rewrite lookup_delete_Some. intros [_ ?]. by left.
    + intros x' p'. simpl. rewrite lookup_insert. case_decide; [|by left]. intros [= <-]. right.
      destruct (inv_txns c Hinv b t Hb) as [_ Hok]. rewrite Ht in Hok. destruct Hok as [Hg Hr].
      unfold prepared_ok, MARGIN. cbn [clock]. split_and!; [lia|lia|lia|done].
  - apply (invariant_db c); try done; [by left| |by apply tokens_rows]. intros x' p'. simpl.
    rewrite lookup_delete_Some. intros [_ ?]. by left.
  - apply (invariant_db c); try done; [by left|]. intros x' p'. simpl.
    rewrite lookup_delete_Some. intros [_ ?]. by left.
  - apply (invariant_db c); try done; [by left|by left|by apply tokens_fresh].
  - apply invariant_set_pod; [done|done|]. split; [apply (inv_pods c Hinv n _ Hn)|]. simpl. lia.
  - destruct (inv_pods c Hinv n _ Hn) as [Hr Hp]. apply invariant_set_pod; [done|done|].
    split; [done|]. simpl. by eapply scan_barrier.
  - destruct (inv_pods c Hinv n _ Hn) as [Hr Hp]. apply invariant_set_pod; [done|done|].
    split; [done|]. split; [done|]. simpl. lia.
  - destruct (inv_pods c Hinv n _ Hn) as [Hr [Hb Hat]].
    eapply (invariant_pod c); try done; [by apply tokens_next|].
    eapply (beaten_ok c); try done. intros i u Hi.
    pose proof (heartbeat_max _ _ _ _ _ Htok Hh Hi). lia.
  - apply invariant_set_pod; [done|done|]. apply after_record_ok. apply (inv_pods c Hinv n _ Hn).
  - destruct (inv_pods c Hinv n _ Hn) as [Hr Hp]. apply invariant_set_pod; [done|done|].
    split; [done|]. split; [done|]. simpl. lia.
  - destruct (inv_pods c Hinv n _ Hn) as [Hr [Hb Hat]].
    eapply (invariant_pod c); try done; [by apply tokens_fresh|].
    eapply (beaten_ok c); try done. intros i u Hi. destruct (Hf u). by eapply list_elem_of_lookup_2.
  - apply invariant_set_pod; [done|done|]. by split; [constructor|].
  - apply invariant_set_pod; [done|done|]. by split; [constructor|].
Qed.

Lemma invariant_initial t0 ep : invariant (initial t0 ep).
Proof.
  split; simpl.
  - intros b t Hb. by rewrite lookup_empty in Hb.
  - intros b t Hb. by rewrite lookup_empty in Hb.
  - intros i j e t u Hij Hi Hj. apply list_lookup_singleton_Some in Hj as [-> _]. lia.
  - intros b t Hb. by rewrite lookup_empty in Hb.
Qed.

Lemma steps_invariant c c' : invariant c -> rtc step c c' -> invariant c'.
Proof. intros Hinv Hs. induction Hs; [done|]. by eauto using invariant_step. Qed.

Lemma reachable_invariant c : reachable c -> invariant c.
Proof. intros (t0 & ep & Hs). eapply steps_invariant; [apply invariant_initial|done]. Qed.

Lemma steps_sealed c c' i wall at_ :
  rtc step c c' -> sealed c i wall at_ -> sealed c' i wall at_.
Proof.
  intros Hs. induction Hs as [|x y z Hxy _ IH]; [done|]. intros H. apply IH.
  by eapply evolves_sealed; [apply step_evolves|].
Qed.

Lemma steps_log c c' : rtc step c c' -> exists new, log c' = log c ++ new.
Proof.
  intros Hs. induction Hs as [|x y z Hxy _ [new IH]]; [exists []; by rewrite app_nil_r|].
  destruct (ev_log _ _ (step_evolves _ _ Hxy)) as (new' & Hn & _). exists (new' ++ new).
  by rewrite IH, Hn, (assoc_L (++)).
Qed.

(** ** What a proved entry means *)

Lemma resolve_Proved f tok ep e :
  resolve f tok ep = Proved e ->
  e ∈ ring f /\ token e <= tok /\ (forall e0, epoch f = Some e0 -> e0 = ep).
Proof.
  unfold resolve. destruct (epoch f) as [e0|]; [destruct (N.eqb_spec e0 ep) as [->|]; [|done]|];
    destruct (List.find _ _) as [x|] eqn:Hf; try done; intros [= ->];
    apply find_some in Hf as [Hx Hle]; rewrite <-list_elem_of_In, list_elem_of_In, <-in_rev in Hx;
    rewrite <-list_elem_of_In in Hx; split_and!; [done|lia|by intros ? [= <-]|done|lia|done].
Qed.

(** A session that sees [n] commits and whose observation proves an entry sees the entry's
    heartbeat: from [n] on, commits are sealed. *)
Lemma proved_sealed c n i f tok ep e p :
  invariant c -> pods c !! i = Some p -> fence p = f ->
  heartbeat (take n (log c)) = Some (tok, ep) -> resolve f tok ep = Proved e ->
  sealed c n (fence_wall_at e) (committed_at e).
Proof.
  intros Hinv Hp <- Hobs Hres. apply resolve_Proved in Hres as (He & Hle & Hep).
  destruct (inv_pods c Hinv i p Hp) as [Hring _]. rewrite Forall_forall in Hring.
  destruct (Hring e He) as (k & e0 & He0 & Hbeat & Hs). apply Hep in He0 as ->.
  apply heartbeat_last in Hobs as (j & Hj & _). apply lookup_take_Some in Hj as [Hj Hjn].
  assert (k <= j)%nat as Hkj.
  { destruct (decide (j < k)%nat) as [Hlt|]; [|lia].
    pose proof (inv_tokens c Hinv j k ep tok (token e) Hlt Hj Hbeat). lia. }
  destruct Hs as [Hb Hat Hl]. split; [done|done|]. intros m rows t Hm Hrows.
  apply (Hl m); [lia|done].
Qed.

(** * Routing *)

(** The predicate of a routed read; the covered ones are built for channel rows only. *)
Inductive RoutePredicate :=
| Bounded
| Covered (upper : Z)
| CoveredPostVerified
| BoundedOrCovered (upper : Z).

Definition from_channel_cursor (cursor : option (Z * N)) : RoutePredicate :=
  match cursor with Some (ts, _) => Covered ts | None => Bounded end.

(** [channel_id] and [until] of the [EventQuery]. *)
Definition for_query (channel_id : option Uuid) (until : option Z) (routing_enabled : bool)
  : RoutePredicate :=
  if negb routing_enabled then Bounded
  else match channel_id, until with
       | Some _, Some upper => BoundedOrCovered upper
       | _, _ => Bounded
       end.

Definition read_budget_from_ms (ms : Z) : option Z :=
  if ms =? 0 then None else Some (Z.min (ms * 1000) FENCE_STALENESS).

(** What a reader connection answers, up to the heartbeat observation. *)
Inductive Session :=
| AcquireTimedOut
| ReaderFailed
| Observation (observed : option (Z * Uuid)).

Definition proved_reader (f : ReplicaFence) (s : Session) : result TokenEntry string :=
  match s with
  | AcquireTimedOut => Err "reader_acquire_timeout"
  | ReaderFailed | Observation None => Err "reader_validation_error"
  | Observation (Some (tok, ep)) =>
      match resolve f tok ep with
      | Proved e => Ok e
      | EpochMismatch => Err "reader_validation_error"
      | TokenBehind => Err "reader_token_behind"
      end
  end.

Inductive RouteDecision := Replica (e : TokenEntry) (reason : string) | Writer (reason : string).

Definition bounded_precheck (now : Z) (newest : TokenEntry) (budget : option Z) : result unit string :=
  match budget with
  | Some budget => if elapsed now (committed_at newest) <=? budget then Ok tt else Err "stale"
  | None => Err "disabled"
  end.
Definition covered_precheck (newest : TokenEntry) (upper : Z) : result unit string :=
  if upper <=? fence_wall_at newest then Ok tt else Err "stale".

Definition precheck (now : Z) (budget : option Z) (newest : TokenEntry) (p : RoutePredicate)
  : result unit string :=
  match p with
  | Bounded => bounded_precheck now newest budget
  | Covered upper => covered_precheck newest upper
  | CoveredPostVerified => Ok tt
  | BoundedOrCovered upper =>
      match covered_precheck newest upper with
      | Ok _ => Ok tt
      | Err _ => bounded_precheck now newest budget
      end
  end.

Definition verdict (now : Z) (budget : option Z) (e : TokenEntry) (p : RoutePredicate) : option string :=
  let bounded_holds :=
    match budget with Some budget => elapsed now (committed_at e) <=? budget | None => false end in
  match p with
  | Bounded => if bounded_holds then Some "fresh" else None
  | Covered upper => if upper <=? fence_wall_at e then Some "covered" else None
  | CoveredPostVerified => Some "covered"
  | BoundedOrCovered upper =>
      if upper <=? fence_wall_at e then Some "covered"
      else if bounded_holds then Some "fresh" else None
  end.

(** [f], [now]: the fence and the instant of the prechecks; [f'], [now']: at the session's
    proof. *)
Definition route_read (has_read_pool : bool) (budget : option Z) (p : RoutePredicate)
    (f : ReplicaFence) (now : Z) (f' : ReplicaFence) (now' : Z) (s : Session) : RouteDecision :=
  if negb has_read_pool then Writer "disabled" else
  match newest now f with
  | None => Writer "uninitialized"
  | Some newest =>
      match precheck now budget newest p with
      | Err reason => Writer reason
      | Ok _ =>
          match proved_reader f' s with
          | Ok entry =>
              match verdict now' budget entry p with
              | Some reason => Replica entry reason
              | None => Writer "stale"
              end
          | Err reason => Writer reason
          end
      end
  end.

(** ** Pages

    A query reads a state of the tables: the event rows, which are never changed, and the
    columns that [UPDATE]s change and later [INSERT]s fill, those of soft deletion and of the
    joined [thread_metadata] row.  The fence does not speak about the latter. *)

Definition RowKey : Type := Z * N.
Definition row_key (r : Row) : RowKey := (created_at r, event_id r).

Record ThreadMetadata := mkMetadata {
  root_event_id : option N;
  depth : Z;
  broadcast : bool;
  reply_count : Z;
  descendant_count : Z;
  last_reply_at : option Z
}.
Record Columns := mkColumns { deleted_at : option Z; metadata : option ThreadMetadata }.
Record Tables := mkTables { events : list Row; columns_of : RowKey -> Columns }.

Definition rows_of (l : list LogEntry) : list Row :=
  concat (map (fun e => match e with Rows rows _ => rows | Beat _ _ => [] end) l).

(** [(created_at, id)] ascending, and [created_at DESC, id ASC]. *)
Definition key_le (a b : RowKey) : Prop := a.1 < b.1 \/ (a.1 = b.1 /\ (a.2 <= b.2)%N).
Definition key_window_le (a b : RowKey) : Prop := b.1 < a.1 \/ (a.1 = b.1 /\ (a.2 <= b.2)%N).
#[export] Instance key_le_dec a b : Decision (key_le a b).
Proof. unfold key_le. apply _. Defined.
#[export] Instance key_window_le_dec a b : Decision (key_window_le a b).
Proof. unfold key_window_le. apply _. Defined.

Definition is_live (c : Columns) : bool := match deleted_at c with Some _ => false | None => true end.

(** The join and the [WHERE] clause of [get_thread_replies_on]; a cursor is a timestamp, and an
    id unless it is a legacy one. *)
Definition is_reply (root : N) (depth_limit : option Z) (c : Columns) : bool :=
  match metadata c with
  | Some tm =>
      bool_decide (root_event_id tm = Some root) && is_live c &&
      match depth_limit with Some dl => depth tm <=? dl | None => true end
  | None => false
  end.
Definition after_cursor (cursor_key : option (Z * option N)) (r : Row) : bool :=
  match cursor_key with
  | Some (ts, Some id) => (ts <? created_at r) || ((ts =? created_at r) && (id <? event_id r)%N)
  | Some (ts, None) => ts <? created_at r
  | None => true
  end.

(** [get_thread_replies_on]: the keys of the replies.  [restores] tells the rows from which
    [row_to_stored_event] rebuilds an event. *)
Definition get_thread_replies_on (restores : RowKey -> bool) (root : N) (depth_limit : option Z)
    (limit : nat) (cursor_key : option (Z * option N)) (t : Tables) : list RowKey :=
  let selected r := is_reply root depth_limit (columns_of t (row_key r)) && after_cursor cursor_key r in
  filter (fun k => restores k = true)
    (take limit (merge_sort key_le (map row_key (filter (fun r => selected r = true) (events t))))).

(** [get_thread_replies] from its route on; [cursor] is [Some None] when its bytes do not
    decode, [replica] the replica's tables unless its query failed. *)
Definition get_thread_replies (restores : RowKey -> bool) (root : N) (depth_limit : option Z)
    (limit : nat) (cursor : option (option (Z * option N))) (route : RouteDecision)
    (replica : option Tables) (writer : Tables) : list RowKey :=
  let page := get_thread_replies_on restores root depth_limit limit (default None cursor) in
  match route, replica with
  | Replica entry _, Some tables =>
      let replies := page tables in
      match cursor with
      | None => replies
      | Some _ =>
          let full := (limit <=? length replies)%nat in
          let below_fence :=
            match last replies with Some tail => tail.1 <=? fence_wall_at entry | None => false end in
          if full && below_fence then replies else page writer
      end
  | _, _ => page writer
  end.

(** The [WHERE] clause of [get_channel_window_on]; [kinds] is the kind filter. *)
Definition top_level (c : Columns) : bool :=
  match metadata c with
  | Some tm => (depth tm =? 0) || ((depth tm =? 1) && broadcast tm)
  | None => true
  end.
Definition in_window (channel_id : N) (kinds : RowKey -> bool) (c : Columns) (r : Row) : bool :=
  bool_decide (channel r = Some channel_id) && is_live c && top_level c && kinds (row_key r).
Definition before_cursor (cursor : option (Z * N)) (r : Row) : bool :=
  match cursor with
  | Some (ts, id) => (created_at r <? ts) || ((created_at r =? ts) && (id <? event_id r)%N)
  | None => true
  end.

Record ThreadSummary := mkSummary { replies : Z; descendants : Z; last_reply : option Z }.
Definition thread_summary (c : Columns) : option ThreadSummary :=
  match metadata c with
  | Some tm =>
      if 0 <? reply_count tm
      then Some (mkSummary (reply_count tm) (descendant_count tm) (last_reply_at tm)) else None
  | None => None
  end.
Record ChannelWindow := mkWindow {
  window_rows : list (RowKey * option ThreadSummary);
  has_more : bool;
  next_cursor : option RowKey
}.

(** [get_channel_window_on], less the participants of a summary. *)
Definition get_channel_window_on (restores kinds : RowKey -> bool) (channel_id : N) (limit : nat)
    (cursor : option (Z * N)) (t : Tables) : ChannelWindow :=
  let selected r := in_window channel_id kinds (columns_of t (row_key r)) r && before_cursor cursor r in
  let db_rows := take (limit + 1)
    (merge_sort key_window_le (map row_key (filter (fun r => selected r = true) (events t)))) in
  let has_more := (limit <? length db_rows)%nat in
  let db_rows := take limit db_rows in
  mkWindow
    (map (fun k => (k, thread_summary (columns_of t k))) (filter (fun k => restores k = true) db_rows))
    has_more (if has_more then last db_rows else None).

Definition get_channel_window (restores kinds : RowKey -> bool) (channel_id : N) (limit : nat)
    (cursor : option (Z * N)) (route : RouteDecision) (replica : option Tables) (writer : Tables)
  : ChannelWindow :=
  let page := get_channel_window_on restores kinds channel_id limit cursor in
  match route, replica with
  | Replica _ _, Some tables => page tables
  | _, _ => page writer
  end.

(** ** Proofs *)

Lemma rows_of_app l l' : rows_of (l ++ l') = rows_of l ++ rows_of l'.
Proof. unfold rows_of. by rewrite map_app, concat_app. Qed.

(** The rows a session misses, now and later, are above the wall. *)
Lemma missing_above c c' n wall at_ :
  (n <= length (log c))%nat -> sealed c n wall at_ -> rtc step c c' ->
  exists rest, rows_of (log c') = rows_of (take n (log c)) ++ rest /\ above wall rest.
Proof.
  intros Hn Hs Hsteps. pose proof (steps_sealed _ _ _ _ _ Hsteps Hs) as [_ _ Hl].
  destruct (steps_log _ _ Hsteps) as (new & Hnew).
  assert (log c' = take n (log c) ++ drop n (log c')) as Hsplit.
  { rewrite <-(take_drop n (log c')) at 1. f_equal. by rewrite Hnew, take_app_le. }
  exists (rows_of (drop n (log c'))). split; [by rewrite Hsplit at 1; rewrite rows_of_app|].
  apply Forall_forall. intros r Hr. unfold rows_of in Hr.
  rewrite list_elem_of_In, in_concat in Hr. destruct Hr as (rows & Hrows & Hr).
  rewrite <-list_elem_of_In in Hrows. rewrite <-list_elem_of_In in Hr.
  apply list_elem_of_fmap in Hrows as (x & -> & Hx).
  destruct x as [rows t|]; [|by apply elem_of_nil in Hr].
  apply list_elem_of_lookup in Hx as (k & Hk). rewrite lookup_drop in Hk.
  destruct (Hl (n + k)%nat rows t) as [Ha _]; [lia|done|]. unfold above in Ha.
  rewrite Forall_forall in Ha. by apply Ha.
Qed.

Lemma route_read_Replica pool budget p f now f' now' s e reason :
  route_read pool budget p f now f' now' s = Replica e reason ->
  exists tok ep, s = Observation (Some (tok, ep)) /\ resolve f' tok ep = Proved e /\
    verdict now' budget e p = Some reason.
Proof.
  unfold route_read. destruct pool; [|done]. simpl. destruct (newest now f) as [x|]; [|done].
  destruct (precheck now budget x p); [|done]. unfold proved_reader.
  destruct s as [| |[[tok ep]|]]; try done. destruct (resolve f' tok ep) as [e'| |] eqn:Hr; try done.
  destruct (verdict now' budget e' p) as [v|] eqn:Hv; [|done]. intros [= <- <-]. eauto.
Qed.

(** The channel rows at or below a bound. *)
Definition at_most (upper : Z) (r : Row) : bool :=
  match channel r with Some _ => created_at r <=? upper | None => false end.

Lemma filter_none (f : Row -> bool) (l : list Row) :
  Forall (fun r => f r = false) l -> filter (fun r => f r = true) l = [].
Proof. induction 1 as [|r l Hr _ IH]; [done|]. rewrite filter_cons_False by congruence. done. Qed.

Lemma filter_full {A} (f : A -> bool) (l : list A) :
  (length l <= length (filter (fun x => f x = true) l))%nat -> filter (fun x => f x = true) l = l.
Proof.
  induction l as [|x l IH]; [done|]. pose proof (length_filter (fun x => f x = true) l).
  rewrite filter_cons. case_decide; simpl; [|lia]. intros Hl. f_equal. apply IH. lia.
Qed.

Lemma above_none (f : Row -> bool) wall rest :
  above wall rest -> (forall r, f r = true -> is_Some (channel r) /\ created_at r <= wall) ->
  filter (fun r => f r = true) rest = [].
Proof.
  intros Ha Hf. apply filter_none. eapply Forall_impl; [exact Ha|]. intros r Hr.
  destruct (f r) eqn:H; [|done]. destruct (Hf r H) as [Hc Hle]. specialize (Hr Hc). lia.
Qed.

Lemma at_most_true upper r : at_most upper r = true -> is_Some (channel r) /\ created_at r <= upper.
Proof. unfold at_most. destruct (channel r); [|done]. rewrite Z.leb_le. eauto. Qed.

Section routed.
Context (c : Cluster) (i n : nat) (p : Pod) (pool : bool) (budget : option Z).
Context (f : ReplicaFence) (now now' : Z).
Hypothesis Hreach : reachable c.
Hypothesis Hpod : pods c !! i = Some p.
Hypothesis Hn : (n <= length (log c))%nat.

(** The route a read takes on pod [i], whose session sees [n] commits: the prechecks used an
    earlier fence [f]. *)
Definition routed (pred : RoutePredicate) : RouteDecision :=
  route_read pool budget pred f now (fence p) now' (Observation (heartbeat (take n (log c)))).

Lemma routed_sealed pred e reason :
  routed pred = Replica e reason ->
  sealed c n (fence_wall_at e) (committed_at e) /\ verdict now' budget e pred = Some reason.
Proof.
  intros (tok & ep & Hs & Hr & Hv)%route_read_Replica. injection Hs as Hs. split; [|done].
  eapply proved_sealed; [by apply reachable_invariant|done|done|exact Hs|done].
Qed.

(** C15: A read routed to a replica is sound for its predicate.  Covered: no channel row at or
    below the bound is missing from the session's snapshot, whether committed by now or at any
    later time.  Fresh: the snapshot has every commit older than the configured budget. *)
Theorem routed_reads_sound pred e reason (Hroute : routed pred = Replica e reason) :
  (forall upper c',
     pred = Covered upper \/ (pred = BoundedOrCovered upper /\ reason = "covered") ->
     rtc step c c' ->
     filter (fun r => at_most upper r = true) (rows_of (log c')) =
     filter (fun r => at_most upper r = true) (rows_of (take n (log c)))) /\
  (reason = "fresh" ->
     exists b, budget = Some b /\
       forall k rows t, log c !! k = Some (Rows rows t) -> t < now' - b -> (k < n)%nat).
Proof.
  destruct (routed_sealed _ _ _ Hroute) as [Hs Hv]. split.
  - intros upper c' Hpred Hsteps.
    assert (upper <= fence_wall_at e) as Hu.
    { unfold verdict in Hv. destruct Hpred as [->|[-> ->]];
        destruct (upper <=? fence_wall_at e) eqn:Hle; [by apply Z.leb_le|done|by apply Z.leb_le|].
      by case_match. }
    destruct (missing_above _ _ _ _ _ Hn Hs Hsteps) as (rest & -> & Ha).
    rewrite filter_app, (above_none _ _ _ Ha), app_nil_r; [done|].
    intros r Hr%at_most_true. destruct Hr. split; [done|lia].
  - intros ->. unfold verdict in Hv.
    assert (match budget with Some b => elapsed now' (committed_at e) <=? b | None => false end = true)
      as Hb.
    { destruct pred; try done; repeat case_match; done. }
    destruct budget as [b|]; [|done]. exists b. split; [done|]. intros k rows t Hk Ht.
    apply Z.leb_le in Hb. unfold elapsed in Hb. destruct (decide (k < n)%nat) as [|Hge]; [done|].
    destruct (sealed_log _ _ _ _ Hs k rows t) as [_ Hat]; [lia|done|lia].
Qed.

(** ** Pages *)

#[export] Instance key_le_trans : Transitive key_le.
Proof. intros [a x] [b y] [d z]. unfold key_le. simpl. lia. Qed.
#[export] Instance key_le_total : Total key_le.
Proof. intros [a x] [b y]. unfold key_le. simpl. lia. Qed.
#[export] Instance key_le_antisymm : AntiSymm (=) key_le.
Proof. intros [a x] [b y]. unfold key_le. simpl. intros H1 H2. f_equal; lia. Qed.

(** A full page that ends at or below the wall ignores what sorts above it. *)
Lemma page_stable limit wall (l extra : list RowKey) tail :
  let page := take limit (merge_sort key_le l) in
  (limit <= length page)%nat -> last page = Some tail -> tail.1 <= wall ->
  Forall (fun k => wall < k.1) extra ->
  take limit (merge_sort key_le (l ++ extra)) = page.
Proof.
  intros page Hfull Hlast Hle Hextra.
  set (rest := drop limit (merge_sort key_le l)).
  assert (merge_sort key_le l = page ++ rest) as Hl by (symmetry; apply take_drop).
  pose proof (StronglySorted_merge_sort key_le l) as Hsorted. rewrite Hl in Hsorted.
  apply StronglySorted_app in Hsorted as (Hcross & Hpage & Hrest).
  assert (merge_sort key_le (l ++ extra) = page ++ merge_sort key_le (rest ++ extra)) as ->.
  { apply (StronglySorted_unique key_le).
    - apply StronglySorted_merge_sort; apply _.
    - apply StronglySorted_app. split_and!; [|done|apply StronglySorted_merge_sort; apply _].
      intros x y Hx Hy. rewrite merge_sort_Permutation in Hy. apply elem_of_app in Hy as [Hy|Hy];
        [by apply Hcross|].
      rewrite Forall_forall in Hextra. specialize (Hextra y Hy).
      assert (key_le x tail) as [Hxt|Hxt]; [|left; lia|left; lia].
      apply last_Some in Hlast as [front Hfront]. rewrite Hfront in Hpage, Hx.
      apply elem_of_app in Hx as [Hx| ->%list_elem_of_singleton]; [|unfold key_le; lia].
      apply StronglySorted_app in Hpage as (Hc & _ & _). apply Hc; [done|]. by apply list_elem_of_singleton.
    - rewrite !merge_sort_Permutation, (assoc_L (++)), <-Hl. by rewrite merge_sort_Permutation. }
  rewrite take_app_le by lia. apply take_ge. unfold page. rewrite length_take. lia.
Qed.

(** ** The columns that updates change

    [columns k] are those columns after [k] commits, under any history of them. *)
Section columns.
Context (columns : nat -> RowKey -> Columns).

Definition snapshot : Tables := mkTables (rows_of (take n (log c))) (columns n).
Definition tables (c' : Cluster) : Tables := mkTables (rows_of (log c')) (columns (length (log c'))).

(** The rows of a moment, with the columns as the reader's session has them. *)
Definition complete (c' : Cluster) : Tables := mkTables (rows_of (log c')) (columns n).

(** [thread_metadata.channel_id] is [NOT NULL], and is that of the event. *)
Definition threads_in_channels (c' : Cluster) : Prop :=
  forall k r tm, r ∈ rows_of (log c') -> metadata (columns k (row_key r)) = Some tm ->
    is_Some (channel r).

Lemma thread_page_complete restores root depth_limit limit cursor_key c' e reason :
  threads_in_channels c' -> rtc step c c' -> routed CoveredPostVerified = Replica e reason ->
  let page := get_thread_replies_on restores root depth_limit limit cursor_key snapshot in
  (limit <=? length page)%nat = true ->
  match last page with Some tail => tail.1 <=? fence_wall_at e | None => false end = true ->
  page = get_thread_replies_on restores root depth_limit limit cursor_key (complete c').
Proof.
  intros Hthreads Hlater (Hs & _)%routed_sealed page Hfull Hlast.
  destruct (missing_above _ _ _ _ _ Hn Hs Hlater) as (rest & Hw & Ha).
  unfold page, get_thread_replies_on, complete, snapshot in *. simpl in *. clear page.
  apply Nat.leb_le in Hfull. set (keys := merge_sort _ _) in *.
  pose proof (length_take_le keys limit) as Hlen. pose proof (length_take keys limit) as Htake.
  assert (filter (fun k => restores k = true) (take limit keys) = take limit keys) as Hall
    by (apply filter_full; lia).
  rewrite Hall in *. subst keys.
  destruct (last _) as [tail|] eqn:Htail in Hlast; [|done]. apply Z.leb_le in Hlast.
  rewrite Hw, filter_app, map_app, (page_stable _ (fence_wall_at e) _ _ tail); [|done..|].
  - by rewrite Hall.
  - apply Forall_forall. intros k (r & -> & [Hr Hin]%list_elem_of_filter)%list_elem_of_fmap.
    unfold above in Ha. rewrite Forall_forall in Ha. apply (Ha r Hin).
    apply andb_true_iff in Hr as [Hr _]. unfold is_reply in Hr.
    destruct (metadata (columns n (row_key r))) as [tm|] eqn:Hm; [|done].
    apply (Hthreads n r tm); [|done]. rewrite Hw. apply elem_of_app. by right.
Qed.

Lemma window_complete restores kinds channel_id limit ts id c' e reason :
  rtc step c c' -> routed (from_channel_cursor (Some (ts, id))) = Replica e reason ->
  get_channel_window_on restores kinds channel_id limit (Some (ts, id)) snapshot =
  get_channel_window_on restores kinds channel_id limit (Some (ts, id)) (complete c').
Proof.
  intros Hlater (Hs & Hv)%routed_sealed. simpl in Hv.
  destruct (missing_above _ _ _ _ _ Hn Hs Hlater) as (rest & Hw & Ha).
  destruct (ts <=? fence_wall_at e) eqn:Hle; [|done]. apply Z.leb_le in Hle.
  unfold get_channel_window_on, complete, snapshot. simpl.
  rewrite Hw, filter_app, (above_none _ _ _ Ha), app_nil_r; [done|].
  intros r [Hm Hb]%andb_true_iff. unfold in_window in Hm. rewrite !andb_true_iff in Hm.
  destruct Hm as [[[Hm%bool_decide_eq_true _] _] _]. split; [by rewrite Hm|]. simpl in Hb.
  apply orb_true_iff in Hb as [Hb|Hb]; [apply Z.ltb_lt in Hb; lia|].
  apply andb_true_iff in Hb as [Hb _]. apply Z.eqb_eq in Hb. lia.
Qed.

(** C33: A thread or channel page past a cursor misses no row: whatever the replica had
    replayed, it is the page of the rows the writer has at any later moment (as when it is read
    again there).  What [UPDATE]s change, soft deletion and thread metadata, is either as the
    writer has it then or as the reader's session has it, so that a page may still serve a row
    that was deleted since; when no such column changed in between, the page is the writer's.
    [columns] is the history of those columns; a thread row's event is in a channel, since
    [thread_metadata.channel_id] is [NOT NULL]. *)
Theorem cursor_pages_complete restores kinds limit (c' : Cluster)
    (Hthreads : threads_in_channels c') (Hlater : rtc step c c') :
  (forall root depth_limit cursor_key,
     let page t := get_thread_replies_on restores root depth_limit limit cursor_key t in
     let served := get_thread_replies restores root depth_limit limit (Some cursor_key)
                     (routed CoveredPostVerified) (Some snapshot) (tables c') in
     (served = page (tables c') \/ served = page (complete c')) /\
     (columns n = columns (length (log c')) -> served = page (tables c'))) /\
  (forall channel_id ts id,
     let page t := get_channel_window_on restores kinds channel_id limit (Some (ts, id)) t in
     let served := get_channel_window restores kinds channel_id limit (Some (ts, id))
                     (routed (from_channel_cursor (Some (ts, id)))) (Some snapshot) (tables c') in
     (served = page (tables c') \/ served = page (complete c')) /\
     (columns n = columns (length (log c')) -> served = page (tables c'))).
Proof.
  assert (forall A (served : A) page,
    served = page (tables c') \/ served = page (complete c') ->
    (served = page (tables c') \/ served = page (complete c')) /\
    (columns n = columns (length (log c')) -> served = page (tables c'))) as Hsplit.
  { intros A served page H. split; [done|]. intros Heq. destruct H as [->| ->]; [done|].
    unfold complete, tables. by rewrite Heq. }
  split.
  - intros root depth_limit cursor_key page served. apply Hsplit. unfold served, get_thread_replies.
    destruct (routed CoveredPostVerified) as [e reason|] eqn:Hroute; [|by left].
    cbn [default]. case_match eqn:Hcond; [right|by left].
    apply andb_true_iff in Hcond as [Hfull Hlast]. by eapply thread_page_complete.
  - intros channel_id ts id page served. apply Hsplit. unfold served, get_channel_window.
    destruct (routed _) as [e reason|] eqn:Hroute; [right|by left]. by eapply window_complete.
Qed.
End columns.
End routed.

(** Without a restore of the writer the regression arm of the probe never runs. *)
Lemma probe_never_regresses c n f rotate wall at_ tok ep :
  reachable c -> pods c !! n = Some (mkPod f (Beaten rotate wall at_ tok ep)) ->
  snd (record f tok ep at_ wall) = Recorded.
Proof.
  intros Hinv%reachable_invariant Hn. apply (inv_pods c Hinv) in Hn.
  by apply (after_record_ok c f rotate wall).
Qed.

(** * Examples *)

Module Reference.
(** One event at 1030 s commits when the clock is at 1950 s; at 2000 s a probe runs; then
    another event, at 1995 s, commits. *)
Definition s0 : Cluster := initial (1950 * SECOND) 7%N.
Definition s1 : Cluster := set_txn 0 (mkTxn (clock s0) Running) s0.
Definition row1 : Row := mkRow (1030 * SECOND) 1%N (Some 5%N).
Definition s2 : Cluster := set_txn 0 (mkTxn (1950 * SECOND) (Guarded (clock s1) [row1])) s1.
Definition s3 : Cluster :=
  append (Rows [row1] (instant s2)) (set_txn 0 (mkTxn (1950 * SECOND) Ended) s2).
Definition s4 : Cluster :=
  mkCluster (2000 * SECOND) (50 * SECOND) (log s3) (txns s3) (prepared s3) (pods s3).
Definition s5 : Cluster := set_pod 0 (mkPod new_fence Idle) s4.
Definition s6 : Cluster := set_pod 0 (mkPod new_fence (Clocked (clock s5))) s5.
Definition view : list Activity := [mkActivity (Some "client backend") (Some "active") (Some (1950 * SECOND))].
Definition wall : Z := fence_wall (2000 * SECOND) (Some (1950 * SECOND)).
Definition s7 : Cluster := set_pod 0 (mkPod new_fence (Scanned wall)) s6.
Definition s8 : Cluster := set_pod 0 (mkPod new_fence (Stamped false wall (instant s7))) s7.
Definition s9 : Cluster :=
  append (Beat 1 7%N) (set_pod 0 (mkPod new_fence (Beaten false wall (50 * SECOND) 1 7%N)) s8).
Definition s10 : Cluster :=
  set_pod 0 (after_record false wall (record new_fence 1 7%N (50 * SECOND) wall)) s9.
Definition row2 : Row := mkRow (1995 * SECOND) 2%N (Some 5%N).
Definition s11 : Cluster := set_txn 1 (mkTxn (clock s10) Running) s10.
Definition s12 : Cluster := set_txn 1 (mkTxn (2000 * SECOND) (Guarded (clock s11) [row2])) s11.
Definition s13 : Cluster :=
  append (Rows [row2] (instant s12)) (set_txn 1 (mkTxn (2000 * SECOND) Ended) s12).

Definition pod0 : Pod := default (mkPod new_fence Idle) (pods s10 !! 0%nat).
Definition channel5 (r : Row) : bool := bool_decide (channel r = Some 5%N).
End Reference.

Import Reference.

Lemma shows_view : shows view (txns s6).
Proof.
  intros b t Hb. simpl in Hb. exists (mkActivity (Some "client backend") (Some "active") (Some (1950 * SECOND))).
  split; [left|]. left. rewrite !lookup_insert in Hb. repeat case_decide; simplify_eq; try done.
Qed.

Lemma s10_reachable : reachable s10.
Proof.
  exists (1950 * SECOND), 7%N.
  eapply rtc_l; [exact (txn_begins 0 s0 eq_refl)|].
  eapply rtc_l; [exact (txn_guarded 0 _ [row1] s1 eq_refl eq_refl eq_refl)|].
  eapply rtc_l; [exact (txn_commits 0 _ _ [row1] s2 eq_refl eq_refl)|].
  eapply rtc_l; [refine (clocks_advance s3 (2000 * SECOND) (50 * SECOND) _ _); by vm_compute|].
  eapply rtc_l; [exact (pod_starts 0 s4)|].
  eapply rtc_l; [exact (probe_clock 0 new_fence s5 eq_refl)|].
  eapply rtc_l; [exact (probe_scan 0 new_fence _ view (Some (1950 * SECOND)) s6 eq_refl shows_view eq_refl)|].
  eapply rtc_l; [exact (probe_stamp 0 new_fence _ s7 eq_refl)|].
  eapply rtc_l; [exact (probe_beat 0 new_fence _ _ 0 7%N s8 eq_refl eq_refl)|].
  eapply rtc_l; [exact (probe_record 0 new_fence _ _ _ _ _ s9 eq_refl)|].
  apply rtc_refl.
Qed.

Lemma s13_later : rtc step s10 s13.
Proof.
  eapply rtc_l; [exact (txn_begins 1 s10 eq_refl)|].
  eapply rtc_l; [exact (txn_guarded 1 _ [row2] s11 eq_refl eq_refl eq_refl)|].
  eapply rtc_l; [exact (txn_commits 1 _ _ [row2] s12 eq_refl eq_refl)|].
  apply rtc_refl.
Qed.

(** The wall is at 985 s; a read up to 980 s is covered. *)
Lemma routed_reads_sound_witness :
  exists e,
    routed s10 3 pod0 true None (fence pod0) (60 * SECOND) (60 * SECOND) (Covered (980 * SECOND)) =
      Replica e "covered" /\
    filter (fun r => at_most (980 * SECOND) r = true) (rows_of (log s13)) =
    filter (fun r => at_most (980 * SECOND) r = true) (rows_of (take 3 (log s10))).
Proof.
  exists (mkEntry 1 (50 * SECOND) wall).
  assert (routed s10 3 pod0 true None (fence pod0) (60 * SECOND) (60 * SECOND) (Covered (980 * SECOND)) =
    Replica (mkEntry 1 (50 * SECOND) wall) "covered") as Hr by (vm_compute; reflexivity).
  split; [exact Hr|].
  exact (proj1 (routed_reads_sound s10 0 3 pod0 true None (fence pod0) (60 * SECOND) (60 * SECOND)
    s10_reachable eq_refl (le_n _) _ _ _ Hr) (980 * SECOND) s13 (or_introl eq_refl) s13_later).
Defined.

(** Both events are replies to event 9; the first commit that follows the snapshot deletes the
    first event.  A thread page of one reply past 1000 s ends above the wall and is read on the
    writer, which has the second event only; the window before 980 s is the replica's. *)
Definition columns5 (k : nat) (key : RowKey) : Columns :=
  mkColumns (if (3 <? k)%nat && (key.2 =? 1)%N then Some 0 else None)
    (Some (mkMetadata (Some 9%N) 1 true 0 0 None)).

Lemma cursor_pages_complete_witness :
  get_thread_replies (fun _ => true) 9%N None 1 (Some (Some (1000 * SECOND, None)))
    (routed s10 3 pod0 true None (fence pod0) (60 * SECOND) (60 * SECOND) CoveredPostVerified)
    (Some (snapshot s10 3 columns5)) (tables columns5 s13) = [(1995 * SECOND, 2%N)] /\
  window_rows (get_channel_window (fun _ => true) (fun _ => true) 5%N 2 (Some (980 * SECOND, 3%N))
    (routed s10 3 pod0 true None (fence pod0) (60 * SECOND) (60 * SECOND)
       (from_channel_cursor (Some (980 * SECOND, 3%N))))
    (Some (snapshot s10 3 columns5)) (tables columns5 s13)) = [].
Proof.
  assert (threads_in_channels columns5 s13) as Hthreads.
  { intros k r tm Hr _. revert r Hr. apply Forall_forall.
    assert (rows_of (log s13) = [row1; row2]) as -> by (vm_compute; reflexivity).
    repeat constructor; by eexists. }
  destruct (cursor_pages_complete s10 0 3 pod0 true None (fence pod0) (60 * SECOND) (60 * SECOND)
    s10_reachable eq_refl (le_n _) columns5 (fun _ => true) (fun _ => true) 1 s13 Hthreads s13_later)
    as [Hthread _].
  destruct (cursor_pages_complete s10 0 3 pod0 true None (fence pod0) (60 * SECOND) (60 * SECOND)
    s10_reachable eq_refl (le_n _) columns5 (fun _ => true) (fun _ => true) 2 s13 Hthreads s13_later)
    as [_ Hwindow].
  split.
  - vm_compute. reflexivity.
  - destruct (Hwindow 5%N (980 * SECOND) 3%N) as [[->| ->] _]; vm_compute; reflexivity.
Defined.

(** The regression check needs the ring that an error clears.  A probe that failed while the
    writer was restored to an earlier token of the same epoch records the lower token, and a
    session of the old timeline, whose token is higher, then proves the new entry. *)
Example regression_missed_after_close :
  let f := fst (record new_fence 100 7%N 0 (1000 * SECOND)) in
  snd (record f 51 7%N 1 (2000 * SECOND)) = TokenRegression /\
  let f' := record (close f) 51 7%N 1 (2000 * SECOND) in
  snd f' = Recorded /\ resolve (fst f') 100 7%N = Proved (mkEntry 51 1 (2000 * SECOND)).
Proof. vm_compute. split_and!; reflexivity. Qed.
