(* ===== verification/AuditLog.v ===== *)
(** The tamper-evident audit log ([crates/buzz-audit/src/]): the hash of an entry
    ([hash.rs]), the action names ([action.rs]), appending to and verifying a
    community's chain ([service.rs]), and the relay processes that append
    concurrently under the per-community advisory lock.

    Timestamps, SHA-256 and the two lossy Postgres column types
    are the fields of [AuditDeps]; what the crate relies on is [AuditLaws]. *)
From S2P Require Import Prelude Nostr Text Json.
From Stdlib Require Import Strings.Byte.
Local Open Scope string_scope.
Local Open Scope list_scope.
Local Open Scope Z_scope.
Local Open Scope buzz_scope.

Class AuditDeps (J : SerdeJson) := {
  DateTime : Type;
  (** [chrono]: [SubsecRound::trunc_subsecs], [DateTime::<Utc>::to_rfc3339] *)
  trunc_subsecs : DateTime -> nat -> DateTime;
  to_rfc3339 : DateTime -> string;
  (** [sha2::Sha256] of the concatenation of the updates *)
  sha256 : Bytes -> Bytes;
  (** what a [TIMESTAMPTZ] and a [JSONB] column return for the value stored *)
  pg_timestamptz : DateTime -> DateTime;
  pg_jsonb : Value Number -> Value Number
}.

Class AuditLaws {J : SerdeJson} (D : AuditDeps J) := {
  sha256_length b : length (sha256 b) = 32%nat;
  trunc_idem t : trunc_subsecs (trunc_subsecs t 6) 6 = trunc_subsecs t 6;
  timestamptz_micros t : pg_timestamptz (trunc_subsecs t 6) = trunc_subsecs t 6;
  rfc3339_chars t :
    str_all (fun c => negb (between "a" c "z")) (to_rfc3339 t) = true
}.

(** * Actions *)

Inductive AuditAction :=
| EventCreated | EventDeleted | ChannelCreated | ChannelUpdated | ChannelDeleted
| MemberAdded | MemberRemoved | AuthSuccess | AuthFailure | RateLimitExceeded
| MediaUploaded.
#[export] Instance AuditAction_eq_dec : EqDecision AuditAction.
Proof. solve_decision. Defined.

Definition as_str (a : AuditAction) : string :=
  match a with
  | EventCreated => "event_created"
  | EventDeleted => "event_deleted"
  | ChannelCreated => "channel_created"
  | ChannelUpdated => "channel_updated"
  | ChannelDeleted => "channel_deleted"
  | MemberAdded => "member_added"
  | MemberRemoved => "member_removed"
  | AuthSuccess => "auth_success"
  | AuthFailure => "auth_failure"
  | RateLimitExceeded => "rate_limit_exceeded"
  | MediaUploaded => "media_uploaded"
  end.

Definition ALL : list AuditAction :=
  [EventCreated; EventDeleted; ChannelCreated; ChannelUpdated; ChannelDeleted;
   MemberAdded; MemberRemoved; AuthSuccess; AuthFailure; RateLimitExceeded;
   MediaUploaded].

(** [Err s] carries the string quoted in the message. *)
Definition from_str (s : string) : result AuditAction string :=
  match List.find (fun a => String.eqb (as_str a) s) ALL with
  | Some a => Ok a
  | None => Err s
  end.

Lemma from_str_as_str a : from_str (as_str a) = Ok a.
Proof. by destruct a. Qed.

(** * Bytes *)

Definition byte_of (n : N) : Byte.byte := default x00 (Byte.of_N n).

(** The [n] big-endian bytes of [x]. *)
Fixpoint be_bytes (n : nat) (x : N) : Bytes :=
  match n with
  | O => []
  | S n' => be_bytes n' (x / 256)%N ++ [byte_of (x mod 256)%N]
  end.

Definition i64_wrap (x : Z) : Z := (x + 2 ^ 63) mod 2 ^ 64 - 2 ^ 63.
Definition i64_to_be_bytes (x : Z) : Bytes := be_bytes 8 (Z.to_N (x mod 2 ^ 64)).
Definition uuid_as_bytes (u : Uuid) : Bytes := be_bytes 16 u.
Definition as_bytes (s : string) : Bytes := String.list_byte_of_string s.

Lemma be_bytes_length n x : length (be_bytes n x) = n.
Proof. revert x. induction n as [|n IH]; intros x; simpl; [done|]. rewrite length_app, IH. simpl. lia. Qed.

Lemma byte_of_inj a b : (a < 256)%N -> (b < 256)%N -> byte_of a = byte_of b -> a = b.
Proof.
  intros Ha Hb. unfold byte_of.
  destruct (Byte.of_N a) as [x|] eqn:Hx; [|apply Byte.of_N_None_iff in Hx; lia].
  destruct (Byte.of_N b) as [y|] eqn:Hy; [|apply Byte.of_N_None_iff in Hy; lia].
  simpl. intros ->. apply Byte.to_of_N in Hx, Hy. congruence.
Qed.

Lemma be_bytes_inj n x y :
  (x < 256 ^ N.of_nat n)%N -> (y < 256 ^ N.of_nat n)%N ->
  be_bytes n x = be_bytes n y -> x = y.
Proof.
  revert x y. induction n as [|n IH]; intros x y Hx Hy Heq.
  - change (256 ^ N.of_nat 0)%N with 1%N in *. lia.
  - rewrite Nat2N.inj_succ, N.pow_succ_r' in Hx, Hy. cbn [be_bytes] in Heq.
    apply app_inj_tail in Heq as [Hq Hr].
    apply IH in Hq; [|apply N.Div0.div_lt_upper_bound; lia..].
    apply byte_of_inj in Hr; [|apply N.mod_lt; lia..].
    rewrite (N.div_mod x 256), (N.div_mod y 256) by lia. by rewrite Hq, Hr.
Qed.

Definition is_i64 (x : Z) : Prop := - 2 ^ 63 <= x < 2 ^ 63.

Lemma i64_to_be_bytes_inj x y :
  is_i64 x -> is_i64 y -> i64_to_be_bytes x = i64_to_be_bytes y -> x = y.
Proof.
  intros Hx Hy Heq. apply be_bytes_inj in Heq.
  - apply Z2N.inj in Heq; [|apply Z.mod_pos_bound; lia..]. unfold is_i64 in *.
    pose proof (Z.div_mod x (2 ^ 64) ltac:(lia)). pose proof (Z.div_mod y (2 ^ 64) ltac:(lia)).
    rewrite Heq in *. change (2 ^ 64) with 18446744073709551616 in *.
    change (2 ^ 63) with 9223372036854775808 in *. lia.
  - change (256 ^ N.of_nat 8)%N with (Z.to_N (2 ^ 64)).
    pose proof (Z.mod_pos_bound x (2 ^ 64) ltac:(lia)). lia.
  - change (256 ^ N.of_nat 8)%N with (Z.to_N (2 ^ 64)).
    pose proof (Z.mod_pos_bound y (2 ^ 64) ltac:(lia)). lia.
Qed.

Lemma i64_wrap_id x : is_i64 x -> i64_wrap x = x.
Proof. unfold is_i64, i64_wrap. intros Hx. rewrite Z.mod_small; lia. Qed.

(** * Canonical JSON *)

(** [BTreeMap<&str, _>::insert] on the sorted list of the map's entries. *)
Fixpoint btree_insert {A : Type} (k : string) (v : A) (m : list (string * A))
  : list (string * A) :=
  match m with
  | [] => [(k, v)]
  | (k', v') :: m' =>
      match String.compare k k' with
      | Lt => (k, v) :: m
      | Eq => (k, v) :: m'
      | Gt => (k', v') :: btree_insert k v m'
      end
  end.

Definition btree_collect {A : Type} (l : list (string * A)) : list (string * A) :=
  fold_left (fun acc p => btree_insert (fst p) (snd p) acc) l [].

Lemma btree_insert_commute {A : Type} k1 k2 (v1 v2 : A) m :
  k1 <> k2 ->
  btree_insert k1 v1 (btree_insert k2 v2 m) = btree_insert k2 v2 (btree_insert k1 v1 m).
Proof.
  intros Hne.
  assert (String.compare k1 k2 <> Eq) as H12 by (by rewrite string_compare_Eq).
  assert (String.compare k2 k1 <> Eq) as H21 by (rewrite string_compare_Eq; congruence).
  pose proof (string_compare_Gt_Lt k1 k2) as G12. pose proof (string_compare_Gt_Lt k2 k1) as G21.
  induction m as [|[k v] m IH]; simpl.
  - destruct (String.compare k1 k2), (String.compare k2 k1); naive_solver.
  - pose proof (string_compare_Gt_Lt k1 k) as G1. pose proof (string_compare_Gt_Lt k2 k) as G2.
    destruct (String.compare k1 k) eqn:H1, (String.compare k2 k) eqn:H2; simpl;
      rewrite ?H1, ?H2; simpl; try done;
      repeat match goal with
      | H : String.compare _ _ = Eq |- _ => apply string_compare_Eq in H; first [subst k | congruence]
      end;
      rewrite ?H1, ?H2, ?string_compare_refl; try done; try congruence.
    1-3: destruct (String.compare k1 k2), (String.compare k2 k1); naive_solver.
    + assert (String.compare k1 k2 = Lt) as E by (apply (string_compare_trans _ k); naive_solver).
      by rewrite (proj2 G21 E).
    + assert (String.compare k2 k1 = Lt) as E by (apply (string_compare_trans _ k); naive_solver).
      by rewrite (proj2 G12 E).
Qed.

Lemma btree_collect_perm {A : Type} (l1 l2 : list (string * A)) :
  l1 ≡ₚ l2 -> NoDup (l1.*1) -> btree_collect l1 = btree_collect l2.
Proof.
  intros Hp. unfold btree_collect. generalize (@nil (string * A)).
  induction Hp as [|[k v] l1 l2 Hp IH|[k1 v1] [k2 v2] l|l1 l2 l3 Hp1 IH1 Hp2 IH2];
    intros acc Hnd; simpl in *; [done| | |].
  - apply NoDup_cons in Hnd as [_ Hnd]. by apply IH.
  - rewrite !NoDup_cons in Hnd. destruct Hnd as [Hk _].
    rewrite btree_insert_commute; [done|]. intros ->. apply Hk. left.
  - rewrite IH1 by done. apply IH2. by rewrite <-Hp1.
Qed.

Section hash.
Context {J : SerdeJson} {D : AuditDeps J}.

(** The loop over the sorted members, and the one over array elements; [out] is the
    text so far. *)
Fixpoint emit_members (first : bool) (out : string)
    (members : list (string * result string SerdeError)) : result string SerdeError :=
  match members with
  | [] => Ok out
  | (k, v) :: members' =>
      let out := if first then out else out +:+ "," in
      let? key := to_string_str k in
      let out := out +:+ key +:+ ":" in
      let? text := v in
      emit_members false (out +:+ text) members'
  end.

Fixpoint emit_elements (first : bool) (out : string)
    (elements : list (result string SerdeError)) : result string SerdeError :=
  match elements with
  | [] => Ok out
  | v :: elements' =>
      let out := if first then out else out +:+ "," in
      let? text := v in
      emit_elements false (out +:+ text) elements'
  end.

Fixpoint canonical_json (value : Value Number) : result string SerdeError :=
  match value with
  | Object map =>
      let sorted :=
        btree_collect (List.map (fun p => (fst p, canonical_json (snd p))) map) in
      let? out := emit_members true "{" sorted in
      Ok (out +:+ "}")
  | Array arr =>
      let? out := emit_elements true "[" (List.map canonical_json arr) in
      Ok (out +:+ "]")
  | other => to_string_value other
  end.

(** Equal up to the order of object members. *)
Inductive json_equiv : Value Number -> Value Number -> Prop :=
| jeq_refl v : json_equiv v v
| jeq_array l1 l2 : Forall2 json_equiv l1 l2 -> json_equiv (Array l1) (Array l2)
| jeq_object m1 m m2 :
    NoDup (m1.*1) -> m1 ≡ₚ m ->
    Forall2 (fun p q => fst p = fst q /\ json_equiv (snd p) (snd q)) m m2 ->
    json_equiv (Object m1) (Object m2).

Lemma canonical_json_equiv v1 v2 : json_equiv v1 v2 -> canonical_json v1 = canonical_json v2.
Proof.
  revert v1 v2. fix IH 3. intros v1 v2 H. destruct H as [v|l1 l2 Hl|m1 m m2 Hnd Hp Hm].
  - reflexivity.
  - assert (List.map canonical_json l1 = List.map canonical_json l2) as Heq.
    { induction Hl as [|a b l1 l2 Hab _ IHl]; simpl; [reflexivity|].
      rewrite (IH _ _ Hab), IHl. reflexivity. }
    simpl. rewrite Heq. reflexivity.
  - assert (List.map (fun p => (fst p, canonical_json (snd p))) m =
            List.map (fun p => (fst p, canonical_json (snd p))) m2) as Heq.
    { clear Hp. induction Hm as [|a b l1 l2 [Hk Hab] _ IHl]; simpl; [reflexivity|].
      rewrite Hk, (IH _ _ Hab), IHl. reflexivity. }
    simpl. rewrite <-Heq.
    rewrite (btree_collect_perm _ (List.map (fun p => (fst p, canonical_json (snd p))) m)).
    + reflexivity.
    + apply Permutation_map. exact Hp.
    + rewrite List.map_map. exact Hnd.
Qed.

(** An object's text starts with its brace. *)
Lemma emit_members_prefix first out members t :
  emit_members first out members = Ok t -> exists r, t = out +:+ r.
Proof.
  revert first out. induction members as [|[k v] members IH]; intros first out; simpl.
  - intros [= <-]. exists "". by rewrite append_nil_r.
  - intros (key & _ & (text & _ & Ht)%res_bind_Ok)%res_bind_Ok.
    apply IH in Ht as [r ->].
    destruct first; eexists; rewrite ?append_assoc; reflexivity.
Qed.

Lemma canonical_json_object m t :
  canonical_json (Object m) = Ok t -> exists r, t = "{" +:+ r.
Proof.
  simpl. intros (out & Hout & [= <-])%res_bind_Ok.
  apply emit_members_prefix in Hout as [r ->]. exists (r +:+ "}").
  by rewrite append_assoc.
Qed.

(** * Entries and their hash *)

Record AuditEntry := mkEntry {
  community_id : Uuid;
  seq : Z;
  hash : Bytes;
  prev_hash : option Bytes;
  action : AuditAction;
  actor_pubkey : option Bytes;
  object_id : option string;
  detail : Value Number;
  created_at : DateTime
}.

Record NewAuditEntry := mkNew {
  n_community_id : Uuid;
  n_action : AuditAction;
  n_actor_pubkey : option Bytes;
  n_object_id : option string;
  n_detail : Value Number
}.

Inductive DbError :=
| PrimaryKeyViolation | HashIndexViolation | ForeignKeyViolation.

Inductive AuditError :=
| Database (e : DbError)
| ChainViolation (seq : Z)
| HashMismatch (seq : Z)
| UnknownAction
| Serialization (e : SerdeError).

Definition GENESIS_HASH : Bytes := repeat x00 32.

Definition to_storage_precision (created_at : DateTime) : DateTime :=
  trunc_subsecs created_at 6.

(** An optional field behind its presence tag. *)
Definition tagged (field : option Bytes) : Bytes :=
  match field with Some b => x01 :: b | None => [x00] end.

(** The bytes fed to the hasher, in order. *)
Definition hash_input (entry : AuditEntry) : result Bytes AuditError :=
  let? text := map_err Serialization (canonical_json (detail entry)) in
  Ok (uuid_as_bytes (community_id entry) ++
      i64_to_be_bytes (seq entry) ++
      as_bytes (to_rfc3339 (to_storage_precision (created_at entry))) ++
      as_bytes (as_str (action entry)) ++
      tagged (actor_pubkey entry) ++
      tagged (option_map as_bytes (object_id entry)) ++
      as_bytes text ++
      default GENESIS_HASH (prev_hash entry)).

Definition compute_hash (entry : AuditEntry) : result Bytes AuditError :=
  let? input := hash_input entry in
  Ok (sha256 input).

(** * Framing of the hash input *)

Lemma as_bytes_app s t : as_bytes (s +:+ t) = as_bytes s ++ as_bytes t.
Proof. induction s as [|c s IH]; [done|]. exact (f_equal (cons (byte_of_ascii c)) IH). Qed.

Lemma as_bytes_inj s t : as_bytes s = as_bytes t -> s = t.
Proof.
  intros H. rewrite <-(String.string_of_list_byte_of_string s),
    <-(String.string_of_list_byte_of_string t). by apply (f_equal String.string_of_list_byte).
Qed.

Lemma as_bytes_all (f : ascii -> bool) s :
  str_all f s = true -> Forall (fun b => f (ascii_of_byte b) = true) (as_bytes s).
Proof.
  induction s as [|c s IH]; [by constructor|].
  simpl. rewrite andb_true_iff. intros [Hc Hs].
  change (as_bytes (String c s)) with (byte_of_ascii c :: as_bytes s).
  constructor; [by rewrite ascii_of_byte_of_ascii|by apply IH].
Qed.

(** Two texts followed by a byte outside their alphabet. *)
Lemma split_at_delimiter (P : Byte.byte -> Prop) s1 s2 c1 c2 r1 r2 :
  Forall P s1 -> Forall P s2 -> ~ P c1 -> ~ P c2 ->
  s1 ++ c1 :: r1 = s2 ++ c2 :: r2 -> s1 = s2 /\ c1 :: r1 = c2 :: r2.
Proof.
  intros H1. revert s2. induction H1 as [|x s1 Hx H1 IH]; intros s2 H2 Hc1 Hc2 Heq.
  - destruct H2 as [|y s2 Hy H2]; simpl in *; [done|]. by simplify_eq.
  - destruct H2 as [|y s2 Hy H2]; simpl in *; simplify_eq.
    + done.
    + destruct (IH s2) as [-> ?]; naive_solver.
Qed.

Definition not_lower (c : ascii) : bool := negb (between "a" c "z").
Definition not_brace (c : ascii) : bool := negb (Ascii.eqb c "{").
Definition lower_byte (b : Byte.byte) : Prop := between "a" (ascii_of_byte b) "z" = true.

(** The bytes of an action name: never a presence tag, and a letter first. *)
Lemma action_bytes a :
  exists b r, as_bytes (as_str a) = b :: r /\ lower_byte b /\
    Forall (fun x => x <> x00 /\ x <> x01) (as_bytes (as_str a)).
Proof. destruct a; eexists _, _; (split; [reflexivity|]); (split; [reflexivity|]); repeat constructor; done. Qed.

Lemma as_str_inj a b : as_str a = as_str b -> a = b.
Proof. intros H. pose proof (from_str_as_str a) as Ha. rewrite H, from_str_as_str in Ha. congruence. Qed.

(** What the relay logs: a 32-byte actor key, an object id without a brace (a hex id, a
    UUID), an object as detail, and the hash of the previous entry as its link. *)
Definition framed (entry : AuditEntry) : Prop :=
  (community_id entry < 2 ^ 128)%N /\ is_i64 (seq entry) /\
  (forall k, actor_pubkey entry = Some k -> length k = 32%nat) /\
  (forall o, object_id entry = Some o -> str_all not_brace o = true) /\
  (exists m, detail entry = Object m) /\
  (forall h, prev_hash entry = Some h -> length h = 32%nat).

Context {LL : AuditLaws D}.

Lemma tagged_pubkey_inj k1 k2 r1 r2 :
  (forall k, k1 = Some k -> length k = 32%nat) ->
  (forall k, k2 = Some k -> length k = 32%nat) ->
  tagged k1 ++ r1 = tagged k2 ++ r2 -> k1 = k2 /\ r1 = r2.
Proof.
  intros H1 H2. destruct k1 as [k1|], k2 as [k2|]; simpl; intros [=]; [|done].
  destruct (app_inj_1 k1 k2 r1 r2) as [-> ->]; [|done..].
  by rewrite (H1 k1), (H2 k2).
Qed.

Lemma tagged_object_inj o1 o2 t1 t2 r1 r2 :
  (forall o, o1 = Some o -> str_all not_brace o = true) ->
  (forall o, o2 = Some o -> str_all not_brace o = true) ->
  tagged (option_map as_bytes o1) ++ as_bytes ("{" +:+ t1) ++ r1 =
  tagged (option_map as_bytes o2) ++ as_bytes ("{" +:+ t2) ++ r2 ->
  o1 = o2 /\ as_bytes ("{" +:+ t1) ++ r1 = as_bytes ("{" +:+ t2) ++ r2.
Proof.
  rewrite !as_bytes_app. intros H1 H2.
  destruct o1 as [o1|], o2 as [o2|]; simpl; intros [= H]; [|by rewrite H].
  apply (split_at_delimiter (fun b => not_brace (ascii_of_byte b) = true)) in H
    as [Ho Hr]; [|by apply (as_bytes_all not_brace), H1|by apply (as_bytes_all not_brace), H2|done..].
  apply as_bytes_inj in Ho as ->. done.
Qed.

Lemma time_action_inj t1 t2 a1 a2 k1 k2 r1 r2 :
  as_bytes (to_rfc3339 t1) ++ as_bytes (as_str a1) ++ tagged k1 ++ r1 =
  as_bytes (to_rfc3339 t2) ++ as_bytes (as_str a2) ++ tagged k2 ++ r2 ->
  to_rfc3339 t1 = to_rfc3339 t2 /\ a1 = a2 /\ tagged k1 ++ r1 = tagged k2 ++ r2.
Proof.
  intros H.
  destruct (action_bytes a1) as (b1 & s1 & E1 & L1 & N1), (action_bytes a2) as (b2 & s2 & E2 & L2 & N2).
  assert (to_rfc3339 t1 = to_rfc3339 t2 /\
    as_bytes (as_str a1) ++ tagged k1 ++ r1 = as_bytes (as_str a2) ++ tagged k2 ++ r2)
    as [Ht Ha].
  { rewrite E1, E2 in *. simpl in *.
    apply (split_at_delimiter (fun b => not_lower (ascii_of_byte b) = true)) in H
      as [Ht Ha]; [|apply (as_bytes_all not_lower), rfc3339_chars|apply (as_bytes_all not_lower), rfc3339_chars
                   |unfold not_lower; by rewrite L1|unfold not_lower; by rewrite L2].
    apply as_bytes_inj in Ht. done. }
  split; [done|].
  assert (forall k : option Bytes, exists c r, tagged k = c :: r /\ ~ (c <> x00 /\ c <> x01))
    as Htag by (intros [k|]; eexists _, _; (split; [reflexivity|]); naive_solver).
  destruct (Htag k1) as (c1 & q1 & F1 & Hc1), (Htag k2) as (c2 & q2 & F2 & Hc2).
  rewrite F1, F2 in *. simpl in Ha. apply (split_at_delimiter (fun x => x <> x00 /\ x <> x01)) in Ha as [Ha Hr]; try done.
  apply as_bytes_inj, as_str_inj in Ha. done.
Qed.

Lemma hash_input_Ok e p :
  hash_input e = Ok p ->
  exists text, canonical_json (detail e) = Ok text /\
    p = uuid_as_bytes (community_id e) ++ i64_to_be_bytes (seq e) ++
        as_bytes (to_rfc3339 (to_storage_precision (created_at e))) ++
        as_bytes (as_str (action e)) ++ tagged (actor_pubkey e) ++
        tagged (option_map as_bytes (object_id e)) ++ as_bytes text ++
        default GENESIS_HASH (prev_hash e).
Proof.
  unfold hash_input. destruct (canonical_json (detail e)) as [t|x]; cbn [map_err res_bind].
  - intros H. exists t. split; [done|]. congruence.
  - congruence.
Qed.

Lemma be_bytes_app_inj n x y r1 r2 :
  be_bytes n x ++ r1 = be_bytes n y ++ r2 -> be_bytes n x = be_bytes n y /\ r1 = r2.
Proof. intros H. apply app_inj_1 in H; [done|]. by rewrite !be_bytes_length. Qed.

(** The fixed-width prefix is the entry's identity, whatever the rest is. *)
Lemma hash_input_identity e1 e2 p1 p2 :
  (community_id e1 < 2 ^ 128)%N -> (community_id e2 < 2 ^ 128)%N ->
  is_i64 (seq e1) -> is_i64 (seq e2) ->
  hash_input e1 = Ok p1 -> hash_input e2 = Ok p2 -> p1 = p2 ->
  community_id e1 = community_id e2 /\ seq e1 = seq e2.
Proof.
  intros Hc1 Hc2 Hs1 Hs2 (t1 & _ & ->)%hash_input_Ok (t2 & _ & ->)%hash_input_Ok H.
  apply be_bytes_app_inj in H as [Hc H]. apply be_bytes_app_inj in H as [Hs _].
  split; [by apply (be_bytes_inj 16)|by apply i64_to_be_bytes_inj].
Qed.

(** The last 32 bytes are the link. *)
Lemma hash_input_link e1 e2 p1 p2 h1 h2 :
  prev_hash e1 = Some h1 -> prev_hash e2 = Some h2 -> length h1 = 32%nat -> length h2 = 32%nat ->
  hash_input e1 = Ok p1 -> hash_input e2 = Ok p2 -> p1 = p2 -> h1 = h2.
Proof.
  intros E1 E2 L1 L2 (t1 & _ & ->)%hash_input_Ok (t2 & _ & ->)%hash_input_Ok H.
  rewrite E1, E2, !(assoc_L (++)) in H.
  apply app_inj_2 in H as [_ H]; [exact H|]. simpl. lia.
Qed.

(** Entries of the shape the relay logs are hashed injectively: two that feed the hasher
    the same bytes agree on the community, the sequence number, the timestamp as stored,
    the action, the actor, the object, the canonical detail and the link. *)
Theorem hash_input_injective e1 e2 p :
  framed e1 -> framed e2 -> hash_input e1 = Ok p -> hash_input e2 = Ok p ->
  community_id e1 = community_id e2 /\ seq e1 = seq e2 /\
  to_rfc3339 (to_storage_precision (created_at e1)) =
    to_rfc3339 (to_storage_precision (created_at e2)) /\
  action e1 = action e2 /\ actor_pubkey e1 = actor_pubkey e2 /\
  object_id e1 = object_id e2 /\ canonical_json (detail e1) = canonical_json (detail e2) /\
  default GENESIS_HASH (prev_hash e1) = default GENESIS_HASH (prev_hash e2).
Proof.
  intros (Hc1 & Hs1 & Hk1 & Ho1 & [m1 Hd1] & Hp1) (Hc2 & Hs2 & Hk2 & Ho2 & [m2 Hd2] & Hp2) H1 H2.
  destruct (hash_input_identity e1 e2 p p) as [Ec Es]; try done.
  apply hash_input_Ok in H1 as (j1 & Ej1 & ->), H2 as (j2 & Ej2 & H).
  rewrite Ec, Es in H. apply app_inv_head, app_inv_head in H.
  apply time_action_inj in H as (Et & Ea & H).
  apply tagged_pubkey_inj in H as [Ek H]; [|done..].
  rewrite Ej1, Ej2. rewrite Hd1 in Ej1. rewrite Hd2 in Ej2.
  apply canonical_json_object in Ej1 as [u1 ->], Ej2 as [u2 ->].
  apply tagged_object_inj in H as [Eo H]; [|done..].
  apply app_inj_2 in H as [Ej El].
  - apply as_bytes_inj in Ej as ->. done.
  - assert (forall o, (forall h : Bytes, o = Some h -> length h = 32%nat) ->
      length (default GENESIS_HASH o) = 32%nat) as Hlen
      by (intros [h|]; simpl; [intros Hh; by apply Hh|done]).
    by rewrite !Hlen.
Qed.

(** * The table

    The rows of [audit_log] in insertion order, with the table's constraints: primary key
    [(community_id, seq)], unique index [(community_id, hash)], foreign key
    [community_id]. *)

Record Row := mkRow {
  r_community_id : Uuid;
  r_seq : Z;
  r_hash : Bytes;
  r_prev_hash : option Bytes;
  r_action : string;
  r_actor_pubkey : option Bytes;
  r_object_id : option string;
  r_detail : Value Number;
  r_created_at : DateTime
}.

Definition row_to_audit_entry (row : Row) : result AuditEntry AuditError :=
  let? action := map_err (fun _ => UnknownAction) (from_str (r_action row)) in
  Ok (mkEntry (r_community_id row) (r_seq row) (r_hash row) (r_prev_hash row) action
        (r_actor_pubkey row) (r_object_id row) (r_detail row) (r_created_at row)).

(** The row an [INSERT] of the entry stores. *)
Definition entry_to_row (e : AuditEntry) : Row :=
  mkRow (community_id e) (seq e) (hash e) (prev_hash e) (as_str (action e))
    (actor_pubkey e) (object_id e) (pg_jsonb (detail e)) (pg_timestamptz (created_at e)).

Definition insert_row (communities : list Uuid) (row : Row) (table : list Row)
  : result (list Row) AuditError :=
  if negb (existsb (N.eqb (r_community_id row)) communities) then
    Err (Database ForeignKeyViolation)
  else if existsb (fun r => (r_community_id r =? r_community_id row)%N &&
                            (r_seq r =? r_seq row)) table then
    Err (Database PrimaryKeyViolation)
  else if existsb (fun r => (r_community_id r =? r_community_id row)%N &&
                            bool_decide (r_hash r = r_hash row)) table then
    Err (Database HashIndexViolation)
  else Ok (table ++ [row]).

(** [ORDER BY seq ASC]. *)
Fixpoint insert_by_seq (r : Row) (l : list Row) : list Row :=
  match l with
  | [] => [r]
  | r' :: l' => if r_seq r <=? r_seq r' then r :: l else r' :: insert_by_seq r l'
  end.
Definition order_by_seq (l : list Row) : list Row := foldr insert_by_seq [] l.

(** [WHERE community_id = $1]. *)
Definition of_community (c : Uuid) (table : list Row) : list Row :=
  List.filter (fun r => (r_community_id r =? c)%N) table.

(** [ORDER BY seq DESC LIMIT 1]. *)
Definition select_head (c : Uuid) (table : list Row) : option (Z * Bytes) :=
  match last (order_by_seq (of_community c table)) with
  | Some row => Some (r_seq row, r_hash row)
  | None => None
  end.

(** * Appending and verifying *)

(** The entry [log_inner] builds on the head it read. *)
Definition next_entry (now : DateTime) (entry : NewAuditEntry)
    (head : option (Z * Bytes)) : result AuditEntry AuditError :=
  let '(prev_seq, prev_hash) :=
    match head with Some (s, h) => (s, Some h) | None => (0, None) end in
  let e h := mkEntry (n_community_id entry) (i64_wrap (prev_seq + 1)) h prev_hash
    (n_action entry) (n_actor_pubkey entry) (n_object_id entry) (n_detail entry)
    (to_storage_precision now) in
  let? h := compute_hash (e []) in
  Ok (e h).

(** The insert and the commit of the transaction. *)
Definition append (communities : list Uuid) (now : DateTime) (entry : NewAuditEntry)
    (head : option (Z * Bytes)) (table : list Row)
  : list Row * result AuditEntry AuditError :=
  match next_entry now entry head with
  | Err e => (table, Err e)
  | Ok e =>
      match insert_row communities (entry_to_row e) table with
      | Err x => (table, Err x)
      | Ok table' => (table', Ok e)
      end
  end.

Definition log_inner (communities : list Uuid) (now : DateTime) (entry : NewAuditEntry)
    (table : list Row) : list Row * result AuditEntry AuditError :=
  append communities now entry (select_head (n_community_id entry) table) table.

Fixpoint verify_rows (expected_prev : option Bytes) (rows : list Row)
  : result bool AuditError :=
  match rows with
  | [] => Ok true
  | row :: rows' =>
      let? entry := row_to_audit_entry row in
      let mismatch :=
        match expected_prev with
        | Some expected => negb (bool_decide (prev_hash entry = Some expected))
        | None => false
        end in
      if mismatch then Err (ChainViolation (seq entry)) else
      let? computed := compute_hash entry in
      if negb (bool_decide (computed = hash entry)) then Err (HashMismatch (seq entry))
      else verify_rows (Some (hash entry)) rows'
  end.

(** The rows [verify_chain] reads. *)
Definition select_range (c : Uuid) (from_seq to_seq : Z) (table : list Row) : list Row :=
  order_by_seq (List.filter (fun r => (from_seq <=? r_seq r) && (r_seq r <=? to_seq))
                  (of_community c table)).

Definition verify_chain (c : Uuid) (from_seq to_seq : Z) (table : list Row)
  : result bool AuditError :=
  let rows := select_range c from_seq to_seq table in
  match rows with
  | [] => Ok false
  | _ => verify_rows None rows
  end.

Fixpoint decode_rows (rows : list Row) : result (list AuditEntry) AuditError :=
  match rows with
  | [] => Ok []
  | row :: rows' =>
      let? e := row_to_audit_entry row in
      let? es := decode_rows rows' in
      Ok (e :: es)
  end.

(** [limit] is not negative (Postgres rejects a negative one). *)
Definition get_entries (c : Uuid) (from_seq limit : Z) (table : list Row)
  : result (list AuditEntry) AuditError :=
  decode_rows (take (Z.to_nat limit)
    (order_by_seq (List.filter (fun r => from_seq <=? r_seq r) (of_community c table)))).

(** * What verification checks *)

(** A row whose stored hash is the hash of its entry, linked to [prev] when given. *)
Definition row_ok (prev : option Bytes) (row : Row) : Prop :=
  exists e, row_to_audit_entry row = Ok e /\ compute_hash e = Ok (hash e) /\
    (forall h, prev = Some h -> prev_hash e = Some h).

Fixpoint linked (prev : option Bytes) (rows : list Row) : Prop :=
  match rows with
  | [] => True
  | row :: rows' => row_ok prev row /\ linked (Some (r_hash row)) rows'
  end.

(** The hash the row after [rows] must link to. *)
Definition link_after (prev : option Bytes) (rows : list Row) : option Bytes :=
  match last rows with Some r => Some (r_hash r) | None => prev end.

Lemma row_to_audit_entry_fields row e :
  row_to_audit_entry row = Ok e ->
  community_id e = r_community_id row /\ seq e = r_seq row /\ hash e = r_hash row /\
  prev_hash e = r_prev_hash row.
Proof. unfold row_to_audit_entry. intros (a & _ & H)%res_bind_Ok. by injection H as <-. Qed.

Lemma link_after_cons prev row rows :
  link_after prev (row :: rows) = link_after (Some (r_hash row)) rows.
Proof. unfold link_after. rewrite last_cons. by destruct (last rows). Qed.

Lemma link_after_snoc prev rows row : link_after prev (rows ++ [row]) = Some (r_hash row).
Proof. unfold link_after. by rewrite last_snoc. Qed.

Lemma linked_app prev rows1 rows2 :
  linked prev (rows1 ++ rows2) <-> linked prev rows1 /\ linked (link_after prev rows1) rows2.
Proof.
  revert prev. induction rows1 as [|row rows1 IH]; intros prev; simpl; [tauto|].
  rewrite IH, link_after_cons. tauto.
Qed.

(** The outcome of the loop: it accepts exactly a linked segment, and otherwise reports
    the first row that breaks it. *)
Inductive first_violation (prev : option Bytes) (rows : list Row) : AuditError -> Prop :=
| fv_action rows1 row rows2 x :
    rows = rows1 ++ row :: rows2 -> linked prev rows1 ->
    from_str (r_action row) = Err x -> first_violation prev rows UnknownAction
| fv_link rows1 row rows2 e h :
    rows = rows1 ++ row :: rows2 -> linked prev rows1 -> row_to_audit_entry row = Ok e ->
    link_after prev rows1 = Some h -> prev_hash e <> Some h ->
    first_violation prev rows (ChainViolation (seq e))
| fv_text rows1 row rows2 e x :
    rows = rows1 ++ row :: rows2 -> linked prev rows1 -> row_to_audit_entry row = Ok e ->
    canonical_json (detail e) = Err x -> first_violation prev rows (Serialization x)
| fv_hash rows1 row rows2 e h :
    rows = rows1 ++ row :: rows2 -> linked prev rows1 -> row_to_audit_entry row = Ok e ->
    compute_hash e = Ok h -> h <> hash e ->
    first_violation prev rows (HashMismatch (seq e)).

Lemma first_violation_cons prev row rows x :
  row_ok prev row -> first_violation (Some (r_hash row)) rows x ->
  first_violation prev (row :: rows) x.
Proof.
  intros Hrow H.
  destruct H as [rows1 r rows2 x Heq Hl|rows1 r rows2 e h Heq Hl ? Hla|rows1 r rows2 e x Heq Hl
                |rows1 r rows2 e h Heq Hl]; rewrite Heq.
  - by eapply (fv_action _ _ (row :: rows1)).
  - eapply (fv_link _ _ (row :: rows1)); try done. by rewrite link_after_cons.
  - by eapply (fv_text _ _ (row :: rows1)).
  - by eapply (fv_hash _ _ (row :: rows1)).
Qed.

Lemma verify_rows_spec prev rows :
  match verify_rows prev rows with
  | Ok b => b = true /\ linked prev rows
  | Err x => first_violation prev rows x
  end.
Proof.
  revert prev. induction rows as [|row rows IH]; intros prev; [done|].
  cbn [verify_rows]. destruct (row_to_audit_entry row) as [e|x] eqn:He; cbn [res_bind].
  2: { unfold row_to_audit_entry in He. destruct (from_str (r_action row)) eqn:Hf; [done|].
       injection He as <-. by eapply (fv_action _ _ []). }
  pose proof (row_to_audit_entry_fields row e He) as (_ & _ & Hh & _).
  assert (forall b : bool, (match prev with
    | Some p => negb (bool_decide (prev_hash e = Some p)) | None => false end) = b ->
    if b then exists p, prev = Some p /\ prev_hash e <> Some p
    else forall p, prev = Some p -> prev_hash e = Some p) as Hlink.
  { intros b <-. destruct prev as [p|]; simpl; [|done].
    case_bool_decide; simpl; [by intros ? [= <-]|by exists p]. }
  destruct (match prev with Some _ => _ | None => _ end); specialize (Hlink _ eq_refl); simpl in Hlink.
  { destruct Hlink as (p & -> & Hp). by eapply (fv_link _ _ [] row rows). }
  destruct (compute_hash e) as [h|x] eqn:Hc; cbn [res_bind].
  2: { unfold compute_hash, hash_input in Hc.
       destruct (canonical_json (detail e)) eqn:Hj; [done|]. injection Hc as <-.
       by eapply (fv_text _ _ [] row rows). }
  case_bool_decide as Heq; simpl; [|by eapply (fv_hash _ _ [] row rows)].
  assert (row_ok prev row) as Hrow by (exists e; rewrite Heq in Hc; done).
  specialize (IH (Some (hash e))). rewrite Hh in *.
  destruct (verify_rows _ rows); [naive_solver|by apply first_violation_cons].
Qed.

(** Verification of a range: [Ok false] exactly when the community has no row in it,
    [Ok true] exactly when its rows form a linked segment in which every stored hash is
    the hash recomputed from the row, and otherwise the error names the first row that
    breaks the segment. *)
Theorem verify_chain_spec c from_seq to_seq table :
  match verify_chain c from_seq to_seq table with
  | Ok false => select_range c from_seq to_seq table = []
  | Ok true => select_range c from_seq to_seq table <> [] /\
               linked None (select_range c from_seq to_seq table)
  | Err x => first_violation None (select_range c from_seq to_seq table) x
  end.
Proof.
  unfold verify_chain. destruct (select_range c from_seq to_seq table) as [|row rows] eqn:Hr; [done|].
  pose proof (verify_rows_spec None (row :: rows)) as H.
  destruct (verify_rows None (row :: rows)) as [[]|]; [|by destruct H|done].
  by destruct H.
Qed.

Lemma verify_chain_true c from_seq to_seq table :
  verify_chain c from_seq to_seq table = Ok true ->
  linked None (select_range c from_seq to_seq table).
Proof.
  unfold verify_chain. destruct (select_range c from_seq to_seq table) as [|row rows]; [done|].
  intros H. pose proof (verify_rows_spec None (row :: rows)) as Hs. rewrite H in Hs. by destruct Hs.
Qed.

Lemma verify_chain_linked c from_seq to_seq table :
  select_range c from_seq to_seq table <> [] ->
  linked None (select_range c from_seq to_seq table) ->
  verify_chain c from_seq to_seq table = Ok true.
Proof.
  unfold verify_chain. destruct (select_range c from_seq to_seq table) as [|row rows]; [done|].
  intros _ Hl. pose proof (verify_rows_spec None (row :: rows)) as Hs.
  destruct (verify_rows None (row :: rows)) as [b|x]; [by destruct Hs as [-> _]|exfalso].
  assert (forall rows1 r rows2, row :: rows = rows1 ++ r :: rows2 ->
    row_ok (link_after None rows1) r) as Hok.
  { intros rows1 r rows2 Heq. rewrite Heq, linked_app in Hl. simpl in Hl. tauto. }
  destruct Hs as [rows1 r rows2 x Heq _ Hf|rows1 r rows2 e h Heq _ He Hla Hp
    |rows1 r rows2 e x Heq _ He Hj|rows1 r rows2 e h Heq _ He Hc Hne];
    destruct (Hok _ _ _ Heq) as (e' & He' & Hc' & Hp').
  - unfold row_to_audit_entry in He'. rewrite Hf in He'. done.
  - assert (e' = e) as -> by congruence. by apply Hp, Hp'.
  - assert (e' = e) as -> by congruence. unfold compute_hash, hash_input in Hc'. rewrite Hj in Hc'. done.
  - assert (e' = e) as -> by congruence. congruence.
Qed.

(** * Tamper evidence *)

Lemma compute_hash_Ok e h :
  compute_hash e = Ok h -> exists p, hash_input e = Ok p /\ h = sha256 p.
Proof. unfold compute_hash. intros (p & Hp & [= <-])%res_bind_Ok. eauto. Qed.

Definition row_input (row : Row) : result Bytes AuditError :=
  let? e := row_to_audit_entry row in hash_input e.

(** Index by index, the rows feed the hasher the same bytes. *)
Definition same_inputs (rows1 rows2 : list Row) : Prop :=
  forall k r1 r2, rows1 !! k = Some r1 -> rows2 !! k = Some r2 ->
    exists p, row_input r1 = Ok p /\ row_input r2 = Ok p.
(** The rows agree up to a pair whose inputs differ and have one hash. *)
Definition rows_collide (rows1 rows2 : list Row) : Prop :=
  exists k r1 r2 p q, same_inputs (take k rows1) (take k rows2) /\
    rows1 !! k = Some r1 /\ rows2 !! k = Some r2 /\
    row_input r1 = Ok p /\ row_input r2 = Ok q /\ p <> q /\ sha256 p = sha256 q.

(** Two linked segments that end in the same hash agree, row by row from the end, on the
    bytes they hash, or two of their rows collide. *)
Lemma linked_same_head rows1 rows2 :
  linked None (rev rows1) -> linked None (rev rows2) ->
  match head rows1, head rows2 with
  | Some r1, Some r2 => r_hash r1 = r_hash r2
  | _, _ => True
  end ->
  rows_collide rows1 rows2 \/ same_inputs rows1 rows2.
Proof.
  revert rows2. induction rows1 as [|r1 rows1 IH]; intros [|r2 rows2] H1 H2 Hh; try (by right).
  simpl in *. rewrite !linked_app in *. simpl in *.
  destruct H1 as [H1 [(e1 & D1 & C1 & L1) _]], H2 as [H2 [(e2 & D2 & C2 & L2) _]].
  destruct (row_to_audit_entry_fields _ _ D1) as (_ & _ & E1 & _).
  destruct (row_to_audit_entry_fields _ _ D2) as (_ & _ & E2 & _).
  destruct (compute_hash_Ok _ _ C1) as (p1 & I1 & G1), (compute_hash_Ok _ _ C2) as (p2 & I2 & G2).
  assert (R1 : row_input r1 = Ok p1) by (unfold row_input; by rewrite D1).
  assert (R2 : row_input r2 = Ok p2) by (unfold row_input; by rewrite D2).
  destruct (decide (p1 = p2)) as [->|Hne].
  2: { left. exists 0%nat, r1, r2, p1, p2. split_and!; [by intros [|k] ? ? ?|done..|congruence]. }
  assert (Hsame : forall l1 l2, same_inputs l1 l2 -> same_inputs (r1 :: l1) (r2 :: l2)).
  { intros l1 l2 Hl [|k] q1 q2; simpl; [|by apply Hl]. intros [= <-] [= <-]. by exists p2. }
  destruct (IH rows2 H1 H2) as [(k & q1 & q2 & p & q & Hb & Hrest)|Hrest].
  - destruct rows1 as [|q1 rows1], rows2 as [|q2 rows2]; try done. simpl in *.
    rewrite link_after_snoc in *.
    apply linked_app in H1 as [_ [(f1 & F1 & K1 & _) _]], H2 as [_ [(f2 & F2 & K2 & _) _]].
    destruct (row_to_audit_entry_fields _ _ F1) as (_ & _ & M1 & _).
    destruct (row_to_audit_entry_fields _ _ F2) as (_ & _ & M2 & _).
    destruct (compute_hash_Ok _ _ K1) as (? & _ & N1), (compute_hash_Ok _ _ K2) as (? & _ & N2).
    eapply (hash_input_link e1 e2); eauto; rewrite <-?M1, <-?M2, ?N1, ?N2; apply sha256_length.
  - left. exists (S k), q1, q2, p, q. split; [by apply Hsame|done].
  - right. by apply Hsame.
Qed.

(** C32: Tamper evidence: take two tables (one of them possibly rewritten) and two ranges that
    verify, whose last rows carry the same hash.  Then, going back from the end, every
    pair of rows feeds the hasher the same bytes, or there is a first pair that does not, and
    the two inputs of that pair have the same SHA-256. *)
Theorem tamper_evident c1 lo1 hi1 t1 c2 lo2 hi2 t2
    (Hv1 : verify_chain c1 lo1 hi1 t1 = Ok true)
    (Hv2 : verify_chain c2 lo2 hi2 t2 = Ok true)
    (Hhead : r_hash <$> last (select_range c1 lo1 hi1 t1) =
             r_hash <$> last (select_range c2 lo2 hi2 t2)) :
  rows_collide (reverse (select_range c1 lo1 hi1 t1)) (reverse (select_range c2 lo2 hi2 t2)) \/
  same_inputs (reverse (select_range c1 lo1 hi1 t1)) (reverse (select_range c2 lo2 hi2 t2)).
Proof.
  apply verify_chain_true in Hv1, Hv2. unfold reverse. rewrite !rev_append_rev, !app_nil_r.
  apply linked_same_head; rewrite ?rev_involutive; try done.
  generalize dependent (select_range c1 lo1 hi1 t1). generalize dependent (select_range c2 lo2 hi2 t2).
  intros l2 _ l1 _ Hlast.
  destruct (rev l1) as [|r1 l1'] eqn:E1, (rev l2) as [|r2 l2'] eqn:E2; try done.
  apply (f_equal (@rev Row)) in E1, E2. rewrite rev_involutive in E1, E2. subst.
  simpl in *. rewrite !last_snoc in Hlast. by injection Hlast.
Qed.

(** * The chain of one community *)

Inductive chain (c : Uuid) : list Row -> Prop :=
| chain_nil : chain c []
| chain_snoc rows row e :
    chain c rows -> row_to_audit_entry row = Ok e -> r_community_id row = c ->
    r_seq row = Z.of_nat (length rows) + 1 -> r_prev_hash row = link_after None rows ->
    compute_hash e = Ok (r_hash row) -> chain c (rows ++ [row]).

Definition seq_le (r1 r2 : Row) : Prop := r_seq r1 <= r_seq r2.

Lemma order_by_seq_sorted rows : StronglySorted seq_le rows -> order_by_seq rows = rows.
Proof.
  induction 1 as [|r rows _ IH Hr]; [done|].
  unfold order_by_seq in *. simpl. rewrite IH.
  destruct Hr as [|r' rows Hle _]; [done|]. simpl. unfold seq_le in Hle.
  by rewrite (proj2 (Z.leb_le _ _) Hle).
Qed.

Lemma sorted_filter (f : Row -> bool) rows :
  StronglySorted seq_le rows -> StronglySorted seq_le (List.filter f rows).
Proof.
  induction 1 as [|r rows _ IH Hr]; simpl; [by constructor|].
  destruct (f r); [|done]. constructor; [done|]. rewrite List.Forall_forall in *.
  intros x [Hx _]%filter_In. by apply Hr.
Qed.

Lemma chain_lookup c rows i row :
  chain c rows -> rows !! i = Some row ->
  r_seq row = Z.of_nat i + 1 /\ r_community_id row = c /\
  exists e, row_to_audit_entry row = Ok e /\ compute_hash e = Ok (r_hash row).
Proof.
  induction 1 as [|rows r e H IH He Hc Hs Hp Hh]; [done|].
  intros [Hi|[Hi Hr]]%lookup_app_Some; [by apply IH|].
  apply list_lookup_singleton_Some in Hr as [Hi0 <-].
  split_and!; [lia|done|by exists e].
Qed.

Lemma chain_member c rows row :
  chain c rows -> In row rows ->
  1 <= r_seq row <= Z.of_nat (length rows) /\ r_community_id row = c /\
  exists e, row_to_audit_entry row = Ok e /\ compute_hash e = Ok (r_hash row).
Proof.
  intros H [i Hi]%list_elem_of_In%list_elem_of_lookup.
  pose proof (lookup_lt_Some _ _ _ Hi). destruct (chain_lookup _ _ _ _ H Hi). split; [lia|done].
Qed.

Lemma chain_sorted c rows : chain c rows -> StronglySorted seq_le rows.
Proof.
  induction 1 as [|rows row e H IH He Hc Hs Hp Hh]; [constructor|].
  assert (Forall (fun r => seq_le r row) rows) as Hle.
  { rewrite List.Forall_forall. intros r Hr. unfold seq_le.
    destruct (chain_member c rows r H Hr). lia. }
  clear -IH Hle. induction IH as [|r rows _ IH Hr]; simpl; [by repeat constructor|].
  apply Forall_cons in Hle as [Hr' Hle]. constructor; [by apply IH|].
  rewrite Forall_app. auto.
Qed.

(** A range of a chain: when it is not empty and more rows of the chain follow in it, its
    last row is the last of the chain. *)
Lemma chain_range_linked c lo hi rows :
  chain c rows ->
  let range := List.filter (fun r => (lo <=? r_seq r) && (r_seq r <=? hi)) rows in
  linked None range /\
  (Z.of_nat (length rows) < hi -> range <> [] -> link_after None range = link_after None rows).
Proof.
  intros H. simpl. induction H as [|rows row e H [IHl IHla] He Hc Hs Hp Hh]; [done|].
  rewrite List.filter_app, length_app. simpl.
  destruct ((lo <=? r_seq row) && (r_seq row <=? hi)) eqn:Hin; simpl.
  - rewrite andb_true_iff, !Z.leb_le in Hin. rewrite linked_app, !link_after_snoc. simpl.
    split; [|done]. split; [done|]. split; [|done].
    destruct (row_to_audit_entry_fields _ _ He) as (_ & _ & Eh & Ep).
    exists e. split_and!; [done|by rewrite Eh|]. rewrite Ep, Hp.
    destruct (List.filter _ rows) as [|r rs] eqn:Hf; [done|]. rewrite <-Hf in *.
    rewrite IHla; [done|lia|by rewrite Hf].
  - rewrite app_nil_r. split; [done|]. intros Hlt Hne. exfalso.
    destruct (List.filter _ rows) as [|r rs] eqn:Hf; [done|].
    assert (In r (r :: rs)) as Hr by (by left). rewrite <-Hf in Hr.
    apply filter_In in Hr as [Hr Hb]. destruct (chain_member c rows r H Hr) as [Hb' _].
    rewrite andb_true_iff, !Z.leb_le in Hb. rewrite andb_false_iff, !Z.leb_gt in Hin. lia.
Qed.

Lemma select_range_chain c lo hi table :
  chain c (of_community c table) ->
  select_range c lo hi table =
  List.filter (fun r => (lo <=? r_seq r) && (r_seq r <=? hi)) (of_community c table).
Proof. intros H. apply order_by_seq_sorted, sorted_filter. by eapply chain_sorted. Qed.

(** Every range of a chain verifies. *)
Lemma chain_verifies c lo hi table :
  chain c (of_community c table) ->
  verify_chain c lo hi table = Ok (bool_decide (select_range c lo hi table <> [])).
Proof.
  intros H. case_bool_decide as Hne.
  - apply verify_chain_linked; [done|]. rewrite select_range_chain by done.
    by apply (chain_range_linked c).
  - unfold verify_chain. by destruct (select_range c lo hi table).
Qed.

Lemma select_head_chain c table :
  chain c (of_community c table) ->
  select_head c table =
  (fun h => (Z.of_nat (length (of_community c table)), h)) <$>
  link_after None (of_community c table).
Proof.
  intros H. unfold select_head. rewrite order_by_seq_sorted by (by eapply chain_sorted).
  destruct H as [|rows row e H He Hc Hs Hp Hh]; [done|].
  rewrite last_snoc, link_after_snoc, length_app. simpl. do 2 f_equal. lia.
Qed.

(** The entry of a caller: a 128-bit community id, and a detail that a [JSONB] column
    returns with its members at most reordered. *)
Definition storable (e : NewAuditEntry) : Prop :=
  (n_community_id e < 2 ^ 128)%N /\ json_equiv (n_detail e) (pg_jsonb (n_detail e)).

Lemma of_community_snoc c table row :
  of_community c (table ++ [row]) =
  of_community c table ++ if (r_community_id row =? c)%N then [row] else [].
Proof. unfold of_community. rewrite List.filter_app. simpl. by destruct (_ =? _)%N. Qed.

Lemma of_community_length c table : (length (of_community c table) <= length table)%nat.
Proof. apply List.filter_length_le. Qed.

(** The stored row decodes to an entry with the hash computed before it was stored. *)
Lemma stored_hash e :
  json_equiv (detail e) (pg_jsonb (detail e)) ->
  created_at e = to_storage_precision (created_at e) ->
  exists e', row_to_audit_entry (entry_to_row e) = Ok e' /\ compute_hash e' = compute_hash e.
Proof.
  intros Hj Ht. unfold row_to_audit_entry, entry_to_row. simpl. rewrite from_str_as_str.
  eexists; split; [reflexivity|]. unfold compute_hash, hash_input. simpl.
  rewrite <-(canonical_json_equiv _ _ Hj).
  unfold to_storage_precision in *. rewrite Ht, timestamptz_micros, trunc_idem. done.
Qed.

(** The hash ignores the [hash] field. *)
Lemma compute_hash_set_hash c s h h' p a k o d t :
  compute_hash (mkEntry c s h p a k o d t) = compute_hash (mkEntry c s h' p a k o d t).
Proof. done. Qed.

(** The hash of the new entry is that of a row there, whose input is another. *)
Definition collides_with (table : list Row) (e : NewAuditEntry) : Prop :=
  exists row entry p q, row ∈ table /\ n_community_id e = community_id entry /\ n_detail e = detail entry /\
    row_input row = Ok p /\ hash_input entry = Ok q /\ p <> q /\ sha256 p = sha256 q.

(** What [append] may answer once its head is that of the chain. *)
Inductive append_answer (e : NewAuditEntry) (table : list Row) :
    list Row -> result AuditEntry AuditError -> Prop :=
| answer_ok entry :
    n_community_id e = community_id entry -> n_action e = action entry ->
    n_actor_pubkey e = actor_pubkey entry -> n_object_id e = object_id entry ->
    n_detail e = detail entry ->
    append_answer e table (table ++ [entry_to_row entry]) (Ok entry)
| answer_fk : append_answer e table table (Err (Database ForeignKeyViolation))
| answer_text x :
    canonical_json (n_detail e) = Err x -> append_answer e table table (Err (Serialization x))
| answer_collision :
    collides_with table e -> append_answer e table table (Err (Database HashIndexViolation)).

Lemma next_entry_spec now e head :
  match next_entry now e head with
  | Ok entry =>
      n_community_id e = community_id entry /\ n_action e = action entry /\
      n_actor_pubkey e = actor_pubkey entry /\ n_object_id e = object_id entry /\
      n_detail e = detail entry /\ created_at entry = to_storage_precision now /\
      seq entry = i64_wrap (from_option fst 0 head + 1) /\ prev_hash entry = snd <$> head /\
      compute_hash entry = Ok (hash entry)
  | Err x => exists y, x = Serialization y /\ canonical_json (n_detail e) = Err y
  end.
Proof.
  unfold next_entry. destruct head as [[s h]|]; simpl;
    (destruct (compute_hash _) as [k|x] eqn:Hk; cbn [res_bind];
     [split_and!; try done|unfold compute_hash, hash_input in Hk; simpl in Hk;
      destruct (canonical_json (n_detail e)); [done|]; exists e0; simpl in Hk; split; congruence]).
Qed.

(** Appending on the head of a chain extends the chain. *)
Lemma append_spec communities now e table :
  let c := n_community_id e in
  chain c (of_community c table) -> storable e ->
  Z.of_nat (length table) < 2 ^ 63 - 1 ->
  let '(table', r) := append communities now e (select_head c table) table in
  append_answer e table table' r /\ chain c (of_community c table').
Proof.
  intros c Hch [Hc Hj] Hlen. unfold append.
  pose proof (next_entry_spec now e (select_head c table)) as Hn.
  destruct (next_entry now e (select_head c table)) as [entry|x].
  2: { destruct Hn as (y & -> & Hy). split; [by constructor|done]. }
  destruct Hn as (E1 & E2 & E3 & E4 & E5 & Et & Es & Ep & Eh).
  assert (seq entry = Z.of_nat (length (of_community c table)) + 1 /\
          prev_hash entry = link_after None (of_community c table)) as [Es' Ep'].
  { rewrite Es, Ep, select_head_chain by done. pose proof (of_community_length c table).
    destruct Hch as [|rows row ? ? ? ? ? ? ?]; [done|].
    rewrite link_after_snoc. simpl. split; [|done]. apply i64_wrap_id. unfold is_i64. lia. }
  destruct (stored_hash entry) as (e' & He' & Hh'); [by rewrite <-E5|
    rewrite Et; symmetry; apply trunc_idem|].
  rewrite Eh in Hh'. pose proof (row_to_audit_entry_fields _ _ He') as (F1 & F2 & F3 & F4).
  simpl in F1, F2, F3, F4. assert (c = community_id entry) as Ec by done.
  clearbody c. unfold insert_row.
  destruct (existsb (N.eqb _) communities); simpl; [|split; [constructor|done]].
  destruct (existsb _ table) eqn:Hpk.
  { exfalso. apply existsb_exists in Hpk as (row & Hin & Hb). rewrite andb_true_iff, N.eqb_eq, Z.eqb_eq in Hb.
    destruct Hb as [Hrc Hrs]. destruct (chain_member c (of_community c table) row) as [Hb _]; [done| |lia].
    apply filter_In. split; [done|]. apply N.eqb_eq. congruence. }
  clear Hpk; cbn iota. destruct (existsb _ table) eqn:Hix.
  - split; [apply answer_collision|done].
    apply existsb_exists in Hix as (row & Hin & Hb).
    rewrite andb_true_iff, N.eqb_eq, bool_decide_eq_true in Hb. destruct Hb as [Hrc Hrh]. simpl in Hrc, Hrh.
    destruct (chain_member c (of_community c table) row) as (Hb & _ & f & Hf & Hfh); [done| |].
    { apply filter_In. split; [done|]. apply N.eqb_eq. congruence. }
    pose proof (row_to_audit_entry_fields _ _ Hf) as (G1 & G2 & _ & _).
    destruct (compute_hash_Ok _ _ Hfh) as (p & Hp & Hp'), (compute_hash_Ok _ _ Eh) as (q & Hq & Hq').
    destruct (decide (p = q)) as [Heq|Hne].
    2: { exists row, entry, p, q. split_and!; [by apply list_elem_of_In|done|done|unfold row_input; by rewrite Hf|done..|congruence]. }
    exfalso. pose proof (of_community_length c table).
    destruct (hash_input_identity f entry p q) as [_ Hseq]; try done; unfold is_i64 in *;
      [rewrite G1, Hrc; unfold entry_to_row; simpl; by rewrite <-E1|by rewrite <-E1|lia|lia|lia].
  - split; [by apply answer_ok|].
    rewrite of_community_snoc. simpl. rewrite (proj2 (N.eqb_eq (community_id entry) c)) by done.
    eapply chain_snoc; [done|done|done|done|done|done].
Qed.

(** * Concurrent relay processes

    [AuditService::log] of several processes over one database.  A process holds its
    community's advisory lock from before it reads the head until it releases it after
    the commit, or until its session ends; the insert becomes visible when the
    transaction commits. *)

Inductive Phase :=
| Idle
| Locked (e : NewAuditEntry)
| HasHead (e : NewAuditEntry) (head : option (Z * Bytes))
| Finished (e : NewAuditEntry) (r : option (result AuditEntry AuditError)).

Definition phase_community (ph : Phase) : option Uuid :=
  match ph with
  | Idle => None
  | Locked e | HasHead e _ | Finished e _ => Some (n_community_id e)
  end.

Record System := mkSystem {
  table : list Row;
  lock_holder : gmap Uuid nat;
  procs : gmap nat Phase
}.

Definition phase (s : System) (p : nat) : Phase := default Idle (procs s !! p).

Inductive step (communities : list Uuid) : System -> System -> Prop :=
| step_lock s p e :
    phase s p = Idle -> lock_holder s !! n_community_id e = None -> storable e ->
    step communities s
      (mkSystem (table s) (<[n_community_id e := p]> (lock_holder s)) (<[p := Locked e]> (procs s)))
| step_head s p e :
    phase s p = Locked e ->
    step communities s
      (mkSystem (table s) (lock_holder s)
         (<[p := HasHead e (select_head (n_community_id e) (table s))]> (procs s)))
| step_append s p e head now table' r :
    phase s p = HasHead e head -> append communities now e head (table s) = (table', r) ->
    step communities s
      (mkSystem table' (lock_holder s) (<[p := Finished e (Some r)]> (procs s)))
(** The transaction fails before it commits. *)
| step_rollback s p e :
    phase s p = Locked e \/ (exists head, phase s p = HasHead e head) ->
    step communities s
      (mkSystem (table s) (lock_holder s) (<[p := Finished e None]> (procs s)))
(** The unlock, or the end of the session that held the lock. *)
| step_release s p c :
    phase_community (phase s p) = Some c ->
    step communities s
      (mkSystem (table s) (delete c (lock_holder s)) (<[p := Idle]> (procs s))).

Definition initial : System := mkSystem [] ∅ ∅.
Definition reachable (communities : list Uuid) : System -> Prop :=
  rtc (step communities) initial.

(** What a process knows in its phase. *)
Definition phase_ok (t : list Row) (ph : Phase) : Prop :=
  match ph with
  | Idle => True
  | Locked e => storable e
  | HasHead e head => storable e /\ head = select_head (n_community_id e) t
  | Finished e None => True
  | Finished e (Some r) => exists t0 t1, append_answer e t0 t1 r /\ (t1 ⊆ t)
  end.

Record system_ok (s : System) : Prop := {
  ok_chain c : chain c (of_community c (table s));
  ok_lock p c : phase_community (phase s p) = Some c -> lock_holder s !! c = Some p;
  ok_phase p : phase_ok (table s) (phase s p)
}.

Lemma phase_insert t l ps p ph q :
  phase (mkSystem t l (<[p := ph]> ps)) q = if decide (p = q) then ph else default Idle (ps !! q).
Proof. unfold phase. simpl. rewrite lookup_insert. by case_decide. Qed.

Lemma append_frame communities now e head t t' r :
  append communities now e head t = (t', r) ->
  t ⊆ t' /\ (forall c, c <> n_community_id e -> of_community c t' = of_community c t).
Proof.
  unfold append. pose proof (next_entry_spec now e head) as Hn.
  destruct (next_entry now e head) as [entry|x]; [|by intros [= <- <-]].
  destruct Hn as [E1 _]. unfold insert_row.
  repeat case_match; intros [= <- <-]; simplify_eq; try done.
  split; [by intros x Hx; apply elem_of_app; left|].
  intros c Hc. rewrite of_community_snoc. simpl.
  rewrite (proj2 (N.eqb_neq (community_id entry) c)) by congruence. by rewrite app_nil_r.
Qed.

Lemma select_head_of_community c t t' :
  of_community c t = of_community c t' -> select_head c t = select_head c t'.
Proof. unfold select_head. by intros ->. Qed.

Lemma step_table_grows communities s s' : step communities s s' -> (length (table s) <= length (table s'))%nat.
Proof.
  intros [| |? ? ? ? ? ? ? _ H| |]; simpl; try lia. revert H. unfold append, insert_row.
  repeat case_match; intros [= <- <-]; simplify_eq; rewrite ?length_app; lia.
Qed.

(** A process that is neither appending nor in the appending one's community keeps what it
    knows. *)
Lemma phase_ok_frame t t' c ph :
  t ⊆ t' -> (forall c', c' <> c -> of_community c' t' = of_community c' t) ->
  phase_community ph <> Some c -> phase_ok t ph -> phase_ok t' ph.
Proof.
  intros Ht Hc Hph. destruct ph as [|e|e head|e [r|]]; simpl in *; try done.
  - intros [Hs ->]. split; [done|]. apply select_head_of_community. symmetry. apply Hc. congruence.
  - intros (t0 & t1 & Ha & Hsub). exists t0, t1. split; [done|]. by transitivity t.
Qed.

(** A step of [p] alone that stays in its community. *)
Lemma local_step_ok s p ph :
  system_ok s -> phase_community ph = phase_community (phase s p) ->
  phase_ok (table s) ph ->
  system_ok (mkSystem (table s) (lock_holder s) (<[p := ph]> (procs s))).
Proof.
  intros [Hch Hlk Hph] Hc Hok.
  split; simpl; [done| |]; intros q; rewrite phase_insert; case_decide; subst; try done.
  - rewrite Hc. apply Hlk.
  - apply Hlk.
  - apply Hph.
Qed.

Lemma step_ok communities s s' :
  step communities s s' -> Z.of_nat (length (table s)) < 2 ^ 63 - 1 ->
  system_ok s -> system_ok s'.
Proof.
  intros Hstep Hlen Hok. pose proof Hok as [Hch Hlk Hph].
  destruct Hstep as [s p e Hp Hfree Hst|s p e Hp|s p e head now table' r Hp Ha|s p e Hp|s p c Hp].
  - split; simpl; [done| |]; intros q; rewrite phase_insert; case_decide as Hq; subst; try done.
    + intros c [= <-]. by rewrite lookup_insert_eq.
    + intros c Hc. rewrite lookup_insert_ne; [by apply Hlk|]. intros Heq.
      apply (Hlk q) in Hc. congruence.
    + apply Hph.
  - pose proof (Hph p) as Hk. rewrite Hp in Hk. by apply local_step_ok; rewrite ?Hp.
  - pose proof (Hph p) as Hk. rewrite Hp in Hk. destruct Hk as [Hst ->].
    pose proof (append_spec communities now e (table s) (Hch _) Hst Hlen) as Hs. rewrite Ha in Hs.
    destruct Hs as [Hans Hch']. destruct (append_frame _ _ _ _ _ _ _ Ha) as [Hsub Hframe].
    split; simpl.
    + intros c. destruct (decide (c = n_community_id e)) as [->|Hne]; [done|by rewrite Hframe].
    + intros q. rewrite phase_insert. case_decide; subst; [|apply Hlk].
      intros c [= <-]. apply Hlk. by rewrite Hp.
    + intros q. rewrite phase_insert. case_decide as Hq; subst; [by exists (table s), table'|].
      eapply phase_ok_frame; [done|apply Hframe| |apply Hph].
      intros Hc. apply Hlk in Hc. pose proof (Hlk p (n_community_id e)) as Hlp. rewrite Hp in Hlp.
      specialize (Hlp eq_refl). congruence.
  - apply local_step_ok; [done| |done]. by destruct Hp as [->|[head ->]].
  - split; simpl; [done| |]; intros q; rewrite phase_insert; case_decide as Hq; subst; try done.
    + intros c' Hc'. rewrite lookup_delete_ne; [by apply Hlk|]. intros ->.
      apply Hlk in Hc', Hp. congruence.
    + apply Hph.
Qed.

Lemma reachable_ok communities s :
  reachable communities s -> Z.of_nat (length (table s)) < 2 ^ 63 - 1 -> system_ok s.
Proof.
  intros H. revert s H. refine (rtc_ind_r _ _ _ _).
  - intros _. split; [constructor|done|done].
  - intros s1 s2 _ Hstep IH Hlen.
    eapply step_ok; [done| |apply IH]; apply step_table_grows in Hstep; lia.
Qed.

(** C14: The log under any interleaving of relay processes, rollbacks and lost sessions (up to
    the exhaustion of 64-bit sequence numbers): each community's rows are numbered from 1
    without gaps, and every range of them verifies unless it is empty. *)
Theorem concurrent_appends_verify communities s
    (Hs : reachable communities s)
    (Hlen : Z.of_nat (length (table s)) < 2 ^ 63 - 1) :
  (forall c i row, order_by_seq (of_community c (table s)) !! i = Some row ->
     r_seq row = Z.of_nat i + 1) /\
  (forall c lo hi, verify_chain c lo hi (table s) =
     Ok (bool_decide (select_range c lo hi (table s) <> []))).
Proof.
  destruct (reachable_ok _ _ Hs Hlen) as [Hch _ _]. split.
  - intros c i row. rewrite order_by_seq_sorted by (by eapply chain_sorted).
    intros Hi. by destruct (chain_lookup _ _ _ _ (Hch c) Hi).
  - intros c lo hi. by apply chain_verifies.
Qed.

(** The lock makes the appends of a community exclusive: at most one process is between
    its lock and its release, and a completed append answers with the entry, now in the
    table, or with a missing community, a detail that does not serialize or an input that
    collides with that of a row of the table; it never loses a race on the primary key. *)
Theorem appends_serialized communities s
    (Hs : reachable communities s)
    (Hlen : Z.of_nat (length (table s)) < 2 ^ 63 - 1) :
  (forall p q c, phase_community (phase s p) = Some c -> phase_community (phase s q) = Some c ->
     p = q) /\
  (forall p e r, phase s p = Finished e (Some r) ->
     match r with
     | Ok entry => entry_to_row entry ∈ table s /\ n_detail e = detail entry /\
                   n_community_id e = community_id entry /\ n_action e = action entry
     | Err (Database ForeignKeyViolation) => True
     | Err (Database HashIndexViolation) => collides_with (table s) e
     | Err (Serialization x) => canonical_json (n_detail e) = Err x
     | Err _ => False
     end).
Proof.
  destruct (reachable_ok _ _ Hs Hlen) as [_ Hlk Hph]. split.
  - intros p q c Hp%Hlk Hq%Hlk. congruence.
  - intros p e r Hp. pose proof (Hph p) as H. rewrite Hp in H.
    destruct H as (t0 & t1 & [entry ? ? ? ? ?| | |Hc] & Hsub); try done.
    + split_and!; try done. apply Hsub, elem_of_app. right. by left.
    + destruct Hc as (row & entry & p' & q & Hr & Hc). exists row, entry, p', q. split; [by apply Hsub|done].
Qed.

(** Outside [framed] the input is ambiguous: nothing separates the object id from the
    detail. *)
Lemma hash_input_ambiguous c s h p a k t n1 n2 :
  to_string_value (Num n1) = Ok "2" -> to_string_value (Num n2) = Ok "12" ->
  hash_input (mkEntry c s h p a k (Some "x1") (Num n1) t) =
  hash_input (mkEntry c s h p a k (Some "x") (Num n2) t).
Proof. intros H1 H2. unfold hash_input. simpl. by rewrite H1, H2. Qed.

(** ** Schedules

    The steps as an executable function; a schedule that runs is a path of the system. *)

Inductive Op :=
| OpLock (p : nat) (e : NewAuditEntry)
| OpHead (p : nat)
| OpAppend (p : nat) (now : DateTime)
| OpRollback (p : nat)
| OpRelease (p : nat).

Definition op_storable (op : Op) : Prop :=
  match op with OpLock _ e => storable e | _ => True end.

Definition exec_op (communities : list Uuid) (s : System) (op : Op) : option System :=
  match op with
  | OpLock p e =>
      match phase s p, lock_holder s !! n_community_id e with
      | Idle, None =>
          Some (mkSystem (table s) (<[n_community_id e := p]> (lock_holder s))
                  (<[p := Locked e]> (procs s)))
      | _, _ => None
      end
  | OpHead p =>
      match phase s p with
      | Locked e =>
          Some (mkSystem (table s) (lock_holder s)
                  (<[p := HasHead e (select_head (n_community_id e) (table s))]> (procs s)))
      | _ => None
      end
  | OpAppend p now =>
      match phase s p with
      | HasHead e head =>
          let '(table', r) := append communities now e head (table s) in
          Some (mkSystem table' (lock_holder s) (<[p := Finished e (Some r)]> (procs s)))
      | _ => None
      end
  | OpRollback p =>
      match phase s p with
      | Locked e | HasHead e _ =>
          Some (mkSystem (table s) (lock_holder s) (<[p := Finished e None]> (procs s)))
      | _ => None
      end
  | OpRelease p =>
      match phase_community (phase s p) with
      | Some c => Some (mkSystem (table s) (delete c (lock_holder s)) (<[p := Idle]> (procs s)))
      | None => None
      end
  end.

Fixpoint exec (communities : list Uuid) (s : System) (ops : list Op) : option System :=
  match ops with
  | [] => Some s
  | op :: ops' =>
      match exec_op communities s op with
      | Some s' => exec communities s' ops'
      | None => None
      end
  end.

Lemma exec_op_step communities s op s' :
  op_storable op -> exec_op communities s op = Some s' -> step communities s s'.
Proof.
  intros Hop. destruct op as [p e|p|p now|p|p]; simpl in *.
  - destruct (phase s p) eqn:Hp; try done. destruct (lock_holder s !! _) eqn:Hl; [done|].
    intros [= <-]. by apply step_lock.
  - destruct (phase s p) eqn:Hp; try done. intros [= <-]. by apply step_head.
  - destruct (phase s p) eqn:Hp; try done. destruct (append _ _ _ _ _) eqn:Ha.
    intros [= <-]. by eapply step_append.
  - destruct (phase s p) as [|e|e h|e r] eqn:Hp; try done; intros [= <-]; apply step_rollback; eauto.
  - destruct (phase_community _) eqn:Hp; [|done]. intros [= <-]. by apply step_release.
Qed.

Lemma exec_reachable communities s ops s' :
  Forall op_storable ops -> reachable communities s -> exec communities s ops = Some s' ->
  reachable communities s'.
Proof.
  intros Hops. revert s. induction Hops as [|op ops Hop Hops IH]; intros s Hs; simpl.
  - by intros [= <-].
  - destruct (exec_op communities s op) as [s1|] eqn:H1; [|done]. apply IH.
    eapply rtc_r; [done|]. by eapply exec_op_step.
Qed.

(** * Isolation of communities *)

Lemma decode_rows_elem rows es e :
  decode_rows rows = Ok es -> e ∈ es -> exists row, row ∈ rows /\ row_to_audit_entry row = Ok e.
Proof.
  revert es. induction rows as [|row rows IH]; intros es; simpl.
  - intros [= <-]. by intros ?%elem_of_nil.
  - intros (e' & He' & (es' & Hes & [= <-])%res_bind_Ok)%res_bind_Ok.
    intros [->|He]%elem_of_cons; [exists row; split; [left|done]|].
    destruct (IH es' Hes He) as (r & Hr & Hre). exists r. split; [by right|done].
Qed.

Lemma insert_by_seq_perm r rows : insert_by_seq r rows ≡ₚ r :: rows.
Proof.
  induction rows as [|r' rows IH]; simpl; [done|].
  destruct (_ <=? _); [done|]. rewrite IH. constructor.
Qed.

Lemma order_by_seq_perm rows : order_by_seq rows ≡ₚ rows.
Proof.
  induction rows as [|r rows IH]; [done|]. unfold order_by_seq in *. simpl.
  by rewrite insert_by_seq_perm, IH.
Qed.

(** Non-interference of the log: what is verified and read for a community is a function of
    its own rows, what is read carries its id, and logging for another community changes
    neither. *)
Theorem chain_isolation communities c :
  (forall t1 t2, of_community c t1 = of_community c t2 ->
     (forall lo hi, verify_chain c lo hi t1 = verify_chain c lo hi t2) /\
     (forall from limit, get_entries c from limit t1 = get_entries c from limit t2)) /\
  (forall t from limit es, get_entries c from limit t = Ok es ->
     Forall (fun e => community_id e = c /\ from <= seq e) es) /\
  (forall now e t, n_community_id e <> c ->
     let t' := fst (log_inner communities now e t) in
     (forall lo hi, verify_chain c lo hi t' = verify_chain c lo hi t) /\
     (forall from limit, get_entries c from limit t' = get_entries c from limit t)).
Proof.
  assert (forall t1 t2, of_community c t1 = of_community c t2 ->
     (forall lo hi, verify_chain c lo hi t1 = verify_chain c lo hi t2) /\
     (forall from limit, get_entries c from limit t1 = get_entries c from limit t2)) as Hown.
  { intros t1 t2 H. unfold verify_chain, select_range, get_entries. by rewrite H. }
  split_and!; [done| |].
  - intros t from limit es Hes. apply Forall_forall. intros e He.
    destruct (decode_rows_elem _ _ _ Hes He) as (row & Hrow & Hre).
    destruct (row_to_audit_entry_fields _ _ Hre) as (-> & -> & _).
    apply subseteq_take in Hrow. rewrite order_by_seq_perm in Hrow.
    apply list_elem_of_In, filter_In in Hrow as [Hrow Hle].
    apply filter_In in Hrow as [_ Hc]. split; [by apply N.eqb_eq|lia].
  - intros now e t Hne. unfold log_inner.
    destruct (append _ _ _ _ _) as [t' r] eqn:Ha. apply Hown. simpl.
    destruct (append_frame _ _ _ _ _ _ _ Ha) as [_ Hf]. apply Hf. congruence.
Qed.
End hash.

(** * A concrete instance *)

(** Nanoseconds for timestamps, a 16-bit polynomial checksum (in 32 bytes) for the hash, and a [JSONB] column that reverses an object's members. *)
Module Reference.
Definition checksum (b : Bytes) : Bytes :=
  be_bytes 32 (fold_left (fun acc x => N.land (acc * 31 + Byte.to_N x + 1) 65535) b 7)%N.

#[export] Existing Instance Json.Reference.json.
#[export] Instance deps : AuditDeps Json.Reference.json := {|
  DateTime := Z;
  trunc_subsecs t n := t - t mod 10 ^ (9 - Z.of_nat n);
  to_rfc3339 t := Json.Reference.decimal 20 (Z.to_N t) "";
  sha256 := checksum;
  pg_timestamptz t := t - t mod 1000;
  pg_jsonb v := match v with Object m => Object (rev m) | _ => v end
|}.

Lemma decimal_not_lower fuel n s :
  str_all not_lower s = true -> str_all not_lower (Json.Reference.decimal fuel n s) = true.
Proof.
  revert n s. induction fuel as [|fuel IH]; intros n s Hs; simpl; [done|].
  assert (str_all not_lower (String (ascii_of_N (48 + n mod 10)) s) = true) as Hd.
  { simpl. rewrite Hs, andb_true_r. pose proof (N.mod_lt n 10 ltac:(done)) as Hlt.
    revert Hlt. generalize (n mod 10)%N. intros d Hd.
    unfold not_lower, between. rewrite N_ascii_embedding by lia.
    change (N_of_ascii "a") with 97%N. destruct (N.leb_spec 97 (48 + d)); [lia|done]. }
  destruct (_ =? 0)%N; [done|]. by apply IH.
Qed.

Lemma trunc_micros (t : Z) :
  t - t mod 1000 - (t - t mod 1000) mod 1000 = t - t mod 1000.
Proof.
  assert (t - t mod 1000 = t / 1000 * 1000) as -> by (pose proof (Z.div_mod t 1000); lia).
  rewrite Z.mod_mul; lia.
Qed.

#[export] Instance laws : AuditLaws deps.
Proof.
  split.
  - intros b. apply (be_bytes_length 32).
  - exact trunc_micros.
  - exact trunc_micros.
  - intros t. by apply (decimal_not_lower 20).
Qed.

Definition members_of (kind : Z) : list (string * Value Number) :=
  [("event_kind", @Num Number kind); ("channel_id", Null)].
Definition created (c : Uuid) (kind : Z) : NewAuditEntry :=
  mkNew c EventCreated (Some (repeat xab 32)) (Some "abc123") (Object (members_of kind)).

Lemma created_storable c kind : (c < 2 ^ 128)%N -> storable (created c kind).
Proof.
  intros Hc. split; [done|]. simpl.
  apply (jeq_object _ (rev (members_of kind))).
  - apply (bool_decide_unpack (NoDup ["event_kind"; "channel_id"])). by vm_compute.
  - apply Permutation_rev.
  - simpl. repeat constructor.
Qed.

(** Two processes log for two communities, their steps interleaved; the first logs
    twice. *)
Definition schedule : list Op :=
  [OpLock 0 (created 1 9); OpLock 1 (created 2 9); OpHead 0; OpAppend 0 5000123; OpHead 1;
   OpRelease 0; OpAppend 1 6000456; OpLock 0 (created 1 40); OpHead 0; OpAppend 0 7000789].

Lemma schedule_storable : Forall op_storable schedule.
Proof. repeat constructor; try done; by apply created_storable. Qed.

(** The table two sequential logs of community 1 and one of community 2 leave. *)
Definition demo_table : list Row :=
  let t1 := fst (log_inner [1; 2]%N 5000123 (created 1 9) []) in
  let t2 := fst (log_inner [1; 2]%N 6000456 (created 2 9) t1) in
  fst (log_inner [1; 2]%N 7000789 (created 1 40) t2).

Definition demo_check (s : System) : bool :=
  (length (table s) =? 3)%nat &&
  bool_decide (select_range 1 1 5 (table s) <> []) &&
  match phase s 0 with
  | Finished e (Some (Ok entry)) => (seq entry =? 2)
  | _ => false
  end.

Lemma demo_reachable : exists s, reachable [1; 2]%N s /\ demo_check s = true.
Proof.
  assert (match exec [1; 2]%N initial schedule with Some s => demo_check s | None => false end
          = true) as H by (vm_compute; reflexivity).
  destruct (exec [1; 2]%N initial schedule) as [s|] eqn:Hs; [|done]. exists s. split; [|done].
  eapply exec_reachable; [apply schedule_storable|apply rtc_refl|apply Hs].
Qed.
End Reference.

Import Reference.

Lemma demo_facts s : demo_check s = true ->
  length (table s) = 3%nat /\ bool_decide (select_range 1 1 5 (table s) <> []) = true /\
  exists e entry, phase s 0 = Finished e (Some (Ok entry)) /\ seq entry = 2.
Proof.
  unfold demo_check. rewrite !andb_true_iff, Nat.eqb_eq. intros [[-> ->] H].
  split; [done|]. split; [done|]. repeat case_match; try done. apply Z.eqb_eq in H. eauto.
Qed.

Lemma concurrent_appends_verify_witness :
  exists s, reachable [1; 2]%N s /\ length (table s) = 3%nat /\
    verify_chain 1 1 5 (table s) = Ok true.
Proof.
  destruct demo_reachable as (s & Hs & Hd).
  destruct (demo_facts s Hd) as (Hlen & Hne & _). exists s.
  split; [exact Hs|]. split; [exact Hlen|].
  destruct (concurrent_appends_verify [1; 2]%N s Hs ltac:(rewrite Hlen; done)) as [_ Hv].
  rewrite Hv, Hne. reflexivity.
Defined.

Lemma appends_serialized_witness :
  exists s e entry, reachable [1; 2]%N s /\ phase s 0 = Finished e (Some (Ok entry)) /\
    seq entry = 2 /\ entry_to_row entry ∈ table s.
Proof.
  destruct demo_reachable as (s & Hs & Hd).
  destruct (demo_facts s Hd) as (Hlen & _ & e & entry & Hp & Hseq). exists s, e, entry.
  split; [exact Hs|]. split; [exact Hp|]. split; [exact Hseq|].
  destruct (appends_serialized [1; 2]%N s Hs ltac:(rewrite Hlen; done)) as [_ Hv].
  destruct (Hv 0%nat e (Ok entry) Hp) as [Hin _]. exact Hin.
Defined.

Definition sample (c : Uuid) (s : Z) (h : Bytes) : AuditEntry :=
  mkEntry c s h None EventCreated (Some (repeat xab 32)) (Some "abc123")
    (Object (members_of 9)) (5000000 : Z).

Lemma is_ok_true {A E : Type} (r : result A E) : is_ok r = true -> exists a, r = Ok a.
Proof. destruct r; [eauto|done]. Qed.

Lemma hash_input_injective_witness :
  framed (sample 1 1 []) /\
  exists p, hash_input (sample 1 1 []) = Ok p /\
    forall e, framed e -> hash_input e = Ok p -> object_id e = Some "abc123".
Proof.
  assert (framed (sample 1 1 [])) as Hf.
  { split; [reflexivity|]. split; [unfold is_i64; simpl; lia|].
    split; [intros k [= <-]; reflexivity|]. split; [intros o [= <-]; reflexivity|].
    split; [exists (members_of 9); reflexivity|intros h [=]]. }
  split; [exact Hf|].
  destruct (is_ok_true (hash_input (sample 1 1 [])) ltac:(vm_compute; reflexivity)) as [p Hp].
  exists p. split; [exact Hp|]. intros e He Hep.
  destruct (hash_input_injective e (sample 1 1 []) p He Hf Hep Hp)
    as (_ & _ & _ & _ & _ & Ho & _). exact Ho.
Defined.

Definition accepts {E : Type} (r : result bool E) : bool :=
  match r with Ok b => b | Err _ => false end.

Lemma accepts_true {E : Type} (r : result bool E) : accepts r = true -> r = Ok true.
Proof. destruct r as [[]|]; done. Qed.

Lemma tamper_evident_witness :
  exists t, verify_chain 1 1 2 t = Ok true /\ length t = 3%nat /\
    (rows_collide (reverse (select_range 1 1 2 t)) (reverse (select_range 1 1 5 t)) \/
     same_inputs (reverse (select_range 1 1 2 t)) (reverse (select_range 1 1 5 t))).
Proof.
  exists demo_table.
  assert (verify_chain 1 1 2 demo_table = Ok true) as H1
    by (apply accepts_true; vm_compute; reflexivity).
  assert (verify_chain 1 1 5 demo_table = Ok true) as H2
    by (apply accepts_true; vm_compute; reflexivity).
  split; [exact H1|]. split; [vm_compute; reflexivity|].
  apply (tamper_evident 1 1 2 demo_table 1 1 5 demo_table H1 H2).
  apply (bool_decide_unpack (r_hash <$> last (select_range 1 1 2 demo_table) =
    r_hash <$> last (select_range 1 1 5 demo_table))). vm_compute. exact I.
Defined.
