(* ===== verification/Workflow.v ===== *)
(** The workflow engine ([crates/buzz-workflow/src/]): definitions and their validation
    ([schema.rs]), templates, conditions, actions and the step loop ([executor.rs]), the
    status a run ends with ([lib.rs]) and the resumption of a run after an approval
    ([crates/buzz-relay/src/handlers/command_executor.rs]).

    The executor runs in a world it does not control: the database, the relay's action
    sink, DNS and HTTP, the expression evaluator, clocks and random UUIDs are the operations of
    [WorkflowWorld].  Every operation that a step awaits may instead report that the
    step's deadline passed.  [effects] records, in order, what the executor asked the
    outside world to do. *)
From S2P Require Import Prelude Nostr Kinds Text Json Network.
From Stdlib Require Import Strings.Byte.
Local Open Scope string_scope.
Local Open Scope list_scope.
Local Open Scope Z_scope.
Local Open Scope buzz_scope.

(** * Definitions of workflows *)

Inductive TriggerDef :=
| MessagePosted (filter : option string)
| ReactionAdded (emoji : option string)
| DiffPosted (filter : option string)
| Schedule (cron interval : option string)
| Webhook.

Inductive ActionDef :=
| SendMessage (text : string) (channel : option string)
| SendDm (to text : string)
| SetChannelTopic (topic : string)
| AddReaction (emoji : string)
| CallWebhook (url : string) (method : option string)
    (headers : option (gmap string string)) (body : option string)
| RequestApproval (from message : string) (timeout : option string)
| Delay (duration : string).

Record Step := mkStep {
  id : string;
  step_name : option string;
  if_expr : option string;
  timeout_secs : option Z;
  action : ActionDef
}.

Record WorkflowDef := mkDef {
  name : string;
  description : option string;
  trigger : TriggerDef;
  steps : list Step;
  enabled : bool
}.

(** What an [InvalidDefinition] message reports. *)
Inductive DefinitionError :=
| NameRequired
| StepRequired
| StepIdEmpty
| StepIdInvalid (id : string)
| DuplicateStepId (id : string)
| ScheduleWithoutTime
| ScheduleWithBoth
| InvalidCron (expr : string)
| InvalidInterval (dur : string)
| IntervalTooShort
| InvalidDuration (dur : string)
| DurationOverflow (dur : string)
| DelayTooLong (secs : Z)
| InvalidChannelOverride
| ChannelOverrideMismatch (workflow_channel : Uuid)
| NoChannel
| NoTriggerMessage
| SinkNotInitialized.

Inductive TemplateProblem :=
| TruncateNotANumber (inner : string)
| UnknownFilter (filter : string).

Inductive ConditionProblem (E : Type) :=
| ContextRejected (e : E)
| ExpressionTooLong
| EvaluationTimedOut
| EvaluationPanicked
| EvaluationFailed (e : E).
Arguments ContextRejected {E} e.
Arguments ExpressionTooLong {E}.
Arguments EvaluationTimedOut {E}.
Arguments EvaluationPanicked {E}.
Arguments EvaluationFailed {E} e.

Inductive WebhookProblem :=
| RunNotLoaded | WorkflowNotLoaded | SinkFailed | InvalidUrl | NoHost | DnsFailed
| NoAddress | SsrfBlocked (ip : IpAddr) | InvalidMethod | RequestFailed | BodyReadFailed
| BodyTooLong | ReactionFailed | ReactionRefused (status : Z).

(** [EvalExprError] is the error type of the expression crate, [DbError] the database's. *)
Inductive WorkflowError (E D : Type) :=
| InvalidDefinition (e : DefinitionError)
| ConditionError (e : ConditionProblem E)
| TemplateError (e : TemplateProblem)
| StepTimeout (step_id : string) (timeout_secs : Z)
| WebhookError (e : WebhookProblem)
| CapacityExceeded
| DatabaseError (e : D)
| Unauthorized
| NotImplemented (what : string).
Arguments InvalidDefinition {E D} e.
Arguments ConditionError {E D} e.
Arguments TemplateError {E D} e.
Arguments StepTimeout {E D} step_id timeout_secs.
Arguments WebhookError {E D} e.
Arguments CapacityExceeded {E D}.
Arguments DatabaseError {E D} e.
Arguments Unauthorized {E D}.
Arguments NotImplemented {E D} what.

(** [evalexpr::Value] *)
Inductive EvalValue (F : Type) :=
| EVString (s : string)
| EVFloat (f : F)
| EVInt (i : Z)
| EVBoolean (b : bool)
| EVTuple (l : list (EvalValue F))
| EVEmpty.
Arguments EVString {F} s.
Arguments EVFloat {F} f.
Arguments EVInt {F} i.
Arguments EVBoolean {F} b.
Arguments EVTuple {F} l.
Arguments EVEmpty {F}.

(** The crates the engine calls. *)
Class WorkflowCrates (J : SerdeJson) := {
  EvalError : Type;
  DbError : Type;
  (** [evalexpr::HashMapContext] and the accessors of [evalexpr::Value] *)
  EvalContext : Type;
  new_context : EvalContext;
  set_function :
    EvalContext -> string -> (EvalValue Float -> result (EvalValue Float) EvalError) ->
    result EvalContext EvalError;
  set_value : EvalContext -> string -> EvalValue Float -> result EvalContext EvalError;
  get_value : EvalContext -> string -> option (EvalValue Float);
  as_string : EvalValue Float -> result string EvalError;
  as_fixed_len_tuple : EvalValue Float -> nat -> result (list (EvalValue Float)) EvalError;
  (** [expr.parse::<cron::Schedule>().is_ok()] *)
  cron_valid : string -> bool;
  (** [s.parse::<Uuid>().ok()] *)
  uuid_parse : string -> option Uuid;
  (** [PublicKey::from_hex(s).ok()], [to_bech32().ok()] *)
  pubkey_from_hex : string -> option Bytes;
  to_bech32 : Bytes -> option string;
  (** [reqwest::Url::parse]: the host and [port_or_known_default] *)
  url_parse : string -> option (option string * option Z);
  (** [reqwest::Method::from_bytes(m).is_ok()] *)
  method_valid : string -> bool;
  utf8_lossy : string -> string;
  (** [serde_json::from_str(s).ok()], and [serde_json::from_value::<WorkflowDef>(v).ok()] *)
  json_from_str : string -> option (Value Number);
  parse_definition : Value Number -> option WorkflowDef
}.

(** What the engine relies on: a context that stores values by name. *)
Class WorkflowCratesLaws {J : SerdeJson} (C : WorkflowCrates J) := {
  set_function_get c name f c' x :
    set_function c name f = Ok c' -> get_value c' x = get_value c x;
  set_value_get c name v c' x :
    set_value c name v = Ok c' ->
    get_value c' x = if String.eqb name x then Some v else get_value c x
}.

Section schema.
Context {J : SerdeJson} {C : WorkflowCrates J}.

(** [requires_elevated_authority] *)
Definition requires_elevated_authority (def : WorkflowDef) : bool :=
  existsb (fun s => match action s with CallWebhook _ _ _ _ => true | _ => false end) (steps def).

Definition parse_duration_part (dur n : string) (unit : Z) : result Z DefinitionError :=
  match parse_u64 (trim n) with
  | None => Err (InvalidDuration dur)
  | Some k => if k * unit <=? U64_MAX then Ok (k * unit) else Err (DurationOverflow dur)
  end.

Definition parse_duration_secs (duration : string) : result Z DefinitionError :=
  let duration := trim duration in
  match strip_suffix "h" duration with
  | Some n => parse_duration_part duration n 3600
  | None =>
      match strip_suffix "m" duration with
      | Some n => parse_duration_part duration n 60
      | None =>
          match strip_suffix "s" duration with
          | Some n => parse_duration_part duration n 1
          | None =>
              match parse_u64 duration with
              | None => Err (InvalidDuration duration)
              | Some k => Ok k
              end
          end
      end
  end.

(** [expr.split_whitespace().count()]; [fuel] bounds the fields by the length. *)
Fixpoint count_fields (fuel : nat) (in_field : bool) (s : string) : nat :=
  match fuel with
  | O => O
  | S fuel' =>
      match s with
      | EmptyString => O
      | String _ s' =>
          match strip_any whitespace s with
          | Some r => count_fields fuel' false r
          | None => ((if in_field then 0 else 1) + count_fields fuel' true s')%nat
          end
      end
  end.

Definition normalize_cron (expr : string) : string :=
  match count_fields (S (String.length expr)) false expr with
  | 5%nat => "0 " +:+ expr +:+ " *"
  | 6%nat => expr +:+ " *"
  | _ => expr
  end.

Definition validate_cron (expr : string) : result unit DefinitionError :=
  if cron_valid (normalize_cron expr) then Ok tt else Err (InvalidCron expr).

Definition valid_step_id (s : string) : bool :=
  negb (str_is_empty s) && (String.length s <=? 64)%nat &&
  str_all (fun c => is_ascii_alphanumeric c || Ascii.eqb c "_") s.

Fixpoint validate_ids (seen_ids : list string) (l : list Step) : result unit DefinitionError :=
  match l with
  | [] => Ok tt
  | step :: l' =>
      if str_is_empty (trim (id step)) then Err StepIdEmpty
      else if negb (valid_step_id (id step)) then Err (StepIdInvalid (id step))
      else if existsb (String.eqb (id step)) seen_ids then Err (DuplicateStepId (id step))
      else validate_ids (id step :: seen_ids) l'
  end.

Definition validate_trigger (t : TriggerDef) : result unit DefinitionError :=
  match t with
  | Schedule None None => Err ScheduleWithoutTime
  | Schedule (Some _) (Some _) => Err ScheduleWithBoth
  | Schedule (Some expr) None => validate_cron expr
  | Schedule None (Some dur) =>
      match parse_duration_secs dur with
      | Err _ => Err (InvalidInterval dur)
      | Ok secs => if secs <? 60 then Err IntervalTooShort else Ok tt
      end
  | _ => Ok tt
  end.

Definition validate (def : WorkflowDef) : result unit DefinitionError :=
  if str_is_empty (trim (name def)) then Err NameRequired
  else match steps def with
  | [] => Err StepRequired
  | _ =>
      let? _ := validate_ids [] (steps def) in
      validate_trigger (trigger def)
  end.

(** ** Validation *)

Lemma valid_step_id_trim s : valid_step_id s = true -> str_is_empty (trim s) = false.
Proof.
  unfold valid_step_id. rewrite !andb_true_iff, negb_true_iff. intros [[Hne _] Hw].
  by rewrite trim_word.
Qed.

Lemma validate_ids_spec seen l :
  validate_ids seen l = Ok tt <->
  Forall (fun s => valid_step_id (id s) = true) l /\ NoDup (map id l) /\
  (forall s, s ∈ l -> id s ∉ seen).
Proof.
  revert seen. induction l as [|step l IH]; intros seen; cbn [validate_ids map].
  - split; [intros _; split_and!; [done|constructor|by intros ? ?%elem_of_nil]|done].
  - rewrite Forall_cons, NoDup_cons. destruct (valid_step_id (id step)) eqn:Hv.
    2: { simpl. destruct (str_is_empty _); split; try done; naive_solver. }
    rewrite valid_step_id_trim by done. simpl.
    destruct (existsb (String.eqb (id step)) seen) eqn:Hs.
    + split; [done|]. intros (_ & _ & Hseen). exfalso.
      apply existsb_exists in Hs as (x & Hx & Heq%String.eqb_eq).
      apply (Hseen step); [left|rewrite Heq; by apply list_elem_of_In].
    + rewrite IH. assert (id step ∉ seen) as Hnot.
      { intros Hin%list_elem_of_In. rewrite (proj2 (existsb_exists _ _)) in Hs; [done|].
        exists (id step). by rewrite String.eqb_refl. }
      split.
      * intros (Hf & Hnd & Hd). split_and!; try done.
        -- rewrite list_elem_of_In, in_map_iff. intros (x & Hx & Hin%list_elem_of_In).
           apply (Hd x Hin). rewrite Hx. left.
        -- intros x [->|Hx]%elem_of_cons; [done|]. intros Hin. apply (Hd x Hx). by right.
      * intros ((_ & Hf) & (Hid & Hnd) & Hd). split_and!; try done.
        intros x Hx [Heq|Hin]%elem_of_cons; [|by apply (Hd x); [right|]].
        apply Hid. rewrite <-Heq. rewrite list_elem_of_In. apply in_map. by apply list_elem_of_In.
Qed.

(** The trigger of a definition that may be saved. *)
Definition trigger_valid (t : TriggerDef) : Prop :=
  match t with
  | Schedule cron interval =>
      (exists expr, cron = Some expr /\ interval = None /\ cron_valid (normalize_cron expr) = true) \/
      (exists dur secs, cron = None /\ interval = Some dur /\
         parse_duration_secs dur = Ok secs /\ 60 <= secs)
  | _ => True
  end.

(** C36: Validation accepts exactly the definitions with a name, at least one step, distinct step
    ids that are identifiers of at most 64 characters, and, for a schedule, either a cron
    expression that parses or an interval of at least a minute, not both. *)
Theorem validate_spec def :
  validate def = Ok tt <->
  str_is_empty (trim (name def)) = false /\ steps def <> [] /\
  Forall (fun s => valid_step_id (id s) = true) (steps def) /\ NoDup (map id (steps def)) /\
  trigger_valid (trigger def).
Proof.
  assert (validate_trigger (trigger def) = Ok tt <-> trigger_valid (trigger def)) as Htrig.
  { unfold validate_trigger, trigger_valid, validate_cron. destruct (trigger def) as [| | |cron interval|]; try done.
    destruct cron as [expr|], interval as [dur|].
    - split; [done|]. by intros [(? & ? & ? & ?)|(? & ? & ? & ?)].
    - destruct (cron_valid (normalize_cron expr)) eqn:Hc.
      + split; [|done]. intros _. left. by exists expr.
      + split; [done|]. intros [(? & [= <-] & _ & ?)|(? & ? & ? & _)]; congruence.
    - destruct (parse_duration_secs dur) as [secs|] eqn:Hd.
      + destruct (secs <? 60) eqn:Hlt; [apply Z.ltb_lt in Hlt|apply Z.ltb_ge in Hlt].
        * split; [done|]. intros [(? & ? & _)|(? & n & _ & [= <-] & Hn & ?)]; [done|].
          rewrite Hd in Hn. injection Hn as <-. lia.
        * split; [|done]. intros _. right. by exists dur, secs.
      + split; [done|]. intros [(? & ? & _)|(? & n & _ & [= <-] & Hn & _)]; congruence.
    - split; [done|]. by intros [(? & ? & _)|(? & ? & _ & ? & _)]. }
  unfold validate. destruct (str_is_empty (trim (name def))); [naive_solver|].
  destruct (steps def) as [|step l] eqn:Hsteps; [naive_solver|].
  rewrite res_bind_Ok, <-Htrig.
  split.
  - intros ([] & (Hf & Hnd & _)%validate_ids_spec & Ht). split_and!; done.
  - intros (_ & _ & Hf & Hnd & Ht). exists tt. split; [|done]. apply validate_ids_spec.
    split_and!; [done|done|]. intros x _. apply not_elem_of_nil.
Qed.
End schema.

(** * Templates *)

Record TriggerContext := mkTrigger {
  t_text : string;
  t_author : string;
  t_channel_id : string;
  t_timestamp : string;
  t_emoji : string;
  t_message_id : string;
  t_webhook_fields : gmap string string
}.

Definition default_trigger : TriggerContext := mkTrigger "" "" "" "" "" "" ∅.

Definition get_field (ctx : TriggerContext) (field : string) : option string :=
  if String.eqb field "text" then Some (t_text ctx)
  else if String.eqb field "author" then Some (t_author ctx)
  else if String.eqb field "channel_id" then Some (t_channel_id ctx)
  else if String.eqb field "timestamp" then Some (t_timestamp ctx)
  else if String.eqb field "emoji" then Some (t_emoji ctx)
  else if String.eqb field "message_id" then Some (t_message_id ctx)
  else t_webhook_fields ctx !! field.

Section templates.
Context {J : SerdeJson} {C : WorkflowCrates J}.
Implicit Types (trigger_ctx : TriggerContext) (step_outputs : gmap string (Value Number)).

Definition json_to_string (v : Value Number) : string :=
  match v with
  | Str s => s
  | Bool b => if b then "true" else "false"
  | Num n => number_display n
  | Null => ""
  | other => value_display other
  end.

Definition json_get_str (v : Value Number) (key : string) : option string :=
  match v with
  | Object map => json_to_string <$> member key map
  | _ => None
  end.

Definition resolve_variable (path : string) trigger_ctx step_outputs : option string :=
  match strip_prefix "trigger." path with
  | Some field => get_field trigger_ctx field
  | None =>
      match strip_prefix "steps." path with
      | Some rest =>
          '(step_id, rest) ← split_once "." rest;
          '(middle, field) ← split_once "." rest;
          if negb (String.eqb middle "output") then None else
          output ← step_outputs !! step_id;
          json_get_str output field
      | None => None
      end
  end.

Definition apply_filter (value filter : string) : result string TemplateProblem :=
  let filter := trim filter in
  match s ← strip_prefix "truncate(" filter; strip_suffix ")" s with
  | Some inner =>
      match parse_u64 (trim inner) with
      | None => Err (TruncateNotANumber inner)
      | Some n => Ok (take_chars (Z.to_nat n) value)
      end
  | None =>
      if String.eqb filter "npub" || String.eqb filter "truncate_pubkey" then
        match pubkey_from_hex value with
        | Some pk => Ok (default value (to_bech32 pk))
        | None => Ok value
        end
      else Err (UnknownFilter filter)
  end.

(** The text of one placeholder, [expr] already trimmed. *)
Definition resolve_placeholder (expr : string) trigger_ctx step_outputs
  : result string TemplateProblem :=
  let '(var_path, filter) :=
    match split_once "|" expr with
    | Some (a, b) => (trim a, Some (trim b))
    | None => (trim expr, None)
    end in
  match resolve_variable var_path trigger_ctx step_outputs, filter with
  | Some v, Some f => apply_filter v f
  | Some v, None => Ok v
  | None, _ => Ok ("{{" +:+ expr +:+ "}}")
  end.

(** The [while let] loop; each round consumes at least the two bytes of [{{]. *)
Fixpoint resolve_loop (fuel : nat) (out remaining : string) trigger_ctx step_outputs
  : result string TemplateProblem :=
  match fuel with
  | O => Ok (out +:+ remaining)
  | S fuel' =>
      match split_at "{{" remaining with
      | None => Ok (out +:+ remaining)
      | Some (before, remaining) =>
          let out := out +:+ before in
          match split_at "}}" remaining with
          | None => Ok (out +:+ "{{" +:+ remaining)
          | Some (inner, remaining) =>
              let? value := resolve_placeholder (trim inner) trigger_ctx step_outputs in
              resolve_loop fuel' (out +:+ value) remaining trigger_ctx step_outputs
          end
      end
  end.

Definition resolve_template (template : string) trigger_ctx step_outputs
  : result string TemplateProblem :=
  if negb (contains "{{" template) then Ok template
  else resolve_loop (String.length template) "" template trigger_ctx step_outputs.

(** ** Single-pass substitution *)

(** A template cut into text and placeholders. *)
Inductive Token :=
| Text (s : string)
| Placeholder (inner : string)
| Unclosed (rest : string).

Fixpoint tokens (fuel : nat) (s : string) : list Token :=
  match fuel with
  | O => [Text s]
  | S fuel' =>
      match split_at "{{" s with
      | None => [Text s]
      | Some (before, rest) =>
          match split_at "}}" rest with
          | None => [Text before; Unclosed rest]
          | Some (inner, rest) => Text before :: Placeholder inner :: tokens fuel' rest
          end
      end
  end.

Definition tokenize (s : string) : list Token := tokens (String.length s) s.

(** The template text of a token, and what the context puts in its place. *)
Definition token_source (t : Token) : string :=
  match t with
  | Text s => s
  | Placeholder inner => "{{" +:+ inner +:+ "}}"
  | Unclosed rest => "{{" +:+ rest
  end.

Definition token_value trigger_ctx step_outputs (t : Token) : result string TemplateProblem :=
  match t with
  | Text s => Ok s
  | Placeholder inner => resolve_placeholder (trim inner) trigger_ctx step_outputs
  | Unclosed rest => Ok ("{{" +:+ rest)
  end.

Fixpoint concat_results (l : list (result string TemplateProblem)) : result string TemplateProblem :=
  match l with
  | [] => Ok ""
  | r :: l' => let? s := r in let? s' := concat_results l' in Ok (s +:+ s')
  end.

Fixpoint concat_strings (l : list string) : string :=
  match l with [] => "" | s :: l' => s +:+ concat_strings l' end.

Lemma resolve_loop_tokens fuel out s trigger_ctx step_outputs :
  resolve_loop fuel out s trigger_ctx step_outputs =
  res_bind (concat_results (map (token_value trigger_ctx step_outputs) (tokens fuel s)))
    (fun t => Ok (out +:+ t)).
Proof.
  revert out s. induction fuel as [|fuel IH]; intros out s; simpl.
  - by rewrite append_nil_r.
  - destruct (split_at "{{" s) as [[before rest]|]; simpl; [|by rewrite append_nil_r].
    destruct (split_at "}}" rest) as [[inner rest']|]; simpl.
    + destruct (resolve_placeholder _ _ _) as [v|e]; simpl; [|done]. rewrite IH.
      destruct (concat_results _); simpl; [|done]. by rewrite !append_assoc.
    + by rewrite append_nil_r, append_assoc.
Qed.

Lemma tokens_source fuel s : concat_strings (map token_source (tokens fuel s)) = s.
Proof.
  revert s. induction fuel as [|fuel IH]; intros s; simpl; [apply append_nil_r|].
  destruct (split_at "{{" s) as [[before rest]|] eqn:H1; simpl; [|apply append_nil_r].
  apply split_at_Some in H1 as ->.
  destruct (split_at "}}" rest) as [[inner rest']|] eqn:H2; simpl.
  - apply split_at_Some in H2 as ->. by rewrite IH, !append_assoc.
  - by rewrite append_nil_r.
Qed.

(** No text token hides a placeholder, so the fuel is enough. *)
Definition token_closed (t : Token) : Prop :=
  match t with
  | Text s => contains "{{" s = false
  | Placeholder inner => contains "}}" inner = false
  | Unclosed rest => contains "}}" rest = false
  end.

Lemma tokens_closed fuel s : (String.length s <= fuel)%nat -> Forall token_closed (tokens fuel s).
Proof.
  revert s. induction fuel as [|fuel IH]; intros s Hs; cbn [tokens].
  - destruct s; [by repeat constructor|]. simpl in Hs. lia.
  - destruct (split_at "{{" s) as [[before rest]|] eqn:H1.
    2: { constructor; [|done]. by apply split_at_contains. }
    pose proof (split_at_length "{{" _ _ _ ltac:(done) H1) as Hl1.
    apply split_at_first in H1; [|done].
    destruct (split_at "}}" rest) as [[inner rest']|] eqn:H2.
    + pose proof (split_at_length "}}" _ _ _ ltac:(done) H2) as Hl2.
      apply split_at_first in H2; [|done].
      constructor; [done|]. constructor; [done|]. apply IH. lia.
    + apply split_at_contains in H2. by repeat constructor.
Qed.

(** Substitution is a single pass: the template is cut once, whatever the data, into text
    without openings and placeholders up to their closing; their sources concatenate to
    the template, and the result is the concatenation of their values.  No value is
    scanned again, so data cannot introduce a placeholder. *)
Theorem resolve_template_single_pass template trigger_ctx step_outputs :
  resolve_template template trigger_ctx step_outputs =
    concat_results (map (token_value trigger_ctx step_outputs) (tokenize template)) /\
  concat_strings (map token_source (tokenize template)) = template /\
  Forall token_closed (tokenize template).
Proof.
  unfold tokenize. split_and!; [|apply tokens_source|by apply tokens_closed].
  unfold resolve_template, contains.
  destruct (split_at "{{" template) as [[before rest]|] eqn:H; simpl.
  - rewrite resolve_loop_tokens. by destruct (concat_results _).
  - destruct template as [|c template]; [done|]. cbn [String.length tokens]. rewrite H.
    simpl. by rewrite append_nil_r.
Qed.
End templates.

(** * Conditions *)

Section conditions.
Context {J : SerdeJson} {C : WorkflowCrates J} `{HashIter}.
Implicit Types (trigger_ctx : TriggerContext) (step_outputs : gmap string (Value Number)).

(** The four string helpers registered with the evaluator. *)
Definition str_helper (f : string -> string -> bool) (args : EvalValue Float)
  : result (EvalValue Float) EvalError :=
  let? args := as_fixed_len_tuple args 2 in
  let? a := as_string (nth 0 args EVEmpty) in
  let? b := as_string (nth 1 args EVEmpty) in
  Ok (EVBoolean (f a b)).
Definition str_contains_fn := str_helper (fun haystack needle => contains needle haystack).
Definition str_starts_with_fn := str_helper (fun s prefix => starts_with prefix s).
Definition str_ends_with_fn := str_helper (fun s suffix => ends_with suffix s).
Definition str_len_fn (arg : EvalValue Float) : result (EvalValue Float) EvalError :=
  let? s := as_string arg in
  Ok (EVInt (Z.of_nat (String.length s))).

Definition json_value_to_eval (v : Value Number) : EvalValue Float :=
  match v with
  | Str s => EVString s
  | Bool b => EVBoolean b
  | Num n =>
      match as_i64 n with
      | Some i => EVInt i
      | None => match as_f64 n with Some f => EVFloat f | None => EVString (number_display n) end
      end
  | Null => EVEmpty
  | other => EVString (value_display other)
  end.

(** The variables, in the order they are set. *)
Definition webhook_vars trigger_ctx : list (string * EvalValue Float) :=
  omap (fun '(key, val) =>
          if starts_with "trigger_" key || starts_with "steps_" key then None
          else Some ("trigger_" +:+ key, EVString val))
    (hash_iter (t_webhook_fields trigger_ctx)).

Definition trigger_vars trigger_ctx : list (string * EvalValue Float) :=
  [("trigger_text", EVString (t_text trigger_ctx));
   ("trigger_author", EVString (t_author trigger_ctx));
   ("trigger_channel_id", EVString (t_channel_id trigger_ctx));
   ("trigger_timestamp", EVString (t_timestamp trigger_ctx));
   ("trigger_emoji", EVString (t_emoji trigger_ctx));
   ("trigger_message_id", EVString (t_message_id trigger_ctx))].

Definition output_vars step_outputs : list (string * EvalValue Float) :=
  concat (map (fun '(step_id, output) =>
      match output with
      | Object map =>
          List.map (fun '(field, val) =>
              ("steps_" +:+ step_id +:+ "_output_" +:+ field, json_value_to_eval val)) map
      | _ => []
      end)
    (hash_iter step_outputs)).

Fixpoint set_values (vars : list (string * EvalValue Float)) (ctx : EvalContext)
  : result EvalContext EvalError :=
  match vars with
  | [] => Ok ctx
  | (name, v) :: vars' => let? ctx := set_value ctx name v in set_values vars' ctx
  end.

Definition build_eval_context trigger_ctx step_outputs : result EvalContext EvalError :=
  let? ctx := set_function new_context "str_contains" str_contains_fn in
  let? ctx := set_function ctx "str_starts_with" str_starts_with_fn in
  let? ctx := set_function ctx "str_ends_with" str_ends_with_fn in
  let? ctx := set_function ctx "str_len" str_len_fn in
  let? ctx := set_values (webhook_vars trigger_ctx) ctx in
  let? ctx := set_values (trigger_vars trigger_ctx) ctx in
  set_values (output_vars step_outputs) ctx.

Context {L : WorkflowCratesLaws C}.

(** The last value set for [x] by [vars], over what the context had. *)
Fixpoint last_set (vars : list (string * EvalValue Float)) (x : string)
    (before : option (EvalValue Float)) : option (EvalValue Float) :=
  match vars with
  | [] => before
  | (name, v) :: vars' => last_set vars' x (if String.eqb name x then Some v else before)
  end.

Lemma set_values_get vars ctx ctx' x :
  set_values vars ctx = Ok ctx' -> get_value ctx' x = last_set vars x (get_value ctx x).
Proof.
  revert ctx. induction vars as [|[name v] vars IH]; intros ctx; simpl; [by intros [= <-]|].
  intros (c & Hc & Hr)%res_bind_Ok. rewrite (IH _ Hr). by rewrite (set_value_get _ _ _ _ x Hc).
Qed.

Lemma last_set_other vars x before :
  (forall name v, (name, v) ∈ vars -> name <> x) -> last_set vars x before = before.
Proof.
  revert before. induction vars as [|[name v] vars IH]; intros before Hx; simpl; [done|].
  rewrite IH by (intros n u Hn; apply (Hx n u); by right).
  destruct (String.eqb_spec name x) as [->|]; [|done]. destruct (Hx x v); [left|done].
Qed.

Lemma output_vars_names step_outputs name v :
  (name, v) ∈ output_vars step_outputs -> exists r, name = "steps_" +:+ r.
Proof.
  unfold output_vars. rewrite list_elem_of_In, in_concat.
  intros (l & Hl & Hv). apply in_map_iff in Hl as ([step_id output] & <- & _).
  destruct output; try done. apply in_map_iff in Hv as ([f u] & [= <- <-] & _). eauto.
Qed.

(** Conditions see the trigger as it happened: whatever the webhook body and the outputs of
    earlier steps contain, each of the six trigger variables has the trigger's value. *)
Theorem trigger_variables_unspoofable trigger_ctx step_outputs ctx name v
    (Hctx : build_eval_context trigger_ctx step_outputs = Ok ctx)
    (Hv : (name, v) ∈ trigger_vars trigger_ctx) :
  get_value ctx name = Some v.
Proof.
  unfold build_eval_context in Hctx.
  do 5 (apply res_bind_Ok in Hctx as (? & _ & Hctx)).
  apply res_bind_Ok in Hctx as (c2 & H1 & H2).
  rewrite (set_values_get _ _ _ name H2), (set_values_get _ _ _ name H1).
  match goal with |- context [get_value ?c name] => generalize (get_value c name) end.
  intros before. rewrite last_set_other.
  - unfold trigger_vars in *. rewrite !elem_of_cons in Hv.
    destruct_or!; simplify_eq; try reflexivity. by apply elem_of_nil in Hv.
  - intros n u (r & ->)%output_vars_names Heq. unfold trigger_vars in Hv.
    rewrite !elem_of_cons in Hv. destruct_or!; simplify_eq. by apply elem_of_nil in Hv.
Qed.
End conditions.

(** * The world of a run *)

Inductive RunStatus := Pending | Running | WaitingApproval | Completed | Failed | Cancelled.
#[export] Instance RunStatus_eq_dec : EqDecision RunStatus.
Proof. solve_decision. Defined.

(** The columns of [workflows] and [workflow_runs] the engine reads. *)
Record WorkflowRecord {J : SerdeJson} := mkWorkflow {
  w_id : Uuid;
  w_community_id : Uuid;
  w_owner_pubkey : Bytes;
  w_channel_id : option Uuid;
  w_definition : Value Number
}.
Record WorkflowRunRecord {J : SerdeJson} := mkRun {
  run_workflow_id : Uuid;
  run_status : RunStatus;
  run_current_step : Z;
  run_execution_trace : Value Number;
  run_trigger_context : option TriggerContext
}.

Record HttpRequest := mkHttp {
  req_host : string;
  req_method : string;
  req_url : string;
  req_headers : list (string * string);
  req_body : option string
}.

(** An awaited operation's answer, or the deadline of the enclosing step. *)
Inductive Awaited (A : Type) := Ready (a : A) | DeadlinePassed.
Arguments Ready {A} a.
Arguments DeadlinePassed {A}.

Inductive EvalOutcome (E : Type) := TimedOut | Panicked | Evaluated (r : result bool E).
Arguments TimedOut {E}.
Arguments Panicked {E}.
Arguments Evaluated {E} r.

Class WorkflowWorld {J : SerdeJson} (C : WorkflowCrates J) := {
  World : Type;
  (** [spawn_blocking(eval_boolean_with_context)] under its 100 ms timeout *)
  eval_boolean : World -> string -> EvalContext -> World * EvalOutcome EvalError;
  (** [tokio::time::timeout(secs, ..)] starts *)
  arm_deadline : World -> Z -> World;
  db_get_workflow_run : World -> Uuid -> Uuid -> World * Awaited (result WorkflowRunRecord DbError);
  db_get_workflow : World -> Uuid -> Uuid -> World * Awaited (result WorkflowRecord DbError);
  db_update_workflow_run :
    World -> Uuid -> Uuid -> RunStatus -> Z -> Value Number -> option string ->
    World * result unit DbError;
  (** the action sink is set; [ActionSink::send_message] (its errors are opaque) *)
  sink_set : World -> bool;
  sink_send_message : World -> Uuid -> string -> string -> string -> World * Awaited (result string unit);
  (** [to_socket_addrs] on a blocking thread *)
  resolve_host : World -> string -> Z -> World * Awaited (result (list IpAddr) unit);
  (** [Client::builder()..build()] succeeds *)
  client_builds : World -> bool;
  (** a request pinned to an address: status and body chunks as they are read *)
  http_send :
    World -> IpAddr -> Z -> HttpRequest ->
    World * Awaited (result (Z * list (Awaited (result string unit))) unit);
  env_var : World -> string -> option string;
  (** the reaction request: status, and the body or a read error *)
  post_reaction :
    World -> string -> list (string * string) -> string ->
    World * Awaited (result (Z * result string unit) unit);
  new_uuid : World -> World * Uuid;
  sleep : World -> Z -> World * Awaited unit
}.

(** What a run asked the outside world to do. *)
Inductive Effect :=
| Posted (community : Uuid) (channel text author : string)
| Requested (ip : IpAddr) (port : Z) (req : HttpRequest)
| Reacted (url emoji : string)
| Slept (secs : Z).

Inductive StepResult (N : Type) :=
| StepCompleted (output : Value N)
| StepSuspended (approval_token : string)
| StepSkipped.
Arguments StepCompleted {N} output.
Arguments StepSuspended {N} approval_token.
Arguments StepSkipped {N}.

Section executor.
Context {J : SerdeJson} {A : NostrApi} {C : WorkflowCrates J} {W : WorkflowWorld C} `{HashIter}.
Implicit Types (trigger_ctx : TriggerContext) (step_outputs : gmap string (Value Number)).

Abbreviation Error := (WorkflowError EvalError DbError) (only parsing).

Record Sys := mkSys { world : World; effects : list Effect }.

(** A dispatch ends with a value, an error of its own, or the deadline. *)
Inductive Stop := StepFailed (e : WorkflowError EvalError DbError) | Deadline.

Definition tick (w : World) (s : Sys) : Sys := mkSys w (effects s).
Definition record (e : Effect) : method Sys Stop unit :=
  m_modify (fun s => mkSys (world s) (effects s ++ [e])).

(** [op.await], with the error mapped. *)
Definition await {B E : Type} (op : World -> World * Awaited (result B E))
    (f : E -> WorkflowError EvalError DbError) : method Sys Stop B :=
  fun s =>
    let '(w, r) := op (world s) in
    (tick w s, match r with
               | DeadlinePassed => Err Deadline
               | Ready (Ok b) => Ok b
               | Ready (Err e) => Err (StepFailed (f e))
               end).

(** An immediate result. *)
Definition lift {B : Type} (r : result B (WorkflowError EvalError DbError)) : method Sys Stop B :=
  fun s => (s, map_err StepFailed r).

Definition evaluate_condition (expr : string) trigger_ctx step_outputs
  : method Sys (WorkflowError EvalError DbError) bool :=
  fun s =>
    match build_eval_context trigger_ctx step_outputs with
    | Err e => (s, Err (ConditionError (ContextRejected e)))
    | Ok ctx =>
        if (4096 <? String.length expr)%nat then (s, Err (ConditionError ExpressionTooLong))
        else
          let '(w, r) := eval_boolean (world s) expr ctx in
          (tick w s, match r with
                     | TimedOut => Err (ConditionError EvaluationTimedOut)
                     | Panicked => Err (ConditionError EvaluationPanicked)
                     | Evaluated (Ok b) => Ok b
                     | Evaluated (Err e) => Err (ConditionError (EvaluationFailed e))
                     end)
    end.

(** * Actions *)

Fixpoint resolve_headers (l : list (string * string)) (out : gmap string string)
    trigger_ctx step_outputs : result (gmap string string) TemplateProblem :=
  match l with
  | [] => Ok out
  | (k, v) :: l' =>
      let? v := resolve_template v trigger_ctx step_outputs in
      resolve_headers l' (<[k := v]> out) trigger_ctx step_outputs
  end.

Definition resolve_step_templates (step : Step) trigger_ctx step_outputs
  : result ActionDef TemplateProblem :=
  let t s := resolve_template s trigger_ctx step_outputs in
  let t_opt o := match o with Some v => let? v := t v in Ok (Some v) | None => Ok None end in
  match action step with
  | SendMessage text channel =>
      let? text := t text in let? channel := t_opt channel in Ok (SendMessage text channel)
  | SendDm to text => let? to := t to in let? text := t text in Ok (SendDm to text)
  | SetChannelTopic topic => let? topic := t topic in Ok (SetChannelTopic topic)
  | AddReaction emoji => let? emoji := t emoji in Ok (AddReaction emoji)
  | CallWebhook url method headers body =>
      let? headers :=
        match headers with
        | Some h =>
            let? out := resolve_headers (hash_iter h) ∅ trigger_ctx step_outputs in Ok (Some out)
        | None => Ok None
        end in
      let? url := t url in let? body := t_opt body in Ok (CallWebhook url method headers body)
  | RequestApproval from message timeout =>
      let? from := t from in let? message := t message in Ok (RequestApproval from message timeout)
  | Delay duration => Ok (Delay duration)
  end.

Definition resolve_send_message_channel (explicit_channel : option string)
    (trigger_channel : string) (workflow_channel_id : option Uuid)
  : result string (WorkflowError EvalError DbError) :=
  let explicit_channel :=
    match trim <$> explicit_channel with
    | Some c => if str_is_empty c then None else Some c
    | None => None
    end in
  match workflow_channel_id, explicit_channel with
  | Some workflow_channel_id, Some explicit_channel =>
      match uuid_parse explicit_channel with
      | None => Err (InvalidDefinition InvalidChannelOverride)
      | Some override =>
          if negb (override =? workflow_channel_id)%N
          then Err (InvalidDefinition (ChannelOverrideMismatch workflow_channel_id))
          else Ok (uuid_to_string workflow_channel_id)
      end
  | Some workflow_channel_id, None => Ok (uuid_to_string workflow_channel_id)
  | None, Some explicit_channel =>
      match uuid_parse explicit_channel with
      | None => Err (InvalidDefinition InvalidChannelOverride)
      | Some override => Ok (uuid_to_string override)
      end
  | None, None =>
      if str_is_empty (trim trigger_channel) then Err (InvalidDefinition NoChannel)
      else Ok (trim trigger_channel)
  end.

Definition check_ssrf (host : string) (port : Z) : method Sys Stop IpAddr :=
  do? addrs <- await (fun w => resolve_host w host port) (fun _ => WebhookError DnsFailed);;
  match addrs with
  | [] => lift (Err (WebhookError NoAddress))
  | first :: _ =>
      match List.find is_private_ip addrs with
      | Some ip => lift (Err (WebhookError (SsrfBlocked ip)))
      | None => m_ret first
      end
  end.

Definition WEBHOOK_MAX_RESPONSE_BYTES : nat := Z.to_nat (1024 * 1024).

(** The chunk loop over what the response delivers. *)
Fixpoint read_body (chunks : list (Awaited (result string unit))) (body_bytes : string)
  : result string Stop :=
  match chunks with
  | [] => Ok body_bytes
  | DeadlinePassed :: _ => Err Deadline
  | Ready (Err _) :: _ => Err (StepFailed (WebhookError BodyReadFailed))
  | Ready (Ok bytes) :: chunks' =>
      let body_bytes := body_bytes +:+ bytes in
      if (WEBHOOK_MAX_RESPONSE_BYTES <? String.length body_bytes)%nat
      then Err (StepFailed (WebhookError BodyTooLong))
      else read_body chunks' body_bytes
  end.

Definition call_webhook_impl (url method : string) (headers : option (gmap string string))
    (body : option string) : Prelude.method Sys Stop (Value Number) :=
  match url_parse url with
  | None => lift (Err (WebhookError InvalidUrl))
  | Some (None, _) => lift (Err (WebhookError NoHost))
  | Some (Some host, port) =>
      let port := default 80 port in
      do? safe_ip <- check_ssrf host port;;
      do? s <- m_get;;
      if negb (client_builds (world s)) then lift (Err (WebhookError RequestFailed)) else
      if negb (method_valid method) then lift (Err (WebhookError InvalidMethod)) else
      let req := mkHttp host method url (from_option hash_iter [] headers) body in
      record (Requested safe_ip port req);;?
      do? resp <- await (fun w => http_send w safe_ip port req) (fun _ => WebhookError RequestFailed);;
      let '(status, chunks) := resp in
      do? body_bytes <- m_read (fun _ => read_body chunks "");;
      m_ret (Object [("status", Num (number_of_u64 status)); ("body", Str (utf8_lossy body_bytes))])
  end.

Definition add_reaction_impl (message_id emoji : string) : method Sys Stop (Value Number) :=
  do? s <- m_get;;
  let base_url := default "http://localhost:3000" (env_var (world s) "BUZZ_RELAY_BASE_URL") in
  let url := base_url +:+ "/api/messages/" +:+ message_id +:+ "/reactions" in
  let auth :=
    match env_var (world s) "BUZZ_API_TOKEN" with
    | Some token => [("Authorization", "Bearer " +:+ token)]
    | None =>
        match env_var (world s) "BUZZ_RELAY_PUBKEY" with
        | Some pubkey => [("X-Pubkey", pubkey)]
        | None => []
        end
    end in
  record (Reacted url emoji);;?
  do? resp <- await (fun w => post_reaction w url (("Content-Type", "application/json") :: auth) emoji)
                (fun _ => WebhookError ReactionFailed);;
  let '(status, text) := resp in
  if negb ((200 <=? status) && (status <=? 299)) then lift (Err (WebhookError (ReactionRefused status)))
  else
    let body_text := match text with Ok t => t | Err _ => "" end in
    let body_json := default (Object [("raw", Str body_text)]) (json_from_str body_text) in
    m_ret (Object [("added", Bool true); ("status", Num (number_of_u64 status)); ("response", body_json)]).

Definition MAX_DELAY_SECS : Z := 270.

Definition dispatch_action (step_id : string) (a : ActionDef) (community_id run_id : Uuid)
    trigger_ctx : method Sys Stop (StepResult Number) :=
  match a with
  | SendMessage text channel =>
      do? wf_run <- await (fun w => db_get_workflow_run w community_id run_id)
                      (fun _ => WebhookError RunNotLoaded);;
      do? workflow <- await (fun w => db_get_workflow w community_id (run_workflow_id wf_run))
                        (fun _ => WebhookError WorkflowNotLoaded);;
      do? channel_id <- lift (resolve_send_message_channel channel (t_channel_id trigger_ctx)
                                (w_channel_id workflow));;
      let owner_pubkey_hex := to_hex (w_owner_pubkey workflow) in
      do? s <- m_get;;
      if negb (sink_set (world s)) then lift (Err (InvalidDefinition SinkNotInitialized)) else
      record (Posted community_id channel_id text owner_pubkey_hex);;?
      do? event_id <- await (fun w => sink_send_message w community_id channel_id text owner_pubkey_hex)
                        (fun _ => WebhookError SinkFailed);;
      m_ret (StepCompleted (Object [("sent", Bool true); ("event_id", Str event_id)]))
  | SendDm _ _ => lift (Err (NotImplemented "SendDm"))
  | SetChannelTopic _ => lift (Err (NotImplemented "SetChannelTopic"))
  | AddReaction emoji =>
      if str_is_empty (t_message_id trigger_ctx) then lift (Err (InvalidDefinition NoTriggerMessage))
      else
        do? result <- add_reaction_impl (t_message_id trigger_ctx) emoji;;
        m_ret (StepCompleted result)
  | CallWebhook url method headers body =>
      do? result <- call_webhook_impl url (default "POST" method) headers body;;
      m_ret (StepCompleted result)
  | RequestApproval _ _ _ =>
      do? s <- m_get;;
      let '(w, token) := new_uuid (world s) in
      m_modify (tick w);;?
      m_ret (StepSuspended (uuid_to_string token))
  | Delay duration =>
      do? secs <- lift (map_err InvalidDefinition (parse_duration_secs duration));;
      if MAX_DELAY_SECS <? secs then lift (Err (InvalidDefinition (DelayTooLong secs))) else
      record (Slept secs);;?
      do? _ <- await (fun w => let '(w, r) := sleep w secs in
                               (w, match r with Ready u => Ready (@Ok unit unit u) | DeadlinePassed => DeadlinePassed end))
                 (fun _ => CapacityExceeded);;
      m_ret (StepCompleted (Object [("slept_secs", Num (number_of_u64 secs))]))
  end.

(** * Runs *)

Record PartialProgress := mkProgress { p_step_index : nat; p_trace : list (Value Number) }.

Record ExecutionResult := mkResult {
  approval_token : option string;
  step_index : nat;
  step_outputs : gmap string (Value Number);
  trace : list (Value Number)
}.

Definition skipped_entry (step_id : string) : Value Number :=
  Object [("step_id", Str step_id); ("status", Str "skipped")].
Definition completed_entry (step_id : string) (output : Value Number) : Value Number :=
  Object [("step_id", Str step_id); ("status", Str "completed"); ("output", output)].

Definition default_timeout_secs : Z := 300.

(** One round of the step loop, up to the match on the step's result. *)
Definition run_step (default_timeout : Z) (step : Step) (community_id run_id : Uuid)
    trigger_ctx (step_outputs : gmap string (Value Number))
  : Prelude.method Sys (WorkflowError EvalError DbError) (StepResult Number) :=
  do? run <- match if_expr step with
             | Some expr => evaluate_condition expr trigger_ctx step_outputs
             | None => m_ret true
             end;;
  if negb run then m_ret StepSkipped else
  do? resolved_action <-
    m_read (fun _ => map_err TemplateError (resolve_step_templates step trigger_ctx step_outputs));;
  let timeout_secs := default default_timeout (timeout_secs step) in
  m_modify (fun s => tick (arm_deadline (world s) timeout_secs) s);;?
  fun s =>
    let '(s', r) := dispatch_action (id step) resolved_action community_id run_id trigger_ctx s in
    (s', match r with
         | Ok result => Ok result
         | Err (StepFailed e) => Err e
         | Err Deadline => Err (StepTimeout (id step) timeout_secs)
         end).

(** The loop over the enumerated steps, from index [i]. *)
Fixpoint step_loop (default_timeout : Z) (l : list Step) (i start_index : nat)
    (community_id run_id : Uuid) trigger_ctx (outputs : gmap string (Value Number))
    (trace : list (Value Number)) (s : Sys)
  : Sys * result ExecutionResult (WorkflowError EvalError DbError * PartialProgress) :=
  match l with
  | [] => (s, Ok (mkResult None i outputs trace))
  | step :: l' =>
      if (i <? start_index)%nat then
        step_loop default_timeout l' (S i) start_index community_id run_id trigger_ctx outputs trace s
      else
        let '(s', r) := run_step default_timeout step community_id run_id trigger_ctx outputs s in
        match r with
        | Err e => (s', Err (e, mkProgress i trace))
        | Ok (StepCompleted output) =>
            step_loop default_timeout l' (S i) start_index community_id run_id trigger_ctx
              (<[id step := output]> outputs) (trace ++ [completed_entry (id step) output]) s'
        | Ok (StepSuspended token) => (s', Ok (mkResult (Some token) i outputs trace))
        | Ok StepSkipped =>
            step_loop default_timeout l' (S i) start_index community_id run_id trigger_ctx
              outputs (trace ++ [skipped_entry (id step)]) s'
        end
  end.

Definition execute_steps (default_timeout : Z) (community_id run_id : Uuid) (def : WorkflowDef)
    trigger_ctx (start_index : nat) (initial_outputs : option (gmap string (Value Number)))
  : Sys -> Sys * result ExecutionResult (WorkflowError EvalError DbError * PartialProgress) :=
  step_loop default_timeout (steps def) 0 start_index community_id run_id trigger_ctx
    (default ∅ initial_outputs) [].

(** [engine.db.update_workflow_run(..)] outside a step. *)
Definition update_run (community_id run_id : Uuid) (status : RunStatus) (current_step : Z)
    (trace : Value Number) (error : option string) (s : Sys) : Sys * result unit DbError :=
  let '(w, r) := db_update_workflow_run (world s) community_id run_id status current_step trace error in
  (tick w s, r).

(** [permits] are the free permits of the run semaphore; a permit is returned when the
    function returns. *)
Definition execute_run (default_timeout : Z) (permits : nat) (community_id run_id : Uuid)
    (def : WorkflowDef) trigger_ctx (s : Sys)
  : Sys * result ExecutionResult (WorkflowError EvalError DbError * PartialProgress) :=
  match permits with
  | O => (s, Err (CapacityExceeded, mkProgress 0 []))
  | S _ =>
      let '(s', r) := update_run community_id run_id Running 0 (Array []) None s in
      match r with
      | Err e => (s', Err (DatabaseError e, mkProgress 0 []))
      | Ok _ => execute_steps default_timeout community_id run_id def trigger_ctx 0 None s'
      end
  end.

(** [as i32] *)
Definition i32_of (n : nat) : Z := (Z.of_nat n + 2 ^ 31) mod 2 ^ 32 - 2 ^ 31.

Definition execute_from_step (default_timeout : Z) (permits : nat) (community_id run_id : Uuid)
    (def : WorkflowDef) trigger_ctx (start_index : nat)
    (initial_outputs : option (gmap string (Value Number))) (s : Sys)
  : Sys * result ExecutionResult (WorkflowError EvalError DbError * PartialProgress) :=
  match permits with
  | O => (s, Err (CapacityExceeded, mkProgress 0 []))
  | S _ =>
      let '(w, r) := db_get_workflow_run (world s) community_id run_id in
      let existing_trace :=
        match r with Ready (Ok run) => run_execution_trace run | _ => Array [] end in
      let '(s', r) :=
        update_run community_id run_id Running (i32_of start_index) existing_trace None (tick w s) in
      match r with
      | Err e => (s', Err (DatabaseError e, mkProgress 0 []))
      | Ok _ =>
          execute_steps default_timeout community_id run_id def trigger_ctx start_index
            initial_outputs s'
      end
  end.

(** The status a run ends with; [error_text] renders an error.  The update's own failure is
    only logged. *)
Definition final_status (error_text : WorkflowError EvalError DbError -> string)
    (r : result ExecutionResult (WorkflowError EvalError DbError * PartialProgress))
    (existing_trace : option (list (Value Number))) : RunStatus * Z * Value Number * option string :=
  let prefix := default [] existing_trace in
  match r with
  | Ok res =>
      match approval_token res with
      | Some _ => (Failed, i32_of (step_index res), Array (prefix ++ trace res),
                   Some "approval gates not yet implemented — see WF-08")
      | None => (Completed, i32_of (step_index res), Array (prefix ++ trace res), None)
      end
  | Err (e, progress) =>
      (Failed, i32_of (p_step_index progress), Array (prefix ++ p_trace progress), Some (error_text e))
  end.

Definition finalize_run (error_text : WorkflowError EvalError DbError -> string)
    (community_id run_id : Uuid)
    (r : result ExecutionResult (WorkflowError EvalError DbError * PartialProgress))
    (existing_trace : option (list (Value Number))) (s : Sys) : Sys :=
  let '(status, current_step, trace, error) := final_status error_text r existing_trace in
  fst (update_run community_id run_id status current_step trace error s).

(** ** Resumption after an approval *)

(** The outputs a stored trace records. *)
Definition outputs_of_trace (trace_arr : list (Value Number)) : gmap string (Value Number) :=
  fold_left (fun outs entry =>
      match json_get "step_id" entry with
      | Some v =>
          match json_as_str v, json_get "output" entry with
          | Some step_id, Some output => <[step_id := output]> outs
          | _, _ => outs
          end
      | None => outs
      end) trace_arr ∅.

Definition trace_array (v : Value Number) : option (list (Value Number)) :=
  match v with Array l => Some l | _ => None end.

Definition resume_workflow_after_approval (error_text : WorkflowError EvalError DbError -> string)
    (default_timeout : Z) (permits : nat) (community_id run_id workflow_id : Uuid)
    (resume_index : nat) (s : Sys) : Sys :=
  let '(w, r) := db_get_workflow_run (world s) community_id run_id in
  let s := tick w s in
  match r with
  | Ready (Ok run) =>
      if negb (bool_decide (run_status run = WaitingApproval)) then s else
      let '(w, r) := db_get_workflow (world s) community_id workflow_id in
      let s := tick w s in
      match r with
      | Ready (Ok workflow) =>
          match parse_definition (w_definition workflow) with
          | None =>
              fst (update_run community_id run_id Failed (run_current_step run)
                     (run_execution_trace run) (Some "definition parse error") s)
          | Some def =>
              let existing_trace := trace_array (run_execution_trace run) in
              let initial_outputs := outputs_of_trace (default [] existing_trace) in
              let trigger_ctx := default default_trigger (run_trigger_context run) in
              let '(s, result) :=
                execute_from_step default_timeout permits community_id run_id def trigger_ctx
                  resume_index (Some initial_outputs) s in
              finalize_run error_text community_id run_id result existing_trace s
          end
      | _ => s
      end
  | _ => s
  end.

(** * Effects

    A small logic: what a method adds to [effects] satisfies [P], and its value [Q]. *)

Definition extends (P : Effect -> Prop) (s s' : Sys) : Prop :=
  exists l, effects s' = effects s ++ l /\ Forall P l.

Definition triple {E B : Type} (P : Effect -> Prop) (m : Prelude.method Sys E B) (Q : B -> Prop) : Prop :=
  forall s s' r, m s = (s', r) -> extends P s s' /\ (forall b, r = Ok b -> Q b).

Lemma extends_refl P s : extends P s s.
Proof. exists []. by rewrite app_nil_r. Qed.

Lemma extends_trans P s1 s2 s3 : extends P s1 s2 -> extends P s2 s3 -> extends P s1 s3.
Proof.
  intros (l1 & H1 & F1) (l2 & H2 & F2). exists (l1 ++ l2).
  by rewrite H2, H1, Forall_app, (assoc_L (++)).
Qed.

Lemma triple_ret {E B : Type} P (b : B) (Q : B -> Prop) : Q b -> triple (E := E) P (m_ret b) Q.
Proof. intros HQ s s' r [= <- <-]. split; [apply extends_refl|]. by intros ? [= <-]. Qed.

Lemma triple_read {E B : Type} P (f : Sys -> result B E) (Q : B -> Prop) :
  (forall s b, f s = Ok b -> Q b) -> triple P (m_read f) Q.
Proof. intros HQ s s' r [= <- <-]. split; [apply extends_refl|]. by apply HQ. Qed.

Lemma triple_lift {B : Type} P (r : result B (WorkflowError EvalError DbError)) (Q : B -> Prop) :
  (forall b, r = Ok b -> Q b) -> triple P (lift r) Q.
Proof.
  intros HQ s s' r' [= <- <-]. split; [apply extends_refl|].
  intros b. destruct r; [|done]. intros [= ->]. by apply HQ.
Qed.

Lemma triple_get {E : Type} P (Q : Sys -> Prop) : (forall s, Q s) -> triple (E := E) P m_get Q.
Proof. intros HQ s s' r [= <- <-]. split; [apply extends_refl|]. intros ? _. apply HQ. Qed.

Lemma triple_tick {E : Type} P (f : Sys -> World) :
  triple (E := E) P (m_modify (fun s => tick (f s) s)) (fun _ => True).
Proof. intros s s' r [= <- <-]. split; [|done]. exists []. by rewrite app_nil_r. Qed.

Lemma triple_record P e : P e -> triple P (record e) (fun _ => True).
Proof. intros He s s' r [= <- <-]. split; [|done]. exists [e]. simpl. auto. Qed.

Lemma triple_await {B E : Type} P (op : World -> World * Awaited (result B E)) f (Q : B -> Prop) :
  (forall w w' b, op w = (w', Ready (Ok b)) -> Q b) -> triple P (await op f) Q.
Proof.
  intros HQ s s' r. unfold await. destruct (op (world s)) as [w a] eqn:Hop. intros [= <- <-].
  split; [exists []; by rewrite app_nil_r|]. intros b Hb. apply (HQ (world s) w).
  rewrite Hop. destruct a as [[]|]; simplify_eq; done.
Qed.

Lemma triple_bind {E B D : Type} P (m : Prelude.method Sys E B) (k : B -> Prelude.method Sys E D)
    (Q : B -> Prop) (R : D -> Prop) :
  triple P m Q -> (forall b, Q b -> triple P (k b) R) -> triple P (m_bind m k) R.
Proof.
  intros Hm Hk s s' r. unfold m_bind. destruct (m s) as [s1 [b|e]] eqn:H1.
  - intros H2. destruct (Hm _ _ _ H1) as [He HQ]. destruct (Hk b (HQ b eq_refl) _ _ _ H2) as [He' HR].
    split; [by eapply extends_trans|done].
  - intros [= <- <-]. destruct (Hm _ _ _ H1) as [He _]. by split.
Qed.

Lemma triple_true {E B : Type} P (m : Prelude.method Sys E B) Q : triple P m Q -> triple P m (fun _ => True).
Proof. intros Hm s s' r H1. by destruct (Hm _ _ _ H1). Qed.

(** An effect a run may have: a message in its own community, to a channel and under a
    name [posts] allows; a request pinned to an address in none of the ranges that [Network]
    lists ([blocked]), embedded IPv4 addresses included; a bounded sleep; a reaction. *)
Definition allowed (community_id : Uuid) (posts : string -> string -> Prop) (e : Effect) : Prop :=
  match e with
  | Posted community channel _ author => community = community_id /\ posts channel author
  | Requested ip _ _ => ip_wf ip -> blocked ip = false
  | Slept secs => 0 <= secs <= MAX_DELAY_SECS
  | Reacted _ _ => True
  end.

Section allowed.
Variables (community_id : Uuid) (posts : string -> string -> Prop).
Hypothesis Hposts : forall w w' x workflow channel trigger_channel c,
  db_get_workflow w community_id x = (w', Ready (Ok workflow)) ->
  resolve_send_message_channel channel trigger_channel (w_channel_id workflow) = Ok c ->
  posts c (to_hex (w_owner_pubkey workflow)).
Let P := allowed community_id posts.

Lemma check_ssrf_public host port :
  triple P (check_ssrf host port) (fun ip => ip_wf ip -> blocked ip = false).
Proof.
  eapply triple_bind; [by apply (triple_await _ _ _ (fun _ => True))|]. intros [|ip addrs] _.
  - by apply triple_lift.
  - destruct (List.find is_private_ip (ip :: addrs)) as [x|] eqn:Hf; [by apply triple_lift|].
    apply triple_ret. intros Hwf. rewrite <-is_private_ip_spec by done. apply (find_none _ _ Hf ip). by left.
Qed.

Lemma call_webhook_allowed url method headers body :
  triple P (call_webhook_impl url method headers body) (fun _ => True).
Proof.
  unfold call_webhook_impl. destruct (url_parse url) as [[[host|] port]|]; try by apply triple_lift.
  eapply triple_bind; [apply check_ssrf_public|]. intros ip Hip.
  eapply triple_bind; [by apply (triple_get _ (fun _ => True))|]. intros s _.
  case_match; [by apply triple_lift|]. case_match; [by apply triple_lift|].
  eapply triple_bind; [by apply triple_record|]. intros _ _.
  eapply triple_bind; [by apply (triple_await _ _ _ (fun _ => True))|]. intros [status chunks] _.
  eapply triple_bind; [by apply (triple_read _ _ (fun _ => True))|]. intros b _. by apply triple_ret.
Qed.

Lemma add_reaction_allowed message_id emoji :
  triple P (add_reaction_impl message_id emoji) (fun _ => True).
Proof.
  unfold add_reaction_impl.
  eapply triple_bind; [by apply (triple_get _ (fun _ => True))|]. intros s _.
  eapply triple_bind; [by apply triple_record|]. intros _ _.
  eapply triple_bind; [by apply (triple_await _ _ _ (fun _ => True))|]. intros [status text] _.
  case_match; [by apply triple_lift|by apply triple_ret].
Qed.

Lemma parse_duration_bound dur n : parse_duration_secs dur = Ok n -> 0 <= n <= U64_MAX.
Proof.
  assert (forall d m u, 0 <= u -> parse_duration_part d m u = Ok n -> 0 <= n <= U64_MAX) as Hpart.
  { intros d m u Hu. unfold parse_duration_part. destruct (parse_u64 (trim m)) as [k|] eqn:Hk; [|done].
    apply parse_u64_bound in Hk. case_match eqn:Hle; [|done]. intros [= <-].
    apply Z.leb_le in Hle. nia. }
  unfold parse_duration_secs. repeat case_match; try done; try (by apply Hpart).
  intros [= <-]. by eapply parse_u64_bound.
Qed.

Lemma dispatch_allowed step_id a run_id trigger_ctx :
  triple P (dispatch_action step_id a community_id run_id trigger_ctx) (fun _ => True).
Proof.
  destruct a as [text channel|to text|topic|emoji|url method headers body|from message timeout|duration];
    simpl; try by apply triple_lift.
  - eapply triple_bind; [by apply (triple_await _ _ _ (fun _ => True))|]. intros wf_run _.
    eapply triple_bind; [apply (triple_await _ _ _
      (fun wf => exists w w' x, db_get_workflow w community_id x = (w', Ready (Ok wf)))); eauto|].
    intros wf (w & w' & x & Hwf).
    eapply triple_bind; [by apply (triple_lift _ _ (fun c =>
      resolve_send_message_channel channel (t_channel_id trigger_ctx) (w_channel_id wf) = Ok c))|].
    intros c Hc. eapply triple_bind; [by apply (triple_get _ (fun _ => True))|]. intros s _.
    case_match; [by apply triple_lift|].
    eapply triple_bind; [apply triple_record; split; [done|exact (Hposts _ _ _ _ _ _ _ Hwf Hc)]|]. intros _ _.
    eapply triple_bind; [by apply (triple_await _ _ _ (fun _ => True))|]. intros e _. by apply triple_ret.
  - case_match; [by apply triple_lift|].
    eapply triple_bind; [apply add_reaction_allowed|]. intros r _. by apply triple_ret.
  - eapply triple_bind; [apply call_webhook_allowed|]. intros r _. by apply triple_ret.
  - eapply triple_bind; [by apply (triple_get _ (fun _ => True))|]. intros s _.
    destruct (new_uuid (world s)) as [w token].
    eapply triple_bind; [apply (triple_tick _ (fun _ => w))|]. intros _ _. by apply triple_ret.
  - eapply triple_bind; [apply (triple_lift _ _ (fun n => 0 <= n))|].
    { intros b Hb. destruct (parse_duration_secs duration) as [n|] eqn:Hn; simplify_eq/=.
      apply parse_duration_bound in Hn. lia. }
    intros n Hn. case_match eqn:Hle; [by apply triple_lift|]. apply Z.ltb_ge in Hle.
    eapply triple_bind; [by apply triple_record|]. intros _ _.
    eapply triple_bind; [by apply (triple_await _ _ _ (fun _ => True))|]. intros e _. by apply triple_ret.
Qed.

Lemma run_step_allowed dt step run_id trigger_ctx outputs :
  triple P (run_step dt step community_id run_id trigger_ctx outputs) (fun _ => True).
Proof.
  unfold run_step. eapply (triple_bind _ _ _ (fun _ => True)).
  { destruct (if_expr step) as [expr|]; [|by apply triple_ret]. unfold evaluate_condition.
    intros s s' r. repeat case_match; intros [= <- <-]; (split; [|done]); exists []; by rewrite app_nil_r. }
  intros run _. case_match; [by apply triple_ret|].
  eapply triple_bind; [by apply (triple_read _ _ (fun _ => True))|]. intros a _.
  eapply triple_bind; [apply triple_tick|]. intros _ _ s s' r.
  destruct (dispatch_action _ _ _ _ _ s) as [s1 r1] eqn:Hd. intros [= <- <-].
  split; [|done]. by destruct (dispatch_allowed _ _ _ _ _ _ _ Hd).
Qed.

Lemma step_loop_allowed dt l i start run_id trigger_ctx outputs tr s s' r :
  step_loop dt l i start community_id run_id trigger_ctx outputs tr s = (s', r) -> extends P s s'.
Proof.
  revert i outputs tr s. induction l as [|step l IH]; intros i outputs tr s; cbn [step_loop].
  - intros [= <- _]. apply extends_refl.
  - case_match; [apply IH|].
    destruct (run_step _ _ _ _ _ _ s) as [s1 r1] eqn:Hr.
    destruct (run_step_allowed _ _ _ _ _ _ _ _ Hr) as [He _].
    destruct r1 as [[output|token|]|e]; intros Hl.
    + eapply extends_trans; [done|by eapply IH].
    + by injection Hl as <- _.
    + eapply extends_trans; [done|by eapply IH].
    + by injection Hl as <- _.
Qed.
End allowed.

(** C22: Whatever a definition says and whatever its templates expand to, a run's effects stay
    within bounds: every webhook request goes to a pinned address in none of the loopback,
    private, link-local, carrier, benchmark, unspecified and broadcast ranges of IPv4, not in an
    IPv6 address that embeds one, and in none of the local, link-local, multicast, translation,
    tunnelling and documentation ranges of IPv6 (IPv4 multicast and class E are not among
    them: [multicast_v4_allowed]); every delay lasts at most 270 seconds, every message is posted in the run's
    community. *)
Theorem run_effects_allowed dt community_id run_id def trigger_ctx start initial s :
  extends (allowed community_id (fun _ _ => True)) s
    (fst (execute_steps dt community_id run_id def trigger_ctx start initial s)).
Proof.
  unfold execute_steps. destruct (step_loop _ _ _ _ _ _ _ _ _ _) as [s' r] eqn:Hl.
  by eapply step_loop_allowed.
Qed.

Lemma bound_channel channel trigger_channel c r :
  resolve_send_message_channel channel trigger_channel (Some c) = Ok r -> r = uuid_to_string c.
Proof. unfold resolve_send_message_channel. by repeat case_match; intros [= <-]. Qed.

(** A workflow bound to a channel posts to that channel and no other, and under its
    owner's key, whatever override its definition or the expansion of one names. *)
Theorem messages_confined dt community_id run_id def trigger_ctx start initial s channel_id owner
    (Hbound : forall w w' x workflow,
       db_get_workflow w community_id x = (w', Ready (Ok workflow)) ->
       w_channel_id workflow = Some channel_id /\ w_owner_pubkey workflow = owner) :
  extends (allowed community_id (fun channel author =>
             channel = uuid_to_string channel_id /\ author = to_hex owner)) s
    (fst (execute_steps dt community_id run_id def trigger_ctx start initial s)).
Proof.
  unfold execute_steps. destruct (step_loop _ _ _ _ _ _ _ _ _ _) as [s' r] eqn:Hl.
  eapply step_loop_allowed; [|done]. intros w w' x workflow ch tch c Hw Hc.
  destruct (Hbound _ _ _ _ Hw) as [Hch <-]. rewrite Hch in Hc. apply bound_channel in Hc as ->. done.
Qed.

(** * Outcomes of a run *)

(** An executed step leaves one trace entry. *)
Definition entry_of (step : Step) (entry : Value Number) : Prop :=
  entry = skipped_entry (id step) \/ exists output, entry = completed_entry (id step) output.

Definition is_approval (step : Step) : Prop :=
  exists from message timeout, action step = RequestApproval from message timeout.

Lemma dispatch_suspends step_id a community_id run_id trigger_ctx s s' token :
  dispatch_action step_id a community_id run_id trigger_ctx s = (s', Ok (StepSuspended token)) ->
  exists from message timeout, a = RequestApproval from message timeout.
Proof.
  destruct a as [text channel|to text|topic|emoji|url method headers body|from message timeout|duration];
    simpl; intros Hd; [..|eauto|]; exfalso.
  - inv_bind. case_match; [done|]. by inv_bind.
  - done.
  - done.
  - case_match; [done|]. by inv_bind.
  - by inv_bind.
  - inv_bind. case_match; [done|]. by inv_bind.
Qed.

Lemma resolve_approval step trigger_ctx outputs from message timeout :
  resolve_step_templates step trigger_ctx outputs = Ok (RequestApproval from message timeout) ->
  is_approval step.
Proof.
  unfold resolve_step_templates, is_approval.
  destruct (action step) as [text channel|to text|topic|emoji|url method headers body|f m t|duration];
    intros Hr; [..|eauto|done]; exfalso; repeat apply res_bind_Ok in Hr as (? & _ & Hr); done.
Qed.

Lemma run_step_suspends dt step community_id run_id trigger_ctx outputs s s' token :
  run_step dt step community_id run_id trigger_ctx outputs s = (s', Ok (StepSuspended token)) ->
  is_approval step.
Proof.
  unfold run_step. intros (s1 & run & _ & Hr)%m_bind_Ok. case_match; [done|].
  apply m_bind_Ok in Hr as (s2 & a & Ha & Hr). unfold m_read in Ha. injection Ha as <- Ha.
  destruct (resolve_step_templates _ _ _) as [a'|] eqn:Hres; [|done]. injection Ha as ->.
  apply m_bind_Ok in Hr as (s3 & u & _ & Hr).
  destruct (dispatch_action _ _ _ _ _ s3) as [s4 [r|[e|]]] eqn:Hd; try done.
  injection Hr as <- ->. apply dispatch_suspends in Hd as (f & m & t & ->).
  by eapply resolve_approval.
Qed.

Lemma outputs_of_trace_snoc tr entry :
  outputs_of_trace (tr ++ [entry]) =
  match json_get "step_id" entry with
  | Some v =>
      match json_as_str v, json_get "output" entry with
      | Some step_id, Some output => <[step_id := output]> (outputs_of_trace tr)
      | _, _ => outputs_of_trace tr
      end
  | None => outputs_of_trace tr
  end.
Proof. unfold outputs_of_trace. by rewrite fold_left_app. Qed.

(** What the result of a loop over [l] from index [i] and trace [tr] says: the rounds done,
    one trace entry each, the outputs those entries record, and where the loop ended. *)
Definition outcome (l : list Step) (i : nat) (tr : list (Value Number))
    (r : result ExecutionResult (WorkflowError EvalError DbError * PartialProgress)) : Prop :=
  match r with
  | Ok res =>
      exists done entries, trace res = tr ++ entries /\ Forall2 entry_of done entries /\
        step_outputs res = outputs_of_trace (trace res) /\
        step_index res = (i + length done)%nat /\
        match approval_token res with
        | None => done = l
        | Some _ => exists gate rest, l = done ++ gate :: rest /\ is_approval gate
        end
  | Err (_, progress) =>
      exists done entries failed rest, p_trace progress = tr ++ entries /\
        Forall2 entry_of done entries /\ p_step_index progress = (i + length done)%nat /\
        l = done ++ failed :: rest
  end.

Lemma outcome_cons step l i tr entry r :
  entry_of step entry -> outcome l (S i) (tr ++ [entry]) r -> outcome (step :: l) i tr r.
Proof.
  intros He. destruct r as [res|[e p]]; simpl.
  - intros (dn & en & Ht & Hf & Ho & Hi & Hk). exists (step :: dn), (entry :: en).
    split_and!; [by rewrite Ht, <-(assoc_L (++))|by constructor|done|simpl; lia|].
    destruct (approval_token res); [|by rewrite Hk]. destruct Hk as (g & rest & -> & Hg). by exists g, rest.
  - intros (dn & en & f & rest & Ht & Hf & Hi & ->). exists (step :: dn), (entry :: en), f, rest.
    split_and!; [by rewrite Ht, <-(assoc_L (++))|by constructor|simpl; lia|done].
Qed.

Lemma step_loop_outcome dt l i community_id run_id trigger_ctx tr s :
  outcome l i tr
    (snd (step_loop dt l i 0 community_id run_id trigger_ctx (outputs_of_trace tr) tr s)).
Proof.
  revert i tr s. induction l as [|step l IH]; intros i tr s; cbn [step_loop].
  - exists [], []. simpl. rewrite app_nil_r. split_and!; [done|constructor|done|lia|done].
  - change (i <? 0)%nat with false. cbv iota.
    destruct (run_step dt step community_id run_id trigger_ctx (outputs_of_trace tr) s)
      as [s1 [[output|token|]|e]] eqn:Hr; cbv iota beta.
    + apply (outcome_cons _ _ _ _ (completed_entry (id step) output)); [right; by eexists|].
      assert (<[id step := output]> (outputs_of_trace tr) =
              outputs_of_trace (tr ++ [completed_entry (id step) output])) as ->
        by (by rewrite outputs_of_trace_snoc).
      apply IH.
    + exists [], []. simpl. rewrite app_nil_r. split_and!; [done|constructor|done|lia|].
      exists step, l. split; [done|]. by eapply run_step_suspends.
    + apply (outcome_cons _ _ _ _ (skipped_entry (id step))); [by left|].
      assert (outputs_of_trace tr = outputs_of_trace (tr ++ [skipped_entry (id step)])) as ->
        by (by rewrite outputs_of_trace_snoc).
      apply IH.
    + exists [], [], step, l. simpl. rewrite app_nil_r. split_and!; [done|constructor|lia|done].
Qed.

(** A run executes its steps in order and records each: on success every step left one
    entry; a suspension stops at an approval step, a failure at the step its index names,
    in both cases after exactly the steps before it; and the outputs later steps may
    reference are the ones the trace records. *)
Theorem execution_outcome dt community_id run_id def trigger_ctx s :
  outcome (steps def) 0 [] (snd (execute_steps dt community_id run_id def trigger_ctx 0 None s)).
Proof. apply (step_loop_outcome dt (steps def) 0 community_id run_id trigger_ctx [] s). Qed.

(** ** Composition *)

Lemma step_loop_skip dt pre post i community_id run_id trigger_ctx outputs tr s :
  step_loop dt (pre ++ post) i (i + length pre) community_id run_id trigger_ctx outputs tr s =
  step_loop dt post (i + length pre) (i + length pre) community_id run_id trigger_ctx outputs tr s.
Proof.
  revert i. induction pre as [|step pre IH]; intros i; cbn [app length step_loop].
  - by rewrite Nat.add_0_r.
  - rewrite (proj2 (Nat.ltb_lt i (i + S (length pre)))) by lia.
    rewrite <-Nat.add_succ_comm. apply IH.
Qed.

(** Past the start index the loop no longer depends on it. *)
Lemma step_loop_start dt l i start1 start2 community_id run_id trigger_ctx outputs tr s :
  (start1 <= i)%nat -> (start2 <= i)%nat ->
  step_loop dt l i start1 community_id run_id trigger_ctx outputs tr s =
  step_loop dt l i start2 community_id run_id trigger_ctx outputs tr s.
Proof.
  revert i outputs tr s. induction l as [|step l IH]; intros i outputs tr s H1 H2; cbn [step_loop]; [done|].
  rewrite (proj2 (Nat.ltb_ge i start1)), (proj2 (Nat.ltb_ge i start2)) by done.
  destruct (run_step _ _ _ _ _ _ s) as [s1 [[output|token|]|e]]; [apply IH; lia|done|apply IH; lia|done].
Qed.

Definition prepend (tr : list (Value Number))
    (r : result ExecutionResult (WorkflowError EvalError DbError * PartialProgress))
  : result ExecutionResult (WorkflowError EvalError DbError * PartialProgress) :=
  match r with
  | Ok res => Ok (mkResult (approval_token res) (step_index res) (step_outputs res) (tr ++ trace res))
  | Err (e, p) => Err (e, mkProgress (p_step_index p) (tr ++ p_trace p))
  end.

Lemma step_loop_prepend dt l i start community_id run_id trigger_ctx outputs tr0 tr s :
  step_loop dt l i start community_id run_id trigger_ctx outputs (tr0 ++ tr) s =
  let '(s', r) := step_loop dt l i start community_id run_id trigger_ctx outputs tr s in
  (s', prepend tr0 r).
Proof.
  revert i outputs tr s. induction l as [|step l IH]; intros i outputs tr s; cbn [step_loop]; [done|].
  case_match; [apply IH|].
  destruct (run_step _ _ _ _ _ _ s) as [s1 [[output|token|]|e]]; rewrite <-?(assoc_L (++));
    [apply IH|done|apply IH|done].
Qed.

Lemma step_loop_app dt pre post i start community_id run_id trigger_ctx outputs tr s :
  (start <= i)%nat ->
  step_loop dt (pre ++ post) i start community_id run_id trigger_ctx outputs tr s =
  match step_loop dt pre i start community_id run_id trigger_ctx outputs tr s with
  | (s1, Ok (mkResult None j outs tr1)) =>
      step_loop dt post j start community_id run_id trigger_ctx outs tr1 s1
  | other => other
  end.
Proof.
  revert i outputs tr s. induction pre as [|step pre IH]; intros i outputs tr s Hi;
    cbn [app step_loop]; [done|].
  rewrite (proj2 (Nat.ltb_ge i start)) by done.
  destruct (run_step _ _ _ _ _ _ s) as [s1 [[output|token|]|e]]; [apply IH; lia|done|apply IH; lia|done].
Qed.

(** C30: Resumption: when the first steps of a run ended without a gate, running all steps from
    the start is the same as resuming after those steps with the outputs reconstructed
    from their trace, the stored trace prepended. *)
Theorem resume_equivalent dt community_id run_id def pre post trigger_ctx s s1 res
    (Hsteps : steps def = pre ++ post)
    (Hpre : step_loop dt pre 0 0 community_id run_id trigger_ctx ∅ [] s = (s1, Ok res))
    (Hgate : approval_token res = None) :
  execute_steps dt community_id run_id def trigger_ctx 0 None s =
  let '(s', r) := execute_steps dt community_id run_id def trigger_ctx (length pre)
                    (Some (outputs_of_trace (trace res))) s1 in
  (s', prepend (trace res) r).
Proof.
  pose proof (step_loop_outcome dt pre 0 community_id run_id trigger_ctx [] s) as Ho.
  change (outputs_of_trace []) with (∅ : gmap string (Value Number)) in Ho. rewrite Hpre in Ho.
  destruct Ho as (dn & en & _ & _ & Houts & Hidx & Hdn). rewrite Hgate in Hdn. subst dn.
  unfold execute_steps. rewrite Hsteps. simpl default.
  rewrite step_loop_app by done. rewrite Hpre. destruct res as [tok j outs tr1]. simpl in *.
  subst tok j outs.
  pose proof (step_loop_skip dt pre post 0 community_id run_id trigger_ctx (outputs_of_trace tr1) [] s1) as Hs.
  simpl in Hs. rewrite Hs. rewrite <-(app_nil_r tr1) at 2. rewrite step_loop_prepend.
  rewrite (step_loop_start dt post (length pre) 0 (length pre)) by lia. done.
Qed.
End executor.

(** * A concrete instance *)

(** Contexts are association lists; expressions are true when they read ["yes"]; the
    database holds one run of one workflow, bound to channel 5; every request succeeds. *)
Module Reference.
#[export] Existing Instance Nostr.Reference.api.
#[export] Existing Instance Json.Reference.json.

Definition context : Type := list (string * EvalValue Float).
Fixpoint lookup (c : context) (x : string) : option (EvalValue Float) :=
  match c with
  | [] => None
  | (name, v) :: c' => if String.eqb name x then Some v else lookup c' x
  end.

(** The trigger of a definition; its one step posts. *)
Definition definition_of (v : Value Z) : option WorkflowDef :=
  match json_get "trigger" v with
  | None => None
  | Some t =>
      let field key := json_get key t ≫= json_as_str in
      match field "on" with
      | None => None
      | Some on =>
          let def trigger :=
            Some (mkDef "demo" None trigger [mkStep "a" None None None (SendMessage "hi" None)] true) in
          if String.eqb on "schedule" then def (Schedule (field "cron") (field "interval"))
          else if String.eqb on "message_posted" then def (MessagePosted (field "filter"))
          else None
      end
  end.

#[export] Instance crates : WorkflowCrates Json.Reference.json := {|
  EvalError := unit;
  DbError := unit;
  EvalContext := context;
  new_context := [];
  set_function c _ _ := Ok c;
  set_value c name v := Ok ((name, v) :: c);
  get_value := lookup;
  as_string v := match v with EVString s => Ok s | _ => Err tt end;
  as_fixed_len_tuple v n :=
    match v with EVTuple l => if (length l =? n)%nat then Ok l else Err tt | _ => Err tt end;
  cron_valid _ := true;
  uuid_parse s := Z.to_N <$> parse_u64 s;
  pubkey_from_hex := hex_decode;
  to_bech32 b := Some ("npub" +:+ to_hex b);
  url_parse s := Some (Some s, None);
  method_valid _ := true;
  utf8_lossy s := s;
  json_from_str _ := None;
  parse_definition := definition_of
|}.

#[export] Instance crates_laws : WorkflowCratesLaws crates.
Proof.
  split.
  - intros c name f c' x [= <-]. done.
  - intros c name v c' x [= <-]. done.
Qed.

Definition owner : Bytes := [Byte.x01; Byte.x02].

#[export] Instance world : WorkflowWorld crates := {|
  World := N;
  eval_boolean w expr _ := (w, Evaluated (Ok (String.eqb expr "yes")));
  arm_deadline w _ := w;
  db_get_workflow_run w _ _ := (w, Ready (Ok (mkRun _ 7%N Running 0 (Array []) None)));
  db_get_workflow w c x := (w, Ready (Ok (mkWorkflow _ x c owner (Some 5%N) Null)));
  db_update_workflow_run w _ _ _ _ _ _ := (w, Ok tt);
  sink_set _ := true;
  sink_send_message w _ _ text _ := ((w + 1)%N, Ready (Ok ("event:" +:+ text)));
  resolve_host w _ _ := (w, Ready (Ok [V4 8 8 8 8]));
  client_builds _ := true;
  http_send w _ _ _ := (w, Ready (Ok (200, [Ready (Ok "ok")])));
  env_var _ _ := None;
  post_reaction w _ _ _ := (w, Ready (Ok (200, Ok "")));
  new_uuid w := ((w + 1)%N, w);
  sleep w _ := (w, Ready tt)
|}.

#[export] Existing Instance map_to_list_iter.

Definition trigger_of (text : string) (fields : gmap string string) : TriggerContext :=
  mkTrigger text "ab" "5" "0" "" "ff" fields.
Definition say (step_id : string) (cond : option string) (text : string) (channel : option string) : Step :=
  mkStep step_id None cond None (SendMessage text channel).

(** The third step quotes the first; the second is skipped. *)
Definition before : list Step :=
  [say "a" None "hi {{trigger.text}}" None; say "b" (Some "no") "never" None].
Definition after : list Step :=
  [say "c" (Some "yes") "re {{ steps.a.output.event_id }}" (Some " 5 ")].
Definition demo : WorkflowDef := mkDef "demo" None (MessagePosted None) (before ++ after) true.
Definition start : Sys := mkSys 100%N [].

Definition finished {E : Type} (r : result ExecutionResult E) : bool :=
  match r with
  | Ok res => match approval_token res with None => true | Some _ => false end
  | Err _ => false
  end.
Lemma finished_true {E : Type} (r : result ExecutionResult E) :
  finished r = true -> exists res, r = Ok res /\ approval_token res = None.
Proof. destruct r as [[[tok|] i o t]|]; try done. eauto. Qed.

(** The texts posted. *)
Definition posts (s : Sys) : list string :=
  omap (fun e => match e with Posted _ c t _ => Some (c +:+ ":" +:+ t) | _ => None end) (effects s).
End Reference.

Import Reference.

Lemma resume_equivalent_witness :
  exists s1 res,
    step_loop 300 before 0 0 1 2 (trigger_of "{{x}}" ∅) ∅ [] start = (s1, Ok res) /\
    execute_steps 300 1 2 demo (trigger_of "{{x}}" ∅) 0 None start =
    (let '(s', r) := execute_steps 300 1 2 demo (trigger_of "{{x}}" ∅) 2
                       (Some (outputs_of_trace (trace res))) s1 in
     (s', prepend (trace res) r)).
Proof.
  destruct (step_loop 300 before 0 0 1 2 (trigger_of "{{x}}" ∅) ∅ [] start) as [s1 r] eqn:Hpre.
  assert (finished (snd (step_loop 300 before 0 0 1 2 (trigger_of "{{x}}" ∅) ∅ [] start)) = true)
    as Hf by (vm_compute; reflexivity).
  rewrite Hpre in Hf. destruct (finished_true _ Hf) as (res & Hres & Hgate). simpl in Hres. subst r.
  exists s1, res. split; [reflexivity|].
  exact (resume_equivalent 300 1 2 demo before after (trigger_of "{{x}}" ∅) start s1 res
           eq_refl Hpre Hgate).
Defined.

(** The run posts twice, in channel 5; the data of the trigger is not expanded again. *)
Example demo_posts :
  posts (fst (execute_steps 300 1 2 demo (trigger_of "{{x}}" ∅) 0 None start)) =
  ["5:hi {{x}}"; "5:re event:hi {{x}}"].
Proof. vm_compute. reflexivity. Qed.

Lemma messages_confined_witness :
  extends (allowed 1 (fun channel author => channel = uuid_to_string 5 /\ author = to_hex owner)) start
    (fst (execute_steps 300 1 2 demo (trigger_of "x" ∅) 0 None start)).
Proof.
  apply (messages_confined 300 1 2 demo (trigger_of "x" ∅) 0 None start 5 owner).
  intros w w' x workflow [= _ <-]. split; reflexivity.
Defined.

(** A webhook body that tries to set the trigger's text. *)
Lemma trigger_variables_unspoofable_witness :
  exists ctx,
    build_eval_context (trigger_of "real" {[ "text" := "forged" ]}) ∅ = Ok ctx /\
    get_value ctx "trigger_text" = Some (EVString "real").
Proof.
  destruct (build_eval_context (trigger_of "real" {[ "text" := "forged" ]}) ∅) as [ctx|e] eqn:Hctx.
  - exists ctx. split; [reflexivity|].
    apply (trigger_variables_unspoofable _ _ _ _ _ Hctx). left.
  - exfalso.
    assert (is_ok (build_eval_context (trigger_of "real" {[ "text" := "forged" ]}) ∅) = true) as Hok
      by (vm_compute; reflexivity).
    rewrite Hctx in Hok. discriminate Hok.
Defined.
