(* ===== verification/Scheduler.v ===== *)
(** When workflows run ([crates/buzz-workflow/src/lib.rs]): the triggers an event fires
    ([on_event]), the cron and interval scheduler with its durable claims ([run] and
    [crates/buzz-db/src/workflow.rs]), and several relay pods scheduling over one
    database.

    Instants are nanoseconds since the Unix epoch.  Every database call of a tick is a step
    of its own, which may fail; between two steps other pods run. *)
From S2P Require Import Prelude Nostr Kinds Filters Channel Text Json Network Workflow.
From Stdlib Require Import Strings.Byte.
Local Open Scope string_scope.
Local Open Scope list_scope.
Local Open Scope Z_scope.
Local Open Scope buzz_scope.

(** * Authority *)

Definition owner_authority_allows (role : option string) (needs_elevated : bool) : bool :=
  match role with
  | None => false
  | Some r => if needs_elevated then String.eqb r "owner" || String.eqb r "admin" else true
  end.

(** [check_owner_authority]: [role] is the membership lookup's answer. *)
Definition check_owner_authority {E : Type} (role : result (option string) E) (def : WorkflowDef) : bool :=
  match role with
  | Err _ => false
  | Ok role => owner_authority_allows role (requires_elevated_authority def)
  end.

(** * Events *)

Definition trigger_matches_event (trigger : TriggerDef) (kind : Z) : bool :=
  match trigger with
  | MessagePosted _ => kind =? KIND_STREAM_MESSAGE
  | ReactionAdded _ => kind =? KIND_REACTION
  | DiffPosted _ => kind =? KIND_STREAM_MESSAGE_DIFF
  | Schedule _ _ | Webhook => false
  end.

Section events.
Context {J : SerdeJson} {A : NostrApi} {C : WorkflowCrates J} {W : WorkflowWorld C} `{HashIter}.

Fixpoint find_map {X Y : Type} (f : X -> option Y) (l : list X) : option Y :=
  match l with
  | [] => None
  | x :: l' => match f x with Some y => Some y | None => find_map f l' end
  end.

Definition build_trigger_context (stored : StoredEvent) : TriggerContext :=
  let ev := se_event stored in
  let author :=
    default (to_hex (ev_pubkey ev))
      (find_map (fun tag => if String.eqb (tag_kind tag) "actor" then tag_content tag else None)
         (ev_tags ev)) in
  let is_reaction := ev_kind ev =? KIND_REACTION in
  let message_id :=
    if is_reaction then
      default (to_hex (ev_id ev))
        (find_map (fun tag =>
            if String.eqb (tag_kind tag) "e" then
              match tag_content tag with
              | Some v =>
                  if (String.length v =? 64)%nat && str_all is_ascii_hexdigit v then Some v else None
              | None => None
              end
            else None) (rev (ev_tags ev)))
    else to_hex (ev_id ev) in
  mkTrigger (ev_content ev) author (from_option uuid_to_string "" (se_channel_id stored))
    (pretty.pretty (ev_created_at ev)) (if is_reaction then ev_content ev else "") message_id ∅.

Definition filter_passes (filter : option string) (trigger_ctx : TriggerContext) (s : Sys)
  : Sys * bool :=
  match filter with
  | None => (s, true)
  | Some expr =>
      let '(s', r) := evaluate_condition expr trigger_ctx ∅ s in
      (s', match r with Ok b => b | Err _ => false end)
  end.

Definition should_fire_workflow (def : WorkflowDef) (trigger_ctx : TriggerContext) (s : Sys)
  : Sys * bool :=
  match trigger def with
  | ReactionAdded (Some expected) => (s, String.eqb (t_emoji trigger_ctx) expected)
  | MessagePosted filter => filter_passes filter trigger_ctx s
  | DiffPosted filter => filter_passes filter trigger_ctx s
  | _ => (s, true)
  end.

(** The database as an event uses it: [Db] is its state, which other processes change too, so
    that two calls may answer differently. *)
Class EventDb := {
  Db : Type;
  list_enabled_channel_workflows :
    Db -> Uuid -> Uuid -> Db * result (list WorkflowRecord) DbError;
  get_member_role : Db -> Uuid -> Uuid -> Bytes -> Db * result (option string) DbError;
  (** community, workflow, trigger event; the answer is the run's id *)
  create_workflow_run : Db -> Uuid -> Uuid -> Bytes -> TriggerContext -> Db * result Uuid DbError
}.
Context {D : EventDb}.

(** A run created and spawned. *)
Record EventRun := mkEventRun {
  er_run_id : Uuid;
  er_community : Uuid;
  er_workflow : WorkflowRecord;
  er_def : WorkflowDef;
  er_trigger : TriggerContext
}.

(** The body of the loop over the channel's workflows. *)
Definition fire_workflow (community_id channel : Uuid) (event : Event)
    (trigger_ctx : TriggerContext) (workflow : WorkflowRecord) (d : Db) (s : Sys)
  : Db * Sys * option EventRun :=
  match parse_definition (w_definition workflow) with
  | None => (d, s, None)
  | Some def =>
      if negb (enabled def) || negb (trigger_matches_event (trigger def) (ev_kind event))
      then (d, s, None) else
      let '(s, fire) := should_fire_workflow def trigger_ctx s in
      if negb fire then (d, s, None) else
      let '(d, role) := get_member_role d community_id channel (w_owner_pubkey workflow) in
      if negb (check_owner_authority role def) then (d, s, None) else
      let '(d, created) :=
        create_workflow_run d community_id (w_id workflow) (ev_id event) trigger_ctx in
      match created with
      | Err _ => (d, s, None)
      | Ok run_id => (d, s, Some (mkEventRun run_id community_id workflow def trigger_ctx))
      end
  end.

Fixpoint fire_workflows (community_id channel : Uuid) (event : Event)
    (trigger_ctx : TriggerContext) (workflows : list WorkflowRecord) (d : Db) (s : Sys)
  : Db * Sys * list EventRun :=
  match workflows with
  | [] => (d, s, [])
  | w :: workflows' =>
      let '(d, s, r) := fire_workflow community_id channel event trigger_ctx w d s in
      let '(d, s, rs) := fire_workflows community_id channel event trigger_ctx workflows' d s in
      (d, s, option_list r ++ rs)
  end.

(** The list under a cache key, read from the database when the 10-second [cache] has none. *)
Definition channel_workflows (cache : gmap (Uuid * Uuid) (list WorkflowRecord))
    (community_id channel : Uuid) (d : Db)
  : gmap (Uuid * Uuid) (list WorkflowRecord) * Db * result (list WorkflowRecord) DbError :=
  match cache !! (community_id, channel) with
  | Some cached => (cache, d, Ok cached)
  | None =>
      let '(d, listed) := list_enabled_channel_workflows d community_id channel in
      match listed with
      | Ok fresh => (<[(community_id, channel) := fresh]> cache, d, Ok fresh)
      | Err e => (cache, d, Err e)
      end
  end.

Definition on_event (cache : gmap (Uuid * Uuid) (list WorkflowRecord))
    (community_id : Uuid) (stored : StoredEvent) (d : Db) (s : Sys)
  : gmap (Uuid * Uuid) (list WorkflowRecord) * Db * Sys * result (list EventRun) DbError :=
  match se_channel_id stored with
  | None => (cache, d, s, Ok [])
  | Some channel =>
      let event := se_event stored in
      if is_workflow_execution_kind (ev_kind event) then (cache, d, s, Ok []) else
      let '(cache, d, workflows) := channel_workflows cache community_id channel d in
      match workflows with
      | Err e => (cache, d, s, Err e)
      | Ok workflows =>
          let '(d, s, runs) :=
            fire_workflows community_id channel event (build_trigger_context stored) workflows d s in
          (cache, d, s, Ok runs)
      end
  end.

(** [WorkflowEngine::invalidate_channel_workflows] *)
Definition invalidate_channel_workflows (cache : gmap (Uuid * Uuid) (list WorkflowRecord))
    (community_id channel : Uuid) : gmap (Uuid * Uuid) (list WorkflowRecord) :=
  delete (community_id, channel) cache.

(** Why a run exists: the role was read in a state [d], and the run created in the very next. *)
Definition run_justified (community_id channel : Uuid) (stored : StoredEvent)
    (workflows : list WorkflowRecord) (run : EventRun) : Prop :=
  let w := er_workflow run in
  let def := er_def run in
  w ∈ workflows /\ er_community run = community_id /\
  er_trigger run = build_trigger_context stored /\
  parse_definition (w_definition w) = Some def /\ enabled def = true /\
  trigger_matches_event (trigger def) (ev_kind (se_event stored)) = true /\
  (forall emoji, trigger def = ReactionAdded (Some emoji) -> ev_content (se_event stored) = emoji) /\
  exists d d' d'' role,
    get_member_role d community_id channel (w_owner_pubkey w) = (d', Ok (Some role)) /\
    (requires_elevated_authority def = true -> role = "owner" \/ role = "admin") /\
    create_workflow_run d' community_id (w_id w) (ev_id (se_event stored)) (er_trigger run) =
      (d'', Ok (er_run_id run)).

Lemma authority_role {E : Type} (r : result (option string) E) def :
  check_owner_authority r def = true <->
  exists role, r = Ok (Some role) /\
    (requires_elevated_authority def = true -> role = "owner" \/ role = "admin").
Proof.
  unfold check_owner_authority, owner_authority_allows. destruct r as [[role|]|].
  - destruct (requires_elevated_authority def).
    + rewrite orb_true_iff, !String.eqb_eq. split; [by eauto|]. intros (? & [= <-] & Hr). by apply Hr.
    + split; [|done]. intros _. by exists role.
  - split; [done|]. by intros (? & ? & _).
  - split; [done|]. by intros (? & ? & _).
Qed.

Lemma fire_workflow_justified community_id channel stored w d s d' s' run workflows :
  w ∈ workflows ->
  fire_workflow community_id channel (se_event stored) (build_trigger_context stored) w d s =
    (d', s', Some run) ->
  run_justified community_id channel stored workflows run.
Proof.
  intros Hw. unfold fire_workflow.
  destruct (parse_definition (w_definition w)) as [def|] eqn:Hdef; [|done].
  destruct (negb (enabled def) || _) eqn:Hen; [done|]. apply orb_false_iff in Hen as [Hen Hm].
  apply negb_false_iff in Hen, Hm.
  destruct (should_fire_workflow def _ s) as [s1 fire] eqn:Hf. destruct fire; [|done]. cbn [negb].
  destruct (get_member_role _ _ _ _) as [d1 role] eqn:Hrole.
  destruct (check_owner_authority _ def) eqn:Ha; [|done]. cbn [negb].
  destruct (create_workflow_run _ _ _ _ _) as [d2 [run_id|]] eqn:Hc; [|done].
  intros [= _ _ <-]. apply authority_role in Ha as (r & -> & Hr). unfold run_justified. simpl.
  split_and!; try done; [|by exists d, d1, d2, r].
  intros emoji He. unfold should_fire_workflow in Hf. rewrite He in Hf, Hm. injection Hf as _ Hf.
  simpl in Hm. unfold build_trigger_context in Hf. simpl in Hf. rewrite Hm in Hf.
  by apply String.eqb_eq.
Qed.

Lemma fire_workflows_justified community_id channel stored workflows all d s d' s' runs :
  workflows ⊆ all ->
  fire_workflows community_id channel (se_event stored) (build_trigger_context stored)
    workflows d s = (d', s', runs) ->
  Forall (run_justified community_id channel stored all) runs.
Proof.
  revert d s d' s' runs.
  induction workflows as [|w workflows IH]; intros d s d' s' runs Hsub; cbn [fire_workflows].
  - intros [= _ _ <-]. constructor.
  - destruct (fire_workflow _ _ _ _ w d s) as [[d1 s1] r] eqn:H1.
    destruct (fire_workflows _ _ _ _ workflows d1 s1) as [[d2 s2] rs] eqn:H2. intros [= _ _ <-].
    apply Forall_app. split.
    + destruct r as [run|]; [|constructor]. constructor; [|constructor].
      eapply fire_workflow_justified; [|done]. apply Hsub. left.
    + eapply IH; [|done]. intros x Hx. apply Hsub. by right.
Qed.

(** The gate before an event's runs: a run exists only for an event of a channel, not itself a
    record of workflow execution, and a workflow the channel lists (or the cache listed),
    enabled, with a trigger for the event's kind and emoji, whose owner was a member of the
    channel at the lookup right before the run was created: an owner or admin of it when the
    definition can call a webhook. *)
Theorem event_runs_justified cache community_id stored d s cache' d' s' runs run
    (Hon : on_event cache community_id stored d s = (cache', d', s', Ok runs))
    (Hrun : run ∈ runs) :
  exists channel workflows,
    se_channel_id stored = Some channel /\
    is_workflow_execution_kind (ev_kind (se_event stored)) = false /\
    (cache !! (community_id, channel) = Some workflows \/
     exists d1, list_enabled_channel_workflows d community_id channel = (d1, Ok workflows)) /\
    run_justified community_id channel stored workflows run.
Proof.
  assert (forall l : list EventRun, [] = l -> run ∈ l -> False) as Hnil
    by (intros l <-; apply not_elem_of_nil).
  unfold on_event in Hon. destruct (se_channel_id stored) as [channel|];
    [|injection Hon as _ _ _ Hr; destruct (Hnil _ Hr Hrun)].
  destruct (is_workflow_execution_kind _) eqn:Hk;
    [injection Hon as _ _ _ Hr; destruct (Hnil _ Hr Hrun)|].
  destruct (channel_workflows cache community_id channel d) as [[c1 d1] listed] eqn:Hl.
  destruct listed as [workflows|]; [|done].
  destruct (fire_workflows _ _ _ _ workflows d1 s) as [[d2 s2] rs] eqn:Hf.
  injection Hon as _ _ _ <-. exists channel, workflows. split_and!; [done|done| |].
  - unfold channel_workflows in Hl. destruct (cache !! _) as [cached|].
    + injection Hl as _ _ <-. by left.
    + destruct (list_enabled_channel_workflows d community_id channel) as [d3 [fresh|]]; [|done].
      injection Hl as _ _ <-. right. by exists d3.
  - eapply Forall_forall; [|exact Hrun]. by eapply fire_workflows_justified.
Qed.
End events.

(** * Schedule instants *)

Definition NANOS : Z := 1000000000.

(** The third-party schedule and time types.  An instant is its nanoseconds since the epoch. *)
Class SchedulerCrates := {
  (** [expr.parse::<cron::Schedule>()], as the function [t -> schedule.after(&t).next()] *)
  cron_schedule : string -> option (Z -> option Z);
  (** [DateTime::from_timestamp(secs, 0)] *)
  from_timestamp : Z -> option Z;
  (** an instant as a [TIMESTAMPTZ] column gives it back *)
  timestamptz : Z -> Z
}.

Class SchedulerCratesLaws (K : SchedulerCrates) := {
  cron_after expr next t u : cron_schedule expr = Some next -> next t = Some u -> t < u;
  (** no instant of the schedule lies between *)
  cron_next expr next t t' u :
    cron_schedule expr = Some next -> next t = Some u -> t <= t' < u -> next t' = Some u;
  from_timestamp_secs s t : from_timestamp s = Some t -> t = s * NANOS;
  timestamptz_secs s : timestamptz (s * NANOS) = s * NANOS
}.

(** [DateTime::timestamp], [Duration::num_seconds], [u64 as i64], [i64::div_euclid] *)
Definition timestamp (t : Z) : Z := t / NANOS.
Definition num_seconds (d : Z) : Z := Z.quot d NANOS.
Definition u64_as_i64 (x : Z) : Z := if x <? 2 ^ 63 then x else x - 2 ^ 64.
Definition div_euclid (a b : Z) : Z := if 0 <? b then a / b else - (a / - b).

Section instants.
Context {J : SerdeJson} {K : SchedulerCrates}.

Definition cron_fire_instant (expr : string) (now window_secs : Z) : option Z :=
  match cron_schedule (normalize_cron expr) with
  | Some next =>
      match next (now - window_secs * NANOS) with
      | Some t => if t <=? now then Some t else None
      | None => None
      end
  | None => None
  end.

Definition interval_fire_instant (dur : string) (now : Z) : option Z :=
  match parse_duration_secs dur with
  | Ok interval_secs =>
      if 0 <? interval_secs then
        let secs := u64_as_i64 interval_secs in
        let bucket := div_euclid (timestamp now) secs * secs in
        from_timestamp bucket
      else None
  | Err _ => None
  end.

Definition interval_should_fire (dur : string) (last_fired : option Z) (now : Z) : bool :=
  match parse_duration_secs dur with
  | Ok interval_secs =>
      let last := default now last_fired in
      let elapsed := Z.abs (num_seconds (now - last)) in
      interval_secs <=? elapsed
  | Err _ => false
  end.

Definition interval_prefilter_should_fire (last_fired : gmap (Uuid * Uuid) Z)
    (community_id workflow_id : Uuid) (dur : string) (last : option Z) (now : Z)
  : gmap (Uuid * Uuid) Z * bool :=
  if interval_should_fire dur last now then (last_fired, true)
  else
    (match last with
     | None => <[(community_id, workflow_id) := now]> last_fired
     | Some _ => last_fired
     end, false).
End instants.

(** * The scheduler

    One relay pod is a state machine: between two steps it awaits the answer of the database
    call its phase names, except in [Scanning], which runs the loop to the next await. *)

Inductive TriggerType := CronFire | IntervalFire.

Section scheduler.
Context {J : SerdeJson} {A : NostrApi} {C : WorkflowCrates J} {K : SchedulerCrates}.

(** A row of [workflows] with what the scan reads beside the record. *)
Record WorkflowRow := mkRow {
  row_workflow : WorkflowRecord;
  row_active : bool;
  row_enabled : bool;
  row_archived : bool
}.

(** A fire: the workflow, its parsed definition and the instant it is for. *)
Record Fire := mkFire {
  f_workflow : WorkflowRecord;
  f_def : WorkflowDef;
  f_channel : Uuid;
  f_scheduled_for : Z;
  f_type : TriggerType
}.

Definition FireKey : Type := (Uuid * Uuid) * Z.
Definition workflow_key (w : WorkflowRecord) : Uuid * Uuid := (w_community_id w, w_id w).
Definition fire_key (f : Fire) : FireKey := (workflow_key (f_workflow f), timestamptz (f_scheduled_for f)).

(** A row of [workflow_runs] of a schedule, with the fire it came from. *)
Record ScheduledRun := mkScheduledRun {
  sr_id : Uuid;
  sr_fire : Fire;
  sr_trigger_context : TriggerContext
}.

(** The shared database: the rows in order of [created_at], the members' roles, the claims
    with their [workflow_run_id], and the runs.  [spawned] records the executions started. *)
Record Shared := mkShared {
  rows : list WorkflowRow;
  roles : gmap (Uuid * Uuid * Bytes) string;
  claims : gmap FireKey (option Uuid);
  runs : list ScheduledRun;
  spawned : list ScheduledRun
}.

Definition LIST_MAX_LIMIT : nat := 1000.

Definition is_schedule (definition : Value Number) : bool :=
  match (json_get "trigger" definition ≫= json_get "on") ≫= json_as_str with
  | Some on => String.eqb on "schedule"
  | None => false
  end.

Definition list_all_enabled_workflows (d : Shared) : list WorkflowRecord :=
  take LIST_MAX_LIMIT
    (map row_workflow
       (filter (fun r => row_active r && row_enabled r && negb (row_archived r) &&
                         is_schedule (w_definition (row_workflow r)) = true) (rows d))).

Definition member_role (d : Shared) (community_id channel : Uuid) (pubkey : Bytes) : option string :=
  roles d !! (community_id, channel, pubkey).

(** [true]: this call inserted the row. *)
Definition claim_scheduled_workflow_fire (d : Shared) (key : FireKey) : Shared * bool :=
  if existsb (fun r => bool_decide (workflow_key (row_workflow r) = fst key)) (rows d) then
    match claims d !! key with
    | Some _ => (d, false)
    | None => (mkShared (rows d) (roles d) (<[key := None]> (claims d)) (runs d) (spawned d), true)
    end
  else (d, false).

(** [SELECT MAX(scheduled_for)] over the workflow's claims. *)
Definition latest_scheduled_workflow_fire (d : Shared) (key : Uuid * Uuid) : option Z :=
  map_fold (fun k _ acc =>
      if bool_decide (fst k = key) then
        Some (match acc with Some m => Z.max m (snd k) | None => snd k end)
      else acc) None (claims d).

Definition create_scheduled_run (d : Shared) (r : ScheduledRun) : Shared :=
  mkShared (rows d) (roles d) (claims d) (runs d ++ [r]) (spawned d).

Definition attach_scheduled_workflow_run (d : Shared) (key : FireKey) (run_id : Uuid) : Shared :=
  match claims d !! key with
  | Some None =>
      mkShared (rows d) (roles d) (<[key := Some run_id]> (claims d)) (runs d) (spawned d)
  | _ => d
  end.

Definition spawn (d : Shared) (r : ScheduledRun) : Shared :=
  mkShared (rows d) (roles d) (claims d) (runs d) (spawned d ++ [r]).

(** The position of a tick in its loop: the tick's [now], the workflows it loaded, and those
    after the current one. *)
Record Loop := mkLoop {
  l_now : Z;
  l_workflows : list WorkflowRecord;
  l_rest : list WorkflowRecord
}.

Inductive Phase :=
| Sleeping
| Loading (now : Z)
| Scanning (l : Loop)
| Anchoring (l : Loop) (w : WorkflowRecord) (def : WorkflowDef) (channel : Uuid) (dur : string)
| Authorizing (l : Loop) (f : Fire)
| Claiming (l : Loop) (f : Fire)
| Creating (l : Loop) (f : Fire)
| Attaching (l : Loop) (r : ScheduledRun).

Record Pod := mkPod { last_fired : gmap (Uuid * Uuid) Z; phase : Phase }.

Definition new_pod : Pod := mkPod ∅ Sleeping.

(** The interval branch once [last] is known: the prefilter, then the instant. *)
Definition interval_due (anchors : gmap (Uuid * Uuid) Z) (l : Loop) (w : WorkflowRecord)
    (def : WorkflowDef) (channel : Uuid) (dur : string) (last : option Z) : Pod :=
  let '(anchors, fire) :=
    interval_prefilter_should_fire anchors (w_community_id w) (w_id w) dur last (l_now l) in
  if fire then
    match interval_fire_instant dur (l_now l) with
    | Some instant => mkPod anchors (Authorizing l (mkFire w def channel instant IntervalFire))
    | None => mkPod anchors (Scanning l)
    end
  else mkPod anchors (Scanning l).

(** One workflow of the tick, up to its first await. *)
Definition visit (anchors : gmap (Uuid * Uuid) Z) (l : Loop) (w : WorkflowRecord) : Pod :=
  match parse_definition (w_definition w) with
  | None => mkPod anchors (Scanning l)
  | Some def =>
      if negb (enabled def) then mkPod anchors (Scanning l) else
      match w_channel_id w with
      | None => mkPod anchors (Scanning l)
      | Some channel =>
          match trigger def with
          | Schedule (Some expr) None =>
              match cron_fire_instant expr (l_now l) 60 with
              | Some instant =>
                  mkPod anchors (Authorizing l (mkFire w def channel instant CronFire))
              | None => mkPod anchors (Scanning l)
              end
          | Schedule None (Some dur) =>
              match anchors !! workflow_key w with
              | Some t => interval_due anchors l w def channel dur (Some t)
              | None => mkPod anchors (Anchoring l w def channel dur)
              end
          | _ => mkPod anchors (Scanning l)
          end
      end
  end.

(** [last_fired.insert] on the interval branches. *)
Definition advance_anchor (anchors : gmap (Uuid * Uuid) Z) (l : Loop) (f : Fire)
  : gmap (Uuid * Uuid) Z :=
  match f_type f with
  | IntervalFire => <[workflow_key (f_workflow f) := l_now l]> anchors
  | CronFire => anchors
  end.

(** [last_fired.retain(..)] at the end of a tick. *)
Definition prune (anchors : gmap (Uuid * Uuid) Z) (workflows : list WorkflowRecord)
  : gmap (Uuid * Uuid) Z :=
  filter (fun kv => kv.1 ∈ map workflow_key workflows) anchors.

Definition schedule_context (l : Loop) (f : Fire) : TriggerContext :=
  mkTrigger "" "" (uuid_to_string (f_channel f)) (pretty.pretty (timestamp (l_now l))) "" "" ∅.

(** How a database call ends: answered; an error, nothing written; an error after the
    statement took effect. *)
Inductive Outcome := Answered | Refused | Lost.

(** What a step takes from outside: the clock, how its call ends, the id [Uuid::new_v4] draws. *)
Record Input := mkInput { in_now : Z; in_outcome : Outcome; in_uuid : Uuid }.

Definition pod_step (i : Input) (d : Shared) (p : Pod) : Shared * Pod :=
  let anchors := last_fired p in
  match phase p with
  | Sleeping => (d, mkPod anchors (Loading (in_now i)))
  | Loading now =>
      match in_outcome i with
      | Answered =>
          let workflows := list_all_enabled_workflows d in
          (d, mkPod anchors (Scanning (mkLoop now workflows workflows)))
      | _ => (d, mkPod anchors Sleeping)
      end
  | Scanning l =>
      match l_rest l with
      | [] => (d, mkPod (prune anchors (l_workflows l)) Sleeping)
      | w :: rest => (d, visit anchors (mkLoop (l_now l) (l_workflows l) rest) w)
      end
  | Anchoring l w def channel dur =>
      let last :=
        match in_outcome i with
        | Answered => latest_scheduled_workflow_fire d (workflow_key w)
        | _ => None
        end in
      (d, interval_due anchors l w def channel dur last)
  | Authorizing l f =>
      let role : result (option string) unit :=
        match in_outcome i with
        | Answered =>
            Ok (member_role d (w_community_id (f_workflow f)) (f_channel f) (w_owner_pubkey (f_workflow f)))
        | _ => Err tt
        end in
      if check_owner_authority role (f_def f) then (d, mkPod anchors (Claiming l f))
      else (d, mkPod anchors (Scanning l))
  | Claiming l f =>
      match in_outcome i with
      | Answered =>
          let '(d, claimed) := claim_scheduled_workflow_fire d (fire_key f) in
          if claimed then (d, mkPod anchors (Creating l f))
          else (d, mkPod (advance_anchor anchors l f) (Scanning l))
      | Refused => (d, mkPod anchors (Scanning l))
      | Lost => (fst (claim_scheduled_workflow_fire d (fire_key f)), mkPod anchors (Scanning l))
      end
  | Creating l f =>
      let r := mkScheduledRun (in_uuid i) f (schedule_context l f) in
      match in_outcome i with
      | Answered => (create_scheduled_run d r, mkPod anchors (Attaching l r))
      | Refused => (d, mkPod anchors (Scanning l))
      | Lost => (create_scheduled_run d r, mkPod anchors (Scanning l))
      end
  | Attaching l r =>
      let d :=
        match in_outcome i with
        | Refused => d
        | _ => attach_scheduled_workflow_run d (fire_key (sr_fire r)) (sr_id r)
        end in
      (spawn d r, mkPod (advance_anchor anchors l (sr_fire r)) (Scanning l))
  end.

(** * Several pods over one database *)

Record System := mkSystem { shared : Shared; pods : gmap nat Pod }.

(** A pod acts, starts (with no memory: also a restart), or stops at any await; or other code
    adds and edits workflows and roles.  Deleting a workflow deletes its claims and runs with
    it and is not a step here. *)
Inductive system_step : System -> System -> Prop :=
| pod_acts n p i d p' sys :
    pods sys !! n = Some p -> pod_step i (shared sys) p = (d, p') ->
    system_step sys (mkSystem d (<[n := p']> (pods sys)))
| pod_starts n sys : system_step sys (mkSystem (shared sys) (<[n := new_pod]> (pods sys)))
| pod_stops n sys : system_step sys (mkSystem (shared sys) (delete n (pods sys)))
| others_write rows' roles' sys :
    system_step sys
      (mkSystem (mkShared rows' roles' (claims (shared sys)) (runs (shared sys)) (spawned (shared sys)))
         (pods sys)).

Definition initial : System := mkSystem (mkShared [] ∅ ∅ [] []) ∅.
Definition reachable : System -> Prop := rtc system_step initial.

Definition run_key (r : ScheduledRun) : FireKey := fire_key (sr_fire r).

(** ** At most once *)

(** A fire the code decided on: an enabled schedule of a channel, due at its instant. *)
Definition fire_valid (f : Fire) : Prop :=
  parse_definition (w_definition (f_workflow f)) = Some (f_def f) /\ enabled (f_def f) = true /\
  w_channel_id (f_workflow f) = Some (f_channel f) /\
  exists now, match f_type f with
  | CronFire => exists expr, trigger (f_def f) = Schedule (Some expr) None /\
      cron_fire_instant expr now 60 = Some (f_scheduled_for f)
  | IntervalFire => exists dur, trigger (f_def f) = Schedule None (Some dur) /\
      interval_fire_instant dur now = Some (f_scheduled_for f)
  end.

(** The claim a pod owns: from the insert of the claim until the execution is spawned. *)
Definition holds (p : Pod) : option FireKey :=
  match phase p with
  | Creating _ f => Some (fire_key f)
  | Attaching _ r => Some (run_key r)
  | _ => None
  end.

Record shared_ok (d : Shared) : Prop := {
  runs_distinct : NoDup (map run_key (runs d));
  runs_valid r : r ∈ runs d -> fire_valid (sr_fire r) /\ is_Some (claims d !! run_key r);
  spawned_distinct : NoDup (map run_key (spawned d));
  spawned_runs : spawned d ⊆ runs d
}.

Definition pod_ok (d : Shared) (p : Pod) : Prop :=
  match phase p with
  | Anchoring l w def channel dur =>
      parse_definition (w_definition w) = Some def /\ enabled def = true /\
      w_channel_id w = Some channel /\ trigger def = Schedule None (Some dur)
  | Authorizing _ f | Claiming _ f => fire_valid f
  | Creating _ f =>
      fire_valid f /\ is_Some (claims d !! fire_key f) /\ fire_key f ∉ map run_key (runs d)
  | Attaching _ r => r ∈ runs d /\ run_key r ∉ map run_key (spawned d)
  | _ => True
  end.

Record invariant (sys : System) : Prop := {
  inv_shared : shared_ok (shared sys);
  inv_pod n p : pods sys !! n = Some p -> pod_ok (shared sys) p;
  inv_unique n m p q k :
    pods sys !! n = Some p -> pods sys !! m = Some q ->
    holds p = Some k -> holds q = Some k -> n = m
}.

Lemma held_claimed d p k :
  shared_ok d -> pod_ok d p -> holds p = Some k -> is_Some (claims d !! k).
Proof.
  intros Hd. unfold pod_ok, holds. destruct (phase p); try done.
  - intros (_ & Hc & _) [= <-]. done.
  - intros [Hr _] [= <-]. by apply runs_valid.
Qed.

Lemma interval_due_ok d anchors l w def channel dur last :
  parse_definition (w_definition w) = Some def -> enabled def = true ->
  w_channel_id w = Some channel -> trigger def = Schedule None (Some dur) ->
  pod_ok d (interval_due anchors l w def channel dur last) /\
  holds (interval_due anchors l w def channel dur last) = None.
Proof.
  intros Hp He Hc Ht. unfold interval_due.
  destruct (interval_prefilter_should_fire _ _ _ _ _ _) as [a fire]. destruct fire; [|done].
  destruct (interval_fire_instant dur (l_now l)) as [t|] eqn:Hi; [|done].
  split; [|done]. split_and!; try done. exists (l_now l). exists dur. done.
Qed.

Lemma visit_ok d anchors l w : pod_ok d (visit anchors l w) /\ holds (visit anchors l w) = None.
Proof.
  unfold visit. destruct (parse_definition _) as [def|] eqn:Hp; [|done].
  destruct (enabled def) eqn:He; [|done]. cbn [negb].
  destruct (w_channel_id w) as [channel|] eqn:Hc; [|done].
  destruct (trigger def) as [| | |[expr|] [dur|]|] eqn:Ht; try done.
  - destruct (cron_fire_instant _ _ _) as [t|] eqn:Hi; [|done].
    split; [|done]. split_and!; try done. exists (l_now l). by exists expr.
  - destruct (anchors !! _); [by apply interval_due_ok|]. done.
Qed.

(** A step keeps the shared state consistent, leaves what other pods hold, and takes a claim
    only by inserting it. *)
Record step_sound (d d' : Shared) (p p' : Pod) : Prop := {
  sound_shared : shared_ok d';
  sound_pod : pod_ok d' p';
  sound_frame q :
    pod_ok d q -> (forall k, holds q = Some k -> holds p <> Some k) -> pod_ok d' q;
  sound_new k : holds p' = Some k -> holds p = Some k \/ claims d !! k = None
}.

Lemma sound_local d p p' :
  shared_ok d -> pod_ok d p' -> holds p' = None -> step_sound d d p p'.
Proof. intros Hd Hp Hh. split; [done|done|done|]. intros k. by rewrite Hh. Qed.

(** Claims only grow. *)
Lemma more_claims d cs :
  shared_ok d -> (forall k, is_Some (claims d !! k) -> is_Some (cs !! k)) ->
  shared_ok (mkShared (rows d) (roles d) cs (runs d) (spawned d)) /\
  forall q, pod_ok d q -> pod_ok (mkShared (rows d) (roles d) cs (runs d) (spawned d)) q.
Proof.
  intros Hd Hcs. split.
  - destruct Hd as [H1 H2 H3 H4]. split; [done| |done|done].
    intros r Hr. pose proof (H2 r Hr) as [? ?]. split; [done|]. by apply Hcs.
  - intros q. unfold pod_ok. destruct (phase q); try done. intros (? & ? & ?). naive_solver.
Qed.

Lemma claim_cases d key d' b :
  claim_scheduled_workflow_fire d key = (d', b) ->
  (b = false /\ d' = d) \/
  (b = true /\ claims d !! key = None /\
   d' = mkShared (rows d) (roles d) (<[key := None]> (claims d)) (runs d) (spawned d)).
Proof.
  unfold claim_scheduled_workflow_fire. destruct (existsb _ _); [|naive_solver].
  destruct (claims d !! key); naive_solver.
Qed.

Lemma claim_grows d key k (v : option Uuid) :
  is_Some (claims d !! k) -> is_Some (<[key := v]> (claims d) !! k).
Proof.
  intros H. destruct (decide (key = k)) as [->|].
  - rewrite lookup_insert_eq. by eexists.
  - by rewrite lookup_insert_ne.
Qed.

Lemma create_sound d f l l' anchors run_id ctx b :
  shared_ok d -> pod_ok d (mkPod anchors (Creating l f)) ->
  let r := mkScheduledRun run_id f ctx in
  step_sound d (create_scheduled_run d r) (mkPod anchors (Creating l f))
    (mkPod anchors (if b : bool then Attaching l' r else Scanning l')).
Proof.
  intros Hd (Hv & Hc & Hn) r.
  assert (fire_key f ∉ map run_key (spawned d)) as Hs.
  { intros (x & Hx & Hin)%list_elem_of_fmap. apply Hn. rewrite Hx. apply list_elem_of_fmap_2.
    by apply (spawned_runs d). }
  split.
  - destruct Hd as [H1 H2 H3 H4]. split; simpl; [|intros x Hx|done|].
    + rewrite map_app. apply NoDup_app. split_and!; [done| |apply NoDup_singleton].
      intros k Hk ->%list_elem_of_singleton. by apply Hn.
    + apply elem_of_app in Hx as [Hx| ->%list_elem_of_singleton]; [by apply H2|]. done.
    + intros x Hx. apply elem_of_app. left. by apply H4.
  - destruct b; [|done]. split; simpl; [|done]. apply elem_of_app. right. by apply list_elem_of_singleton.
  - intros q Hq Hk. unfold pod_ok, holds in *. destruct (phase q); try done; simpl in *.
    + destruct Hq as (? & ? & Hq). split_and!; [done|done|]. rewrite map_app, elem_of_app.
      intros [Hx|Hx%list_elem_of_singleton]; [done|]. apply (Hk _ eq_refl). by rewrite Hx.
    + destruct Hq as [Hq ?]. split; [|done]. apply elem_of_app. by left.
  - intros k. destruct b; [|done]. unfold holds. simpl. intros [= <-]. by left.
Qed.

Lemma spawn_sound d r l anchors p' :
  shared_ok d -> pod_ok d (mkPod anchors (Attaching l r)) -> holds p' = None ->
  pod_ok (spawn d r) p' ->
  step_sound d (spawn d r) (mkPod anchors (Attaching l r)) p'.
Proof.
  intros Hd (Hr & Hn) Hh Hp'. split; [|done| |by intros k; rewrite Hh].
  - destruct Hd as [H1 H2 H3 H4]. split; simpl; [done|done| |].
    + rewrite map_app. apply NoDup_app. split_and!; [done| |apply NoDup_singleton].
      intros k Hk ->%list_elem_of_singleton. by apply Hn.
    + intros x [Hx| ->%list_elem_of_singleton]%elem_of_app; [|done]. by apply H4.
  - intros q Hq Hk. unfold pod_ok, holds in *. destruct (phase q); try done; simpl in *.
    destruct Hq as [? Hq]. split; [done|]. rewrite map_app, elem_of_app.
    intros [Hx|Hx%list_elem_of_singleton]; [done|]. by eapply Hk; rewrite ?Hx.
Qed.

Lemma attach_ok d key run_id :
  shared_ok d ->
  shared_ok (attach_scheduled_workflow_run d key run_id) /\
  (forall q, pod_ok d q -> pod_ok (attach_scheduled_workflow_run d key run_id) q).
Proof.
  intros Hd. unfold attach_scheduled_workflow_run.
  destruct (claims d !! key) as [[x|]|]; [done| |done]. apply more_claims; [done|].
  intros k. apply claim_grows.
Qed.

Lemma attach_sound d anchors anchors' r l o :
  shared_ok d -> pod_ok d (mkPod anchors (Attaching l r)) ->
  step_sound d
    (spawn match o with
           | Refused => d
           | _ => attach_scheduled_workflow_run d (run_key r) (sr_id r)
           end r)
    (mkPod anchors (Attaching l r)) (mkPod anchors' (Scanning l)).
Proof.
  intros Hd Hp. pose proof (attach_ok d (run_key r) (sr_id r) Hd) as [Ha Hq].
  assert (step_sound d (spawn (attach_scheduled_workflow_run d (run_key r) (sr_id r)) r)
            (mkPod anchors (Attaching l r)) (mkPod anchors' (Scanning l))) as H.
  { destruct (spawn_sound _ r l anchors (mkPod anchors' (Scanning l)) Ha (Hq _ Hp) eq_refl I)
      as [H1 H2 H3 H4].
    split; [done|done| |done]. intros q Hpq. apply H3. by apply Hq. }
  destruct o; [exact H| |exact H]. by apply spawn_sound.
Qed.

Lemma claim_sound d anchors l f b :
  shared_ok d -> fire_valid f -> claims d !! fire_key f = None ->
  step_sound d (mkShared (rows d) (roles d) (<[fire_key f := None]> (claims d)) (runs d) (spawned d))
    (mkPod anchors (Claiming l f)) (mkPod anchors (if b : bool then Creating l f else Scanning l)).
Proof.
  intros Hd Hv Hnone.
  destruct (more_claims d (<[fire_key f := None]> (claims d)) Hd) as [H1 H2];
    [intros k; apply claim_grows|].
  split; [done| |intros q Hq _; by apply H2|].
  - destruct b; [|done]. split; [done|]. split; [simpl; rewrite lookup_insert_eq; by eexists|].
    simpl. intros (x & Hx & Hin)%list_elem_of_fmap. apply (runs_valid d Hd) in Hin as [_ [v Hin]].
    unfold run_key in *. congruence.
  - intros k. destruct b; [|done]. intros [= <-]. by right.
Qed.

Lemma pod_step_sound i d p d' p' :
  shared_ok d -> pod_ok d p -> pod_step i d p = (d', p') -> step_sound d d' p p'.
Proof.
  intros Hd Hp Hstep. destruct p as [anchors ph]. unfold pod_step in Hstep. simpl in Hstep.
  destruct ph as [|now|l|l w def channel dur|l f|l f|l f|l r].
  - injection Hstep as <- <-. by apply sound_local.
  - destruct (in_outcome i); injection Hstep as <- <-; by apply sound_local.
  - destruct (l_rest l); injection Hstep as <- <-; [by apply sound_local|].
    apply sound_local; [done|apply visit_ok|apply (visit_ok d)].
  - injection Hstep as <- <-. destruct Hp as (? & ? & ? & ?).
    apply sound_local; [done|by apply interval_due_ok|by eapply (interval_due_ok d)].
  - destruct (check_owner_authority _ _); injection Hstep as <- <-; by apply sound_local.
  - destruct (in_outcome i); [|injection Hstep as <- <-; by apply sound_local|];
      destruct (claim_scheduled_workflow_fire d (fire_key f)) as [d1 b] eqn:Hc;
      apply claim_cases in Hc as [[-> ->]|(-> & Hnone & ->)]; injection Hstep as <- <-;
      [by apply sound_local|by apply (claim_sound _ _ _ _ true)|by apply sound_local|
       by apply (claim_sound _ _ _ _ false)].
  - destruct (in_outcome i); injection Hstep as <- <-;
      [by apply (create_sound _ _ _ _ _ _ _ true)|by apply sound_local|
       by apply (create_sound _ _ _ _ _ _ _ false)].
  - injection Hstep as <- <-. by apply attach_sound.
Qed.

Lemma claims_initial : invariant initial.
Proof.
  split; simpl; [|intros n p Hp; by rewrite lookup_empty in Hp
    |intros n m p q k Hp; by rewrite lookup_empty in Hp].
  split; simpl; [constructor| |constructor|done]. intros r Hr. by apply elem_of_nil in Hr.
Qed.

Lemma invariant_pod_acts sys n p i d p' :
  invariant sys -> pods sys !! n = Some p -> pod_step i (shared sys) p = (d, p') ->
  invariant (mkSystem d (<[n := p']> (pods sys))).
Proof.
  intros [Hs Hp Hu] Hn Hstep.
  destruct (pod_step_sound _ _ _ _ _ Hs (Hp _ _ Hn) Hstep) as [S1 S2 S3 S4].
  (* another pod never holds what the acting pod takes *)
  assert (forall m q k, m <> n -> pods sys !! m = Some q -> holds q = Some k -> holds p' <> Some k)
    as Hother.
  { intros m q k Hm Hq Hk Hk'. destruct (S4 k Hk') as [Hold|Hnew].
    - apply Hm. by eapply Hu.
    - destruct (held_claimed _ _ _ Hs (Hp _ _ Hq) Hk) as [v Hv]. congruence. }
  split; simpl; [done| |].
  - intros m q. rewrite lookup_insert. case_decide as Hm; [by intros [= <-]|]. intros Hq.
    apply S3; [by eapply Hp|]. intros k Hk Hk'. apply Hm. by eapply Hu.
  - intros m1 m2 q1 q2 k. rewrite !lookup_insert. case_decide as H1; case_decide as H2; subst; try done.
    + intros [= <-] Hq H' Hk. destruct (Hother m2 q2 k); [done..|by rewrite H'].
    + intros Hq [= <-] Hk H'. destruct (Hother m1 q1 k); [done..|by rewrite H'].
    + apply Hu.
Qed.

Lemma claims_step sys sys' : system_step sys sys' -> invariant sys -> invariant sys'.
Proof.
  intros [n p i d p' s Hn Hstep|n s|n s|rows' roles' s] Hinv; [by eapply invariant_pod_acts|..];
    destruct Hinv as [Hs Hp Hu]; split; simpl; try done.
  - intros m q. rewrite lookup_insert. case_decide; [by intros [= <-]|apply Hp].
  - intros m1 m2 q1 q2 k. rewrite !lookup_insert.
    case_decide; [by intros [= <-]|]. intros H1. case_decide; [by intros [= <-]|]. by apply Hu.
  - intros m q. rewrite lookup_delete_Some. intros [_ ?]. by eapply Hp.
  - intros m1 m2 q1 q2 k. rewrite !lookup_delete_Some. intros [_ ?] [_ ?]. by apply Hu.
  - by destruct Hs as [H1 H2 H3 H4].
Qed.

Lemma claims_reachable sys : reachable sys -> invariant sys.
Proof.
  intros H. revert sys H. apply (rtc_ind_r invariant); [apply claims_initial|].
  intros x y _ Hstep. by apply claims_step.
Qed.

(** C23: Whatever pods run, restart, stop at any await or lose the answers of their calls, no
    workflow is run or executed twice for one instant: runs and executions have distinct
    (community, workflow, instant) keys, all claimed, every execution is of a created run, and
    every run is of an enabled schedule of a channel at an instant its expression gives. *)
Theorem scheduled_runs_at_most_once sys (Hreach : reachable sys) :
  let d := shared sys in
  NoDup (map run_key (runs d)) /\ NoDup (map run_key (spawned d)) /\ spawned d ⊆ runs d /\
  forall r, r ∈ runs d -> fire_valid (sr_fire r) /\ is_Some (claims d !! run_key r).
Proof.
  destruct (claims_reachable _ Hreach) as [[H1 H2 H3 H4] _ _]. split_and!; done.
Qed.

(** ** Liveness *)

Fixpoint exec (inputs : list Input) (d : Shared) (p : Pod) : Shared * Pod :=
  match inputs with
  | [] => (d, p)
  | i :: inputs' => let '(d, p) := pod_step i d p in exec inputs' d p
  end.

(** The pod alone, its calls answered. *)
Definition alone (n : nat) (run_id : Uuid) : list Input := repeat (mkInput 0 Answered run_id) n.

(** An enabled interval workflow of a channel, in the database, its owner with authority. *)
Definition interval_workflow (d : Shared) (w : WorkflowRecord) (def : WorkflowDef) (channel : Uuid)
    (dur : string) (secs : Z) : Prop :=
  parse_definition (w_definition w) = Some def /\ enabled def = true /\
  w_channel_id w = Some channel /\ trigger def = Schedule None (Some dur) /\
  parse_duration_secs dur = Ok secs /\ 0 < secs /\ w ∈ map row_workflow (rows d) /\
  check_owner_authority (E := unit)
    (Ok (member_role d (w_community_id w) channel (w_owner_pubkey w))) def = true.

Lemma interval_should_fire_due dur secs t now :
  parse_duration_secs dur = Ok secs -> 0 < secs -> t + secs * NANOS <= now ->
  interval_should_fire dur (Some t) now = true.
Proof.
  intros Hd Hs Ht. unfold interval_should_fire, num_seconds. rewrite Hd. simpl. apply Z.leb_le.
  assert (0 < NANOS) by done. assert (secs <= (now - t) ÷ NANOS) by (apply Z.quot_le_lower_bound; lia).
  lia.
Qed.

Lemma interval_should_fire_now dur secs now :
  parse_duration_secs dur = Ok secs -> 0 < secs -> interval_should_fire dur None now = false.
Proof.
  intros Hd Hs. unfold interval_should_fire, num_seconds. rewrite Hd. simpl.
  rewrite Z.sub_diag, Z.quot_0_l by done. apply Z.leb_gt. simpl. lia.
Qed.

Lemma claim_free d w (key : FireKey) :
  w ∈ map row_workflow (rows d) -> fst key = workflow_key w -> claims d !! key = None ->
  claim_scheduled_workflow_fire d key =
  (mkShared (rows d) (roles d) (<[key := None]> (claims d)) (runs d) (spawned d), true).
Proof.
  intros Hw Hk Hc. unfold claim_scheduled_workflow_fire. rewrite Hc.
  rewrite (proj2 (existsb_exists _ _)); [done|].
  apply list_elem_of_fmap in Hw as (row & -> & Hrow). exists row. rewrite <-list_elem_of_In.
  split; [done|]. by apply bool_decide_eq_true.
Qed.

Lemma exec_alone n run_id d p d' p' :
  pod_step (mkInput 0 Answered run_id) d p = (d', p') ->
  exec (alone (S n) run_id) d p = exec (alone n run_id) d' p'.
Proof. intros H. unfold alone. simpl. by rewrite H. Qed.

Lemma pod_step_visit i d anchors l w rest :
  l_rest l = w :: rest ->
  pod_step i d (mkPod anchors (Scanning l)) =
  (d, visit anchors (mkLoop (l_now l) (l_workflows l) rest) w).
Proof. intros Hl. unfold pod_step. simpl. by rewrite Hl. Qed.

(** C35: An interval workflow never starves: the first tick that sees it, with no anchor in memory
    and no claim in the database, anchors it at that tick; any later tick at least one interval
    after its anchor whose instant is unclaimed creates and executes one run for that instant,
    and moves the anchor.  The pod makes its calls alone and each is answered. *)
Theorem interval_workflow_runs d anchors l w rest def channel dur secs run_id
    (Hw : interval_workflow d w def channel dur secs) (Hl : l_rest l = w :: rest) :
  let key := workflow_key w in
  let after := mkPod (<[key := l_now l]> anchors)
                 (Scanning (mkLoop (l_now l) (l_workflows l) rest)) in
  (anchors !! key = None -> latest_scheduled_workflow_fire d key = None ->
   exec (alone 2 run_id) d (mkPod anchors (Scanning l)) = (d, after)) /\
  forall t instant,
    anchors !! key = Some t -> t + secs * NANOS <= l_now l ->
    interval_fire_instant dur (l_now l) = Some instant ->
    let f := mkFire w def channel instant IntervalFire in
    claims d !! fire_key f = None ->
    let r := mkScheduledRun run_id f (schedule_context l f) in
    exec (alone 5 run_id) d (mkPod anchors (Scanning l)) =
    (mkShared (rows d) (roles d) (<[fire_key f := Some run_id]> (claims d))
       (runs d ++ [r]) (spawned d ++ [r]), after).
Proof.
  destruct Hw as (Hp & He & Hc & Ht & Hd & Hs & Hrow & Hauth). simpl in Hauth. intros key after.
  subst key after. set (l' := mkLoop (l_now l) (l_workflows l) rest).
  assert (visit anchors l' w =
    match anchors !! workflow_key w with
    | Some t => interval_due anchors l' w def channel dur (Some t)
    | None => mkPod anchors (Anchoring l' w def channel dur)
    end) as Hvisit by (unfold visit; by rewrite Hp, He, Hc, Ht).
  split; [intros Ha Hlast|intros t instant Ha Hdue Hi f Hfree r].
  - rewrite (exec_alone 1 _ _ _ d (mkPod anchors (Anchoring l' w def channel dur)));
      [|rewrite (pod_step_visit _ _ _ _ w rest) by done; fold l'; by rewrite Hvisit, Ha].
    rewrite (exec_alone 0 _ _ _ d (mkPod (<[workflow_key w := l_now l]> anchors) (Scanning l'))); [done|].
    unfold pod_step. simpl. rewrite Hlast. unfold interval_due, interval_prefilter_should_fire.
    change (l_now l') with (l_now l). by rewrite (interval_should_fire_now _ _ _ Hd Hs).
  - rewrite (exec_alone 4 _ _ _ d (mkPod anchors (Authorizing l' f))).
    2: { rewrite (pod_step_visit _ _ _ _ w rest) by done. fold l'. rewrite Hvisit, Ha.
         unfold interval_due, interval_prefilter_should_fire. change (l_now l') with (l_now l).
         rewrite (interval_should_fire_due _ _ _ _ Hd Hs Hdue). simpl. by rewrite Hi. }
    rewrite (exec_alone 3 _ _ _ d (mkPod anchors (Claiming l' f)));
      [|unfold pod_step, f; simpl; by rewrite Hauth].
    set (d1 := mkShared (rows d) (roles d) (<[fire_key f := None]> (claims d)) (runs d) (spawned d)).
    rewrite (exec_alone 2 _ _ _ d1 (mkPod anchors (Creating l' f)));
      [|unfold pod_step; simpl; by rewrite (claim_free d w (fire_key f) Hrow eq_refl Hfree)].
    rewrite (exec_alone 1 _ _ _ (create_scheduled_run d1 r) (mkPod anchors (Attaching l' r))); [|done].
    unfold alone, exec, pod_step. simpl. unfold attach_scheduled_workflow_run. simpl.
    change (fire_key (sr_fire r)) with (fire_key f).
    rewrite lookup_insert_eq. unfold spawn. simpl. by rewrite insert_insert_eq.
Qed.

(** Pod [n] takes [inputs] in a row. *)
Definition act (n : nat) (inputs : list Input) (sys : System) : System :=
  match pods sys !! n with
  | Some p =>
      let '(d, p) := exec inputs (shared sys) p in mkSystem d (<[n := p]> (pods sys))
  | None => sys
  end.

Lemma act_steps n inputs sys : is_Some (pods sys !! n) -> rtc system_step sys (act n inputs sys).
Proof.
  intros [p Hn]. unfold act. rewrite Hn.
  revert sys p Hn. induction inputs as [|i inputs IH]; intros [d ps] p Hn; simpl in *.
  - by rewrite insert_id.
  - destruct (pod_step i d p) as [d1 p1] eqn:Hstep.
    eapply rtc_l; [exact (pod_acts n p i d1 p1 (mkSystem d ps) Hn Hstep)|]. simpl.
    specialize (IH (mkSystem d1 (<[n := p1]> ps)) p1). simpl in IH.
    rewrite lookup_insert_eq in IH. specialize (IH eq_refl).
    destruct (exec inputs d1 p1) as [d2 p2]. by rewrite insert_insert_eq in IH.
Qed.

Lemma act_reachable n inputs sys : reachable sys -> reachable (act n inputs sys).
Proof.
  intros Hs. destruct (pods sys !! n) as [p|] eqn:Hn.
  - unfold reachable in *. eapply (transitivity (R := rtc system_step)); [exact Hs|]. apply act_steps. by rewrite Hn.
  - unfold act. by rewrite Hn.
Qed.

(** ** The instants *)
Context {KL : SchedulerCratesLaws K}.

Lemma cron_fire_window expr now t :
  cron_fire_instant expr now 60 = Some t ->
  now - 60 * NANOS < t <= now /\
  exists next, cron_schedule (normalize_cron expr) = Some next /\ next (now - 60 * NANOS) = Some t.
Proof.
  unfold cron_fire_instant. destruct (cron_schedule _) as [next|] eqn:Hs; [|done].
  destruct (next _) as [u|] eqn:Hn; [|done]. destruct (u <=? now) eqn:Hu; [|done].
  intros [= ->]. apply Z.leb_le in Hu. pose proof (cron_after _ _ _ _ Hs Hn).
  split; [lia|]. by exists next.
Qed.

(** A cron tick fires the first instant of its window; every clock that is not behind this
    one, and at most a minute past the instant, computes the same claim. *)
Theorem cron_fire_instant_spec expr now t (Hfire : cron_fire_instant expr now 60 = Some t) :
  now - 60 * NANOS < t <= now /\
  forall now', now <= now' < t + 60 * NANOS -> cron_fire_instant expr now' 60 = Some t.
Proof.
  apply cron_fire_window in Hfire as (Hw & next & Hs & Hn). split; [done|]. intros now' Hnow.
  unfold cron_fire_instant. rewrite Hs, (cron_next _ _ _ _ _ Hs Hn) by lia.
  by rewrite (proj2 (Z.leb_le _ _)) by lia.
Qed.

(** An instant between one tick and the window of the next is never fired. *)
Lemma slow_ticks_miss expr now1 now2 u :
  now1 < u <= now2 - 60 * NANOS ->
  cron_fire_instant expr now1 60 <> Some u /\ cron_fire_instant expr now2 60 <> Some u.
Proof.
  intros Hu. split; intros [? _]%cron_fire_window; lia.
Qed.

Lemma interval_bucket dur now secs :
  parse_duration_secs dur = Ok secs -> 0 < secs < 2 ^ 63 ->
  interval_fire_instant dur now = from_timestamp (timestamp now / secs * secs).
Proof.
  intros Hd Hs. unfold interval_fire_instant, u64_as_i64, div_euclid. rewrite Hd.
  rewrite (proj2 (Z.ltb_lt secs (2 ^ 63))) by lia. by rewrite (proj2 (Z.ltb_lt 0 secs)) by lia.
Qed.

(** An interval fires for the multiple of the interval at or before the clock, the same one
    for every clock until the next multiple. *)
Theorem interval_fire_instant_spec dur now secs t
    (Hd : parse_duration_secs dur = Ok secs) (Hs : 0 < secs < 2 ^ 63)
    (Hfire : interval_fire_instant dur now = Some t) :
  (exists k, t = k * (secs * NANOS)) /\ t <= now < t + secs * NANOS /\
  forall now', t <= now' < t + secs * NANOS -> interval_fire_instant dur now' = Some t.
Proof.
  assert (0 < NANOS) as HN by done.
  rewrite interval_bucket with (secs := secs) in Hfire by done.
  pose proof (from_timestamp_secs _ _ Hfire) as ->. unfold timestamp in *.
  pose proof (Z.div_mod now NANOS ltac:(lia)). pose proof (Z.mod_pos_bound now NANOS ltac:(lia)).
  pose proof (Z.div_mod (now / NANOS) secs ltac:(lia)).
  pose proof (Z.mod_pos_bound (now / NANOS) secs ltac:(lia)).
  split_and!; [exists (now / NANOS / secs); lia|nia|nia|]. intros now' Hnow.
  rewrite interval_bucket with (secs := secs) by done. rewrite <-Hfire. do 2 f_equal.
  unfold timestamp. rewrite !Z.div_div by lia. symmetry.
  apply (Z.div_unique now' (NANOS * secs) (now / (NANOS * secs))
    (now' - now / (NANOS * secs) * (NANOS * secs))); [left|]; rewrite <-Z.div_div by lia; lia.
Qed.
End scheduler.

(** * Examples *)

Module Reference.
#[export] Existing Instance Nostr.Reference.api.
#[export] Existing Instance Json.Reference.json.
#[export] Existing Instance Workflow.Reference.crates.
#[export] Existing Instance Workflow.Reference.world.
#[export] Existing Instance map_to_list_iter.

(** Every expression means "each minute". *)
Definition each_minute (t : Z) : option Z := Some ((t / (60 * NANOS) + 1) * (60 * NANOS)).

#[export] Instance crates : SchedulerCrates := {|
  cron_schedule _ := Some each_minute;
  from_timestamp s := Some (s * NANOS);
  timestamptz t := t / 1000 * 1000
|}.

#[export] Instance crates_laws : SchedulerCratesLaws crates.
Proof.
  assert (0 < 60 * NANOS) as HN by done.
  split; simpl; unfold each_minute.
  - intros _ next t u [= <-] [= <-].
    pose proof (Z.div_mod t (60 * NANOS)). pose proof (Z.mod_pos_bound t (60 * NANOS)). lia.
  - intros _ next t t' u [= <-] [= <-] Ht. do 2 f_equal. f_equal. symmetry.
    apply (Z.div_unique t' (60 * NANOS) _ (t' - t / (60 * NANOS) * (60 * NANOS))); [left|lia].
    pose proof (Z.div_mod t (60 * NANOS)). pose proof (Z.mod_pos_bound t (60 * NANOS)). lia.
  - by intros s t [= <-].
  - intros s. change NANOS with (1000000 * 1000). rewrite Z.mul_assoc. by rewrite Z.div_mul.
Qed.

(** A database that answers everything and numbers the runs. *)
Definition greeter : WorkflowRecord :=
  mkWorkflow _ 9%N 1%N [Byte.x01] (Some 5%N)
    (Object [("trigger", Object [("on", Str "message_posted"); ("filter", Str "yes")])]).
#[export] Instance event_db : EventDb := {|
  Db := N;
  list_enabled_channel_workflows d _ _ := (d, Ok [greeter]);
  get_member_role d _ _ _ := (d, Ok (Some "member"));
  create_workflow_run d _ _ _ _ := ((d + 1)%N, Ok d)
|}.
Definition message : StoredEvent :=
  StoredEvent_new 0 (mkEvent [Byte.x0a] [Byte.x02] 50 9 [] "hi") (Some 5%N).
Definition ids (r : gmap (Uuid * Uuid) (list WorkflowRecord) * N * Sys * result (list EventRun) unit)
  : list N :=
  match r with (_, _, _, Ok runs) => map er_run_id runs | _ => [] end.

Definition secs (n : Z) : Z := n * NANOS.

Definition hourly_json : Value Z :=
  Object [("trigger", Object [("on", Str "schedule"); ("interval", Str "1h")])].
Definition hourly : WorkflowRecord := mkWorkflow _ 7%N 1%N [Byte.x01] (Some 5%N) hourly_json.
Definition hourly_def : WorkflowDef :=
  mkDef "demo" None (Schedule None (Some "1h"))
    [mkStep "a" None None None (SendMessage "hi" None)] true.

Definition db : Shared :=
  mkShared [mkRow hourly true true false] {[ (1%N, 5%N, [Byte.x01]) := "member" ]} ∅ [] [].
Definition anchored : gmap (Uuid * Uuid) Z := {[ (1%N, 7%N) := secs 100 ]}.
Definition tick (t : Z) : Loop := mkLoop t [hourly] [hourly].

(** The inputs of a pod's whole tick at [t]: wake, load, the workflow in [n] steps, prune. *)
Definition whole_tick (n : nat) (t : Z) (run_id : Uuid) : list Input :=
  mkInput t Answered run_id :: alone (S (S n)) run_id.

(** The seconds of the instants that were executed. *)
Definition executed (d : Shared) : list Z :=
  map (fun r => timestamp (f_scheduled_for (sr_fire r))) (spawned d).

(** Two pods tick together at 100 s and at 3700 s; the second loses the claim. *)
Definition two_pods : System :=
  act 1 (whole_tick 3 (secs 3700) 4%N) (act 0 (whole_tick 5 (secs 3700) 3%N)
    (act 1 (whole_tick 2 (secs 100) 0%N) (act 0 (whole_tick 2 (secs 100) 0%N)
      (mkSystem db {[ 0%nat := new_pod; 1%nat := new_pod ]})))).
End Reference.

Import Reference.

Lemma hourly_workflow : interval_workflow db hourly hourly_def 5%N "1h" 3600.
Proof. split_and!; try reflexivity. left. Qed.

Lemma interval_workflow_runs_witness :
  exec (alone 2 3%N) db (mkPod ∅ (Scanning (tick (secs 100)))) =
    (db, mkPod anchored (Scanning (mkLoop (secs 100) [hourly] []))) /\
  executed (fst (exec (alone 5 3%N) db
                   (mkPod anchored (Scanning (tick (secs 3700)))))) = [3600].
Proof.
  split.
  - exact (proj1 (interval_workflow_runs db ∅ (tick (secs 100)) hourly [] hourly_def 5%N "1h" 3600 3%N
                    hourly_workflow eq_refl) eq_refl eq_refl).
  - rewrite (proj2 (interval_workflow_runs db anchored (tick (secs 3700)) hourly []
                      hourly_def 5%N "1h" 3600 3%N hourly_workflow eq_refl)
               (secs 100) (secs 3600) ltac:(vm_compute; reflexivity) ltac:(vm_compute; discriminate)
               ltac:(vm_compute; reflexivity) ltac:(vm_compute; reflexivity)).
    vm_compute. reflexivity.
Defined.

(** A pod that anchored at 10:59 fires at 11:59 for the instant 11:00; restarted, it fires
    again at 12:00 for the instant 12:00, a minute after the last fire of an hourly workflow. *)
Example restart_fires_within_interval :
  let start := mkPod {[ (1%N, 7%N) := secs (10 * 3600 + 59 * 60) ]} Sleeping in
  let '(d1, _) := exec (whole_tick 5 (secs (11 * 3600 + 59 * 60)) 3%N) db start in
  let '(d2, _) := exec (whole_tick 6 (secs (12 * 3600)) 4%N) d1 new_pod in
  executed d1 = [11 * 3600] /\ executed d2 = [11 * 3600; 12 * 3600].
Proof. vm_compute. split; reflexivity. Qed.

(** Ticks 61 seconds apart, at 59.9 s and 120.9 s, fire the minutes 0 and 120: not 60. *)
Example drifting_ticks_miss_a_minute :
  cron_fire_instant "* * * * *" (599 * NANOS / 10) 60 = Some (secs 0) /\
  cron_fire_instant "* * * * *" (1209 * NANOS / 10) 60 = Some (secs 120).
Proof. vm_compute. split; reflexivity. Qed.

Lemma cron_fire_instant_spec_witness :
  secs 63 - 60 * NANOS < secs 60 <= secs 63 /\
  cron_fire_instant "* * * * *" (secs 100) 60 = Some (secs 60).
Proof.
  destruct (cron_fire_instant_spec "* * * * *" (secs 63) (secs 60)) as [H1 H2]; [reflexivity|].
  split; [exact H1|]. apply H2. vm_compute. split; [discriminate|reflexivity].
Defined.

Lemma interval_fire_instant_spec_witness :
  interval_fire_instant "1h" (secs 7199) = Some (secs 3600).
Proof.
  destruct (interval_fire_instant_spec "1h" (secs 3700) 3600 (secs 3600)) as (_ & _ & H);
    [reflexivity|lia|reflexivity|]. apply H. vm_compute. split; [discriminate|reflexivity].
Defined.

Lemma two_pods_reachable : reachable two_pods.
Proof.
  do 4 apply act_reachable.
  eapply rtc_l; [apply (others_write (rows db) (roles db))|]. simpl.
  eapply rtc_l; [apply (pod_starts 1)|]. simpl.
  eapply rtc_l; [apply (pod_starts 0)|]. apply rtc_refl.
Qed.

Lemma scheduled_runs_at_most_once_witness :
  executed (shared two_pods) = [3600] /\ NoDup (map run_key (spawned (shared two_pods))).
Proof.
  split; [vm_compute; reflexivity|].
  exact (proj1 (proj2 (scheduled_runs_at_most_once two_pods two_pods_reachable))).
Defined.

(** A plain member's workflow answers the message; run 40 is justified. *)
Lemma event_runs_justified_witness :
  ids (on_event (D := event_db) ∅ 1%N message 40%N Workflow.Reference.start) = [40%N] /\
  exists run, er_run_id run = 40%N /\ run_justified (D := event_db) 1%N 5%N message [greeter] run.
Proof.
  split; [vm_compute; reflexivity|].
  destruct (on_event (D := event_db) ∅ 1%N message 40%N Workflow.Reference.start) as [[[c d] s] r] eqn:Hon.
  assert (ids (on_event (D := event_db) ∅ 1%N message 40%N Workflow.Reference.start) = [40%N]) as Hids
    by (vm_compute; reflexivity).
  rewrite Hon in Hids. destruct r as [runs|]; [|discriminate]. simpl in Hids.
  destruct runs as [|run [|]]; try discriminate. injection Hids as Hid.
  exists run. split; [exact Hid|].
  destruct (event_runs_justified (D := event_db) ∅ 1%N message 40%N _ _ _ _ _ run Hon (list_elem_of_here _ _))
    as (channel & workflows & [= <-] & _ & [Hc|[d1 [= _ <-]]] & Hj); [discriminate|exact Hj].
Defined.
