(* ===== verification/GitStore.v ===== *)
(** Git repositories in an object store: the manifest
    ([crates/buzz-relay/src/api/git/manifest.rs]), the operations of a git host on its
    world, and the store client ([store.rs]).

    The world is what the relays share: the objects of the bucket, and each relay's cache of
    packs.  Requests to the bucket follow the conditional-write semantics the store's
    conformance probe demands; each may fail, take effect and lose its reply, or (for
    content-addressed objects) return other bytes.  Git subprocesses reply what git
    documents. *)
From S2P Require Import Prelude Text Programs.
Local Open Scope string_scope.
Local Open Scope list_scope.
Local Open Scope Z_scope.
Local Open Scope buzz_scope.

(** * Manifests ([manifest.rs]) *)

Definition MANIFEST_VERSION : Z := 1.
Definition MAX_MANIFEST_PACKS : Z := 128.
Definition PACK_COMPACTION_THRESHOLD : Z := MAX_MANIFEST_PACKS * 3 / 4.
Definition MAX_MANIFEST_REFS : Z := 10000.

Record Manifest := {
  version : Z;
  head : string;
  refs : gmap string string;
  packs : list string;
  parent : option string;
}.

#[export] Instance manifest_eq_dec : EqDecision Manifest.
Proof. solve_decision. Defined.

Inductive ManifestError :=
| Serde
| UnsupportedVersion (got expected : Z)
| UnsafeRefName (name : string)
| MalformedOid (refname oid : string)
| EmptyHead
| MalformedParent (p : string)
| TooManyPacks (got max : Z)
| TooManyRefs (got max : Z)
| MalformedPackKey (key : string).

(** A [BTreeMap] is iterated in the order of its keys. *)
Definition entry_le (a b : string * string) : Prop := string_le (fst a) (fst b).
#[export] Instance entry_le_dec a b : Decision (entry_le a b).
Proof. unfold entry_le. apply _. Defined.
Definition iter_refs (m : gmap string string) : list (string * string) :=
  merge_sort entry_le (map_to_list m).

Definition is_safe_refname (s : string) : bool :=
  if negb (starts_with "refs/" s) then false
  else if contains ".." s || contains "//" s || starts_with "/" s || ends_with "/" s then false
  else str_all (fun c => is_ascii_alphanumeric c
                         || Ascii.eqb c "/" || Ascii.eqb c "_" || Ascii.eqb c "." || Ascii.eqb c "-") s.

Definition is_hex_oid (s : string) : bool :=
  ((String.length s =? 40)%nat || (String.length s =? 64)%nat) && str_all is_ascii_hexdigit s.

Definition is_manifest_digest (s : string) : bool :=
  (String.length s =? 64)%nat && str_all is_lower_hex s.

Definition is_pack_key (s : string) : bool :=
  match strip_prefix "packs/" s with Some d => is_manifest_digest d | None => false end.

Definition pointer_key (community owner repo : string) : string :=
  let repo := match strip_suffix ".git" repo with Some r => r | None => repo end in
  "repos/" +:+ community +:+ "/" +:+ owner +:+ "/" +:+ repo +:+ "/pointer".

Fixpoint validate_refs (l : list (string * string)) : result unit ManifestError :=
  match l with
  | [] => Ok tt
  | (refname, oid) :: l' =>
      if negb (is_safe_refname refname) then Err (UnsafeRefName refname)
      else if negb (is_hex_oid oid) then Err (MalformedOid refname oid)
      else validate_refs l'
  end.
Fixpoint validate_packs (l : list string) : result unit ManifestError :=
  match l with
  | [] => Ok tt
  | p :: l' => if is_pack_key p then validate_packs l' else Err (MalformedPackKey p)
  end.

Definition validate (m : Manifest) : result unit ManifestError :=
  if MAX_MANIFEST_PACKS <? Z.of_nat (length (packs m)) then
    Err (TooManyPacks (Z.of_nat (length (packs m))) MAX_MANIFEST_PACKS)
  else if MAX_MANIFEST_REFS <? Z.of_nat (size (refs m)) then
    Err (TooManyRefs (Z.of_nat (size (refs m))) MAX_MANIFEST_REFS)
  else if str_is_empty (head m) then Err EmptyHead
  else if negb (is_safe_refname (head m)) then Err (UnsafeRefName (head m))
  else
    let? _ := validate_refs (iter_refs (refs m)) in
    let? _ := validate_packs (packs m) in
    match parent m with
    | Some p => if is_manifest_digest p then Ok tt else Err (MalformedParent p)
    | None => Ok tt
    end.

(** * The world *)

(** A hydrated bare repository in a request's scratch directory. *)
Record Workspace := {
  ws_refs : gmap string string;
  ws_head : string;
  ws_objects : gset string;
}.

(** What the host takes from elsewhere: SHA-256 as lower-case hex ([sha2], [hex]), the JSON of
    a manifest ([serde_json]), the bucket's ETag of a version of an object, and two facts of
    git: the objects reachable from an object (its id determines them) and the objects in a
    pack.  [occurs] are the bodies that occur in the execution considered: [GitLaws] assumes
    that no two of them have the same digest. *)
Class GitCrates := {
  sha256_hex : string -> string;
  manifest_to_vec : Manifest -> string;
  manifest_from_slice : string -> option Manifest;
  etag_of (body : string) (revision : Z) : string;
  reach : string -> gset string;
  pack_objects : string -> gset string;
  occurs : string -> bool;
}.

Definition canonical_packs (m : Manifest) : Manifest :=
  {| version := version m; head := head m; refs := refs m;
     packs := dedup (sort_strings (packs m)); parent := parent m |}.

Class GitLaws (C : GitCrates) : Prop := {
  sha256_shape s : is_manifest_digest (sha256_hex s) = true;
  sha256_no_collision a b :
    occurs a = true -> occurs b = true -> sha256_hex a = sha256_hex b -> a = b;
  manifest_roundtrip m :
    version m = MANIFEST_VERSION -> validate m = Ok tt ->
    manifest_from_slice (manifest_to_vec m) = Some m;
  etag_body b v b' v' : etag_of b v = etag_of b' v' -> b = b';
}.

Inductive S3Error :=
| HttpFailWithBody (code : Z)
| S3Failure.

Inductive Precond :=
| IfNoneMatchStar
| IfMatch (etag : string).

(** [s3] are the objects and their revisions; [cache] is each relay's pack cache.
    [history] and [runs], which no code reads, record per pointer what was installed and for
    which request, newest first, and what git's receive-pack made of the workspaces it was
    run on, when it accepted the push. *)
Record World := {
  s3 : gmap string (string * Z);
  cache : gmap (Z * string) string;
  history : gmap string (list (string * Z));
  runs : list (Workspace * Workspace);
}.

Definition log (w : World) (key : string) : list (string * Z) := default [] (history w !! key).

(** The operations a git host awaits.  [by] of [PutObject], the request an object is written
    for, is only recorded.  [Local] is a step on the request's own files, [Elapsed] asks
    whether a deadline has passed. *)
Inductive Op :=
| HeadObject (key : string)
| GetObject (key : string)
| PutObject (key body : string) (cond : Precond) (by_request : Z)
| CacheLookup (relay : Z) (digest : string)
| CacheInsert (relay : Z) (digest body : string)
| CacheRemove (relay : Z) (digest : string)
| Local
| Elapsed
| ReceivePack (ws : Workspace)
| ForEachRef (ws : Workspace)
| SymbolicRef (ws : Workspace)
| PackObjects (positive negative : list string) (ws : Workspace)
| CountObjects (ws : Workspace)
| CompactPacks (positive : list string) (ws : Workspace)
| IndexPack (pack : string)
| InsertEvent (tags : list (list string)).

Definition GitReply (o : Op) : Type :=
  match o with
  | HeadObject _ => result (option Z * Z) S3Error
  | GetObject _ => result (option string * string) S3Error
  | PutObject _ _ _ _ => result (Z * option string) S3Error
  | CacheLookup _ _ => option string
  | CacheInsert _ _ _ | CacheRemove _ _ => unit
  | Local | Elapsed => bool
  | ReceivePack _ => result (bool * Workspace) unit
  | ForEachRef _ => result string unit
  | SymbolicRef _ => result (option string) unit
  | PackObjects _ _ _ | CountObjects _ => result string unit
  | CompactPacks _ _ => result (list (string * string)) unit
  | IndexPack _ => option string
  | InsertEvent _ => bool
  end.

(** How the environment behaves at an operation. *)
Inductive Fault :=
| Serve
| Refuse (e : S3Error)            (** fails without effect *)
| Lose (e : S3Error)              (** takes effect; the reply is lost *)
| NoTag                           (** the response has no ETag *)
| Status (code : Z)               (** an unexpected status *)
| Length (n : option Z)           (** a wrong [Content-Length] *)
| Corrupt (body : string)         (** other bytes than those stored *)
| Answer (b : bool)
| Output (s : string)
| Received (ok : bool) (ws : Workspace)
| Packed (packs : list (string * string)).

Section machine.
Context {C : GitCrates}.

Definition is_pointer (key : string) : bool := starts_with "repos/" key.

Definition revision (w : World) (key : string) : Z :=
  match s3 w !! key with Some (_, v) => v + 1 | None => 0 end.

Definition store (key body : string) (by_request : Z) (w : World) : World :=
  {| s3 := <[key := (body, revision w key)]> (s3 w);
     cache := cache w;
     history := if is_pointer key then <[key := (body, by_request) :: log w key]> (history w)
                else history w;
     runs := runs w |}.

(** Whether a write under [cond] is refused. *)
Definition blocked (key : string) (cond : Precond) (w : World) : bool :=
  match cond, s3 w !! key with
  | IfNoneMatchStar, Some _ => true
  | IfNoneMatchStar, None => false
  | IfMatch t, Some (b, v) => negb (String.eqb t (etag_of b v))
  | IfMatch _, None => true
  end.
Definition exists_at (key : string) (w : World) : bool :=
  match s3 w !! key with Some _ => true | None => false end.

Definition success_status (n : Z) : bool := (200 <=? n) && (n <? 300).
Definition not_412 (e : S3Error) : bool :=
  match e with HttpFailWithBody c => negb (c =? 412) | S3Failure => true end.

Definition reach_all (oids : list string) : gset string := union_list (map reach oids).
(** An empty stream packs nothing. *)
Definition delivered (pack : string) : gset string :=
  match pack with EmptyString => ∅ | _ => pack_objects pack end.
Definition ref_oids (m : gmap string string) : list string := map snd (iter_refs m).

Definition newline : string := String (ascii_of_N 10) EmptyString.
(** [git for-each-ref --format='%(refname) %(objectname)'] *)
Definition listing (ws : Workspace) : string :=
  foldr (fun e s => fst e +:+ " " +:+ snd e +:+ newline +:+ s) EmptyString (iter_refs (ws_refs ws)).

Definition set_cache (c : gmap (Z * string) string) (w : World) : World :=
  {| s3 := s3 w; cache := c; history := history w; runs := runs w |}.
Definition add_run (before after : Workspace) (w : World) : World :=
  {| s3 := s3 w; cache := cache w; history := history w; runs := (before, after) :: runs w |}.

Definition respond_put (key body : string) (cond : Precond) (by_request : Z) (f : Fault) (w : World)
  : option (result (Z * option string) S3Error * World) :=
  let stop := blocked key cond w in
  let w' := store key body by_request w in
  if negb (occurs body) then None
  else match f with
  | Serve =>
      if stop then Some (Err (HttpFailWithBody (if exists_at key w then 412 else 404)), w)
      else Some (Ok (200, Some (etag_of body (revision w key))), w')
  | NoTag => if stop then None else Some (Ok (200, None), w')
  | Lose e => if stop then None else Some (Err e, w')
  | Refuse e => if not_412 e then Some (Err e, w) else None
  | Status n => if success_status n then None else Some (Ok (n, None), w)
  | _ => None
  end.

Definition git_respond (o : Op) (f : Fault) (w : World) : option (GitReply o * World) :=
  match o return option (GitReply o * World) with
  | HeadObject key =>
      match f with
      | Serve =>
          Some (match s3 w !! key with
                | Some (b, _) => Ok (Some (Z.of_nat (String.length b)), 200)
                | None => Err (HttpFailWithBody 404)
                end, w)
      | Length n => Some (Ok (n, 200), w)
      | Status n => Some (Ok (None, n), w)
      | Refuse e => Some (Err e, w)
      | _ => None
      end
  | GetObject key =>
      match f with
      | Serve =>
          Some (match s3 w !! key with
                | Some (b, v) => Ok (Some (etag_of b v), b)
                | None => Err (HttpFailWithBody 404)
                end, w)
      | NoTag => match s3 w !! key with Some (b, _) => Some (Ok (None, b), w) | None => None end
      | Corrupt b => if is_pointer key || negb (occurs b) then None else Some (Ok (None, b), w)
      | Refuse e => Some (Err e, w)
      | _ => None
      end
  | PutObject key body cond by_request => respond_put key body cond by_request f w
  | CacheLookup relay digest =>
      match f with
      | Serve => Some (cache w !! (relay, digest), w)
      | Answer false => Some (None, w)
      | _ => None
      end
  | CacheInsert relay digest body => Some (tt, set_cache (<[(relay, digest) := body]> (cache w)) w)
  | CacheRemove relay digest => Some (tt, set_cache (delete (relay, digest) (cache w)) w)
  | Local | Elapsed => match f with Answer b => Some (b, w) | _ => None end
  | ReceivePack ws =>
      match f with
      | Received ok ws' => Some (Ok (ok, ws'), if ok then add_run ws ws' w else w)
      | Refuse _ => Some (Err tt, w)
      | _ => None
      end
  | ForEachRef ws =>
      match f with
      | Serve => Some (Ok (listing ws), w)
      | Refuse _ => Some (Err tt, w)
      | _ => None
      end
  | SymbolicRef ws =>
      match f with
      | Serve => Some (Ok (if str_is_empty (ws_head ws) then None else Some (ws_head ws +:+ newline)), w)
      | Refuse _ => Some (Err tt, w)
      | _ => None
      end
  | PackObjects positive negative ws =>
      match f with
      | Output b =>
          if bool_decide (reach_all positive ∖ reach_all negative ⊆ delivered b)
          then Some (Ok b, w) else None
      | Refuse _ => Some (Err tt, w)
      | _ => None
      end
  | CountObjects ws =>
      match f with
      | Output s => Some (Ok s, w)
      | Refuse _ => Some (Err tt, w)
      | _ => None
      end
  | CompactPacks positive ws =>
      match f with
      | Packed l =>
          if bool_decide (reach_all positive ⊆ union_list (map (fun p => delivered (fst p)) l))
          then Some (Ok l, w) else None
      | Refuse _ => Some (Err tt, w)
      | _ => None
      end
  | IndexPack pack =>
      match f with
      | Output s => Some (Some s, w)
      | Refuse _ => Some (None, w)
      | _ => None
      end
  | InsertEvent tags => match f with Answer b => Some (b, w) | _ => None end
  end.

#[global] Instance git_machine : Machine Op World Fault :=
  {| Reply := GitReply; respond := git_respond |}.
End machine.

Section client.
Context {C : GitCrates}.

Definition canonical_bytes (m : Manifest) : string := manifest_to_vec (canonical_packs m).

Definition from_bytes (bytes : string) : result Manifest ManifestError :=
  match manifest_from_slice bytes with
  | Some m =>
      if version m =? MANIFEST_VERSION then Ok m
      else Err (UnsupportedVersion (version m) MANIFEST_VERSION)
  | None => Err Serde
  end.

(** Operations with the type of their reply. *)
Definition local_step : prog bool := perform Local.
Definition cache_lookup (relay : Z) (digest : string) : prog (option string) :=
  perform (CacheLookup relay digest).
Definition index_pack (pack : string) : prog (option string) := perform (IndexPack pack).
Definition for_each_ref (ws : Workspace) : prog (result string unit) := perform (ForEachRef ws).
Definition symbolic_ref (ws : Workspace) : prog (result (option string) unit) :=
  perform (SymbolicRef ws).
Definition pack_objects_git (positive negative : list string) (ws : Workspace)
  : prog (result string unit) := perform (PackObjects positive negative ws).
Definition count_objects (ws : Workspace) : prog (result string unit) := perform (CountObjects ws).
Definition compact_packs (positive : list string) (ws : Workspace)
  : prog (result (list (string * string)) unit) := perform (CompactPacks positive ws).
Definition receive_pack_git (ws : Workspace) : prog (result (bool * Workspace) unit) :=
  perform (ReceivePack ws).
Definition insert_event (tags : list (list string)) : prog bool := perform (InsertEvent tags).

(** * The store client ([store.rs]) *)

Inductive StoreError :=
| NotFound (key : string)
| ObjectTooLarge (key : string) (size max : Z)
| DigestMismatch (key expected actual : string)
| Backend (e : S3Error).

Inductive CasOutcome :=
| Won (etag : string)
| LostRace.

Definition content_key (prefix bytes : string) : string := prefix +:+ "/" +:+ sha256_hex bytes.

Definition idx_key_for_pack_digest (pack_digest : string) : result string StoreError :=
  if negb ((String.length pack_digest =? 64)%nat && str_all is_ascii_hexdigit pack_digest) then
    Err (Backend (HttpFailWithBody 400))
  else Ok ("idx/" +:+ pack_digest).

(** The reply to a create-only write: 412 says that the key is taken, hence by these bytes. *)
Definition put_done (key : string) (r : result (Z * option string) S3Error)
  : result string StoreError :=
  match r with
  | Ok (status, _) =>
      if success_status status then Ok key else Err (Backend (HttpFailWithBody status))
  | Err (HttpFailWithBody code as e) => if code =? 412 then Ok key else Err (Backend e)
  | Err e => Err (Backend e)
  end.

Definition put_immutable (by_request : Z) (prefix bytes : string)
  : prog (result string StoreError) :=
  let key := content_key prefix bytes in
  await r <- perform (PutObject key bytes IfNoneMatchStar by_request) ;;
  Ret (put_done key r).

Definition put_pack (by_request : Z) (bytes : string) : prog (result string StoreError) :=
  put_immutable by_request "packs" bytes.
Definition put_manifest (by_request : Z) (bytes : string) : prog (result string StoreError) :=
  put_immutable by_request "manifests" bytes.

Definition put_idx (by_request : Z) (pack_digest idx_bytes : string)
  : prog (result string StoreError) :=
  try? key := idx_key_for_pack_digest pack_digest in
  await r <- perform (PutObject key idx_bytes IfNoneMatchStar by_request) ;;
  Ret (put_done key r).

Definition get (key : string) : prog (result string StoreError) :=
  await r <- perform (GetObject key) ;;
  match r with
  | Ok (_, body) => Ret (Ok body)
  | Err (HttpFailWithBody code as e) =>
      if code =? 404 then Ret (Err (NotFound key)) else Ret (Err (Backend e))
  | Err e => Ret (Err (Backend e))
  end.

Definition check_digest (key expected bytes : string) : result string StoreError :=
  let actual := sha256_hex bytes in
  if negb (String.eqb actual expected) then Err (DigestMismatch key expected actual) else Ok bytes.

Definition get_verified (key expected_digest : string) : prog (result string StoreError) :=
  await? bytes <- get key ;;
  Ret (check_digest key expected_digest bytes).

Definition get_limited (key : string) (max_bytes : Z) : prog (result string StoreError) :=
  await r <- perform (HeadObject key) ;;
  match r with
  | Err (HttpFailWithBody code as e) =>
      if code =? 404 then Ret (Err (NotFound key)) else Ret (Err (Backend e))
  | Err e => Ret (Err (Backend e))
  | Ok (content_length, status) =>
      if status =? 404 then Ret (Err (NotFound key))
      else if negb (success_status status) then Ret (Err (Backend (HttpFailWithBody status)))
      else
        (* [u64::try_from(content_length).unwrap_or(u64::MAX)]; no header, no check *)
        let size := match content_length with
                    | Some n => if n <? 0 then U64_MAX else n
                    | None => 0
                    end in
        if max_bytes <? size then Ret (Err (ObjectTooLarge key size max_bytes))
        else
          await? bytes <- get key ;;
          let size := Z.of_nat (String.length bytes) in
          if max_bytes <? size then Ret (Err (ObjectTooLarge key size max_bytes))
          else Ret (Ok bytes)
  end.

Definition get_verified_limited (key expected_digest : string) (max_bytes : Z)
  : prog (result string StoreError) :=
  await? bytes <- get_limited key max_bytes ;;
  Ret (check_digest key expected_digest bytes).

Definition get_idx (pack_digest : string) (max_bytes : Z) : prog (result (option string) StoreError) :=
  try? key := idx_key_for_pack_digest pack_digest in
  await r <- get_limited key max_bytes ;;
  match r with
  | Ok bytes => Ret (Ok (Some bytes))
  | Err (NotFound _) => Ret (Ok None)
  | Err e => Ret (Err e)
  end.

Definition get_pointer (key : string) : prog (result (option (string * string)) StoreError) :=
  await r <- perform (GetObject key) ;;
  match r with
  | Ok (Some etag, body) => Ret (Ok (Some (etag, body)))
  | Ok (None, _) => Ret (Err (Backend (HttpFailWithBody 500)))
  | Err (HttpFailWithBody code as e) =>
      if code =? 404 then Ret (Ok None) else Ret (Err (Backend e))
  | Err e => Ret (Err (Backend e))
  end.

Definition classify_cas (r : result (Z * option string) S3Error) : result CasOutcome StoreError :=
  match r with
  | Ok (status, etag) =>
      if success_status status then
        match etag with
        | Some etag => Ok (Won etag)
        | None => Err (Backend (HttpFailWithBody status))
        end
      else Err (Backend (HttpFailWithBody status))
  | Err (HttpFailWithBody code as e) => if code =? 412 then Ok LostRace else Err (Backend e)
  | Err e => Err (Backend e)
  end.

(** [HeaderValue::from_str] *)
Definition header_value_ok (s : string) : bool :=
  str_all (fun c => in_range 9 9 c || in_range 32 126 c) s.

Definition put_pointer (by_request : Z) (key body : string) (precond : Precond)
  : prog (result CasOutcome StoreError) :=
  let header := match precond with IfNoneMatchStar => "*" | IfMatch tag => tag end in
  if negb (header_value_ok header) then Ret (Err (Backend (HttpFailWithBody 400)))
  else
    await r <- perform (PutObject key body precond by_request) ;;
    Ret (classify_cas r).
End client.
