(* ===== verification/GitPublish.v ===== *)
(** Publishing and reading git repositories from the object store: hydration
    ([crates/buzz-relay/src/api/git/hydrate.rs], with the pack cache of [pack_cache.rs]), the
    compare-and-swap of a push ([cas_publish.rs]), the fence around it ([finalize_push] in
    [transport.rs]), and the seeding of a new repository's pointer
    ([crates/buzz-relay/src/handlers/side_effects.rs]).

    Requests of any number of relays run as tasks over one bucket, interleaved at every
    operation.  Messages inside errors, metrics and logs are left out. *)
From S2P Require Import Prelude Text Programs GitStore.
Local Open Scope string_scope.
Local Open Scope list_scope.
Local Open Scope Z_scope.
Local Open Scope buzz_scope.

Definition MAX_MANIFEST_BYTES : Z := 4 * 1024 * 1024.
Definition MAX_REF_SNAPSHOT_BYTES : Z := 4 * 1024 * 1024.
Definition MAX_COMPACTION_OBJECTS : Z := 1000000.
Definition MAX_COUNT_OBJECTS_OUTPUT_BYTES : Z := 64 * 1024.
Definition DEFAULT_HEAD : string := "refs/heads/main".

Inductive HydrateError :=
| InvalidPointer
| HManifest (e : ManifestError)
| HStore (e : StoreError)
| Hydrate
| HResourceLimit.

Inductive CasError :=
| Conflict (winner_manifest : Manifest) (winner_manifest_key : string)
| ManifestReadFailed
| ManifestInvalid (e : ManifestError)
| CasBackend (e : StoreError)
| PackCapture
| ResourceLimit.

Record ParentState := {
  if_match : option string;
  parent_digest : option string;
  ps_parent : Manifest;
}.
Definition fresh : ParentState :=
  {| if_match := None; parent_digest := None;
     ps_parent := {| version := MANIFEST_VERSION; head := ""; refs := ∅; packs := []; parent := None |} |}.
Definition from_loaded (etag digest : string) (parent : Manifest) : ParentState :=
  {| if_match := Some etag; parent_digest := Some digest; ps_parent := parent |}.

Record HydratedRepo := {
  workspace : Workspace;
  hydrated_bytes : Z;
  hydrated_packs : Z;
}.

Record HydrationOptions := {
  pack_cache : Z;            (** the relay whose cache it is *)
  ho_max_pack_bytes : Z;
  ho_max_repo_bytes : Z;
}.

Record PublishLimits := {
  parent_hydrated_bytes : Z;
  max_pack_bytes : Z;
  max_repo_bytes : Z;
}.

Record CasSuccess := {
  cs_manifest : Manifest;
  cs_manifest_key : string;
}.

(** [u64::checked_add] *)
Definition checked_add (a b : Z) : option Z := if a + b <=? U64_MAX then Some (a + b) else None.

Section host.
Context {C : GitCrates}.

(** A step on local files that may fail. *)
Definition local {E : Type} (e : E) : prog (result unit E) :=
  await ok <- local_step ;; Ret (if ok then Ok tt else Err e).

(** [tokio::time::timeout(deadline, p)]: [p] is dropped at the first operation whose reply
    comes after the deadline. *)
Fixpoint timeout {A : Type} (p : prog A) : prog (option A) :=
  match p with
  | Ret a => Ret (Some a)
  | Call o k =>
      Call o (fun r => Call (M := git_machine) Elapsed (fun late : bool => if late then Ret None else timeout (k r)))
  end.

(** * Hydration ([hydrate.rs]) *)

(** The digest a pointer's body names. *)
Definition pointer_digest (body : string) : option string :=
  if negb (is_utf8 body) then None
  else
    let digest := trim body in
    if negb ((String.length digest =? 64)%nat && str_all is_ascii_hexdigit digest) then None
    else Some digest.

Definition hydrate_store_error (e : StoreError) : HydrateError :=
  match e with ObjectTooLarge _ _ _ => HResourceLimit | _ => HStore e end.

Definition hydrate_get_verified (key digest : string) (max_bytes : Z)
  : prog (result string HydrateError) :=
  prog_map_err hydrate_store_error (get_verified_limited key digest max_bytes).

Definition load_pointer (community owner repo : string)
  : prog (result (option (string * string * Manifest)) HydrateError) :=
  let pkey := pointer_key community owner repo in
  await? pointer <- prog_map_err HStore (get_pointer pkey) ;;
  match pointer with
  | None => Ret (Ok None)
  | Some (etag, pointer_bytes) =>
      match pointer_digest pointer_bytes with
      | None => Ret (Err InvalidPointer)
      | Some digest =>
          await? manifest_bytes <-
            hydrate_get_verified ("manifests/" +:+ digest) digest MAX_MANIFEST_BYTES ;;
          try? manifest := map_err HManifest (from_bytes manifest_bytes) in
          try? _ := map_err HManifest (validate manifest) in
          Ret (Ok (Some (etag, digest, manifest)))
      end
  end.

(** [git init --bare] and [git symbolic-ref HEAD refs/heads/main]. *)
Definition bare_workspace : Workspace :=
  {| ws_refs := ∅; ws_head := "refs/heads/main"; ws_objects := ∅ |}.
Definition init_bare_repo : prog (result Workspace HydrateError) :=
  await? _ <- local Hydrate ;;
  await? _ <- local Hydrate ;;
  Ret (Ok bare_workspace).

(** The index of a pack: the sidecar if it verifies, else generated; its length is [Output]'s. *)
Definition install_or_generate_idx (digest pack : string) (max_idx_bytes : Z)
  : prog (result unit HydrateError) :=
  await sidecar <- get_idx digest max_idx_bytes ;;
  let generate :=
    await idx <- index_pack pack ;;
    match idx with
    | None => Ret (Err Hydrate)
    | Some idx =>
        if max_idx_bytes <? Z.of_nat (String.length idx) then Ret (Err HResourceLimit)
        else Ret (Ok tt)
    end in
  match sidecar with
  | Ok (Some _) =>
      await? _ <- local Hydrate ;;
      await verified <- local_step ;;
      if verified then Ret (Ok tt) else generate
  | _ => generate
  end.

(** [GitPackCache::populate]; the disk of a relay's cache holds each pack under its digest. *)
Definition populate (relay : Z) (object_key digest : string) (max_pack_bytes : Z)
  : prog (result string HydrateError) :=
  await? _ <- local Hydrate ;;
  await? bytes <- hydrate_get_verified object_key digest max_pack_bytes ;;
  await? _ <- local Hydrate ;;
  await? _ <- install_or_generate_idx digest bytes max_pack_bytes ;;
  await? _ <- local Hydrate ;;
  await bypass <- local_step ;;
  if bypass then Ret (Ok bytes)
  else
    await? _ <- local Hydrate ;;
    await _ <- perform (CacheInsert relay digest bytes) ;;
    Ret (Ok bytes).

(** [GitPackCache::materialize_pack], with the pack it links into the workspace.  The flight
    that lets concurrent misses share one population only delays; what another request
    populated meanwhile is found by the second lookup. *)
Definition materialize_pack (relay : Z) (object_key digest : string) (max_pack_bytes : Z)
  : prog (result string HydrateError) :=
  if negb ((String.length digest =? 64)%nat && str_all is_ascii_hexdigit digest) then
    Ret (Err Hydrate)
  else
    let fetch :=
      await entry <- cache_lookup relay digest ;;
      match entry with
      | Some bytes =>
          await? _ <- local Hydrate ;;
          Ret (Ok bytes)
      | None =>
          await? bytes <- populate relay object_key digest max_pack_bytes ;;
          await? _ <- local Hydrate ;;
          Ret (Ok bytes)
      end in
    await entry <- cache_lookup relay digest ;;
    match entry with
    | Some bytes =>
        await installed <- local_step ;;
        if installed then Ret (Ok bytes)
        else
          await _ <- perform (CacheRemove relay digest) ;;
          fetch
    | None => fetch
    end.

(** Phase 1: the objects and the bytes of the packs. *)
Fixpoint materialize_packs (options : HydrationOptions) (keys : list string)
    (objects : gset string) (bytes : Z) : prog (result (gset string * Z) HydrateError) :=
  match keys with
  | [] => Ret (Ok (objects, bytes))
  | key :: keys' =>
      match strip_prefix "packs/" key with
      | None => Ret (Err Hydrate)
      | Some digest =>
          await? pack <- materialize_pack (pack_cache options) key digest (ho_max_pack_bytes options) ;;
          let pack_bytes := Z.of_nat (String.length pack) in
          if ho_max_pack_bytes options <? pack_bytes then Ret (Err HResourceLimit)
          else match checked_add bytes pack_bytes with
          | None => Ret (Err HResourceLimit)
          | Some bytes =>
              if ho_max_repo_bytes options <? bytes then Ret (Err HResourceLimit)
              else materialize_packs options keys' (objects ∪ delivered pack) bytes
          end
      end
  end.

(** Phase 2: the refs, in the order of the map. *)
Fixpoint install_refs (l : list (string * string)) : prog (result unit HydrateError) :=
  match l with
  | [] => Ret (Ok tt)
  | (refname, oid) :: l' =>
      if negb (is_safe_refname refname) then Ret (Err Hydrate)
      else if negb (is_hex_oid oid) then Ret (Err Hydrate)
      else
        await? _ <- local Hydrate ;;
        await? _ <- local Hydrate ;;
        install_refs l'
  end.

Definition materialize_manifest (manifest : Manifest) (options : HydrationOptions)
  : prog (result HydratedRepo HydrateError) :=
  await? _ <- local Hydrate ;;
  await? _ <- init_bare_repo ;;
  await? packed <- materialize_packs options (packs manifest) ∅ 0 ;;
  let (objects, bytes) := packed : gset string * Z in
  await? _ <- install_refs (iter_refs (refs manifest)) ;;
  if negb (is_safe_refname (head manifest)) then Ret (Err Hydrate)
  else
    await? _ <- local Hydrate ;;
    Ret (Ok {| workspace :=
                 {| ws_refs := refs manifest; ws_head := head manifest; ws_objects := objects |};
               hydrated_bytes := bytes;
               hydrated_packs := Z.of_nat (length (packs manifest)) |}).

Definition hydrate_for_read (community owner repo : string) (options : HydrationOptions)
  : prog (result (option HydratedRepo) HydrateError) :=
  await? loaded <- load_pointer community owner repo ;;
  match loaded with
  | None => Ret (Ok None)
  | Some (_, _, manifest) =>
      await? hydrated <- materialize_manifest manifest options ;;
      Ret (Ok (Some hydrated))
  end.

Definition hydrate_for_write (community owner repo : string) (options : HydrationOptions)
  : prog (result (HydratedRepo * ParentState) HydrateError) :=
  await? loaded <- load_pointer community owner repo ;;
  match loaded with
  | Some (etag, digest, manifest) =>
      await? hydrated <- materialize_manifest manifest options ;;
      Ret (Ok (hydrated, from_loaded etag digest manifest))
  | None =>
      await? _ <- local Hydrate ;;
      await? ws <- init_bare_repo ;;
      Ret (Ok ({| workspace := ws; hydrated_bytes := 0; hydrated_packs := 0 |}, fresh))
  end.

(** * The commit of a push ([cas_publish.rs]) *)

Fixpoint parse_refs (lines : list string) (acc : gmap string string)
  : result (gmap string string) CasError :=
  match lines with
  | [] => Ok acc
  | line :: lines' =>
      match split_once " " line with
      | None => parse_refs lines' acc
      | Some (name, oid) =>
          if negb ((String.length oid =? 40)%nat && str_all is_ascii_hexdigit oid) then
            parse_refs lines' acc
          else if (MAX_MANIFEST_REFS <=? Z.of_nat (size acc)) && bool_decide (acc !! name = None) then
            Err ResourceLimit
          else parse_refs lines' (<[name := oid]> acc)
      end
  end.

Definition snapshot_refs (stdout : string) : result (gmap string string) CasError :=
  parse_refs (str_lines (if is_utf8 stdout then stdout else "")) ∅.

Definition snapshot_workspace_state (ws : Workspace)
  : prog (result (gmap string string * string) CasError) :=
  await? _ <- local PackCapture ;;
  await? stdout <- prog_map_err (fun _ => PackCapture) (for_each_ref ws) ;;
  await? _ <- local PackCapture ;;
  if MAX_REF_SNAPSHOT_BYTES <? Z.of_nat (String.length stdout) then Ret (Err ResourceLimit)
  else
    await? _ <- local PackCapture ;;
    try? refs := snapshot_refs stdout in
    await? target <- prog_map_err (fun _ => PackCapture) (symbolic_ref ws) ;;
    Ret (Ok (refs, match target with Some s => trim s | None => "" end)).

Definition resolve_published_head (refs : gmap string string) (observed_head parent_head : string)
  : string :=
  let has name := match refs !! name with Some _ => true | None => false end in
  let is_published_branch name := starts_with "refs/heads/" name && has name in
  if is_published_branch observed_head then observed_head
  else if is_published_branch parent_head then parent_head
  else if has "refs/heads/main" then "refs/heads/main"
  else if has "refs/heads/master" then "refs/heads/master"
  else match List.find (fun e => starts_with "refs/heads/" (fst e)) (iter_refs refs) with
  | Some (branch, _) => branch
  | None => if str_is_empty observed_head then parent_head else observed_head
  end.

Definition digest_from_pack_key (key : string) : result string CasError :=
  match strip_prefix "packs/" key with
  | Some digest =>
      if (String.length digest =? 64)%nat && str_all is_ascii_hexdigit digest then Ok digest
      else Err (CasBackend (Backend (HttpFailWithBody 500)))
  | None => Err (CasBackend (Backend (HttpFailWithBody 500)))
  end.

Definition write_idx_sidecar (by_request : Z) (pack_key pack_bytes : string)
  : prog (result unit CasError) :=
  try? pack_digest := digest_from_pack_key pack_key in
  await? _ <- local PackCapture ;;
  await idx <- index_pack pack_bytes ;;
  match idx with
  | None => Ret (Err PackCapture)
  | Some idx_bytes =>
      await? _ <- prog_map_err CasBackend (put_idx by_request pack_digest idx_bytes) ;;
      Ret (Ok tt)
  end.

Definition capture_pack (ws : Workspace) (refs_before refs_after : gmap string string)
    (max_pack_bytes : Z) : prog (result (option string) CasError) :=
  match ref_oids refs_after with
  | [] => Ret (Ok None)
  | positive =>
      await? _ <- local PackCapture ;;
      await? pack <-
        prog_map_err (fun _ => PackCapture) (pack_objects_git positive (ref_oids refs_before) ws) ;;
      let pack_len := Z.of_nat (String.length pack) in
      if max_pack_bytes <? pack_len then Ret (Err ResourceLimit)
      else if pack_len =? 0 then Ret (Ok None)
      else
        await? _ <- local PackCapture ;;
        Ret (Ok (Some pack))
  end.

Definition should_compact (parent_pack_count threshold : Z) : bool := threshold <=? parent_pack_count.

Definition compacted_pack_set_is_usable (parent_pack_count compacted_pack_count : Z) : bool :=
  (compacted_pack_count <? parent_pack_count)
  || ((MAX_MANIFEST_PACKS <=? parent_pack_count) && (compacted_pack_count <=? MAX_MANIFEST_PACKS)).

(** The count on the first line that starts with [name]. *)
Fixpoint parse_count (name : string) (lines : list string) : result Z CasError :=
  match lines with
  | [] => Err PackCapture
  | line :: lines' =>
      match strip_prefix name line with
      | Some value => match parse_u64 (trim value) with Some n => Ok n | None => Err PackCapture end
      | None => parse_count name lines'
      end
  end.

Definition enforce_compaction_object_limit (ws : Workspace) : prog (result unit CasError) :=
  await? _ <- local PackCapture ;;
  await? output <- prog_map_err (fun _ => PackCapture) (count_objects ws) ;;
  if MAX_COUNT_OBJECTS_OUTPUT_BYTES <? Z.of_nat (String.length output) then Ret (Err ResourceLimit)
  else
    await? _ <- local PackCapture ;;
    try? loose := parse_count "count:" (str_lines output) in
    try? packed := parse_count "in-pack:" (str_lines output) in
    match checked_add loose packed with
    | None => Ret (Err ResourceLimit)
    | Some object_count =>
        if MAX_COMPACTION_OBJECTS <? object_count then Ret (Err ResourceLimit) else Ret (Ok tt)
    end.

(** The sizes of the packs and indexes written, summed. *)
Fixpoint check_compacted (limits : PublishLimits) (l : list (string * string)) (total : Z)
  : result Z CasError :=
  match l with
  | [] => Ok total
  | (pack, idx) :: l' =>
      let pack_bytes := Z.of_nat (String.length pack) in
      if max_pack_bytes limits <? pack_bytes then Err ResourceLimit
      else match checked_add total pack_bytes with
      | None => Err ResourceLimit
      | Some total =>
          if max_repo_bytes limits <? total then Err ResourceLimit
          else if max_pack_bytes limits <? Z.of_nat (String.length idx) then Err ResourceLimit
          else check_compacted limits l' total
      end
  end.

Definition capture_compacted_packs (ws : Workspace) (refs_after : gmap string string)
    (limits : PublishLimits) : prog (result (list (string * string) * Z) CasError) :=
  await? _ <- local PackCapture ;;
  match ref_oids refs_after with
  | [] => Ret (Ok ([], 0))
  | oids =>
      await? _ <- enforce_compaction_object_limit ws ;;
      await? _ <- local PackCapture ;;
      await? compacted <-
        prog_map_err (fun _ => PackCapture) (compact_packs (rev (remove_dups (rev oids))) ws) ;;
      if MAX_MANIFEST_PACKS <? Z.of_nat (length compacted) then Ret (Err ResourceLimit)
      else
        await? _ <- local PackCapture ;;
        try? total_pack_bytes := check_compacted limits compacted 0 in
        Ret (Ok (compacted, total_pack_bytes))
  end.

Fixpoint upload_packs (by_request : Z) (compacted : list (string * string)) (keys : list string)
  : prog (result (list string) CasError) :=
  match compacted with
  | [] => Ret (Ok (dedup (sort_strings keys)))
  | (pack_bytes, idx_bytes) :: compacted' =>
      await? _ <- local PackCapture ;;
      await? pack_key <- prog_map_err CasBackend (put_pack by_request pack_bytes) ;;
      try? pack_digest := digest_from_pack_key pack_key in
      await readable <- local_step ;;
      await _ <- (if readable then put_idx by_request pack_digest idx_bytes else Ret (Ok "")) ;;
      upload_packs by_request compacted' (keys ++ [pack_key])
  end.
Definition upload_compacted_packs (by_request : Z) (compacted : list (string * string))
  : prog (result (list string) CasError) :=
  upload_packs by_request compacted [].

Definition prepare_compaction (by_request : Z) (ws : Workspace) (refs_after : gmap string string)
    (limits : PublishLimits) (packs_before : Z) : prog (result (list string) CasError) :=
  await? captured <- capture_compacted_packs ws refs_after limits ;;
  let (compacted, _) := captured : list (string * string) * Z in
  if negb (compacted_pack_set_is_usable packs_before (Z.of_nat (length compacted))) then
    Ret (Err ResourceLimit)
  else upload_compacted_packs by_request compacted.

Definition compose_after (parent : Manifest) (parent_digest : option string) (head : string)
    (refs : gmap string string) (new_pack_key : option string) : Manifest :=
  let packs :=
    match new_pack_key with
    | Some k => if existsb (String.eqb k) (packs parent) then packs parent else packs parent ++ [k]
    | None => packs parent
    end in
  {| version := MANIFEST_VERSION; head := head; refs := refs;
     packs := dedup (sort_strings packs); parent := parent_digest |}.

Definition compose_compacted_after (parent_digest : option string) (head : string)
    (refs : gmap string string) (compacted_pack_keys : list string) : Manifest :=
  {| version := MANIFEST_VERSION; head := head; refs := refs;
     packs := dedup (sort_strings compacted_pack_keys); parent := parent_digest |}.

Definition digest_from_manifest_key (key : string) : result string CasError :=
  match strip_prefix "manifests/" key with
  | Some digest => Ok digest
  | None => Err (CasBackend (Backend (HttpFailWithBody 500)))
  end.

Definition winner_store_error (e : StoreError) : CasError :=
  match e with
  | DigestMismatch _ _ _ | NotFound _ => ManifestReadFailed
  | other => CasBackend other
  end.

Definition read_winner_after_conflict (pkey : string)
  : prog (result (Manifest * string) CasError) :=
  await? pointer <- prog_map_err CasBackend (get_pointer pkey) ;;
  match pointer with
  | None => Ret (Err ManifestReadFailed)
  | Some (_, body) =>
      match pointer_digest body with
      | None => Ret (Err ManifestReadFailed)
      | Some digest =>
          let manifest_key := "manifests/" +:+ digest in
          await? bytes <- prog_map_err winner_store_error (get_verified manifest_key digest) ;;
          try? winner := map_err (fun _ => ManifestReadFailed) (from_bytes bytes) in
          Ret (Ok (winner, manifest_key))
      end
  end.

(** Steps 1 to 5 without compaction: a delta pack on top of the parent's. *)
Definition publish_delta (by_request : Z) (ws : Workspace) (parent_state : ParentState)
    (limits : PublishLimits) (compaction_failure : option CasError) (packs_before : Z)
    (refs_after : gmap string string) (head : string) : prog (result Manifest CasError) :=
  await? pack_bytes <- capture_pack ws (refs (ps_parent parent_state)) refs_after (max_pack_bytes limits) ;;
  match pack_bytes with
  | None => Ret (Ok (compose_after (ps_parent parent_state) (parent_digest parent_state) head refs_after None))
  | Some bytes =>
      if MAX_MANIFEST_PACKS <=? packs_before then
        Ret (Err (match compaction_failure with Some e => e | None => ResourceLimit end))
      else match checked_add (parent_hydrated_bytes limits) (Z.of_nat (String.length bytes)) with
      | None => Ret (Err ResourceLimit)
      | Some total_bytes =>
          if max_repo_bytes limits <? total_bytes then Ret (Err ResourceLimit)
          else
            await? pack_key <- prog_map_err CasBackend (put_pack by_request bytes) ;;
            await _ <- write_idx_sidecar by_request pack_key bytes ;;
            Ret (Ok (compose_after (ps_parent parent_state) (parent_digest parent_state) head
                       refs_after (Some pack_key)))
      end
  end.

(** The attempt to replace the parent's packs: what it prepared, or why not. *)
Definition try_compaction (by_request : Z) (ws : Workspace) (refs_after : gmap string string)
    (limits : PublishLimits) (packs_before : Z) : prog (result (list string) CasError) :=
  await permit <- local_step ;;
  if permit then
    await prepared <- timeout (prepare_compaction by_request ws refs_after limits packs_before) ;;
    match prepared with
    | Some r => Ret r
    | None => Ret (Err PackCapture)
    end
  else Ret (Err PackCapture).

(** The manifest a push publishes, before it is validated. *)
Definition compose_manifest (by_request : Z) (ws : Workspace) (parent_state : ParentState)
    (limits : PublishLimits) (compaction_threshold : Z) : prog (result Manifest CasError) :=
  await? snapshot <- snapshot_workspace_state ws ;;
  let (refs_after, head_observed) := snapshot : gmap string string * string in
  let head := resolve_published_head refs_after head_observed (GitStore.head (ps_parent parent_state)) in
  let packs_before := Z.of_nat (length (packs (ps_parent parent_state))) in
  if should_compact packs_before compaction_threshold then
    await prepared <- try_compaction by_request ws refs_after limits packs_before ;;
    match prepared with
    | Ok pack_keys =>
        Ret (Ok (compose_compacted_after (parent_digest parent_state) head refs_after pack_keys))
    | Err e => publish_delta by_request ws parent_state limits (Some e) packs_before refs_after head
    end
  else publish_delta by_request ws parent_state limits None packs_before refs_after head.

Definition cas_publish_inner (by_request : Z) (community : string) (ws : Workspace)
    (owner repo : string) (parent_state : ParentState) (limits : PublishLimits)
    (compaction_threshold : Z) : prog (result CasSuccess CasError) :=
  let pkey := pointer_key community owner repo in
  await? m_after <- compose_manifest by_request ws parent_state limits compaction_threshold ;;
  try? _ := map_err ManifestInvalid (validate m_after) in
  let manifest_bytes := canonical_bytes m_after in
  await? manifest_key <- prog_map_err CasBackend (put_manifest by_request manifest_bytes) ;;
  try? manifest_digest := digest_from_manifest_key manifest_key in
  let precond := match if_match parent_state with Some e => IfMatch e | None => IfNoneMatchStar end in
  await? cas_outcome <-
    prog_map_err CasBackend (put_pointer by_request pkey manifest_digest precond) ;;
  match cas_outcome with
  | Won _ => Ret (Ok {| cs_manifest := m_after; cs_manifest_key := manifest_key |})
  | LostRace =>
      await? winner <- read_winner_after_conflict pkey ;;
      Ret (Err (Conflict (fst winner) (snd winner)))
  end.

Definition cas_publish (by_request : Z) (community : string) (ws : Workspace)
    (owner repo : string) (parent_state : ParentState) (limits : PublishLimits)
  : prog (result CasSuccess CasError) :=
  cas_publish_inner by_request community ws owner repo parent_state limits PACK_COMPACTION_THRESHOLD.

(** * The ref-state event ([manifest_event.rs]) *)

Definition is_emittable_ref (name : string) : bool :=
  if negb (starts_with "refs/heads/" name || starts_with "refs/tags/" name) then false
  else if starts_with "/" name || contains "//" name then false
  else str_all (fun c => is_ascii_alphanumeric c
                         || Ascii.eqb c "/" || Ascii.eqb c "_" || Ascii.eqb c "." || Ascii.eqb c "-") name.

(** The tags of kind 30618. *)
Definition ref_state_tags (repo_id head : string) (refs : gmap string string) (actor : string)
  : list (list string) :=
  [["d"; repo_id]]
  ++ map (fun e => [fst e; snd e])
       (List.filter (fun e => is_emittable_ref (fst e) && is_hex_oid (snd e)) (iter_refs refs))
  ++ (if negb (str_is_empty head) && is_emittable_ref head then [["HEAD"; "ref: " +:+ head]] else [])
  ++ [["p"; actor]].

(** * Requests ([transport.rs], [side_effects.rs]) *)

Record PushRequest := {
  push_id : Z;
  p_community : string;
  p_owner : string;
  p_repo : string;
  p_repo_id : string;
  p_pusher : string;
  p_options : HydrationOptions;
}.

(** The answer to a push: success with what it was derived from and what it published, git's
    own rejection, or an HTTP status. *)
Inductive PushResponse :=
| Accepted (parent_state : ParentState) (after : Workspace) (success : CasSuccess)
| RejectedByGit
| Failed (status : Z).

Definition cas_error_status (e : CasError) : Z :=
  match e with
  | Conflict _ _ => 409
  | ManifestInvalid _ => 400
  | ResourceLimit => 413
  | ManifestReadFailed | CasBackend _ | PackCapture => 500
  end.

(** [hydrate_error_to_response] *)
Definition hydrate_error_status (e : HydrateError) : Z :=
  match e with HResourceLimit => 413 | _ => 500 end.

Definition manifest_changed (before : option string) (manifest_key : string) : bool :=
  match before, strip_prefix "manifests/" manifest_key with
  | Some before, Some after => negb (String.eqb before after)
  | _, _ => true
  end.

Definition finalize_push (q : PushRequest) (pack_ok : bool) (ws : Workspace)
    (hydrated : HydratedRepo) (parent_state : ParentState) : prog PushResponse :=
  if negb pack_ok then Ret RejectedByGit
  else
    await published <-
      cas_publish (push_id q) (p_community q) ws (p_owner q) (p_repo q) parent_state
        {| parent_hydrated_bytes := hydrated_bytes hydrated;
           max_pack_bytes := ho_max_pack_bytes (p_options q);
           max_repo_bytes := ho_max_repo_bytes (p_options q) |} ;;
    match published with
    | Err e => Ret (Failed (cas_error_status e))
    | Ok success =>
        if manifest_changed (parent_digest parent_state) (cs_manifest_key success) then
          let tags := ref_state_tags (p_repo_id q) (head (cs_manifest success))
                        (refs (cs_manifest success)) (p_pusher q) in
          await _ <- insert_event tags ;;
          Ret (Accepted parent_state ws success)
        else Ret (Accepted parent_state ws success)
    end.

Definition receive_pack (q : PushRequest) : prog PushResponse :=
  await hydrated <- hydrate_for_write (p_community q) (p_owner q) (p_repo q) (p_options q) ;;
  match hydrated with
  | Err e => Ret (Failed (hydrate_error_status e))
  | Ok (repo, parent_state) =>
      await hook <- local_step ;;
      if negb hook then Ret (Failed 500)
      else
        await pack <- receive_pack_git (workspace repo) ;;
        match pack with
        | Err _ => Ret (Failed 500)
        | Ok (pack_ok, ws) => finalize_push q pack_ok ws repo parent_state
        end
  end.

(** The empty manifest of a repository that was only announced. *)
Definition empty_manifest : Manifest :=
  {| version := MANIFEST_VERSION; head := DEFAULT_HEAD; refs := ∅; packs := []; parent := None |}.

Definition seed_manifest_pointer (by_request : Z) (community owner repo : string)
  : prog (result unit unit) :=
  try? _ := map_err (fun _ => tt) (validate empty_manifest) in
  let bytes := canonical_bytes empty_manifest in
  await? manifest_key <- prog_map_err (fun _ => tt) (put_manifest by_request bytes) ;;
  try? digest := map_err (fun _ => tt) (digest_from_manifest_key manifest_key) in
  let pkey := pointer_key community owner repo in
  await? outcome <- prog_map_err (fun _ => tt) (put_pointer by_request pkey digest IfNoneMatchStar) ;;
  match outcome with
  | Won _ => Ret (Ok tt)
  | LostRace =>
      await? pointer <- prog_map_err (fun _ => tt) (get_pointer pkey) ;;
      match pointer with
      | None => Ret (Err tt)
      | Some (_, body) =>
          if negb (is_utf8 body) then Ret (Err tt)
          else if negb (String.eqb (trim body) digest) then Ret (Err tt)
          else Ret (Ok tt)
      end
  end.

Definition ensure_manifest_pointer (by_request : Z) (community owner repo : string)
  : prog (result unit unit) :=
  await? existing <- prog_map_err (fun _ => tt) (get_pointer (pointer_key community owner repo)) ;;
  match existing with
  | Some _ => Ret (Ok tt)
  | None => seed_manifest_pointer by_request community owner repo
  end.

Inductive GitRequest :=
| Push (q : PushRequest)
| Read (community owner repo : string) (options : HydrationOptions)
| Announce (by_request : Z) (community owner repo : string)
| ReAnnounce (by_request : Z) (community owner repo : string)
| Prune (relay : Z) (digest : string).

Inductive GitResponse :=
| Pushed (r : PushResponse)
| ReadDone (r : result (option HydratedRepo) HydrateError)
| Announced (r : result unit unit)
| Pruned.

Definition handle (q : GitRequest) : prog GitResponse :=
  match q with
  | Push q => await r <- receive_pack q ;; Ret (Pushed r)
  | Read community owner repo options =>
      await r <- hydrate_for_read community owner repo options ;; Ret (ReadDone r)
  | Announce id community owner repo =>
      await r <- seed_manifest_pointer id community owner repo ;; Ret (Announced r)
  | ReAnnounce id community owner repo =>
      await r <- ensure_manifest_pointer id community owner repo ;; Ret (Announced r)
  | Prune relay digest => await _ <- perform (CacheRemove relay digest) ;; Ret Pruned
  end.

End host.
