(* ===== verification/GitHistory.v ===== *)
(** What publishing guarantees: the states published for a repository form one line, an
    accepted push stands in it right after the state it was derived from, and what is
    published can be read back completely.

    The programs of [GitPublish] are proved in the rely-guarantee logic of [Programs]: [inv]
    is the invariant of the bucket and the caches, [evolves] what every operation of every
    task respects. *)
From S2P Require Import Prelude Text Programs GitStore GitPublish.
Local Open Scope string_scope.
Local Open Scope list_scope.
Local Open Scope Z_scope.
Local Open Scope buzz_scope.

Section history.
Context {C : GitCrates} {L : GitLaws C}.

(** * Lemmas on manifests and keys *)

Lemma validate_refs_Ok l :
  validate_refs l = Ok tt <->
  Forall (fun e => is_safe_refname (fst e) = true /\ is_hex_oid (snd e) = true) l.
Proof.
  induction l as [|[n o] l IH]; simpl; [by split|]. rewrite Forall_cons. simpl.
  destruct (is_safe_refname n), (is_hex_oid o); simpl; rewrite ?IH; naive_solver.
Qed.

Lemma validate_packs_Ok l :
  validate_packs l = Ok tt <-> Forall (fun p => is_pack_key p = true) l.
Proof.
  induction l as [|p l IH]; simpl; [by split|]. rewrite Forall_cons.
  destruct (is_pack_key p); rewrite ?IH; naive_solver.
Qed.

(** What [validate] checks. *)
Record valid (m : Manifest) : Prop := {
  valid_pack_count : Z.of_nat (length (packs m)) <= MAX_MANIFEST_PACKS;
  valid_ref_count : Z.of_nat (size (refs m)) <= MAX_MANIFEST_REFS;
  valid_head : is_safe_refname (head m) = true;
  valid_refs : Forall (fun e => is_safe_refname (fst e) = true /\ is_hex_oid (snd e) = true)
                 (iter_refs (refs m));
  valid_packs : Forall (fun p => is_pack_key p = true) (packs m);
  valid_parent : forall p, parent m = Some p -> is_manifest_digest p = true;
}.

Lemma validate_valid m : validate m = Ok tt <-> valid m.
Proof.
  unfold validate. split.
  - destruct (_ <? _) eqn:H1; [done|]. destruct (MAX_MANIFEST_REFS <? _) eqn:H2; [done|].
    destruct (str_is_empty (head m)); [done|].
    destruct (is_safe_refname (head m)) eqn:H3; [|done]. cbn [negb].
    intros (? & Hr & (? & Hp & Hd)%res_bind_Ok)%res_bind_Ok. destruct x, x0.
    apply validate_refs_Ok in Hr. apply validate_packs_Ok in Hp.
    split; [lia|lia|done..|]. intros p Hpar. rewrite Hpar in Hd. by destruct (is_manifest_digest p).
  - intros [H1 H2 H3 H4 H5 H6].
    destruct (_ <? _) eqn:E1; [lia|]. destruct (MAX_MANIFEST_REFS <? _) eqn:E2; [lia|].
    destruct (head m) eqn:Hh; [done|]. cbn [str_is_empty]. rewrite H3. cbn [negb].
    rewrite (proj2 (validate_refs_Ok _) H4). cbn [res_bind].
    rewrite (proj2 (validate_packs_Ok _) H5). cbn [res_bind].
    destruct (parent m) as [p|]; [|done]. by rewrite H6.
Qed.

Lemma canonical_valid m : valid m -> valid (canonical_packs m).
Proof.
  intros [H1 H2 H3 H4 H5 H6]. split; try done; simpl.
  - pose proof (dedup_length (sort_strings (packs m))) as Hd. unfold sort_strings in Hd at 2.
    rewrite merge_sort_Permutation in Hd. lia.
  - rewrite Forall_forall in H5 |- *. intros p Hp. by apply H5, elem_of_sort_dedup.
Qed.

Lemma sha256_hex_word s : str_all word_char (sha256_hex s) = true.
Proof.
  pose proof (sha256_shape s) as [_ H]%andb_true_iff.
  revert H. apply str_all_impl, lower_hex_word.
Qed.

(** The body of a pointer, a digest, is what its reader makes of it. *)
Lemma pointer_digest_id d : is_manifest_digest d = true -> pointer_digest d = Some d.
Proof.
  unfold is_manifest_digest, pointer_digest. intros [Hl Hd]%andb_true_iff.
  rewrite utf8_ascii by (revert Hd; apply str_all_impl, lower_hex_ascii). cbn [negb].
  rewrite trim_word by (revert Hd; apply str_all_impl, lower_hex_word). rewrite Hl.
  by rewrite (str_all_impl is_lower_hex is_ascii_hexdigit) by (try done; apply lower_hex_hex).
Qed.

Lemma from_bytes_canonical m :
  version m = MANIFEST_VERSION -> valid m -> from_bytes (manifest_to_vec m) = Ok m.
Proof.
  intros Hv Hm%validate_valid. unfold from_bytes. rewrite manifest_roundtrip by done.
  by rewrite Hv.
Qed.

(** Keys of immutable objects. *)
Definition object_key (prefix d : string) : string := prefix +:+ "/" +:+ d.
Definition immutable_prefix (prefix : string) : Prop := prefix = "packs" \/ prefix = "manifests".

Lemma object_key_inj p p' d d' :
  immutable_prefix p -> immutable_prefix p' -> object_key p d = object_key p' d' -> p = p' /\ d = d'.
Proof.
  unfold object_key. intros [-> | ->] [-> | ->] H; try discriminate H; split; try done;
    by do 2 apply append_inv_head in H.
Qed.
Lemma object_key_not_pointer p d : immutable_prefix p -> is_pointer (object_key p d) = false.
Proof. by intros [-> | ->]. Qed.

Lemma pack_key_digest p : is_pack_key p = true -> exists d, p = object_key "packs" d /\
  is_manifest_digest d = true /\ strip_prefix "packs/" p = Some d.
Proof.
  unfold is_pack_key. destruct (strip_prefix "packs/" p) as [d|] eqn:Hp; [|done].
  intros Hd. exists d. split_and!; [|done..]. by apply strip_prefix_Some in Hp.
Qed.

(** * The invariant *)

(** An object that is never rewritten. *)
Definition object_at (w : World) (key b : string) : Prop :=
  is_pointer key = false /\ exists v, s3 w !! key = Some (b, v).

(** The packs of [m] are stored and hold every object its refs reach. *)
Record complete (w : World) (m : Manifest) : Prop := {
  packs_stored p : p ∈ packs m -> exists b, object_at w p b;
  closure name oid x :
    refs m !! name = Some oid -> x ∈ reach oid ->
    exists p b, p ∈ packs m /\ object_at w p b /\ x ∈ delivered b;
}.

Record published (w : World) (d : string) (m : Manifest) : Prop := {
  pub_stored : object_at w (object_key "manifests" d) (manifest_to_vec m);
  pub_version : version m = MANIFEST_VERSION;
  pub_valid : valid m;
  pub_complete : complete w m;
}.

(** Each state, newest first, names the one before it as its parent. *)
Fixpoint linked (w : World) (l : list (string * Z)) : Prop :=
  match l with
  | [] => True
  | e :: older =>
      (exists m, published w (fst e) m /\ parent m = fst <$> hd_error older) /\ linked w older
  end.

Record world_ok (w : World) : Prop := {
  addressed prefix d b :
    immutable_prefix prefix -> object_at w (object_key prefix d) b ->
    sha256_hex b = d /\ occurs b = true;
  cached relay d b : cache w !! (relay, d) = Some b -> sha256_hex b = d /\ occurs b = true;
  pointers key :
    is_pointer key = true -> fst <$> s3 w !! key = fst <$> hd_error (log w key);
  chained key : linked w (log w key);
}.

Record grows (w w' : World) : Prop := {
  objects_persist key b : object_at w key b -> object_at w' key b;
  log_grows key : log w key `suffix_of` log w' key;
  runs_grow : runs w ⊆ runs w';
}.

#[global] Instance grows_preorder : PreOrder grows.
Proof.
  split.
  - intros w. by split.
  - intros w1 w2 w3 [H1 H2 H5] [H3 H4 H6]. split; [naive_solver| |by etransitivity].
    intros key. etransitivity; [apply H2|apply H4].
Qed.

#[global] Instance git_rely : RelyGuarantee World :=
  {| inv := world_ok; evolves := grows |}.

Lemma complete_grows w w' m : grows w w' -> complete w m -> complete w' m.
Proof.
  intros [Ho _] [H1 H2]. split.
  - intros p Hp. destruct (H1 p Hp) as [b Hb]. eauto.
  - intros name oid x Hr Hx. destruct (H2 name oid x Hr Hx) as (p & b & ? & ? & ?). eauto 6.
Qed.

Lemma published_grows w w' d m : grows w w' -> published w d m -> published w' d m.
Proof.
  intros Hg [H1 H2 H3 H4]. split; [by apply Hg|done|done|]. by apply (complete_grows w).
Qed.

Lemma linked_grows w w' l : grows w w' -> linked w l -> linked w' l.
Proof.
  intros Hg. induction l as [|e l IH]; [done|]. intros [(m & Hm & Hp) Hl].
  split; [|by apply IH]. exists m. split; [|done]. by apply (published_grows w).
Qed.

Lemma object_unique w key b b' : object_at w key b -> object_at w key b' -> b = b'.
Proof. intros [_ [v H]] [_ [v' H']]. congruence. Qed.

(** The manifest of a digest. *)
Lemma published_unique w d m m' : published w d m -> published w d m' -> m = m'.
Proof.
  intros H H'. pose proof (object_unique _ _ _ _ (pub_stored _ _ _ H) (pub_stored _ _ _ H')) as Heq.
  apply (f_equal from_bytes) in Heq.
  rewrite !from_bytes_canonical in Heq by (apply H || apply H'). congruence.
Qed.

Lemma published_digest w d m : world_ok w -> published w d m -> is_manifest_digest d = true.
Proof.
  intros Hok Hm. destruct (addressed _ Hok "manifests" d (manifest_to_vec m)) as [<- _].
  - by right.
  - apply Hm.
  - apply sha256_shape.
Qed.

(** ** Writes *)

Lemma log_store key key' body i w :
  log (store key body i w) key' =
  if is_pointer key && String.eqb key key' then (body, i) :: log w key' else log w key'.
Proof.
  unfold store, log. simpl. destruct (is_pointer key); [|done].
  destruct (String.eqb_spec key key') as [->|Hne]; simpl.
  - by rewrite lookup_insert_eq.
  - by rewrite lookup_insert_ne.
Qed.

Lemma s3_store key key' body i w :
  s3 (store key body i w) !! key' =
  if String.eqb key key' then Some (body, revision w key) else s3 w !! key'.
Proof.
  unfold store. simpl. destruct (String.eqb_spec key key') as [->|Hne].
  - by rewrite lookup_insert_eq.
  - by rewrite lookup_insert_ne.
Qed.

(** A write leaves the objects that are there, unless it is to a pointer. *)
Lemma store_grows key body i w :
  is_pointer key = true \/ s3 w !! key = None -> grows w (store key body i w).
Proof.
  intros Hkey. split.
  - intros k b [Hk [v Hv]]. split; [done|]. rewrite s3_store.
    destruct (String.eqb_spec key k) as [->|]; [|by eexists]. destruct Hkey; congruence.
  - intros k. rewrite log_store. destruct (is_pointer key && String.eqb key k); [|done].
    by apply suffix_cons_r.
  - done.
Qed.

Lemma object_at_store key k b body i w :
  object_at (store key body i w) k b -> object_at w k b \/ (k = key /\ b = body).
Proof.
  intros [Hk [v Hv]]. rewrite s3_store in Hv. destruct (String.eqb_spec key k) as [->|].
  - right. by injection Hv as ->.
  - left. split; [done|]. by eexists.
Qed.

Lemma object_at_stored key body i w : is_pointer key = false -> object_at (store key body i w) key body.
Proof. intros Hk. split; [done|]. rewrite s3_store, String.eqb_refl. by eexists. Qed.

(** Storing an immutable object, or an index. *)
Lemma store_object_ok key body i w :
  world_ok w -> is_pointer key = false -> s3 w !! key = None ->
  (forall prefix d, immutable_prefix prefix -> key = object_key prefix d ->
    sha256_hex body = d /\ occurs body = true) ->
  world_ok (store key body i w) /\ grows w (store key body i w).
Proof.
  intros Hok Hptr Hnone Haddr. assert (grows w (store key body i w)) as Hg by (apply store_grows; by right).
  split; [|done]. split.
  - intros prefix d b Hp [Ho|[Hk ->]]%object_at_store; [by apply (addressed _ Hok prefix)|].
    by apply (Haddr prefix).
  - apply (cached _ Hok).
  - intros k Hk. rewrite log_store, s3_store, Hptr. simpl.
    destruct (String.eqb_spec key k) as [->|]; [congruence|]. by apply (pointers _ Hok).
  - intros k. rewrite log_store, Hptr. simpl. apply (linked_grows w); [done|]. apply (chained _ Hok).
Qed.

(** Installing a published manifest whose parent is the newest state. *)
Lemma store_pointer_ok key d m i w :
  world_ok w -> is_pointer key = true -> published w d m -> parent m = fst <$> hd_error (log w key) ->
  world_ok (store key d i w) /\ grows w (store key d i w).
Proof.
  intros Hok Hptr Hm Hpar.
  assert (grows w (store key d i w)) as Hg by (apply store_grows; by left).
  split; [|done]. split.
  - intros prefix d' b Hp [Ho|[Hk ->]]%object_at_store; [by apply (addressed _ Hok prefix)|].
    apply (f_equal is_pointer) in Hk. rewrite object_key_not_pointer in Hk by done. congruence.
  - apply (cached _ Hok).
  - intros k Hk. rewrite log_store, s3_store, Hptr. simpl.
    destruct (String.eqb_spec key k) as [->|]; [done|]. by apply (pointers _ Hok).
  - intros k. rewrite log_store, Hptr. simpl. destruct (String.eqb_spec key k) as [->|].
    + split; [|apply (linked_grows w); [done|apply (chained _ Hok)]].
      exists m. split; [|done]. by apply (published_grows w).
    + apply (linked_grows w); [done|]. apply (chained _ Hok).
Qed.

(** The caches may change as long as they stay verified. *)
Lemma set_cache_ok c w :
  world_ok w ->
  (forall relay d b, c !! (relay, d) = Some b -> sha256_hex b = d /\ occurs b = true) ->
  world_ok (set_cache c w) /\ grows w (set_cache c w).
Proof.
  intros [H1 H2 H3 H4] Hc. assert (grows w (set_cache c w)) as Hg by (by split).
  split; [|done]. split; [done..|]. intros key. by apply (linked_grows w), H4.
Qed.

Lemma add_run_ok before after w : world_ok w ->
  world_ok (add_run before after w) /\ grows w (add_run before after w).
Proof.
  intros [H1 H2 H3 H4]. assert (grows w (add_run before after w)) as Hg.
  { split; [done|done|]. intros x Hx. by right. }
  split; [|done]. split; [done..|]. intros key. by apply (linked_grows w), H4.
Qed.

(** ** Replies *)

(** A reply that says the write was not done. *)
Definition refused (r : result (Z * option string) S3Error) : Prop :=
  match r with
  | Ok (n, _) => success_status n = false
  | Err e => not_412 e = true
  end.

Lemma respond_put_cases key body cond i f w r w' :
  respond_put key body cond i f w = Some (r, w') ->
  occurs body = true /\
  ((blocked key cond w = false /\ w' = store key body i w) \/
   (w' = w /\ (refused r \/ (r = Err (HttpFailWithBody 412) /\ blocked key cond w = true /\
                             exists x, s3 w !! key = Some x)))).
Proof.
  unfold respond_put. destruct (occurs body); [|done]. cbn [negb]. intros H. split; [done|].
  destruct f; try done.
  - destruct (blocked key cond w) eqn:Hb; injection H as <- <-; [|by left].
    right. split; [done|]. unfold exists_at. destruct (s3 w !! key) as [x|] eqn:Hx; [|by left].
    right. eauto.
  - destruct (not_412 e) eqn:He; [|done]. injection H as <- <-. right. split; [done|]. by left.
  - destruct (blocked key cond w); [done|]. injection H as <- <-. by left.
  - destruct (blocked key cond w); [done|]. injection H as <- <-. by left.
  - destruct (success_status code) eqn:Hs; [done|]. injection H as <- <-. right.
    split; [done|]. by left.
Qed.

Lemma refused_put_done key r k : refused r -> put_done key r <> Ok k.
Proof.
  destruct r as [[n t]|[c|]]; simpl; [intros ->; done| |done].
  intros ->%negb_true_iff. done.
Qed.

(** Operations that change nothing. *)
Definition quiet (o : Op) : Prop :=
  match o with
  | PutObject _ _ _ _ | CacheInsert _ _ _ | CacheRemove _ _ | ReceivePack _ => False
  | _ => True
  end.

Lemma respond_quiet (o : Op) f w r w' : quiet o -> respond o f w = Some (r, w') -> w' = w.
Proof.
  destruct o; simpl; try done; intros _ H; repeat case_match; simplify_eq; done.
Qed.

(** * What the programs guarantee

    [installed w key d older] says that the pointer [key] has named [d], right after the
    states [older]. *)
Definition installed (w : World) (key d : string) (i : Z) (older : list (string * Z)) : Prop :=
  (d, i) :: older `suffix_of` log w key.

Lemma installed_grows w w' key d i older :
  grows w w' -> installed w key d i older -> installed w' key d i older.
Proof. intros [_ Hl _]. unfold installed. intros H. etransitivity; [exact H|apply Hl]. Qed.

Definition tag_names (etag d : string) : Prop := forall b v, etag = etag_of b v -> b = d.

Definition anything {A : Type} (a : A) (w : World) : Prop := True.

Lemma holds_quiet (o : Op) (Q : Reply o -> World -> Prop) w :
  quiet o ->
  (forall w' f r, grows w w' -> world_ok w' -> respond o f w' = Some (r, w') ->
    forall w3, grows w' w3 -> world_ok w3 -> Q r w3) ->
  holds (perform o) Q w.
Proof.
  intros Hq H. apply holds_perform. intros w' f r w'' Hg Hok Hr.
  pose proof (respond_quiet _ _ _ _ _ Hq Hr) as ->. split; [done|]. split; [reflexivity|].
  intros w3. by apply (H w' f r).
Qed.

(** Programs that only ask for quiet operations, and those that only read. *)
Notation quiet_prog := (only quiet).
Definition reading (o : Op) : Prop :=
  match o with
  | HeadObject _ | GetObject _ | CacheLookup _ _ | Local | Elapsed | IndexPack _ => True
  | _ => False
  end.
Notation reading_prog := (only reading).

Lemma reading_quiet {A : Type} (p : prog A) : reading_prog p -> quiet_prog p.
Proof. apply only_weaken. by intros []. Qed.

Lemma quiet_holds {A : Type} (p : prog A) w : world_ok w -> quiet_prog p -> holds p anything w.
Proof.
  revert w. induction p as [a|o k IH]; simpl; [done|]. intros w Hok [Hq Hk] w' f r w'' Hg Hok' Hr.
  pose proof (respond_quiet _ _ _ _ _ Hq Hr) as ->. split; [done|]. split; [reflexivity|].
  by apply IH.
Qed.

Lemma quiet_ok {A E : Type} (p : prog (result A E)) w :
  world_ok w -> quiet_prog p -> holds p (ok_then anything) w.
Proof.
  intros Hok Hq. apply (holds_weaken _ anything); [by apply quiet_holds|]. by intros [a|e].
Qed.

Lemma quiet_local {E : Type} (e : E) : quiet_prog (local e).
Proof. by split. Qed.

Lemma reading_local {E : Type} (e : E) : reading_prog (local e).
Proof. by split. Qed.

Lemma reading_get key : reading_prog (get key).
Proof. split; [done|]. intros r. simpl. by repeat case_match. Qed.

Lemma reading_get_limited key n : reading_prog (get_limited key n).
Proof.
  apply only_bind; [by split|]. intros [[len status]|[c|]]; [|by case_match|done].
  destruct (status =? 404); [done|]. destruct (negb _); [done|]. cbv zeta.
  match goal with |- context [if ?b then Ret (Err (ObjectTooLarge _ _ _)) else _] => destruct b end;
    [done|]. apply only_try; [apply reading_get|]. intros b. by case_match.
Qed.

Lemma reading_get_idx d n : reading_prog (get_idx d n).
Proof.
  unfold get_idx, try. destruct (idx_key_for_pack_digest d); [|done].
  apply only_bind; [apply reading_get_limited|]. intros r. by repeat case_match.
Qed.

Lemma reading_get_pointer key : reading_prog (get_pointer key).
Proof. apply only_bind; [by split|]. intros r. by repeat case_match. Qed.

(** One [.await?] of a program whose result does not matter, or of a step on local files. *)
Ltac skip := apply (holds_try _ _ anything); [done| |intros ? ? ? ? _].
Ltac skip_local := skip; [apply quiet_ok; [done|apply quiet_local]|].

Lemma holds_timeout {A E : Type} (p : prog (result A E)) (P : A -> World -> Prop) w :
  holds p (ok_then P) w ->
  holds (timeout p) (fun r w' => match r with Some r => ok_then P r w' | None => True end) w.
Proof.
  revert w. induction p as [a|o k IH]; [done|]. intros w H w' f r w'' Hg Hok Hr.
  destruct (H w' f r w'' Hg Hok Hr) as (H1 & H2 & H3). split_and!; [done..|].
  intros w3 f' late w4 Hg3 Hok3 Hr3. pose proof (respond_quiet Elapsed _ _ _ _ I Hr3) as ->.
  split; [done|]. split; [reflexivity|]. destruct late; [done|].
  apply IH. by apply (holds_later _ _ w'').
Qed.

(** ** The store client *)

Lemma put_object_holds prefix b i w :
  immutable_prefix prefix -> world_ok w ->
  holds (put_immutable i prefix b)
    (ok_then (fun key w' => key = object_key prefix (sha256_hex b) /\ object_at w' key b /\
                            occurs b = true)) w.
Proof.
  intros Hp Hok. apply holds_bind; [done|]. apply holds_perform. intros w' f r w'' Hg Hok' Hr.
  change (content_key prefix b) with (object_key prefix (sha256_hex b)) in *.
  pose proof (object_key_not_pointer prefix (sha256_hex b) Hp) as Hptr.
  apply respond_put_cases in Hr as [Hocc [[Hb ->]|[-> Hr]]].
  - assert (s3 w' !! object_key prefix (sha256_hex b) = None) as Hn.
    { unfold blocked in Hb. by destruct (s3 w' !! _). }
    destruct (store_object_ok (object_key prefix (sha256_hex b)) b i w') as [H1 H2]; [done..| |].
    { intros p' d' Hp' [-> <-]%object_key_inj; done. }
    split; [done|]. split; [done|]. intros w3 Hg3 Hok3. apply holds_ret. intros w4 Hg4 Hok4.
    destruct (put_done _ r) as [k|e] eqn:Hd; [|done]. simpl.
    assert (k = object_key prefix (sha256_hex b)) as -> by (by destruct r as [[n t]|[c|]]; simpl in Hd; repeat case_match; simplify_eq).
    split_and!; [done| |done]. apply Hg4, Hg3. by apply object_at_stored.
  - split; [done|]. split; [reflexivity|]. intros w3 Hg3 Hok3. apply holds_ret. intros w4 Hg4 Hok4.
    destruct Hr as [Hr|(-> & _ & [b' v] & Hx)].
    + destruct (put_done _ r) as [k|e] eqn:Hd; [|done]. by destruct (refused_put_done _ _ _ Hr Hd).
    + simpl. assert (object_at w' (object_key prefix (sha256_hex b)) b') as Hb' by (split; eauto).
      pose proof (addressed _ Hok' _ _ _ Hp Hb') as [Hs Hocc'].
      apply sha256_no_collision in Hs as ->; [|done..]. split_and!; [done| |done]. by apply Hg4, Hg3.
Qed.

Lemma put_idx_holds i d b w : world_ok w -> holds (put_idx i d b) anything w.
Proof.
  intros Hok. unfold put_idx, try, idx_key_for_pack_digest. case_match; [|done].
  destruct (negb _); simplify_eq. intros w' f r w'' Hg Hok' Hr.
  apply respond_put_cases in Hr as [Hocc [[Hb ->]|[-> Hr]]]; [|by split_and!].
  destruct (store_object_ok ("idx/" +:+ d) b i w') as [H1 H2]; [done|done| | |by split_and!].
  - unfold blocked in Hb. by destruct (s3 w' !! _).
  - intros p' d' [-> | ->] Heq; discriminate Heq.
Qed.

Lemma get_holds prefix d w :
  immutable_prefix prefix -> world_ok w ->
  holds (get (object_key prefix d)) (ok_then (fun b _ => occurs b = true)) w.
Proof.
  intros Hp Hok. apply holds_bind; [done|]. apply holds_quiet; [done|].
  intros w' f r Hg Hok' Hr w3 _ _.
  assert (match r with Ok (_, b) => occurs b = true | Err _ => True end) as Hocc.
  { assert (forall b v, s3 w' !! object_key prefix d = Some (b, v) -> occurs b = true) as Hs.
    { intros b v Hb. destruct (addressed _ Hok' prefix d b) as [_ ?]; [done| |done].
      split; [by apply object_key_not_pointer|eauto]. }
    change (git_respond (GetObject (object_key prefix d)) f w' = Some (r, w')) in Hr.
    cbn [git_respond] in Hr. destruct f; try done.
    - destruct (s3 w' !! _) as [[b v]|] eqn:Hb; injection Hr as <-; [by eapply Hs|done].
    - injection Hr as <-. done.
    - destruct (s3 w' !! _) as [[b v]|] eqn:Hb; [|done]. injection Hr as <-. by eapply Hs.
    - destruct (is_pointer _ || negb (occurs body)) eqn:Ho; [done|]. injection Hr as <-.
      apply orb_false_iff in Ho as [_ Ho]. by apply negb_false_iff. }
  destruct r as [[t b]|[c|]]; [by intros w4 _ _|by case_match|done].
Qed.

Lemma get_limited_holds prefix d n w :
  immutable_prefix prefix -> world_ok w ->
  holds (get_limited (object_key prefix d) n) (ok_then (fun b _ => occurs b = true)) w.
Proof.
  intros Hp Hok. apply holds_bind; [done|]. apply holds_quiet; [done|].
  intros w' f r Hg Hok' Hr w3 Hg3 Hok3. destruct r as [[len status]|[c|]]; [|by case_match|done].
  destruct (status =? 404); [done|]. destruct (negb _); [done|]. cbv zeta.
  match goal with |- context [if ?b then Ret (Err (ObjectTooLarge _ _ _)) else _] => destruct b end;
    [done|].
  eapply holds_try; [done|by apply get_holds|]. intros b w4 _ _ Hb. case_match; [done|by intros w5 _ _].
Qed.

Lemma check_digest_Ok key d b b' : check_digest key d b = Ok b' -> b' = b /\ sha256_hex b = d.
Proof.
  unfold check_digest. destruct (String.eqb_spec (sha256_hex b) d); [|done]. by intros [= <-].
Qed.

(** A verified read returns the bytes of that digest, whatever the bucket sent. *)
Lemma get_verified_limited_holds prefix d n w :
  immutable_prefix prefix -> world_ok w ->
  holds (get_verified_limited (object_key prefix d) d n)
    (ok_then (fun b _ => sha256_hex b = d /\ occurs b = true)) w.
Proof.
  intros Hp Hok. eapply holds_try; [done|by apply get_limited_holds|].
  intros b w' _ _ Hb. apply holds_ret. intros w3 _ _.
  destruct (check_digest _ d b) as [b'|e] eqn:Hc; [|done]. by apply check_digest_Ok in Hc as [-> ?].
Qed.

Lemma get_verified_holds prefix d w :
  immutable_prefix prefix -> world_ok w ->
  holds (get_verified (object_key prefix d) d)
    (ok_then (fun b _ => sha256_hex b = d /\ occurs b = true)) w.
Proof.
  intros Hp Hok. eapply holds_try; [done|by apply get_holds|].
  intros b w' _ _ Hb. apply holds_ret. intros w3 _ _.
  destruct (check_digest _ d b) as [b'|e] eqn:Hc; [|done]. by apply check_digest_Ok in Hc as [-> ?].
Qed.

(** The newest state of a pointer that exists. *)
Lemma pointer_newest w key b v :
  world_ok w -> is_pointer key = true -> s3 w !! key = Some (b, v) ->
  exists i older m, log w key = (b, i) :: older /\ published w b m /\
    parent m = fst <$> hd_error older.
Proof.
  intros Hok Hptr Hb. pose proof (pointers _ Hok key Hptr) as Hh. rewrite Hb in Hh.
  pose proof (chained _ Hok key) as Hl. destruct (log w key) as [|[b' i] older]; [done|].
  simpl in Hh. injection Hh as ->. destruct Hl as [(m & Hm & Hp) _]. by exists i, older, m.
Qed.

Lemma get_pointer_holds key w :
  is_pointer key = true -> world_ok w ->
  holds (get_pointer key)
    (ok_then (fun o w' => match o with
      | None => True
      | Some (etag, b) => exists i older m, installed w' key b i older /\ published w' b m /\
          parent m = fst <$> hd_error older /\ tag_names etag b
      end)) w.
Proof.
  intros Hptr Hok. apply holds_bind; [done|]. apply holds_quiet; [done|].
  intros w' f r Hg Hok' Hr w3 Hg3 Hok3. destruct r as [[[t|] b]|[c|]]; [|done|by case_match|done].
  { intros w4 Hg4 Hok4. simpl.
    assert (exists v, s3 w' !! key = Some (b, v) /\ t = etag_of b v) as (v & Hb & ->).
    { change (git_respond (GetObject key) f w' = Some (Ok (Some t, b), w')) in Hr.
      cbn [git_respond] in Hr. rewrite Hptr in Hr. destruct f; try done.
      - destruct (s3 w' !! key) as [[b' v]|]; simplify_eq. by exists v.
      - by destruct (s3 w' !! key) as [[b' v]|]. }
    destruct (pointer_newest _ _ _ _ Hok' Hptr Hb) as (i & older & m & Hl & Hm & Hp).
    exists i, older, m. assert (grows w' w4) as Hg' by (by etransitivity).
    split_and!; [|by apply (published_grows w')|done|by intros b' v' ?%etag_body].
    apply (installed_grows w'); [done|]. unfold installed. by rewrite Hl. }
Qed.

(** ** Hydration *)

Lemma is_pointer_key community owner repo : is_pointer (pointer_key community owner repo) = true.
Proof. done. Qed.

(** The manifest read through a pointer is the published one. *)
Lemma manifest_read w d m b :
  world_ok w -> published w d m -> sha256_hex b = d -> occurs b = true -> from_bytes b = Ok m.
Proof.
  intros Hok Hm Hd Hocc.
  destruct (addressed _ Hok "manifests" d (manifest_to_vec m)) as [Hd' Hocc']; [by right|apply Hm|].
  assert (b = manifest_to_vec m) as -> by (apply sha256_no_collision; congruence).
  apply from_bytes_canonical; apply Hm.
Qed.

Lemma load_pointer_holds community owner repo w :
  world_ok w ->
  holds (load_pointer community owner repo)
    (ok_then (fun o w' => match o with
      | None => True
      | Some (etag, d, m) => exists i older, installed w' (pointer_key community owner repo) d i older /\
          published w' d m /\ parent m = fst <$> hd_error older /\ tag_names etag d
      end)) w.
Proof.
  intros Hok. eapply holds_try; [done| |].
  { apply holds_map_err; [done|by apply get_pointer_holds, Hok|].
    intros [[etag b]|] w1 w2 Hg _; [|done]. intros (i & older & m & H1 & H2 & H3).
    exists i, older, m. split_and!; [by apply (installed_grows w1)|by apply (published_grows w1)|apply H3..]. }
  intros [[etag b]|] w1 Hg1 Hok1; [|done]. intros (i & older & m & Hi & Hm & Hp & Ht).
  rewrite pointer_digest_id by (by apply (published_digest w1 b m)).
  eapply holds_try; [done| |].
  { apply holds_map_err; [done|apply (get_verified_limited_holds "manifests"); [by right|done]|done]. }
  intros bytes w2 Hg2 Hok2 [Hd Hocc].
  rewrite (manifest_read w2 b m bytes) by (done || by apply (published_grows w1)). cbn [map_err try].
  rewrite (proj2 (validate_valid m)) by apply Hm. cbn [map_err try].
  intros w3 Hg3 Hok3. simpl. exists i, older. assert (grows w1 w3) by (by etransitivity).
  split_and!; [by apply (installed_grows w1)|by apply (published_grows w1)|done..].
Qed.

Lemma reading_install_idx d pack n : reading_prog (install_or_generate_idx d pack n).
Proof.
  unfold install_or_generate_idx. apply only_bind; [apply reading_get_idx|]. intros r.
  assert (reading_prog (await idx <- index_pack pack ;;
    match idx with
    | None => Ret (Err Hydrate)
    | Some idx => if n <? Z.of_nat (String.length idx) then Ret (Err HResourceLimit) else Ret (Ok tt)
    end)%buzz) as Hgen.
  { apply only_bind; [by split|]. intros [idx|]; [|done]. by case_match. }
  destruct r as [[b|]|e]; [|done..]. apply only_try; [apply reading_local|]. intros _.
  apply only_bind; [by split|]. by intros [|].
Qed.

Lemma populate_holds relay d n w :
  world_ok w ->
  holds (populate relay (object_key "packs" d) d n)
    (ok_then (fun b _ => sha256_hex b = d /\ occurs b = true)) w.
Proof.
  intros Hok. unfold populate. skip_local. eapply holds_try; [done| |].
  { apply holds_map_err; [done|apply get_verified_limited_holds; [by left|done]|done]. }
  intros b w1 Hg1 Hok1 [Hb Hocc]. skip_local.
  skip; [by apply quiet_ok, reading_quiet, reading_install_idx|]. skip_local.
  apply holds_bind; [done|]. apply holds_quiet; [done|]. intros w2 f bypass _ Hok2 _ w3 _ Hok3.
  destruct bypass; [by intros w4 _ _|]. skip_local.
  apply holds_bind; [done|]. intros w4 f' r w5 Hg4 Hok4 Hr.
  assert (w5 = set_cache (<[(relay, d) := b]> (cache w4)) w4) as -> by (injection Hr as <- <-; done).
  destruct (set_cache_ok (<[(relay, d) := b]> (cache w4)) w4 Hok4) as [A1 A2];
    [|by split_and!; [..|intros w6 _ _]].
  intros relay' d' b' [[[= -> ->] ->]|[_ Hl]]%lookup_insert_Some; [done|]. by eapply (cached _ Hok4).
Qed.

Lemma cache_lookup_holds relay d w :
  world_ok w ->
  holds (cache_lookup relay d)
    (fun o _ => match o with Some b => sha256_hex b = d /\ occurs b = true | None => True end) w.
Proof.
  intros Hok. apply holds_quiet; [done|]. intros w' f r _ Hok' Hr w3 _ _.
  change (git_respond (CacheLookup relay d) f w' = Some (r, w')) in Hr. cbn [git_respond] in Hr.
  destruct f as [| | | | | | |[|]| | |]; try done; injection Hr as <-; [|done].
  destruct (cache w' !! (relay, d)) as [b|] eqn:Hb; [|done]. by apply (cached _ Hok' relay).
Qed.

Lemma materialize_pack_holds relay d n w :
  world_ok w ->
  holds (materialize_pack relay (object_key "packs" d) d n)
    (ok_then (fun b _ => sha256_hex b = d /\ occurs b = true)) w.
Proof.
  intros Hok. unfold materialize_pack. destruct (negb _); [done|].
  match goal with |- context [match _ with Some _ => _ | None => ?f end] => set (fetch := f) end.
  assert (forall w1, world_ok w1 ->
    holds fetch (ok_then (fun b _ => sha256_hex b = d /\ occurs b = true)) w1) as Hfetch.
  { intros w1 Hok1. apply holds_bind; [done|]. apply (holds_weaken _ _ _ _ (cache_lookup_holds relay d w1 Hok1)).
    intros [b|] w2 _ Hok2 Hb.
    - skip_local. by intros w3 _ _.
    - eapply holds_try; [done|by apply populate_holds|]. intros b w3 _ Hok3 Hb'. skip_local.
      by intros w4 _ _. }
  apply holds_bind; [done|]. apply (holds_weaken _ _ _ _ (cache_lookup_holds relay d w Hok)).
  intros [b|] w2 _ Hok2 Hb; [|by apply Hfetch].
  apply holds_bind; [done|]. apply holds_quiet; [done|]. intros w3 f installed _ Hok3 _ w4 _ Hok4.
  destruct installed; [by intros w5 _ _|].
  apply holds_bind; [done|]. intros w5 f' r w6 Hg5 Hok5 Hr.
  assert (w6 = set_cache (delete (relay, d) (cache w5)) w5) as -> by (injection Hr as <- <-; done).
  destruct (set_cache_ok (delete (relay, d) (cache w5)) w5 Hok5) as [Hok6 Hg6].
  { intros relay' d' b' [_ Hl]%lookup_delete_Some. by eapply (cached _ Hok5). }
  split_and!; [done|done|]. intros w7 _ Hok7. by apply Hfetch.
Qed.

(** The objects linked into a workspace are those of the packs its manifest names. *)
Definition unpacked (keys : list string) (objects : gset string) : Prop :=
  forall p, p ∈ keys -> exists d b, p = object_key "packs" d /\ sha256_hex b = d /\
    occurs b = true /\ delivered b ⊆ objects.

Lemma materialize_packs_holds options keys objects n w :
  Forall (fun p => is_pack_key p = true) keys -> world_ok w ->
  holds (materialize_packs options keys objects n)
    (ok_then (fun r _ => objects ⊆ fst r /\ unpacked keys (fst r))) w.
Proof.
  revert objects n w. induction keys as [|key keys IH]; intros objects n w Hk Hok.
  - intros w' _ _. split; [done|]. intros p Hp. by apply elem_of_nil in Hp.
  - apply Forall_cons in Hk as [(d & -> & Hd & Hs)%pack_key_digest Hk]. cbn [materialize_packs].
    rewrite Hs. eapply holds_try; [done|by apply materialize_pack_holds|].
    intros b w1 Hg1 Hok1 [Hb Hocc]. cbv zeta. case_match; [done|]. case_match; [|done].
    case_match; [done|]. apply (holds_weaken _ _ _ _ (IH _ _ _ Hk Hok1)).
    intros [[objs n']|e] w2 _ _; [|done]. simpl. intros [Hsub Hun]. split; [set_solver|].
    intros p [->|Hp]%elem_of_cons; [|by apply Hun]. exists d, b. split_and!; [done..|set_solver].
Qed.

(** A hydrated repository of [m]: its refs and HEAD, and the objects they reach. *)
Definition hydrates (h : HydratedRepo) (m : Manifest) : Prop :=
  ws_refs (workspace h) = refs m /\ ws_head (workspace h) = head m /\
  forall name oid, refs m !! name = Some oid -> reach oid ⊆ ws_objects (workspace h).

Lemma quiet_install_refs l : quiet_prog (install_refs l).
Proof.
  induction l as [|[n o] l IH]; [done|]. cbn [install_refs]. case_match; [done|]. case_match; [done|].
  apply only_try; [apply quiet_local|]. intros _. by apply only_try; [apply quiet_local|].
Qed.

Lemma complete_unpacked w m objects :
  world_ok w -> complete w m -> unpacked (packs m) objects ->
  forall name oid, refs m !! name = Some oid -> reach oid ⊆ objects.
Proof.
  intros Hok [_ Hc] Hun name oid Hr x Hx. destruct (Hc name oid x Hr Hx) as (p & b & Hp & Hb & Hx').
  destruct (Hun p Hp) as (d & b' & -> & Hd & Hocc & Hsub).
  destruct (addressed _ Hok "packs" d b) as [Hd' Hocc']; [by left|done|].
  assert (b = b') as -> by (apply sha256_no_collision; congruence). set_solver.
Qed.

Lemma materialize_manifest_holds m d options w :
  world_ok w -> published w d m ->
  holds (materialize_manifest m options) (ok_then (fun h _ => hydrates h m)) w.
Proof.
  intros Hok Hm. unfold materialize_manifest. skip_local.
  skip; [apply quiet_ok; [done|]; apply only_try; [apply quiet_local|]; intros _;
         by apply only_try; [apply quiet_local|]|].
  eapply holds_try; [done|by apply materialize_packs_holds; [apply Hm|]|].
  intros [objects n] w3 Hg3 Hok3 [_ Hun].
  skip; [by apply quiet_ok, quiet_install_refs|]. case_match; [done|]. skip_local.
  intros w6 Hg6 Hok6. split_and!; [done|done|]. simpl.
  apply (complete_unpacked w3 m); [done| |done]. apply (complete_grows w); [|apply Hm].
  by do 2 (etransitivity; [done|]).
Qed.

(** ** Composing a manifest *)

Lemma elem_of_ref_oids oid r : oid ∈ ref_oids r <-> exists name, r !! name = Some oid.
Proof.
  unfold ref_oids, iter_refs. rewrite list_elem_of_fmap. split.
  - intros ([name o] & -> & H). rewrite merge_sort_Permutation in H.
    apply elem_of_map_to_list in H. by exists name.
  - intros [name H]. exists (name, oid). split; [done|]. rewrite merge_sort_Permutation.
    by apply elem_of_map_to_list.
Qed.

Lemma elem_of_reach_all x l : x ∈ reach_all l <-> exists oid, oid ∈ l /\ x ∈ reach oid.
Proof.
  unfold reach_all. rewrite elem_of_union_list. split.
  - intros (X & (oid & -> & Ho)%list_elem_of_fmap & Hx). eauto.
  - intros (oid & Ho & Hx). exists (reach oid). split; [|done]. apply list_elem_of_fmap. eauto.
Qed.

(** Every object of [xs] is in one of the packs [keys]. *)
Definition holds_all (w : World) (keys : list string) (xs : gset string) : Prop :=
  forall x, x ∈ xs -> exists p b, p ∈ keys /\ object_at w p b /\ x ∈ delivered b.
Definition stored (w : World) (keys : list string) : Prop :=
  forall p, p ∈ keys -> exists b, object_at w p b.

Lemma holds_all_grows w w' keys xs : grows w w' -> holds_all w keys xs -> holds_all w' keys xs.
Proof. intros [Ho _] H x Hx. destruct (H x Hx) as (p & b & ? & ? & ?). eauto 6. Qed.
Lemma stored_grows w w' keys : grows w w' -> stored w keys -> stored w' keys.
Proof. intros [Ho _] H p Hp. destruct (H p Hp). eauto. Qed.

Lemma complete_holds_all w m :
  complete w m <-> stored w (packs m) /\ holds_all w (packs m) (reach_all (ref_oids (refs m))).
Proof.
  split.
  - intros [H1 H2]. split; [done|]. intros x (oid & [name Hr]%elem_of_ref_oids & Hx)%elem_of_reach_all.
    by apply (H2 name oid).
  - intros [H1 H2]. split; [done|]. intros name oid x Hr Hx. apply H2, elem_of_reach_all.
    exists oid. split; [|done]. apply elem_of_ref_oids. eauto.
Qed.

(** What a push composes on the state [ps], from the workspace [ws]. *)
Record composed (w : World) (ps : ParentState) (ws : Workspace) (m : Manifest) : Prop := {
  comp_version : version m = MANIFEST_VERSION;
  comp_parent : parent m = parent_digest ps;
  comp_canonical : canonical_packs m = m;
  comp_complete : complete w m;
  comp_refs : snapshot_refs (listing ws) = Ok (refs m);
}.

Lemma composed_grows w w' ps ws m : grows w w' -> composed w ps ws m -> composed w' ps ws m.
Proof. intros Hg [H1 H2 H3 H4 H5]. split; try done. by apply (complete_grows w). Qed.

Lemma compose_after_canonical m d h r k :
  canonical_packs (compose_after m d h r k) = compose_after m d h r k.
Proof. unfold compose_after, canonical_packs. simpl. by rewrite sort_dedup_idem. Qed.
Lemma compose_compacted_canonical d h r ks :
  canonical_packs (compose_compacted_after d h r ks) = compose_compacted_after d h r ks.
Proof. unfold compose_compacted_after, canonical_packs. simpl. by rewrite sort_dedup_idem. Qed.

Lemma compose_after_packs m d h r k p :
  p ∈ packs (compose_after m d h r k) <-> p ∈ packs m \/ k = Some p.
Proof.
  unfold compose_after. simpl. rewrite elem_of_sort_dedup. destruct k as [k|]; [|naive_solver].
  destruct (existsb (String.eqb k) (packs m)) eqn:He.
  - apply existsb_exists in He as (k' & Hk & <-%String.eqb_eq). apply list_elem_of_In in Hk.
    naive_solver.
  - rewrite elem_of_app, list_elem_of_singleton. naive_solver.
Qed.

(** Composing keeps what the parent covered and adds what the new pack does. *)
Lemma compose_after_complete w ps d h r pack :
  complete w ps ->
  match pack with
  | Some (k, b) => object_at w k b /\
      reach_all (ref_oids r) ⊆ reach_all (ref_oids (refs ps)) ∪ delivered b
  | None => reach_all (ref_oids r) ⊆ reach_all (ref_oids (refs ps))
  end ->
  complete w (compose_after ps d h r (fst <$> pack)).
Proof.
  intros [Hs Hc]%complete_holds_all Hpack. apply complete_holds_all. split.
  - intros p [Hp|Hp]%compose_after_packs; [by apply Hs|]. destruct pack as [[k b]|]; [|done].
    injection Hp as <-. destruct Hpack. eauto.
  - intros x Hx. destruct pack as [[k b]|].
    + destruct Hpack as [Hk Hsub]. apply Hsub, elem_of_union in Hx as [Hx|Hx].
      * destruct (Hc x Hx) as (p & b' & Hp & Hb & Hx'). exists p, b'. split; [|done].
        apply compose_after_packs. by left.
      * exists k, b. split; [|done]. apply compose_after_packs. by right.
    + destruct (Hc x (Hpack _ Hx)) as (p & b' & Hp & Hb & Hx'). exists p, b'. split; [|done].
      apply compose_after_packs. by left.
Qed.

Lemma snapshot_holds ws w :
  world_ok w ->
  holds (snapshot_workspace_state ws) (ok_then (fun r _ => snapshot_refs (listing ws) = Ok (fst r))) w.
Proof.
  intros Hok. unfold snapshot_workspace_state. skip_local.
  apply (holds_try _ _ (fun s _ => s = listing ws)); [done| |].
  { apply holds_map_err; [done| |done]. apply holds_quiet; [done|]. intros w1 f r _ _ Hr w2 _ _.
    change (git_respond (ForEachRef ws) f w1 = Some (r, w1)) in Hr. cbn [git_respond] in Hr.
    by destruct f; simplify_eq. }
  intros stdout w1 Hg1 Hok1 ->. skip_local. case_match; [done|]. skip_local.
  unfold try. destruct (snapshot_refs (listing ws)) as [r|e] eqn:Hr; [|done].
  skip; [apply quiet_ok; [done|]; apply only_bind; [by split|]; by intros [?|?]|].
  by intros w4 _ _.
Qed.

Lemma capture_pack_holds ws before after n w :
  world_ok w ->
  holds (capture_pack ws before after n)
    (ok_then (fun o _ => reach_all (ref_oids after) ⊆
       reach_all (ref_oids before) ∪ match o with Some b => delivered b | None => ∅ end)) w.
Proof.
  intros Hok. unfold capture_pack. destruct (ref_oids after) as [|oid oids] eqn:Ho.
  { intros w' _ _. apply empty_subseteq. }
  rewrite <-Ho. skip_local.
  apply (holds_try _ _ (fun b _ => reach_all (ref_oids after) ∖ reach_all (ref_oids before) ⊆ delivered b));
    [done| |].
  { apply holds_map_err; [done| |done]. apply holds_quiet; [done|]. intros w1 f r _ _ Hr w2 _ _.
    change (git_respond (PackObjects (ref_oids after) (ref_oids before) ws) f w1 = Some (r, w1)) in Hr.
    cbn [git_respond] in Hr. destruct f; try done; [by simplify_eq|].
    case_bool_decide as Hb; [|done]. by simplify_eq. }
  intros b w1 Hg1 Hok1 Hb. cbv zeta. case_match; [done|]. case_match eqn:Hz.
  - intros w2 _ _. simpl. destruct b; [|simpl in Hz; lia]. simpl in Hb.
    intros x Hx. destruct (decide (x ∈ reach_all (ref_oids before))); set_solver.
  - skip_local. intros w3 _ _. simpl.
    intros x Hx. destruct (decide (x ∈ reach_all (ref_oids before))); set_solver.
Qed.

Lemma quiet_object_limit ws : quiet_prog (enforce_compaction_object_limit ws).
Proof.
  unfold enforce_compaction_object_limit. apply only_try; [apply quiet_local|]. intros _.
  apply only_try; [apply only_bind; [by split|]; by intros [?|?]|]. intros out.
  case_match; [done|]. apply only_try; [apply quiet_local|]. intros _. unfold try.
  destruct (parse_count "count:" _); [|done]. destruct (parse_count "in-pack:" _); [|done].
  case_match; [|done]. by case_match.
Qed.

Lemma capture_compacted_holds ws after limits w :
  world_ok w ->
  holds (capture_compacted_packs ws after limits)
    (ok_then (fun r _ => reach_all (ref_oids after) ⊆
       union_list (map (fun p => delivered (fst p)) (fst r)))) w.
Proof.
  intros Hok. unfold capture_compacted_packs. skip_local.
  destruct (ref_oids after) as [|oid oids] eqn:Ho; [intros w9 _ _; apply empty_subseteq|]. rewrite <-Ho.
  skip; [by apply quiet_ok, quiet_object_limit|]. skip_local.
  apply (holds_try _ _ (fun l _ => reach_all (ref_oids after) ⊆
    union_list (map (fun p => delivered (fst p)) l))); [done| |].
  { apply holds_map_err; [done| |done]. apply holds_quiet; [done|]. intros w1 f r _ _ Hr w2 _ _.
    match type of Hr with respond ?o _ _ = _ => change (git_respond o f w1 = Some (r, w1)) in Hr end.
    cbn [git_respond] in Hr. destruct f; try done; [by simplify_eq|].
    case_bool_decide as Hb; [|done]. simplify_eq. simpl. etransitivity; [|exact Hb].
    intros x (o & Hin & Hx)%elem_of_reach_all. apply elem_of_reach_all. exists o. split; [|done].
    by rewrite <-Permutation_rev, elem_of_remove_dups, <-Permutation_rev. }
  intros l w1 Hg1 Hok1 Hl. case_match; [done|]. skip_local. unfold try.
  destruct (check_compacted _ _ _); [|done]. by intros w4 _ _.
Qed.

Definition uploaded (w : World) (l : list (string * string)) (keys : list string) : Prop :=
  stored w keys /\ holds_all w keys (union_list (map (fun p => delivered (fst p)) l)).

Lemma uploaded_snoc w l keys pack idx key :
  uploaded w l keys -> object_at w key pack -> uploaded w (l ++ [(pack, idx)]) (keys ++ [key]).
Proof.
  intros [Hs Hc] Hk. split.
  - intros p [Hp|Hp]%elem_of_app; [by apply Hs|]. apply list_elem_of_singleton in Hp as ->. eauto.
  - intros x Hx. rewrite map_app, union_list_app, elem_of_union in Hx. destruct Hx as [Hx|Hx].
    + destruct (Hc x Hx) as (p & b & Hp & ? & ?). exists p, b. rewrite elem_of_app. eauto.
    + exists key, pack. rewrite elem_of_app, list_elem_of_singleton. split_and!; [by right|done|].
      simpl in Hx. set_solver.
Qed.

Lemma upload_packs_holds i before l keys w :
  world_ok w -> uploaded w before keys ->
  holds (upload_packs i l keys) (ok_then (fun ks w' => uploaded w' (before ++ l) ks)) w.
Proof.
  revert before keys w. induction l as [|[pack idx] l IH]; intros before keys w Hok [Hs Hc]; cbn [upload_packs].
  - intros w' Hg Hok'. simpl. rewrite app_nil_r. split.
    + intros p Hp. rewrite elem_of_sort_dedup in Hp. by apply (stored_grows w w' _ Hg Hs).
    + intros x Hx. destruct (holds_all_grows _ _ _ _ Hg Hc x Hx) as (p & b & Hp & Hb).
      exists p, b. split; [|done]. by apply elem_of_sort_dedup.
  - skip_local. apply (holds_try _ _ (fun key w' => object_at w' key pack)); [done| |].
    { apply holds_map_err; [done| |].
      - apply (holds_weaken _ _ _ _ (put_object_holds "packs" pack i _ (or_introl eq_refl) ltac:(eassumption))).
        intros [k|e] w3 _ _; [|done]. intros (_ & ? & _). done.
      - intros k w3 w4 Hg _ Hk. by apply Hg. }
    intros key w3 Hg3 Hok3 Hkey. unfold try. destruct (digest_from_pack_key key) as [d|]; [|done].
    apply holds_bind; [done|]. apply holds_quiet; [done|]. intros w4 f readable Hg4 Hok4 _ w5 Hg5 Hok5.
    apply holds_bind; [done|].
    assert (forall w6, grows w5 w6 -> world_ok w6 -> holds (upload_packs i l (keys ++ [key]))
      (ok_then (fun ks w' => uploaded w' (before ++ (pack, idx) :: l) ks)) w6) as Hrest.
    { intros w6 Hg6 Hok6.
      replace (before ++ (pack, idx) :: l) with ((before ++ [(pack, idx)]) ++ l) by (by rewrite <-app_assoc).
      assert (grows w3 w6) as Hg36 by (by do 2 (etransitivity; [eassumption|])).
      apply IH; [done|]. apply uploaded_snoc; [|by apply Hg36].
      assert (grows w w6) by (by do 2 (etransitivity; [eassumption|])).
      split; [by apply (stored_grows w)|by apply (holds_all_grows w)]. }
    destruct (readable : bool).
    + apply (holds_weaken _ _ _ _ (put_idx_holds i d idx w5 Hok5)). intros r w6 Hg6 Hok6 _. by apply Hrest.
    + intros w6 Hg6 Hok6. by apply Hrest.
Qed.

Lemma prepare_compaction_holds i ws after limits n w :
  world_ok w ->
  holds (prepare_compaction i ws after limits n)
    (ok_then (fun ks w' => stored w' ks /\ holds_all w' ks (reach_all (ref_oids after)))) w.
Proof.
  intros Hok. eapply holds_try; [done|by apply capture_compacted_holds|].
  intros [l n'] w1 Hg1 Hok1 Hl. cbv iota. case_match; [done|].
  assert (uploaded w1 [] []) as H0 by (split; [by intros p ?%elem_of_nil|intros x; simpl; set_solver]).
  apply (holds_weaken _ _ _ _ (upload_packs_holds i [] l [] w1 Hok1 H0)).
  intros [ks|e] w2 Hg2 Hok2; [|done]. intros [Hs Hc]. split; [done|].
  intros x Hx. apply Hc. by apply Hl.
Qed.

Lemma try_compaction_holds i ws after limits n w :
  world_ok w ->
  holds (try_compaction i ws after limits n)
    (ok_then (fun ks w' => stored w' ks /\ holds_all w' ks (reach_all (ref_oids after)))) w.
Proof.
  intros Hok. apply holds_bind; [done|]. apply holds_quiet; [done|].
  intros w1 f permit _ _ _ w2 _ Hok2. destruct (permit : bool); [|done].
  apply holds_bind; [done|].
  apply (holds_weaken _ _ _ _ (holds_timeout _ _ _ (prepare_compaction_holds i ws after limits n w2 Hok2))).
  intros [r|] w3 Hg3 Hok3; [|done]. destruct r as [ks|e]; [|done]. intros [Hs Hc] w4 Hg4 Hok4.
  split; [by apply (stored_grows w3)|by apply (holds_all_grows w3)].
Qed.

Lemma write_idx_sidecar_holds i k b w : world_ok w -> holds (write_idx_sidecar i k b) anything w.
Proof.
  intros Hok. unfold write_idx_sidecar, try. destruct (digest_from_pack_key k) as [d|]; [|done].
  apply (holds_weaken _ (ok_then anything)); [|done]. skip_local.
  apply holds_bind; [done|]. apply holds_quiet; [done|]. intros w1 f idx _ _ _ w2 _ Hok2.
  destruct idx as [idx|]; [|done].
  skip; [|done]. apply holds_map_err; [done| |done].
  apply (holds_weaken _ _ _ _ (put_idx_holds i d idx w2 Hok2)). by intros [?|?].
Qed.

Lemma publish_delta_holds i ws ps limits failure n after h w :
  world_ok w -> complete w (ps_parent ps) -> snapshot_refs (listing ws) = Ok after ->
  holds (publish_delta i ws ps limits failure n after h)
    (ok_then (fun m w' => composed w' ps ws m)) w.
Proof.
  intros Hok Hc Hsnap. eapply holds_try; [done|by apply capture_pack_holds|].
  intros [b|] w1 Hg1 Hok1 Hb; cycle 1.
  { intros w2 Hg2 Hok2. split; [done|done|apply compose_after_canonical| |done].
    apply (compose_after_complete w2 _ _ _ _ None).
    - apply (complete_grows w); [|done]. by etransitivity.
    - set_solver. }
  case_match; [done|]. case_match; [|done]. case_match; [done|].
  apply (holds_try _ _ (fun key w' => object_at w' key b)); [done| |].
  { apply holds_map_err; [done| |].
    - apply (holds_weaken _ _ _ _ (put_object_holds "packs" b i _ (or_introl eq_refl) Hok1)).
      intros [k|e] w3 _ _; [|done]. intros (_ & ? & _). done.
    - intros k w3 w4 Hg _ Hk. by apply Hg. }
  intros key w2 Hg2 Hok2 Hkey. apply holds_bind; [done|].
  apply (holds_weaken _ _ _ _ (write_idx_sidecar_holds i key b w2 Hok2)).
  intros _ w3 Hg3 Hok3 _ w4 Hg4 Hok4. assert (grows w2 w4) as Hg24 by (by etransitivity).
  split; [done|done|apply compose_after_canonical| |done].
  apply (compose_after_complete w4 _ _ _ _ (Some (key, b))).
  - apply (complete_grows w); [|done]. by do 2 (etransitivity; [eassumption|]).
  - split; [by apply Hg24|done].
Qed.

Lemma compose_manifest_holds i ws ps limits threshold w :
  world_ok w -> complete w (ps_parent ps) ->
  holds (compose_manifest i ws ps limits threshold)
    (ok_then (fun m w' => composed w' ps ws m)) w.
Proof.
  intros Hok Hc. eapply holds_try; [done|by apply snapshot_holds|].
  intros [after observed] w1 Hg1 Hok1 Hsnap. simpl in Hsnap. cbv iota zeta.
  assert (complete w1 (ps_parent ps)) as Hc1 by (by apply (complete_grows w)).
  case_match; [|by apply publish_delta_holds].
  apply holds_bind; [done|]. eapply holds_weaken; [by apply try_compaction_holds|].
  intros [keys|e] w2 Hg2 Hok2 Hks.
  - intros w3 Hg3 Hok3. split; [done|done|apply compose_compacted_canonical| |done].
    apply complete_holds_all. destruct Hks as [Hs Hcov]. split.
    + intros p Hp. simpl in Hp. rewrite elem_of_sort_dedup in Hp. by apply (stored_grows w2 w3 _ Hg3 Hs).
    + intros x Hx. destruct (holds_all_grows _ _ _ _ Hg3 Hcov x Hx) as (p & b & Hp & Hb).
      exists p, b. split; [|done]. simpl. by apply elem_of_sort_dedup.
  - apply publish_delta_holds; [done| |done]. by apply (complete_grows w1).
Qed.

(** ** The refs that git left *)

Definition no_char (c : ascii) (s : string) : bool := str_all (fun x => negb (Ascii.eqb x c)) s.
(** A ref as git writes it in a repository of SHA-1 objects: 40 hexadecimal digits, and a name
    without spaces and line feeds; that it is UTF-8, git does not ask. *)
Definition git_ref (e : string * string) : Prop :=
  is_utf8 (fst e) = true /\ no_char " " (fst e) = true /\ no_char (ascii_of_N 10) (fst e) = true /\
  String.length (snd e) = 40%nat /\ str_all is_ascii_hexdigit (snd e) = true.

Lemma hexdigit_plain c : is_ascii_hexdigit c = true ->
  in_range 0 0x7F c = true /\ Ascii.eqb c (ascii_of_N 10) = false /\ Ascii.eqb c (ascii_of_N 13) = false.
Proof. by destruct c as [[] [] [] [] [] [] [] []]. Qed.
Lemma hex_no_newline s : str_all is_ascii_hexdigit s = true -> no_char (ascii_of_N 10) s = true.
Proof. apply str_all_impl. intros c Hc%hexdigit_plain. by destruct Hc as (_ & -> & _). Qed.
Lemma hex_utf8 s : str_all is_ascii_hexdigit s = true -> is_utf8 s = true.
Proof. intros Hs. apply utf8_ascii. revert Hs. apply str_all_impl. by intros c [? _]%hexdigit_plain. Qed.
Lemma drop_cr_hex a s : s <> EmptyString -> str_all is_ascii_hexdigit s = true -> drop_cr (a +:+ s) = a +:+ s.
Proof.
  intros Hne Hs. unfold drop_cr. destruct (strip_suffix _ _) as [r|] eqn:Hr; [|done]. exfalso.
  apply strip_suffix_Some, (f_equal str_rev) in Hr. rewrite !str_rev_app in Hr.
  assert (Hs' : str_all is_ascii_hexdigit (str_rev s) = true) by by rewrite str_all_rev.
  destruct (str_rev s) as [|c t] eqn:Ht.
  { apply Hne. rewrite <-(str_rev_involutive s), Ht. done. }
  change (String c (t +:+ str_rev a) = String (ascii_of_N 13) (str_rev r)) in Hr. injection Hr as -> _.
  by apply andb_true_iff in Hs' as [? _].
Qed.

(** The listing of such refs is read back whole. *)
Definition listing_of (l : list (string * string)) : string :=
  foldr (fun e s => fst e +:+ " " +:+ snd e +:+ newline +:+ s) EmptyString l.
Lemma listing_utf8 l : Forall git_ref l -> is_utf8 (listing_of l) = true.
Proof.
  induction 1 as [|[name oid] l (H1 & H2 & H3 & H4 & H5) _ IH]; [done|]. simpl in *.
  apply utf8_app; [done|]. apply (utf8_app " "); [done|]. apply utf8_app; [by apply hex_utf8|].
  by apply (utf8_app newline).
Qed.
Lemma no_char_app c a b : no_char c (a +:+ b) = no_char c a && no_char c b.
Proof.
  unfold no_char. induction a as [|x a IH]; [done|]. change (String x a +:+ b) with (String x (a +:+ b)).
  cbn [str_all]. by rewrite IH, andb_assoc.
Qed.
Definition ref_line (e : string * string) : string := fst e +:+ String " " (snd e).
Lemma listing_lines l : Forall git_ref l -> str_lines (listing_of l) = ref_line <$> l.
Proof.
  intros Hl. unfold str_lines. assert (Hs : str_split (ascii_of_N 10) (listing_of l) = (ref_line <$> l) ++ [EmptyString]).
  { induction Hl as [|[name oid] l (H1 & H2 & H3 & H4 & H5) _ IH]; [done|]. cbn [fst snd] in *. cbn [listing_of foldr fst snd].
    fold (listing_of l). assert (Heq : name +:+ " " +:+ oid +:+ newline +:+ listing_of l =
                  (name +:+ String " " oid) +:+ String (ascii_of_N 10) (listing_of l)).
    { rewrite !append_assoc. done. }
    rewrite Heq.
    cbn [fmap list_fmap app]. rewrite str_split_line; [by rewrite IH|]. change (no_char (ascii_of_N 10) (name +:+ String " " oid) = true).
    rewrite no_char_app, H3. by apply hex_no_newline in H5. }
  rewrite Hs, lines_of_ended. clear Hs. rewrite <-list_fmap_compose.
  apply list_fmap_ext. intros i [name oid] Hi%list_elem_of_lookup_2. rewrite Forall_forall in Hl.
  destruct (Hl _ Hi) as (H1 & H2 & H3 & H4 & H5). simpl in *. unfold ref_line. simpl.
  change (String " " oid) with (" " +:+ oid). rewrite <-append_assoc. apply drop_cr_hex; [|done]. by destruct oid.
Qed.
Lemma parse_ref_lines l acc r : Forall git_ref l -> parse_refs (ref_line <$> l) acc = Ok r ->
  r = foldl (fun m e => <[fst e := snd e]> m) acc l.
Proof.
  intros Hl. revert acc. induction Hl as [|[name oid] l (H1 & H2 & H3 & H4 & H5) _ IH]; intros acc; simpl in *.
  { by intros [= <-]. }
  unfold ref_line at 1. simpl. rewrite split_once_at by done. rewrite H4, H5. cbn [Nat.eqb andb negb].
  case_match; [done|]. apply IH.
Qed.
Lemma foldl_insert_all (l : list (string * string)) (acc : gmap string string) k v : NoDup (fst <$> l) ->
  (foldl (fun m e => <[fst e := snd e]> m) acc l) !! k = Some v <->
  (k, v) ∈ l \/ (k ∉ (fst <$> l) /\ acc !! k = Some v).
Proof.
  revert acc. induction l as [|[k0 v0] l IH]; intros acc; simpl.
  { intros _. split; [intros; right; split; [by intros ?%elem_of_nil|done]|]. by intros [?%elem_of_nil|[_ ?]]. }
  intros [Hk Hnd]%NoDup_cons. rewrite (IH _ Hnd), !elem_of_cons.
  destruct (decide (k = k0)) as [->|Hne].
  - rewrite lookup_insert_eq. split.
    + intros [Hin|[_ [= ->]]]; [|by left; left]. destruct Hk. apply list_elem_of_fmap. by exists (k0, v).
    + intros [[[= ->]|Hin]|[Hno _]]; [by right|by left|]. destruct Hno. by left.
  - rewrite lookup_insert_ne by done. split.
    + intros [?|[Hno ?]]; [by left; right|]. right. split; [|done]. by intros [?|?].
    + intros [[[= ? ?]|?]|[Hno ?]]; [done|by left|]. right. split; [|done]. intros ?. apply Hno. by right.
Qed.
Lemma iter_refs_entries m e : e ∈ iter_refs m <-> m !! fst e = Some (snd e).
Proof. unfold iter_refs. rewrite merge_sort_Permutation. destruct e. apply elem_of_map_to_list. Qed.
Lemma iter_refs_keys m : NoDup (fst <$> iter_refs m).
Proof. unfold iter_refs. rewrite merge_sort_Permutation. apply NoDup_fst_map_to_list. Qed.

Definition git_refs (ws : Workspace) : Prop := map_Forall (fun name oid => git_ref (name, oid)) (ws_refs ws).
Lemma snapshot_refs_exact ws r : git_refs ws ->
  snapshot_refs (listing ws) = Ok r -> r = ws_refs ws.
Proof.
  intros Hall. unfold snapshot_refs. change (listing ws) with (listing_of (iter_refs (ws_refs ws))).
  assert (Hl : Forall git_ref (iter_refs (ws_refs ws))).
  { apply Forall_forall. intros [name oid] He%iter_refs_entries. by apply Hall. }
  rewrite listing_utf8, listing_lines by done. intros ->%parse_ref_lines; [|done].
  apply map_eq. intros k. apply option_eq. intros v.
  rewrite foldl_insert_all by apply iter_refs_keys. rewrite iter_refs_entries. simpl.
  split; [|by left]. intros [?|[_ H]]; [done|]. by rewrite lookup_empty in H.
Qed.
(** ** The commit *)

(** What a push works from: a state of its repository's line, or no state at all. *)
Definition based (w : World) (key : string) (ps : ParentState) : Prop :=
  match if_match ps with
  | None => ps = fresh
  | Some etag => exists d i older, parent_digest ps = Some d /\ installed w key d i older /\
      published w d (ps_parent ps) /\ tag_names etag d
  end.

(** What a push has published: the state [m] under the digest [d], right after the state it
    was derived from, and with the refs of the workspace [ws].  When one of its names is not
    UTF-8, the snapshot reads no ref at all: [snapshot_drops_every_ref]. *)
Record committed (w : World) (key : string) (i : Z) (ps : ParentState) (ws : Workspace)
    (success : CasSuccess) (d : string) (older : list (string * Z)) : Prop := {
  com_key : cs_manifest_key success = object_key "manifests" d;
  com_installed : installed w key d i older;
  com_published : published w d (cs_manifest success);
  com_parent : parent (cs_manifest success) = parent_digest ps;
  com_after_parent : fst <$> hd_error older = parent_digest ps;
  com_refs : git_refs ws -> refs (cs_manifest success) = ws_refs ws;
}.
(** The workspace of a push before git's receive-pack: the parent state, or an empty one. *)
Definition handed (h : HydratedRepo) (ps : ParentState) : Prop :=
  match if_match ps with
  | Some _ => hydrates h (ps_parent ps)
  | None => workspace h = bare_workspace
  end.
(** Git was run on that workspace, accepted the push and left [ws]. *)
Definition pushed_from (w : World) (ps : ParentState) (ws : Workspace) : Prop :=
  exists h, handed h ps /\ (workspace h, ws) ∈ runs w.
Lemma pushed_from_grows w w' ps ws : grows w w' -> pushed_from w ps ws -> pushed_from w' ps ws.
Proof. intros Hg (h & Hh & Hr). exists h. split; [done|]. by apply (runs_grow _ _ Hg). Qed.

Lemma committed_grows w w' key i ps ws s d older :
  grows w w' -> committed w key i ps ws s d older -> committed w' key i ps ws s d older.
Proof.
  intros Hg [H1 H2 H3 H4 H5 H6]. split; try done; [by apply (installed_grows w)|by apply (published_grows w)].
Qed.

Lemma based_complete w key ps : based w key ps -> complete w (ps_parent ps).
Proof.
  unfold based. destruct (if_match ps) as [e|].
  - intros (d & i & older & _ & _ & Hm & _). apply Hm.
  - intros ->. split; [by intros p ?%elem_of_nil|]. intros name oid x Hr. simpl in Hr.
    by rewrite lookup_empty in Hr.
Qed.

Lemma based_grows w w' key ps : grows w w' -> based w key ps -> based w' key ps.
Proof.
  intros Hg. unfold based. destruct (if_match ps) as [e|]; [|done].
  intros (d & i & older & ? & ? & ? & ?). exists d, i, older.
  split_and!; [done|by apply (installed_grows w)|by apply (published_grows w)|done].
Qed.

(** The precondition of the write holds only when the parent is the newest state. *)
Lemma unblocked_parent w key ps cond :
  world_ok w -> is_pointer key = true -> based w key ps ->
  cond = match if_match ps with Some e => IfMatch e | None => IfNoneMatchStar end ->
  blocked key cond w = false -> fst <$> hd_error (log w key) = parent_digest ps.
Proof.
  intros Hok Hptr Hb -> Hbl. rewrite <-(pointers _ Hok key Hptr). unfold based, blocked in *.
  destruct (if_match ps) as [e|].
  - destruct Hb as (d & i & older & -> & _ & _ & Ht).
    destruct (s3 w !! key) as [[b v]|]; [|done]. apply negb_false_iff, String.eqb_eq in Hbl.
    simpl. by rewrite (Ht b v).
  - subst ps. by destruct (s3 w !! key).
Qed.

Lemma put_pointer_holds i key d m ps w cond :
  world_ok w -> is_pointer key = true -> published w d m -> parent m = parent_digest ps ->
  based w key ps ->
  cond = match if_match ps with Some e => IfMatch e | None => IfNoneMatchStar end ->
  holds (put_pointer i key d cond)
    (ok_then (fun o w' => match o with
      | Won _ => exists older, installed w' key d i older /\ fst <$> hd_error older = parent_digest ps
      | LostRace => True
      end)) w.
Proof.
  intros Hok Hptr Hm Hpar Hb Hcond. unfold put_pointer. cbv zeta.
  destruct (negb _); [done|].
  apply holds_bind; [done|]. apply holds_perform. intros w1 f r w2 Hg1 Hok1 Hr.
  apply respond_put_cases in Hr as [_ [[Hbl ->]|[-> Hr]]].
  - assert (fst <$> hd_error (log w1 key) = parent_digest ps) as Hhead.
    { apply (unblocked_parent w1 key ps cond); [done..| |done|done]. by apply (based_grows w). }
    destruct (store_pointer_ok key d m i w1) as [H1 H2]; [done|done| | |].
    { by apply (published_grows w). } { by rewrite Hhead. }
    split; [done|]. split; [done|]. intros w3 Hg3 Hok3 w4 Hg4 Hok4.
    destruct (classify_cas r) as [[t|]|e]; [|done..]. exists (log w1 key). split; [|done].
    apply (installed_grows (store key d i w1)); [by etransitivity|].
    unfold installed. rewrite log_store, Hptr, String.eqb_refl. done.
  - split; [done|]. split; [reflexivity|]. intros w3 Hg3 Hok3 w4 Hg4 Hok4.
    destruct (classify_cas r) as [[t|]|e] eqn:Hc; [|done..]. exfalso.
    destruct Hr as [Hr|(-> & _)]; [|done]. destruct r as [[n t']|[c|]]; simpl in *; try done.
    + by rewrite Hr in Hc.
    + by destruct (c =? 412).
Qed.

(** Storing a manifest that is complete publishes it. *)
Lemma put_manifest_holds i m w :
  world_ok w -> version m = MANIFEST_VERSION -> valid m -> complete w m -> canonical_packs m = m ->
  holds (put_manifest i (canonical_bytes m))
    (ok_then (fun key w' => exists d, key = object_key "manifests" d /\ published w' d m)) w.
Proof.
  intros Hok Hv Hm Hc Hcan. unfold canonical_bytes. rewrite Hcan.
  eapply holds_weaken; [by apply (put_object_holds "manifests"); [right|]|].
  intros [key|e] w' Hg Hok'; [|done]. intros (-> & Ho & _). eexists. split; [done|].
  split; [done..|]. by apply (complete_grows w).
Qed.

Lemma digest_from_object_key d : digest_from_manifest_key (object_key "manifests" d) = Ok d.
Proof.
  unfold digest_from_manifest_key.
  by rewrite (proj2 (strip_prefix_Some "manifests/" (object_key "manifests" d) d)).
Qed.

Lemma cas_publish_inner_holds i community ws owner repo ps limits threshold w :
  world_ok w -> based w (pointer_key community owner repo) ps ->
  holds (cas_publish_inner i community ws owner repo ps limits threshold)
    (ok_then (fun s w' => exists d older,
       committed w' (pointer_key community owner repo) i ps ws s d older)) w.
Proof.
  intros Hok Hb. set (pkey := pointer_key community owner repo) in *.
  eapply holds_try; [done|by apply compose_manifest_holds, (based_complete _ pkey)|].
  intros m w1 Hg1 Hok1 [C1 C2 C3 C4 C5]. unfold try.
  destruct (validate m) as [[]|e] eqn:Hval; [|done]. apply validate_valid in Hval. cbn [map_err].
  eapply holds_try; [done| |].
  { apply holds_map_err; [done|by apply put_manifest_holds|].
    intros k w2 w3 Hg _ (d & -> & Hd). exists d. split; [done|]. by apply (published_grows w2). }
  intros key w2 Hg2 Hok2 (d & -> & Hd). rewrite digest_from_object_key.
  eapply holds_try; [done| |].
  { apply holds_map_err; [done| |].
    - apply (put_pointer_holds i pkey d m ps); [done..| |done].
      apply (based_grows w); [|done]. by etransitivity.
    - intros [t|] w3 w4 Hg _; [|done]. intros (older & ? & ?). exists older.
      split; [by apply (installed_grows w3)|done]. }
  intros [t|] w3 Hg3 Hok3 Hwon.
  - intros w4 Hg4 Hok4. destruct Hwon as (older & Hi & Hh). exists d, older.
    split; [done|by apply (installed_grows w3)| |done|done|].
    + apply (published_grows w2); [by etransitivity|done].
    + intros Hg. by apply snapshot_refs_exact.
  - skip; [|done]. apply quiet_ok; [done|]. unfold read_winner_after_conflict.
    apply only_try.
    { apply only_map_err, reading_quiet, reading_get_pointer. }
    intros [[t b]|]; [|done]. destruct (pointer_digest b); [|done].
    apply only_try.
    + apply only_bind; [|by intros [?|?]]. apply only_try; [apply reading_quiet, reading_get|done].
    + intros bytes. unfold try. by destruct (map_err _ _).
Qed.

(** ** Requests *)

Definition push_key (q : PushRequest) : string := pointer_key (p_community q) (p_owner q) (p_repo q).

(** What each request's answer promises. *)
Definition answers (q : GitRequest) (r : GitResponse) (w : World) : Prop :=
  match q, r with
  | Push q, Pushed (Accepted ps ws success) =>
      (exists d older, committed w (push_key q) (push_id q) ps ws success d older) /\ pushed_from w ps ws
  | Read community owner repo _, ReadDone (Ok (Some h)) =>
      exists d i older m, installed w (pointer_key community owner repo) d i older /\
        published w d m /\ hydrates h m
  | Push _, Pushed _ | Read _ _ _ _, ReadDone _ | Announce _ _ _ _, Announced _
  | ReAnnounce _ _ _ _, Announced _ | Prune _ _, Pruned => True
  | _, _ => False
  end.

Lemma hydrate_for_write_holds community owner repo options w :
  world_ok w ->
  holds (hydrate_for_write community owner repo options)
    (ok_then (fun r w' => based w' (pointer_key community owner repo) (snd r) /\ handed (fst r) (snd r))) w.
Proof.
  intros Hok. eapply holds_try; [done|by apply load_pointer_holds|].
  intros [[[etag d] m]|] w1 Hg1 Hok1.
  - intros (i & older & Hi & Hm & Hp & Ht). eapply holds_try; [done|by eapply materialize_manifest_holds|].
    intros h w2 Hg2 Hok2 Hh w3 Hg3 Hok3. split; [|exact Hh]. exists d, i, older. assert (grows w1 w3) by (by etransitivity).
    split_and!; [done|by apply (installed_grows w1)|by apply (published_grows w1)|done].
  - intros _. skip_local. unfold init_bare_repo.
    apply (holds_try _ _ (fun ws _ => ws = bare_workspace)); [done| |by intros ws w4 _ _ -> w5 _ _].
    apply (holds_try _ _ anything); [done|by apply quiet_ok|]. intros _ w4 Hg4 Hok4 _.
    apply (holds_try _ _ anything); [done|by apply quiet_ok|]. by intros _ w5 _ _ _ w6 _ _.
Qed.

Lemma hydrate_for_read_holds community owner repo options w :
  world_ok w ->
  holds (hydrate_for_read community owner repo options)
    (ok_then (fun o w' => match o with
      | None => True
      | Some h => exists d i older m, installed w' (pointer_key community owner repo) d i older /\
          published w' d m /\ hydrates h m
      end)) w.
Proof.
  intros Hok. eapply holds_try; [done|by apply load_pointer_holds|].
  intros [[[etag d] m]|] w1 Hg1 Hok1; [|by intros _ w2 _ _].
  intros (i & older & Hi & Hm & _). eapply holds_try; [done|by eapply materialize_manifest_holds|].
  intros h w2 Hg2 Hok2 Hh w3 Hg3 Hok3. exists d, i, older, m. assert (grows w1 w3) by (by etransitivity).
  split_and!; [by apply (installed_grows w1)|by apply (published_grows w1)|done].
Qed.

Lemma receive_holds ws w : world_ok w ->
  holds (receive_pack_git ws) (fun r w' => forall ws', r = Ok (true, ws') -> (ws, ws') ∈ runs w') w.
Proof.
  intros _. apply holds_perform. intros w1 f r w2 _ Hok1 Hr. simpl in Hr.
  destruct f as [|e| | | | | | | |ok ws'|]; try discriminate Hr; injection Hr as <- <-.
  { split; [done|]. split; [reflexivity|]. by intros ? _ _ ? [=]. }
  destruct ok.
  - destruct (add_run_ok ws ws' w1 Hok1) as [H1 H2]. split; [done|]. split; [done|].
    intros w3 Hg3 _ ws'' [= <-]. apply (runs_grow _ _ Hg3). by left.
  - split; [done|]. split; [reflexivity|]. by intros ? _ _ ? [=].
Qed.
Lemma receive_pack_holds q w :
  world_ok w -> holds (receive_pack q) (fun r => answers (Push q) (Pushed r)) w.
Proof.
  intros Hok. apply holds_bind; [done|]. eapply holds_weaken; [by apply hydrate_for_write_holds|].
  intros [[h ps]|e] w1 Hg1 Hok1 Hb; [|done]. simpl in Hb. destruct Hb as [Hb Hh].
  apply holds_bind; [done|]. apply holds_quiet; [done|]. intros w2 f hook Hg2 Hok2 _ w3 Hg3 Hok3.
  destruct (hook : bool); [|done]. cbn [negb].
  apply holds_bind; [done|]. eapply holds_weaken; [by apply (receive_holds (workspace h))|].
  intros pack w5 Hg5 Hok5 Hrun. destruct pack as [[ok ws]|]; [|done]. unfold finalize_push. destruct ok; [|done]. cbn [negb].
  apply holds_bind; [done|].
  assert (based w5 (push_key q) ps) as Hb5.
  { apply (based_grows w1); [|done]. by do 2 (etransitivity; [eassumption|]). }
  eapply holds_weaken; [by apply cas_publish_inner_holds|].
  intros [s|e] w6 Hg6 Hok6 Hcom; [|done].
  assert (forall w7, grows w6 w7 -> answers (Push q) (Pushed (Accepted ps ws s)) w7) as Hdone.
  { intros w7 Hg7. destruct Hcom as (d & older & Hcom).
    split; [exists d, older; by apply (committed_grows w6)|].
    apply (pushed_from_grows w5); [by etransitivity|]. exists h. split; [done|]. by apply Hrun. }
  case_match; [|by intros w7 Hg7 _; apply Hdone].
  apply holds_bind; [done|]. apply holds_quiet; [done|]. intros w7 f'' b Hg7 Hok7 _ w8 Hg8 Hok8.
  intros w9 Hg9 _. apply Hdone. by do 2 (etransitivity; [eassumption|]).
Qed.

Lemma empty_published_ok : valid empty_manifest /\ canonical_packs empty_manifest = empty_manifest.
Proof. split; [by apply validate_valid; vm_compute|done]. Qed.

Lemma empty_complete w : complete w empty_manifest.
Proof.
  split; [by intros p ?%elem_of_nil|]. intros name oid x Hr. simpl in Hr. by rewrite lookup_empty in Hr.
Qed.

Lemma seed_holds i community owner repo w :
  world_ok w -> holds (seed_manifest_pointer i community owner repo) anything w.
Proof.
  intros Hok. destruct empty_published_ok as [Hval Hcan].
  apply (holds_weaken _ (ok_then anything)); [|done]. unfold seed_manifest_pointer, try at 1.
  rewrite (proj2 (validate_valid _) Hval). cbn [map_err].
  eapply holds_try; [done| |].
  { apply holds_map_err; [done|apply put_manifest_holds; [done|done|done|apply empty_complete|done]|].
    intros k w2 w3 Hg _ (d & -> & Hd). exists d. split; [done|]. by apply (published_grows w2). }
  intros key w1 Hg1 Hok1 (d & -> & Hd). rewrite digest_from_object_key. cbn [map_err try].
  skip.
  { apply holds_map_err; [done| |done].
    apply (holds_weaken _ _ _ _ (put_pointer_holds i (pointer_key community owner repo) d empty_manifest
      fresh w1 IfNoneMatchStar Hok1 eq_refl Hd eq_refl eq_refl eq_refl)). by intros [?|?]. }
  destruct a as [t|]; [done|].
  skip; [|by repeat case_match].
  apply quiet_ok; [done|]. apply only_map_err, reading_quiet, reading_get_pointer.
Qed.

Lemma handle_holds q w : world_ok w -> holds (handle q) (answers q) w.
Proof.
  intros Hok. destruct q as [q|c o r opts|i c o r|i c o r|relay d].
  - apply holds_bind; [done|]. apply (holds_weaken _ _ _ _ (receive_pack_holds q w Hok)).
    intros resp w1 _ _ H w2 Hg Hok2. destruct resp as [ps ws s| |]; [|done..].
    destruct H as [(d & older & H) Hrun]. split; [exists d, older; by apply (committed_grows w1)|].
    by apply (pushed_from_grows w1).
  - apply holds_bind; [done|]. apply (holds_weaken _ _ _ _ (hydrate_for_read_holds c o r opts w Hok)).
    intros [[h|]|e] w1 _ _ H w2 Hg Hok2; [|done..]. destruct H as (d & i & older & m & H1 & H2 & H3).
    exists d, i, older, m. split_and!; [by apply (installed_grows w1)|by apply (published_grows w1)|done].
  - apply holds_bind; [done|]. by apply (holds_weaken _ _ _ _ (seed_holds i c o r w Hok)).
  - apply holds_bind; [done|]. apply (holds_weaken _ anything); [|done].
    apply (holds_weaken _ (ok_then anything)); [|done]. skip.
    { apply quiet_ok; [done|]. apply only_map_err, reading_quiet, reading_get_pointer. }
    destruct a as [p|]; [done|]. apply (holds_weaken _ anything); [by apply seed_holds|]. by intros [?|?].
  - apply holds_bind; [done|]. intros w1 f resp w2 Hg1 Hok1 Hr.
    assert (w2 = set_cache (delete (relay, d) (cache w1)) w1) as -> by (injection Hr as <- <-; done).
    destruct (set_cache_ok (delete (relay, d) (cache w1)) w1 Hok1) as [H1 H2]; [|by split_and!].
    intros relay' d' b' [_ Hl]%lookup_delete_Some. by eapply (cached _ Hok1).
Qed.

(** * The history of a repository *)

Definition empty_world : World := {| s3 := ∅; cache := ∅; history := ∅; runs := [] |}.

Lemma empty_world_ok : world_ok empty_world.
Proof.
  split.
  - intros prefix d b _ [_ [v H]]. simpl in H. by rewrite lookup_empty in H.
  - intros relay d b H. simpl in H. by rewrite lookup_empty in H.
  - intros key _. unfold log. simpl. by rewrite !lookup_empty.
  - intros key. unfold log. simpl. by rewrite lookup_empty.
Qed.

(** Any number of requests, at any number of relays, on a bucket that was empty. *)
Definition git_reachable : System GitRequest GitResponse -> Prop := reachable handle empty_world.

Lemma git_sound s : git_reachable s -> sound answers s.
Proof. intros Hs. apply (tasks_hold (G := git_rely) handle answers empty_world s handle_holds empty_world_ok Hs). Qed.

Lemma linked_suffix w l l' : l' `suffix_of` l -> linked w l -> linked w l'.
Proof. intros [k ->]. induction k as [|e k IH]; [done|]. intros [_ H]. by apply IH. Qed.

(** The states before a state are determined by its digest. *)
Lemma linked_determined w l l' :
  linked w l -> linked w l' -> fst <$> hd_error l = fst <$> hd_error l' -> map fst l = map fst l'.
Proof.
  revert l'. induction l as [|[d i] l IH]; intros [|[d' i'] l']; simpl; try done.
  intros [(m & Hm & Hp) Hl] [(m' & Hm' & Hp') Hl'] [= <-]. f_equal. apply IH; [done..|].
  pose proof (published_unique w d m m' Hm Hm') as <-. simpl in *. congruence.
Qed.

Lemma linked_NoDup w l : linked w l -> NoDup (map fst l).
Proof.
  induction l as [|[d i] l IH]; [constructor|]. intros Hl. pose proof Hl as [_ Hl'].
  constructor; [|by apply IH]. intros (e & Hd & He)%list_elem_of_fmap. simpl in Hd. subst d.
  apply list_elem_of_split in He as (l1 & l2 & ->).
  assert (linked w (e :: l2)) as Hl2 by (apply (linked_suffix w (l1 ++ e :: l2)); [by exists l1|done]).
  pose proof (linked_determined w _ (e :: l2) Hl Hl2 eq_refl) as Heq.
  apply (f_equal length) in Heq. simpl in Heq. rewrite !length_map, length_app in Heq. simpl in Heq. lia.
Qed.

Lemma suffix_same_length {A : Type} (l1 l2 l : list A) :
  l1 `suffix_of` l -> l2 `suffix_of` l -> length l1 = length l2 -> l1 = l2.
Proof.
  intros [k1 ->] [k2 Heq] Hlen. apply app_inj_2 in Heq; [|done]. apply Heq.
Qed.

(** Two states after the same state are the same entry of the line. *)
Lemma same_parent_same_entry w key d i older d' i' older' :
  world_ok w -> installed w key d i older -> installed w key d' i' older' ->
  fst <$> hd_error older = fst <$> hd_error older' -> i = i' /\ d = d'.
Proof.
  intros Hok Hi Hi' Hh. pose proof (chained _ Hok key) as Hl.
  destruct (linked_suffix w _ _ Hi Hl) as [_ Ho]. destruct (linked_suffix w _ _ Hi' Hl) as [_ Ho'].
  pose proof (linked_determined w older older' Ho Ho' Hh) as Heq.
  apply (f_equal length) in Heq. rewrite !length_map in Heq.
  assert ((d, i) :: older = (d', i') :: older') as [= -> -> _]; [|done].
  apply (suffix_same_length _ _ (log w key)); [done..|]. simpl. by f_equal.
Qed.

(** C19: The states published for a repository form one line: every state is stored, valid and
    complete, names the state before it as its parent, and appears once; the pointer names
    the newest.  This holds however the pushes, announcements, reads and cache evictions of
    any number of relays interleave and fail, even with ETags that depend on the content
    alone. *)
Theorem published_history_linear s key :
  git_reachable s -> is_pointer key = true ->
  linked (world s) (log (world s) key) /\ NoDup (map fst (log (world s) key)) /\
  fst <$> s3 (world s) !! key = fst <$> hd_error (log (world s) key).
Proof.
  intros [Hok _]%git_sound Hkey. pose proof (chained _ Hok key) as Hl.
  split_and!; [done|by apply (linked_NoDup (world s))|by apply (pointers _ Hok)].
Qed.


(** A repository that was read is one published state, complete: its refs, its HEAD, and
    every object they reach, although the bucket may return wrong bytes and the cache is
    shared. *)
Theorem reads_are_complete s i community owner repo options h :
  git_reachable s -> finished s i (Read community owner repo options) (ReadDone (Ok (Some h))) ->
  exists d by_request older m,
    installed (world s) (pointer_key community owner repo) d by_request older /\
    published (world s) d m /\ hydrates h m.
Proof. intros Hs%git_sound Hi. apply (sound_finished answers s i _ _ Hs Hi). Qed.

(** What a push publishes always differs from its parent, which it names: the comparison
    that should spare a push without effect its event never finds one. *)
Lemma no_push_is_a_no_op w key i ps ws success d older :
  world_ok w -> committed w key i ps ws success d older ->
  manifest_changed (parent_digest ps) (cs_manifest_key success) = true.
Proof.
  intros Hok [-> Hi _ _ Hp _]. unfold manifest_changed.
  rewrite (proj2 (strip_prefix_Some "manifests/" (object_key "manifests" d) d)) by done.
  destruct (parent_digest ps) as [p|]; [|done]. destruct (String.eqb_spec p d) as [->|]; [|done].
  exfalso. pose proof (linked_NoDup w _ (linked_suffix w _ _ Hi (chained _ Hok key))) as Hn.
  simpl in Hn. apply NoDup_cons in Hn as [Hn _]. apply Hn.
  destruct older as [|e older]; [done|]. injection Hp as Hp. rewrite <-Hp. by left.
Qed.
End history.

(** * An instance *)

Module Reference.

(** A toy digest in 64 hexadecimal digits, an encoding of manifests in bits, and a repository
    with two commits. *)
Definition hash (s : string) : Z :=
  (fix go (s : string) (h : Z) : Z :=
     match s with
     | EmptyString => h
     | String c s' => go s' (Z.land (h * 257 + Z.of_N (N_of_ascii c) + 1) (2 ^ 64 - 1))
     end) s 7.

Definition hex_digit (n : Z) : ascii :=
  match String.get (Z.to_nat (n mod 16)) "0123456789abcdef" with Some c => c | None => "0"%char end.
Fixpoint hex_digits (k : nat) (n : Z) : string :=
  match k with
  | O => EmptyString
  | S k' => String (hex_digit n) (hex_digits k' (n / 16))
  end.
Definition toy_sha (s : string) : string := hex_digits 64 (hash s).

Lemma hex_digits_shape k n :
  String.length (hex_digits k n) = k /\ str_all is_lower_hex (hex_digits k n) = true.
Proof.
  revert n. induction k as [|k IH]; intros n; [done|]. destruct (IH (n / 16)) as [H1 H2]. simpl.
  rewrite H1, H2. split; [done|]. rewrite andb_true_r. unfold hex_digit.
  generalize (Z.to_nat (n mod 16)). intros i. by do 16 (destruct i as [|i]; [done|]).
Qed.

Definition manifest_fields (m : Manifest) : Z * string * gmap string string * list string * option string :=
  (version m, head m, refs m, packs m, parent m).
#[export] Instance manifest_countable : Countable Manifest.
Proof.
  apply (inj_countable' manifest_fields
    (fun '(v, h, r, p, q) => {| version := v; head := h; refs := r; packs := p; parent := q |})).
  by intros [].
Defined.

Fixpoint pos_bits (p : positive) : string :=
  match p with xH => EmptyString | xO p => String "0" (pos_bits p) | xI p => String "1" (pos_bits p) end.
Fixpoint bits_pos (s : string) : positive :=
  match s with
  | EmptyString => xH
  | String c s' => if Ascii.eqb c "0" then xO (bits_pos s') else xI (bits_pos s')
  end.
Lemma bits_pos_bits p : bits_pos (pos_bits p) = p.
Proof. induction p as [p IH|p IH|]; simpl; by rewrite ?IH. Qed.

Definition to_vec (m : Manifest) : string := pos_bits (encode m).
Definition from_slice (s : string) : option Manifest := decode (bits_pos s).

Definition oid (c : ascii) : string := (fix go n := match n with O => "" | S n => String c (go n) end) 40%nat.
Definition commit1 : string := oid "a".
Definition commit2 : string := oid "b".
Definition pack1 : string := "PACK: first commit".
Definition pack2 : string := "PACK: second commit".

Definition state0 : Manifest := empty_manifest.
Definition state1 : Manifest :=
  {| version := 1; head := "refs/heads/main"; refs := {["refs/heads/main" := commit1]};
     packs := ["packs/" +:+ toy_sha pack1]; parent := Some (toy_sha (to_vec state0)) |}.
Definition state2 : Manifest :=
  {| version := 1; head := "refs/heads/main"; refs := {["refs/heads/main" := commit2]};
     packs := ["packs/" +:+ toy_sha pack2]; parent := Some (toy_sha (to_vec state0)) |}.
(** A first push to a repository without a pointer. *)
Definition state3 : Manifest :=
  {| version := 1; head := "refs/heads/main"; refs := {["refs/heads/main" := commit1]};
     packs := ["packs/" +:+ toy_sha pack1]; parent := None |}.
Definition states : list string := Eval vm_compute in map to_vec [state0; state1; state2; state3].
Definition bodies : list string :=
  Eval vm_compute in states ++ map toy_sha states ++ [pack1; pack2; "IDX"].

Definition known (b : string) : bool := existsb (String.eqb b) bodies.

#[export] Instance crates : GitCrates := {|
  sha256_hex := toy_sha;
  manifest_to_vec := to_vec;
  manifest_from_slice := from_slice;
  etag_of body _ := body;
  reach o := if String.eqb o commit1 then {[commit1; "tree1"]}
             else if String.eqb o commit2 then {[commit2; "tree2"]} else ∅;
  pack_objects p := if String.eqb p pack1 then {[commit1; "tree1"]}
                    else if String.eqb p pack2 then {[commit2; "tree2"]} else ∅;
  occurs := known;
|}.

Definition digests : list string := Eval vm_compute in map toy_sha bodies.
Lemma no_collisions : NoDup (map toy_sha bodies).
Proof.
  assert (map toy_sha bodies = digests) as -> by (vm_cast_no_check (eq_refl digests)).
  apply (bool_decide_unpack _). by vm_compute.
Qed.

Lemma NoDup_map_inj {A B : Type} (f : A -> B) l a b :
  NoDup (map f l) -> In a l -> In b l -> f a = f b -> a = b.
Proof.
  intros Hn [i Ha]%list_elem_of_In%list_elem_of_lookup [j Hb]%list_elem_of_In%list_elem_of_lookup Hf.
  assert (i = j) as ->; [|congruence]. change (NoDup (f <$> l)) in Hn.
  apply (proj1 (NoDup_alt (f <$> l)) Hn i j (f a)); rewrite list_lookup_fmap.
  - by rewrite Ha.
  - rewrite Hb, Hf. done.
Qed.

Lemma known_no_collision a b :
  known a = true -> known b = true -> toy_sha a = toy_sha b -> a = b.
Proof.
  assert (forall c, known c = true -> In c bodies) as Hin.
  { intros c Hc. apply existsb_exists in Hc as (c' & Hc & Heq). apply String.eqb_eq in Heq as ->. exact Hc. }
  intros Ha Hb. apply NoDup_map_inj with (1 := no_collisions); by apply Hin.
Qed.

#[export] Instance laws : GitLaws crates.
Proof.
  split.
  - intros s. change (is_manifest_digest (hex_digits 64 (hash s)) = true).
    generalize (hash s). intros n. unfold is_manifest_digest.
    destruct (hex_digits_shape 64 n) as [H1 H2]. rewrite H1, H2. done.
  - exact known_no_collision.
  - intros m _ _. change (decode (bits_pos (pos_bits (encode m))) = Some m).
    rewrite bits_pos_bits. apply decode_encode.
  - by intros b v b' v'.
Qed.

Definition options : HydrationOptions :=
  {| pack_cache := 1; ho_max_pack_bytes := 1000; ho_max_repo_bytes := 10000 |}.
Definition push_to (id : Z) : PushRequest :=
  {| push_id := id; p_community := "c"; p_owner := "alice"; p_repo := "repo.git"; p_repo_id := "repo";
     p_pusher := "bob"; p_options := options |}.
Definition pushed (commit : string) (objects : gset string) : Workspace :=
  {| ws_refs := {["refs/heads/main" := commit]}; ws_head := "refs/heads/main"; ws_objects := objects |}.

(** Git's replies to the push of a commit. *)
Definition git (commit pack : string) (o : Op) : Fault :=
  match o with
  | Local => Answer true
  | Elapsed | InsertEvent _ => Answer false
  | ReceivePack _ => Received true (pushed commit (reach commit))
  | PackObjects _ _ _ => Output pack
  | IndexPack _ => Output "IDX"
  | _ => Serve
  end.

Definition end_of (moves : list (Move GitRequest)) : System GitRequest GitResponse :=
  end_from handle empty_world moves.

(** Two pushes to an announced repository, the second hydrated before the first commits, then
    a read. *)
Definition demo : list (Move GitRequest) :=
  [Start 1 (Announce 1 "c" "alice" "repo"); Run 1 50 (git "" "");
   Start 2 (Push (push_to 2)); Start 3 (Push (push_to 3)); Run 3 10 (git commit2 pack2);
   Run 2 50 (git commit1 pack1); Run 3 50 (git commit2 pack2);
   Start 4 (Read "c" "alice" "repo" options); Run 4 50 (git "" "")].

Lemma push_demo_reachable : git_reachable (end_of demo).
Proof. apply end_reachable. by vm_compute. Qed.

Definition the_key : string := pointer_key "c" "alice" "repo".

(** What the requests of the scenario were answered. *)
Definition accepted (i : nat) (q : PushRequest) (moves : list (Move GitRequest))
  : option (ParentState * Workspace * CasSuccess) :=
  match outcome i (end_of moves) with
  | Some (_, Pushed (Accepted ps ws success)) => Some (ps, ws, success)
  | _ => None
  end.
Definition status (i : nat) (moves : list (Move GitRequest)) : option Z :=
  match outcome i (end_of moves) with Some (_, Pushed (Failed n)) => Some n | _ => None end.
Definition read (i : nat) (moves : list (Move GitRequest)) : option HydratedRepo :=
  match outcome i (end_of moves) with Some (_, ReadDone (Ok (Some h))) => Some h | _ => None end.
End Reference.

Import Reference.

Example published_history_linear_witness :
  length (log (world (end_of demo)) the_key) = 2%nat /\
  NoDup (map fst (log (world (end_of demo)) the_key)).
Proof.
  split; [by vm_compute|].
  apply (published_history_linear (end_of demo) the_key); [apply push_demo_reachable|reflexivity].
Defined.

(** The first push was accepted, the second answered 409. *)
Definition accepted_id (i : nat) (s : System GitRequest GitResponse) : option Z :=
  match outcome i s with Some (Push q, Pushed (Accepted _ _ _)) => Some (push_id q) | _ => None end.


Example reads_are_complete_witness :
  exists options h d by_request older m,
    finished (end_of demo) 4 (Read "c" "alice" "repo" options) (ReadDone (Ok (Some h))) /\
    installed (world (end_of demo)) the_key d by_request older /\
    published (world (end_of demo)) d m /\ hydrates h m.
Proof.
  assert (match outcome 4 (end_of demo) with
          | Some (Read c o r _, ReadDone (Ok (Some _))) =>
              String.eqb c "c" && String.eqb o "alice" && String.eqb r "repo"
          | _ => false end = true) as H by (by vm_compute).
  destruct (outcome 4 (end_of demo)) as [[[?|c o r opts|????|????|??] [?|[[h|]|?]|?|]]|] eqn:Ho;
    try discriminate H.
  apply andb_true_iff in H as [[->%String.eqb_eq ->%String.eqb_eq]%andb_true_iff ->%String.eqb_eq].
  apply outcome_finished in Ho.
  destruct (reads_are_complete (end_of demo) 4 "c" "alice" "repo" opts h push_demo_reachable Ho)
    as (d & i & older & m & H). exists opts, h, d, i, older, m. split; [exact Ho|exact H].
Defined.

(** A re-announcement that finds no pointer and then loses the creation to a first push is an
    error, although the pointer exists. *)
Definition reannounce_race : list (Move GitRequest) :=
  [Start 1 (ReAnnounce 1 "c" "alice" "repo"); Run 1 1 (git "" "");
   Start 2 (Push (push_to 2)); Run 2 50 (git commit1 pack1); Run 1 50 (git "" "")].

Example reannounce_loses_to_first_push :
  match outcome 1 (end_of reannounce_race) with
  | Some (_, Announced (Err _)) => true
  | _ => false
  end = true /\ accepted_id 2 (end_of reannounce_race) = Some 2.
Proof. by vm_compute. Qed.

(** A ref whose name is not UTF-8 makes the snapshot lose every ref: the next state would be
    published without any. *)
Definition odd_name : string := "refs/heads/" +:+ String (ascii_of_N 255) EmptyString.
Example snapshot_drops_every_ref :
  snapshot_refs (listing {| ws_refs := {["refs/heads/main" := commit1; odd_name := commit2]};
                            ws_head := "refs/heads/main"; ws_objects := ∅ |}) = Ok ∅.
Proof. by vm_compute. Qed.
