(* ===== verification/GitClone.v ===== *)
(** A published repository can be read: when no operation of the read itself fails, it ends
    with the complete repository, whatever other requests do meanwhile, unless the state it
    found exceeds the relay's own limits. *)
From S2P Require Import Prelude Text Programs GitStore GitPublish GitHistory.
Local Open Scope string_scope.
Local Open Scope list_scope.
Local Open Scope Z_scope.
Local Open Scope buzz_scope.

Section clone.
Context {C : GitCrates} {L : GitLaws C}.

(** The index git generates for a pack. *)
Context (index_of : string -> string).

(** Nothing fails: local steps succeed, no deadline passes, the bucket serves. *)
Definition normal (o : Op) : Fault :=
  match o with
  | Local => Answer true
  | Elapsed => Answer false
  | IndexPack pack => Output (index_of pack)
  | _ => Serve
  end.

(** The limits of hydration on the packs [keys], [n] bytes being taken. *)
Fixpoint within (w : World) (options : HydrationOptions) (keys : list string) (n : Z) : bool :=
  match keys with
  | [] => true
  | key :: keys' =>
      match s3 w !! key with
      | Some (b, _) =>
          let len := Z.of_nat (String.length b) in
          (len <=? ho_max_pack_bytes options)
          && (Z.of_nat (String.length (index_of b)) <=? ho_max_pack_bytes options)
          && (n + len <=? U64_MAX) && (n + len <=? ho_max_repo_bytes options)
          && within w options keys' (n + len)
      | None => false
      end
  end.

(** The state [m] is within what a relay with [options] hydrates. *)
Definition fits (w : World) (options : HydrationOptions) (m : Manifest) : bool :=
  (Z.of_nat (String.length (manifest_to_vec m)) <=? MAX_MANIFEST_BYTES)
  && within w options (packs m) 0.

Lemma within_grows w w' options keys n :
  grows w w' -> stored w keys -> within w' options keys n = within w options keys n.
Proof.
  intros Hg. revert n. induction keys as [|key keys IH]; intros n Hs; [done|]. simpl.
  destruct (Hs key) as [b Hb]; [by left|]. destruct (objects_persist _ _ Hg _ _ Hb) as [_ [v' Hv']].
  destruct Hb as [_ [v Hv]]. rewrite Hv, Hv', IH; [done|]. intros p Hp. apply Hs. by right.
Qed.

Notation gives := (delivers normal).

Lemma gives_quiet (o : Op) (Q : Reply o -> World -> Prop) w :
  quiet o ->
  (forall w', grows w w' -> world_ok w' ->
    exists r, respond o (normal o) w' = Some (r, w') /\
      forall w3, grows w' w3 -> world_ok w3 -> Q r w3) ->
  gives (perform o) Q w.
Proof.
  intros Hq H w' Hg Hok. destruct (H w' Hg Hok) as (r & Hr & HQ). exists r, w'.
  split_and!; [done|done|reflexivity|]. intros w3. apply HQ.
Qed.

Lemma gives_local {E : Type} (e : E) w : world_ok w -> gives (local e) (ok_with anything) w.
Proof.
  intros Hok. apply delivers_bind; [done|]. apply gives_quiet; [done|].
  intros w' Hg Hok'. by exists true.
Qed.

Ltac give_local := apply (delivers_try _ _ _ anything); [done|by apply gives_local|intros ? ? ? ? _].

(** The operations of a read are answered, hence every read ends. *)
Notation answered := (fun o => forall w, exists r w', respond o (normal o) w = Some (r, w')).

Lemma reading_answered {A : Type} (p : prog A) : only reading p -> only answered p.
Proof. apply only_weaken. intros []; try done; intros _ w; simpl; eauto. Qed.

Lemma answered_populate relay key d n : only answered (populate relay key d n).
Proof.
  unfold populate. apply only_try; [apply reading_answered, reading_local|]. intros _.
  apply only_try; [apply only_map_err, reading_answered, only_try; [apply reading_get_limited|done]|].
  intros b. apply only_try; [apply reading_answered, reading_local|]. intros _.
  apply only_try; [apply reading_answered, reading_install_idx|]. intros _.
  apply only_try; [apply reading_answered, reading_local|]. intros _.
  apply only_bind; [by apply reading_answered|]. intros [|]; [done|].
  apply only_try; [apply reading_answered, reading_local|]. intros _.
  split; [|done]. intros w. simpl. eauto.
Qed.

Lemma answered_materialize_pack relay key d n : only answered (materialize_pack relay key d n).
Proof.
  unfold materialize_pack. destruct (negb _); [done|].
  match goal with |- context [match _ with Some _ => _ | None => ?f end] => set (fetch := f) end.
  assert (only answered fetch) as Hf.
  { apply only_bind; [by apply reading_answered|]. intros [b|].
    - by apply only_try; [apply reading_answered, reading_local|].
    - apply only_try; [apply answered_populate|]. intros b.
      by apply only_try; [apply reading_answered, reading_local|]. }
  apply only_bind; [by apply reading_answered|]. intros [b|]; [|done].
  apply only_bind; [by apply reading_answered|]. intros [|]; [done|].
  split; [|done]. intros w. simpl. eauto.
Qed.

Lemma answered_materialize m options : only answered (materialize_manifest m options).
Proof.
  unfold materialize_manifest. apply only_try; [apply reading_answered, reading_local|]. intros _.
  apply only_try.
  { by repeat (apply only_try; [apply reading_answered, reading_local|]; intros _). }
  intros _. apply only_try.
  { generalize (∅ : gset string), 0. induction (packs m) as [|key keys IH]; intros objects n; [done|].
    cbn [materialize_packs]. case_match; [|done]. apply only_try; [apply answered_materialize_pack|].
    intros b. cbv zeta. case_match; [done|]. case_match; [|done]. case_match; [done|]. apply IH. }
  intros [objects n]. apply only_try.
  { induction (iter_refs (refs m)) as [|[name oid] l IH]; [done|]. cbn [install_refs].
    case_match; [done|]. case_match; [done|].
    by repeat (apply only_try; [apply reading_answered, reading_local|]; intros _). }
  intros _. case_match; [done|]. by apply only_try; [apply reading_answered, reading_local|].
Qed.

Lemma gives_reading {A : Type} (p : prog A) w : world_ok w -> only reading p -> gives p anything w.
Proof.
  intros Hok Hp. apply holds_delivers; [by apply reading_answered|].
  by apply quiet_holds; [|apply reading_quiet].
Qed.

Lemma gives_get key b w :
  world_ok w -> object_at w key b -> gives (get key) (ok_with (fun b' _ => b' = b)) w.
Proof.
  intros Hok Hb. apply delivers_bind; [done|]. apply gives_quiet; [done|]. intros w' Hg Hok'.
  destruct (objects_persist _ _ Hg _ _ Hb) as [_ [v Hv]]. exists (Ok (Some (etag_of b v), b)).
  split; [|by intros w3 _ _ w4 _ _]. simpl. by rewrite Hv.
Qed.

Lemma gives_get_limited key b n w :
  world_ok w -> object_at w key b -> Z.of_nat (String.length b) <= n ->
  gives (get_limited key n) (ok_with (fun b' _ => b' = b)) w.
Proof.
  intros Hok Hb Hn. apply delivers_bind; [done|]. apply gives_quiet; [done|]. intros w' Hg Hok'.
  destruct (objects_persist _ _ Hg _ _ Hb) as [_ [v Hv]].
  exists (Ok (Some (Z.of_nat (String.length b)), 200)). split; [simpl; by rewrite Hv|].
  intros w3 Hg3 Hok3. cbv iota zeta. cbn [success_status andb negb Z.eqb Z.leb Z.ltb].
  destruct (Z.of_nat (String.length b) <? 0) eqn:Hneg; [lia|].
  destruct (n <? Z.of_nat (String.length b)) eqn:Hlt; [lia|].
  apply (delivers_try _ _ _ (fun b' _ => b' = b)); [done| |].
  { apply gives_get; [done|]. apply (objects_persist w); [by etransitivity|done]. }
  intros b' w4 Hg4 Hok4 ->. cbv zeta. rewrite Hlt. by intros w5 _ _.
Qed.

(** An object over the limit is refused. *)
Lemma gives_too_large key b n w :
  world_ok w -> object_at w key b -> 0 <= n < Z.of_nat (String.length b) ->
  gives (get_limited key n) (fun r _ => is_ok r = false) w.
Proof.
  intros Hok Hb Hn. apply delivers_bind; [done|]. apply gives_quiet; [done|]. intros w' Hg Hok'.
  destruct (objects_persist _ _ Hg _ _ Hb) as [_ [v Hv]].
  exists (Ok (Some (Z.of_nat (String.length b)), 200)). split; [simpl; by rewrite Hv|].
  intros w3 Hg3 Hok3. cbv iota zeta. cbn [success_status andb negb Z.eqb Z.leb Z.ltb].
  destruct (Z.of_nat (String.length b) <? 0) eqn:Hneg; [lia|].
  destruct (n <? Z.of_nat (String.length b)) eqn:Hlt; [|lia]. by intros w4 _ _.
Qed.

Lemma gives_get_verified_limited prefix d b n w :
  world_ok w -> immutable_prefix prefix -> object_at w (object_key prefix d) b ->
  Z.of_nat (String.length b) <= n ->
  gives (get_verified_limited (object_key prefix d) d n) (ok_with (fun b' _ => b' = b)) w.
Proof.
  intros Hok Hp Hb Hn.
  apply (delivers_try _ _ _ (fun b' _ => b' = b)); [done|by apply gives_get_limited|].
  intros b' w1 Hg1 Hok1 -> w2 Hg2 Hok2.
  destruct (addressed _ Hok prefix d b Hp Hb) as [Hd _]. unfold check_digest.
  by rewrite Hd, String.eqb_refl.
Qed.

Lemma gives_get_pointer key w :
  world_ok w -> is_pointer key = true -> log w key <> [] ->
  gives (get_pointer key)
    (ok_with (fun o w' => exists etag d i older m, o = Some (etag, d) /\ installed w' key d i older /\
       published w' d m /\ log w key `suffix_of` (d, i) :: older)) w.
Proof.
  intros Hok Hptr Hlog. apply delivers_bind; [done|]. apply gives_quiet; [done|]. intros w' Hg Hok'.
  assert (log w' key <> []) as Hlog'.
  { destruct (log_grows _ _ Hg key) as [k Hk]. rewrite Hk. by intros [_ ?]%app_eq_nil. }
  pose proof (pointers _ Hok' key Hptr) as Hh.
  destruct (s3 w' !! key) as [[b v]|] eqn:Hb; [|by destruct (log w' key)].
  destruct (pointer_newest w' key b v Hok' Hptr Hb) as (i & older & m & Hl & Hm & _).
  exists (Ok (Some (etag_of b v), b)). split; [simpl; by rewrite Hb|].
  intros w3 Hg3 Hok3 w4 Hg4 Hok4. exists (etag_of b v), b, i, older, m.
  assert (grows w' w4) as Hg' by (by etransitivity).
  split_and!; [done| |by apply (published_grows w')|rewrite <-Hl; apply Hg].
  apply (installed_grows w'); [done|]. unfold installed. by rewrite Hl.
Qed.

(** What a read of the pointer finds: the newest state at that time, or one over the size a
    manifest may have. *)
Definition found (before : list (string * Z)) (w : World) (key : string)
    (r : result (option (string * string * Manifest)) HydrateError) : Prop :=
  exists d i older m, installed w key d i older /\ published w d m /\
    before `suffix_of` (d, i) :: older /\
    ((exists etag, r = Ok (Some (etag, d, m))) \/
     (is_ok r = false /\ MAX_MANIFEST_BYTES < Z.of_nat (String.length (manifest_to_vec m)))).

Lemma gives_load_pointer community owner repo w :
  world_ok w -> log w (pointer_key community owner repo) <> [] ->
  gives (load_pointer community owner repo)
    (fun r w' => found (log w (pointer_key community owner repo)) w' (pointer_key community owner repo) r) w.
Proof.
  intros Hok Hlog. eapply delivers_try; [done| |].
  { apply delivers_map_err; [done|by apply gives_get_pointer|].
    intros o w1 w2 Hg _ (etag & d & i & older & m & -> & Hi & Hm & Ho). exists etag, d, i, older, m.
    split_and!; [done|by apply (installed_grows w1)|by apply (published_grows w1)|done]. }
  intros o w1 Hg1 Hok1 (etag & d & i & older & m & -> & Hi & Hm & Ho). cbv iota.
  rewrite pointer_digest_id by (by apply (published_digest w1 d m)).
  destruct (decide (Z.of_nat (String.length (manifest_to_vec m)) <= MAX_MANIFEST_BYTES)) as [Hle|Hgt];
    cycle 1.
  { apply delivers_bind; [done|]. apply delivers_bind; [done|]. apply delivers_bind; [done|].
    eapply delivers_weaken; [by apply (gives_too_large _ (manifest_to_vec m)); [|apply Hm|split; [done|lia]]|].
    intros [bytes|e] w2 Hg2 Hok2 Hr; [done|]. intros w3 Hg3 Hok3 w4 Hg4 Hok4 w5 Hg5 Hok5.
    assert (grows w1 w5) by (by do 3 (etransitivity; [eassumption|])).
    exists d, i, older, m.
    split_and!; [by apply (installed_grows w1)|by apply (published_grows w1)|done|right; split; [done|lia]]. }
  eapply delivers_try; [done| |].
  { apply delivers_map_err; [done|by apply (gives_get_verified_limited "manifests"); [|right|apply Hm|]|done]. }
  intros bytes w2 Hg2 Hok2 ->. rewrite from_bytes_canonical by apply Hm. cbn [map_err try].
  rewrite (proj2 (validate_valid m)) by apply Hm. cbn [map_err try].
  intros w3 Hg3 Hok3. exists d, i, older, m. assert (grows w1 w3) by (by etransitivity).
  split_and!; [by apply (installed_grows w1)|by apply (published_grows w1)|done|left; by exists etag].
Qed.

(** ** Materialization *)

Lemma gives_install_idx d b n w :
  world_ok w -> Z.of_nat (String.length (index_of b)) <= n ->
  gives (install_or_generate_idx d b n) (ok_with anything) w.
Proof.
  intros Hok Hn. apply delivers_bind; [done|].
  eapply delivers_weaken; [by apply gives_reading, reading_get_idx|]. intros r w1 Hg1 Hok1 _.
  assert (gives (await idx <- index_pack b ;;
    match idx with
    | None => Ret (Err Hydrate)
    | Some idx => if n <? Z.of_nat (String.length idx) then Ret (Err HResourceLimit) else Ret (Ok tt)
    end)%buzz (ok_with anything) w1) as Hgen.
  { apply delivers_bind; [done|]. apply gives_quiet; [done|]. intros w2 Hg2 Hok2.
    exists (Some (index_of b)). split; [done|]. intros w3 Hg3 Hok3.
    destruct (n <? _) eqn:Hlt; [lia|]. by intros w4 _ _. }
  destruct r as [[s|]|e]; [|done..]. give_local. apply delivers_bind; [done|].
  apply gives_quiet; [done|]. intros w3 Hg3 Hok3. exists true. split; [done|]. by intros w4 _ _ w5 _ _.
Qed.

Lemma gives_populate relay d b n w :
  world_ok w -> object_at w (object_key "packs" d) b -> Z.of_nat (String.length b) <= n ->
  Z.of_nat (String.length (index_of b)) <= n ->
  gives (populate relay (object_key "packs" d) d n) (ok_with (fun b' _ => b' = b)) w.
Proof.
  intros Hok Hb Hn Hi. unfold populate. give_local.
  apply (delivers_try _ _ _ (fun b' _ => b' = b)); [done| |].
  { apply delivers_map_err; [done| |done].
    apply gives_get_verified_limited; [done|by left| |done]. by apply (objects_persist w). }
  intros b' w2 Hg2 Hok2 ->. give_local.
  apply (delivers_try _ _ _ anything); [done|by apply gives_install_idx|intros ? ? ? ? _]. give_local.
  apply delivers_bind; [done|]. apply gives_quiet; [done|]. intros w6 Hg6 Hok6. exists true.
  split; [done|]. by intros w7 _ _ w8 _ _.
Qed.

(** A cache entry is the pack of its digest. *)
Lemma gives_cache_lookup relay d b w :
  world_ok w -> object_at w (object_key "packs" d) b ->
  gives (cache_lookup relay d) (fun o _ => o = Some b \/ o = None) w.
Proof.
  intros Hok Hb. apply gives_quiet; [done|]. intros w' Hg Hok'.
  exists (cache w' !! (relay, d)). split; [done|]. intros w3 _ _.
  destruct (cache w' !! (relay, d)) as [b'|] eqn:Hc; [|by right]. left. f_equal.
  destruct (cached _ Hok' relay d b' Hc) as [H1 H2].
  destruct (addressed _ Hok "packs" d b) as [H3 H4]; [by left|done|].
  apply sha256_no_collision; congruence.
Qed.

Lemma gives_materialize_pack relay d b n w :
  world_ok w -> object_at w (object_key "packs" d) b -> is_manifest_digest d = true ->
  Z.of_nat (String.length b) <= n -> Z.of_nat (String.length (index_of b)) <= n ->
  gives (materialize_pack relay (object_key "packs" d) d n) (ok_with (fun b' _ => b' = b)) w.
Proof.
  intros Hok Hb [Hl Hd]%andb_true_iff Hn Hi. unfold materialize_pack. rewrite Hl.
  rewrite (str_all_impl is_lower_hex is_ascii_hexdigit d lower_hex_hex Hd). cbn [andb negb].
  apply delivers_bind; [done|]. eapply delivers_weaken; [by apply (gives_cache_lookup relay d b)|].
  intros o w1 Hg1 Hok1 [->| ->].
  - apply delivers_bind; [done|]. apply gives_quiet; [done|]. intros w2 Hg2 Hok2. exists true.
    split; [done|]. by intros w3 _ _ w4 _ _.
  - assert (object_at w1 (object_key "packs" d) b) as Hb1 by (by apply (objects_persist w)).
    apply delivers_bind; [done|]. eapply delivers_weaken; [by apply (gives_cache_lookup relay d b)|].
    intros o w2 Hg2 Hok2 [->| ->]; [give_local; by intros w4 _ _|].
    apply (delivers_try _ _ _ (fun b' _ => b' = b)); [done| |].
    { apply gives_populate; [done| |done..]. by apply (objects_persist w1). }
    intros b' w3 Hg3 Hok3 ->. give_local. by intros w5 _ _.
Qed.

Lemma gives_materialize_packs options keys objects n w :
  world_ok w -> stored w keys -> Forall (fun p => is_pack_key p = true) keys ->
  within w options keys n = true ->
  gives (materialize_packs options keys objects n) (ok_with (fun r _ => unpacked keys (fst r) /\ objects ⊆ fst r)) w.
Proof.
  revert objects n w. induction keys as [|key keys IH]; intros objects n w Hok Hs Hk Hin.
  { intros w' _ _. split; [|done]. by intros p ?%elem_of_nil. }
  apply Forall_cons in Hk as [(d & -> & Hd & Hp)%pack_key_digest Hk].
  destruct (Hs (object_key "packs" d)) as [b Hb]; [by left|]. pose proof Hb as [_ [v Hv]].
  cbn [within] in Hin. rewrite Hv in Hin. rewrite !andb_true_iff, !Z.leb_le in Hin.
  destruct Hin as [[[[H1 H2] H3] H4] H5]. cbn [materialize_packs]. rewrite Hp.
  apply (delivers_try _ _ _ (fun b' _ => b' = b)); [done|by apply gives_materialize_pack|].
  intros b' w1 Hg1 Hok1 ->. cbv zeta.
  destruct (ho_max_pack_bytes options <? _) eqn:E1; [lia|].
  unfold checked_add. rewrite (proj2 (Z.leb_le _ _) H3). cbv iota.
  destruct (ho_max_repo_bytes options <? _) eqn:E2; [lia|].
  assert (stored w keys) as Hs' by (intros p Hp'; apply Hs; by right).
  eapply delivers_weaken; [apply IH; [done|by apply (stored_grows w)|done|]|].
  { by rewrite (within_grows w w1). }
  intros [[objs n']|e] w2 Hg2 Hok2; [|done]. simpl. intros [Hu Hsub]. split; [|set_solver].
  intros p [->|Hp']%elem_of_cons; [|by apply Hu].
  destruct (addressed _ Hok "packs" d b) as [H6 H7]; [by left|done|].
  exists d, b. split_and!; [done..|set_solver].
Qed.

Lemma gives_install_refs l w :
  world_ok w -> Forall (fun e => is_safe_refname (fst e) = true /\ is_hex_oid (snd e) = true) l ->
  gives (install_refs l) (ok_with anything) w.
Proof.
  revert w. induction l as [|[n o] l IH]; [done|]. intros w Hok [[H1 H2] Hl]%Forall_cons.
  cbn [install_refs]. simpl in H1, H2. rewrite H1, H2. cbn [negb]. give_local. give_local. by apply IH.
Qed.

Lemma gives_materialize_manifest m d options w :
  world_ok w -> published w d m -> within w options (packs m) 0 = true ->
  gives (materialize_manifest m options) (ok_with (fun h _ => hydrates h m)) w.
Proof.
  intros Hok Hm Hin. destruct (pub_valid _ _ _ Hm) as [_ _ Hh Hr Hp _].
  unfold materialize_manifest. give_local.
  apply (delivers_try _ _ _ anything); [done| |intros ? ? ? ? _]. { give_local. give_local. by intros ? _ _. }
  match goal with |- gives _ _ ?w1 => assert (grows w w1) as Hg by (by etransitivity) end.
  pose proof (published_grows _ _ _ _ Hg Hm) as Hm1.
  pose proof (proj1 (proj1 (complete_holds_all _ _) (pub_complete _ _ _ Hm))) as Hs.
  eapply delivers_try; [done|apply gives_materialize_packs; [done| |done|]|].
  { by apply (stored_grows w). } { by rewrite (within_grows w). }
  intros [objects n] w3 Hg3 Hok3 [Hun _]. cbv iota.
  apply (delivers_try _ _ _ anything); [done|by apply gives_install_refs|intros ? ? ? ? _].
  rewrite Hh. cbn [negb]. give_local. intros w6 _ _. split_and!; [done|done|]. simpl.
  apply (complete_unpacked w3 m); [done| |done].
  apply (complete_grows w); [by etransitivity|apply Hm].
Qed.

(** C34: A repository with a published state can be read by every relay: when none of its own
    operations fails, a read ends, whatever other requests do between its operations, with a
    complete published state at least as new as the newest when it began, unless the state it
    finds exceeds the relay's limits. *)
Theorem published_repositories_clone s community owner repo options :
  git_reachable s -> log (world s) (pointer_key community owner repo) <> [] ->
  gives (hydrate_for_read community owner repo options)
    (fun r w => exists d by_request older m,
       installed w (pointer_key community owner repo) d by_request older /\ published w d m /\
       log (world s) (pointer_key community owner repo) `suffix_of` (d, by_request) :: older /\
       (fits w options m = true -> exists h, r = Ok (Some h) /\ hydrates h m))
    (world s).
Proof.
  intros [Hok _]%git_sound Hlog. apply delivers_bind; [done|].
  eapply delivers_weaken; [by apply gives_load_pointer|].
  intros r w1 Hg1 Hok1 (d & i & older & m & Hi & Hm & Ho & Hr).
  destruct Hr as [[etag ->]|[Hr Hlen]]; cycle 1.
  { destruct r as [o|e]; [done|]. intros w2 Hg2 Hok2. exists d, i, older, m.
    split_and!; [by apply (installed_grows w1)|by apply (published_grows w1)|done|].
    intros [Hle _]%andb_true_iff. lia. }
  destruct (fits w1 options m) eqn:Hfits; cycle 1.
  { apply delivers_bind; [done|]. eapply delivers_weaken.
    { eapply holds_delivers; [apply answered_materialize|by eapply materialize_manifest_holds]. }
    assert (forall w2, grows w1 w2 -> fits w2 options m = false) as Hno.
    { intros w2 Hg2. rewrite <-Hfits. unfold fits. f_equal. apply (within_grows w1); [done|].
      apply complete_holds_all, Hm. }
    intros [h|e] w2 Hg2 Hok2 _ w3 Hg3 Hok3; exists d, i, older, m; (assert (grows w1 w3) by (by etransitivity));
      (split_and!; [by apply (installed_grows w1)|by apply (published_grows w1)|done|by rewrite Hno]). }
  apply andb_true_iff in Hfits as [_ Hin].
  eapply delivers_try; [done|by eapply gives_materialize_manifest|].
  intros h w2 Hg2 Hok2 Hh w3 Hg3 Hok3. exists d, i, older, m. assert (grows w1 w3) by (by etransitivity).
  split_and!; [by apply (installed_grows w1)|by apply (published_grows w1)|done|]. intros _. by exists h.
Qed.
End clone.

Import Reference.

Lemma demo_log : log (world (end_of demo)) (pointer_key "c" "alice" "repo") <> [].
Proof.
  assert (match log (world (end_of demo)) (pointer_key "c" "alice" "repo") with
          | [] => false | _ => true end = true) as H by (by vm_compute).
  intros E. rewrite E in H. discriminate H.
Qed.

Example published_repositories_clone_witness :
  let index _ := "IDX" in
  fits index (world (end_of demo)) options state1 = true /\
  delivers (normal index) (hydrate_for_read "c" "alice" "repo" options)
    (fun r w => exists d by_request older m,
       installed w the_key d by_request older /\ published w d m /\
       log (world (end_of demo)) the_key `suffix_of` (d, by_request) :: older /\
       (fits index w options m = true -> exists h, r = Ok (Some h) /\ hydrates h m))
    (world (end_of demo)).
Proof.
  split; [by vm_compute|].
  apply (published_repositories_clone (fun _ => "IDX") (end_of demo)); [apply push_demo_reachable|].
  exact demo_log.
Defined.
